(* ===== verification/_CoqProject ===== *)
-Q . S2P
Prelude.v
Hash.v
SegFormat.v
RawBlock.v
SegIndex.v
SegBlock.v
Ranges.v
PMeta.v
KeyLayout.v
SegPack.v
SegLayout.v
SegReader.v
MemoryCatalog.v
CatFormat.v
CatCodec.v
CatTree.v
CatReader.v
CatAppend.v
CatRetention.v
CatExample.v
BlobStore.v
CatEngine.v
CatLog.v
CatMono.v
CatSafe.v
CatEngineSafe.v
CatSession.v
CatSystem.v
CatRun.v
