(* ===== verification/Prelude.v ===== *)
(** * objlog: an append-only log in an object-storage bucket

    (header to be completed) *)
From Stdlib Require Export ZArith Lia Bool Sorting.Sorted.
From Stdlib Require Export Strings.Byte.
From stdpp Require Export base numbers list option strings gmap.

Global Open Scope Z_scope.

(** ** Results and errors

    A Go error is modelled by the sentinel errors its wrap tree holds: the
    value [fmt.Errorf("%w: ...", ErrX)] is [[ErrX]], the value
    [fmt.Errorf("%w: %w", ErrX, err)] is [ErrX :: err], a joined error is the
    concatenation, and an error built without any sentinel is [[]].  Message
    texts are dropped; [errors.Is] is membership.  The sentinels are those of
    the packages' errors.go files. *)
Inductive sentinel :=
  (* internal/segformat/errors.go *)
  | SegErrInvalidSegment | SegErrUnsupportedVersion | SegErrUnsupportedCodec
  | SegErrUnsupportedHashAlgo | SegErrUnsupportedRecord | SegErrRecordTooLarge
  | SegErrBlockTooLarge | SegErrIntegrityMismatch | SegErrBlockIndexMismatch
  (* internal/catalog/errors.go *)
  | ErrInvalidRequest | ErrInvalidSegment | ErrConflict | ErrStaleWriter
  | ErrFenceExhausted | ErrFenceIndeterminate | ErrGenerationExhausted
  | ErrCommitIndeterminate | ErrTimestampOrder | ErrLSNExhausted
  | ErrRetentionRegression | ErrRetentionUnsupported
  (* internal/catalog/blob/internal/catformat/constants.go *)
  | CatErrInvalidObject | CatErrUnsupportedVersion | CatErrUnsupportedLayout
  | CatErrIntegrityMismatch
  (* internal/catalog/blob/internal/catengine/tree.go *)
  | ErrIndexFull
  (* internal/blobstore/store.go *)
  | BlobErrObjectNotFound | BlobErrImmutableConflict | BlobErrInvalidRequest
  (* internal/segwriter/errors.go *)
  | WErrInvalidOptions | WErrWriterClosed | WErrWriterAborted | WErrAppendNotAccepted
  | WErrEmptySegment | WErrNonContiguousLSN | WErrLSNExhausted | WErrTimestampOrder
  | WErrPackerClosed | WErrPackerAborted | WErrBodySealed | WErrBodyNotSealed
  | WErrEmptyObject | WErrSinkContract | WErrTxnAborted | WErrTxnCompleted
  | WErrTxnCommitIndeterminate
  (* internal/segreader/errors.go *)
  | RErrInvalidOptions | RErrInvalidSegment | RErrStoreRead | RErrCorruptData
  (* internal/keylayout/keylayout.go *)
  | ErrInvalidStreamID
  (* context.Canceled and context.DeadlineExceeded *)
  | CtxCanceled | CtxDeadlineExceeded
  (* not an error value: a run-time panic, which ends the call like an error *)
  | GoPanic.

#[export] Instance sentinel_eq_dec : EqDecision sentinel.
Proof. solve_decision. Defined.

Abbreviation error := (list sentinel).

(** [errors.Is err s]. *)
Definition errors_Is (e : error) (s : sentinel) : bool := bool_decide (s ∈ e).

(** A Go function result [(A, error)]. *)
Inductive result (A : Type) :=
  | Ok (a : A)
  | Err (e : error).
Arguments Ok {A} a.
Arguments Err {A} e.

#[export] Instance result_ret : MRet result := fun A a => Ok a.
#[export] Instance result_bind : MBind result := fun A B f r =>
  match r with Ok a => f a | Err e => Err e end.
#[export] Instance result_fmap : FMap result := fun A B f r =>
  match r with Ok a => Ok (f a) | Err e => Err e end.

Definition is_ok {A} (r : result A) : bool :=
  match r with Ok _ => true | Err _ => false end.

(** [wrap_err s r] is [fmt.Errorf("%w: %w", s, err)] on the error path. *)
Definition wrap_err {A} (s : sentinel) (r : result A) : result A :=
  match r with Ok a => Ok a | Err e => Err (s :: e) end.

(** [mask_err s r] is [fmt.Errorf("%w: %v", s, err)]: the inner error is
    formatted, so its sentinels are lost. *)
Definition mask_err {A} (e : error) (r : result A) : result A :=
  match r with Ok a => Ok a | Err _ => Err e end.

Declare Scope go_scope.
Delimit Scope go_scope with go.
(** [fail_if c with e ; k] is [if c { return e }; k]. *)
Notation "'fail_if' c 'with' e ; k" :=
  (if (c : bool) then Err e else k)
  (at level 100, c at level 99, e at level 99, k at level 200,
   right associativity,
   format "'[v' 'fail_if'  c  'with'  e ; '/' k ']'") : go_scope.
(** [ctx_err] is the value of [ctx.Err()] at a check point. *)
Notation "'check_ctx' c ; k" :=
  (match c with Some e => Err e | None => k end)
  (at level 100, c at level 99, k at level 200, right associativity,
   format "'[v' 'check_ctx'  c ; '/' k ']'") : go_scope.
Global Open Scope go_scope.

Lemma bind_Ok {A B} (r : result A) (f : A → result B) b :
  r ≫= f = Ok b → ∃ a, r = Ok a ∧ f a = Ok b.
Proof. destruct r; cbn; [eauto | discriminate]. Qed.

Lemma Ok_inj {A} (a b : A) : Ok a = Ok b → a = b.
Proof. by intros [= ->]. Qed.

Lemma mask_err_Ok {A} e (r : result A) a : mask_err e r = Ok a ↔ r = Ok a.
Proof. destruct r; cbn; naive_solver. Qed.

Lemma wrap_err_Ok {A} s (r : result A) a : wrap_err s r = Ok a ↔ r = Ok a.
Proof. destruct r; cbn; naive_solver. Qed.

(** [inv_ok] decomposes a hypothesis [... = Ok _] along the checks and binds
    that had to succeed for it to hold. *)
Ltac inv_ok1 :=
  match goal with
  | x : unit |- _ => destruct x
  | H : Ok _ = Ok _ |- _ => apply Ok_inj in H; subst
  | H : (_, _) = (_, _) |- _ => apply pair_equal_spec in H; destruct H; subst
  | H : Err _ = Ok _ |- _ => discriminate H
  | H : mret _ = Ok _ |- _ => cbv [mret result_ret] in H
  | H : (if ?c then Err _ else _) = Ok _ |- _ =>
      let E := fresh "Hchk" in destruct c eqn:E; [discriminate H |]
  | H : (if ?c then _ else Err _) = Ok _ |- _ =>
      let E := fresh "Hchk" in destruct c eqn:E; [| discriminate H]
  | H : (match ?c with Some _ => Err _ | None => _ end) = Ok _ |- _ =>
      let E := fresh "Hctx" in destruct c eqn:E; [discriminate H |]
  | H : _ ≫= _ = Ok _ |- _ =>
      let x := fresh "x" in let E := fresh "Hbind" in
      apply bind_Ok in H; destruct H as (x & E & H)
  | H : mask_err _ _ = Ok _ |- _ => apply mask_err_Ok in H
  | H : wrap_err _ _ = Ok _ |- _ => apply wrap_err_Ok in H
  end.
Ltac inv_ok := repeat inv_ok1.

(** Boolean guards to arithmetic: every [Hchk]-style hypothesis on [bool]
    becomes a proposition [lia] reads. *)
Ltac bool_to_prop :=
  repeat match goal with
  | H : _ || _ = false |- _ => apply orb_false_iff in H; destruct H
  | H : _ && _ = true |- _ => apply andb_true_iff in H; destruct H
  | H : negb _ = false |- _ => apply negb_false_iff in H
  | H : negb _ = true |- _ => apply negb_true_iff in H
  | H : (_ =? _) = true |- _ => apply Z.eqb_eq in H
  | H : (_ =? _) = false |- _ => apply Z.eqb_neq in H
  | H : (_ <? _) = true |- _ => apply Z.ltb_lt in H
  | H : (_ <? _) = false |- _ => apply Z.ltb_ge in H
  | H : (_ <=? _) = true |- _ => apply Z.leb_le in H
  | H : (_ <=? _) = false |- _ => apply Z.leb_gt in H
  | H : bool_decide _ = true |- _ => apply bool_decide_eq_true in H
  | H : bool_decide _ = false |- _ => apply bool_decide_eq_false in H
  end.

(** ** State and errors

    A method that changes an object and may fail: the state it leaves behind is
    there on the error path too. *)
Definition st (S A : Type) : Type := S → S * result A.
#[export] Instance st_ret {S} : MRet (st S) := fun A a s => (s, Ok a).
#[export] Instance st_bind {S} : MBind (st S) := fun A B f m s =>
  match m s with (s', Ok a) => f a s' | (s', Err e) => (s', Err e) end.
Definition st_get {S} : st S S := fun s => (s, Ok s).
Definition st_put {S} (s : S) : st S () := fun _ => (s, Ok ()).
Definition st_fail {S A} (e : error) : st S A := fun s => (s, Err e).
(** Run a pure fallible computation. *)
Definition st_lift {S A} (r : result A) : st S A := fun s => (s, r).
Definition st_modify {S} (f : S → S) : st S () := fun s => (f s, Ok ()).
(** [if err := ctx.Err(); err != nil { return err }]. *)
Definition st_check {S} (ctx : option error) : st S () := match ctx with Some e => st_fail e | None => mret () end.

(** Programs that call their environment: the calls are the values of [op], and
    [resp o] is what the environment may answer to [o].  Code whose calls others
    can interleave with is written this way. *)
Inductive prog {op : Type} (resp : op → Type) (A : Type) : Type :=
  | Return (a : A)
  | Call (o : op) (k : resp o → prog resp A).
Arguments Return {op resp A} a.
Arguments Call {op resp A} o k.

Fixpoint prog_bind {op} {resp : op → Type} {A B} (m : prog resp A) (f : A → prog resp B) : prog resp B :=
  match m with
  | Return a => f a
  | Call o k => Call o (λ r, prog_bind (k r) f)
  end.

(** Methods that change a state they own between such calls; the changes stay on
    the error path. *)
Definition sprog {op} (resp : op → Type) (S A : Type) : Type := S → prog resp (S * result A).
#[export] Instance sprog_ret {op} {resp : op → Type} {S} : MRet (sprog resp S) := fun A a s => Return (s, Ok a).
#[export] Instance sprog_bind {op} {resp : op → Type} {S} : MBind (sprog resp S) := fun A B f m s =>
  prog_bind (m s) (λ sr, match sr with (s, Ok a) => f a s | (s, Err e) => Return (s, Err e) end).
Section sprog.
Context {op : Type} {resp : op → Type} {S : Type}.
Definition sp_get : sprog resp S S := λ s, Return (s, Ok s).
Definition sp_modify (f : S → S) : sprog resp S () := λ s, Return (f s, Ok ()).
Definition sp_fail {A} (e : error) : sprog resp S A := λ s, Return (s, Err e).
Definition sp_lift {A} (r : result A) : sprog resp S A := λ s, Return (s, r).
Definition sp_call (o : op) : sprog resp S (resp o) := λ s, Call o (λ r, Return (s, Ok r)).
(** The result of a method, errors included. *)
Definition sp_try {A} (m : sprog resp S A) : sprog resp S (result A) := λ s, prog_bind (m s) (λ sr, Return (sr.1, Ok sr.2)).
(** Run a method of an object of its own, which is dropped afterwards. *)
Definition sp_with {T A} (t : T) (m : sprog resp T A) : sprog resp S A := λ s, prog_bind (m t) (λ tr, Return (s, tr.2)).
(** [if err := ctx.Err(); err != nil { return err }], the error having been read. *)
Definition sp_check (err : option error) : sprog resp S () := match err with Some e => sp_fail e | None => mret () end.
End sprog.

(** What such a program can return when [env o] are the answers its environment
    gives to the call [o]. *)
Inductive outcome {op} {resp : op → Type} (env : ∀ o : op, resp o → Prop) {A} : prog resp A → A → Prop :=
  | outcome_ret a : outcome env (Return a) a
  | outcome_call o k r a : env o r → outcome env (k r) a → outcome env (Call o k) a.
(** [Q] holds of everything it can return. *)
Fixpoint always {op} {resp : op → Type} (env : ∀ o : op, resp o → Prop) {A} (Q : A → Prop) (p : prog resp A) : Prop :=
  match p with
  | Return a => Q a
  | Call o k => ∀ r, env o r → always env Q (k r)
  end.

Section outcome.
Context {op : Type} {resp : op → Type} (env : ∀ o : op, resp o → Prop).
Lemma always_bind {A B} (p : prog resp A) (f : A → prog resp B) (P : A → Prop) (Q : B → Prop) :
  always env P p → (∀ a, P a → always env Q (f a)) → always env Q (prog_bind p f).
Proof. intros HP HF. induction p as [a|o k IH]; cbn in *; [by apply HF|]. intros r Hr. apply IH, HP, Hr. Qed.
Lemma always_mono {A} (p : prog resp A) (P Q : A → Prop) : always env P p → (∀ a, P a → Q a) → always env Q p.
Proof. intros HP HF. induction p as [a|o k IH]; cbn in *; [by apply HF|]. intros r Hr. apply IH, HP, Hr. Qed.
Lemma always_outcome {A} (p : prog resp A) (Q : A → Prop) a : always env Q p → outcome env p a → Q a.
Proof. intros HQ HO. induction HO as [|o k r a Hr _ IH]; [done|]. apply IH, HQ, Hr. Qed.
(** Programs are finite: they return when every call is answered. *)
Lemma outcome_exists {A} (p : prog resp A) : (∀ o, ∃ r, env o r) → ∃ a, outcome env p a.
Proof.
  intros HE. induction p as [a|o k IH]; [exists a; constructor|]. destruct (HE o) as [r Hr], (IH r) as [a Ha].
  exists a. by econstructor.
Qed.
End outcome.
(** [leave_if c with e; k] is [if c { return e }; k] in such a method. *)
Notation "'leave_if' c 'with' e ; k" :=
  (if (c : bool) then sp_fail e else k)
  (at level 100, c at level 99, e at level 99, k at level 200, right associativity,
   format "'[v' 'leave_if'  c  'with'  e ; '/' k ']'") : go_scope.

(** [throw_if c with e; k] is [if c { return e }; k] in a stateful method. *)
Notation "'throw_if' c 'with' e ; k" :=
  (if (c : bool) then st_fail e else k)
  (at level 100, c at level 99, e at level 99, k at level 200,
   right associativity,
   format "'[v' 'throw_if'  c  'with'  e ; '/' k ']'") : go_scope.

(** ** Machine integers

    A w-bit Go integer is a [Z] in its range; arithmetic that can leave the
    range is written with the wrap-around functions below. *)
Abbreviation MaxUint16 := 65535.
Abbreviation MaxUint32 := 4294967295.
Abbreviation MaxUint64 := 18446744073709551615.
Abbreviation MaxInt64 := 9223372036854775807.
Abbreviation MinInt64 := (-9223372036854775808).

Definition is_u8 (z : Z) : Prop := 0 ≤ z ≤ 255.
Definition is_u16 (z : Z) : Prop := 0 ≤ z ≤ MaxUint16.
Definition is_u32 (z : Z) : Prop := 0 ≤ z ≤ MaxUint32.
Definition is_u64 (z : Z) : Prop := 0 ≤ z ≤ MaxUint64.
Definition is_i64 (z : Z) : Prop := MinInt64 ≤ z ≤ MaxInt64.

(** Conversions [uint8(x)], [uint16(x)], [uint32(x)], [uint64(x)], [int64(x)]. *)
Definition uint8 (z : Z) : Z := z mod 256.
Definition uint16 (z : Z) : Z := z mod 65536.
Definition uint32 (z : Z) : Z := z mod 4294967296.
Definition uint64 (z : Z) : Z := z mod 18446744073709551616.
Definition int64 (z : Z) : Z :=
  let u := uint64 z in
  if u <? 9223372036854775808 then u else u - 18446744073709551616.

Ltac unfold_widths :=
  unfold is_u8, is_u16, is_u32, is_u64, is_i64,
         int64, uint8, uint16, uint32, uint64 in *; cbv zeta in *.

(** The typing of the fields of a concrete object. *)
Ltac closed_typed :=
  repeat match goal with
  | |- ?P ∧ ?Q => lazymatch P with (_ <= _) => unfold_widths; lia | _ => split end
  | |- length _ = _ => reflexivity
  | |- _ => unfold_widths; lia
  end.

Lemma uint8_id z : is_u8 z → uint8 z = z.
Proof. unfold_widths. intros. apply Z.mod_small. lia. Qed.
Lemma uint16_id z : is_u16 z → uint16 z = z.
Proof. unfold_widths. intros. apply Z.mod_small. lia. Qed.
Lemma uint32_id z : is_u32 z → uint32 z = z.
Proof. unfold_widths. intros. apply Z.mod_small. lia. Qed.
Lemma uint64_id z : is_u64 z → uint64 z = z.
Proof. unfold_widths. intros. apply Z.mod_small. lia. Qed.
Lemma uint64_range z : is_u64 (uint64 z).
Proof. unfold_widths. pose proof (Z.mod_pos_bound z 18446744073709551616). lia. Qed.
Lemma uint32_range z : is_u32 (uint32 z).
Proof. unfold_widths. pose proof (Z.mod_pos_bound z 4294967296). lia. Qed.

(** [int64(uint64(x)) = x]: timestamps are stored as their two's complement. *)
Lemma int64_uint64 z : is_i64 z → int64 (uint64 z) = z.
Proof.
  unfold_widths. intros. rewrite Z.mod_mod by lia.
  destruct (Z.ltb_spec (z mod 18446744073709551616) 9223372036854775808);
    Z.div_mod_to_equations; lia.
Qed.
Lemma uint64_int64 z : is_u64 z → uint64 (int64 z) = z.
Proof.
  unfold_widths. intros.
  destruct (Z.ltb_spec (z mod 18446744073709551616) 9223372036854775808);
    Z.div_mod_to_equations; lia.
Qed.
Lemma int64_range z : is_i64 (int64 z).
Proof.
  unfold_widths. pose proof (Z.mod_pos_bound z 18446744073709551616).
  destruct (Z.ltb_spec (z mod 18446744073709551616) 9223372036854775808); lia.
Qed.

Create HintDb ints.
#[export] Hint Resolve uint64_range uint32_range int64_range : ints.

(** ** Bytes and big-endian fields *)
Definition byte_val (b : byte) : Z := Z.of_N (Byte.to_N b).
Definition mk_byte (z : Z) : byte :=
  match Byte.of_N (Z.to_N (z mod 256)) with Some b => b | None => x00 end.

#[export] Instance byte_eq_dec : EqDecision byte.
Proof.
  refine (λ a b, match Byte.eqb a b as r return Byte.eqb a b = r → _ with
                 | true => λ H, left _ | false => λ H, right _ end eq_refl).
  - by apply Byte.byte_dec_bl.
  - intros ->. by rewrite Byte.byte_dec_lb in H.
Defined.

Lemma byte_val_range b : 0 ≤ byte_val b < 256.
Proof. unfold byte_val. pose proof (Byte.to_N_bounded b). lia. Qed.

Lemma byte_val_mk z : byte_val (mk_byte z) = z mod 256.
Proof.
  unfold byte_val, mk_byte. pose proof (Z.mod_pos_bound z 256 ltac:(lia)).
  destruct (Byte.of_N _) as [b|] eqn:E.
  - apply Byte.to_of_N in E. rewrite E. lia.
  - apply Byte.of_N_None_iff in E. lia.
Qed.

Lemma mk_byte_val b : mk_byte (byte_val b) = b.
Proof.
  unfold mk_byte. rewrite Z.mod_small by apply byte_val_range.
  unfold byte_val. by rewrite N2Z.id, Byte.of_to_N.
Qed.

Lemma mk_byte_mod z : mk_byte (z mod 256) = mk_byte z.
Proof. unfold mk_byte. by rewrite Z.mod_mod by lia. Qed.

(** [binary.BigEndian.PutUint16/32/64] write the [n] = 2, 4, 8 low bytes of the
    value, most significant first; [Uint16/32/64] read them back. *)
Fixpoint be_put (n : nat) (z : Z) : list byte :=
  match n with
  | O => []
  | S n => be_put n (z / 256) ++ [mk_byte z]
  end.
Definition be_get (bs : list byte) : Z :=
  fold_left (λ acc b, acc * 256 + byte_val b) bs 0.

Lemma length_be_put n z : length (be_put n z) = n.
Proof. revert z; induction n as [|n IH]; intros z; cbn; [done|]. rewrite length_app, IH. cbn. lia. Qed.

Lemma be_get_snoc bs b : be_get (bs ++ [b]) = be_get bs * 256 + byte_val b.
Proof. unfold be_get. by rewrite fold_left_app. Qed.

Lemma be_get_put_mod n z : be_get (be_put n z) = z mod 256 ^ Z.of_nat n.
Proof.
  revert z; induction n as [|n IH]; intros z.
  - cbn. by rewrite Z.mod_1_r.
  - cbn [be_put]. rewrite be_get_snoc, IH, byte_val_mk.
    replace (Z.of_nat (S n)) with (Z.of_nat n + 1) by lia.
    rewrite Z.pow_add_r, Z.pow_1_r, (Z.mul_comm (256 ^ _)) by lia.
    pose proof (Z.pow_pos_nonneg 256 (Z.of_nat n)).
    rewrite Z.rem_mul_r by lia. lia.
Qed.

Lemma be_get_put n z : 0 ≤ z < 256 ^ Z.of_nat n → be_get (be_put n z) = z.
Proof. intros. rewrite be_get_put_mod. by apply Z.mod_small. Qed.

Lemma be_get_nonneg bs : 0 ≤ be_get bs < 256 ^ Z.of_nat (length bs).
Proof.
  induction bs as [|b bs IH] using rev_ind; [cbn; lia|].
  rewrite be_get_snoc, length_app. cbn [length].
  replace (Z.of_nat (length bs + 1)) with (Z.of_nat (length bs) + 1) by lia.
  rewrite Z.pow_add_r, Z.pow_1_r by lia. pose proof (byte_val_range b). lia.
Qed.

Lemma be_put_get bs : be_put (length bs) (be_get bs) = bs.
Proof.
  induction bs as [|b bs IH] using rev_ind; [done|].
  rewrite length_app, Nat.add_1_r, be_get_snoc. cbn [be_put].
  pose proof (byte_val_range b).
  rewrite Z.div_add_l, (Z.div_small (byte_val b)), Z.add_0_r, IH by lia.
  f_equal. f_equal. rewrite <- mk_byte_mod, Z.add_comm, Z.mod_add, mk_byte_mod by lia.
  apply mk_byte_val.
Qed.

Lemma be_put_get_n n bs : length bs = n → be_put n (be_get bs) = bs.
Proof. intros <-. apply be_put_get. Qed.

Lemma be_get_put_u8 z : is_u8 z → be_get (be_put 1 z) = z.
Proof. unfold_widths. intros. apply be_get_put. cbn. lia. Qed.
Lemma be_get_u8 bs : length bs = 1%nat → is_u8 (be_get bs).
Proof. intros H. pose proof (be_get_nonneg bs). rewrite H in *. unfold_widths. cbn in *. lia. Qed.
Lemma be_get_put_u16 z : is_u16 z → be_get (be_put 2 z) = z.
Proof. unfold_widths. intros. apply be_get_put. cbn. lia. Qed.
Lemma be_get_put_u32 z : is_u32 z → be_get (be_put 4 z) = z.
Proof. unfold_widths. intros. apply be_get_put. cbn. lia. Qed.
Lemma be_get_put_u64 z : is_u64 z → be_get (be_put 8 z) = z.
Proof. unfold_widths. intros. apply be_get_put. cbn. lia. Qed.
Lemma be_get_u16 bs : length bs = 2%nat → is_u16 (be_get bs).
Proof. intros H. pose proof (be_get_nonneg bs). rewrite H in *. unfold_widths. cbn in *. lia. Qed.
Lemma be_get_u32 bs : length bs = 4%nat → is_u32 (be_get bs).
Proof. intros H. pose proof (be_get_nonneg bs). rewrite H in *. unfold_widths. cbn in *. lia. Qed.
Lemma be_get_u64 bs : length bs = 8%nat → is_u64 (be_get bs).
Proof. intros H. pose proof (be_get_nonneg bs). rewrite H in *. unfold_widths. cbn in *. lia. Qed.

(** ** Slices

    [sub buf off n] is [buf[off:off+n]]; [copy_at off bs buf] is
    [copy(buf[off:off+len(bs)], bs)] (and [PutUint..], with [be_put]): it keeps
    the length of [buf] and, like Go's [copy], drops what does not fit. *)
Definition sub (buf : list byte) (off n : nat) : list byte := take n (drop off buf).
Definition copy_at (off : nat) (bs buf : list byte) : list byte := list_inserts off bs buf.
Definition zeros (n : nat) : list byte := replicate n x00.
(** [make([]byte, n)]. *)
Abbreviation make_bytes := zeros.
Definition len {A} (l : list A) : Z := Z.of_nat (length l).

(** The [zero]/[allZero] loops over a slice. *)
Definition all_zero (bs : list byte) : bool := forallb (λ b, bool_decide (b = x00)) bs.

Lemma all_zero_spec bs : all_zero bs = true ↔ bs = zeros (length bs).
Proof.
  induction bs as [|b bs IH]; cbn; [done|].
  rewrite andb_true_iff, bool_decide_eq_true, IH. unfold zeros. split; [intros [-> H]; by f_equal | intros [= -> H]; done].
Qed.

Lemma all_zero_zeros n : all_zero (zeros n) = true.
Proof. induction n; [done|]. by cbn. Qed.

Lemma length_zeros n : length (zeros n) = n.
Proof. apply length_replicate. Qed.
Lemma length_copy_at off bs buf : length (copy_at off bs buf) = length buf.
Proof. apply length_inserts. Qed.
Lemma length_sub buf off n : (off + n ≤ length buf)%nat → length (sub buf off n) = n.
Proof. intros. unfold sub. rewrite length_take, length_drop. lia. Qed.

Lemma lookup_sub buf off n i : (i < n)%nat → sub buf off n !! i = buf !! (off + i)%nat.
Proof. intros. unfold sub. rewrite lookup_take_lt, lookup_drop by lia. done. Qed.

Lemma sub_ext buf buf' off off' n :
  (∀ i, (i < n)%nat → buf !! (off + i)%nat = buf' !! (off' + i)%nat) →
  sub buf off n = sub buf' off' n.
Proof.
  intros H. apply list_eq. intros i. destruct (decide (i < n)%nat).
  - rewrite !lookup_sub by lia. auto.
  - unfold sub. rewrite !lookup_take_ge by lia. done.
Qed.

Lemma sub_full buf n : n = length buf → sub buf 0 n = buf.
Proof. intros ->. unfold sub. by rewrite drop_0, firstn_all. Qed.

Lemma sub_copy_same off n bs buf :
  n = length bs → (off + length bs ≤ length buf)%nat →
  sub (copy_at off bs buf) off n = bs.
Proof.
  intros -> Hl. rewrite <- (sub_full bs (length bs)) at 3 by done. apply sub_ext.
  intros i Hi. unfold copy_at.
  rewrite list_lookup_inserts by lia. f_equal. lia.
Qed.

Lemma sub_copy_ne off off' n bs buf :
  (off' + n ≤ off ∨ off + length bs ≤ off')%nat →
  sub (copy_at off bs buf) off' n = sub buf off' n.
Proof.
  intros H. apply sub_ext. intros i Hi. unfold copy_at.
  destruct H; [apply list_lookup_inserts_lt | apply list_lookup_inserts_ge]; lia.
Qed.

Lemma sub_zeros off n k : (off + n ≤ k)%nat → sub (zeros k) off n = zeros n.
Proof.
  intros. unfold sub, zeros. rewrite drop_replicate, take_replicate. f_equal. lia.
Qed.

Lemma sub_sub buf off n off' n' :
  (off' + n' ≤ n)%nat → sub (sub buf off n) off' n' = sub buf (off + off') n'.
Proof.
  intros. apply sub_ext. intros i Hi. rewrite lookup_sub by lia. f_equal. lia.
Qed.

Lemma sub_app_l a b off n : (off + n ≤ length a)%nat → sub (a ++ b) off n = sub a off n.
Proof. intros. apply sub_ext. intros. apply lookup_app_l. lia. Qed.
Lemma sub_app_r a b off n : (length a ≤ off)%nat →
  sub (a ++ b) off n = sub b (off - length a) n.
Proof.
  intros. apply sub_ext. intros. rewrite lookup_app_r by lia. f_equal. lia.
Qed.

Lemma sub_all_zero buf off n :
  (off + n ≤ length buf)%nat → all_zero (sub buf off n) = true → sub buf off n = zeros n.
Proof. intros H E%all_zero_spec. by rewrite length_sub in E by done. Qed.

(** Two buffers cut into the same consecutive fields are equal when their
    fields are. *)
Fixpoint same_fields (off : nat) (ws : list nat) (a b : list byte) : Prop :=
  match ws with
  | [] => True
  | w :: ws => sub a off w = sub b off w ∧ same_fields (off + w) ws a b
  end.

Lemma same_fields_drop off ws a b :
  length a = (off + sum_list ws)%nat → length b = (off + sum_list ws)%nat →
  same_fields off ws a b → drop off a = drop off b.
Proof.
  revert off; induction ws as [|w ws IH]; intros off Ha Hb H; cbn in *.
  - rewrite !drop_ge by lia. done.
  - destruct H as [Hw H]. rewrite <- (take_drop w (drop off a)), <- (take_drop w (drop off b)).
    f_equal; [exact Hw|]. rewrite !drop_drop. apply IH; auto; lia.
Qed.

Lemma same_fields_eq ws a b :
  length a = sum_list ws → length b = sum_list ws → same_fields 0 ws a b → a = b.
Proof. intros Ha Hb H. apply (same_fields_drop 0 ws a b); auto. Qed.

Lemma sub_whole a off n : off = 0%nat → n = length a → sub a off n = a.
Proof. intros -> ->. by apply sub_full. Qed.

Lemma sub_add buf off a b : sub buf off (a + b) = sub buf off a ++ sub buf (off + a) b.
Proof. unfold sub. by rewrite <- drop_drop, take_take_drop. Qed.

Lemma sub_eq buf off off' n n' : off = off' → n = n' → sub buf off n = sub buf off' n'.
Proof. by intros -> ->. Qed.

Lemma sub_0 buf off : sub buf off 0 = [].
Proof. done. Qed.

Lemma sub_split buf off n k :
  (n + k)%nat = (length buf - off)%nat → sub buf off (length buf - off) = sub buf off n ++ sub buf (off + n) k.
Proof. intros <-. apply sub_add. Qed.

Lemma len_nonneg {A} (l : list A) : 0 ≤ len l.
Proof. unfold len. lia. Qed.
Lemma len_app {A} (a b : list A) : len (a ++ b) = len a + len b.
Proof. unfold len. rewrite length_app. lia. Qed.
Lemma len_be_put n z : len (be_put n z) = Z.of_nat n.
Proof. unfold len. by rewrite length_be_put. Qed.
(** Writing into the zero tail of a buffer extends its written prefix. *)
Lemma copy_at_tail off bs pre k :
  off = length pre → copy_at off bs (pre ++ zeros (length bs + k)) = (pre ++ bs) ++ zeros k.
Proof.
  intros ->. unfold copy_at, zeros. rewrite replicate_add, <- app_assoc.
  rewrite <- (Nat.add_0_r (length pre)), list_inserts_app_r, list_inserts_0_r; [done|].
  by rewrite length_replicate.
Qed.

(** [fill n ws] is the buffer [make([]byte, n)] after the writes [ws], each a
    [copy] or [PutUint..] at an offset, in program order. *)
Definition fill (n : nat) (ws : list (nat * list byte)) : list byte :=
  fold_left (λ buf w, copy_at w.1 w.2 buf) ws (zeros n).

#[global] Arguments fill : simpl never.
#[global] Arguments be_put : simpl never.

(** Offsets and lengths of the writes; a field [(off, k)] is read back when the
    writes after its own do not overlap it. *)
Definition shape_of (ws : list (nat * list byte)) : list (nat * nat) :=
  map (λ w, (w.1, length w.2)) ws.
Definition apart (off k : nat) (s : nat * nat) : bool :=
  (off + k <=? s.1)%nat || (s.1 + s.2 <=? off)%nat.
Fixpoint index_of (shape : list (nat * nat)) (off k : nat) : option nat :=
  match shape with
  | [] => None
  | s :: shape =>
      match index_of shape off k with
      | Some i => Some (S i)
      | None => if (s.1 =? off)%nat && (s.2 =? k)%nat then Some O else None
      end
  end.

Lemma sub_writes_apart ws buf off k :
  forallb (apart off k) (shape_of ws) = true →
  sub (fold_left (λ buf w, copy_at w.1 w.2 buf) ws buf) off k = sub buf off k.
Proof.
  revert buf; induction ws as [|[o bs] ws IH]; intros buf; cbn -[copy_at sub]; [done|].
  rewrite andb_true_iff. intros [Ha H]. rewrite IH by done. apply sub_copy_ne.
  unfold apart in Ha. cbn in Ha. apply orb_true_iff in Ha as [E|E]; apply Nat.leb_le in E; lia.
Qed.

Lemma length_fill n ws : length (fill n ws) = n.
Proof.
  unfold fill. rewrite <- (length_replicate n x00) at 2. fold (zeros n). generalize (zeros n).
  induction ws as [|w ws IH]; intros buf; cbn -[copy_at]; [done|]. by rewrite IH, length_copy_at.
Qed.

Lemma fill_snoc n ws off bs : copy_at off bs (fill n ws) = fill n (ws ++ [(off, bs)]).
Proof. unfold fill. by rewrite fold_left_app. Qed.

Lemma fill_field n ws shape i off k bs :
  shape_of ws = shape → ws !! i = Some (off, bs) →
  (shape !! i = Some (off, k)) →
  (off + k <=? n)%nat && forallb (apart off k) (drop (S i) shape) = true →
  sub (fill n ws) off k = bs.
Proof.
  intros <- Hw Hs Hok. apply andb_true_iff in Hok as [Hn Hok]. apply Nat.leb_le in Hn.
  unfold shape_of in Hs. rewrite list_lookup_fmap, Hw in Hs. injection Hs as <-.
  rewrite <- (take_drop_middle ws i (off, bs) Hw). unfold fill.
  rewrite fold_left_app. cbn [fold_left]. rewrite sub_writes_apart.
  2: { revert Hok. unfold shape_of. by rewrite List.skipn_map. }
  apply sub_copy_same; [done|]. cbn.
  change (length (fill n (take i ws)) ≥ off + length bs)%nat. rewrite length_fill. lia.
Qed.

Lemma fill_gap n ws shape off k :
  shape_of ws = shape → (off + k <=? n)%nat && forallb (apart off k) shape = true →
  sub (fill n ws) off k = zeros k.
Proof.
  intros <- Hok. apply andb_true_iff in Hok as [Hn Hok]. apply Nat.leb_le in Hn.
  unfold fill. rewrite sub_writes_apart by done. by apply sub_zeros.
Qed.

Create Rewrite HintDb len.
#[export] Hint Rewrite length_zeros length_copy_at length_fill length_be_put @length_app @length_cons
  @length_nil @length_map @length_fmap : len.

(** [len_lia]: linear arithmetic after pushing [length] through the buffer
    operations; [subs]: read fields back from a buffer under construction. *)
Ltac len_lia := autorewrite with len; cbn [length] in *; lia.
Ltac subs :=
  repeat first
    [ rewrite sub_copy_same by len_lia
    | rewrite sub_copy_ne by len_lia
    | rewrite sub_zeros by len_lia
    | rewrite all_zero_zeros ].

(** [sub_apps]: read a field of a concatenation of fields. *)
Ltac sub_apps :=
  repeat first [ rewrite sub_app_l by len_lia | rewrite sub_app_r by len_lia ];
  try rewrite sub_whole by len_lia.

(** [app_subs]: equality of two concatenations of slices of one buffer. *)
Ltac app_subs :=
  repeat match goal with |- _ ++ _ = _ ++ _ => apply (f_equal2 app) end;
  try done; apply sub_eq; lia.

(** [read_fill H], with [H : shape_of ws = shape], evaluates the reads of the
    goal from the buffer [fill n ws]. *)
Ltac read_fill H :=
  lazymatch type of H with
  | shape_of ?ws = ?shape =>
    repeat match goal with
    | |- context [sub (fill ?n ws) ?off ?k] =>
      let i := eval vm_compute in (index_of shape off k) in
      lazymatch i with
      | Some ?i => rewrite (fill_field n ws shape i off k _ H eq_refl eq_refl eq_refl)
      | None => rewrite (fill_gap n ws shape off k H eq_refl)
      end
    end
  end.

(** ** Proof support for fixed-layout codecs *)
Lemma sub_be_put buf off n : (off + n ≤ length buf)%nat → be_put n (be_get (sub buf off n)) = sub buf off n.
Proof. intros. apply be_put_get_n. by apply length_sub. Qed.
Lemma sub_be_put_i64 buf off : (off + 8 ≤ length buf)%nat →
  be_put 8 (uint64 (int64 (be_get (sub buf off 8)))) = sub buf off 8.
Proof.
  intros. rewrite uint64_int64 by (apply be_get_u64; by apply length_sub). by apply sub_be_put.
Qed.
Lemma sub_be_const buf off n z : (off + n ≤ length buf)%nat →
  be_get (sub buf off n) = z → be_put n z = sub buf off n.
Proof. intros ? <-. by apply sub_be_put. Qed.


(** Overwriting a zero field, then zeroing it, restores the buffer. *)
Lemma copy_at_zero_back buf off bs :
  (off + length bs ≤ length buf)%nat → sub buf off (length bs) = zeros (length bs) →
  copy_at off (zeros (length bs)) (copy_at off bs buf) = buf.
Proof.
  intros Hl Hz. apply (same_fields_eq [off; length bs; (length buf - off - length bs)%nat]);
    [cbn -[copy_at zeros]; len_lia..|].
  cbn -[sub copy_at zeros]. split_and!; try done; subs; try done.
Qed.

(** [typed_fields] splits a typing hypothesis; [read_fields] evaluates the
    reads of a parser on the buffer its marshaller wrote. *)
Ltac typed_fields :=
  repeat match goal with H : _ ∧ _ |- _ => destruct H end.
Ltac in_width := first [assumption | solve [auto with ints] | solve [split; vm_compute; discriminate]].
Ltac get_shape sh :=
  lazymatch goal with
  | |- context [fill _ ?l] =>
    eassert (sh : shape_of l = _) by
      (unfold shape_of; cbn [map fst snd]; typed_fields;
       repeat match goal with H : length _ = _ |- _ => rewrite H end;
       rewrite ?length_sub by lia; rewrite ?length_be_put; reflexivity)
  end.
Ltac read_fields :=
  let sh := fresh "Hshape" in get_shape sh; read_fill sh; clear sh;
  typed_fields; rewrite ?all_zero_zeros;
  repeat first
    [ rewrite be_get_put_u8 by in_width | rewrite be_get_put_u16 by in_width | rewrite be_get_put_u32 by in_width
    | rewrite be_get_put_u64 by in_width | rewrite int64_uint64 by in_width ].

(** [guards] discharges the equality guards of a parser once its reads are
    evaluated. *)
Ltac guards :=
  autorewrite with len;
  repeat first [ rewrite bool_decide_true by done | rewrite Z.eqb_refl | rewrite Nat.eqb_refl
               | progress cbn [negb orb andb] ].

(** [canonical ws] proves [fill n writes = buf], for the fields [ws], from the
    checks the parser made on [buf]. *)
Ltac canonical ws :=
  apply (same_fields_eq ws);
    [ by autorewrite with len | by autorewrite with len | ];
  let sh := fresh "Hshape" in get_shape sh;
  cbn [same_fields Nat.add]; read_fill sh; subs;
  repeat match goal with
  | H : all_zero _ = true |- _ => apply sub_all_zero in H; [|lia]
  end;
  split_and!; try done;
  first [ by rewrite sub_be_put by lia | by rewrite sub_be_put_i64 by lia
        | by apply sub_be_const; [lia|] | by symmetry ].

(** ** Sums *)
Fixpoint sumZ {A} (f : A → Z) (l : list A) : Z :=
  match l with [] => 0 | a :: l => f a + sumZ f l end.

Lemma Forall2_strengthen {A B} (P : A → Prop) (R Q : A → B → Prop) l k :
  Forall P l → Forall2 R l k → (∀ a b, P a → R a b → Q a b) → Forall2 Q l k.
Proof. intros HP HF HQ. induction HF; [constructor|]. apply Forall_cons in HP as [? ?]. constructor; auto. Qed.
Lemma Forall2_conj {A B} (R Q : A → B → Prop) l k :
  Forall2 R l k → Forall2 Q l k → Forall2 (λ a b, R a b ∧ Q a b) l k.
Proof. intros HR. induction HR; intros HQ; inversion HQ; subst; constructor; auto. Qed.
Lemma Forall2_concat {A B} (P : B → Prop) (R : A → list B → Prop) l k :
  Forall2 R l k → (∀ a b, R a b → Forall P b) → Forall P (concat k).
Proof. intros HF HR. induction HF as [|a b l k Hab HF IH]; [constructor|]. cbn. apply Forall_app. eauto. Qed.

Lemma sumZ_app {A} (f : A → Z) l k : sumZ f (l ++ k) = sumZ f l + sumZ f k.
Proof. induction l; cbn [sumZ app]; lia. Qed.
Lemma sumZ_nonneg {A} (f : A → Z) l : Forall (λ a, 0 ≤ f a) l → 0 ≤ sumZ f l.
Proof. induction 1; cbn [sumZ]; lia. Qed.

(** [l[len(l)-1]] of the slice [d :: l]. *)
Lemma List_last_cons {A} (a d : A) l : List.last (a :: l) d = List.last l a.
Proof. revert a; induction l as [|b l IH]; intros a; [done|]. cbn in *. by destruct l. Qed.
Lemma last_List_last {A} (d : A) l : last (d :: l) = Some (List.last l d).
Proof. revert d; induction l as [|b l IH]; intros d; [done|]. rewrite List_last_cons, <- IH. done. Qed.

(** A sorted list lies between its first and its last element. *)
Lemma Sorted_le_bounds a l : Sorted Z.le (a :: l) → Forall (λ x, a ≤ x ≤ List.last l a) (a :: l).
Proof.
  revert a; induction l as [|b l IH]; intros a Hs.
  - constructor; [cbn; lia | constructor].
  - apply Sorted_inv in Hs as [Hs Hb]. apply HdRel_inv in Hb. specialize (IH b Hs).
    rewrite List_last_cons. pose proof (Forall_inv IH) as Hl. cbn beta in Hl.
    constructor; [lia|]. eapply Forall_impl; [exact IH|]. cbn. lia.
Qed.

(** ** [sort.Search]

    The library's loop, [fuel] bounding its iterations: [n] of them are always
    enough because each one shrinks the interval [[i, j)]. *)
Fixpoint sort_Search_loop (fuel : nat) (f : nat → bool) (i j : nat) : nat :=
  match fuel with
  | O => i
  | S fuel =>
      if (i <? j)%nat then
        let h := ((i + j) / 2)%nat in
        if f h then sort_Search_loop fuel f i h
        else sort_Search_loop fuel f (h + 1) j
      else i
  end.
Definition sort_Search (n : nat) (f : nat → bool) : nat := sort_Search_loop n f 0 n.

(** [sort.Search(len(l), func(i int) bool { return p(l[i]) })]. *)
Definition search {A} (p : A → bool) (l : list A) : nat :=
  sort_Search (length l) (λ i, match l !! i with Some a => p a | None => true end).

Section search.
Context (f : nat → bool).
Context (mono : ∀ i j, (i ≤ j)%nat → f i = true → f j = true).

Lemma sort_Search_loop_spec fuel i j :
  (j - i ≤ fuel)%nat → (i ≤ j)%nat →
  (∀ k, (k < i)%nat → f k = false) → (∀ k, (j ≤ k)%nat → f k = true) →
  let r := sort_Search_loop fuel f i j in
  (i ≤ r ≤ j)%nat ∧ (∀ k, (k < r)%nat → f k = false) ∧ (∀ k, (r ≤ k)%nat → f k = true).
Proof.
  revert i j; induction fuel as [|fuel IH]; intros i j Hf Hij Hlo Hhi;
    cbn [sort_Search_loop]; cbv zeta.
  - assert (i = j) by lia; subst. auto.
  - destruct (Nat.ltb_spec i j); [|assert (i = j) by lia; subst; auto].
    assert (i ≤ (i + j) / 2 < j)%nat by
      (split; [apply Nat.div_le_lower_bound | apply Nat.Div0.div_lt_upper_bound]; lia).
    destruct (f ((i + j) / 2)%nat) eqn:E.
    + assert (Hhi' : ∀ k, ((i + j) / 2 ≤ k)%nat → f k = true) by eauto.
      destruct (IH i ((i + j) / 2)%nat ltac:(lia) ltac:(lia) Hlo Hhi') as (? & ? & ?).
      split_and!; auto; lia.
    + assert (Hlo' : ∀ k, (k < (i + j) / 2 + 1)%nat → f k = false).
      { intros k Hk. destruct (f k) eqn:Ek; [|done].
        rewrite (mono k ((i + j) / 2)%nat) in E by (auto; lia). done. }
      destruct (IH ((i + j) / 2 + 1)%nat j ltac:(lia) ltac:(lia) Hlo' Hhi) as (? & ? & ?).
      split_and!; auto; lia.
Qed.
End search.

(** [p] switches from false to true at most once along [l]: what [sort.Search]
    needs of its argument. *)
Definition switches {A} (p : A → bool) (l : list A) : Prop :=
  ∀ i j a b, (i ≤ j)%nat → l !! i = Some a → l !! j = Some b → p a = true → p b = true.

(** [sort.Search] splits the slice in the elements failing the predicate and
    those satisfying it. *)
Lemma search_spec {A} (p : A → bool) (l : list A) :
  switches p l →
  (search p l ≤ length l)%nat ∧
  Forall (λ a, p a = false) (take (search p l) l) ∧
  Forall (λ a, p a = true) (drop (search p l) l).
Proof.
  intros Hp. unfold search, sort_Search.
  set (g := λ i, match l !! i with Some a => p a | None => true end).
  assert (Hg : ∀ i j, (i ≤ j)%nat → g i = true → g j = true).
  { unfold g. intros i j Hij Hi. destruct (l !! j) as [b|] eqn:Ej; [|done].
    destruct (lookup_lt_is_Some_2 l i) as [a Ea]; [apply lookup_lt_Some in Ej; lia|].
    rewrite Ea in Hi. eauto using Hp. }
  destruct (sort_Search_loop_spec g Hg (length l) 0 (length l)) as (Hr & Hlo & Hhi);
    [lia | lia | lia | |].
  { intros k Hk. unfold g. by rewrite lookup_ge_None_2 by lia. }
  split_and!; [lia| |]; apply Forall_lookup; intros i a Ha.
  - apply lookup_take_Some in Ha as [Ha Hi]. specialize (Hlo i Hi). unfold g in Hlo.
    by rewrite Ha in Hlo.
  - rewrite lookup_drop in Ha. cbv zeta in Hhi.
    match type of Ha with l !! ?k = _ => specialize (Hhi k ltac:(lia)) end.
    unfold g at 1 in Hhi. by rewrite Ha in Hhi.
Qed.
