(* ===== verification/Hash.v ===== *)
(** * Hash functions and codecs the program calls

    The Go standard library's CRC32C ([hash/crc32] with the Castagnoli table)
    and SHA-256 ([crypto/sha256]) are executable definitions, checked on their
    published test vectors.  The third-party xxHash ([cespare/xxhash/v2]) and
    zstd ([klauspost/compress/zstd]) are interfaces: a class holds the function
    and the documented fact the program relies on. *)
From S2P Require Import Prelude.

(** ** CRC32C *)
Module CRC32C.
Definition poly : Z := 0x82F63B78.

Fixpoint shift_bits (n : nat) (crc : Z) : Z :=
  match n with
  | O => crc
  | S n =>
      shift_bits n
        (if Z.testbit crc 0 then uint32 (Z.lxor (Z.shiftr crc 1) poly)
         else Z.shiftr crc 1)
  end.

Definition update_byte (crc : Z) (b : byte) : Z :=
  shift_bits 8 (Z.lxor crc (byte_val b)).

(** [crc32.Checksum(data, crc32cTable)]. *)
Definition Checksum (data : list byte) : Z :=
  uint32 (Z.lxor (fold_left update_byte data 0xFFFFFFFF) 0xFFFFFFFF).

Lemma Checksum_range data : is_u32 (Checksum data).
Proof. apply uint32_range. Qed.
End CRC32C.

Example crc32c_check :
  CRC32C.Checksum (String.list_byte_of_string "123456789") = 0xE3069283.
Proof. vm_compute. reflexivity. Qed.

(** ** SHA-256 *)
Module SHA256.
Definition rotr (n x : Z) : Z :=
  Z.lor (Z.shiftr x n) (uint32 (Z.shiftl x (32 - n))).
Definition bsig0 x := Z.lxor (rotr 2 x) (Z.lxor (rotr 13 x) (rotr 22 x)).
Definition bsig1 x := Z.lxor (rotr 6 x) (Z.lxor (rotr 11 x) (rotr 25 x)).
Definition ssig0 x := Z.lxor (rotr 7 x) (Z.lxor (rotr 18 x) (Z.shiftr x 3)).
Definition ssig1 x := Z.lxor (rotr 17 x) (Z.lxor (rotr 19 x) (Z.shiftr x 10)).
Definition ch x y z := Z.lxor (Z.land x y) (Z.land (Z.lxor x 0xFFFFFFFF) z).
Definition maj x y z := Z.lxor (Z.land x y) (Z.lxor (Z.land x z) (Z.land y z)).

(** The round constants: the first 32 bits of the fractional parts of the cube
    roots of the first 64 primes, by integer cube root, bit by bit. *)
Fixpoint icbrt (bits : nat) (root n : Z) : Z :=
  match bits with
  | O => root
  | S bits =>
      let next := root + 2 ^ Z.of_nat bits in
      icbrt bits (if next ^ 3 <=? n then next else root) n
  end.
Definition is_prime (p : Z) : bool :=
  forallb (fun d => negb (p mod Z.of_nat d =? 0)) (seq 2 (Z.to_nat p - 2)).
Definition primes_64 : list Z := List.filter is_prime (map Z.of_nat (seq 2 310)).
Definition K : list Z :=
  Eval vm_compute in map (fun p => uint32 (icbrt 40 0 (p * 2 ^ 96))) primes_64.

Record state := mkState { sa : Z; sb : Z; sc : Z; sd : Z; se : Z; sf : Z; sg : Z; sh : Z }.

(** The initial state: square roots of the first 8 primes, likewise. *)
Definition root_bits (p : Z) : Z := Eval cbv beta in uint32 (Z.sqrt (p * 2 ^ 64)).
Definition init : state :=
  mkState (root_bits 2) (root_bits 3) (root_bits 5) (root_bits 7)
          (root_bits 11) (root_bits 13) (root_bits 17) (root_bits 19).

Definition add32 (x y : Z) : Z := uint32 (x + y).

Definition pad (m : list byte) : list byte :=
  let l := length m in
  let k := Z.to_nat ((55 - Z.of_nat l) mod 64) in
  m ++ [mk_byte 0x80] ++ zeros k ++ be_put 8 (8 * Z.of_nat l).

(** The 64-word message schedule, most recent word first. *)
Fixpoint expand (n : nat) (w : list Z) : list Z :=
  match n with
  | O => w
  | S n =>
      let at_ i := List.nth i w 0 in
      expand n (uint32 (ssig1 (at_ 1%nat) + at_ 6%nat + ssig0 (at_ 14%nat) + at_ 15%nat) :: w)
  end.

Fixpoint words (n : nat) (blk : list byte) : list Z :=
  match n with
  | O => []
  | S n => be_get (take 4 blk) :: words n (drop 4 blk)
  end.

Definition round (s : state) (kw : Z * Z) : state :=
  let t1 := uint32 (sh s + bsig1 (se s) + ch (se s) (sf s) (sg s) + kw.1 + kw.2) in
  let t2 := uint32 (bsig0 (sa s) + maj (sa s) (sb s) (sc s)) in
  mkState (add32 t1 t2) (sa s) (sb s) (sc s) (add32 (sd s) t1) (se s) (sf s) (sg s).

Definition block (s : state) (blk : list byte) : state :=
  let w := rev (expand 48 (rev (words 16 blk))) in
  let r := fold_left round (zip K w) s in
  mkState (add32 (sa s) (sa r)) (add32 (sb s) (sb r)) (add32 (sc s) (sc r)) (add32 (sd s) (sd r))
          (add32 (se s) (se r)) (add32 (sf s) (sf r)) (add32 (sg s) (sg r)) (add32 (sh s) (sh r)).

Fixpoint blocks (n : nat) (s : state) (m : list byte) : state :=
  match n with
  | O => s
  | S n => blocks n (block s (take 64 m)) (drop 64 m)
  end.

(** [sha256.Sum256(data)]. *)
Definition Sum256 (data : list byte) : list byte :=
  let m := pad data in
  let s := blocks (length m / 64) init m in
  be_put 4 (sa s) ++ be_put 4 (sb s) ++ be_put 4 (sc s) ++ be_put 4 (sd s) ++
  be_put 4 (se s) ++ be_put 4 (sf s) ++ be_put 4 (sg s) ++ be_put 4 (sh s).

Lemma length_Sum256 data : length (Sum256 data) = 32%nat.
Proof. unfold Sum256. cbv zeta. by rewrite !length_app, !length_be_put. Qed.
End SHA256.

Example sha256_abc :
  be_get (SHA256.Sum256 (String.list_byte_of_string "abc")) =
  0xba7816bf8f01cfea414140de5dae2223b00361a396177a9cb410ff61f20015ad.
Proof. vm_compute. reflexivity. Qed.

Example sha256_two_blocks :
  be_get (SHA256.Sum256
    (String.list_byte_of_string "abcdbcdecdefdefgefghfghighijhijkijkljklmklmnlmnomnopnopq")) =
  0x248d6a61d20638b8e5c026930c3e6039a33ce45964ff2167f6ecedd419db06c1.
Proof. vm_compute. reflexivity. Qed.

(** ** xxHash and zstd *)

(** [xxhash.Sum64]: a function of the bytes returning a uint64. *)
Class XXHash := {
  xxhash_Sum64 : list byte → Z;
  xxhash_Sum64_u64 : ∀ data, is_u64 (xxhash_Sum64 data);
}.

(** The zstd encoder and decoder of internal/segblock/zstd_pool.go: decoding
    returns what was encoded, for inputs within the decoder's memory limit of
    two raw blocks, and the frame of a non-empty input is not empty. *)
Class Zstd := {
  zstd_EncodeAll : list byte → list byte;
  zstd_DecodeAll : list byte → option (list byte);
  zstd_roundtrip : ∀ raw, len raw ≤ 2 * (16 * 2 ^ 20) → zstd_DecodeAll (zstd_EncodeAll raw) = Some raw;
  zstd_frame_nonempty : ∀ raw, raw ≠ [] → zstd_EncodeAll raw ≠ [];
}.

(** Concrete functions of these types, used by the examples that evaluate the
    model: CRC32C read as a 64-bit value, and a one-byte frame header. *)
Definition xxhash_example : XXHash := {|
  xxhash_Sum64 data := CRC32C.Checksum data;
  xxhash_Sum64_u64 data := ltac:(pose proof (CRC32C.Checksum_range data); unfold_widths; lia);
|}.

Definition zstd_example : Zstd := {|
  zstd_EncodeAll raw := mk_byte 0x28 :: raw;
  zstd_DecodeAll stored := match stored with _ :: raw => Some raw | [] => None end;
  zstd_roundtrip raw _ := eq_refl;
  zstd_frame_nonempty raw _ := ltac:(discriminate);
|}.
