(* ===== verification/SegFormat.v ===== *)
(** * The segment file format: fixed-size regions (internal/segformat)

    Constants, structs, [Validate] methods and the [MarshalBinary]/[Parse..]
    pairs of the file preamble, block preamble, index preamble, block index
    entry and trailer, with the proofs that the pairs are inverse to each
    other in both directions. *)
From S2P Require Import Prelude Hash.

(** ** Constants (constants.go) *)
Definition Version : Z := 2.
Definition FilePreambleSize : nat := 64.
Definition BlockPreambleSize : nat := 64.
Definition IndexPreambleSize : nat := 64.
Definition BlockIndexEntrySize : nat := 64.
Definition TrailerSize : nat := 192.
Definition RecordHeaderSize : Z := 16.
Definition MaxRawBlockSize : Z := 16777216.      (* 16 << 20 *)
Definition MaxStoredBlockSize : Z := 20971520.   (* 20 << 20 *)
Definition MaxRecordHeaders : Z := 64.
Definition MaxRecordHeaderBytes : Z := 262144.   (* 256 << 10 *)
Definition MaxRecordHeaderKeyLen : Z := 1024.
Definition MaxRecordHeaderValueLen : Z := 65535. (* 1<<16 - 1 *)
Definition MaxRecordValueLen : Z := 4194304.     (* 4 << 20 *)
Definition MaxBlockCount : Z := (MaxUint32 - 64) / 64.
Definition MaxRecordCount : Z := MaxUint32.
Definition MaxRecordLSN : Z := MaxUint64 - 1.
Definition ReservedLSN : Z := MaxUint64.

Definition fileMagic : list byte := String.list_byte_of_string "PLSG".
Definition blockMagic : list byte := String.list_byte_of_string "PLBK".
Definition indexMagic : list byte := String.list_byte_of_string "PLIX".
Definition trailerMagic : list byte := String.list_byte_of_string "PLFT".

Definition CodecNone : Z := 0.
Definition CodecZstd : Z := 1.
Definition HashCRC32C : Z := 0.
Definition HashXXH64 : Z := 1.
Definition RecordFormatV1 : Z := 1.
Definition DefaultRecordFormat : Z := RecordFormatV1.

Definition Codec_Validate (c : Z) : result () :=
  if (c =? CodecNone) || (c =? CodecZstd) then Ok () else Err [SegErrUnsupportedCodec].
Definition HashAlgo_Validate (h : Z) : result () :=
  if (h =? HashCRC32C) || (h =? HashXXH64) then Ok () else Err [SegErrUnsupportedHashAlgo].
Definition RecordFormat_Validate (f : Z) : result () :=
  if f =? RecordFormatV1 then Ok () else Err [SegErrUnsupportedRecord].

(** ** Hashing (hash.go) *)
Definition HashBytes `{XXHash} (algo : Z) (data : list byte) : result Z :=
  if algo =? HashCRC32C then Ok (CRC32C.Checksum data)
  else if algo =? HashXXH64 then Ok (xxhash_Sum64 data)
  else Err [SegErrUnsupportedHashAlgo].

Lemma HashBytes_total `{XXHash} algo data :
  HashAlgo_Validate algo = Ok () → ∃ h, HashBytes algo data = Ok h ∧ is_u64 h.
Proof.
  unfold HashAlgo_Validate, HashBytes.
  destruct (Z.eqb_spec algo HashCRC32C), (Z.eqb_spec algo HashXXH64); cbn; try discriminate; intros _;
    eexists; split; try reflexivity; try apply xxhash_Sum64_u64;
    pose proof (CRC32C.Checksum_range data); unfold_widths; lia.
Qed.

Lemma HashBytes_u64 `{XXHash} algo data h : HashBytes algo data = Ok h → is_u64 h.
Proof.
  intros E. destruct (HashBytes_total algo data) as (h' & E' & Hh); [|congruence].
  unfold HashBytes in E. unfold HashAlgo_Validate.
  by destruct (algo =? HashCRC32C), (algo =? HashXXH64).
Qed.

(** ** Structs (types.go) *)
Record FilePreamble := mkFilePreamble {
  fp_Flags : Z; fp_Partition : Z; fp_Codec : Z; fp_HashAlgo : Z; fp_RecordFormat : Z;
  fp_BaseLSN : Z; fp_SegmentUUID : list byte; fp_WriterTag : list byte }.

Record BlockPreamble := mkBlockPreamble {
  bp_Flags : Z; bp_StoredSize : Z; bp_RawSize : Z; bp_RecordCount : Z; bp_BaseLSN : Z;
  bp_MinTimestampMS : Z; bp_MaxTimestampMS : Z; bp_BlockHash : Z }.

Record IndexPreamble := mkIndexPreamble {
  ip_Flags : Z; ip_EntrySize : Z; ip_EntryCount : Z; ip_IndexHash : Z }.

Record BlockIndexEntry := mkBlockIndexEntry {
  bx_BlockOffset : Z; bx_StoredSize : Z; bx_RawSize : Z; bx_RecordCount : Z; bx_BaseLSN : Z;
  bx_MinTimestampMS : Z; bx_MaxTimestampMS : Z; bx_BlockHash : Z }.

Record Trailer := mkTrailer {
  t_Flags : Z; t_Partition : Z; t_Codec : Z; t_HashAlgo : Z; t_RecordFormat : Z;
  t_BaseLSN : Z; t_LastLSN : Z; t_MinTimestampMS : Z; t_MaxTimestampMS : Z;
  t_RecordCount : Z; t_BlockCount : Z; t_BlockIndexOffset : Z; t_BlockIndexLength : Z;
  t_TotalSize : Z; t_CreatedUnixMS : Z; t_SegmentUUID : list byte; t_WriterTag : list byte;
  t_SegmentHash : Z; t_TrailerHash : Z }.

(** Go's typing of the struct fields: integers in their width, arrays of their
    length. *)
Definition FilePreamble_typed (p : FilePreamble) : Prop :=
  is_u32 (fp_Flags p) ∧ is_u32 (fp_Partition p) ∧ is_u16 (fp_Codec p) ∧ is_u16 (fp_HashAlgo p) ∧
  is_u16 (fp_RecordFormat p) ∧ is_u64 (fp_BaseLSN p) ∧
  length (fp_SegmentUUID p) = 16%nat ∧ length (fp_WriterTag p) = 16%nat.

Definition BlockPreamble_typed (p : BlockPreamble) : Prop :=
  is_u16 (bp_Flags p) ∧ is_u32 (bp_StoredSize p) ∧ is_u32 (bp_RawSize p) ∧ is_u32 (bp_RecordCount p) ∧
  is_u64 (bp_BaseLSN p) ∧ is_i64 (bp_MinTimestampMS p) ∧ is_i64 (bp_MaxTimestampMS p) ∧
  is_u64 (bp_BlockHash p).

Definition IndexPreamble_typed (p : IndexPreamble) : Prop :=
  is_u16 (ip_Flags p) ∧ is_u32 (ip_EntrySize p) ∧ is_u32 (ip_EntryCount p) ∧ is_u64 (ip_IndexHash p).

Definition BlockIndexEntry_typed (e : BlockIndexEntry) : Prop :=
  is_u64 (bx_BlockOffset e) ∧ is_u32 (bx_StoredSize e) ∧ is_u32 (bx_RawSize e) ∧
  is_u32 (bx_RecordCount e) ∧ is_u64 (bx_BaseLSN e) ∧ is_i64 (bx_MinTimestampMS e) ∧
  is_i64 (bx_MaxTimestampMS e) ∧ is_u64 (bx_BlockHash e).

Definition Trailer_typed (t : Trailer) : Prop :=
  is_u32 (t_Flags t) ∧ is_u32 (t_Partition t) ∧ is_u16 (t_Codec t) ∧ is_u16 (t_HashAlgo t) ∧
  is_u16 (t_RecordFormat t) ∧ is_u64 (t_BaseLSN t) ∧ is_u64 (t_LastLSN t) ∧
  is_i64 (t_MinTimestampMS t) ∧ is_i64 (t_MaxTimestampMS t) ∧ is_u32 (t_RecordCount t) ∧
  is_u32 (t_BlockCount t) ∧ is_u64 (t_BlockIndexOffset t) ∧ is_u32 (t_BlockIndexLength t) ∧
  is_u64 (t_TotalSize t) ∧ is_i64 (t_CreatedUnixMS t) ∧ length (t_SegmentUUID t) = 16%nat ∧
  length (t_WriterTag t) = 16%nat ∧ is_u64 (t_SegmentHash t) ∧ is_u64 (t_TrailerHash t).

(** ** LSN and offset arithmetic (validate.go) *)
Definition lastLSN (base count : Z) : result Z :=
  fail_if count =? 0 with [SegErrInvalidSegment];
  let delta := uint64 (uint32 (count - 1)) in
  fail_if uint64 (MaxRecordLSN - delta) <? base with [SegErrInvalidSegment];
  Ok (uint64 (base + delta)).

Definition nextLSN (base count : Z) : result Z :=
  last ← lastLSN base count; Ok (uint64 (last + 1)).

Definition nextBlockOffset (offset storedSize : Z) : result Z :=
  fail_if MaxUint64 - 64 <? offset with [SegErrInvalidSegment];
  let offset := uint64 (offset + 64) in
  fail_if MaxUint64 - storedSize <? offset with [SegErrInvalidSegment];
  Ok (uint64 (offset + storedSize)).

(** On typed arguments the wrap-around never shows: the checks leave exactly the
    ranges that end at or below [MaxRecordLSN]. *)
Lemma lastLSN_spec base count l :
  is_u64 base → is_u32 count →
  lastLSN base count = Ok l ↔ 0 < count ∧ base + count - 1 ≤ MaxRecordLSN ∧ l = base + count - 1.
Proof.
  unfold lastLSN, MaxRecordLSN. unfold_widths. intros Hb Hc.
  destruct (Z.eqb_spec count 0); [split; [discriminate | lia]|].
  rewrite (Z.mod_small (count - 1)) by lia. rewrite (Z.mod_small (count - 1)) by lia.
  rewrite (Z.mod_small (_ - (count - 1))) by lia.
  match goal with |- context [if ?a <? ?b then _ else _] => destruct (Z.ltb_spec a b) end.
  - split; [discriminate | lia].
  - rewrite Z.mod_small by lia. split; [intros [= <-]; lia | intros (_ & _ & ->); f_equal; lia].
Qed.

Lemma nextBlockOffset_spec offset size l :
  is_u64 offset → is_u32 size →
  nextBlockOffset offset size = Ok l ↔ offset + 64 + size ≤ MaxUint64 ∧ l = offset + 64 + size.
Proof.
  unfold nextBlockOffset. unfold_widths. intros Ho Hs.
  match goal with |- context [if ?a <? ?b then _ else _] => destruct (Z.ltb_spec a b) end.
  { split; [discriminate | lia]. }
  rewrite (Z.mod_small (offset + 64)) by lia.
  match goal with |- context [if ?a <? ?b then _ else _] => destruct (Z.ltb_spec a b) end.
  { split; [discriminate | lia]. }
  rewrite Z.mod_small by lia. split; [intros [= <-]; lia | intros (_ & ->); done].
Qed.

(** ** Validation (validate.go) *)
Definition FilePreamble_Validate (p : FilePreamble) : result () :=
  fail_if negb (fp_Flags p =? 0) with [SegErrInvalidSegment];
  fail_if MaxRecordLSN <? fp_BaseLSN p with [SegErrInvalidSegment];
  _ ← Codec_Validate (fp_Codec p);
  _ ← HashAlgo_Validate (fp_HashAlgo p);
  RecordFormat_Validate (fp_RecordFormat p).

Definition BlockPreamble_Validate (p : BlockPreamble) : result () :=
  fail_if negb (bp_Flags p =? 0) with [SegErrInvalidSegment];
  fail_if bp_StoredSize p =? 0 with [SegErrInvalidSegment];
  fail_if MaxStoredBlockSize <? bp_StoredSize p with [SegErrBlockTooLarge];
  fail_if bp_RawSize p =? 0 with [SegErrInvalidSegment];
  fail_if MaxRawBlockSize <? bp_RawSize p with [SegErrBlockTooLarge];
  fail_if bp_RecordCount p =? 0 with [SegErrInvalidSegment];
  fail_if bp_RawSize p / RecordHeaderSize <? bp_RecordCount p with [SegErrInvalidSegment];
  _ ← lastLSN (bp_BaseLSN p) (bp_RecordCount p);
  fail_if bp_MaxTimestampMS p <? bp_MinTimestampMS p with [SegErrInvalidSegment];
  Ok ().

Definition IndexPreamble_Validate (p : IndexPreamble) : result () :=
  fail_if negb (ip_Flags p =? 0) with [SegErrInvalidSegment];
  fail_if negb (ip_EntrySize p =? Z.of_nat BlockIndexEntrySize) with [SegErrInvalidSegment];
  fail_if ip_EntryCount p =? 0 with [SegErrInvalidSegment];
  fail_if MaxBlockCount <? ip_EntryCount p with [SegErrInvalidSegment];
  Ok ().

Definition BlockIndexEntry_Validate (e : BlockIndexEntry) : result () :=
  fail_if bx_StoredSize e =? 0 with [SegErrInvalidSegment];
  fail_if MaxStoredBlockSize <? bx_StoredSize e with [SegErrBlockTooLarge];
  fail_if bx_RawSize e =? 0 with [SegErrInvalidSegment];
  fail_if MaxRawBlockSize <? bx_RawSize e with [SegErrBlockTooLarge];
  fail_if bx_RecordCount e =? 0 with [SegErrInvalidSegment];
  fail_if bx_RawSize e / RecordHeaderSize <? bx_RecordCount e with [SegErrInvalidSegment];
  _ ← lastLSN (bx_BaseLSN e) (bx_RecordCount e);
  fail_if bx_MaxTimestampMS e <? bx_MinTimestampMS e with [SegErrInvalidSegment];
  Ok ().

Definition Trailer_Validate (t : Trailer) (objectSize : Z) : result () :=
  fail_if negb (t_Flags t =? 0) with [SegErrInvalidSegment];
  _ ← Codec_Validate (t_Codec t);
  _ ← HashAlgo_Validate (t_HashAlgo t);
  _ ← RecordFormat_Validate (t_RecordFormat t);
  fail_if t_LastLSN t <? t_BaseLSN t with [SegErrInvalidSegment];
  fail_if MaxRecordLSN <? t_LastLSN t with [SegErrInvalidSegment];
  fail_if t_RecordCount t =? 0 with [SegErrInvalidSegment];
  fail_if t_BlockCount t =? 0 with [SegErrInvalidSegment];
  fail_if MaxBlockCount <? t_BlockCount t with [SegErrInvalidSegment];
  fail_if t_MaxTimestampMS t <? t_MinTimestampMS t with [SegErrInvalidSegment];
  let expectedRecords := uint64 (uint64 (t_LastLSN t - t_BaseLSN t) + 1) in
  fail_if negb (expectedRecords =? t_RecordCount t) with [SegErrInvalidSegment];
  let expectedIndexLength := uint64 (64 + uint64 (t_BlockCount t * 64)) in
  fail_if MaxUint32 <? expectedIndexLength with [SegErrInvalidSegment];
  fail_if negb (t_BlockIndexLength t =? uint32 expectedIndexLength) with [SegErrInvalidSegment];
  fail_if t_BlockIndexOffset t <? 128 with [SegErrInvalidSegment];
  fail_if MaxUint64 - t_BlockIndexLength t <? t_BlockIndexOffset t with [SegErrInvalidSegment];
  let indexEnd := uint64 (t_BlockIndexOffset t + t_BlockIndexLength t) in
  fail_if MaxUint64 - 192 <? indexEnd with [SegErrInvalidSegment];
  let expectedTotal := uint64 (indexEnd + 192) in
  fail_if negb (t_TotalSize t =? expectedTotal) with [SegErrInvalidSegment];
  fail_if negb (objectSize =? 0) && negb (t_TotalSize t =? objectSize) with [SegErrInvalidSegment];
  Ok ().

Definition ValidatePreambleTrailer (p : FilePreamble) (t : Trailer) : result () :=
  _ ← FilePreamble_Validate p;
  _ ← Trailer_Validate t (t_TotalSize t);
  fail_if negb (fp_Partition p =? t_Partition t) || negb (fp_Codec p =? t_Codec t) ||
          negb (fp_HashAlgo p =? t_HashAlgo t) || negb (fp_RecordFormat p =? t_RecordFormat t) ||
          negb (fp_BaseLSN p =? t_BaseLSN t) ||
          negb (bool_decide (fp_SegmentUUID p = t_SegmentUUID t)) ||
          negb (bool_decide (fp_WriterTag p = t_WriterTag t))
  with [SegErrInvalidSegment];
  Ok ().

Definition MatchBlockIndexEntry (p : BlockPreamble) (e : BlockIndexEntry) : result () :=
  fail_if negb (bp_StoredSize p =? bx_StoredSize e) || negb (bp_RawSize p =? bx_RawSize e) ||
          negb (bp_RecordCount p =? bx_RecordCount e) || negb (bp_BaseLSN p =? bx_BaseLSN e) ||
          negb (bp_MinTimestampMS p =? bx_MinTimestampMS e) ||
          negb (bp_MaxTimestampMS p =? bx_MaxTimestampMS e) ||
          negb (bp_BlockHash p =? bx_BlockHash e)
  with [SegErrBlockIndexMismatch];
  Ok ().

(** ** Marshal and parse (marshal.go)

    The [.._bytes] functions are the buffers the [MarshalBinary] methods fill. *)
Definition FilePreamble_bytes (p : FilePreamble) : list byte :=
  fill FilePreambleSize [
    (0, fileMagic);
    (4, be_put 2 Version);
    (6, be_put 2 (Z.of_nat FilePreambleSize));
    (8, be_put 4 (fp_Flags p));
    (12, be_put 4 (fp_Partition p));
    (16, be_put 2 (fp_Codec p));
    (18, be_put 2 (fp_HashAlgo p));
    (20, be_put 2 (fp_RecordFormat p));
    (24, be_put 8 (fp_BaseLSN p));
    (32, fp_SegmentUUID p);
    (48, fp_WriterTag p)]%nat.

Definition FilePreamble_MarshalBinary (p : FilePreamble) : result (list byte) :=
  _ ← FilePreamble_Validate p;
  Ok (FilePreamble_bytes p).

Definition ParseFilePreamble (buf : list byte) : result FilePreamble :=
  fail_if negb (length buf =? FilePreambleSize)%nat with [SegErrInvalidSegment];
  fail_if negb (bool_decide (sub buf 0 4 = fileMagic)) with [SegErrInvalidSegment];
  fail_if negb (be_get (sub buf 4 2) =? Version) with [SegErrUnsupportedVersion];
  fail_if negb (be_get (sub buf 6 2) =? Z.of_nat FilePreambleSize) with [SegErrInvalidSegment];
  fail_if negb (all_zero (sub buf 22 2)) with [SegErrInvalidSegment];
  let p := {|
    fp_Flags := be_get (sub buf 8 4);
    fp_Partition := be_get (sub buf 12 4);
    fp_Codec := be_get (sub buf 16 2);
    fp_HashAlgo := be_get (sub buf 18 2);
    fp_RecordFormat := be_get (sub buf 20 2);
    fp_BaseLSN := be_get (sub buf 24 8);
    fp_SegmentUUID := sub buf 32 16;
    fp_WriterTag := sub buf 48 16 |} in
  _ ← FilePreamble_Validate p;
  Ok p.

Definition BlockPreamble_bytes (p : BlockPreamble) : list byte :=
  fill BlockPreambleSize [
    (0, blockMagic);
    (4, be_put 2 (Z.of_nat BlockPreambleSize));
    (6, be_put 2 (bp_Flags p));
    (8, be_put 4 (bp_StoredSize p));
    (12, be_put 4 (bp_RawSize p));
    (16, be_put 4 (bp_RecordCount p));
    (24, be_put 8 (bp_BaseLSN p));
    (32, be_put 8 (uint64 (bp_MinTimestampMS p)));
    (40, be_put 8 (uint64 (bp_MaxTimestampMS p)));
    (48, be_put 8 (bp_BlockHash p))]%nat.

Definition BlockPreamble_MarshalBinary (p : BlockPreamble) : result (list byte) :=
  _ ← BlockPreamble_Validate p;
  Ok (BlockPreamble_bytes p).

Definition ParseBlockPreamble (buf : list byte) : result BlockPreamble :=
  fail_if negb (length buf =? BlockPreambleSize)%nat with [SegErrInvalidSegment];
  fail_if negb (bool_decide (sub buf 0 4 = blockMagic)) with [SegErrInvalidSegment];
  fail_if negb (be_get (sub buf 4 2) =? Z.of_nat BlockPreambleSize) with [SegErrInvalidSegment];
  fail_if negb (all_zero (sub buf 20 4)) || negb (all_zero (sub buf 56 8)) with [SegErrInvalidSegment];
  let p := {|
    bp_Flags := be_get (sub buf 6 2);
    bp_StoredSize := be_get (sub buf 8 4);
    bp_RawSize := be_get (sub buf 12 4);
    bp_RecordCount := be_get (sub buf 16 4);
    bp_BaseLSN := be_get (sub buf 24 8);
    bp_MinTimestampMS := int64 (be_get (sub buf 32 8));
    bp_MaxTimestampMS := int64 (be_get (sub buf 40 8));
    bp_BlockHash := be_get (sub buf 48 8) |} in
  _ ← BlockPreamble_Validate p;
  Ok p.

(** [writeIndexPreamble] of index.go fills the same bytes as
    [IndexPreamble.MarshalBinary]. *)
Definition writeIndexPreamble (p : IndexPreamble) : list byte :=
  fill IndexPreambleSize [
    (0, indexMagic);
    (4, be_put 2 (Z.of_nat IndexPreambleSize));
    (6, be_put 2 (ip_Flags p));
    (8, be_put 4 (ip_EntrySize p));
    (12, be_put 4 (ip_EntryCount p));
    (16, be_put 8 (ip_IndexHash p))]%nat.

Definition IndexPreamble_MarshalBinary (p : IndexPreamble) : result (list byte) :=
  _ ← IndexPreamble_Validate p;
  Ok (writeIndexPreamble p).

Definition ParseIndexPreamble (buf : list byte) : result IndexPreamble :=
  fail_if negb (length buf =? IndexPreambleSize)%nat with [SegErrInvalidSegment];
  fail_if negb (bool_decide (sub buf 0 4 = indexMagic)) with [SegErrInvalidSegment];
  fail_if negb (be_get (sub buf 4 2) =? Z.of_nat IndexPreambleSize) with [SegErrInvalidSegment];
  fail_if negb (all_zero (sub buf 24 40)) with [SegErrInvalidSegment];
  let p := {|
    ip_Flags := be_get (sub buf 6 2);
    ip_EntrySize := be_get (sub buf 8 4);
    ip_EntryCount := be_get (sub buf 12 4);
    ip_IndexHash := be_get (sub buf 16 8) |} in
  _ ← IndexPreamble_Validate p;
  Ok p.

(** [writeBlockIndexEntry] of index.go, also the buffer of
    [BlockIndexEntry.MarshalBinary]. *)
Definition writeBlockIndexEntry (e : BlockIndexEntry) : list byte :=
  fill BlockIndexEntrySize [
    (0, be_put 8 (bx_BlockOffset e));
    (8, be_put 4 (bx_StoredSize e));
    (12, be_put 4 (bx_RawSize e));
    (16, be_put 4 (bx_RecordCount e));
    (24, be_put 8 (bx_BaseLSN e));
    (32, be_put 8 (uint64 (bx_MinTimestampMS e)));
    (40, be_put 8 (uint64 (bx_MaxTimestampMS e)));
    (48, be_put 8 (bx_BlockHash e))]%nat.

Definition BlockIndexEntry_MarshalBinary (e : BlockIndexEntry) : result (list byte) :=
  _ ← BlockIndexEntry_Validate e;
  Ok (writeBlockIndexEntry e).

Definition ParseBlockIndexEntry (buf : list byte) : result BlockIndexEntry :=
  fail_if negb (length buf =? BlockIndexEntrySize)%nat with [SegErrInvalidSegment];
  fail_if negb (all_zero (sub buf 20 4)) || negb (all_zero (sub buf 56 8)) with [SegErrInvalidSegment];
  let e := {|
    bx_BlockOffset := be_get (sub buf 0 8);
    bx_StoredSize := be_get (sub buf 8 4);
    bx_RawSize := be_get (sub buf 12 4);
    bx_RecordCount := be_get (sub buf 16 4);
    bx_BaseLSN := be_get (sub buf 24 8);
    bx_MinTimestampMS := int64 (be_get (sub buf 32 8));
    bx_MaxTimestampMS := int64 (be_get (sub buf 40 8));
    bx_BlockHash := be_get (sub buf 48 8) |} in
  _ ← BlockIndexEntry_Validate e;
  Ok e.

(** The trailer before its own hash is written at [136:144]. *)
Definition Trailer_body_bytes (t : Trailer) : list byte :=
  fill TrailerSize [
    (0, trailerMagic);
    (4, be_put 2 (Z.of_nat TrailerSize));
    (6, be_put 2 Version);
    (8, be_put 4 (t_Flags t));
    (12, be_put 4 (t_Partition t));
    (16, be_put 2 (t_Codec t));
    (18, be_put 2 (t_HashAlgo t));
    (20, be_put 2 (t_RecordFormat t));
    (24, be_put 8 (t_BaseLSN t));
    (32, be_put 8 (t_LastLSN t));
    (40, be_put 8 (uint64 (t_MinTimestampMS t)));
    (48, be_put 8 (uint64 (t_MaxTimestampMS t)));
    (56, be_put 4 (t_RecordCount t));
    (60, be_put 4 (t_BlockCount t));
    (64, be_put 8 (t_BlockIndexOffset t));
    (72, be_put 4 (t_BlockIndexLength t));
    (80, be_put 8 (t_TotalSize t));
    (88, be_put 8 (uint64 (t_CreatedUnixMS t)));
    (96, t_SegmentUUID t);
    (112, t_WriterTag t);
    (128, be_put 8 (t_SegmentHash t))]%nat.

Section trailer_codec.
Context `{XXHash}.

Definition Trailer_MarshalBinary (t : Trailer) : result (list byte) :=
  _ ← Trailer_Validate t (t_TotalSize t);
  let buf := Trailer_body_bytes t in
  trailerHash ← HashBytes (t_HashAlgo t) buf;
  Ok (copy_at 136 (be_put 8 trailerHash) buf).

Definition ParseTrailer (buf : list byte) (objectSize : Z) : result Trailer :=
  fail_if negb (length buf =? TrailerSize)%nat with [SegErrInvalidSegment];
  fail_if negb (bool_decide (sub buf 0 4 = trailerMagic)) with [SegErrInvalidSegment];
  fail_if negb (be_get (sub buf 4 2) =? Z.of_nat TrailerSize) with [SegErrInvalidSegment];
  fail_if negb (be_get (sub buf 6 2) =? Version) with [SegErrUnsupportedVersion];
  fail_if negb (all_zero (sub buf 22 2)) || negb (all_zero (sub buf 76 4)) ||
          negb (all_zero (sub buf 144 48)) with [SegErrInvalidSegment];
  let t := {|
    t_Flags := be_get (sub buf 8 4);
    t_Partition := be_get (sub buf 12 4);
    t_Codec := be_get (sub buf 16 2);
    t_HashAlgo := be_get (sub buf 18 2);
    t_RecordFormat := be_get (sub buf 20 2);
    t_BaseLSN := be_get (sub buf 24 8);
    t_LastLSN := be_get (sub buf 32 8);
    t_MinTimestampMS := int64 (be_get (sub buf 40 8));
    t_MaxTimestampMS := int64 (be_get (sub buf 48 8));
    t_RecordCount := be_get (sub buf 56 4);
    t_BlockCount := be_get (sub buf 60 4);
    t_BlockIndexOffset := be_get (sub buf 64 8);
    t_BlockIndexLength := be_get (sub buf 72 4);
    t_TotalSize := be_get (sub buf 80 8);
    t_CreatedUnixMS := int64 (be_get (sub buf 88 8));
    t_SegmentUUID := sub buf 96 16;
    t_WriterTag := sub buf 112 16;
    t_SegmentHash := be_get (sub buf 128 8);
    t_TrailerHash := be_get (sub buf 136 8) |} in
  _ ← Trailer_Validate t objectSize;
  let check := copy_at 136 (zeros 8) buf in
  got ← HashBytes (t_HashAlgo t) check;
  fail_if negb (got =? t_TrailerHash t) with [SegErrIntegrityMismatch];
  Ok t.

Definition MarshalTrailer (t : Trailer) : result (list byte * Trailer) :=
  buf ← Trailer_MarshalBinary t;
  sealed ← ParseTrailer buf (t_TotalSize t);
  Ok (buf, sealed).
End trailer_codec.

(** ** Round trips *)
Lemma FilePreamble_eta p :
  mkFilePreamble (fp_Flags p) (fp_Partition p) (fp_Codec p) (fp_HashAlgo p) (fp_RecordFormat p)
    (fp_BaseLSN p) (fp_SegmentUUID p) (fp_WriterTag p) = p.
Proof. by destruct p. Qed.
Lemma BlockPreamble_eta p :
  mkBlockPreamble (bp_Flags p) (bp_StoredSize p) (bp_RawSize p) (bp_RecordCount p) (bp_BaseLSN p)
    (bp_MinTimestampMS p) (bp_MaxTimestampMS p) (bp_BlockHash p) = p.
Proof. by destruct p. Qed.
Lemma IndexPreamble_eta p :
  mkIndexPreamble (ip_Flags p) (ip_EntrySize p) (ip_EntryCount p) (ip_IndexHash p) = p.
Proof. by destruct p. Qed.
Lemma BlockIndexEntry_eta e :
  mkBlockIndexEntry (bx_BlockOffset e) (bx_StoredSize e) (bx_RawSize e) (bx_RecordCount e)
    (bx_BaseLSN e) (bx_MinTimestampMS e) (bx_MaxTimestampMS e) (bx_BlockHash e) = e.
Proof. by destruct e. Qed.

Lemma ParseFilePreamble_bytes p :
  FilePreamble_typed p → FilePreamble_Validate p = Ok () →
  ParseFilePreamble (FilePreamble_bytes p) = Ok p.
Proof.
  intros Ht Hv. unfold FilePreamble_typed in Ht.
  unfold ParseFilePreamble, FilePreamble_bytes, FilePreambleSize; cbv zeta.
  read_fields. guards. by rewrite FilePreamble_eta, Hv.
Qed.

Lemma ParseBlockPreamble_bytes p :
  BlockPreamble_typed p → BlockPreamble_Validate p = Ok () →
  ParseBlockPreamble (BlockPreamble_bytes p) = Ok p.
Proof.
  intros Ht Hv. unfold BlockPreamble_typed in Ht.
  unfold ParseBlockPreamble, BlockPreamble_bytes, BlockPreambleSize; cbv zeta.
  read_fields. guards. by rewrite BlockPreamble_eta, Hv.
Qed.

Lemma ParseIndexPreamble_bytes p :
  IndexPreamble_typed p → IndexPreamble_Validate p = Ok () →
  ParseIndexPreamble (writeIndexPreamble p) = Ok p.
Proof.
  intros Ht Hv. unfold IndexPreamble_typed in Ht.
  unfold ParseIndexPreamble, writeIndexPreamble, IndexPreambleSize; cbv zeta.
  read_fields. guards. by rewrite IndexPreamble_eta, Hv.
Qed.

Lemma ParseBlockIndexEntry_bytes e :
  BlockIndexEntry_typed e → BlockIndexEntry_Validate e = Ok () →
  ParseBlockIndexEntry (writeBlockIndexEntry e) = Ok e.
Proof.
  intros Ht Hv. unfold BlockIndexEntry_typed in Ht.
  unfold ParseBlockIndexEntry, writeBlockIndexEntry, BlockIndexEntrySize; cbv zeta.
  read_fields. guards. by rewrite BlockIndexEntry_eta, Hv.
Qed.

Definition with_TrailerHash (t : Trailer) (h : Z) : Trailer :=
  mkTrailer (t_Flags t) (t_Partition t) (t_Codec t) (t_HashAlgo t) (t_RecordFormat t)
    (t_BaseLSN t) (t_LastLSN t) (t_MinTimestampMS t) (t_MaxTimestampMS t) (t_RecordCount t)
    (t_BlockCount t) (t_BlockIndexOffset t) (t_BlockIndexLength t) (t_TotalSize t)
    (t_CreatedUnixMS t) (t_SegmentUUID t) (t_WriterTag t) (t_SegmentHash t) h.

Lemma Trailer_Validate_hash t h n : Trailer_Validate (with_TrailerHash t h) n = Trailer_Validate t n.
Proof. reflexivity. Qed.

Lemma Trailer_gap t : Trailer_typed t → sub (Trailer_body_bytes t) 136 8 = zeros 8.
Proof.
  intros Ht. unfold Trailer_typed in Ht. unfold Trailer_body_bytes. read_fields. done.
Qed.

Lemma ParseTrailer_bytes `{XXHash} t h n :
  Trailer_typed t → is_u64 h → Trailer_Validate t n = Ok () →
  HashBytes (t_HashAlgo t) (Trailer_body_bytes t) = Ok h →
  ParseTrailer (copy_at 136 (be_put 8 h) (Trailer_body_bytes t)) n
  = Ok (with_TrailerHash t h).
Proof.
  intros Ht Hh Hv HH. pose proof (Trailer_gap t Ht) as Hgap.
  pose proof (copy_at_zero_back (Trailer_body_bytes t) 136 (be_put 8 h)) as Hback.
  rewrite length_be_put in Hback. rewrite <- Hback in HH; [|unfold Trailer_body_bytes, TrailerSize; len_lia|done].
  clear Hback. unfold Trailer_typed in Ht.
  unfold ParseTrailer, Trailer_body_bytes, TrailerSize in *.
  rewrite fill_snoc in *; cbn [app] in *; cbv zeta.
  read_fields. guards. fold (with_TrailerHash t h).
  rewrite Trailer_Validate_hash, Hv. cbn [mbind result_bind t_HashAlgo with_TrailerHash].
  rewrite HH. cbn. by rewrite Z.eqb_refl.
Qed.

(** Everything [Validate] accepts is marshalled, and the bytes parse back to the
    struct; [MarshalTrailer] returns the trailer carrying the hash of its bytes. *)
Theorem FilePreamble_roundtrip p :
  FilePreamble_typed p → FilePreamble_Validate p = Ok () →
  ∃ buf, FilePreamble_MarshalBinary p = Ok buf ∧ ParseFilePreamble buf = Ok p.
Proof.
  intros Ht Hv. exists (FilePreamble_bytes p). unfold FilePreamble_MarshalBinary.
  rewrite Hv. eauto using ParseFilePreamble_bytes.
Qed.

Theorem BlockPreamble_roundtrip p :
  BlockPreamble_typed p → BlockPreamble_Validate p = Ok () →
  ∃ buf, BlockPreamble_MarshalBinary p = Ok buf ∧ ParseBlockPreamble buf = Ok p.
Proof.
  intros Ht Hv. exists (BlockPreamble_bytes p). unfold BlockPreamble_MarshalBinary.
  rewrite Hv. eauto using ParseBlockPreamble_bytes.
Qed.

Theorem Trailer_roundtrip `{XXHash} t :
  Trailer_typed t → Trailer_Validate t (t_TotalSize t) = Ok () →
  ∃ buf h, MarshalTrailer t = Ok (buf, with_TrailerHash t h) ∧
    ParseTrailer buf (t_TotalSize t) = Ok (with_TrailerHash t h) ∧
    HashBytes (t_HashAlgo t) (Trailer_body_bytes t) = Ok h.
Proof.
  intros Ht Hv. assert (Ha : HashAlgo_Validate (t_HashAlgo t) = Ok ()).
  { unfold Trailer_Validate in Hv. cbv zeta in Hv. inv_ok. done. }
  destruct (HashBytes_total (t_HashAlgo t) (Trailer_body_bytes t) Ha) as (h & HH & Hh).
  exists (copy_at 136 (be_put 8 h) (Trailer_body_bytes t)), h.
  pose proof (ParseTrailer_bytes t h _ Ht Hh Hv HH) as HP.
  unfold MarshalTrailer, Trailer_MarshalBinary. rewrite Hv. cbn [mbind result_bind].
  rewrite HH. cbn [mbind result_bind]. rewrite HP. done.
Qed.

(** ** Canonicity: a buffer the parser accepts is the one the marshaller writes *)
Lemma ParseFilePreamble_canonical buf p :
  ParseFilePreamble buf = Ok p → FilePreamble_bytes p = buf ∧ FilePreamble_Validate p = Ok ().
Proof.
  unfold ParseFilePreamble, FilePreamble_bytes, FilePreambleSize. cbv zeta.
  intros H. inv_ok. bool_to_prop. apply Nat.eqb_eq in Hchk. split; [|done].
  cbn [fp_Flags fp_Partition fp_Codec fp_HashAlgo fp_RecordFormat fp_BaseLSN fp_SegmentUUID fp_WriterTag].
  canonical [4;2;2;4;4;2;2;2;2;8;16;16]%nat.
Qed.

Lemma ParseBlockPreamble_canonical buf p :
  ParseBlockPreamble buf = Ok p → BlockPreamble_bytes p = buf ∧ BlockPreamble_Validate p = Ok ().
Proof.
  unfold ParseBlockPreamble, BlockPreamble_bytes, BlockPreambleSize. cbv zeta.
  intros H. inv_ok. bool_to_prop. apply Nat.eqb_eq in Hchk. split; [|done].
  cbn [bp_Flags bp_StoredSize bp_RawSize bp_RecordCount bp_BaseLSN bp_MinTimestampMS bp_MaxTimestampMS
       bp_BlockHash].
  canonical [4;2;2;4;4;4;4;8;8;8;8;8]%nat.
Qed.

Lemma ParseIndexPreamble_canonical buf p :
  ParseIndexPreamble buf = Ok p → writeIndexPreamble p = buf ∧ IndexPreamble_Validate p = Ok ().
Proof.
  unfold ParseIndexPreamble, writeIndexPreamble, IndexPreambleSize. cbv zeta.
  intros H. inv_ok. bool_to_prop. apply Nat.eqb_eq in Hchk. split; [|done].
  cbn [ip_Flags ip_EntrySize ip_EntryCount ip_IndexHash].
  canonical [4;2;2;4;4;8;40]%nat.
Qed.

Lemma ParseBlockIndexEntry_canonical buf e :
  ParseBlockIndexEntry buf = Ok e → writeBlockIndexEntry e = buf ∧ BlockIndexEntry_Validate e = Ok ().
Proof.
  unfold ParseBlockIndexEntry, writeBlockIndexEntry, BlockIndexEntrySize. cbv zeta.
  intros H. inv_ok. bool_to_prop. apply Nat.eqb_eq in Hchk. split; [|done].
  cbn [bx_BlockOffset bx_StoredSize bx_RawSize bx_RecordCount bx_BaseLSN bx_MinTimestampMS
       bx_MaxTimestampMS bx_BlockHash].
  canonical [8;4;4;4;4;8;8;8;8;8]%nat.
Qed.

Lemma Trailer_Validate_size t n m :
  Trailer_Validate t n = Ok () → m = 0 ∨ m = t_TotalSize t → Trailer_Validate t m = Ok ().
Proof.
  unfold Trailer_Validate. cbv zeta. intros H Hm. inv_ok.
  repeat match goal with E : ?c = _ |- context [?c] => rewrite E; cbn [mbind result_bind] end.
  destruct Hm as [-> | ->]; [done|]. rewrite Z.eqb_refl. by rewrite andb_false_r.
Qed.

Lemma Trailer_Validate_size_inv t n :
  Trailer_Validate t n = Ok () → n = 0 ∨ n = t_TotalSize t.
Proof.
  unfold Trailer_Validate. cbv zeta. intros H. inv_ok.
  match goal with E : negb (n =? 0) && _ = false |- _ => apply andb_false_iff in E as [E|E] end;
    bool_to_prop; auto.
Qed.

(** The trailer bytes of [ParseTrailer]'s input, with the hash field zeroed, are
    the bytes [MarshalBinary] hashes. *)
Lemma ParseTrailer_canonical `{XXHash} buf n t :
  ParseTrailer buf n = Ok t →
  Trailer_MarshalBinary t = Ok buf ∧ Trailer_Validate t n = Ok () ∧
  HashBytes (t_HashAlgo t) (Trailer_body_bytes t) = Ok (t_TrailerHash t).
Proof.
  unfold ParseTrailer, TrailerSize. cbv zeta. intros HP. inv_ok. bool_to_prop.
  apply Nat.eqb_eq in Hchk.
  match goal with HV : Trailer_Validate ?t n = Ok _ |- _ =>
    assert (Hbody : Trailer_body_bytes t = copy_at 136 (zeros 8) buf) end.
  { unfold Trailer_body_bytes, TrailerSize.
    cbn [t_Flags t_Partition t_Codec t_HashAlgo t_RecordFormat t_BaseLSN t_LastLSN t_MinTimestampMS
         t_MaxTimestampMS t_RecordCount t_BlockCount t_BlockIndexOffset t_BlockIndexLength t_TotalSize
         t_CreatedUnixMS t_SegmentUUID t_WriterTag t_SegmentHash].
    canonical [4;2;2;4;4;2;2;2;2;8;8;8;8;4;4;8;4;4;8;8;16;16;8;8;48]%nat. }
  cbn [t_HashAlgo t_TrailerHash] in *. subst. rewrite Hbody.
  split_and!; [|done..]. unfold Trailer_MarshalBinary.
  rewrite (Trailer_Validate_size _ n) by auto. cbn [mbind result_bind t_HashAlgo].
  rewrite Hbody, Hbind0. cbn [mbind result_bind].
  f_equal. apply (same_fields_eq [136;8;48]%nat); [by autorewrite with len | done |].
  cbn [same_fields Nat.add]. subs. by rewrite sub_be_put by lia.
Qed.

(** ** The codec laws *)
Lemma ParseFilePreamble_typed buf p : ParseFilePreamble buf = Ok p → FilePreamble_typed p.
Proof.
  unfold ParseFilePreamble, FilePreambleSize. cbv zeta. intros H. inv_ok. bool_to_prop.
  apply Nat.eqb_eq in Hchk. unfold FilePreamble_typed; cbn.
  split_and!; first [apply be_get_u16 | apply be_get_u32 | apply be_get_u64 | idtac]; by apply length_sub; lia.
Qed.
Lemma ParseBlockPreamble_typed buf p : ParseBlockPreamble buf = Ok p → BlockPreamble_typed p.
Proof.
  unfold ParseBlockPreamble, BlockPreambleSize. cbv zeta. intros H. inv_ok. bool_to_prop.
  apply Nat.eqb_eq in Hchk. unfold BlockPreamble_typed; cbn.
  split_and!; first [apply int64_range | apply be_get_u16 | apply be_get_u32 | apply be_get_u64 | idtac];
    by apply length_sub; lia.
Qed.
Lemma ParseIndexPreamble_typed buf p : ParseIndexPreamble buf = Ok p → IndexPreamble_typed p.
Proof.
  unfold ParseIndexPreamble, IndexPreambleSize. cbv zeta. intros H. inv_ok. bool_to_prop.
  apply Nat.eqb_eq in Hchk. unfold IndexPreamble_typed; cbn.
  split_and!; first [apply be_get_u16 | apply be_get_u32 | apply be_get_u64 | idtac]; by apply length_sub; lia.
Qed.
Lemma ParseBlockIndexEntry_typed buf e : ParseBlockIndexEntry buf = Ok e → BlockIndexEntry_typed e.
Proof.
  unfold ParseBlockIndexEntry, BlockIndexEntrySize. cbv zeta. intros H. inv_ok. bool_to_prop.
  apply Nat.eqb_eq in Hchk. unfold BlockIndexEntry_typed; cbn.
  split_and!; first [apply int64_range | apply be_get_u16 | apply be_get_u32 | apply be_get_u64 | idtac];
    by apply length_sub; lia.
Qed.
Lemma ParseTrailer_typed `{XXHash} buf n t : ParseTrailer buf n = Ok t → Trailer_typed t.
Proof.
  unfold ParseTrailer, TrailerSize. cbv zeta. intros HP. inv_ok. bool_to_prop.
  apply Nat.eqb_eq in Hchk. unfold Trailer_typed; cbn.
  split_and!; first [apply int64_range | apply be_get_u16 | apply be_get_u32 | apply be_get_u64 | idtac];
    by apply length_sub; lia.
Qed.

(** C1. The four 64-byte regions of a segment file have exact codecs: a parser
    accepts a buffer and returns a struct exactly when the struct is well typed
    and its [MarshalBinary] succeeds with that buffer.  Hence the encoding
    loses nothing, is injective, and no two buffers decode alike. *)
Theorem segment_region_codecs :
  (∀ buf p, ParseFilePreamble buf = Ok p ↔
     FilePreamble_typed p ∧ FilePreamble_MarshalBinary p = Ok buf) ∧
  (∀ buf p, ParseBlockPreamble buf = Ok p ↔
     BlockPreamble_typed p ∧ BlockPreamble_MarshalBinary p = Ok buf) ∧
  (∀ buf p, ParseIndexPreamble buf = Ok p ↔
     IndexPreamble_typed p ∧ IndexPreamble_MarshalBinary p = Ok buf) ∧
  (∀ buf e, ParseBlockIndexEntry buf = Ok e ↔
     BlockIndexEntry_typed e ∧ BlockIndexEntry_MarshalBinary e = Ok buf).
Proof.
  unfold FilePreamble_MarshalBinary, BlockPreamble_MarshalBinary, IndexPreamble_MarshalBinary,
    BlockIndexEntry_MarshalBinary.
  split_and!; intros buf p; (split; [intros H | intros [Ht H]; inv_ok]).
  - destruct (ParseFilePreamble_canonical _ _ H) as [-> ->]. eauto using ParseFilePreamble_typed.
  - by apply ParseFilePreamble_bytes.
  - destruct (ParseBlockPreamble_canonical _ _ H) as [-> ->]. eauto using ParseBlockPreamble_typed.
  - by apply ParseBlockPreamble_bytes.
  - destruct (ParseIndexPreamble_canonical _ _ H) as [-> ->]. eauto using ParseIndexPreamble_typed.
  - by apply ParseIndexPreamble_bytes.
  - destruct (ParseBlockIndexEntry_canonical _ _ H) as [-> ->]. eauto using ParseBlockIndexEntry_typed.
  - by apply ParseBlockIndexEntry_bytes.
Qed.

(** C2. The trailer codec: [ParseTrailer] accepts exactly the 192-byte images
    [MarshalBinary] produces for typed, valid trailers carrying the hash of
    their own bytes (with the hash field zeroed), for objects whose size is not
    contradicted by [TotalSize]. *)
Theorem trailer_codec `{XXHash} buf n t :
  ParseTrailer buf n = Ok t ↔
    Trailer_typed t ∧ Trailer_MarshalBinary t = Ok buf ∧ (n = 0 ∨ n = t_TotalSize t) ∧
    HashBytes (t_HashAlgo t) (Trailer_body_bytes t) = Ok (t_TrailerHash t).
Proof.
  split.
  - intros HP. destruct (ParseTrailer_canonical _ _ _ HP) as (HM & HV & HH).
    eauto 6 using ParseTrailer_typed, Trailer_Validate_size_inv.
  - intros (Ht & HM & Hn & HH). unfold Trailer_MarshalBinary in HM. inv_ok.
    rewrite HH in *. inv_ok.
    assert (is_u64 (t_TrailerHash t)) by (unfold Trailer_typed in Ht; typed_fields; done).
    rewrite (ParseTrailer_bytes t (t_TrailerHash t)); eauto using Trailer_Validate_size.
    by destruct t.
Qed.

(** The trailer of a one-record segment, carrying its hash. *)
Definition example_trailer_with (trailerHash : Z) : Trailer := {|
  t_Flags := 0; t_Partition := 3; t_Codec := 0; t_HashAlgo := 1; t_RecordFormat := 1; t_BaseLSN := 5; t_LastLSN := 5;
  t_MinTimestampMS := 10; t_MaxTimestampMS := 10; t_RecordCount := 1; t_BlockCount := 1; t_BlockIndexOffset := 192;
  t_BlockIndexLength := 128; t_TotalSize := 512; t_CreatedUnixMS := 11; t_SegmentUUID := be_put 16 3;
  t_WriterTag := be_put 16 4; t_SegmentHash := 7; t_TrailerHash := trailerHash |}.
Definition example_trailer : Trailer := Eval vm_compute in
  example_trailer_with (@xxhash_Sum64 xxhash_example (Trailer_body_bytes (example_trailer_with 0))).

Lemma trailer_codec_witness :
  ∃ buf, @Trailer_MarshalBinary xxhash_example example_trailer = Ok buf ∧
         @ParseTrailer xxhash_example buf 512 = Ok example_trailer.
Proof.
  eexists. split; [vm_compute; reflexivity|].
  apply (proj2 (@trailer_codec xxhash_example _ 512 example_trailer)).
  split; [unfold Trailer_typed; cbn; closed_typed|].
  split; [vm_compute; reflexivity|]. split; [right; reflexivity|]. vm_compute. reflexivity.
Defined.
