(* ===== verification/RawBlock.v ===== *)
(** * Raw blocks: the records of one uncompressed block
    (internal/segformat/rawblock.go and the record types of types.go)

    Record sizes, the encoder ([AppendRawRecord], [EncodeRawBlock]), the
    one-shot decoder ([DecodeRawBlock]) and the incremental
    [RawBlockScanner], with the proofs that decoding inverts encoding, that an
    accepted block is the encoding of its records, and that scanning a block
    and decoding it agree on records and errors alike. *)
From Stdlib Require Import Sorting.Sorted.
From S2P Require Import Prelude SegFormat.

(** ** Data (types.go) *)
Record Header := mkHeader { h_Key : list byte; h_Value : list byte }.
Record RawRecord := mkRawRecord { rr_TimestampMS : Z; rr_Headers : list Header; rr_Value : list byte }.
Record LogRecord := mkLogRecord {
  r_LSN : Z; r_TimestampMS : Z; r_Headers : list Header; r_Value : list byte }.

(** ** Sizes *)
Fixpoint encodedHeadersLen_loop (total : Z) (headers : list Header) : result Z :=
  match headers with
  | [] => Ok total
  | h :: headers =>
      fail_if len (h_Key h) =? 0 with [SegErrInvalidSegment];
      fail_if MaxRecordHeaderKeyLen <? len (h_Key h) with [SegErrRecordTooLarge];
      fail_if MaxRecordHeaderValueLen <? len (h_Value h) with [SegErrRecordTooLarge];
      let total := total + (4 + len (h_Key h) + len (h_Value h)) in
      fail_if MaxRecordHeaderBytes <? total with [SegErrRecordTooLarge];
      encodedHeadersLen_loop total headers
  end.

Definition encodedHeadersLen (headers : list Header) : result Z :=
  if len headers =? 0 then Ok 0
  else
    fail_if MaxRecordHeaders <? len headers with [SegErrRecordTooLarge];
    encodedHeadersLen_loop 2 headers.

Definition RawRecordSize (record : RawRecord) : result Z :=
  fail_if MaxRecordValueLen <? len (rr_Value record) with [SegErrRecordTooLarge];
  headersLen ← encodedHeadersLen (rr_Headers record);
  Ok (RecordHeaderSize + headersLen + len (rr_Value record)).

Definition RecordSize (headers : list Header) (value : list byte) : result Z :=
  RawRecordSize {| rr_TimestampMS := 0; rr_Headers := headers; rr_Value := value |}.

(** ** Encoding *)
Fixpoint appendHeaders_loop (dst : list byte) (off : nat) (headers : list Header) : list byte * nat :=
  match headers with
  | [] => (dst, off)
  | h :: headers =>
      let dst := copy_at off (be_put 2 (uint16 (len (h_Key h)))) dst in
      let dst := copy_at (off + 2) (be_put 2 (uint16 (len (h_Value h)))) dst in
      let off := (off + 4)%nat in
      let dst := copy_at off (h_Key h) dst in
      let off := (off + length (h_Key h))%nat in
      let dst := copy_at off (h_Value h) dst in
      let off := (off + length (h_Value h))%nat in
      appendHeaders_loop dst off headers
  end.

Definition appendHeaders (dst : list byte) (off : nat) (headers : list Header) : list byte * nat :=
  if len headers =? 0 then (dst, off)
  else
    let dst := copy_at off (be_put 2 (uint16 (len headers))) dst in
    appendHeaders_loop dst (off + 2) headers.

Definition AppendRawRecord (dst : list byte) (record : RawRecord) : result (list byte) :=
  size ← RawRecordSize record;
  let off := length dst in
  let dst := dst ++ make_bytes (Z.to_nat size) in
  let dst := copy_at off (be_put 8 (uint64 (rr_TimestampMS record))) dst in
  headersLen ← encodedHeadersLen (rr_Headers record);
  let dst := copy_at (off + 8) (be_put 4 (uint32 headersLen)) dst in
  let dst := copy_at (off + 12) (be_put 4 (uint32 (len (rr_Value record)))) dst in
  let pos := (off + Z.to_nat RecordHeaderSize)%nat in
  let '(dst, pos) := appendHeaders dst pos (rr_Headers record) in
  Ok (copy_at pos (rr_Value record) dst).

(** First loop of [EncodeRawBlock]: sizes and timestamp order; [first] is
    [i == 0]. *)
Fixpoint EncodeRawBlock_sizes (first : bool) (prevTS total : Z) (records : list RawRecord) : result () :=
  match records with
  | [] => Ok ()
  | r :: records =>
      size ← RawRecordSize r;
      fail_if negb first && (rr_TimestampMS r <? prevTS) with [SegErrInvalidSegment];
      let total := total + size in
      fail_if MaxRawBlockSize <? total with [SegErrBlockTooLarge];
      EncodeRawBlock_sizes false (rr_TimestampMS r) total records
  end.

Fixpoint AppendRawRecords (raw : list byte) (records : list RawRecord) : result (list byte) :=
  match records with
  | [] => Ok raw
  | r :: records => raw ← AppendRawRecord raw r; AppendRawRecords raw records
  end.

Definition EncodeRawBlock (records : list RawRecord) : result (list byte) :=
  match records with
  | [] => Err [SegErrInvalidSegment]
  | r0 :: _ =>
      _ ← EncodeRawBlock_sizes true (rr_TimestampMS r0) 0 records;
      AppendRawRecords [] records
  end.

(** ** Decoding *)
Fixpoint decodeHeaders_loop (buf : list byte) (off : nat) (count : nat) : result (list Header * nat) :=
  match count with
  | O => Ok ([], off)
  | S count =>
      fail_if len buf - Z.of_nat off <? 4 with [SegErrInvalidSegment];
      let keyLen := be_get (sub buf off 2) in
      let valueLen := be_get (sub buf (off + 2) 2) in
      let off := (off + 4)%nat in
      fail_if keyLen =? 0 with [SegErrInvalidSegment];
      fail_if MaxRecordHeaderKeyLen <? keyLen with [SegErrRecordTooLarge];
      fail_if MaxRecordHeaderValueLen <? valueLen with [SegErrRecordTooLarge];
      fail_if len buf - Z.of_nat off <? keyLen + valueLen with [SegErrInvalidSegment];
      let keyLen := Z.to_nat keyLen in
      let valueLen := Z.to_nat valueLen in
      let h := {| h_Key := sub buf off keyLen; h_Value := sub buf (off + keyLen) valueLen |} in
      '(hs, off) ← decodeHeaders_loop buf (off + (keyLen + valueLen)) count;
      Ok (h :: hs, off)
  end.

Definition decodeHeaders (buf : list byte) : result (list Header) :=
  if len buf =? 0 then Ok []
  else
    fail_if len buf <? 2 with [SegErrInvalidSegment];
    let count := be_get (sub buf 0 2) in
    fail_if count =? 0 with [SegErrInvalidSegment];
    fail_if MaxRecordHeaders <? count with [SegErrRecordTooLarge];
    '(headers, off) ← decodeHeaders_loop buf 2 (Z.to_nat count);
    fail_if negb (Z.of_nat off =? len buf) with [SegErrInvalidSegment];
    Ok headers.

(** Precondition of the callers: at least [RecordHeaderSize] bytes remain. *)
Definition scanRawRecord (raw : list byte) (off : nat) : result (RawRecord * nat) :=
  let ts := int64 (be_get (sub raw off 8)) in
  let headersLen := be_get (sub raw (off + 8) 4) in
  let valueLen := be_get (sub raw (off + 12) 4) in
  fail_if MaxRecordHeaderBytes <? headersLen with [SegErrRecordTooLarge];
  fail_if MaxRecordValueLen <? valueLen with [SegErrRecordTooLarge];
  let headersOff := (off + Z.to_nat RecordHeaderSize)%nat in
  fail_if len raw - Z.of_nat headersOff <? headersLen + valueLen with [SegErrInvalidSegment];
  let valueOff := (headersOff + Z.to_nat headersLen)%nat in
  let next := (valueOff + Z.to_nat valueLen)%nat in
  headers ← decodeHeaders (sub raw headersOff (Z.to_nat headersLen));
  Ok ({| rr_TimestampMS := ts; rr_Headers := headers; rr_Value := sub raw valueOff (Z.to_nat valueLen) |},
      next).

Definition validateRawBlockEnvelope (raw : list byte) (block : BlockPreamble) : result () :=
  _ ← BlockPreamble_Validate block;
  _ ← lastLSN (bp_BaseLSN block) (bp_RecordCount block);
  fail_if negb (len raw =? bp_RawSize block) with [SegErrInvalidSegment];
  fail_if uint32 (len raw / RecordHeaderSize) <? bp_RecordCount block with [SegErrInvalidSegment];
  Ok ().

(** The record loop of [DecodeRawBlock]; [n] iterations remain and [i] is the
    loop variable. *)
Fixpoint DecodeRawBlock_loop (raw : list byte) (block : BlockPreamble)
    (n : nat) (i : Z) (offset : nat) (prevTimestampMS : Z) : result (list LogRecord * nat) :=
  match n with
  | O => Ok ([], offset)
  | S n =>
      fail_if len raw - Z.of_nat offset <? RecordHeaderSize with [SegErrInvalidSegment];
      '(rawRecord, next) ← scanRawRecord raw offset;
      let timestampMS := rr_TimestampMS rawRecord in
      fail_if (timestampMS <? bp_MinTimestampMS block) || (bp_MaxTimestampMS block <? timestampMS)
        with [SegErrInvalidSegment];
      fail_if (0 <? i) && (timestampMS <? prevTimestampMS) with [SegErrInvalidSegment];
      let record := {| r_LSN := uint64 (bp_BaseLSN block + i); r_TimestampMS := timestampMS;
                       r_Headers := rr_Headers rawRecord; r_Value := rr_Value rawRecord |} in
      '(records, offset) ← DecodeRawBlock_loop raw block n (i + 1) next timestampMS;
      Ok (record :: records, offset)
  end.

Definition DecodeRawBlock (raw : list byte) (block : BlockPreamble) : result (list LogRecord) :=
  _ ← validateRawBlockEnvelope raw block;
  '(records, offset) ← DecodeRawBlock_loop raw block (Z.to_nat (bp_RecordCount block)) 0 0 0;
  fail_if negb (Z.of_nat offset =? len raw) with [SegErrInvalidSegment];
  Ok records.

(** ** The incremental scanner *)
Record RawBlockScanner := mkScanner {
  s_raw : list byte; s_block : BlockPreamble; s_offset : nat;
  s_recordIndex : Z; s_prevTimestampMS : Z }.

Definition NewRawBlockScanner (raw : list byte) (block : BlockPreamble) : result RawBlockScanner :=
  _ ← validateRawBlockEnvelope raw block;
  Ok (mkScanner raw block 0 0 0).

(** [Next] returns the record, if any, and the advanced scanner; on an error the
    receiver is left as it was. *)
Definition Scanner_Next (s : RawBlockScanner) : result (option LogRecord * RawBlockScanner) :=
  if bp_RecordCount (s_block s) <=? s_recordIndex s then
    fail_if negb (Z.of_nat (s_offset s) =? len (s_raw s)) with [SegErrInvalidSegment];
    Ok (None, s)
  else
    fail_if len (s_raw s) - Z.of_nat (s_offset s) <? RecordHeaderSize with [SegErrInvalidSegment];
    '(rawRecord, next) ← scanRawRecord (s_raw s) (s_offset s);
    let timestampMS := rr_TimestampMS rawRecord in
    fail_if (timestampMS <? bp_MinTimestampMS (s_block s)) || (bp_MaxTimestampMS (s_block s) <? timestampMS)
      with [SegErrInvalidSegment];
    fail_if (0 <? s_recordIndex s) && (timestampMS <? s_prevTimestampMS s) with [SegErrInvalidSegment];
    fail_if (uint32 (s_recordIndex s + 1) =? bp_RecordCount (s_block s)) &&
            negb (Z.of_nat next =? len (s_raw s)) with [SegErrInvalidSegment];
    let record := {| r_LSN := uint64 (bp_BaseLSN (s_block s) + s_recordIndex s);
                     r_TimestampMS := timestampMS;
                     r_Headers := rr_Headers rawRecord; r_Value := rr_Value rawRecord |} in
    Ok (Some record, mkScanner (s_raw s) (s_block s) next (uint32 (s_recordIndex s + 1)) timestampMS).

(** Calling [Next] until it reports the end, at most [fuel] times. *)
Fixpoint Scanner_drain (fuel : nat) (s : RawBlockScanner) : result (list LogRecord) :=
  match fuel with
  | O => Err []
  | S fuel =>
      '(o, s) ← Scanner_Next s;
      match o with
      | None => Ok []
      | Some r => rs ← Scanner_drain fuel s; Ok (r :: rs)
      end
  end.

(** ** The layout the encoder produces *)
Definition header_bytes (h : Header) : list byte :=
  be_put 2 (len (h_Key h)) ++ be_put 2 (len (h_Value h)) ++ h_Key h ++ h_Value h.
Definition header_list_bytes (hs : list Header) : list byte := concat (map header_bytes hs).
Definition headers_bytes (hs : list Header) : list byte :=
  match hs with [] => [] | _ => be_put 2 (len hs) ++ header_list_bytes hs end.
Definition record_bytes (r : RawRecord) : list byte :=
  be_put 8 (uint64 (rr_TimestampMS r)) ++ be_put 4 (len (headers_bytes (rr_Headers r))) ++
  be_put 4 (len (rr_Value r)) ++ headers_bytes (rr_Headers r) ++ rr_Value r.
Definition block_bytes (rs : list RawRecord) : list byte := concat (map record_bytes rs).

(** What the size limits ask of a header and of a record. *)
Definition header_ok (h : Header) : Prop :=
  0 < len (h_Key h) ≤ MaxRecordHeaderKeyLen ∧ len (h_Value h) ≤ MaxRecordHeaderValueLen.
Definition record_ok (r : RawRecord) : Prop :=
  len (rr_Value r) ≤ MaxRecordValueLen ∧ len (rr_Headers r) ≤ MaxRecordHeaders ∧
  Forall header_ok (rr_Headers r) ∧ len (headers_bytes (rr_Headers r)) ≤ MaxRecordHeaderBytes.

Lemma len_header h : len (header_bytes h) = 4 + len (h_Key h) + len (h_Value h).
Proof. unfold header_bytes. rewrite !len_app, !len_be_put. lia. Qed.

Lemma encodedHeadersLen_loop_spec total hs n :
  encodedHeadersLen_loop total hs = Ok n ↔
  Forall header_ok hs ∧ n = total + len (header_list_bytes hs) ∧ (hs = [] ∨ n ≤ MaxRecordHeaderBytes).
Proof.
  revert total; induction hs as [|h hs IH]; intros total; cbn [encodedHeadersLen_loop].
  { change (len (header_list_bytes [])) with 0.
    split; [intros [= ->]; split_and!; auto; lia | intros (_ & -> & _); f_equal; lia]. }
  unfold header_list_bytes; cbn [map concat]. fold (header_list_bytes hs).
  rewrite len_app, len_header, Forall_cons. unfold header_ok at 1.
  pose proof (len_nonneg (header_list_bytes hs)). pose proof (len_nonneg (h_Key h)).
  repeat match goal with
  | |- context [?a <? ?b] => destruct (Z.ltb_spec a b)
  | |- context [?a =? ?b] => destruct (Z.eqb_spec a b)
  end; try (split; [discriminate | intros ((? & ?) & -> & [?|?]); [discriminate | lia]]).
  rewrite IH. split.
  - intros (? & -> & Hb). split_and!; auto; try lia. right.
    destruct Hb as [->|]; [change (len (header_list_bytes [])) with 0|]; lia.
  - intros ((? & ?) & -> & Hb). split_and!; auto; try lia. destruct hs; auto. right.
    destruct Hb as [|Hb]; [discriminate | lia].
Qed.

Lemma encodedHeadersLen_spec hs n :
  encodedHeadersLen hs = Ok n ↔
  len hs ≤ MaxRecordHeaders ∧ Forall header_ok hs ∧ n = len (headers_bytes hs) ∧ n ≤ MaxRecordHeaderBytes.
Proof.
  unfold encodedHeadersLen. destruct hs as [|h hs'].
  { change (len (headers_bytes [])) with 0. change (len []) with 0. cbn.
    unfold MaxRecordHeaders, MaxRecordHeaderBytes.
    split; [intros [= <-]; split_and!; auto; lia | by intros (_ & _ & -> & _)]. }
  set (hs := h :: hs').
  assert (len hs ≠ 0) by (unfold hs, len; cbn; lia). destruct (Z.eqb_spec (len hs) 0); [done|].
  assert (Hl : len (headers_bytes hs) = 2 + len (header_list_bytes hs)).
  { unfold headers_bytes, hs. rewrite len_app, len_be_put. done. }
  destruct (Z.ltb_spec MaxRecordHeaders (len hs)).
  - split; [discriminate | lia].
  - rewrite encodedHeadersLen_loop_spec, Hl. split.
    + intros (? & -> & [?|?]); [discriminate|]. auto.
    + intros (? & ? & -> & ?). auto.
Qed.

Lemma len_record r :
  len (record_bytes r) = RecordHeaderSize + len (headers_bytes (rr_Headers r)) + len (rr_Value r).
Proof. unfold record_bytes, RecordHeaderSize. rewrite !len_app, !len_be_put. lia. Qed.

Lemma RawRecordSize_spec r n :
  RawRecordSize r = Ok n ↔ record_ok r ∧ n = len (record_bytes r).
Proof.
  unfold RawRecordSize, record_ok. rewrite len_record.
  destruct (Z.ltb_spec MaxRecordValueLen (len (rr_Value r))).
  { split; [discriminate | lia]. }
  split.
  - intros Hb. inv_ok. apply encodedHeadersLen_spec in Hbind as (? & ? & -> & ?). auto.
  - intros ((? & ? & ? & ?) & ->).
    rewrite (proj2 (encodedHeadersLen_spec (rr_Headers r) _) ltac:(split_and!; eauto)). done.
Qed.

(** The header writer fills the zero tail of its buffer. *)
Lemma appendHeaders_loop_eq pre k hs :
  Forall header_ok hs →
  appendHeaders_loop (pre ++ zeros (length (header_list_bytes hs) + k)) (length pre) hs
  = ((pre ++ header_list_bytes hs) ++ zeros k, length (pre ++ header_list_bytes hs)).
Proof.
  intros Hok. revert pre; induction Hok as [|h hs [Hk Hv] Hok IH]; intros pre; cbn [appendHeaders_loop].
  { cbn. by rewrite app_nil_r. }
  unfold MaxRecordHeaderKeyLen, MaxRecordHeaderValueLen in *. pose proof (len_nonneg (h_Value h)).
  rewrite !uint16_id by (unfold_widths; lia).
  unfold header_list_bytes; cbn [map concat]; fold (header_list_bytes hs).
  set (tail := (length (header_list_bytes hs) + k)%nat).
  assert (E : (length (header_bytes h ++ header_list_bytes hs) + k)%nat
    = (length (be_put 2 (len (h_Key h))) + (length (be_put 2 (len (h_Value h))) +
       (length (h_Key h) + (length (h_Value h) + tail))))%nat).
  { unfold header_bytes, tail. rewrite !length_app. lia. }
  rewrite E.
  rewrite copy_at_tail by done.
  rewrite copy_at_tail by len_lia.
  rewrite copy_at_tail by len_lia.
  rewrite copy_at_tail by len_lia.
  replace (length pre + 4 + length (h_Key h) + length (h_Value h))%nat with (length (pre ++ header_bytes h))
    by (unfold header_bytes; len_lia).
  replace ((((pre ++ be_put 2 (len (h_Key h))) ++ be_put 2 (len (h_Value h))) ++ h_Key h) ++ h_Value h)
    with (pre ++ header_bytes h) by (unfold header_bytes; by rewrite <- !app_assoc).
  unfold tail. rewrite IH. by rewrite <- !app_assoc.
Qed.

Lemma appendHeaders_eq pre k hs :
  len hs ≤ MaxRecordHeaders → Forall header_ok hs →
  appendHeaders (pre ++ zeros (length (headers_bytes hs) + k)) (length pre) hs
  = ((pre ++ headers_bytes hs) ++ zeros k, length (pre ++ headers_bytes hs)).
Proof.
  intros Hn Hok. unfold appendHeaders. destruct hs as [|h hs'].
  { cbn. by rewrite app_nil_r. }
  set (hs := h :: hs') in *. unfold MaxRecordHeaders in Hn.
  assert (len hs ≠ 0) by (unfold hs, len; cbn; lia). destruct (Z.eqb_spec (len hs) 0); [done|].
  pose proof (len_nonneg hs). rewrite uint16_id by (unfold_widths; lia).
  change (headers_bytes hs) with (be_put 2 (len hs) ++ header_list_bytes hs).
  rewrite length_app, <- Nat.add_assoc, copy_at_tail by done.
  replace (length pre + 2)%nat with (length (pre ++ be_put 2 (len hs))) by len_lia.
  rewrite appendHeaders_loop_eq by done. by rewrite <- !app_assoc.
Qed.

Lemma AppendRawRecord_eq dst r :
  record_ok r → AppendRawRecord dst r = Ok (dst ++ record_bytes r).
Proof.
  intros Hok. pose proof (proj2 (RawRecordSize_spec r _) (conj Hok eq_refl)) as Hsize.
  destruct Hok as (Hv & Hn & Hh & Hb).
  pose proof (proj2 (encodedHeadersLen_spec (rr_Headers r) _) ltac:(split_and!; eauto)) as Hhl.
  unfold AppendRawRecord. rewrite Hsize, Hhl. cbn [mbind result_bind].
  unfold MaxRecordValueLen, MaxRecordHeaderBytes in *.
  pose proof (len_nonneg (headers_bytes (rr_Headers r))). pose proof (len_nonneg (rr_Value r)).
  rewrite !uint32_id by (unfold_widths; lia).
  set (ts := be_put 8 (uint64 (rr_TimestampMS r))).
  set (hl := be_put 4 (len (headers_bytes (rr_Headers r)))). set (vl := be_put 4 (len (rr_Value r))).
  assert (E : Z.to_nat (len (record_bytes r)) = (length ts + (length hl + (length vl +
    (length (headers_bytes (rr_Headers r)) + (length (rr_Value r) + 0)))))%nat).
  { unfold len, record_bytes. rewrite Nat2Z.id, !length_app. subst ts hl vl. lia. }
  rewrite E, copy_at_tail by done.
  rewrite copy_at_tail by (subst ts; len_lia).
  rewrite copy_at_tail by (subst ts hl; len_lia).
  change (Z.to_nat RecordHeaderSize) with 16%nat.
  replace (length dst + 16)%nat with (length (((dst ++ ts) ++ hl) ++ vl)) by (subst ts hl vl; len_lia).
  rewrite appendHeaders_eq by done. rewrite copy_at_tail by done.
  change (zeros 0) with (@nil byte). rewrite app_nil_r. unfold record_bytes. by rewrite <- !app_assoc.
Qed.

Lemma AppendRawRecords_eq dst rs :
  Forall record_ok rs → AppendRawRecords dst rs = Ok (dst ++ block_bytes rs).
Proof.
  intros Hok. revert dst; induction Hok as [|r rs Hr Hok IH]; intros dst; cbn [AppendRawRecords].
  { unfold block_bytes. cbn. by rewrite app_nil_r. }
  rewrite AppendRawRecord_eq by done. cbn [mbind result_bind]. rewrite IH.
  unfold block_bytes; cbn [map concat]. by rewrite app_assoc.
Qed.

Abbreviation ts_sorted rs := (Sorted Z.le (map rr_TimestampMS rs)).

Lemma EncodeRawBlock_sizes_spec first prev total rs :
  EncodeRawBlock_sizes first prev total rs = Ok () ↔
  Forall record_ok rs ∧ ts_sorted rs ∧ (first = false → HdRel Z.le prev (map rr_TimestampMS rs)) ∧
  (rs = [] ∨ total + len (block_bytes rs) ≤ MaxRawBlockSize).
Proof.
  revert first prev total; induction rs as [|r rs IH]; intros first prev total; cbn [EncodeRawBlock_sizes].
  { cbn. split; auto. }
  unfold block_bytes; cbn [map concat]; fold (block_bytes rs). rewrite len_app.
  pose proof (len_nonneg (block_bytes rs)).
  split.
  - intros Hb. inv_ok. apply RawRecordSize_spec in Hbind as [Hr ->].
    apply IH in Hb as (Hok & Hs & Hhd & Hn). specialize (Hhd eq_refl).
    split_and!; [by constructor | by constructor | | right].
    + intros ->. cbn in Hchk. bool_to_prop. by constructor.
    + bool_to_prop. destruct Hn as [->|?]; [change (len (block_bytes [])) with 0|]; lia.
  - intros (Hok & Hs & Hhd & Hn). apply Forall_cons in Hok as [Hr Hok].
    apply Sorted_inv in Hs as [Hs Hhd'].
    rewrite (proj2 (RawRecordSize_spec r _) (conj Hr eq_refl)). cbn [mbind result_bind].
    destruct Hn as [|Hn]; [discriminate|].
    replace (negb first && (rr_TimestampMS r <? prev)) with false.
    2: { destruct first; [done|]. cbn. specialize (Hhd eq_refl). apply HdRel_inv in Hhd.
         symmetry. by apply Z.ltb_ge. }
    destruct (Z.ltb_spec MaxRawBlockSize (total + len (record_bytes r))); [lia|].
    apply IH. split_and!; auto. right. lia.
Qed.

(** Exact behaviour of [EncodeRawBlock]: it succeeds on the non-empty record
    lists within the format's limits and in timestamp order, and returns the
    concatenation of their layouts. *)
Lemma EncodeRawBlock_spec rs raw :
  EncodeRawBlock rs = Ok raw ↔
  rs ≠ [] ∧ Forall record_ok rs ∧ ts_sorted rs ∧ len raw ≤ MaxRawBlockSize ∧ raw = block_bytes rs.
Proof.
  unfold EncodeRawBlock. destruct rs as [|r0 rs'].
  { split; [discriminate | by intros (? & _)]. }
  set (rs := r0 :: rs'). split.
  - intros Hb. inv_ok. apply EncodeRawBlock_sizes_spec in Hbind as (Hok & Hs & _ & Hn).
    rewrite AppendRawRecords_eq in Hb by done. injection Hb as <-.
    destruct Hn as [?|Hn]; [discriminate|]. split_and!; auto; discriminate.
  - intros (_ & Hok & Hs & Hn & ->).
    rewrite (proj2 (EncodeRawBlock_sizes_spec true (rr_TimestampMS r0) 0 rs)) by (split_and!; auto; discriminate).
    cbn [mbind result_bind]. by rewrite AppendRawRecords_eq.
Qed.

(** ** Decoding inverts encoding *)
Lemma decodeHeaders_loop_bytes pre hs post :
  Forall header_ok hs →
  decodeHeaders_loop (pre ++ header_list_bytes hs ++ post) (length pre) (length hs)
  = Ok (hs, length (pre ++ header_list_bytes hs)).
Proof.
  intros Hok. revert pre; induction Hok as [|h hs [Hk Hv] Hok IH]; intros pre; cbn [decodeHeaders_loop length].
  { unfold header_list_bytes. cbn. by rewrite app_nil_r. }
  unfold header_list_bytes; cbn [map concat]; fold (header_list_bytes hs).
  unfold MaxRecordHeaderKeyLen, MaxRecordHeaderValueLen in *.
  pose proof (len_nonneg (h_Key h)). pose proof (len_nonneg (h_Value h)).
  set (buf := pre ++ (header_bytes h ++ header_list_bytes hs) ++ post).
  assert (Hlen : len buf = len pre + (4 + len (h_Key h) + len (h_Value h)) + len (header_list_bytes hs) + len post).
  { unfold buf. rewrite !len_app, len_header. lia. }
  pose proof (len_nonneg (header_list_bytes hs)). pose proof (len_nonneg post).
  assert (E1 : sub buf (length pre) 2 = be_put 2 (len (h_Key h))).
  { unfold buf, header_bytes. rewrite <- !app_assoc. sub_apps. done. }
  assert (E2 : sub buf (length pre + 2) 2 = be_put 2 (len (h_Value h))).
  { unfold buf, header_bytes. rewrite <- !app_assoc. sub_apps. done. }
  assert (E3 : sub buf (length pre + 4) (length (h_Key h)) = h_Key h).
  { unfold buf, header_bytes. rewrite <- !app_assoc. sub_apps. done. }
  assert (E4 : sub buf (length pre + 4 + length (h_Key h)) (length (h_Value h)) = h_Value h).
  { unfold buf, header_bytes. rewrite <- !app_assoc. sub_apps. done. }
  rewrite E1, E2, !be_get_put_u16 by (unfold_widths; lia).
  replace (Z.to_nat (len (h_Key h))) with (length (h_Key h)) by (unfold len; lia).
  replace (Z.to_nat (len (h_Value h))) with (length (h_Value h)) by (unfold len; lia).
  rewrite E3, E4, Hlen. unfold len at 1 6 7 8 9 10 11.
  repeat match goal with
  | |- context [if ?a <? ?b then _ else _] => destruct (Z.ltb_spec a b); [unfold len in *; lia|]
  | |- context [if ?a =? ?b then _ else _] => destruct (Z.eqb_spec a b); [unfold len in *; lia|]
  end.
  replace (length pre + 4 + (length (h_Key h) + length (h_Value h)))%nat with (length (pre ++ header_bytes h))
    by (unfold header_bytes; len_lia).
  replace buf with ((pre ++ header_bytes h) ++ header_list_bytes hs ++ post)
    by (unfold buf; by rewrite <- !app_assoc).
  rewrite IH. cbn [mbind result_bind]. rewrite <- app_assoc. by destruct h.
Qed.

Lemma decodeHeaders_bytes hs :
  len hs ≤ MaxRecordHeaders → Forall header_ok hs → decodeHeaders (headers_bytes hs) = Ok hs.
Proof.
  intros Hn Hok. destruct hs as [|h hs']; [done|]. set (hs := h :: hs') in *.
  unfold MaxRecordHeaders in Hn. unfold decodeHeaders.
  change (headers_bytes hs) with (be_put 2 (len hs) ++ header_list_bytes hs).
  pose proof (len_nonneg (header_list_bytes hs)). assert (0 < len hs) by (unfold hs, len; cbn; lia).
  rewrite len_app, len_be_put.
  assert (E : sub (be_put 2 (len hs) ++ header_list_bytes hs) 0 2 = be_put 2 (len hs)) by (sub_apps; done).
  rewrite E, be_get_put_u16 by (unfold_widths; lia). change (Z.of_nat 2) with 2.
  repeat match goal with
  | |- context [if ?a <? ?b then _ else _] => destruct (Z.ltb_spec a b); [unfold MaxRecordHeaders in *; lia|]
  | |- context [if ?a =? ?b then _ else _] => destruct (Z.eqb_spec a b); [lia|]
  end.
  pose proof (decodeHeaders_loop_bytes (be_put 2 (len hs)) hs [] Hok) as HD.
  rewrite app_nil_r, length_be_put in HD. replace (Z.to_nat (len hs)) with (length hs) by (unfold len; lia).
  rewrite HD. cbn [mbind result_bind].
  rewrite (proj2 (Z.eqb_eq _ _)); [done|]. unfold len. rewrite length_app, length_be_put. lia.
Qed.

Lemma scanRawRecord_bytes pre r post :
  record_ok r → is_i64 (rr_TimestampMS r) →
  scanRawRecord (pre ++ record_bytes r ++ post) (length pre)
  = Ok (r, length (pre ++ record_bytes r)).
Proof.
  intros (Hv & Hn & Hh & Hb) Hts. unfold scanRawRecord.
  unfold MaxRecordValueLen, MaxRecordHeaderBytes in *.
  pose proof (len_nonneg (headers_bytes (rr_Headers r))). pose proof (len_nonneg (rr_Value r)).
  set (raw := pre ++ record_bytes r ++ post). set (hb := headers_bytes (rr_Headers r)) in *.
  assert (E1 : sub raw (length pre) 8 = be_put 8 (uint64 (rr_TimestampMS r))).
  { unfold raw, record_bytes. rewrite <- !app_assoc. sub_apps. done. }
  assert (E2 : sub raw (length pre + 8) 4 = be_put 4 (len hb)).
  { unfold raw, record_bytes. rewrite <- !app_assoc. sub_apps. done. }
  assert (E3 : sub raw (length pre + 12) 4 = be_put 4 (len (rr_Value r))).
  { unfold raw, record_bytes. rewrite <- !app_assoc. sub_apps. done. }
  assert (E4 : sub raw (length pre + 16) (length hb) = hb).
  { unfold raw, record_bytes. fold hb. rewrite <- !app_assoc. sub_apps. done. }
  assert (E5 : sub raw (length pre + 16 + length hb) (length (rr_Value r)) = rr_Value r).
  { unfold raw, record_bytes. fold hb. rewrite <- !app_assoc. sub_apps. done. }
  rewrite E1, E2, E3, be_get_put_u64, int64_uint64, !be_get_put_u32 by (auto with ints; unfold_widths; lia).
  change (Z.to_nat RecordHeaderSize) with 16%nat.
  replace (Z.to_nat (len hb)) with (length hb) by (unfold len; lia).
  replace (Z.to_nat (len (rr_Value r))) with (length (rr_Value r)) by (unfold len; lia).
  assert (E6 : decodeHeaders hb = Ok (rr_Headers r)) by (by apply decodeHeaders_bytes).
  rewrite E4, E5, E6.
  assert (Hlr : len raw = len pre + (16 + len hb + len (rr_Value r)) + len post).
  { unfold raw. rewrite !len_app, len_record. unfold RecordHeaderSize, hb. lia. }
  pose proof (len_nonneg post). unfold MaxRecordHeaderBytes, MaxRecordValueLen.
  repeat match goal with
  | |- context [if ?a <? ?b then _ else _] => destruct (Z.ltb_spec a b); [unfold len in *; lia|]
  end.
  cbn [mbind result_bind]. f_equal. f_equal; [by destruct r|].
  unfold record_bytes. fold hb. len_lia.
Qed.

(** ** An accepted block is the encoding of its records *)
Lemma decodeHeaders_loop_inv buf off n hs off' :
  decodeHeaders_loop buf off n = Ok (hs, off') → (off ≤ length buf)%nat →
  (off ≤ off' ≤ length buf)%nat ∧ length hs = n ∧ Forall header_ok hs ∧
  sub buf off (off' - off) = header_list_bytes hs.
Proof.
  revert off hs; induction n as [|n IH]; intros off hs H Hoff; cbn [decodeHeaders_loop] in H.
  { inv_ok. simplify_eq. rewrite Nat.sub_diag. split_and!; auto; lia. }
  cbv zeta in H. inv_ok. destruct x as [hs' off'']. inv_ok. simplify_eq.
  bool_to_prop. unfold len in *.
  set (kl := be_get (sub buf off 2)) in *. set (vl := be_get (sub buf (off + 2) 2)) in *.
  assert (Hkl : is_u16 kl) by (apply be_get_u16, length_sub; lia).
  assert (Hvl : is_u16 vl) by (apply be_get_u16, length_sub; lia).
  unfold_widths.
  apply IH in Hbind as (Ho & Hn & Hok & Hs); [|lia].
  assert (Hlk : len (sub buf (off + 4) (Z.to_nat kl)) = kl) by (unfold len; rewrite length_sub; lia).
  assert (Hlv : len (sub buf (off + 4 + Z.to_nat kl) (Z.to_nat vl)) = vl) by (unfold len; rewrite length_sub; lia).
  split_and!; [lia | lia | cbn; lia | |].
  - constructor; [|done]. unfold header_ok. cbn. rewrite Hlk, Hlv. lia.
  - unfold header_list_bytes; cbn [map concat]; fold (header_list_bytes hs').
    rewrite <- Hs. unfold header_bytes; cbn [h_Key h_Value]. rewrite Hlk, Hlv.
    unfold kl at 1, vl at 1. rewrite !sub_be_put by lia.
    replace (off' - off)%nat with (2 + (2 + (Z.to_nat kl + (Z.to_nat vl
      + (off' - (off + 4 + (Z.to_nat kl + Z.to_nat vl)))))))%nat by lia.
    rewrite !sub_add, <- !app_assoc. app_subs.
Qed.

Lemma decodeHeaders_inv buf hs :
  decodeHeaders buf = Ok hs →
  len hs ≤ MaxRecordHeaders ∧ Forall header_ok hs ∧ headers_bytes hs = buf.
Proof.
  unfold decodeHeaders. destruct (Z.eqb_spec (len buf) 0) as [E|E]; intros H.
  { inv_ok. destruct buf; [|unfold len in E; cbn in E; lia]. split_and!; auto. unfold len, MaxRecordHeaders; cbn; lia. }
  inv_ok. destruct x as [hs' off]. inv_ok. simplify_eq. bool_to_prop. unfold len in *.
  set (c := be_get (sub buf 0 2)) in *.
  assert (Hc : is_u16 c) by (apply be_get_u16, length_sub; lia). unfold_widths.
  apply decodeHeaders_loop_inv in Hbind as (Ho & Hn & Hok & Hs); [|lia].
  split_and!; [lia | done |]. unfold headers_bytes. destruct hs as [|h hs']; [cbn in *; lia|].
  unfold len. rewrite Hn, Z2Nat.id by lia. rewrite <- Hs. unfold c. rewrite sub_be_put by lia.
  change 2%nat with (0 + 2)%nat at 3. rewrite <- sub_add. apply sub_full. lia.
Qed.

Lemma scanRawRecord_inv raw off r next :
  scanRawRecord raw off = Ok (r, next) → (off + 16 ≤ length raw)%nat →
  (off + 16 ≤ next ≤ length raw)%nat ∧ record_ok r ∧ is_i64 (rr_TimestampMS r) ∧
  sub raw off (next - off) = record_bytes r.
Proof.
  unfold scanRawRecord. change (Z.to_nat RecordHeaderSize) with 16%nat. intros H Hoff. inv_ok.
  simplify_eq. bool_to_prop. unfold len in *.
  set (hl := be_get (sub raw (off + 8) 4)) in *. set (vl := be_get (sub raw (off + 12) 4)) in *.
  assert (Hhl : is_u32 hl) by (apply be_get_u32, length_sub; lia).
  assert (Hvl : is_u32 vl) by (apply be_get_u32, length_sub; lia).
  unfold is_u32 in *. apply decodeHeaders_inv in Hbind as (Hn & Hok & Hb).
  assert (Hlh : len (headers_bytes x) = hl) by (rewrite Hb; unfold len; rewrite length_sub; lia).
  assert (Hlv : len (sub raw (off + 16 + Z.to_nat hl) (Z.to_nat vl)) = vl) by (unfold len; rewrite length_sub; lia).
  split_and!; [lia | lia | | apply int64_range |].
  - unfold record_ok; cbn. rewrite Hlh, Hlv. split_and!; auto; lia.
  - unfold record_bytes; cbn [rr_TimestampMS rr_Headers rr_Value].
    rewrite Hlh, Hlv, Hb, sub_be_put_i64 by lia.
    assert (be_put 4 hl = sub raw (off + 8) 4) as -> by (apply sub_be_put; lia).
    assert (be_put 4 vl = sub raw (off + 12) 4) as -> by (apply sub_be_put; lia).
    replace (off + 16 + Z.to_nat hl + Z.to_nat vl - off)%nat
      with (8 + (4 + (4 + (Z.to_nat hl + Z.to_nat vl))))%nat by lia.
    rewrite !sub_add. app_subs.
Qed.

(** ** The decoder as a characterisation *)
(** The logical records of [rs] when the first one has LSN [lsn]. *)
Fixpoint number (lsn : Z) (rs : list RawRecord) : list LogRecord :=
  match rs with
  | [] => []
  | r :: rs => {| r_LSN := uint64 lsn; r_TimestampMS := rr_TimestampMS r; r_Headers := rr_Headers r;
                  r_Value := rr_Value r |} :: number (lsn + 1) rs
  end.
Definition raw_of (r : LogRecord) : RawRecord := mkRawRecord (r_TimestampMS r) (r_Headers r) (r_Value r).

(** What the decoder checks of the timestamp sequence; [first] is [i == 0]. *)
Definition ts_ok (block : BlockPreamble) (first : bool) (prev : Z) (rs : list RawRecord) : Prop :=
  Forall (λ r, bp_MinTimestampMS block ≤ rr_TimestampMS r ≤ bp_MaxTimestampMS block) rs ∧
  ts_sorted rs ∧ (first = false → HdRel Z.le prev (map rr_TimestampMS rs)).

Lemma ts_ok_cons block first prev r rs :
  ts_ok block first prev (r :: rs) ↔
  bp_MinTimestampMS block ≤ rr_TimestampMS r ≤ bp_MaxTimestampMS block ∧
  (first = false → prev ≤ rr_TimestampMS r) ∧ ts_ok block false (rr_TimestampMS r) rs.
Proof.
  unfold ts_ok. cbn [map]. rewrite Forall_cons. split.
  - intros ((? & ?) & Hs & Hh). apply Sorted_inv in Hs as [??]. split_and!; auto; try lia.
    intros E. specialize (Hh E). by apply HdRel_inv in Hh.
  - intros (? & Hp & ? & ? & Hh). split_and!; [lia | lia | done | constructor; auto |].
    intros E. constructor. auto.
Qed.

Lemma DecodeRawBlock_loop_bytes block pre rs post i prev :
  0 ≤ i → Forall record_ok rs → Forall (λ r, is_i64 (rr_TimestampMS r)) rs →
  ts_ok block (i =? 0) prev rs →
  DecodeRawBlock_loop (pre ++ block_bytes rs ++ post) block (length rs) i (length pre) prev
  = Ok (number (bp_BaseLSN block + i) rs, length (pre ++ block_bytes rs)).
Proof.
  intros Hi Hok Hts. revert pre i prev Hi; induction rs as [|r rs IH]; intros pre i prev Hi Hs;
    cbn [DecodeRawBlock_loop length number].
  { unfold block_bytes. cbn. by rewrite app_nil_r. }
  apply Forall_cons in Hok as [Hr Hok], Hts as [Ht Hts]. apply ts_ok_cons in Hs as (Hb & Hp & Hs).
  unfold block_bytes; cbn [map concat]; fold (block_bytes rs). rewrite <- app_assoc.
  rewrite scanRawRecord_bytes by done. cbn [mbind result_bind].
  destruct (Z.ltb_spec (len (pre ++ record_bytes r ++ block_bytes rs ++ post) - Z.of_nat (length pre)) RecordHeaderSize).
  { rewrite !len_app, len_record in H. pose proof (len_nonneg (block_bytes rs)). pose proof (len_nonneg post).
    pose proof (len_nonneg (headers_bytes (rr_Headers r))). pose proof (len_nonneg (rr_Value r)).
    unfold len at 1 in H. lia. }
  destruct (Z.ltb_spec (rr_TimestampMS r) (bp_MinTimestampMS block)); [lia|].
  destruct (Z.ltb_spec (bp_MaxTimestampMS block) (rr_TimestampMS r)); [lia|]. cbn [orb].
  replace ((0 <? i) && (rr_TimestampMS r <? prev)) with false.
  2: { symmetry. destruct (Z.ltb_spec 0 i); [|done]. cbn. apply Z.ltb_ge, Hp. by apply Z.eqb_neq; lia. }
  rewrite app_assoc, IH; [|done..|lia|].
  2: { replace (i + 1 =? 0) with false; [done|]. symmetry. apply Z.eqb_neq. lia. }
  cbn [mbind result_bind]. rewrite <- app_assoc, Z.add_assoc. done.
Qed.

Lemma DecodeRawBlock_loop_inv raw block n i off prev recs off' :
  DecodeRawBlock_loop raw block n i off prev = Ok (recs, off') → (off ≤ length raw)%nat → 0 ≤ i →
  ∃ rs, recs = number (bp_BaseLSN block + i) rs ∧ length rs = n ∧ (off ≤ off' ≤ length raw)%nat ∧
    Forall record_ok rs ∧ Forall (λ r, is_i64 (rr_TimestampMS r)) rs ∧ ts_ok block (i =? 0) prev rs ∧
    sub raw off (off' - off) = block_bytes rs.
Proof.
  revert i off prev recs; induction n as [|n IH]; intros i off prev recs H Hoff Hi; cbn [DecodeRawBlock_loop] in H.
  { inv_ok. simplify_eq. exists []. rewrite Nat.sub_diag. unfold ts_ok. split_and!; auto; try lia; constructor. }
  cbv zeta in H. inv_ok. destruct x as [r next]. inv_ok. destruct x as [recs' off'']. inv_ok. simplify_eq.
  bool_to_prop. unfold len, RecordHeaderSize in *.
  apply scanRawRecord_inv in Hbind as (Hn & Hr & Ht & Hs); [|lia].
  apply IH in Hbind0 as (rs & -> & Hl & Ho & Hok & Hts & Hts' & Hsub); [|lia..].
  exists (r :: rs). cbn [number length]. rewrite Z.add_assoc. split_and!; auto; try lia.
  - apply ts_ok_cons. split_and!; [lia | lia | |].
    + intros E. apply Z.eqb_neq in E. apply andb_false_iff in Hchk1 as [E'|E']; bool_to_prop; lia.
    + replace (i + 1 =? 0) with false in Hts'; [done|]. symmetry. apply Z.eqb_neq. lia.
  - unfold block_bytes; cbn [map concat]; fold (block_bytes rs). rewrite <- Hsub, <- Hs.
    replace (off' - off)%nat with (next - off + (off' - next))%nat by lia. rewrite sub_add. app_subs.
Qed.

Lemma raw_of_number lsn rs : map raw_of (number lsn rs) = rs.
Proof. revert lsn; induction rs as [|[] rs IH]; intros lsn; cbn; [done|]. by rewrite IH. Qed.
Lemma length_number lsn rs : length (number lsn rs) = length rs.
Proof. revert lsn; induction rs as [|r rs IH]; intros lsn; cbn; [done|]. by rewrite IH. Qed.
Lemma number_LSN lsn rs i r : number lsn rs !! i = Some r → r_LSN r = uint64 (lsn + Z.of_nat i).
Proof.
  revert lsn i; induction rs as [|r0 rs IH]; intros lsn [|i]; cbn; try done.
  - intros [= <-]. cbn. f_equal. lia.
  - intros H. rewrite (IH _ _ H). f_equal. lia.
Qed.
Lemma number_raw_of lsn recs :
  (∀ i r, recs !! i = Some r → r_LSN r = uint64 (lsn + Z.of_nat i)) → number lsn (map raw_of recs) = recs.
Proof.
  revert lsn; induction recs as [|r recs IH]; intros lsn H; cbn; [done|]. f_equal.
  - specialize (H 0%nat r eq_refl). rewrite Z.add_0_r in H. destruct r; cbn in *. by subst.
  - apply IH. intros i r' Hr. rewrite (H (S i) r' Hr). f_equal. lia.
Qed.

Lemma envelope_inv raw block :
  BlockPreamble_typed block → validateRawBlockEnvelope raw block = Ok () →
  len raw = bp_RawSize block ∧ len raw ≤ MaxRawBlockSize ∧ 0 < bp_RecordCount block ∧
  bp_BaseLSN block + bp_RecordCount block - 1 ≤ MaxRecordLSN.
Proof.
  intros Ht H. unfold validateRawBlockEnvelope, BlockPreamble_Validate in H. inv_ok. bool_to_prop.
  unfold BlockPreamble_typed in Ht; typed_fields.
  apply lastLSN_spec in Hbind0 as (? & ? & _); [|done..]. split_and!; lia.
Qed.

(** Decoding an encoded block returns its records, numbered from [BaseLSN]. *)
Lemma DecodeRawBlock_encoded raw block rs :
  BlockPreamble_typed block → validateRawBlockEnvelope raw block = Ok () →
  EncodeRawBlock rs = Ok raw → len rs = bp_RecordCount block →
  Forall (λ r, is_i64 (rr_TimestampMS r)) rs →
  Forall (λ r, bp_MinTimestampMS block ≤ rr_TimestampMS r ≤ bp_MaxTimestampMS block) rs →
  DecodeRawBlock raw block = Ok (number (bp_BaseLSN block) rs).
Proof.
  intros Ht Hv He Hlen Hi64 Hrange. unfold DecodeRawBlock. rewrite Hv. cbn [mbind result_bind].
  destruct (envelope_inv _ _ Ht Hv) as (Hl & Hmax & Hc & Hlsn).
  unfold BlockPreamble_typed in Ht; typed_fields. unfold_widths.
  apply EncodeRawBlock_spec in He as (Hne & Hok & Hs & _ & Hraw).
  pose proof (DecodeRawBlock_loop_bytes block [] rs [] 0 0) as HD.
  rewrite app_nil_r, Z.add_0_r in HD. cbn [app length] in HD.
  rewrite Hraw in *. replace (Z.to_nat (bp_RecordCount block)) with (length rs) by (unfold len in *; lia).
  rewrite HD; [|lia|done|done|by split_and!].
  cbn [mbind result_bind]. fold (len (block_bytes rs)). rewrite Z.eqb_refl. done.
Qed.

(** C3. Raw-block codec.  For a typed block preamble, [DecodeRawBlock] returns
    [recs] exactly when the envelope checks pass, [EncodeRawBlock] of those
    records is the given block byte for byte, there are [RecordCount] of them,
    they are numbered consecutively from [BaseLSN] without wrap-around, and
    their timestamps lie within the preamble's range.  So decoding inverts
    encoding, nothing else is accepted, and the records come back in LSN and
    timestamp order. *)
Theorem raw_block_codec raw block recs :
  BlockPreamble_typed block →
  DecodeRawBlock raw block = Ok recs ↔
    validateRawBlockEnvelope raw block = Ok () ∧
    EncodeRawBlock (map raw_of recs) = Ok raw ∧
    len recs = bp_RecordCount block ∧
    (∀ i r, recs !! i = Some r →
       r_LSN r = bp_BaseLSN block + Z.of_nat i ∧ is_i64 (r_TimestampMS r) ∧
       bp_MinTimestampMS block ≤ r_TimestampMS r ≤ bp_MaxTimestampMS block).
Proof.
  intros Ht. split.
  - unfold DecodeRawBlock. intros H. inv_ok. destruct x as [recs' off]. inv_ok. bool_to_prop.
    destruct (envelope_inv _ _ Ht Hbind) as (Hl & Hmax & Hc & Hlsn).
    unfold BlockPreamble_typed in Ht; typed_fields. unfold_widths.
    apply DecodeRawBlock_loop_inv in Hbind0
      as (rs & -> & Hn & Ho & Hok & Hts & (Hr & Hs & _) & Hsub); [|lia..].
    rewrite Z.add_0_r, Nat.sub_0_r in *. rewrite sub_full in Hsub by (unfold len in *; lia).
    rewrite raw_of_number. unfold len. rewrite length_number. split_and!; auto; [|lia|].
    + apply EncodeRawBlock_spec. split_and!; auto. destruct rs; [cbn in *; lia | discriminate].
    + intros i r Hi. pose proof (lookup_lt_Some _ _ _ Hi) as Hlt. rewrite length_number in Hlt.
      rewrite (number_LSN _ _ _ _ Hi), uint64_id by (unfold_widths; unfold MaxRecordLSN in *; lia).
      split; [done|].
      assert (raw_of r ∈ rs) as Hin.
      { rewrite <- (raw_of_number (bp_BaseLSN block) rs). apply list_elem_of_fmap. exists r.
        split; [done | by eapply list_elem_of_lookup_2]. }
      rewrite Forall_forall in Hts, Hr. split; [exact (Hts _ Hin) | exact (Hr _ Hin)].
  - intros (Hv & He & Hlen & Hrec). destruct (envelope_inv _ _ Ht Hv) as (Hl & Hmax & Hc & Hlsn).
    assert (Hbase := proj1 (proj2 (proj2 (proj2 (proj2 Ht))))).
    assert (Hts : ∀ r, r ∈ map raw_of recs → is_i64 (rr_TimestampMS r) ∧
              bp_MinTimestampMS block ≤ rr_TimestampMS r ≤ bp_MaxTimestampMS block).
    { intros r (r' & -> & [i Hi]%list_elem_of_lookup_1)%list_elem_of_fmap.
      by destruct (Hrec i r' Hi) as (_ & ? & ?). }
    rewrite (DecodeRawBlock_encoded raw block (map raw_of recs)); try done.
    + f_equal. apply number_raw_of. intros i r Hi. destruct (Hrec i r Hi) as (-> & _).
      apply lookup_lt_Some in Hi. rewrite uint64_id; [done|]. unfold len, MaxRecordLSN in *. unfold_widths. lia.
    + unfold len in *. by rewrite length_map.
    + apply Forall_forall. intros r Hr. apply (Hts r Hr).
    + apply Forall_forall. intros r Hr. apply (Hts r Hr).
Qed.

Definition example_block : BlockPreamble :=
  mkBlockPreamble 0 40 40 2 100 5 9 7.
Definition example_records : list LogRecord :=
  [mkLogRecord 100 5 [mkHeader [x6b] [x76]] []; mkLogRecord 101 9 [] []].
Definition example_raw : list byte := block_bytes (map raw_of example_records).

Lemma raw_block_codec_witness :
  BlockPreamble_typed example_block ∧ DecodeRawBlock example_raw example_block = Ok example_records.
Proof.
  assert (Ht : BlockPreamble_typed example_block) by (repeat split; vm_compute; discriminate).
  split; [exact Ht|].
  apply (proj2 (raw_block_codec example_raw example_block example_records Ht)).
  split_and!; [reflexivity | reflexivity | reflexivity |].
  intros [|[|i]] r Hi; try discriminate; injection Hi as <-; repeat split; vm_compute; discriminate.
Defined.

(** ** Scanning and decoding agree *)
Lemma Scanner_drain_loop fuel raw block n i off prev :
  is_u32 (bp_RecordCount block) → 0 ≤ i → Z.of_nat n = bp_RecordCount block - i → (n < fuel)%nat →
  Scanner_drain fuel (mkScanner raw block off i prev) =
  ('(records, offset) ← DecodeRawBlock_loop raw block n i off prev;
   fail_if negb (Z.of_nat offset =? len raw) with [SegErrInvalidSegment]; Ok records).
Proof.
  intros Hc. revert n i off prev; induction fuel as [|fuel IH]; intros n i off prev Hi Hn Hf; [lia|].
  cbn [Scanner_drain]. unfold Scanner_Next; cbn [s_block s_recordIndex s_raw s_offset s_prevTimestampMS].
  unfold_widths. destruct n as [|n]; cbn [DecodeRawBlock_loop].
  - destruct (Z.leb_spec (bp_RecordCount block) i); [|lia]. cbn [mbind result_bind].
    by destruct (Z.of_nat off =? len raw).
  - destruct (Z.leb_spec (bp_RecordCount block) i); [lia|].
    destruct (len raw - Z.of_nat off <? RecordHeaderSize); [done|].
    destruct (scanRawRecord raw off) as [[r next]|e]; [|done]. cbn [mbind result_bind].
    destruct (_ || _); [done|]. destruct (_ && (rr_TimestampMS r <? prev)); [done|].
    rewrite Z.mod_small by lia.
    assert (Hlast : n = 0%nat ↔ i + 1 = bp_RecordCount block) by lia.
    destruct (Z.eqb_spec (i + 1) (bp_RecordCount block)) as [E|E]; cbn [andb].
    + assert (n = 0%nat) as -> by lia. cbn [DecodeRawBlock_loop mbind result_bind].
      destruct (Z.of_nat next =? len raw) eqn:En; cbn [negb mbind result_bind]; [|done].
      rewrite (IH 0%nat) by lia. cbn [DecodeRawBlock_loop mbind result_bind]. by rewrite En.
    + cbn [mbind result_bind]. rewrite (IH n) by lia.
      destruct (DecodeRawBlock_loop raw block n (i + 1) next _) as [[recs off']|e]; [|done].
      cbn [mbind result_bind]. by destruct (Z.of_nat off' =? len raw).
Qed.

Lemma Scanner_drain_decode raw block fuel :
  is_u32 (bp_RecordCount block) → bp_RecordCount block < Z.of_nat fuel →
  (s ← NewRawBlockScanner raw block; Scanner_drain fuel s) = DecodeRawBlock raw block.
Proof.
  intros Hc Hf. unfold NewRawBlockScanner, DecodeRawBlock.
  destruct (validateRawBlockEnvelope raw block) as [[]|e]; [|done]. cbn [mbind result_bind].
  unfold_widths. apply Scanner_drain_loop; auto; lia.
Qed.

(** C4. The incremental scanner is equivalent to the one-shot decoder: creating
    a [RawBlockScanner] and calling [Next] until it reports the end (at most
    [RecordCount + 1] calls) yields the same records as [DecodeRawBlock], and
    the same error when the block is rejected. *)
Theorem scanner_refines_decode raw block fuel :
  is_u32 (bp_RecordCount block) → bp_RecordCount block < Z.of_nat fuel →
  (s ← NewRawBlockScanner raw block; Scanner_drain fuel s) = DecodeRawBlock raw block.
Proof. apply Scanner_drain_decode. Qed.

Lemma scanner_refines_decode_witness :
  (s ← NewRawBlockScanner example_raw example_block; Scanner_drain 3 s) = Ok example_records.
Proof.
  rewrite (scanner_refines_decode example_raw example_block 3);
    [reflexivity | split; vm_compute; discriminate | reflexivity].
Defined.
