(* ===== verification/SegIndex.v ===== *)
(** * The block index of a segment (internal/segformat/index.go and
    [ValidateIndex] of validate.go)

    [MarshalBlockIndex]/[ParseBlockIndex] and the structural check the writer
    makes before sealing a segment and the reader makes when opening one.  The
    theorems: the index survives the round trip, and an index that passes
    [ValidateIndex] tiles the segment: its blocks are laid out back to back from
    the file preamble to the index, and cover the trailer's LSN range without
    gap or overlap, in timestamp order. *)
From S2P Require Import Prelude Hash SegFormat.

(** ** ValidateIndex *)
(** The loop over the entries; [prev] is [entries[i-1]], absent for [i == 0]. *)
Fixpoint ValidateIndex_loop (trailer : Trailer) (prev : option BlockIndexEntry) (recordCount : Z)
    (entries : list BlockIndexEntry) : result Z :=
  match entries with
  | [] => Ok recordCount
  | e :: entries =>
      _ ← BlockIndexEntry_Validate e;
      let recordCount := uint64 (recordCount + bx_RecordCount e) in
      match prev with
      | None =>
          fail_if negb (bx_BaseLSN e =? t_BaseLSN trailer) with [SegErrBlockIndexMismatch];
          fail_if negb (bx_MinTimestampMS e =? t_MinTimestampMS trailer) with [SegErrBlockIndexMismatch];
          ValidateIndex_loop trailer (Some e) recordCount entries
      | Some prev =>
          wantLSN ← nextLSN (bx_BaseLSN prev) (bx_RecordCount prev);
          fail_if negb (bx_BaseLSN e =? wantLSN) with [SegErrBlockIndexMismatch];
          wantOffset ← nextBlockOffset (bx_BlockOffset prev) (bx_StoredSize prev);
          fail_if negb (bx_BlockOffset e =? wantOffset) with [SegErrBlockIndexMismatch];
          fail_if bx_MinTimestampMS e <? bx_MaxTimestampMS prev with [SegErrBlockIndexMismatch];
          ValidateIndex_loop trailer (Some e) recordCount entries
      end
  end.

Definition ValidateIndex (entries : list BlockIndexEntry) (trailer : Trailer) : result () :=
  match entries with
  | [] => Err [SegErrBlockIndexMismatch]
  | e0 :: rest =>
      fail_if negb (uint32 (len entries) =? t_BlockCount trailer) with [SegErrBlockIndexMismatch];
      fail_if negb (bx_BlockOffset e0 =? Z.of_nat FilePreambleSize) with [SegErrBlockIndexMismatch];
      recordCount ← ValidateIndex_loop trailer None 0 entries;
      let last := List.last rest e0 in
      lastLSN_ ← lastLSN (bx_BaseLSN last) (bx_RecordCount last);
      fail_if negb (lastLSN_ =? t_LastLSN trailer) with [SegErrBlockIndexMismatch];
      indexOffset ← nextBlockOffset (bx_BlockOffset last) (bx_StoredSize last);
      fail_if negb (indexOffset =? t_BlockIndexOffset trailer) with [SegErrBlockIndexMismatch];
      fail_if negb (bx_MaxTimestampMS last =? t_MaxTimestampMS trailer) with [SegErrBlockIndexMismatch];
      fail_if negb (recordCount =? t_RecordCount trailer) with [SegErrBlockIndexMismatch];
      Ok ()
  end.

(** ** Marshal and parse *)
Fixpoint writeEntries (entriesBytes : list byte) (i : nat) (entries : list BlockIndexEntry)
    : result (list byte) :=
  match entries with
  | [] => Ok entriesBytes
  | e :: entries =>
      _ ← BlockIndexEntry_Validate e;
      writeEntries (copy_at (i * BlockIndexEntrySize) (writeBlockIndexEntry e) entriesBytes) (S i) entries
  end.

Fixpoint parseEntries (entriesBytes : list byte) (i : nat) (count : nat) : result (list BlockIndexEntry) :=
  match count with
  | O => Ok []
  | S count =>
      e ← ParseBlockIndexEntry (sub entriesBytes (i * BlockIndexEntrySize) BlockIndexEntrySize);
      es ← parseEntries entriesBytes (S i) count;
      Ok (e :: es)
  end.

Section index_codec.
Context `{XXHash}.

Definition MarshalBlockIndex (entries : list BlockIndexEntry) (trailer : Trailer)
    : result (list byte * IndexPreamble) :=
  fail_if len entries =? 0 with [SegErrBlockIndexMismatch];
  fail_if MaxBlockCount <? len entries with [SegErrBlockIndexMismatch];
  _ ← ValidateIndex entries trailer;
  entriesBytes ← writeEntries (make_bytes (length entries * BlockIndexEntrySize)) 0 entries;
  indexHash ← HashBytes (t_HashAlgo trailer) entriesBytes;
  let preamble := {| ip_Flags := 0; ip_EntrySize := Z.of_nat BlockIndexEntrySize;
                     ip_EntryCount := uint32 (len entries); ip_IndexHash := indexHash |} in
  Ok (writeIndexPreamble preamble ++ entriesBytes, preamble).

Definition ParseBlockIndex (buf : list byte) (algo : Z) : result (IndexPreamble * list BlockIndexEntry) :=
  fail_if len buf <? Z.of_nat IndexPreambleSize with [SegErrInvalidSegment];
  preamble ← ParseIndexPreamble (sub buf 0 IndexPreambleSize);
  let wantLen := Z.of_nat IndexPreambleSize + ip_EntryCount preamble * Z.of_nat BlockIndexEntrySize in
  fail_if negb (len buf =? wantLen) with [SegErrInvalidSegment];
  let entriesBytes := drop IndexPreambleSize buf in
  gotHash ← HashBytes algo entriesBytes;
  fail_if negb (gotHash =? ip_IndexHash preamble) with [SegErrIntegrityMismatch];
  entries ← parseEntries entriesBytes 0 (Z.to_nat (ip_EntryCount preamble));
  Ok (preamble, entries).
End index_codec.

(** ** Round trip *)
Definition entry_list_bytes (es : list BlockIndexEntry) : list byte := concat (map writeBlockIndexEntry es).

Lemma length_writeBlockIndexEntry e : length (writeBlockIndexEntry e) = 64%nat.
Proof. apply length_fill. Qed.
Lemma length_entry_list_bytes es : length (entry_list_bytes es) = (length es * 64)%nat.
Proof.
  unfold entry_list_bytes. induction es as [|e es IH]; cbn [map concat length]; [done|].
  rewrite length_app, IH, length_writeBlockIndexEntry. lia.
Qed.

Lemma writeEntries_eq pre i es :
  length pre = (i * 64)%nat → Forall (λ e, BlockIndexEntry_Validate e = Ok ()) es →
  writeEntries (pre ++ zeros (length es * 64)) i es = Ok (pre ++ entry_list_bytes es).
Proof.
  intros Hl Hv. revert pre i Hl; induction Hv as [|e es He Hv IH]; intros pre i Hl; cbn [writeEntries].
  { done. }
  rewrite He. cbn [mbind result_bind]. unfold BlockIndexEntrySize.
  pose proof (copy_at_tail (i * 64) (writeBlockIndexEntry e) pre (length es * 64) (eq_sym Hl)) as HC.
  rewrite length_writeBlockIndexEntry in HC. cbn [length Nat.mul]. rewrite HC.
  rewrite IH by (rewrite length_app, length_writeBlockIndexEntry; lia).
  by rewrite <- app_assoc.
Qed.

Lemma parseEntries_bytes pre i es :
  length pre = (i * 64)%nat →
  Forall (λ e, BlockIndexEntry_typed e ∧ BlockIndexEntry_Validate e = Ok ()) es →
  parseEntries (pre ++ entry_list_bytes es) i (length es) = Ok es.
Proof.
  intros Hl Hv. revert pre i Hl; induction Hv as [|e es [Ht He] Hv IH]; intros pre i Hl; cbn [parseEntries length].
  { done. }
  unfold entry_list_bytes; cbn [map concat]; fold (entry_list_bytes es). unfold BlockIndexEntrySize.
  rewrite sub_app_r, sub_app_l by (rewrite ?length_writeBlockIndexEntry; lia).
  rewrite sub_whole by (rewrite ?length_writeBlockIndexEntry; lia).
  rewrite ParseBlockIndexEntry_bytes by done. cbn [mbind result_bind].
  rewrite app_assoc, IH; [done|]. rewrite length_app, length_writeBlockIndexEntry. lia.
Qed.

Lemma ValidateIndex_loop_entries t prev n es r :
  ValidateIndex_loop t prev n es = Ok r → Forall (λ e, BlockIndexEntry_Validate e = Ok ()) es.
Proof.
  revert prev n; induction es as [|e es IH]; intros prev n H; [constructor|].
  cbn [ValidateIndex_loop] in H. destruct prev; inv_ok; constructor; eauto.
Qed.

Lemma MaxBlockCount_eq : MaxBlockCount = 67108862.
Proof. reflexivity. Qed.

Lemma index_preamble_parses n h :
  0 < n ≤ MaxBlockCount → is_u64 h →
  let p := {| ip_Flags := 0; ip_EntrySize := 64; ip_EntryCount := n; ip_IndexHash := h |} in
  ParseIndexPreamble (writeIndexPreamble p) = Ok p.
Proof.
  rewrite MaxBlockCount_eq. intros Hn Hh p. apply ParseIndexPreamble_bytes.
  - unfold IndexPreamble_typed, p; cbn. unfold_widths. lia.
  - unfold IndexPreamble_Validate, p; cbn [ip_Flags ip_EntrySize ip_EntryCount]. cbn -[MaxBlockCount].
    rewrite MaxBlockCount_eq. rewrite (proj2 (Z.eqb_neq n 0)), (proj2 (Z.ltb_ge _ n)) by lia. done.
Qed.

Lemma ValidateIndex_entries es t :
  ValidateIndex es t = Ok () → Forall (λ e, BlockIndexEntry_Validate e = Ok ()) es.
Proof.
  unfold ValidateIndex. intros HV. destruct es; [discriminate|]. inv_ok.
  eauto using ValidateIndex_loop_entries.
Qed.

Lemma MarshalBlockIndex_parses `{XXHash} entries trailer buf preamble :
  Forall BlockIndexEntry_typed entries →
  MarshalBlockIndex entries trailer = Ok (buf, preamble) →
  ParseBlockIndex buf (t_HashAlgo trailer) = Ok (preamble, entries) ∧
  len buf = 64 + 64 * len entries ∧ ValidateIndex entries trailer = Ok ().
Proof.
  intros Ht HM. unfold MarshalBlockIndex in HM. inv_ok. bool_to_prop.
  rewrite MaxBlockCount_eq in *. pose proof (ValidateIndex_entries _ _ Hbind) as Hv.
  unfold BlockIndexEntrySize in *.
  pose proof (writeEntries_eq [] 0 entries eq_refl Hv) as HW. cbn [app] in HW.
  rewrite HW in Hbind0. injection Hbind0 as <-.
  pose proof (len_nonneg entries). pose proof (HashBytes_u64 _ _ _ Hbind1) as Hh.
  rewrite uint32_id by (unfold_widths; lia).
  change (Z.of_nat 64) with 64.
  pose proof (index_preamble_parses (len entries) _ ltac:(rewrite MaxBlockCount_eq; lia) Hh) as HP.
  cbv zeta in HP. set (p := {| ip_Flags := 0 |}) in *.
  assert (Hl : length (writeIndexPreamble p) = 64%nat) by apply length_fill.
  assert (Hlen : len (writeIndexPreamble p ++ entry_list_bytes entries) = 64 + len entries * 64).
  { unfold len. rewrite length_app, Hl, length_entry_list_bytes. lia. }
  split; [|by split; [rewrite Hlen; lia|]]. unfold ParseBlockIndex, IndexPreambleSize. rewrite Hlen.
  change (Z.of_nat 64) with 64. destruct (Z.ltb_spec (64 + len entries * 64) 64); [lia|].
  rewrite sub_app_l, sub_whole, HP by (rewrite ?Hl; lia). cbn [mbind result_bind].
  change (ip_EntryCount p) with (len entries). change (ip_IndexHash p) with x0.
  change (Z.of_nat BlockIndexEntrySize) with 64.
  rewrite Z.eqb_refl, drop_app_length' by done. cbn [negb]. rewrite Hbind1. cbn [mbind result_bind].
  rewrite Z.eqb_refl. cbn [negb]. unfold len. rewrite Nat2Z.id.
  pose proof (parseEntries_bytes [] 0 entries eq_refl) as HE. cbn [app] in HE.
  rewrite HE; [done|]. rewrite Forall_and. done.
Qed.

(** C5. Index round trip.  When [MarshalBlockIndex] accepts typed entries, the
    bytes it returns parse back, under the trailer's hash algorithm, to the same
    preamble and the same entries. *)
Theorem block_index_roundtrip `{XXHash} entries trailer buf preamble :
  Forall BlockIndexEntry_typed entries →
  MarshalBlockIndex entries trailer = Ok (buf, preamble) →
  ParseBlockIndex buf (t_HashAlgo trailer) = Ok (preamble, entries) ∧
  len buf = 64 + 64 * len entries.
Proof. intros Ht HM. destruct (MarshalBlockIndex_parses _ _ _ _ Ht HM) as (? & ? & _). done. Qed.

(** ** An accepted index tiles the segment *)

(** The entries follow each other from file offset [off], LSN [lsn] and
    timestamp [ts], each one valid. *)
Fixpoint tiles (off lsn ts : Z) (es : list BlockIndexEntry) : Prop :=
  match es with
  | [] => True
  | e :: es =>
      BlockIndexEntry_Validate e = Ok () ∧
      bx_BlockOffset e = off ∧ bx_BaseLSN e = lsn ∧ ts ≤ bx_MinTimestampMS e ∧
      tiles (off + 64 + bx_StoredSize e) (lsn + bx_RecordCount e) (bx_MaxTimestampMS e) es
  end.

Definition total_stored (es : list BlockIndexEntry) : Z := sumZ (λ e, 64 + bx_StoredSize e) es.
Definition total_records (es : list BlockIndexEntry) : Z := sumZ bx_RecordCount es.

Record IndexTiles (es : list BlockIndexEntry) (t : Trailer) : Prop := {
  it_tiles : tiles 64 (t_BaseLSN t) (t_MinTimestampMS t) es;
  it_first : bx_MinTimestampMS <$> head es = Some (t_MinTimestampMS t);
  it_last : bx_MaxTimestampMS <$> last es = Some (t_MaxTimestampMS t);
  it_blocks : uint32 (len es) = t_BlockCount t;
  it_index : 64 + total_stored es = t_BlockIndexOffset t;
  it_lsn : t_BaseLSN t + total_records es = t_LastLSN t + 1;
  it_lsn_max : t_LastLSN t ≤ MaxRecordLSN;
  it_records : total_records es = t_RecordCount t }.

Lemma nextLSN_spec base count l :
  is_u64 base → is_u32 count →
  nextLSN base count = Ok l ↔ 0 < count ∧ base + count - 1 ≤ MaxRecordLSN ∧ l = base + count.
Proof.
  intros Hb Hc. unfold nextLSN. pose proof (lastLSN_spec base count) as S. split.
  - intros E. inv_ok. apply S in Hbind as (? & ? & ->); [|done..]. split_and!; [done..|].
    unfold MaxRecordLSN in *. rewrite uint64_id by (unfold_widths; lia). lia.
  - intros (? & ? & ->). rewrite (proj2 (S _ Hb Hc)) by (split_and!; [done..|reflexivity]).
    cbn [mbind result_bind]. f_equal. unfold MaxRecordLSN in *.
    rewrite uint64_id by (unfold_widths; lia). lia.
Qed.

Lemma entry_sizes_nonneg es :
  Forall BlockIndexEntry_typed es → 0 ≤ total_stored es ∧ 0 ≤ total_records es.
Proof.
  intros Ht. split; apply sumZ_nonneg; (eapply Forall_impl; [exact Ht|]);
    unfold BlockIndexEntry_typed; unfold_widths; cbn; lia.
Qed.

(** What the loop of [ValidateIndex] and the two checks after it establish, seen
    from an entry [p] already accepted. *)
Lemma ValidateIndex_loop_spec t p n es off lsn :
  BlockIndexEntry_typed p → Forall BlockIndexEntry_typed es → is_u64 n →
  let last := List.last es p in
  (ValidateIndex_loop t (Some p) n es = Ok (uint64 (n + total_records es)) ∧
   nextLSN (bx_BaseLSN last) (bx_RecordCount last) = Ok lsn ∧
   nextBlockOffset (bx_BlockOffset last) (bx_StoredSize last) = Ok off) ↔
  tiles (bx_BlockOffset p + 64 + bx_StoredSize p) (bx_BaseLSN p + bx_RecordCount p) (bx_MaxTimestampMS p) es ∧
  0 < bx_RecordCount p ∧
  off = bx_BlockOffset p + 64 + bx_StoredSize p + total_stored es ∧ off ≤ MaxUint64 ∧
  lsn = bx_BaseLSN p + bx_RecordCount p + total_records es ∧ lsn - 1 ≤ MaxRecordLSN.
Proof.
  intros Hp Hes. revert p n Hp. induction Hes as [|e es He Hes IH]; intros p n Hp Hn; cbv zeta.
  - cbn [ValidateIndex_loop List.last tiles total_stored total_records sumZ].
    unfold total_stored, total_records. cbn [sumZ]. rewrite Z.add_0_r, uint64_id by done.
    rewrite nextLSN_spec, nextBlockOffset_spec by apply Hp.
    split; intros; typed_fields; split_and!; try done; lia.
  - rewrite List_last_cons. cbn [ValidateIndex_loop tiles].
    pose proof (entry_sizes_nonneg es Hes) as [Hs Hr].
    assert (Hst : total_stored (e :: es) = 64 + bx_StoredSize e + total_stored es) by done.
    assert (Hrt : total_records (e :: es) = bx_RecordCount e + total_records es) by done.
    specialize (IH e (uint64 (n + bx_RecordCount e)) He (uint64_range _)). cbv zeta in IH.
    assert (Hsum : uint64 (uint64 (n + bx_RecordCount e) + total_records es) =
                   uint64 (n + total_records (e :: es))).
    { rewrite Hrt. unfold_widths. rewrite Zplus_mod_idemp_l. f_equal. lia. }
    rewrite Hsum in IH. assert (Hb := He). unfold BlockIndexEntry_typed in Hb. unfold_widths.
    rewrite Hst, Hrt in *. split.
    + intros (HL & HN & HO). inv_ok. bool_to_prop.
      apply nextLSN_spec in Hbind0 as (? & ? & ->); [|apply Hp..].
      apply nextBlockOffset_spec in Hbind1 as (? & ->); [|apply Hp..].
      destruct (proj1 IH) as (HT & ? & -> & ? & -> & ?); [done|].
      replace (bx_BlockOffset e) with (bx_BlockOffset p + 64 + bx_StoredSize p) in *.
      replace (bx_BaseLSN e) with (bx_BaseLSN p + bx_RecordCount p) in *.
      split_and!; try done; lia.
    + intros ((HV & HO & HL & HTS & HT) & ? & -> & ? & -> & ?).
      rewrite <- HO, <- HL in *.
      assert (0 < bx_RecordCount e).
      { unfold BlockIndexEntry_Validate in HV. inv_ok. bool_to_prop. lia. }
      destruct (proj2 IH) as (HLo & HN & HB); [split_and!; try done; lia|].
      rewrite HV. cbn [mbind result_bind].
      rewrite (proj2 (nextLSN_spec (bx_BaseLSN p) (bx_RecordCount p) (bx_BaseLSN e) ltac:(apply Hp) ltac:(apply Hp))) by lia.
      rewrite (proj2 (nextBlockOffset_spec (bx_BlockOffset p) (bx_StoredSize p) (bx_BlockOffset e) ltac:(apply Hp) ltac:(apply Hp))) by lia.
      cbn [mbind result_bind]. rewrite !Z.eqb_refl. cbn [negb].
      destruct (Z.ltb_spec (bx_MinTimestampMS e) (bx_MaxTimestampMS p)); [lia|].
      split_and!; [done| |]; [rewrite HN|rewrite HB]; f_equal; lia.
Qed.

Lemma ValidateIndex_loop_count t p n es r :
  is_u64 n → ValidateIndex_loop t p n es = Ok r → r = uint64 (n + total_records es).
Proof.
  revert p n; induction es as [|e es IH]; intros p n Hn HL; cbn [ValidateIndex_loop] in HL.
  - inv_ok. unfold total_records; cbn [sumZ]. by rewrite Z.add_0_r, uint64_id.
  - replace (uint64 (n + total_records (e :: es)))
      with (uint64 (uint64 (n + bx_RecordCount e) + total_records es)).
    2: { change (total_records (e :: es)) with (bx_RecordCount e + total_records es).
         unfold uint64. rewrite Zplus_mod_idemp_l. f_equal. lia. }
    destruct p; inv_ok; eauto using uint64_range.
Qed.

(** A file is accepted exactly when it tiles: the entries are those of a
    contiguous layout. *)
Lemma ValidateIndex_tiles es t :
  Forall BlockIndexEntry_typed es → Trailer_typed t →
  ValidateIndex es t = Ok () ↔ IndexTiles es t.
Proof.
  intros Hes Ht. destruct es as [|e es]; [split; [discriminate | intros HT; destruct HT; done]|].
  pose proof (Forall_inv Hes) as He. pose proof (Forall_inv_tail Hes) as Hes'.
  pose proof (entry_sizes_nonneg es Hes') as [Hs Hr].
  assert (Hst : total_stored (e :: es) = 64 + bx_StoredSize e + total_stored es) by done.
  assert (Hrt : total_records (e :: es) = bx_RecordCount e + total_records es) by done.
  assert (Hcnt : uint64 (0 + bx_RecordCount e) = bx_RecordCount e).
  { apply uint64_id. unfold BlockIndexEntry_typed in He. unfold_widths. lia. }
  pose proof (λ off lsn, ValidateIndex_loop_spec t e (bx_RecordCount e) es off lsn He Hes') as Hspec.
  assert (Hcu : is_u64 (bx_RecordCount e)) by (rewrite <- Hcnt; apply uint64_range).
  assert (Hlt : BlockIndexEntry_typed (List.last es e)).
  { pose proof (last_List_last e es) as Hl. apply last_Some_elem_of in Hl.
    by apply (proj1 (Forall_forall _ _) Hes). }
  assert (Hb := He). unfold BlockIndexEntry_typed in Hb.
  assert (Htb := Ht). unfold Trailer_typed in Htb.
  unfold ValidateIndex. cbn [ValidateIndex_loop]. rewrite Hcnt. split.
  - intros HV. inv_ok. bool_to_prop.
    pose proof (ValidateIndex_loop_count _ _ _ _ _ Hcu Hbind) as ->.
    apply lastLSN_spec in Hbind0 as (Hc0 & Hm0 & ->); [|apply Hlt..].
    destruct (proj1 (Hspec (t_BlockIndexOffset t) (t_LastLSN t + 1) Hcu)) as (HT & ? & HO & ? & HLs & ?).
    { split_and!; [done| |by subst].
      apply nextLSN_spec; [apply Hlt..|]. lia. }
    assert (Hrc : bx_RecordCount e + total_records es = t_RecordCount t).
    { rewrite <- Hchk4. symmetry. apply uint64_id. unfold MaxRecordLSN in *. unfold_widths. lia. }
    change (Z.of_nat FilePreambleSize) with 64 in Hchk0.
    rewrite Hchk0, Hchk5 in *. clear Hspec.
    constructor; rewrite ?Hst, ?Hrt; cbn [tiles].
    1: split_and!; [assumption | assumption | assumption | lia | assumption].
    1: by rewrite <- Hchk6.
    1: rewrite last_List_last; cbn; by f_equal.
    1: exact Hchk.
    1, 2, 3: lia.
    exact Hrc.
  - intros [HT HF HL HB HI HLs HM HR]. rewrite Hst in HI. rewrite Hrt in HLs, HR.
    rewrite last_List_last in HL. injection HL as HL. injection HF as HF.
    destruct HT as (HV & HO & HLn & _ & HT).
    assert (0 < bx_RecordCount e) by (unfold BlockIndexEntry_Validate in HV; inv_ok; bool_to_prop; unfold_widths; lia).
    destruct (proj2 (Hspec (t_BlockIndexOffset t) (t_LastLSN t + 1) Hcu)) as (HLo & HN & HNo).
    { rewrite HO, HLn. unfold is_u64 in *. split; [exact HT | lia]. }
    rewrite HB, HO, HV, HLn, HF, !Z.eqb_refl. cbn [mbind result_bind negb Z.eqb].
    rewrite HLo. apply nextLSN_spec in HN as (? & ? & HN); [|apply Hlt..].
    rewrite (proj2 (lastLSN_spec _ _ (t_LastLSN t) (proj1 (proj2 (proj2 (proj2 (proj2 Hlt)))))
                      (proj1 (proj2 (proj2 (proj2 Hlt)))))) by lia.
    cbn [mbind result_bind]. rewrite HNo. cbn [mbind result_bind].
    rewrite HL, HR, uint64_id, !Z.eqb_refl; [done|]. unfold_widths; lia.
Qed.

(** [lsn] is one of the records of the block [e] points at. *)
Definition in_block (lsn : Z) (e : BlockIndexEntry) : Prop :=
  bx_BaseLSN e ≤ lsn < bx_BaseLSN e + bx_RecordCount e.

(** In a tiling every LSN of the covered range lies in exactly one block. *)
Lemma tiles_cover off lsn ts es x :
  Forall BlockIndexEntry_typed es → tiles off lsn ts es →
  lsn ≤ x < lsn + total_records es →
  ∃ i e, es !! i = Some e ∧ in_block x e ∧
    ∀ j e', es !! j = Some e' → in_block x e' → j = i.
Proof.
  intros Hes. revert off lsn ts; induction Hes as [|e es He Hes IH]; intros off lsn ts HT Hx; cbn [tiles] in HT.
  { unfold total_records in Hx; cbn [sumZ] in Hx. lia. }
  destruct HT as (_ & _ & Hl & _ & HT).
  change (total_records (e :: es)) with (bx_RecordCount e + total_records es) in Hx.
  assert (Hge : ∀ j e', es !! j = Some e' → lsn + bx_RecordCount e ≤ bx_BaseLSN e').
  { clear IH Hx. intros j e' Hj. revert HT Hes Hj.
    generalize (off + 64 + bx_StoredSize e) (lsn + bx_RecordCount e) (bx_MaxTimestampMS e).
    clear. revert j; induction es as [|e es IH]; intros j off lsn ts HT Hes Hj; [done|].
    destruct HT as (_ & _ & Hl & _ & HT). apply Forall_cons in Hes as [He Hes].
    destruct j as [|j]; cbn in Hj; [injection Hj as <-; lia|].
    pose proof (IH j _ _ _ HT Hes Hj). unfold BlockIndexEntry_typed in He. unfold_widths. lia. }
  destruct (Z.lt_ge_cases x (lsn + bx_RecordCount e)) as [Hlt|Hlt].
  - exists O, e. unfold in_block. split_and!; [done|lia|lia|].
    intros [|j] e' Hj Hin; [done|]. cbn in Hj. pose proof (Hge j e' Hj). lia.
  - destruct (IH _ _ _ HT ltac:(lia)) as (i & e' & Hi & Hin & Hu).
    exists (S i), e'. split_and!; [done..|]. intros [|j] e'' Hj Hin'.
    + cbn in Hj. injection Hj as <-. unfold in_block in Hin'. lia.
    + f_equal. eauto.
Qed.

(** C6. An accepted block index is a tiling of the segment.  [ValidateIndex]
    succeeds exactly when the blocks lie back to back from the file preamble to
    the index, their LSN ranges follow each other from [BaseLSN] to [LastLSN],
    their timestamp ranges are ordered and end at the trailer's, and the counts
    agree; each LSN of the segment is then in exactly one block. *)
Theorem valid_index_is_tiling es t :
  Forall BlockIndexEntry_typed es → Trailer_typed t →
  (ValidateIndex es t = Ok () ↔ IndexTiles es t) ∧
  (ValidateIndex es t = Ok () → ∀ lsn, t_BaseLSN t ≤ lsn ≤ t_LastLSN t →
     ∃ i e, es !! i = Some e ∧ in_block lsn e ∧
       ∀ j e', es !! j = Some e' → in_block lsn e' → j = i).
Proof.
  intros Hes Ht. pose proof (ValidateIndex_tiles es t Hes Ht) as HV. split; [done|].
  intros HVT%HV lsn Hl. destruct HVT as [HT _ _ _ _ HL _ _].
  eapply tiles_cover; [done|exact HT|lia].
Qed.

(** ** Examples *)
Definition example_index : list BlockIndexEntry := [
  {| bx_BlockOffset := 64; bx_StoredSize := 40; bx_RawSize := 40; bx_RecordCount := 2; bx_BaseLSN := 10;
     bx_MinTimestampMS := 5; bx_MaxTimestampMS := 7; bx_BlockHash := 99 |};
  {| bx_BlockOffset := 168; bx_StoredSize := 17; bx_RawSize := 17; bx_RecordCount := 1; bx_BaseLSN := 12;
     bx_MinTimestampMS := 7; bx_MaxTimestampMS := 7; bx_BlockHash := 98 |}].
Definition example_trailer : Trailer := {|
  t_Flags := 0; t_Partition := 1; t_Codec := CodecNone; t_HashAlgo := HashCRC32C;
  t_RecordFormat := RecordFormatV1; t_BaseLSN := 10; t_LastLSN := 12; t_MinTimestampMS := 5;
  t_MaxTimestampMS := 7; t_RecordCount := 3; t_BlockCount := 2; t_BlockIndexOffset := 249;
  t_BlockIndexLength := 192; t_TotalSize := 633; t_CreatedUnixMS := 0; t_SegmentUUID := zeros 16;
  t_WriterTag := zeros 16; t_SegmentHash := 0; t_TrailerHash := 0 |}.

Lemma example_index_typed : Forall BlockIndexEntry_typed example_index.
Proof. repeat constructor; vm_compute; discriminate. Qed.
Lemma example_trailer_typed : Trailer_typed example_trailer.
Proof. repeat split; try (vm_compute; discriminate); reflexivity. Qed.

Lemma block_index_roundtrip_witness :
  let M := MarshalBlockIndex (H:=xxhash_example) example_index example_trailer in
  ∃ buf preamble, M = Ok (buf, preamble) ∧
  ParseBlockIndex (H:=xxhash_example) buf HashCRC32C = Ok (preamble, example_index) ∧ len buf = 192.
Proof.
  cbv zeta.
  destruct (MarshalBlockIndex (H:=xxhash_example) example_index example_trailer) as [[buf p]|] eqn:E.
  - exists buf, p. split; [reflexivity|].
    apply (block_index_roundtrip (H:=xxhash_example) example_index example_trailer buf p
             example_index_typed E).
  - vm_compute in E. discriminate E.
Defined.

Lemma valid_index_is_tiling_witness :
  IndexTiles example_index example_trailer ∧
  ∃ i e, example_index !! i = Some e ∧ in_block 12 e ∧
    ∀ j e', example_index !! j = Some e' → in_block 12 e' → j = i.
Proof.
  assert (HV : ValidateIndex example_index example_trailer = Ok ()) by (vm_compute; reflexivity).
  destruct (valid_index_is_tiling example_index example_trailer example_index_typed example_trailer_typed)
    as [Hiff Hcov].
  split; [by apply Hiff | apply Hcov; [exact HV | cbn; lia]].
Defined.
