(* ===== verification/SegBlock.v ===== *)
(** * Sealing and opening blocks (internal/segblock)

    [Seal] compresses and hashes a raw block and builds its preamble; [Open]
    verifies and decompresses a stored block.  The encoder and decoder pools of
    zstd_pool.go hand out interchangeable objects and are the two functions of
    the class [Zstd].  The theorems: opening what was sealed returns the raw
    block, for either codec and hash; a stored block whose bytes do not have the
    recorded hash is never opened; and the whole path records - raw block -
    stored block and back is the identity. *)
From S2P Require Import Prelude Hash SegFormat RawBlock.

(** ** types.go *)
Record Meta := mkMeta { m_BaseLSN : Z; m_RecordCount : Z; m_MinTimestampMS : Z; m_MaxTimestampMS : Z }.
Record Sealed := mkSealed { sl_Preamble : BlockPreamble; sl_Stored : list byte }.

Definition Meta_typed (m : Meta) : Prop :=
  is_u64 (m_BaseLSN m) ∧ is_u32 (m_RecordCount m) ∧ is_i64 (m_MinTimestampMS m) ∧ is_i64 (m_MaxTimestampMS m).

(** ** seal.go *)
Definition validateMeta (meta : Meta) (rawSize : Z) : result () :=
  fail_if rawSize <=? 0 with [SegErrInvalidSegment];
  fail_if MaxRawBlockSize <? rawSize with [SegErrBlockTooLarge];
  fail_if m_RecordCount meta =? 0 with [SegErrInvalidSegment];
  let delta := uint64 (uint32 (m_RecordCount meta - 1)) in
  fail_if uint64 (MaxRecordLSN - delta) <? m_BaseLSN meta with [SegErrInvalidSegment];
  fail_if rawSize / RecordHeaderSize <? m_RecordCount meta with [SegErrInvalidSegment];
  fail_if m_MaxTimestampMS meta <? m_MinTimestampMS meta with [SegErrInvalidSegment];
  Ok ().

Section segblock.
Context `{XXHash} `{Zstd}.

(** With [rawOwned] the stored bytes alias [raw], without they are a copy; the
    bytes are the same. *)
Definition encodeStored (codec : Z) (raw : list byte) (rawOwned : bool) : result (list byte) :=
  if codec =? CodecNone then if rawOwned then Ok raw else Ok ([] ++ raw)
  else if codec =? CodecZstd then Ok (zstd_EncodeAll raw)
  else Err [SegErrUnsupportedCodec].

Definition seal (codec hashAlgo : Z) (raw : list byte) (meta : Meta) (rawOwned : bool) : result Sealed :=
  _ ← Codec_Validate codec;
  _ ← HashAlgo_Validate hashAlgo;
  _ ← validateMeta meta (len raw);
  stored ← encodeStored codec raw rawOwned;
  fail_if MaxStoredBlockSize <? len stored with [SegErrBlockTooLarge];
  blockHash ← HashBytes hashAlgo stored;
  let preamble := {|
    bp_Flags := 0; bp_StoredSize := uint32 (len stored); bp_RawSize := uint32 (len raw);
    bp_RecordCount := m_RecordCount meta; bp_BaseLSN := m_BaseLSN meta;
    bp_MinTimestampMS := m_MinTimestampMS meta; bp_MaxTimestampMS := m_MaxTimestampMS meta;
    bp_BlockHash := blockHash |} in
  _ ← BlockPreamble_Validate preamble;
  Ok {| sl_Preamble := preamble; sl_Stored := stored |}.

Definition Seal (codec hashAlgo : Z) (raw : list byte) (meta : Meta) : result Sealed :=
  seal codec hashAlgo raw meta false.
Definition SealOwned (codec hashAlgo : Z) (raw : list byte) (meta : Meta) : result Sealed :=
  seal codec hashAlgo raw meta true.

(** ** open.go *)
Definition decodeStored (codec : Z) (stored : list byte) (rawSize : Z) (borrowStored : bool)
    : result (list byte) :=
  if codec =? CodecNone then if borrowStored then Ok stored else Ok ([] ++ stored)
  else if codec =? CodecZstd then
    match zstd_DecodeAll stored with
    | Some raw => Ok raw
    | None => Err []
    end
  else Err [SegErrUnsupportedCodec].

Definition open (codec hashAlgo : Z) (preamble : BlockPreamble) (stored : list byte) (borrowStored : bool)
    : result (list byte) :=
  _ ← Codec_Validate codec;
  _ ← HashAlgo_Validate hashAlgo;
  _ ← BlockPreamble_Validate preamble;
  fail_if negb (len stored =? bp_StoredSize preamble) with [SegErrInvalidSegment];
  gotHash ← HashBytes hashAlgo stored;
  fail_if negb (gotHash =? bp_BlockHash preamble) with [SegErrIntegrityMismatch];
  raw ← decodeStored codec stored (bp_RawSize preamble) borrowStored;
  fail_if negb (len raw =? bp_RawSize preamble) with [SegErrInvalidSegment];
  Ok raw.

Definition Open (codec hashAlgo : Z) (preamble : BlockPreamble) (stored : list byte) : result (list byte) :=
  open codec hashAlgo preamble stored false.
Definition OpenBorrowed (codec hashAlgo : Z) (preamble : BlockPreamble) (stored : list byte)
    : result (list byte) :=
  open codec hashAlgo preamble stored true.

(** ** Lemmas *)
Lemma validateMeta_inv meta n :
  Meta_typed meta → validateMeta meta n = Ok () →
  0 < n ≤ MaxRawBlockSize ∧ 0 < m_RecordCount meta ≤ n / RecordHeaderSize ∧
  m_BaseLSN meta + m_RecordCount meta - 1 ≤ MaxRecordLSN ∧ m_MinTimestampMS meta ≤ m_MaxTimestampMS meta.
Proof.
  intros (Hb & Hc & _ & _) HV. unfold validateMeta in HV. cbv zeta in HV. inv_ok. bool_to_prop.
  pose proof (lastLSN_spec (m_BaseLSN meta) (m_RecordCount meta)
    (uint64 (m_BaseLSN meta + uint64 (uint32 (m_RecordCount meta - 1)))) Hb Hc) as HL.
  unfold lastLSN in HL. cbv zeta in HL.
  rewrite (proj2 (Z.eqb_neq _ _) Hchk1), (proj2 (Z.ltb_ge _ _) Hchk2) in HL.
  unfold_widths. apply proj1 in HL. destruct HL as (? & ? & _); [done|]. split_and!; lia.
Qed.

Lemma decodeStored_encodeStored codec raw owned borrow n stored :
  len raw ≤ MaxRawBlockSize → encodeStored codec raw owned = Ok stored →
  decodeStored codec stored n borrow = Ok raw ∧ (raw ≠ [] → stored ≠ []).
Proof.
  intros Hl HE. unfold encodeStored in HE. unfold decodeStored.
  destruct (codec =? CodecNone).
  { cbn [app] in *. assert (stored = raw) as -> by (destruct owned; congruence). by destruct borrow. }
  destruct (codec =? CodecZstd); [|discriminate]. inv_ok.
  rewrite zstd_roundtrip by (unfold MaxRawBlockSize in Hl; lia). split; [done | apply zstd_frame_nonempty].
Qed.

(** What a successful [seal] returns. *)
Lemma seal_inv codec algo raw meta owned s :
  Meta_typed meta → seal codec algo raw meta owned = Ok s →
  let p := sl_Preamble s in
  BlockPreamble_typed p ∧ BlockPreamble_Validate p = Ok () ∧
  bp_RecordCount p = m_RecordCount meta ∧ bp_BaseLSN p = m_BaseLSN meta ∧
  bp_MinTimestampMS p = m_MinTimestampMS meta ∧ bp_MaxTimestampMS p = m_MaxTimestampMS meta ∧
  bp_RawSize p = len raw ∧ bp_StoredSize p = len (sl_Stored s) ∧
  HashBytes algo (sl_Stored s) = Ok (bp_BlockHash p) ∧
  encodeStored codec raw owned = Ok (sl_Stored s) ∧ Codec_Validate codec = Ok () ∧
  HashAlgo_Validate algo = Ok () ∧ validateMeta meta (len raw) = Ok ().
Proof.
  intros Ht HS. unfold seal in HS. cbv zeta in HS. inv_ok. bool_to_prop. cbn [sl_Preamble sl_Stored].
  destruct (validateMeta_inv _ _ Ht Hbind1) as ([? Hmax] & _). unfold MaxRawBlockSize, MaxStoredBlockSize in *.
  pose proof (HashBytes_u64 _ _ _ Hbind3). pose proof (len_nonneg x). cbn.
  assert (Hs : uint32 (len x) = len x) by (apply uint32_id; unfold_widths; lia).
  assert (Hr : uint32 (len raw) = len raw) by (apply uint32_id; unfold_widths; lia).
  split_and!; try assumption; try reflexivity.
  destruct Ht as (? & ? & ? & ?). unfold BlockPreamble_typed. cbn.
  split_and!; auto with ints. unfold_widths; lia.
Qed.

Lemma open_seal codec algo raw meta owned borrow s :
  Meta_typed meta → seal codec algo raw meta owned = Ok s →
  open codec algo (sl_Preamble s) (sl_Stored s) borrow = Ok raw.
Proof.
  intros Ht HS. destruct (seal_inv _ _ _ _ _ _ Ht HS)
    as (_ & HV & _ & _ & _ & _ & HR & Hst & HH & HE & HC & HA & HM).
  destruct (validateMeta_inv _ _ Ht HM) as ([_ Hmax] & _).
  destruct (decodeStored_encodeStored _ _ _ borrow (len raw) _ Hmax HE) as [HD _].
  unfold open. rewrite HC, HA, HV. cbn [mbind result_bind].
  rewrite Hst, Z.eqb_refl, HH. cbn [mbind result_bind negb].
  rewrite Z.eqb_refl, HR, HD. cbn [mbind result_bind negb]. by rewrite Z.eqb_refl.
Qed.
End segblock.

(** ** Records through a block *)

(** The metadata the packer records for a block of [rs] from [base]: the count
    and, timestamps being in order, the first and the last of them. *)
Definition block_meta (base : Z) (rs : list RawRecord) : Meta := {|
  m_BaseLSN := base; m_RecordCount := len rs;
  m_MinTimestampMS := default 0 (rr_TimestampMS <$> head rs);
  m_MaxTimestampMS := default 0 (rr_TimestampMS <$> last rs) |}.

Lemma block_meta_bounds base rs :
  ts_sorted rs → Forall (λ r, m_MinTimestampMS (block_meta base rs) ≤ rr_TimestampMS r ≤
                              m_MaxTimestampMS (block_meta base rs)) rs.
Proof.
  destruct rs as [|r0 rs]; [constructor|]. cbn [map]. intros Hs%Sorted_le_bounds.
  cbn [block_meta m_MinTimestampMS m_MaxTimestampMS head]. rewrite last_List_last. cbn [fmap option_fmap option_map default].
  replace (rr_TimestampMS (List.last rs r0)) with (List.last (map rr_TimestampMS rs) (rr_TimestampMS r0)).
  - change (rr_TimestampMS r0 :: map rr_TimestampMS rs) with (rr_TimestampMS <$> (r0 :: rs)) in Hs.
    by apply Forall_fmap in Hs.
  - clear Hs. revert r0; induction rs as [|r rs IH]; intros r0; [done|]. cbn [map]. by rewrite !List_last_cons.
Qed.

Lemma block_meta_typed base rs :
  is_u64 base → len rs ≤ MaxUint32 → Forall (λ r, is_i64 (rr_TimestampMS r)) rs → Meta_typed (block_meta base rs).
Proof.
  intros Hb Hl Hr. pose proof (len_nonneg rs). unfold Meta_typed, block_meta; cbn [m_BaseLSN m_RecordCount m_MinTimestampMS m_MaxTimestampMS].
  rewrite Forall_forall in Hr.
  refine (conj Hb (conj _ (conj _ _))); [unfold_widths; lia| |].
  - destruct (head rs) as [r|] eqn:E; cbn; [|unfold_widths; lia].
    apply Hr. destruct rs; cbn in E; [done|]. injection E as ->. left.
  - destruct (last rs) as [r|] eqn:E; cbn; [|unfold_widths; lia]. by apply Hr, last_Some_elem_of.
Qed.

Lemma len_block_bytes_ge rs : 16 * len rs ≤ len (block_bytes rs).
Proof.
  induction rs as [|r rs IH]; [done|].
  unfold block_bytes in *. cbn [map concat]. rewrite len_app, len_record.
  pose proof (len_nonneg (headers_bytes (rr_Headers r))). pose proof (len_nonneg (rr_Value r)).
  change (len (r :: rs)) with (Z.of_nat (S (length rs))). unfold RecordHeaderSize, len in *. lia.
Qed.

Lemma validateMeta_block_meta base rs raw :
  is_u64 base → EncodeRawBlock rs = Ok raw → base + len rs - 1 ≤ MaxRecordLSN →
  validateMeta (block_meta base rs) (len raw) = Ok ().
Proof.
  intros Hb (Hne & Hok & Hs & Hmax & ->)%EncodeRawBlock_spec Hlsn.
  pose proof (len_block_bytes_ge rs) as H16. set (n := len (block_bytes rs)) in *.
  assert (Hpos : 0 < len rs) by (destruct rs; [done|]; unfold len; cbn [length]; lia).
  unfold MaxRawBlockSize in *.
  assert (Hc : len rs ≤ n / 16) by (apply Z.div_le_lower_bound; lia).
  assert (Hc' : n / 16 ≤ 1048576) by (apply Z.div_le_upper_bound; lia).
  pose proof (lastLSN_spec base (len rs) (base + len rs - 1) Hb ltac:(unfold_widths; lia)) as HL.
  destruct HL as [_ HL]. specialize (HL ltac:(lia)). unfold lastLSN in HL. cbv zeta in HL. inv_ok.
  pose proof (block_meta_bounds base rs Hs) as Hts.
  assert (Hmm : m_MinTimestampMS (block_meta base rs) ≤ m_MaxTimestampMS (block_meta base rs)).
  { destruct rs; [done|]. apply Forall_inv in Hts. lia. }
  unfold validateMeta. cbn [block_meta m_RecordCount m_BaseLSN]. cbv zeta. rewrite Hchk, Hchk0.
  unfold MaxRawBlockSize, RecordHeaderSize.
  rewrite (proj2 (Z.leb_gt n 0)), (proj2 (Z.ltb_ge 16777216 n)) by lia.
  rewrite (proj2 (Z.ltb_ge (n / 16) (len rs))) by lia.
  by rewrite (proj2 (Z.ltb_ge _ _)) by exact Hmm.
Qed.

(** A block preamble that validates and has the size of [raw] passes the
    envelope check. *)
Lemma envelope_of_valid raw p :
  BlockPreamble_typed p → BlockPreamble_Validate p = Ok () → bp_RawSize p = len raw →
  validateRawBlockEnvelope raw p = Ok ().
Proof.
  intros Ht HV HR. unfold validateRawBlockEnvelope. rewrite HV. cbn [mbind result_bind].
  unfold BlockPreamble_Validate in HV. inv_ok. bool_to_prop. rewrite Hbind. cbn [mbind result_bind].
  rewrite HR, Z.eqb_refl in *. cbn [negb]. unfold MaxRawBlockSize, RecordHeaderSize in *.
  pose proof (len_nonneg raw).
  assert (len raw / 16 ≤ 1048576) by (apply Z.div_le_upper_bound; lia).
  assert (0 ≤ len raw / 16) by (apply Z.div_pos; lia).
  rewrite uint32_id by (unfold_widths; lia). by rewrite (proj2 (Z.ltb_ge _ _)).
Qed.

(** Uncompressed sealing has no failure of its own. *)
Lemma seal_none_total `{XXHash} `{Zstd} algo raw meta owned :
  Meta_typed meta → HashAlgo_Validate algo = Ok () → validateMeta meta (len raw) = Ok () →
  ∃ s, seal CodecNone algo raw meta owned = Ok s.
Proof.
  intros Ht HA HM. unfold seal. rewrite HA, HM. cbn [mbind result_bind Codec_Validate].
  destruct (validateMeta_inv _ _ Ht HM) as (Hn & Hc & Hl & Hm). destruct Ht as (Hb & Hcu & _ & _).
  assert (HE : encodeStored CodecNone raw owned = Ok raw) by (unfold encodeStored; cbn; by destruct owned).
  change (Codec_Validate CodecNone) with (Ok ()). cbn [mbind result_bind]. rewrite HE.
  cbn [mbind result_bind]. unfold MaxRawBlockSize, MaxStoredBlockSize in *.
  rewrite (proj2 (Z.ltb_ge _ _)) by lia.
  destruct (HashBytes_total algo raw HA) as (h & -> & _). cbn [mbind result_bind].
  rewrite !uint32_id by (unfold_widths; lia).
  match goal with |- context [BlockPreamble_Validate ?p] => assert (HV : BlockPreamble_Validate p = Ok ()) end.
  2: { rewrite HV. eexists; reflexivity. }
  unfold BlockPreamble_Validate.
  cbn [bp_Flags bp_StoredSize bp_RawSize bp_RecordCount bp_BaseLSN bp_MinTimestampMS bp_MaxTimestampMS].
  unfold MaxRawBlockSize, MaxStoredBlockSize.
  rewrite (proj2 (Z.eqb_neq (len raw) 0)), !(proj2 (Z.ltb_ge _ (len raw))) by lia.
  rewrite (proj2 (Z.eqb_neq (m_RecordCount meta) 0)), (proj2 (Z.ltb_ge _ (m_RecordCount meta))) by lia.
  rewrite (proj2 (lastLSN_spec (m_BaseLSN meta) (m_RecordCount meta) _ Hb Hcu)) by (split_and!; [lia..|reflexivity]).
  cbn [mbind result_bind negb Z.eqb]. by rewrite (proj2 (Z.ltb_ge _ _)) by lia.
Qed.

(** C7. Opening a sealed block.  Whatever codec and hash a block is sealed with,
    in the copying or in the ownership-taking variant, the preamble is typed
    and valid and [Open] and [OpenBorrowed] return the raw bytes; stored bytes
    of the recorded length whose hash differs from the recorded one are refused
    with [ErrIntegrityMismatch]. *)
Theorem seal_then_open `{XXHash} `{Zstd} codec algo raw meta owned s :
  Meta_typed meta → seal codec algo raw meta owned = Ok s →
  BlockPreamble_typed (sl_Preamble s) ∧ BlockPreamble_Validate (sl_Preamble s) = Ok () ∧
  Open codec algo (sl_Preamble s) (sl_Stored s) = Ok raw ∧
  OpenBorrowed codec algo (sl_Preamble s) (sl_Stored s) = Ok raw ∧
  ∀ stored' borrow, len stored' = len (sl_Stored s) →
    HashBytes algo stored' ≠ HashBytes algo (sl_Stored s) →
    open codec algo (sl_Preamble s) stored' borrow = Err [SegErrIntegrityMismatch].
Proof.
  intros Ht HS. destruct (seal_inv _ _ _ _ _ _ Ht HS)
    as (HT & HV & _ & _ & _ & _ & _ & Hst & HH & _ & HC & HA & _).
  refine (conj HT (conj HV (conj _ (conj _ _)))); [by eapply open_seal..|].
  intros stored' borrow Hl Hne. unfold open. rewrite HC, HA, HV. cbn [mbind result_bind].
  rewrite Hst, Hl, Z.eqb_refl. cbn [negb].
  destruct (HashBytes_total algo stored' HA) as (h & Eh & _). rewrite Eh in *. cbn [mbind result_bind].
  destruct (Z.eqb_spec h (bp_BlockHash (sl_Preamble s))); [congruence|done].
Qed.

(** The stored block of encoded records opens to them, in either variant. *)
Lemma seal_decodes `{XXHash} `{Zstd} codec algo base rs raw owned borrow s :
  is_u64 base → Forall (λ r, is_i64 (rr_TimestampMS r)) rs → EncodeRawBlock rs = Ok raw →
  seal codec algo raw (block_meta base rs) owned = Ok s →
  Meta_typed (block_meta base rs) ∧ open codec algo (sl_Preamble s) (sl_Stored s) borrow = Ok raw ∧
  DecodeRawBlock raw (sl_Preamble s) = Ok (number base rs).
Proof.
  intros Hb Hts HE HS.
  pose proof (proj1 (EncodeRawBlock_spec rs raw) HE) as (Hne & _ & Hsort & Hmax & Hraw).
  pose proof (len_block_bytes_ge rs) as H16. rewrite <- Hraw in H16. unfold MaxRawBlockSize in Hmax.
  pose proof (block_meta_typed base rs Hb ltac:(lia) Hts) as Ht. split; [done|].
  rewrite (open_seal _ _ _ _ _ _ _ Ht HS). split; [done|].
  destruct (seal_inv _ _ _ _ _ _ Ht HS) as (HT & HV & HRc & HB & Hmin & HMx & HR & _).
  change (m_BaseLSN (block_meta base rs)) with base in HB. rewrite <- HB.
  apply DecodeRawBlock_encoded; try done.
  - by apply envelope_of_valid.
  - rewrite Hmin, HMx. by apply block_meta_bounds.
Qed.

(** C8. Records survive the block pipeline.  Records the encoder accepts,
    starting at an LSN that leaves room for them, always seal uncompressed; and
    when they seal, under either codec, opening and decoding the stored block
    returns exactly these records, numbered consecutively from [base]. *)
Theorem block_pipeline `{XXHash} `{Zstd} codec algo base rs raw :
  is_u64 base → base + len rs - 1 ≤ MaxRecordLSN →
  Forall (λ r, is_i64 (rr_TimestampMS r)) rs → HashAlgo_Validate algo = Ok () →
  EncodeRawBlock rs = Ok raw →
  (∃ s, Seal CodecNone algo raw (block_meta base rs) = Ok s) ∧
  ∀ s, Seal codec algo raw (block_meta base rs) = Ok s →
    (raw' ← Open codec algo (sl_Preamble s) (sl_Stored s); DecodeRawBlock raw' (sl_Preamble s)) =
    Ok (number base rs).
Proof.
  intros Hb Hlsn Hts HA HE.
  pose proof (validateMeta_block_meta base rs raw Hb HE Hlsn) as HM.
  pose proof (proj1 (EncodeRawBlock_spec rs raw) HE) as (Hne & _ & Hsort & Hmax & Hraw).
  pose proof (len_block_bytes_ge rs) as H16. rewrite <- Hraw in H16. unfold MaxRawBlockSize in Hmax.
  pose proof (block_meta_typed base rs Hb ltac:(lia) Hts) as Ht. split.
  - by apply seal_none_total.
  - intros s HS. destruct (seal_decodes codec algo base rs raw false false s Hb Hts HE HS) as (_ & HO & HD).
    unfold Open. by rewrite HO.
Qed.

(** ** Examples *)
Definition example_raw_records : list RawRecord :=
  [mkRawRecord 5 [mkHeader [x6b] [x76]] [x01; x02]; mkRawRecord 9 [] []].

Lemma seal_then_open_witness :
  ∃ raw s, EncodeRawBlock example_raw_records = Ok raw ∧
    seal (H:=xxhash_example) (H0:=zstd_example) CodecZstd HashXXH64 raw (block_meta 7 example_raw_records) true = Ok s ∧
    Open (H:=xxhash_example) (H0:=zstd_example) CodecZstd HashXXH64 (sl_Preamble s) (sl_Stored s) = Ok raw.
Proof.
  destruct (EncodeRawBlock example_raw_records) as [raw|] eqn:E; [|vm_compute in E; discriminate].
  vm_compute in E. injection E as <-.
  match goal with |- ∃ raw s, Ok ?r = _ ∧ _ => exists r end.
  match goal with |- ∃ s, _ ∧ ?S = Ok s ∧ _ => destruct S as [s|] eqn:ES; [|vm_compute in ES; discriminate] end.
  exists s. split; [reflexivity|]. split; [reflexivity|].
  apply (seal_then_open (H:=xxhash_example) (H0:=zstd_example) CodecZstd HashXXH64 _
           (block_meta 7 example_raw_records) true s); [|exact ES].
  repeat split; vm_compute; discriminate.
Defined.

Lemma block_pipeline_witness :
  ∃ raw, EncodeRawBlock example_raw_records = Ok raw ∧
  ∃ s, Seal (H:=xxhash_example) (H0:=zstd_example) CodecZstd HashCRC32C raw (block_meta 7 example_raw_records) = Ok s ∧
    (raw' ← Open (H:=xxhash_example) (H0:=zstd_example) CodecZstd HashCRC32C (sl_Preamble s) (sl_Stored s);
     DecodeRawBlock raw' (sl_Preamble s)) = Ok (number 7 example_raw_records).
Proof.
  destruct (EncodeRawBlock example_raw_records) as [raw|] eqn:E; [|vm_compute in E; discriminate].
  exists raw. split; [reflexivity|].
  destruct (block_pipeline (H:=xxhash_example) (H0:=zstd_example) CodecZstd HashCRC32C 7 example_raw_records raw)
    as [_ HP]; [split; vm_compute; discriminate | vm_compute; discriminate
               | repeat constructor; vm_compute; discriminate | reflexivity | exact E |].
  vm_compute in E. injection E as <-.
  match goal with |- ∃ s, ?S = Ok s ∧ _ => destruct S as [s|] eqn:ES; [|vm_compute in ES; discriminate] end.
  exists s. split; [reflexivity|]. apply HP. reflexivity.
Defined.
