(* ===== verification/Ranges.v ===== *)
(** * Contiguous ranges

    Segments, leaf entries, index entries and the roots of a catalog head all
    describe a range of LSNs and a range of timestamps.  The class [Ranged]
    gives the common view; [chain] says that a list of them is contiguous in
    LSN and ordered in time.  The specification functions [at_lsn], [from_lsn]
    and [from_ts] are what the catalogs' binary searches must compute, and the
    lemmas here prove that [sort.Search] on a chain does compute them. *)
From S2P Require Import Prelude.

Class Ranged (A : Type) := {
  lo : A → Z;
  hi : A → Z;
  tmin : A → Z;
  tmax : A → Z;
}.

Section ranges.
Context {A : Type} `{Ranged A}.
Implicit Types (l k : list A) (a b : A) (x t : Z).

Definition range_ok a : Prop := lo a ≤ hi a ∧ tmin a ≤ tmax a.
Definition adjacent a b : Prop := lo b = hi a + 1 ∧ tmax a ≤ tmin b.
Definition chain l : Prop := Sorted adjacent l ∧ Forall range_ok l.

(** The first element at or after LSN [x], the element holding [x], and the
    first element whose timestamps reach [t]. *)
Definition from_lsn x l : list A := List.filter (λ a, x <=? hi a) l.
Definition at_lsn x l : option A := List.find (λ a, (lo a <=? x) && (x <=? hi a)) l.
Definition from_ts t l : option A := List.find (λ a, t <=? tmax a) l.

Lemma chain_nil : chain [].
Proof. split; constructor. Qed.

Lemma chain_cons a l :
  chain (a :: l) ↔ range_ok a ∧ chain l ∧ (∀ b, head l = Some b → adjacent a b).
Proof.
  unfold chain. rewrite Forall_cons. split.
  - intros [[Hs Hh]%Sorted_inv [Ha Hl]]. split_and!; try done. intros b Hb.
    destruct l; cbn in Hb; [done|]. injection Hb as ->. by apply HdRel_inv in Hh.
  - intros (Ha & [Hs Hl] & Hh). split; [|done]. constructor; [done|].
    destruct l; constructor. by apply Hh.
Qed.

Lemma chain_app l k :
  chain (l ++ k) ↔ chain l ∧ chain k ∧
  (∀ a b, last l = Some a → head k = Some b → adjacent a b).
Proof.
  induction l as [|a l IH].
  - cbn. split; [intros; split_and!; auto using chain_nil; done | by intros (_ & ? & _)].
  - cbn [app]. rewrite !chain_cons, IH. destruct l as [|b l].
    + cbn [app last head]. split.
      * intros (Ha & (_ & Hk & _) & Hh). split_and!; auto using chain_nil; [done|]. intros ? ? [= <-]. auto.
      * intros ((Ha & _ & _) & Hk & Hh). split_and!; auto using chain_nil; done.
    + cbn [app head]. rewrite (last_List_last a), List_last_cons, (last_List_last b).
      split; intros; typed_fields; split_and!; auto.
Qed.

Lemma chain_snoc l a :
  chain (l ++ [a]) ↔ chain l ∧ range_ok a ∧ (∀ b, last l = Some b → adjacent b a).
Proof.
  rewrite chain_app, chain_cons. cbn. split.
  - intros (Hl & (Ha & _) & Hh). split_and!; auto.
  - intros (Hl & Ha & Hh). split_and!; auto using chain_nil; [done|]. intros ? ? ? [= <-]. auto.
Qed.

Lemma chain_drop n l : chain l → chain (drop n l).
Proof. rewrite <- (take_drop n l) at 1. intros (_ & ? & _)%chain_app. done. Qed.
Lemma chain_take n l : chain l → chain (take n l).
Proof. rewrite <- (take_drop n l) at 1. intros (? & _)%chain_app. done. Qed.

(** Along a chain, ranges are strictly ordered. *)
Lemma chain_head_lt a l b : chain (a :: l) → b ∈ l → hi a < lo b ∧ tmax a ≤ tmin b.
Proof.
  revert a; induction l as [|c l IH]; intros a Hc Hb; [by apply elem_of_nil in Hb|].
  apply chain_cons in Hc as (Ha & Hc & Hh). specialize (Hh c eq_refl) as [Hlo Hts].
  apply elem_of_cons in Hb as [->|Hb]; [lia|].
  destruct (IH c Hc Hb). apply chain_cons in Hc as ([? ?] & _). lia.
Qed.

Lemma chain_lt l i j a b :
  chain l → l !! i = Some a → l !! j = Some b → (i < j)%nat → hi a < lo b ∧ tmax a ≤ tmin b.
Proof.
  intros Hc Hi Hj Hij. apply (chain_drop i) in Hc.
  rewrite (drop_S l a i Hi) in Hc. eapply chain_head_lt; [exact Hc|].
  apply (list_elem_of_lookup_2 _ (j - S i)). rewrite lookup_drop. by replace (S i + (j - S i))%nat with j by lia.
Qed.

Lemma chain_range_ok l a : chain l → a ∈ l → range_ok a.
Proof. intros [_ Hl] Ha. by apply (proj1 (Forall_forall _ _) Hl). Qed.

(** Every element lies between the two ends. *)
Lemma chain_within a l i b :
  chain (a :: l) → (a :: l) !! i = Some b → lo a ≤ lo b ∧ hi b ≤ hi (List.last l a).
Proof.
  intros Hc Hi. pose proof (last_List_last a l) as Hz. rewrite last_lookup in Hz. pose proof (lookup_lt_Some _ _ _ Hi).
  pose proof (chain_range_ok _ a Hc ltac:(left)) as [? ?].
  pose proof (chain_range_ok _ b Hc ltac:(by eapply list_elem_of_lookup_2)) as [? ?].
  pose proof (chain_range_ok _ (List.last l a) Hc ltac:(by eapply list_elem_of_lookup_2)) as [? ?]. split.
  - destruct i as [|i]; [cbn in Hi; simplify_eq; lia|]. destruct (chain_lt _ 0 (S i) a b Hc eq_refl Hi ltac:(lia)). lia.
  - destruct (decide (i = Nat.pred (length (a :: l)))) as [->|]; [rewrite Hz in Hi; injection Hi as ->; lia|].
    destruct (chain_lt _ i _ b _ Hc Hi Hz ltac:(cbn in *; lia)). lia.
Qed.

Lemma chain_tmax a l i b : chain (a :: l) → (a :: l) !! i = Some b → tmax b ≤ tmax (List.last l a).
Proof.
  intros Hc Hi. pose proof (last_List_last a l) as Hz. rewrite last_lookup in Hz. pose proof (lookup_lt_Some _ _ _ Hi).
  pose proof (chain_range_ok _ (List.last l a) Hc ltac:(by eapply list_elem_of_lookup_2)) as [? ?].
  destruct (decide (i = Nat.pred (length (a :: l)))) as [->|]; [rewrite Hz in Hi; injection Hi as ->; lia|].
  destruct (chain_lt _ i _ b _ Hc Hi Hz ltac:(cbn in *; lia)). lia.
Qed.

(** A weight bounded by each element's span is bounded by the span of the chain. *)
Lemma chain_sum (w : A → Z) a l :
  chain (a :: l) → Forall (λ b, w b ≤ hi b - lo b + 1) (a :: l) → sumZ w (a :: l) ≤ hi (List.last l a) - lo a + 1.
Proof.
  revert a; induction l as [|b l IH]; intros a Hc HF.
  - apply Forall_cons in HF as [Ha _]. cbn. lia.
  - rewrite List_last_cons. apply chain_cons in Hc as (_ & Hc & Hh). destruct (Hh b eq_refl) as [Hb _].
    apply Forall_cons in HF as [Ha HF]. specialize (IH b Hc HF).
    change (sumZ w (a :: b :: l)) with (w a + sumZ w (b :: l)). lia.
Qed.

(** ** The two predicates the catalogs search for switch once *)
Lemma chain_switches_hi x l : chain l → switches (λ a, x <=? hi a) l.
Proof.
  intros Hc i j a b Hij Hi Hj Ha. apply Z.leb_le in Ha. apply Z.leb_le.
  destruct (decide (i = j)) as [->|]; [congruence|].
  destruct (chain_lt l i j a b Hc Hi Hj ltac:(lia)).
  pose proof (chain_range_ok l b Hc ltac:(by eapply list_elem_of_lookup_2)) as [? ?]. lia.
Qed.
Lemma chain_switches_ts t l : chain l → switches (λ a, t <=? tmax a) l.
Proof.
  intros Hc i j a b Hij Hi Hj Ha. apply Z.leb_le in Ha. apply Z.leb_le.
  destruct (decide (i = j)) as [->|]; [congruence|].
  destruct (chain_lt l i j a b Hc Hi Hj ltac:(lia)).
  pose proof (chain_range_ok l b Hc ltac:(by eapply list_elem_of_lookup_2)) as [? ?]. lia.
Qed.
End ranges.

(** When the predicate switches once, [sort.Search] splits the slice into what
    [filter] keeps and what it drops. *)
Lemma search_filter {A} (p : A → bool) l : switches p l → drop (search p l) l = List.filter p l.
Proof.
  intros Hs. destruct (search_spec p l Hs) as (_ & Hf & Ht).
  rewrite <- (take_drop (search p l) l) at 3. rewrite List.filter_app.
  replace (List.filter p (take (search p l) l)) with (@nil A).
  - symmetry. cbn [app]. apply List.forallb_filter_id. apply List.forallb_forall.
    intros a Ha. rewrite List.Forall_forall in Ht. auto.
  - symmetry. induction Hf; [done|]. cbn. by rewrite H.
Qed.

Lemma search_find {A} (p : A → bool) l : switches p l → l !! search p l = List.find p l.
Proof.
  intros Hs. rewrite <- (Nat.add_0_r (search p l)), <- lookup_drop, search_filter by done.
  clear Hs. induction l as [|a l IH]; [done|]. cbn. by destruct (p a).
Qed.

Lemma search_end {A} (p : A → bool) l :
  switches p l → (search p l =? length l)%nat = true ↔ List.filter p l = [].
Proof.
  intros Hs. rewrite <- search_filter by done. destruct (search_spec p l Hs) as (Hl & _ & _).
  rewrite Nat.eqb_eq. split; [intros ->; apply drop_all|].
  intros E. apply (f_equal length) in E. rewrite length_drop in E. cbn in E. lia.
Qed.

Section search_ranges.
Context {A : Type} `{Ranged A}.
Implicit Types (l : list A) (x t : Z).

Lemma search_from_lsn x l : chain l → drop (search (λ a, x <=? hi a) l) l = from_lsn x l.
Proof. intros. by apply search_filter, chain_switches_hi. Qed.

Lemma search_from_ts t l : chain l → l !! search (λ a, t <=? tmax a) l = from_ts t l.
Proof. intros. by apply search_find, chain_switches_ts. Qed.

Lemma search_hi_lookup x l : chain l → l !! search (λ a, x <=? hi a) l = head (from_lsn x l).
Proof. intros. rewrite <- search_from_lsn by done. rewrite head_lookup, lookup_drop. f_equal. lia. Qed.

(** The element found by its upper end holds [x] exactly when it starts at or
    before it. *)
Lemma at_lsn_from x l :
  chain l → at_lsn x l = match head (from_lsn x l) with
                         | Some a => if lo a <=? x then Some a else None
                         | None => None
                         end.
Proof.
  intros Hc. unfold at_lsn, from_lsn. induction l as [|a l IH]; [done|]. cbn [List.find List.filter].
  pose proof (proj1 (chain_cons a l) Hc) as (Ha & Hl & _).
  destruct (Z.leb_spec x (hi a)) as [Hx|Hx]; cbn [head].
  - destruct (Z.leb_spec (lo a) x); cbn [andb]; [done|].
    destruct (List.find _ l) as [b|] eqn:E; [|done].
    apply List.find_some in E as [Hb E]. apply andb_true_iff in E as [E _]. apply Z.leb_le in E.
    destruct (chain_head_lt a l b Hc ltac:(by apply list_elem_of_In)). lia.
  - rewrite andb_false_r. by apply IH.
Qed.

Lemma chain_from_lsn x l : chain l → chain (from_lsn x l).
Proof. intros. rewrite <- search_from_lsn by done. by apply chain_drop. Qed.

(** Every LSN between the two ends of a chain is held by an element. *)
Lemma chain_cover l a b x :
  chain l → head l = Some a → last l = Some b → lo a ≤ x ≤ hi b → is_Some (at_lsn x l).
Proof.
  unfold at_lsn. revert a; induction l as [|c l IH]; intros a Hc Ha Hb Hx; [done|].
  injection Ha as ->. cbn [List.find]. pose proof (proj1 (chain_cons a l) Hc) as (_ & Hl & Hh).
  destruct (Z.leb_spec (lo a) x), (Z.leb_spec x (hi a)); cbn [andb]; try done; [|lia..].
  destruct l as [|c l]; [injection Hb as <-; lia|].
  destruct (Hh c eq_refl). apply (IH c); [done..|]. split; [lia|]. lia.
Qed.

Lemma at_lsn_Some l x a : chain l → at_lsn x l = Some a ↔ a ∈ l ∧ lo a ≤ x ≤ hi a.
Proof.
  intros Hc. unfold at_lsn. split.
  - intros [Hin E]%List.find_some. apply andb_true_iff in E as [?%Z.leb_le ?%Z.leb_le].
    split; [by apply list_elem_of_In | lia].
  - intros [Hin Hx]. apply list_elem_of_lookup_1 in Hin as [i Hi].
    revert i Hi; induction l as [|c l IH]; intros i Hi; [done|]. cbn [List.find].
    pose proof (proj1 (chain_cons c l) Hc) as (_ & Hl & _).
    destruct i as [|i]; cbn in Hi.
    + injection Hi as ->. rewrite !(proj2 (Z.leb_le _ _)) by lia. done.
    + destruct (chain_head_lt c l a Hc ltac:(by eapply list_elem_of_lookup_2)).
      pose proof (chain_range_ok _ c Hc ltac:(left)) as [? ?].
      rewrite (proj2 (Z.leb_gt x (hi c))), andb_false_r by lia. eauto.
Qed.
End search_ranges.

(** ** Expansion

    A range that stands for a list of finer ranges: a reference to a page and
    the entries of the page, a root of a head and the segments below it. *)
Lemma find_app {A} (p : A → bool) l k :
  List.find p (l ++ k) = match List.find p l with Some a => Some a | None => List.find p k end.
Proof. induction l as [|a l IH]; [done|]. cbn. by destruct (p a). Qed.
Lemma find_split {A} (p : A → bool) l a :
  List.find p l = Some a → ∃ l1 l2, l = l1 ++ a :: l2 ∧ (∀ b, b ∈ l1 → p b = false) ∧ p a = true.
Proof.
  induction l as [|b l IH]; [done|]. cbn. destruct (p b) eqn:E.
  - intros [= <-]. exists [], l. split_and!; [done| |done]. by intros b' ?%elem_of_nil.
  - intros (l1 & l2 & -> & Hl & Ha)%IH. exists (b :: l1), l2. split_and!; [done| |done].
    intros b' [->|?]%elem_of_cons; auto.
Qed.
Lemma find_None_iff {A} (p : A → bool) l : List.find p l = None ↔ ∀ a, a ∈ l → p a = false.
Proof.
  split; [intros Hf a Ha; eapply List.find_none; [exact Hf|]; by apply list_elem_of_In|].
  intros Hf. destruct (List.find p l) as [a|] eqn:E; [|done]. apply List.find_some in E as [Ha E].
  rewrite Hf in E; [done|]. by apply list_elem_of_In.
Qed.

Lemma sumZ_const {A} (l : list A) : sumZ (λ _, 1) l = len l.
Proof. unfold len. induction l as [|a l IH]; [done|]. cbn [sumZ length]. lia. Qed.

Section expand.
Context {A B : Type} `{Ranged A} `{Ranged B}.
Implicit Types (a : A) (b : B) (xs : list A) (l : list B) (ls : list (list B)).

Definition expands a l : Prop :=
  chain l ∧ lo <$> head l = Some (lo a) ∧ hi <$> last l = Some (hi a) ∧
  tmin <$> head l = Some (tmin a) ∧ tmax <$> last l = Some (tmax a).

Lemma expands_nonempty a l : expands a l → ∃ b k, l = b :: k.
Proof. intros (_ & Hh & _). destruct l as [|b k]; [done|eauto]. Qed.

Lemma expands_bounds a l b :
  expands a l → b ∈ l → lo a ≤ lo b ∧ hi b ≤ hi a ∧ tmin a ≤ tmin b ∧ tmax b ≤ tmax a.
Proof.
  intros (Hc & Hlo & Hhi & Hmin & Hmax) Hb. destruct l as [|b0 k]; [by apply elem_of_nil in Hb|].
  cbn [head fmap option_fmap option_map] in *. injection Hlo as Hlo. injection Hmin as Hmin.
  destruct (last (b0 :: k)) as [z|] eqn:Hz; [|done]. cbn in Hhi, Hmax. injection Hhi as Hhi. injection Hmax as Hmax.
  rewrite last_lookup in Hz. apply list_elem_of_lookup_1 in Hb as [i Hi].
  pose proof (lookup_lt_Some _ _ _ Hi) as Hlt. pose proof (chain_range_ok _ b Hc ltac:(by eapply list_elem_of_lookup_2)) as [? ?].
  assert (lo a ≤ lo b ∧ tmin a ≤ tmin b).
  { destruct i as [|i]; [cbn in Hi; simplify_eq; lia|].
    destruct (chain_lt _ 0 (S i) b0 b Hc eq_refl Hi ltac:(lia)).
    pose proof (chain_range_ok _ b0 Hc ltac:(left)) as [? ?]. lia. }
  assert (hi b ≤ hi a ∧ tmax b ≤ tmax a); [|lia].
  destruct (decide (i = Nat.pred (length (b0 :: k)))) as [->|]; [rewrite Hz in Hi; simplify_eq; lia|].
  destruct (chain_lt _ i _ b z Hc Hi Hz ltac:(cbn in *; lia)).
  pose proof (chain_range_ok _ z Hc ltac:(by eapply list_elem_of_lookup_2)) as [? ?]. lia.
Qed.

Lemma expands_ends xs ls :
  Forall2 expands xs ls →
  lo <$> head (concat ls) = lo <$> head xs ∧ hi <$> last (concat ls) = hi <$> last xs ∧
  tmin <$> head (concat ls) = tmin <$> head xs ∧ tmax <$> last (concat ls) = tmax <$> last xs.
Proof.
  induction 1 as [|a l xs ls Ha HF IH]; [done|]. destruct (expands_nonempty a l Ha) as (b & k & ->).
  destruct Ha as (_ & Hlo & Hhi & Hmin & Hmax). cbn [concat app head] in *.
  destruct IH as (_ & IHhi & _ & IHmax). change (b :: k ++ concat ls) with ((b :: k) ++ concat ls).
  rewrite last_app. destruct HF as [|a' l' xs ls Ha' HF].
  - cbn [concat last]. by rewrite Hhi, Hmax.
  - change (last (a :: a' :: xs)) with (last (a' :: xs)). rewrite <- IHhi, <- IHmax.
    destruct (last (concat (l' :: ls))) as [y|]; [by split_and!|].
    rewrite last_List_last in IHhi. discriminate.
Qed.

Lemma expands_chain xs ls : chain xs → Forall2 expands xs ls → chain (concat ls).
Proof.
  intros Hc HF. induction HF as [|a l xs ls Ha HF IH]; [apply chain_nil|].
  apply chain_cons in Hc as (_ & Hc & Hadj). cbn [concat]. apply chain_app. split_and!; [apply Ha|by apply IH|].
  intros b b' Hb Hb'. destruct Ha as (_ & _ & Hhi & _ & Hmax). rewrite Hb in *. cbn in Hhi, Hmax.
  injection Hhi as Hhi. injection Hmax as Hmax.
  destruct (expands_ends xs ls HF) as (Elo & _ & Emin & _). rewrite Hb' in *.
  destruct xs as [|a' xs]; [by inversion HF; subst|]. cbn in Elo, Emin. injection Elo as Elo. injection Emin as Emin.
  destruct (Hadj a' eq_refl). split; lia.
Qed.

(** A list of ranges that stand for the pieces of a chain is a chain. *)
Lemma expands_chain_inv xs ls : Forall2 expands xs ls → chain (concat ls) → chain xs.
Proof.
  induction 1 as [|a l xs ls Ha HF IH]; intros Hc; [apply chain_nil|]. cbn [concat] in Hc.
  apply chain_app in Hc as (_ & Hc & Hadj). apply chain_cons.
  destruct (expands_nonempty a l Ha) as (b & k & El). destruct (expands_bounds a l b Ha ltac:(subst; left)) as (? & ? & ? & ?).
  split; [|split; [by apply IH|]].
  - destruct Ha as (Hcl & _). destruct (chain_range_ok l b Hcl ltac:(subst; left)). split; lia.
  - intros a' Ha'. destruct HF as [|a0 l0 xs ls Ha0 HF]; [done|]. injection Ha' as ->.
    destruct (expands_nonempty a' l0 Ha0) as (b' & k' & ->). destruct Ha0 as (_ & Hlo & _ & Hmin & _).
    destruct Ha as (_ & _ & Hhi & _ & Hmax). destruct (last l) as [z|]; [|done].
    destruct (Hadj z b' eq_refl eq_refl). cbn in Hlo, Hhi, Hmin, Hmax. simplify_eq. split; lia.
Qed.

(** Searching the coarse list and then the chosen element's list is searching
    the fine list. *)
Lemma expands_split xs ls a (p : A → bool) :
  Forall2 expands xs ls → List.find p xs = Some a →
  ∃ ls1 l ls2, ls = ls1 ++ l :: ls2 ∧ xs !! length ls1 = Some a ∧ expands a l ∧ p a = true ∧
    ∀ b, b ∈ concat ls1 → ∃ a', p a' = false ∧ tmax b ≤ tmax a'.
Proof.
  intros HF (xs1 & xs2 & -> & Hn & Ha)%find_split.
  apply Forall2_app_inv_l in HF as (ls1 & ls' & H1 & H2 & ->). inversion H2 as [|? l ? ls2 He _]; subst.
  exists ls1, l, ls2. split; [done|].
  split; [by rewrite <- (Forall2_length _ _ _ H1), list_lookup_middle|]. split; [done|]. split; [done|]. intros b Hb. clear H2 Ha He.
  revert Hn; induction H1 as [|a' l' xs1 ls1 He' H1 IH]; intros Hn; cbn in Hb; [by apply elem_of_nil in Hb|].
  apply elem_of_app in Hb as [Hb|Hb].
  - exists a'. split; [apply Hn; by left|]. by destruct (expands_bounds a' l' b He' Hb) as (_ & _ & _ & ?).
  - apply IH; [done|]. intros. apply Hn. by right.
Qed.

Lemma Forall2_concat_elem xs ls b :
  Forall2 expands xs ls → b ∈ concat ls → ∃ a, a ∈ xs ∧ lo a ≤ lo b ∧ hi b ≤ hi a ∧ tmax b ≤ tmax a.
Proof.
  induction 1 as [|a l xs ls Ha HF IH]; cbn; [by intros ?%elem_of_nil|].
  intros [Hb|Hb]%elem_of_app.
  - exists a. destruct (expands_bounds a l b Ha Hb) as (? & ? & _ & ?). split; [by left|done].
  - destruct (IH Hb) as (a' & ? & ?). exists a'. split; [by right|done].
Qed.

Lemma at_lsn_expand xs ls a x :
  chain xs → Forall2 expands xs ls → at_lsn x xs = Some a →
  ∃ i l, xs !! i = Some a ∧ ls !! i = Some l ∧ at_lsn x (concat ls) = at_lsn x l ∧ is_Some (at_lsn x l).
Proof.
  intros Hc HF Ha. pose proof (expands_chain xs ls Hc HF) as HC.
  apply at_lsn_Some in Ha as [Hin Hx]; [|done]. apply list_elem_of_lookup_1 in Hin as [i Hi].
  destruct (Forall2_lookup_l _ _ _ _ _ HF Hi) as (l & Hl & He). exists i, l.
  assert (Hil : l ∈ ls) by (by eapply list_elem_of_lookup_2).
  destruct (expands_nonempty a l He) as (b0 & k & El). pose proof He as (Hcl & Hlo & Hhi & _).
  assert (Hs : is_Some (at_lsn x l)).
  { rewrite El in *. eapply (chain_cover _ b0 (List.last k b0)); [done|done|apply last_List_last|].
    rewrite last_List_last in Hhi. cbn in Hlo, Hhi. simplify_eq. lia. }
  split_and!; try done. destruct Hs as [b Hb]. rewrite Hb. apply at_lsn_Some in Hb as [Hb Hbx]; [|done].
  apply at_lsn_Some; [done|]. split; [|done]. apply list_elem_of_In, in_concat.
  exists l. split; by apply list_elem_of_In.
Qed.

Lemma at_lsn_expand_None xs ls x :
  chain xs → Forall2 expands xs ls → at_lsn x xs = None → at_lsn x (concat ls) = None.
Proof.
  intros Hc HF Hn. destruct (at_lsn x (concat ls)) as [b|] eqn:E; [|done].
  apply at_lsn_Some in E as [Hb Hx]; [|by eapply expands_chain].
  destruct (Forall2_concat_elem xs ls b HF Hb) as (a & Ha & ? & ? & _).
  rewrite (proj2 (at_lsn_Some xs x a Hc)) in Hn; [done|]. split; [done|lia].
Qed.

Lemma from_ts_expand xs ls a t :
  Forall2 expands xs ls → from_ts t xs = Some a →
  ∃ i l, xs !! i = Some a ∧ ls !! i = Some l ∧ from_ts t (concat ls) = from_ts t l ∧ is_Some (from_ts t l).
Proof.
  intros HF Ha. destruct (expands_split xs ls a _ HF Ha) as (ls1 & l & ls2 & -> & Hi & He & Ht & Hp).
  exists (length ls1), l. split; [done|]. split; [by apply list_lookup_middle|]. apply Z.leb_le in Ht.
  assert (Hs : is_Some (from_ts t l)).
  { unfold from_ts. destruct (List.find _ l) as [b|] eqn:E; [done|]. exfalso.
    destruct He as (_ & _ & _ & _ & Hmax). destruct (last l) as [z|] eqn:Ez; [|done]. injection Hmax as Hmax.
    assert (Hz : z ∈ l) by (rewrite last_lookup in Ez; by eapply list_elem_of_lookup_2).
    pose proof (proj1 (find_None_iff _ _) E z Hz) as E'. apply Z.leb_gt in E'. lia. }
  split; [|done]. destruct Hs as [b Hb]. unfold from_ts in *. rewrite concat_app, find_app.
  rewrite (proj2 (find_None_iff _ _)); [cbn [concat]; by rewrite find_app, Hb|].
  intros b' Hb'. destruct (Hp b' Hb') as (a' & Ha' & ?). apply Z.leb_gt in Ha'. apply Z.leb_gt. lia.
Qed.

Lemma from_ts_expand_None xs ls t :
  Forall2 expands xs ls → from_ts t xs = None → from_ts t (concat ls) = None.
Proof.
  intros HF Hn. apply find_None_iff. intros b Hb. destruct (Forall2_concat_elem xs ls b HF Hb) as (a & Ha & _ & _ & ?).
  pose proof (proj1 (find_None_iff _ _) Hn a Ha) as E. apply Z.leb_gt in E. apply Z.leb_gt. lia.
Qed.

Lemma from_lsn_expand_nil a l x : expands a l → hi a < x → from_lsn x l = [].
Proof.
  intros He Hx. assert (Hall : ∀ b, b ∈ l → (x <=? hi b) = false).
  { intros b Hb. destruct (expands_bounds a l b He Hb) as (_ & ? & _). apply Z.leb_gt. lia. }
  unfold from_lsn. clear He. induction l as [|b l IH]; [done|]. cbn. rewrite (Hall b ltac:(left)). apply IH.
  intros. apply Hall. by right.
Qed.
End expand.

(** A range standing for the end of a chain can replace it. *)
Lemma chain_collapse {A} `{Ranged A} (l k : list A) a : chain (l ++ k) → expands a k → range_ok a → chain (l ++ [a]).
Proof.
  intros Hc (_ & Hlo & _ & Hmin & _) Hr. apply chain_app in Hc as (Hl & _ & Hadj). apply chain_snoc.
  split; [done|]. split; [done|]. intros b Hb. destruct k as [|d k]; [done|]. cbn in Hlo, Hmin.
  injection Hlo as Hlo. injection Hmin as Hmin. destruct (Hadj b d Hb eq_refl). split; lia.
Qed.
Lemma expands_range_ok {A B} `{Ranged A} `{Ranged B} (a : A) (l : list B) : expands a l → range_ok a.
Proof.
  intros He. destruct (expands_nonempty a l He) as (b & k & ->).
  destruct (expands_bounds a (b :: k) b He ltac:(left)) as (? & ? & ? & ?).
  destruct He as (Hc & _). destruct (chain_range_ok _ b Hc ltac:(left)). split; lia.
Qed.

Lemma expands_trans {A B C} `{Ranged A} `{Ranged B} `{Ranged C} (a : A) (xs : list B) (ls : list (list C)) :
  expands a xs → Forall2 expands xs ls → expands a (concat ls).
Proof.
  intros (Hc & Hlo & Hhi & Hmin & Hmax) HF. destruct (expands_ends xs ls HF) as (Elo & Ehi & Emin & Emax).
  unfold expands. rewrite Elo, Ehi, Emin, Emax. split; [exact (expands_chain xs ls Hc HF)|by split_and!].
Qed.

(** A map that keeps the ranges keeps chains and searches. *)
Section range_map.
Context {A B : Type} `{Ranged A} `{Ranged B} (f : A → B).
Context (Hlo : ∀ a, lo (f a) = lo a) (Hhi : ∀ a, hi (f a) = hi a).
Context (Hmin : ∀ a, tmin (f a) = tmin a) (Hmax : ∀ a, tmax (f a) = tmax a).

Lemma chain_map l : chain (map f l) ↔ chain l.
Proof.
  induction l as [|a l IH]; [split; intros; apply chain_nil|]. cbn [map]. rewrite !chain_cons, IH.
  unfold range_ok, adjacent. rewrite !Hlo, !Hhi, Hmin, Hmax. destruct l as [|b l]; cbn [map head].
  - split; intros (Hr & Hn & _); (split; [exact Hr|split; [exact Hn|discriminate]]).
  - split; intros (? & ? & Hb); (split; [done|split; [done|]]); intros ? [= <-]; specialize (Hb _ eq_refl);
      rewrite ?Hlo, ?Hmin, ?Hmax in *; done.
Qed.
Lemma from_lsn_map x l : from_lsn x (map f l) = map f (from_lsn x l).
Proof. unfold from_lsn. induction l as [|a l IH]; [done|]. cbn. rewrite Hhi. destruct (x <=? hi a); cbn; by rewrite IH. Qed.
Lemma at_lsn_map x l : at_lsn x (map f l) = f <$> at_lsn x l.
Proof. unfold at_lsn. induction l as [|a l IH]; [done|]. cbn. rewrite Hhi, Hlo. by destruct (_ && _). Qed.
Lemma from_ts_map t l : from_ts t (map f l) = f <$> from_ts t l.
Proof. unfold from_ts. induction l as [|a l IH]; [done|]. cbn. rewrite Hmax. by destruct (_ <=? _). Qed.
End range_map.

(** ** Cutting a chain at an LSN no element straddles *)
Section cut.
Context {A : Type} `{Ranged A}.
Implicit Types (l k : list A) (a b : A) (x : Z).

Lemma from_lsn_app x l k : from_lsn x (l ++ k) = from_lsn x l ++ from_lsn x k.
Proof. apply List.filter_app. Qed.

Lemma from_lsn_all x l : Forall (λ a, x ≤ hi a) l → from_lsn x l = l.
Proof. unfold from_lsn. induction 1 as [|a l Ha HF IH]; [done|]. cbn. by rewrite (proj2 (Z.leb_le _ _) Ha), IH. Qed.
Lemma from_lsn_none x l : Forall (λ a, hi a < x) l → from_lsn x l = [].
Proof. unfold from_lsn. induction 1 as [|a l Ha HF IH]; [done|]. cbn. by rewrite (proj2 (Z.leb_gt _ _) Ha), IH. Qed.
Lemma elem_of_from_lsn x l a : a ∈ from_lsn x l ↔ a ∈ l ∧ x ≤ hi a.
Proof. unfold from_lsn. rewrite !list_elem_of_In, List.filter_In, Z.leb_le. done. Qed.

(** Where a chain is cut, the kept part is a suffix. *)
Lemma from_lsn_split x l : chain l → ∃ k, l = k ++ from_lsn x l ∧ Forall (λ a, hi a < x) k.
Proof.
  intros Hc. exists (take (search (λ a, x <=? hi a) l) l). rewrite <- search_from_lsn, take_drop by done. split; [done|].
  destruct (search_spec _ l (chain_switches_hi x l Hc)) as (_ & Hf & _).
  apply Forall_forall. intros a Ha. apply Z.leb_gt. exact (proj1 (Forall_forall _ _) Hf a Ha).
Qed.

Lemma from_lsn_last x l : chain l → from_lsn x l ≠ [] → last (from_lsn x l) = last l.
Proof.
  intros Hc Hne. destruct (from_lsn_split x l Hc) as (k & E & _). rewrite E at 2. rewrite last_app.
  destruct (from_lsn x l) as [|a m]; [done|]. by rewrite last_List_last.
Qed.

(** No element of [l] holds both [x] and an LSN before it. *)
Definition no_straddle x l : Prop := Forall (λ a, lo a < x → hi a < x) l.

Lemma no_straddle_app x l k : no_straddle x (l ++ k) ↔ no_straddle x l ∧ no_straddle x k.
Proof. apply Forall_app. Qed.

Lemma no_straddle_base x l a : chain l → a ∈ l → lo a = x → no_straddle x l.
Proof.
  intros Hc Ha E. apply Forall_forall. intros b Hb Hlt. pose proof (chain_range_ok l a Hc Ha) as [Hr _].
  apply list_elem_of_lookup_1 in Ha as [i Hi]. apply list_elem_of_lookup_1 in Hb as [j Hj].
  destruct (Nat.lt_trichotomy i j) as [Hij|[->|Hij]].
  - destruct (chain_lt l i j a b Hc Hi Hj Hij). lia.
  - simplify_eq. lia.
  - destruct (chain_lt l j i b a Hc Hj Hi Hij). lia.
Qed.

(** The kept part of a chain that covers [x] starts at [x]. *)
Lemma from_lsn_starts x l :
  chain l → no_straddle x l → is_Some (at_lsn x l) → lo <$> head (from_lsn x l) = Some x.
Proof.
  intros Hc Hn [a Ha]. apply at_lsn_Some in Ha as [Ha Hx]; [|done]. pose proof (chain_from_lsn x l Hc) as Hc'.
  assert (Ha' : a ∈ from_lsn x l) by (apply elem_of_from_lsn; split; [done|lia]).
  destruct (from_lsn x l) as [|b m] eqn:E; [by apply elem_of_nil in Ha'|]. cbn. f_equal.
  assert (Hb : b ∈ l ∧ x ≤ hi b) by (apply elem_of_from_lsn; rewrite E; by left).
  pose proof (proj1 (Forall_forall _ _) Hn b (proj1 Hb)) as Hs; cbv beta in Hs. apply elem_of_cons in Ha' as [->|Ha']; [lia|].
  destruct (chain_head_lt b m a Hc' Ha'). lia.
Qed.

Lemma chain_apart l k a b : chain (l ++ k) → a ∈ l → b ∈ k → hi a < lo b.
Proof.
  intros Hc Ha Hb. apply list_elem_of_lookup_1 in Ha as [i Hi]. apply list_elem_of_lookup_1 in Hb as [j Hj].
  pose proof (lookup_lt_Some _ _ _ Hi).
  assert (Hi' : (l ++ k) !! i = Some a) by (by apply lookup_app_l_Some).
  assert (Hj' : (l ++ k) !! (length l + j)%nat = Some b).
  { rewrite lookup_app_r by lia. by replace (length l + j - length l)%nat with j by lia. }
  by destruct (chain_lt (l ++ k) i (length l + j) a b Hc Hi' Hj' ltac:(lia)).
Qed.
End cut.

Section expand_cut.
Context {A B : Type} `{Ranged A} `{Ranged B}.
Implicit Types (a : A) (b : B) (xs : list A) (l : list B) (ls : list (list B)).

(** Cutting the coarse list leaves whole elements after the first kept one, which
    alone may have to be cut. *)
Lemma from_lsn_expand (R : A → list B → Prop) x xs ls :
  (∀ a l, R a l → expands a l) → chain xs → Forall2 R xs ls →
  match from_lsn x xs with
  | [] => from_lsn x (concat ls) = []
  | a :: rest => ∃ l lrest, R a l ∧ Forall2 R rest lrest ∧ l ∈ ls ∧ x ≤ hi a ∧
                   from_lsn x (concat ls) = from_lsn x l ++ concat lrest
  end.
Proof.
  intros HR Hc HF. destruct (from_lsn_split x xs Hc) as (k & E & Hk).
  assert (HF' : Forall2 R (k ++ from_lsn x xs) ls) by (by rewrite <- E).
  apply Forall2_app_inv_l in HF' as (ls1 & ls2 & H1 & H2 & ->). rewrite concat_app, from_lsn_app.
  assert (Hz : from_lsn x (concat ls1) = []).
  { clear -HR Hk H1. induction H1 as [|a l k ls1 Ha H1 IH]; [done|]. apply Forall_cons in Hk as [Hak Hk].
    cbn [concat]. rewrite from_lsn_app, IH by done. by rewrite (from_lsn_expand_nil a l x (HR _ _ Ha) Hak). }
  rewrite Hz. cbn [app]. pose proof (chain_from_lsn x xs Hc) as Hc'.
  assert (Hin : ∀ a, a ∈ from_lsn x xs → x ≤ hi a) by (intros a Ha; by apply elem_of_from_lsn in Ha as [_ ?]).
  destruct H2 as [|a l rest lrest Ha H2]; [done|].
  exists l, lrest. split; [done|]. split; [done|]. split; [apply elem_of_app; right; by left|].
  specialize (Hin a ltac:(left)). split; [done|]. cbn [concat]. rewrite from_lsn_app. f_equal. apply from_lsn_all.
  apply Forall_forall. intros b Hb.
  destruct (Forall2_concat_elem rest lrest b) as (a' & Ha' & Hlo & Hhi & _);
    [eapply Forall2_impl; [exact H2|]; exact HR|done|].
  destruct (chain_head_lt a rest a' Hc' Ha') as [Hlt _].
  assert (Hcl : chain (concat lrest)).
  { apply (expands_chain rest); [by apply chain_cons in Hc' as (_ & ? & _)|eapply Forall2_impl; [exact H2|]; exact HR]. }
  destruct (chain_range_ok _ b Hcl Hb). lia.
Qed.

Lemma expands_at_lsn a l x : expands a l → lo a ≤ x ≤ hi a → is_Some (at_lsn x l).
Proof.
  intros He Hx. destruct (expands_nonempty a l He) as (b & k & ->). destruct He as (Hc & Hlo & Hhi & _).
  rewrite last_List_last in Hhi. cbn in Hlo, Hhi. eapply chain_cover; [done|done|apply last_List_last|]. simplify_eq. lia.
Qed.
End expand_cut.
