(* ===== verification/PMeta.v ===== *)
(** * Partition metadata (internal/pmeta) and catalog types (internal/catalog)

    [SegmentRef] and [PartitionHead] of pmeta/types.go, the requests and
    validation functions of catalog/types.go, and the abstract specification
    every catalog implements: a partition's history is a [chain] of segment
    references, and the reads are [from_lsn], [at_lsn] and [from_ts] on it. *)
From S2P Require Import Prelude Hash SegFormat Ranges.

(** A Go string is its bytes. *)
Abbreviation gostring := (list byte).

(** ** pmeta/types.go *)
Definition DefaultSegmentPageLimit : Z := 128.
Definition MaxSegmentPageLimit : Z := 1024.

Record SegmentRef := mkSegmentRef {
  sr_URI : gostring; sr_StreamID : gostring; sr_Partition : Z; sr_WriterEpoch : Z;
  sr_SegmentUUID : list byte; sr_WriterTag : list byte; sr_BaseLSN : Z; sr_LastLSN : Z;
  sr_MinTimestampMS : Z; sr_MaxTimestampMS : Z; sr_RecordCount : Z; sr_BlockCount : Z;
  sr_SizeBytes : Z; sr_BlockIndexOffset : Z; sr_BlockIndexLength : Z; sr_Codec : Z;
  sr_HashAlgo : Z; sr_SegmentHash : Z; sr_TrailerHash : Z }.

#[export] Instance SegmentRef_eq_dec : EqDecision SegmentRef.
Proof. solve_decision. Defined.

(** The zero value [SegmentRef{}]. *)
Definition zero_SegmentRef : SegmentRef :=
  mkSegmentRef [] [] 0 0 (zeros 16) (zeros 16) 0 0 0 0 0 0 0 0 0 0 0 0 0.

Definition SegmentRef_typed (s : SegmentRef) : Prop :=
  is_u32 (sr_Partition s) ∧ is_u64 (sr_WriterEpoch s) ∧ length (sr_SegmentUUID s) = 16%nat ∧
  length (sr_WriterTag s) = 16%nat ∧ is_u64 (sr_BaseLSN s) ∧ is_u64 (sr_LastLSN s) ∧
  is_i64 (sr_MinTimestampMS s) ∧ is_i64 (sr_MaxTimestampMS s) ∧ is_u32 (sr_RecordCount s) ∧
  is_u32 (sr_BlockCount s) ∧ is_u64 (sr_SizeBytes s) ∧ is_u64 (sr_BlockIndexOffset s) ∧
  is_u32 (sr_BlockIndexLength s) ∧ is_u16 (sr_Codec s) ∧ is_u16 (sr_HashAlgo s) ∧
  is_u64 (sr_SegmentHash s) ∧ is_u64 (sr_TrailerHash s).

#[export] Instance SegmentRef_Ranged : Ranged SegmentRef := {|
  lo := sr_BaseLSN; hi := sr_LastLSN; tmin := sr_MinTimestampMS; tmax := sr_MaxTimestampMS |}.

(** [SegmentRef.Validate]: the errors of package pmeta carry no sentinel, except
    the wrapped codec and hash errors. *)
Definition SegmentRef_Validate (s : SegmentRef) : result () :=
  fail_if bool_decide (sr_URI s = []) with [];
  fail_if sr_WriterEpoch s =? 0 with [];
  fail_if bool_decide (sr_SegmentUUID s = zeros 16) with [];
  fail_if sr_LastLSN s <? sr_BaseLSN s with [];
  fail_if MaxRecordLSN <? sr_LastLSN s with [];
  let wantRecords := uint64 (uint64 (sr_LastLSN s - sr_BaseLSN s) + 1) in
  fail_if (sr_RecordCount s =? 0) || negb (sr_RecordCount s =? wantRecords) with [];
  fail_if sr_BlockCount s =? 0 with [];
  fail_if sr_SizeBytes s =? 0 with [];
  fail_if sr_BlockIndexLength s =? 0 with [];
  fail_if sr_MaxTimestampMS s <? sr_MinTimestampMS s with [];
  _ ← Codec_Validate (sr_Codec s);
  HashAlgo_Validate (sr_HashAlgo s).

Definition SegmentRef_NextLSN (s : SegmentRef) : Z := uint64 (sr_LastLSN s + 1).

Record PartitionHead := mkPartitionHead {
  ph_StreamID : gostring; ph_Partition : Z; ph_NextLSN : Z; ph_OldestLSN : Z;
  ph_AppliedRetentionLSN : Z; ph_AppliedRetentionVersion : Z; ph_WriterEpoch : Z;
  ph_SegmentCount : Z; ph_ReachableSegmentCount : Z; ph_LastSegment : SegmentRef;
  ph_HasLastSegment : bool }.

#[export] Instance PartitionHead_eq_dec : EqDecision PartitionHead.
Proof. solve_decision. Defined.

(** [PartitionHead{StreamID: id, Partition: p}]. *)
Definition empty_head (id : gostring) (p : Z) : PartitionHead :=
  mkPartitionHead id p 0 0 0 0 0 0 0 zero_SegmentRef false.

Definition PartitionHead_Last (h : PartitionHead) : option SegmentRef :=
  if ph_HasLastSegment h then Some (ph_LastSegment h) else None.

Record SegmentPage := mkSegmentPage { sp_Segments : list SegmentRef; sp_NextLSN : Z; sp_HasMore : bool }.

(** ** catalog/types.go *)
Definition RetentionRequestVersion : Z := 1.

Record TimestampLookupRequest := mkTimestampLookupRequest { tl_Partition : Z; tl_TimestampMS : Z }.
Record TimestampLookupResult := mkTimestampLookupResult {
  tr_Head : PartitionHead; tr_Segment : SegmentRef; tr_Found : bool }.

Record RetentionRequest := mkRetentionRequest {
  rq_Version : Z; rq_PolicyVersion : Z; rq_BeforeLSN : Z; rq_CreatedUnixMS : Z }.

Definition RetentionRequest_Validate (r : RetentionRequest) : result () :=
  fail_if negb (rq_Version r =? RetentionRequestVersion) with [ErrInvalidRequest];
  fail_if rq_PolicyVersion r =? 0 with [ErrInvalidRequest];
  fail_if rq_CreatedUnixMS r <? 0 with [ErrInvalidRequest];
  Ok ().

Record RetentionApplyResult := mkRetentionApplyResult {
  ra_Head : PartitionHead; ra_Request : RetentionRequest; ra_Applied : bool }.

Record ListSegmentsRequest := mkListSegmentsRequest { ls_Partition : Z; ls_FromLSN : Z; ls_Limit : Z }.

Definition normalizedLimit (r : ListSegmentsRequest) : Z :=
  if ls_Limit r <=? 0 then DefaultSegmentPageLimit
  else if MaxSegmentPageLimit <? ls_Limit r then MaxSegmentPageLimit
  else ls_Limit r.

Definition ValidateWriterID (writerID : list byte) : result () :=
  fail_if bool_decide (writerID = zeros 16) with [ErrInvalidRequest]; Ok ().

Definition ValidateAppendSegment (streamID : gostring) (partition expectedNextLSN writerEpoch : Z)
    (segment : SegmentRef) : result () :=
  fail_if negb (bool_decide (streamID = sr_StreamID segment)) with [ErrInvalidRequest];
  fail_if negb (partition =? sr_Partition segment) with [ErrInvalidRequest];
  fail_if negb (writerEpoch =? sr_WriterEpoch segment) with [ErrInvalidRequest];
  fail_if negb (expectedNextLSN =? sr_BaseLSN segment) with [ErrConflict];
  wrap_err ErrInvalidSegment (SegmentRef_Validate segment).

(** ** Facts about valid segments *)
Lemma SegmentRef_Validate_inv s :
  SegmentRef_typed s → SegmentRef_Validate s = Ok () →
  range_ok s ∧ sr_LastLSN s ≤ MaxRecordLSN ∧ SegmentRef_NextLSN s = sr_LastLSN s + 1 ∧
  sr_RecordCount s = sr_LastLSN s - sr_BaseLSN s + 1 ∧ sr_WriterEpoch s ≠ 0.
Proof.
  intros Ht HV. unfold SegmentRef_Validate in HV. cbv zeta in HV. inv_ok. bool_to_prop.
  unfold SegmentRef_typed in Ht. unfold range_ok, SegmentRef_NextLSN; cbn [lo hi tmin tmax SegmentRef_Ranged].
  unfold MaxRecordLSN in *. unfold_widths. typed_fields.
  match goal with E : sr_RecordCount s = _ |- _ =>
    rewrite (Z.mod_small (sr_LastLSN s - sr_BaseLSN s)), Z.mod_small in E by lia end.
  rewrite Z.mod_small by lia. split_and!; lia.
Qed.

(** ** The catalog specification

    What a reader of one partition is promised, for the partition's retained
    history [segs]. *)
Definition spec_page (segs : list SegmentRef) (from : Z) (limit : nat) : SegmentPage :=
  let rest := from_lsn from segs in
  match rest !! limit with
  | Some next => {| sp_Segments := take limit rest; sp_NextLSN := sr_BaseLSN next; sp_HasMore := true |}
  | None => {| sp_Segments := rest; sp_NextLSN := 0; sp_HasMore := false |}
  end.

(** Following [NextLSN] while [HasMore], as list consumers do. *)
Fixpoint read_pages (fuel : nat) (page : Z → SegmentPage) (from : Z) : list SegmentRef :=
  match fuel with
  | O => []
  | S fuel =>
      let p := page from in
      sp_Segments p ++ (if sp_HasMore p then read_pages fuel page (sp_NextLSN p) else [])
  end.

Lemma from_lsn_suffix (l : list SegmentRef) n s :
  chain l → l !! n = Some s → from_lsn (sr_BaseLSN s) l = drop n l.
Proof.
  intros Hc Hn. rewrite <- (take_drop n l) at 1. unfold from_lsn. rewrite List.filter_app.
  replace (List.filter _ (take n l)) with (@nil SegmentRef).
  - cbn [app]. apply List.forallb_filter_id, List.forallb_forall. intros b Hb%list_elem_of_In.
    apply list_elem_of_lookup_1 in Hb as [i Hi]. rewrite lookup_drop in Hi. apply Z.leb_le.
    pose proof (chain_range_ok l b Hc ltac:(by eapply list_elem_of_lookup_2)) as [? _].
    destruct i as [|i]; [rewrite Nat.add_0_r in Hi; cbn in *; simplify_eq; lia|].
    destruct (chain_lt l n (n + S i) s b Hc Hn Hi ltac:(lia)).
    pose proof (chain_range_ok l s Hc ltac:(by eapply list_elem_of_lookup_2)) as [? _]. cbn in *. lia.
  - symmetry.
    assert (Hf : ∀ b, b ∈ take n l → (sr_BaseLSN s <=? hi b) = false).
    { intros b [i Hi]%list_elem_of_lookup_1. apply lookup_take_Some in Hi as [Hi Hlt].
      destruct (chain_lt l i n b s Hc Hi Hn Hlt). apply Z.leb_gt. cbn in *. lia. }
    induction (take n l) as [|b k IH]; [done|]. cbn [List.filter].
    rewrite (Hf b ltac:(left)). apply IH. intros c Hc'. apply Hf. by right.
Qed.

(** Paging terminates and returns the retained history from [from], whatever
    the page size. *)
Lemma read_pages_spec segs from limit fuel :
  chain segs → (0 < limit)%nat → (length (from_lsn from segs) < fuel)%nat →
  read_pages fuel (λ f, spec_page segs f limit) from = from_lsn from segs.
Proof.
  intros Hc Hlim. revert from. induction fuel as [|fuel IH]; intros from Hf; [lia|].
  cbn [read_pages]. unfold spec_page at 1 2 4. cbv zeta.
  destruct (from_lsn from segs !! limit) as [s|] eqn:E; cbn [sp_Segments sp_HasMore sp_NextLSN].
  2: by rewrite app_nil_r.
  assert (Hs : from_lsn (sr_BaseLSN s) segs = drop limit (from_lsn from segs)).
  { rewrite <- (search_from_lsn from segs Hc) in *. rewrite lookup_drop in E.
    rewrite (from_lsn_suffix segs _ s Hc E). by rewrite drop_drop. }
  pose proof (lookup_lt_Some _ _ _ E).
  rewrite IH, Hs; [apply take_drop|]. rewrite Hs, length_drop. lia.
Qed.

Lemma read_pages_ext fuel page page' from :
  (∀ f, page f = page' f) → read_pages fuel page from = read_pages fuel page' from.
Proof.
  intros E. revert from; induction fuel as [|fuel IH]; intros from; [done|].
  cbn [read_pages]. cbv zeta. rewrite E. by destruct (sp_HasMore (page' from)); [rewrite IH|].
Qed.
