(* ===== verification/KeyLayout.v ===== *)
(** * Object keys (internal/keylayout)

    Bucket hashing, stream keys and the segment object key, with the pieces of
    the Go library they use: trimming and splitting at slashes, hexadecimal and
    zero-padded decimal formatting, UTF-8 validation.  The theorems: canonical
    stream IDs are a fixed point, and two segments of one stream never share an
    object key. *)
From S2P Require Import Prelude Hash PMeta.

(** ** Strings *)
Definition str (s : string) : gostring := String.list_byte_of_string s.
Definition slash : byte := x2f.

(** [strings.TrimLeft(s, "/")], [strings.Trim(s, "/")]. *)
Fixpoint trim_left (s : gostring) : gostring :=
  match s with
  | b :: s' => if bool_decide (b = slash) then trim_left s' else s
  | [] => []
  end.
Definition trim (s : gostring) : gostring := rev (trim_left (rev (trim_left s))).

(** [strings.Split(s, "/")]. *)
Fixpoint split_slash (s : gostring) : list gostring :=
  match s with
  | [] => [[]]
  | b :: s =>
      match split_slash s with
      | part :: parts => if bool_decide (b = slash) then [] :: part :: parts else (b :: part) :: parts
      | [] => [[b]]
      end
  end.

(** [strings.Join(parts, "/")]. *)
Fixpoint join_slash (parts : list gostring) : gostring :=
  match parts with
  | [] => []
  | [p] => p
  | p :: parts => p ++ slash :: join_slash parts
  end.

(** Digits of a non-negative number, most significant first, in base 10 or 16;
    64 digits of fuel are enough for any 64-bit value. *)
Definition digit (d : Z) : byte := mk_byte (if d <? 10 then 48 + d else 87 + d).
Fixpoint digits_fuel (fuel : nat) (base z : Z) : list byte :=
  match fuel with
  | O => []
  | S fuel => if z <? base then [digit z] else digits_fuel fuel base (z / base) ++ [digit (z mod base)]
  end.
(** [fmt.Sprintf("%0<w>d", z)] and [fmt.Sprintf("%0<w>x", z)]. *)
Definition pad_zero (w : nat) (s : list byte) : list byte := replicate (w - length s) x30 ++ s.
Definition fmt_d (w : nat) (z : Z) : gostring := pad_zero w (digits_fuel 64 10 z).
Definition fmt_x (w : nat) (z : Z) : gostring := pad_zero w (digits_fuel 64 16 z).

(** [hex.EncodeToString]. *)
Definition hex (bs : list byte) : gostring :=
  concat (map (λ b, [digit (byte_val b / 16); digit (byte_val b mod 16)]) bs).

(** The runes of a string, [None] when it is not valid UTF-8: the accepted byte
    ranges of package unicode/utf8. *)
Definition cont (b : byte) : bool := (0x80 <=? byte_val b) && (byte_val b <=? 0xBF).
Definition between (a b c : Z) : bool := (a <=? b) && (b <=? c).
Fixpoint utf8_runes (s : gostring) : option (list Z) :=
  match s with
  | [] => Some []
  | b0 :: s1 =>
      let v0 := byte_val b0 in
      if v0 <? 0x80 then cons v0 <$> utf8_runes s1
      else match s1 with
      | [] => None
      | b1 :: s2 =>
          let v1 := byte_val b1 in
          if between 0xC2 v0 0xDF then
            if cont b1 then cons ((v0 - 0xC0) * 64 + (v1 - 0x80)) <$> utf8_runes s2 else None
          else match s2 with
          | [] => None
          | b2 :: s3 =>
              let v2 := byte_val b2 in
              if between 0xE0 v0 0xEF then
                if between (if v0 =? 0xE0 then 0xA0 else 0x80) v1 (if v0 =? 0xED then 0x9F else 0xBF) && cont b2
                then cons (((v0 - 0xE0) * 64 + (v1 - 0x80)) * 64 + (v2 - 0x80)) <$> utf8_runes s3 else None
              else match s3 with
              | [] => None
              | b3 :: s4 =>
                  let v3 := byte_val b3 in
                  if between 0xF0 v0 0xF4 &&
                     between (if v0 =? 0xF0 then 0x90 else 0x80) v1 (if v0 =? 0xF4 then 0x8F else 0xBF) &&
                     cont b2 && cont b3
                  then cons ((((v0 - 0xF0) * 64 + (v1 - 0x80)) * 64 + (v2 - 0x80)) * 64 + (v3 - 0x80))
                         <$> utf8_runes s4
                  else None
              end
          end
      end
  end.

(** [unicode.IsControl]: the category Cc, all of it in Latin-1. *)
Definition IsControl (r : Z) : bool := between 0 r 0x1F || between 0x7F r 0x9F.

(** ** keylayout.go *)
Definition BucketBits : Z := 12.
Definition BucketHexLen : nat := 3.
Definition BucketCount : Z := Z.shiftl 1 BucketBits.
Definition StreamKeyHexLen : nat := 64.
Definition MaxStreamIDBytes : Z := 512.
Definition bucketMask : Z := BucketCount - 1.

Definition NormalizeStreamID (streamID : gostring) : gostring := trim streamID.

(** The three [h.Write] calls hash the concatenation. *)
Definition Checksum (streamID : gostring) (partition : Z) : Z :=
  let streamID := NormalizeStreamID streamID in
  CRC32C.Checksum (be_put 4 (uint32 (len streamID)) ++ streamID ++ be_put 4 partition).

Definition Bucket (streamID : gostring) (partition : Z) : gostring :=
  fmt_x BucketHexLen (Z.land (Checksum streamID partition) bucketMask).

Definition StreamKey (streamID : gostring) : gostring :=
  hex (SHA256.Sum256 (NormalizeStreamID streamID)).

(** The loop over [strings.Split(streamID, "/")]. *)
Fixpoint check_segments (segments : list gostring) : result () :=
  match segments with
  | [] => Ok ()
  | s :: segments =>
      fail_if bool_decide (s = []) with [ErrInvalidStreamID];
      fail_if bool_decide (s = str ".") || bool_decide (s = str "..") with [ErrInvalidStreamID];
      check_segments segments
  end.

Definition CanonicalStreamID (streamID : gostring) : result gostring :=
  fail_if bool_decide (utf8_runes streamID = None) with [ErrInvalidStreamID];
  let streamID := NormalizeStreamID streamID in
  fail_if bool_decide (streamID = []) with [ErrInvalidStreamID];
  fail_if MaxStreamIDBytes <? len streamID with [ErrInvalidStreamID];
  fail_if existsb IsControl (default [] (utf8_runes streamID)) with [ErrInvalidStreamID];
  _ ← check_segments (split_slash streamID);
  Ok streamID.

(** ** segment.go *)
Definition SegmentObjectKey (dataRoot streamID : gostring) (partition baseLSN writerEpoch : Z)
    (segmentUUID : list byte) : gostring :=
  let streamID := NormalizeStreamID streamID in
  let parts := [trim dataRoot; str "segments"; Bucket streamID partition] in
  let parts := if negb (bool_decide (streamID = [])) then parts ++ [str "streams"; StreamKey streamID] else parts in
  let parts := parts ++ [str "p" ++ fmt_d 8 partition] in
  join_slash parts ++
  (str "/seg-" ++ fmt_d 20 baseLSN ++ str "-e" ++ fmt_d 20 writerEpoch ++ str "-" ++ hex segmentUUID ++ str ".plseg").

Example bucket_examples : Bucket (str "orders") 0 = Bucket (str "/orders/") 0 ∧ length (Bucket (str "orders") 0) = 3%nat.
Proof. vm_compute. done. Qed.
Example key_example :
  SegmentObjectKey (str "objlog") [] 7 42 1 (zeros 16) =
  str "objlog/segments/" ++ Bucket [] 7 ++
  str "/p00000007/seg-00000000000000000042-e00000000000000000001-00000000000000000000000000000000.plseg".
Proof. vm_compute. reflexivity. Qed.
Example bucket_vectors :
  map (λ '(s, p), (Checksum s p, Bucket s p))
    [(str "hosts/host-a/events", 0); (str "hosts/host-a/events", 7); (str "agents/a7/sessions/42", 0); ([], 3)] =
  [(0x77483f93, str "f93"); (0xa3825b78, str "b78"); (0x818e05ce, str "5ce"); (0x9f78417e, str "17e")].
Proof. vm_compute. reflexivity. Qed.

(** ** Trimming *)
Lemma trim_left_decomp s : ∃ n, s = replicate n slash ++ trim_left s.
Proof.
  induction s as [|b s [n IH]]; [by exists O|]. cbn. destruct (decide (b = slash)) as [->|].
  - rewrite bool_decide_true by done. exists (S n). cbn. by f_equal.
  - rewrite bool_decide_false by done. by exists O.
Qed.
Lemma trim_left_head s : head (trim_left s) ≠ Some slash.
Proof.
  induction s as [|b s IH]; [done|]. cbn. destruct (decide (b = slash)).
  - by rewrite bool_decide_true.
  - rewrite bool_decide_false by done. cbn. congruence.
Qed.
Lemma trim_left_id s : head s ≠ Some slash → trim_left s = s.
Proof. destruct s as [|b s]; [done|]. cbn. intros. by rewrite bool_decide_false by congruence. Qed.

Lemma rev_replicate_slash n : rev (replicate n slash) = replicate n slash.
Proof.
  induction n as [|n IH]; [done|]. cbn. rewrite IH. clear IH. induction n as [|n IH]; [done|]. cbn. by f_equal.
Qed.

(** [strings.Trim] removes a run of slashes at each end and nothing else. *)
Lemma trim_decomp s : ∃ n m, s = replicate n slash ++ trim s ++ replicate m slash.
Proof.
  destruct (trim_left_decomp s) as [n Hn]. destruct (trim_left_decomp (rev (trim_left s))) as [m Hm].
  exists n, m. rewrite Hn at 1. f_equal. unfold trim.
  rewrite <- (rev_involutive (trim_left s)) at 1. rewrite Hm at 1.
  by rewrite rev_app_distr, rev_replicate_slash.
Qed.

Lemma trim_ends s : head (trim s) ≠ Some slash ∧ last (trim s) ≠ Some slash.
Proof.
  split.
  - intros Hh. destruct (trim_left_decomp (rev (trim_left s))) as [m Hm]. apply (trim_left_head s).
    rewrite <- (rev_involutive (trim_left s)), Hm, rev_app_distr. fold (trim s).
    by destruct (trim s); [done|].
  - unfold trim. rewrite List.rev_alt. fold (reverse (trim_left (rev (trim_left s)))).
    rewrite last_reverse. apply trim_left_head.
Qed.

Lemma trim_id s : head s ≠ Some slash → last s ≠ Some slash → trim s = s.
Proof.
  intros Hh Hl. unfold trim. rewrite (trim_left_id s Hh), trim_left_id; [apply rev_involutive|].
  rewrite List.rev_alt. fold (reverse s). by rewrite head_reverse.
Qed.
Lemma trim_trim s : trim (trim s) = trim s.
Proof. apply trim_id; apply trim_ends. Qed.

(** ** UTF-8 and trimming *)
Lemma byte_val_slash : byte_val slash = 47.
Proof. reflexivity. Qed.

Lemma utf8_cons_slash s : utf8_runes (slash :: s) = cons 47 <$> utf8_runes s.
Proof. reflexivity. Qed.

(** One step of the decoder: the first rune and the bytes after it. *)
Definition decode_rune (s : gostring) : option (Z * gostring) :=
  match s with
  | [] => None
  | b0 :: s1 =>
      let v0 := byte_val b0 in
      if v0 <? 0x80 then Some (v0, s1)
      else match s1 with
      | [] => None
      | b1 :: s2 =>
          let v1 := byte_val b1 in
          if between 0xC2 v0 0xDF then
            if cont b1 then Some ((v0 - 0xC0) * 64 + (v1 - 0x80), s2) else None
          else match s2 with
          | [] => None
          | b2 :: s3 =>
              let v2 := byte_val b2 in
              if between 0xE0 v0 0xEF then
                if between (if v0 =? 0xE0 then 0xA0 else 0x80) v1 (if v0 =? 0xED then 0x9F else 0xBF) && cont b2
                then Some (((v0 - 0xE0) * 64 + (v1 - 0x80)) * 64 + (v2 - 0x80), s3) else None
              else match s3 with
              | [] => None
              | b3 :: s4 =>
                  let v3 := byte_val b3 in
                  if between 0xF0 v0 0xF4 &&
                     between (if v0 =? 0xF0 then 0x90 else 0x80) v1 (if v0 =? 0xF4 then 0x8F else 0xBF) &&
                     cont b2 && cont b3
                  then Some ((((v0 - 0xF0) * 64 + (v1 - 0x80)) * 64 + (v2 - 0x80)) * 64 + (v3 - 0x80), s4)
                  else None
              end
          end
      end
  end.

Lemma utf8_step b s :
  utf8_runes (b :: s) = match decode_rune (b :: s) with
                        | Some (r, rest) => cons r <$> utf8_runes rest
                        | None => None
                        end.
Proof.
  cbn [decode_rune utf8_runes]. cbv zeta. destruct (byte_val b <? 0x80); [reflexivity|].
  destruct s as [|b1 s2]; [reflexivity|]. destruct (between 0xC2 (byte_val b) 0xDF); [by destruct (cont b1)|].
  destruct s2 as [|b2 s3]; [reflexivity|].
  destruct (between 0xE0 (byte_val b) 0xEF); [by destruct (_ && cont b2)|].
  destruct s3 as [|b3 s4]; [reflexivity|]. by destruct (_ && cont b3).
Qed.

Lemma decode_rune_length s r rest : decode_rune s = Some (r, rest) → (length rest < length s)%nat.
Proof.
  unfold decode_rune. cbv zeta. repeat case_match; intros [= _ <-]; cbn [length]; lia.
Qed.

Lemma between_slash a c : 47 < a → between a 47 c = false.
Proof. intros. unfold between. by rewrite (proj2 (Z.leb_gt a 47)) by lia. Qed.

(** A slash is never part of a multi-byte sequence. *)
Lemma decode_rune_snoc b s :
  decode_rune ((b :: s) ++ [slash]) = (λ '(r, rest), (r, rest ++ [slash])) <$> decode_rune (b :: s).
Proof.
  assert (H1 : ∀ v0, between (if v0 =? 0xE0 then 0xA0 else 0x80) 47 (if v0 =? 0xED then 0x9F else 0xBF) = false)
    by (intros; apply between_slash; case_match; lia).
  destruct s as [|b1 [|b2 [|b3 s]]]; cbn [app decode_rune]; cbv zeta; change (cont slash) with false;
    rewrite ?byte_val_slash, ?H1, ?andb_false_r; cbn [andb];
    repeat match goal with |- context [if ?c then _ else _] => destruct c end; reflexivity.
Qed.

Lemma utf8_snoc_slash s : utf8_runes (s ++ [slash]) = (λ rs, rs ++ [47]) <$> utf8_runes s.
Proof.
  remember (length s) as n eqn:Hn. revert s Hn. induction n as [n IH] using lt_wf_ind. intros s ->.
  destruct s as [|b s]; [reflexivity|]. change ((b :: s) ++ [slash]) with (b :: (s ++ [slash])).
  rewrite !utf8_step. change (b :: (s ++ [slash])) with ((b :: s) ++ [slash]). rewrite decode_rune_snoc.
  destruct (decode_rune (b :: s)) as [[r rest]|] eqn:E; [|done]. cbn [fmap option_fmap option_map].
  rewrite (IH (length rest) (decode_rune_length _ _ _ E) rest eq_refl). by destruct (utf8_runes rest).
Qed.

Lemma utf8_trim s : utf8_runes s ≠ None → utf8_runes (trim s) ≠ None.
Proof.
  destruct (trim_decomp s) as (n & m & E). intros Hs. rewrite E in Hs. generalize dependent (trim s). intros t _ Hs.
  induction n as [|n IH].
  - cbn in Hs. induction m as [|m IH]; [by rewrite app_nil_r in Hs|].
    apply IH. rewrite replicate_S_end, app_assoc, utf8_snoc_slash in Hs. by destruct (utf8_runes (t ++ _)).
  - apply IH. cbn [replicate app] in Hs. rewrite utf8_cons_slash in Hs. by destruct (utf8_runes _).
Qed.

(** ** Canonical stream IDs *)
Lemma check_segments_spec segs :
  check_segments segs = Ok () ↔ Forall (λ s, s ≠ [] ∧ s ≠ str "." ∧ s ≠ str "..") segs.
Proof.
  induction segs as [|s segs IH]; cbn [check_segments]; [split; [constructor|done]|]. rewrite Forall_cons, <- IH.
  destruct (bool_decide (s = [])) eqn:E1; [apply bool_decide_eq_true in E1 | apply bool_decide_eq_false in E1].
  { split; [discriminate | intros [[H _] _]; contradiction]. }
  destruct (bool_decide (s = str ".")) eqn:E2; [apply bool_decide_eq_true in E2 | apply bool_decide_eq_false in E2].
  { split; [discriminate | intros [(_ & H & _) _]; contradiction]. }
  destruct (bool_decide (s = str "..")) eqn:E3; [apply bool_decide_eq_true in E3 | apply bool_decide_eq_false in E3].
  { split; [discriminate | intros [(_ & _ & H) _]; contradiction]. }
  cbn [orb]. split; [auto | by intros [_ H]].
Qed.



(** ** Numbers in keys *)
Definition digit_val (b : byte) : Z := if byte_val b <? 58 then byte_val b - 48 else byte_val b - 87.
Definition undigits (base : Z) (s : list byte) : Z := fold_left (λ acc b, acc * base + digit_val b) s 0.

Lemma digit_val_digit d : 0 ≤ d < 16 → digit_val (digit d) = d.
Proof.
  intros Hd. unfold digit_val, digit. rewrite byte_val_mk.
  destruct (Z.ltb_spec d 10); rewrite Z.mod_small by lia;
    match goal with |- context [?a <? 58] => destruct (Z.ltb_spec a 58) end; lia.
Qed.

Lemma undigits_digits fuel base z :
  2 ≤ base ≤ 16 → 0 ≤ z < base ^ Z.of_nat fuel → undigits base (digits_fuel fuel base z) = z.
Proof.
  intros Hb. revert z; induction fuel as [|fuel IH]; intros z Hz; [cbn in *; lia|].
  cbn [digits_fuel]. destruct (Z.ltb_spec z base).
  - unfold undigits. cbn. rewrite digit_val_digit by lia. lia.
  - unfold undigits in *. rewrite fold_left_app, IH.
    + cbn. rewrite digit_val_digit by (pose proof (Z.mod_pos_bound z base); lia).
      pose proof (Z.div_mod z base). lia.
    + rewrite Nat2Z.inj_succ, Z.pow_succ_r in Hz by lia. split; [apply Z.div_pos; lia|].
      apply Z.div_lt_upper_bound; lia.
Qed.

Lemma undigits_pad base w s : undigits base (pad_zero w s) = undigits base s.
Proof.
  unfold pad_zero, undigits. rewrite fold_left_app. f_equal.
  induction (w - length s)%nat as [|n IH]; [done|]. cbn. exact IH.
Qed.

Lemma length_digits fuel base z k :
  2 ≤ base → 0 ≤ z < base ^ Z.of_nat k → (0 < k)%nat → (length (digits_fuel fuel base z) ≤ k)%nat.
Proof.
  intros Hb. revert z k; induction fuel as [|fuel IH]; intros z k Hz Hk; [cbn; lia|].
  cbn [digits_fuel]. destruct (Z.ltb_spec z base); [cbn; lia|]. rewrite length_app. cbn [length].
  destruct k as [|[|k]]; [lia|cbn in Hz; lia|].
  pose proof (IH (z / base) (S k)) as HI. rewrite Nat2Z.inj_succ, Z.pow_succ_r in Hz by lia.
  assert (0 ≤ z / base < base ^ Z.of_nat (S k)).
  { split; [apply Z.div_pos; lia | apply Z.div_lt_upper_bound; lia]. }
  specialize (HI ltac:(done) ltac:(lia)). lia.
Qed.

Lemma fmt_d_inj w z z' : is_u64 z → is_u64 z' → fmt_d w z = fmt_d w z' → z = z'.
Proof.
  unfold_widths. intros Hz Hz' E. apply (f_equal (undigits 10)) in E. unfold fmt_d in E.
  rewrite !undigits_pad, !undigits_digits in E; [done|lia| |lia|].
  all: assert (18446744073709551616 ≤ 10 ^ Z.of_nat 64) by (vm_compute; discriminate); lia.
Qed.
Lemma length_pad w s : (length s ≤ w)%nat → length (pad_zero w s) = w.
Proof. intros. unfold pad_zero. rewrite length_app, length_replicate. lia. Qed.
Lemma length_fmt_d20 z : is_u64 z → length (fmt_d 20 z) = 20%nat.
Proof.
  intros Hz. apply length_pad, length_digits; [lia| |lia]. unfold_widths.
  assert (18446744073709551616 ≤ 10 ^ Z.of_nat 20) by (vm_compute; discriminate). lia.
Qed.
Lemma length_Bucket s p : length (Bucket s p) = 3%nat.
Proof.
  apply length_pad, length_digits; [lia| |lia]. unfold bucketMask, BucketCount, BucketBits.
  change (Z.shiftl 1 12 - 1) with (Z.ones 12). rewrite Z.land_ones by lia.
  pose proof (Z.mod_pos_bound (Checksum s p) (2 ^ 12)). cbn in *. lia.
Qed.

Lemma length_hex bs : length (hex bs) = (2 * length bs)%nat.
Proof. unfold hex. induction bs as [|b bs IH]; [done|]. cbn [map concat]. rewrite length_app, IH. cbn [length]. lia. Qed.
Lemma hex_inj bs bs' : length bs = length bs' → hex bs = hex bs' → bs = bs'.
Proof.
  revert bs'; induction bs as [|b bs IH]; intros [|b' bs'] Hl E; try discriminate; [done|].
  unfold hex in E. cbn [map concat app] in E. injection E as E1 E2 E3. injection Hl as Hl. f_equal; [|by apply IH].
  apply (f_equal digit_val) in E1, E2. pose proof (byte_val_range b). pose proof (byte_val_range b').
  rewrite !digit_val_digit in E1 by (split; [apply Z.div_pos; lia | apply Z.div_lt_upper_bound; lia]).
  rewrite !digit_val_digit in E2 by (apply Z.mod_pos_bound; lia).
  rewrite <- (mk_byte_val b), <- (mk_byte_val b'). f_equal.
  rewrite (Z.div_mod (byte_val b) 16), (Z.div_mod (byte_val b') 16) by lia. lia.
Qed.
Lemma length_StreamKey s : length (StreamKey s) = 64%nat.
Proof. unfold StreamKey. by rewrite length_hex, SHA256.length_Sum256. Qed.

(** The part of a key after the partition directory. *)
Lemma key_tail_inj b e u b' e' u' :
  is_u64 b → is_u64 e → length u = 16%nat → is_u64 b' → is_u64 e' → length u' = 16%nat →
  fmt_d 20 b ++ str "-e" ++ fmt_d 20 e ++ str "-" ++ hex u ++ str ".plseg" =
  fmt_d 20 b' ++ str "-e" ++ fmt_d 20 e' ++ str "-" ++ hex u' ++ str ".plseg" → b = b' ∧ e = e' ∧ u = u'.
Proof.
  intros Hb He Hu Hb' He' Hu' E.
  apply app_inj_1 in E as [E1 E]; [|by rewrite !length_fmt_d20]. apply app_inv_head in E.
  apply app_inj_1 in E as [E2 E]; [|by rewrite !length_fmt_d20]. apply app_inv_head in E. apply app_inv_tail in E.
  split_and!; [by eapply fmt_d_inj..|]. apply hex_inj; [congruence | done].
Qed.

(** C15. Segment keys do not collide.  Under one data root, two segments with the
    same object key have the same stream key, partition, base LSN, writer epoch
    and UUID: no other input of [SegmentObjectKey] can lead to the same object. *)
Theorem segment_key_injective root s p b e u s' p' b' e' u' :
  is_u32 p → is_u64 b → is_u64 e → length u = 16%nat →
  is_u32 p' → is_u64 b' → is_u64 e' → length u' = 16%nat →
  SegmentObjectKey root s p b e u = SegmentObjectKey root s' p' b' e' u' →
  StreamKey s = StreamKey s' ∧ p = p' ∧ b = b' ∧ e = e' ∧ u = u'.
Proof.
  intros Hp Hb He Hu Hp' Hb' He' Hu'. unfold SegmentObjectKey, NormalizeStreamID. cbv zeta. intros E.
  apply app_inj_2 in E as [E1 E2].
  2: { by rewrite !length_app, !length_fmt_d20, !length_hex, Hu, Hu'. }
  apply app_inv_head in E2. apply key_tail_inj in E2; [|done..].
  assert (HS : StreamKey s = StreamKey (trim s) ∧ StreamKey s' = StreamKey (trim s'))
    by (unfold StreamKey, NormalizeStreamID; by rewrite !trim_trim). destruct HS as [-> ->].
  assert (Hpp : fmt_d 8 p = fmt_d 8 p' → p = p').
  { apply fmt_d_inj; unfold_widths; lia. }
  enough (StreamKey (trim s) = StreamKey (trim s') ∧ fmt_d 8 p = fmt_d 8 p') as [? ?] by (split_and!; auto; apply E2).
  clear E2 Hpp. pose proof (length_StreamKey (trim s)) as HL. pose proof (length_StreamKey (trim s')) as HL'.
  pose proof (length_Bucket (trim s) p) as HB. pose proof (length_Bucket (trim s') p') as HB'.
  revert HL HL' HB HB' E1.
  assert (Hsame : trim s = [] → trim s' = [] → StreamKey (trim s) = StreamKey (trim s')) by (by intros -> ->).
  revert Hsame. generalize (StreamKey (trim s)) (StreamKey (trim s')) (Bucket (trim s) p) (Bucket (trim s') p')
    (fmt_d 8 p) (fmt_d 8 p'). intros k k' bu bu' d d' Hsame HL HL' HB HB' E1.
  destruct (decide (trim s = [])) as [Ht|Ht], (decide (trim s' = [])) as [Ht'|Ht'];
    repeat first [rewrite (bool_decide_true _ Ht) in E1 | rewrite (bool_decide_true _ Ht') in E1
                 | rewrite (bool_decide_false _ Ht) in E1 | rewrite (bool_decide_false _ Ht') in E1];
    cbn [negb app join_slash] in E1; apply app_inv_head in E1; injection E1 as E1;
    apply app_inj_1 in E1 as [_ E1]; try congruence; try discriminate.
  - split; [auto|]. by injection E1.
  - injection E1 as E1. apply app_inj_1 in E1 as [E1 E1']; [|congruence]. split; [done|]. by injection E1'.
Qed.

Lemma segment_key_injective_witness :
  let key s := SegmentObjectKey (str "objlog") s 3 42 7 (replicate 16 x01) in
  key (str "orders") = key (str "/orders/") ∧ StreamKey (str "orders") = StreamKey (str "/orders/").
Proof.
  intros key. assert (E : key (str "orders") = key (str "/orders/")) by (vm_compute; reflexivity).
  split; [exact E|].
  apply (segment_key_injective (str "objlog") (str "orders") 3 42 7 (replicate 16 x01)
           (str "/orders/") 3 42 7 (replicate 16 x01));
    [unfold_widths; lia | unfold_widths; lia | unfold_widths; lia | reflexivity
     | unfold_widths; lia | unfold_widths; lia | unfold_widths; lia | reflexivity | exact E].
Defined.
