(* ===== verification/SegPack.v ===== *)
(** * Packing a segment (internal/segwriter: sink.go, memory_sink.go, packer.go
    and the block buffer of writer.go)

    The packer hands the bytes of one segment to a sink in order, counts them,
    hashes the body and commits.  A sink is an interface ([Sink]) with the laws
    its documentation states ([SinkLaws]); the in-memory sink is an instance. *)
From S2P Require Import Prelude Hash SegFormat RawBlock SegBlock PMeta KeyLayout.

(** ** sink.go *)
Record Plan := mkPlan {
  pl_Partition : Z; pl_Codec : Z; pl_HashAlgo : Z;
  pl_PartSize : Z; pl_UploadParallelism : Z; pl_UploadQueueSize : Z }.
Record CommittedObject := mkCommittedObject { co_URI : gostring; co_SizeBytes : Z; co_Token : gostring }.

(** What a callee finds when it looks at the context it was given: [ctx_now] is
    [ctx.Err()] at its own check, [ctx_call] what a sink finds during the call
    that follows; a context can be cancelled in between. *)
Record context := mkContext { ctx_now : option error; ctx_call : option error }.

(** Each call of a sink is given what it finds of the context, the error if it is
    done. *)
Class Sink := {
  txn : Type;
  sink_Begin : option error → Plan → result txn;
  txn_Write : option error → list byte → st txn ();
  txn_Commit : option error → st txn CommittedObject;
  txn_Abort : option error → st txn () }.

(** What the documentation of [Txn] promises: writes append, and a successful
    commit publishes the complete byte stream at the URI it returns. *)
Class SinkLaws `{Sink} := {
  txn_bytes : txn → list byte;
  txn_published : txn → gostring → option (list byte);
  sink_Begin_bytes : ∀ ctx plan t, sink_Begin ctx plan = Ok t → txn_bytes t = [];
  txn_Write_bytes : ∀ ctx bytes t t', txn_Write ctx bytes t = (t', Ok ()) → txn_bytes t' = txn_bytes t ++ bytes;
  txn_Commit_publishes : ∀ ctx t t' obj, txn_Commit ctx t = (t', Ok obj) → txn_published t' (co_URI obj) = Some (txn_bytes t) }.

(** ** memory_sink.go *)
Record MemorySink := mkMemorySink { ks_uri : gostring; ks_object : list byte; ks_token : gostring; ks_beginCount : Z }.
Definition NewMemorySink (uri : gostring) : MemorySink := {|
  ks_uri := if bool_decide (uri = []) then str "memory://segment" else uri; ks_object := []; ks_token := []; ks_beginCount := 0 |}.
(** A transaction shares the sink it publishes to. *)
Record memoryTxn := mkMemoryTxn { mt_sink : MemorySink; mt_bytes : list byte; mt_aborted : bool; mt_completed : bool }.

Definition MemorySink_Begin (s : MemorySink) : memoryTxn := {|
  mt_sink := {| ks_uri := ks_uri s; ks_object := ks_object s; ks_token := ks_token s; ks_beginCount := ks_beginCount s + 1 |};
  mt_bytes := []; mt_aborted := false; mt_completed := false |}.

Definition memoryTxn_Write (ctx : option error) (bytes : list byte) : st memoryTxn () :=
  _ ← st_check ctx;
  t ← st_get;
  throw_if mt_aborted t with [WErrTxnAborted];
  throw_if mt_completed t with [WErrTxnCompleted];
  st_put {| mt_sink := mt_sink t; mt_bytes := mt_bytes t ++ bytes; mt_aborted := mt_aborted t; mt_completed := mt_completed t |}.

Definition memoryTxn_Commit (ctx : option error) : st memoryTxn CommittedObject :=
  _ ← st_check ctx;
  t ← st_get;
  throw_if mt_aborted t with [WErrTxnAborted];
  throw_if mt_completed t with [WErrTxnCompleted];
  let object := mt_bytes t in
  let s := mt_sink t in
  let s := {| ks_uri := ks_uri s; ks_object := object; ks_token := str "memory-complete"; ks_beginCount := ks_beginCount s |} in
  _ ← st_put {| mt_sink := s; mt_bytes := mt_bytes t; mt_aborted := mt_aborted t; mt_completed := true |};
  mret {| co_URI := ks_uri s; co_SizeBytes := uint64 (len object); co_Token := ks_token s |}.

Definition memoryTxn_Abort : st memoryTxn () :=
  t ← st_get;
  if mt_completed t then mret () else
  st_put {| mt_sink := mt_sink t; mt_bytes := []; mt_aborted := true; mt_completed := mt_completed t |}.

Definition MemorySink_Sink (s : MemorySink) : Sink := {|
  txn := memoryTxn;
  sink_Begin := λ _ _, Ok (MemorySink_Begin s);
  txn_Write := memoryTxn_Write;
  txn_Commit := memoryTxn_Commit;
  txn_Abort := λ _, memoryTxn_Abort |}.

(** ** packer.go

    The digest is the bytes it was given. *)
Section packer.
Context `{XXHash} `{Sink}.

Record packer := mkPacker {
  pk_txn : txn; pk_algo : Z; pk_hashed : list byte; pk_offset : Z; pk_firstErr : option error;
  pk_bodySealed : bool; pk_completed : bool; pk_aborted : bool; pk_abortErr : option error }.

Definition digest_Sum64 (algo : Z) (bytes : list byte) : Z :=
  if algo =? HashCRC32C then CRC32C.Checksum bytes else xxhash_Sum64 bytes.

Definition newPacker (t : txn) (hashAlgo : Z) : result packer :=
  _ ← wrap_err WErrInvalidOptions (HashAlgo_Validate hashAlgo);
  Ok {| pk_txn := t; pk_algo := hashAlgo; pk_hashed := []; pk_offset := 0; pk_firstErr := None;
        pk_bodySealed := false; pk_completed := false; pk_aborted := false; pk_abortErr := None |}.

Definition set_pk_txn (t : txn) (p : packer) : packer := {|
  pk_txn := t; pk_algo := pk_algo p; pk_hashed := pk_hashed p; pk_offset := pk_offset p; pk_firstErr := pk_firstErr p;
  pk_bodySealed := pk_bodySealed p; pk_completed := pk_completed p; pk_aborted := pk_aborted p; pk_abortErr := pk_abortErr p |}.
(** A call of the transaction. *)
Definition on_txn {A} (m : st txn A) : st packer (result A) := λ p, let '(t, r) := m (pk_txn p) in (set_pk_txn t p, Ok r).
Definition setFirstErr (err : error) (p : packer) : packer := {|
  pk_txn := pk_txn p; pk_algo := pk_algo p; pk_hashed := pk_hashed p; pk_offset := pk_offset p;
  pk_firstErr := match pk_firstErr p with Some e => Some e | None => Some err end;
  pk_bodySealed := pk_bodySealed p; pk_completed := pk_completed p; pk_aborted := pk_aborted p; pk_abortErr := pk_abortErr p |}.

Definition packer_write (ctx : context) (bytes : list byte) : st packer () :=
  p ← st_get;
  throw_if pk_completed p with [WErrPackerClosed];
  match pk_firstErr p with
  | Some err => st_fail err
  | None =>
      throw_if pk_aborted p with [WErrPackerAborted];
      _ ← st_check (ctx_now ctx);
      if len bytes =? 0 then mret () else
      r ← on_txn (txn_Write (ctx_call ctx) bytes);
      match r with
      | Err err => _ ← st_modify (setFirstErr err); st_fail err
      | Ok _ => st_modify (λ p, {|
          pk_txn := pk_txn p; pk_algo := pk_algo p; pk_hashed := pk_hashed p; pk_offset := uint64 (pk_offset p + uint64 (len bytes));
          pk_firstErr := pk_firstErr p; pk_bodySealed := pk_bodySealed p; pk_completed := pk_completed p;
          pk_aborted := pk_aborted p; pk_abortErr := pk_abortErr p |})
      end
  end.

Definition WriteBody (ctx : context) (bytes : list byte) : st packer () :=
  p ← st_get;
  throw_if pk_bodySealed p with [WErrBodySealed];
  _ ← packer_write ctx bytes;
  st_modify (λ p, {|
    pk_txn := pk_txn p; pk_algo := pk_algo p; pk_hashed := pk_hashed p ++ bytes; pk_offset := pk_offset p;
    pk_firstErr := pk_firstErr p; pk_bodySealed := pk_bodySealed p; pk_completed := pk_completed p;
    pk_aborted := pk_aborted p; pk_abortErr := pk_abortErr p |}).

Definition BodyHash : st packer Z :=
  _ ← st_modify (λ p, {|
    pk_txn := pk_txn p; pk_algo := pk_algo p; pk_hashed := pk_hashed p; pk_offset := pk_offset p;
    pk_firstErr := pk_firstErr p; pk_bodySealed := true; pk_completed := pk_completed p;
    pk_aborted := pk_aborted p; pk_abortErr := pk_abortErr p |});
  p ← st_get;
  mret (digest_Sum64 (pk_algo p) (pk_hashed p)).

Definition WriteFinal (ctx : context) (bytes : list byte) : st packer () :=
  p ← st_get;
  throw_if negb (pk_bodySealed p) with [WErrBodyNotSealed];
  packer_write ctx bytes.

Definition packer_Abort (ctx : option error) : st packer () :=
  p ← st_get;
  if pk_completed p then mret () else
  if pk_aborted p && bool_decide (pk_abortErr p = None) then mret () else
  r ← on_txn (txn_Abort ctx);
  let err := match r with Ok _ => None | Err e => Some e end in
  _ ← st_modify (λ p, {|
    pk_txn := pk_txn p; pk_algo := pk_algo p; pk_hashed := pk_hashed p; pk_offset := pk_offset p;
    pk_firstErr := pk_firstErr p; pk_bodySealed := pk_bodySealed p; pk_completed := pk_completed p;
    pk_aborted := true; pk_abortErr := err |});
  match err with Some e => st_fail e | None => mret () end.

(** [errors.Join] of an error with the outcome of a clean-up, which runs under a
    context of its own. *)
Definition join_abort {A} (err : error) : st packer A := λ p,
  let '(p, r) := packer_Abort None p in
  (p, Err (match r with Err e => err ++ e | Ok _ => err end)).

Definition Complete (ctx : context) : st packer CommittedObject :=
  p ← st_get;
  throw_if pk_completed p with [WErrPackerClosed];
  throw_if pk_aborted p with [WErrPackerAborted];
  match pk_firstErr p with
  | Some err => st_fail err
  | None =>
      throw_if negb (pk_bodySealed p) with [WErrBodyNotSealed];
      throw_if pk_offset p =? 0 with [WErrEmptyObject];
      _ ← st_check (ctx_now ctx);
      r ← on_txn (txn_Commit (ctx_call ctx));
      match r with
      | Err err => st_fail err
      | Ok obj =>
          if bool_decide (co_URI obj = []) then
            _ ← st_modify (setFirstErr [WErrSinkContract]); join_abort [WErrSinkContract]
          else if negb (co_SizeBytes obj =? pk_offset p) then
            _ ← st_modify (setFirstErr [WErrSinkContract]); join_abort [WErrSinkContract]
          else
          _ ← st_modify (λ p, {|
            pk_txn := pk_txn p; pk_algo := pk_algo p; pk_hashed := pk_hashed p; pk_offset := pk_offset p;
            pk_firstErr := pk_firstErr p; pk_bodySealed := pk_bodySealed p; pk_completed := true;
            pk_aborted := pk_aborted p; pk_abortErr := pk_abortErr p |});
          mret obj
      end
  end.
End packer.

(** ** Block buffers (writer.go)

    A buffer that is reset is an empty one; its backing array only saves an
    allocation. *)
Record LRecord := mkLRecord { lr_LSN : Z; lr_TimestampMS : Z; lr_Headers : list Header; lr_Value : list byte }.
Record blockBuffer := mkBlockBuffer {
  bb_Seq : Z; bb_Raw : list byte; bb_BaseLSN : Z; bb_RecordCount : Z; bb_MinTimestampMS : Z; bb_MaxTimestampMS : Z }.

Definition buffer_Reset : blockBuffer := mkBlockBuffer 0 [] 0 0 0 0.
Definition buffer_Len (b : blockBuffer) : Z := len (bb_Raw b).

Definition CanAppend (b : blockBuffer) (recordSize targetBlockSize : Z) : bool :=
  if (recordSize <=? 0) || (MaxRawBlockSize <? recordSize) then false else
  let nextSize := len (bb_Raw b) + recordSize in
  if MaxRawBlockSize <? nextSize then false else
  if len (bb_Raw b) =? 0 then true else
  nextSize <=? targetBlockSize.

Definition raw_record (r : LRecord) : RawRecord := mkRawRecord (lr_TimestampMS r) (lr_Headers r) (lr_Value r).

(** The buffer is changed only where [Append] succeeds, but for [MaxTimestampMS],
    which is set before the record is encoded. *)
Definition buffer_Append (r : LRecord) : st blockBuffer () :=
  b ← st_get;
  recordSize ← st_lift (RecordSize (lr_Headers r) (lr_Value r));
  throw_if negb (CanAppend b recordSize MaxRawBlockSize) with [SegErrBlockTooLarge];
  throw_if negb (bb_RecordCount b =? 0) && (lr_TimestampMS r <? bb_MaxTimestampMS b) with [WErrTimestampOrder];
  let first := bb_RecordCount b =? 0 in
  let b := {| bb_Seq := bb_Seq b; bb_Raw := bb_Raw b; bb_BaseLSN := if first then lr_LSN r else bb_BaseLSN b;
              bb_RecordCount := bb_RecordCount b;
              bb_MinTimestampMS := if first then lr_TimestampMS r else bb_MinTimestampMS b;
              bb_MaxTimestampMS := lr_TimestampMS r |} in
  _ ← st_put b;
  raw ← st_lift (AppendRawRecord (bb_Raw b) (raw_record r));
  st_put {| bb_Seq := bb_Seq b; bb_Raw := raw; bb_BaseLSN := bb_BaseLSN b; bb_RecordCount := uint32 (bb_RecordCount b + 1);
            bb_MinTimestampMS := bb_MinTimestampMS b; bb_MaxTimestampMS := bb_MaxTimestampMS b |}.

Definition buffer_Meta (b : blockBuffer) : Meta :=
  mkMeta (bb_BaseLSN b) (bb_RecordCount b) (bb_MinTimestampMS b) (bb_MaxTimestampMS b).

(** ** What the packer has written *)
Section packed.
Context `{XXHash} `{SinkLaws}.

Record packs (p : packer) (bytes hashed : list byte) : Prop := {
  pa_bytes : txn_bytes (pk_txn p) = bytes;
  pa_offset : pk_offset p = uint64 (len bytes);
  pa_hashed : pk_hashed p = hashed }.

Ltac st_inv := cbv beta iota zeta delta [mbind st_bind mret st_ret st_get st_put st_fail st_check st_modify st_lift on_txn join_abort] in *.

Lemma newPacker_packs ctx plan t algo p :
  sink_Begin ctx plan = Ok t → newPacker t algo = Ok p →
  packs p [] [] ∧ pk_algo p = algo ∧ pk_bodySealed p = false ∧ HashAlgo_Validate algo = Ok ().
Proof.
  intros HB HN. unfold newPacker in HN. inv_ok. cbn. split; [|split; [done|split; [done|]]].
  - constructor; cbn; [by eapply sink_Begin_bytes|done|done].
  - by destruct (HashAlgo_Validate algo) as [[]|].
Qed.

Lemma packer_write_packs ctx b p p' x h :
  packer_write ctx b p = (p', Ok ()) → packs p x h →
  packs p' (x ++ b) h ∧ pk_algo p' = pk_algo p ∧ pk_bodySealed p' = pk_bodySealed p.
Proof.
  unfold packer_write. st_inv. intros HW [Hb Ho Hh]. destruct (pk_completed p); [done|]. destruct (pk_firstErr p) eqn:Ef; [done|].
  destruct (pk_aborted p); [done|]. destruct (ctx_now ctx); [done|]. destruct (Z.eqb_spec (len b) 0) as [E|_].
  { injection HW as <-. assert (b = []) as -> by (destruct b; [done|unfold len in E; cbn in E; lia]). rewrite app_nil_r. done. }
  destruct (txn_Write (ctx_call ctx) b (pk_txn p)) as [t [[]|e]] eqn:Et; [|done]. injection HW as <-. split; [|done]. constructor; cbn.
  - rewrite (txn_Write_bytes _ _ _ _ Et). by rewrite Hb.
  - rewrite Ho, len_app. unfold uint64. by rewrite <- Zplus_mod.
  - done.
Qed.

Lemma WriteBody_packs ctx b p p' x h :
  WriteBody ctx b p = (p', Ok ()) → packs p x h →
  packs p' (x ++ b) (h ++ b) ∧ pk_algo p' = pk_algo p ∧ pk_bodySealed p = false ∧ pk_bodySealed p' = false.
Proof.
  unfold WriteBody. st_inv. intros HW HP. destruct (pk_bodySealed p) eqn:Es; [done|].
  destruct (packer_write ctx b p) as [p1 [[]|e]] eqn:Ew; [|done]. injection HW as <-.
  destruct (packer_write_packs _ _ _ _ _ _ Ew HP) as ([Hb Ho Hh] & Ha & Hs). cbn. split; [|by rewrite Hs].
  constructor; cbn; [done|done|by rewrite Hh].
Qed.

Lemma BodyHash_packs p p' v x h :
  BodyHash p = (p', Ok v) → packs p x h → packs p' x h ∧ v = digest_Sum64 (pk_algo p) h ∧ pk_algo p' = pk_algo p.
Proof. unfold BodyHash. st_inv. intros [= <- <-] [Hb Ho Hh]. cbn. by rewrite Hh. Qed.

Lemma WriteFinal_packs ctx b p p' x h :
  WriteFinal ctx b p = (p', Ok ()) → packs p x h → packs p' (x ++ b) h.
Proof.
  unfold WriteFinal. st_inv. intros HW HP. destruct (negb _); [done|]. by destruct (packer_write_packs _ _ _ _ _ _ HW HP).
Qed.

Lemma Complete_packs ctx p p' obj x h :
  Complete ctx p = (p', Ok obj) → packs p x h →
  txn_published (pk_txn p') (co_URI obj) = Some x ∧ co_SizeBytes obj = uint64 (len x).
Proof.
  unfold Complete. st_inv. intros HC [Hb Ho Hh]. destruct (pk_completed p); [done|]. destruct (pk_aborted p); [done|].
  destruct (pk_firstErr p); [done|]. destruct (negb _); [done|]. destruct (_ =? 0); [done|]. destruct (ctx_now ctx); [done|].
  destruct (txn_Commit (ctx_call ctx) (pk_txn p)) as [t [ob|e]] eqn:Et; [|done].
  case_bool_decide; [by destruct (packer_Abort None _) as [? [[]|]]|].
  destruct (Z.eqb_spec (co_SizeBytes ob) (pk_offset p)) as [Es|]; cbn [negb] in HC; [|by destruct (packer_Abort None _) as [? [[]|]]].
  injection HC as <- <-. cbn. rewrite (txn_Commit_publishes _ _ _ _ Et), Hb. split; [done|]. by rewrite Es, Ho.
Qed.
End packed.

(** ** What a buffer holds *)
Definition ts_bounds (rs : list LRecord) (lo hi : Z) : Prop :=
  (∀ r, head rs = Some r → lo = lr_TimestampMS r) ∧ (∀ r, last rs = Some r → hi = lr_TimestampMS r).

Record holds (b : blockBuffer) (rs : list LRecord) : Prop := {
  ho_raw : bb_Raw b = block_bytes (map raw_record rs);
  ho_count : bb_RecordCount b = len rs;
  ho_base : ∀ r, head rs = Some r → bb_BaseLSN b = lr_LSN r;
  ho_ts : ts_bounds rs (bb_MinTimestampMS b) (bb_MaxTimestampMS b);
  ho_ok : Forall record_ok (map raw_record rs);
  ho_sorted : ts_sorted (map raw_record rs);
  ho_size : len (bb_Raw b) ≤ MaxRawBlockSize }.

Lemma holds_reset : holds buffer_Reset [].
Proof. by constructor. Qed.

Lemma ts_sorted_snoc rs r hi :
  ts_sorted rs → (∀ q, last rs = Some q → hi = rr_TimestampMS q) → (rs ≠ [] → hi ≤ rr_TimestampMS r) → ts_sorted (rs ++ [r]).
Proof.
  intros Hs Hl Hle. rewrite map_app. cbn [map]. destruct rs as [|q rs] using rev_ind; [repeat constructor|]. clear IHrs.
  rewrite last_snoc in Hl. specialize (Hl q eq_refl). rewrite map_app in *. cbn [map] in *. rewrite <- app_assoc. cbn [app].
  assert (Hqr : rr_TimestampMS q ≤ rr_TimestampMS r) by (rewrite <- Hl; apply Hle; by destruct rs). clear Hl Hle.
  induction rs as [|a rs IH]; cbn [map app] in *; [by repeat constructor|].
  apply Sorted_inv in Hs as [Hs Hh]. constructor; [by apply IH|]. destruct rs; cbn in *; inversion Hh; by constructor.
Qed.

Lemma holds_length b rs : holds b rs → 16 * len rs ≤ len (bb_Raw b).
Proof.
  intros [Hr _ _ _ _ _ _]. rewrite Hr. pose proof (len_block_bytes_ge (map raw_record rs)) as Hl. unfold len in *. by rewrite length_map in Hl.
Qed.

Lemma buffer_Append_holds r b b' rs :
  holds b rs → buffer_Append r b = (b', Ok ()) → holds b' (rs ++ [r]) ∧ bb_Seq b' = bb_Seq b.
Proof.
  intros HB HA. pose proof (holds_length _ _ HB) as Hlen. destruct HB as [Hraw Hcnt Hbase [Hlo Hhi] Hok Hsort Hsize].
  unfold buffer_Append in HA. cbv beta iota zeta delta [mbind st_bind mret st_ret st_get st_put st_fail st_lift] in HA.
  destruct (RecordSize (lr_Headers r) (lr_Value r)) as [size|] eqn:Es; [|done].
  destruct (negb (CanAppend b size MaxRawBlockSize)) eqn:Ec; [done|]. apply negb_false_iff in Ec.
  destruct (negb (bb_RecordCount b =? 0) && (lr_TimestampMS r <? bb_MaxTimestampMS b)) eqn:Et; [done|].
  unfold RecordSize in Es. apply RawRecordSize_spec in Es as [Hrok Hsz].
  assert (Hrok' : record_ok (raw_record r)) by exact Hrok. cbn [bb_Raw] in HA. rewrite (AppendRawRecord_eq _ _ Hrok') in HA. injection HA as <-.
  assert (Hsz' : size = len (record_bytes (raw_record r))) by (rewrite Hsz; rewrite !len_record; done).
  unfold CanAppend, MaxRawBlockSize in *. cbv zeta in Ec.
  destruct ((size <=? 0) || (16777216 <? size)); [done|]. destruct (Z.ltb_spec 16777216 (len (bb_Raw b) + size)) as [|Hfit]; [done|]. clear Ec.
  pose proof (len_nonneg rs). pose proof (len_nonneg (record_bytes (raw_record r))).
  split; [|done]. constructor; cbn [bb_Raw bb_RecordCount bb_BaseLSN bb_MinTimestampMS bb_MaxTimestampMS].
  - rewrite Hraw, map_app. unfold block_bytes. rewrite map_app, concat_app. cbn [map concat]. by rewrite app_nil_r.
  - rewrite Hcnt, len_app. change (len [r]) with 1. apply uint32_id. unfold_widths. lia.
  - intros q Hq. destruct rs as [|r0 rs]; cbn in Hq; [injection Hq as <-; by rewrite Hcnt|]. injection Hq as <-.
    rewrite Hcnt. rewrite (proj2 (Z.eqb_neq _ _)) by (unfold len; cbn; lia). by apply Hbase.
  - split.
    + intros q Hq. destruct rs as [|r0 rs]; cbn in Hq; [injection Hq as <-; by rewrite Hcnt|]. injection Hq as <-.
      rewrite Hcnt. rewrite (proj2 (Z.eqb_neq _ _)) by (unfold len; cbn; lia). by apply Hlo.
    + intros q. rewrite last_snoc. by intros [= <-].
  - rewrite map_app. apply Forall_app. split; [done|]. by constructor.
  - rewrite (map_app raw_record rs [r]). cbn [map]. apply (ts_sorted_snoc _ _ (bb_MaxTimestampMS b)); [done| |].
    + intros q Hq. change (map raw_record rs) with (raw_record <$> rs) in Hq. rewrite fmap_last in Hq.
      destruct (last rs) as [q0|]; [|done]. cbn in Hq. injection Hq as <-. by apply Hhi.
    + intros Hne. cbn. apply andb_false_iff in Et as [Et|Et]; bool_to_prop; [|done].
      rewrite Hcnt in Et. destruct rs; [done|]. unfold len in Et. cbn in Et. lia.
  - rewrite len_app. unfold MaxRawBlockSize. lia.
Qed.

(** A non-empty buffer is an encoded block with its metadata. *)
Lemma holds_block b rs :
  holds b rs → rs ≠ [] →
  EncodeRawBlock (map raw_record rs) = Ok (bb_Raw b) ∧ buffer_Meta b = block_meta (bb_BaseLSN b) (map raw_record rs).
Proof.
  intros [Hraw Hcnt Hbase [Hlo Hhi] Hok Hsort Hsize] Hne. split.
  - apply EncodeRawBlock_spec. split; [by destruct rs|]. split; [done|]. split; [done|]. by split.
  - unfold buffer_Meta, block_meta. rewrite Hcnt. f_equal.
    + unfold len. by rewrite length_map.
    + destruct rs as [|r rs]; [done|]. cbn. by apply Hlo.
    + change (map raw_record rs) with (raw_record <$> rs). rewrite fmap_last.
      destruct (last rs) as [q|] eqn:E; [by apply Hhi|]. apply last_None in E. done.
Qed.

(** ** The in-memory sink keeps the contract *)
#[export, program] Instance MemorySink_laws (s : MemorySink) : SinkLaws (H := MemorySink_Sink s) := {|
  txn_bytes := (mt_bytes : @txn (MemorySink_Sink s) → list byte);
  txn_published := λ (t : @txn (MemorySink_Sink s)) uri,
    if bool_decide (uri = ks_uri (mt_sink t)) then Some (ks_object (mt_sink t)) else None |}.
Next Obligation. intros s ctx plan t [= <-]. done. Qed.
Next Obligation.
  intros s ctx bytes t t'. cbn. unfold memoryTxn_Write. cbv beta iota zeta delta [mbind st_bind mret st_ret st_get st_put st_fail st_check].
  destruct ctx; [done|]. destruct (mt_aborted t); [done|]. destruct (mt_completed t); [done|]. by intros [= <-].
Qed.
Next Obligation.
  intros s ctx t t' obj. cbn. unfold memoryTxn_Commit. cbv beta iota zeta delta [mbind st_bind mret st_ret st_get st_put st_fail st_check].
  destruct ctx; [done|]. destruct (mt_aborted t); [done|]. destruct (mt_completed t); [done|]. intros [= <- <-]. cbn. by rewrite bool_decide_true.
Qed.
