(* ===== verification/SegLayout.v ===== *)
(** * What a segment object is

    The bytes of a segment, as a specification: a file preamble, the stored
    blocks back to back, the block index and the trailer.  The records are cut
    into non-empty blocks in any way.  The segment writer is shown to publish
    such an object and the segment reader to return the records of one; this
    file holds what both need. *)
From S2P Require Import Prelude Hash SegFormat RawBlock SegIndex SegBlock PMeta SegPack.

(** ** Records *)
Definition LRecord_typed (r : LRecord) : Prop := is_u64 (lr_LSN r) ∧ is_i64 (lr_TimestampMS r).
Definition log_record (r : LRecord) : LogRecord := mkLogRecord (lr_LSN r) (lr_TimestampMS r) (lr_Headers r) (lr_Value r).
Definition first_lsn (rs : list LRecord) : Z := default 0 (lr_LSN <$> head rs).
Definition last_lsn (rs : list LRecord) : Z := default 0 (lr_LSN <$> last rs).
Definition first_ts (rs : list LRecord) : Z := default 0 (lr_TimestampMS <$> head rs).
Definition last_ts (rs : list LRecord) : Z := default 0 (lr_TimestampMS <$> last rs).

(** The LSNs count up from [base]. *)
Fixpoint numbered (base : Z) (rs : list LRecord) : Prop :=
  match rs with [] => True | r :: rs => lr_LSN r = base ∧ numbered (base + 1) rs end.

(** ** The object *)
Record SegParams := mkSegParams {
  so_Partition : Z; so_Codec : Z; so_HashAlgo : Z; so_SegmentUUID : list byte; so_WriterTag : list byte; so_CreatedUnixMS : Z }.
Definition SegParams_typed (o : SegParams) : Prop :=
  is_u32 (so_Partition o) ∧ is_u16 (so_Codec o) ∧ is_u16 (so_HashAlgo o) ∧ length (so_SegmentUUID o) = 16%nat ∧
  length (so_WriterTag o) = 16%nat ∧ is_i64 (so_CreatedUnixMS o).

Definition stored_block (s : Sealed) : list byte := BlockPreamble_bytes (sl_Preamble s) ++ sl_Stored s.
Definition stored_blocks (ss : list Sealed) : list byte := concat (map stored_block ss).
Definition index_entry (off : Z) (s : Sealed) : BlockIndexEntry := let p := sl_Preamble s in {|
  bx_BlockOffset := off; bx_StoredSize := bp_StoredSize p; bx_RawSize := bp_RawSize p; bx_RecordCount := bp_RecordCount p;
  bx_BaseLSN := bp_BaseLSN p; bx_MinTimestampMS := bp_MinTimestampMS p; bx_MaxTimestampMS := bp_MaxTimestampMS p;
  bx_BlockHash := bp_BlockHash p |}.
Fixpoint index_from (off : Z) (ss : list Sealed) : list BlockIndexEntry :=
  match ss with [] => [] | s :: ss => index_entry off s :: index_from (off + len (stored_block s)) ss end.

Definition segment_preamble (o : SegParams) (base : Z) : FilePreamble := {|
  fp_Flags := 0; fp_Partition := so_Partition o; fp_Codec := so_Codec o; fp_HashAlgo := so_HashAlgo o;
  fp_RecordFormat := DefaultRecordFormat; fp_BaseLSN := base; fp_SegmentUUID := so_SegmentUUID o; fp_WriterTag := so_WriterTag o |}.
Definition segment_trailer (o : SegParams) (rs : list LRecord) (ss : list Sealed) (hash : Z) : Trailer := {|
  t_Flags := 0; t_Partition := so_Partition o; t_Codec := so_Codec o; t_HashAlgo := so_HashAlgo o; t_RecordFormat := DefaultRecordFormat;
  t_BaseLSN := first_lsn rs; t_LastLSN := last_lsn rs; t_MinTimestampMS := first_ts rs; t_MaxTimestampMS := last_ts rs;
  t_RecordCount := len rs; t_BlockCount := len ss; t_BlockIndexOffset := 64 + len (stored_blocks ss);
  t_BlockIndexLength := 64 + 64 * len ss; t_TotalSize := 64 + len (stored_blocks ss) + (64 + 64 * len ss) + 192;
  t_CreatedUnixMS := so_CreatedUnixMS o; t_SegmentUUID := so_SegmentUUID o; t_WriterTag := so_WriterTag o;
  t_SegmentHash := hash; t_TrailerHash := 0 |}.

Section layout.
Context `{XXHash} `{Zstd}.

(** [s] is the sealed block of the records [rs]. *)
Definition seals (codec algo : Z) (rs : list LRecord) (s : Sealed) : Prop :=
  rs ≠ [] ∧ ∃ raw, EncodeRawBlock (map raw_record rs) = Ok raw ∧
  SealOwned codec algo raw (block_meta (first_lsn rs) (map raw_record rs)) = Ok s.

Definition segment_body (o : SegParams) (rs : list LRecord) (ss : list Sealed) : list byte :=
  FilePreamble_bytes (segment_preamble o (first_lsn rs)) ++ stored_blocks ss.

(** [bytes] is the segment with trailer [t] whose blocks [ss] hold [chunks]. *)
Record segment_of (o : SegParams) (chunks : list (list LRecord)) (ss : list Sealed) (t : Trailer) (bytes : list byte) : Prop := {
  sg_params : SegParams_typed o;
  sg_typed : Forall LRecord_typed (concat chunks);
  sg_numbered : numbered (first_lsn (concat chunks)) (concat chunks);
  sg_count : len (concat chunks) ≤ MaxUint32;
  sg_fits : t_TotalSize (segment_trailer o (concat chunks) ss 0) ≤ MaxUint64;
  sg_preamble : FilePreamble_Validate (segment_preamble o (first_lsn (concat chunks))) = Ok ();
  sg_seals : Forall2 (seals (so_Codec o) (so_HashAlgo o)) chunks ss;
  sg_bytes : ∃ ib ip tb,
    MarshalBlockIndex (index_from 64 ss) (segment_trailer o (concat chunks) ss 0) = Ok (ib, ip) ∧
    MarshalTrailer (segment_trailer o (concat chunks) ss (digest_Sum64 (so_HashAlgo o) (segment_body o (concat chunks) ss ++ ib))) = Ok (tb, t) ∧
    bytes = segment_body o (concat chunks) ss ++ ib ++ tb }.
End layout.

(** ** Numbering *)
Lemma numbered_app base a b : numbered base (a ++ b) ↔ numbered base a ∧ numbered (base + len a) b.
Proof.
  revert base; induction a as [|r a IH]; intros base; cbn [numbered app].
  - change (len []) with 0. rewrite Z.add_0_r. tauto.
  - rewrite IH. replace (base + 1 + len a) with (base + len (r :: a)) by (unfold len; cbn [length]; lia). tauto.
Qed.

Lemma numbered_first base rs : rs ≠ [] → numbered base rs → first_lsn rs = base.
Proof. destruct rs as [|r rs]; [done|]. by intros _ [Hr _]. Qed.

Lemma numbered_last base rs : rs ≠ [] → numbered base rs → last_lsn rs = base + len rs - 1.
Proof.
  destruct rs as [|r rs _] using rev_ind; [done|]. intros _ (_ & Hr & _)%numbered_app.
  unfold last_lsn. rewrite last_snoc, len_app. cbn. change (len [r]) with 1. lia.
Qed.

Lemma number_log_records base rs :
  0 ≤ base → base + len rs - 1 ≤ MaxUint64 → numbered base rs → number base (map raw_record rs) = map log_record rs.
Proof.
  revert base; induction rs as [|r rs IH]; intros base Hb Hm HN; [done|]. destruct HN as [Hr HN]. cbn [map number].
  unfold len in *. cbn [length] in *. rewrite uint64_id by (unfold_widths; lia). rewrite IH by (done || lia).
  unfold log_record, raw_record. cbn. by rewrite Hr.
Qed.

(** ** Blocks *)
Lemma length_BlockPreamble_bytes p : length (BlockPreamble_bytes p) = 64%nat.
Proof. apply length_fill. Qed.
Lemma len_stored_block s : len (stored_block s) = 64 + len (sl_Stored s).
Proof. unfold stored_block. rewrite len_app. unfold len at 1. by rewrite length_BlockPreamble_bytes. Qed.
Lemma stored_blocks_app a b : stored_blocks (a ++ b) = stored_blocks a ++ stored_blocks b.
Proof. unfold stored_blocks. by rewrite map_app, concat_app. Qed.

Lemma index_from_app off a b : index_from off (a ++ b) = index_from off a ++ index_from (off + len (stored_blocks a)) b.
Proof.
  revert off; induction a as [|s a IH]; intros off; cbn [app index_from].
  - change (len (stored_blocks [])) with 0. by rewrite Z.add_0_r.
  - rewrite IH. unfold stored_blocks at 2. cbn [map concat]. rewrite len_app, Z.add_assoc. done.
Qed.

Lemma length_index_from off ss : length (index_from off ss) = length ss.
Proof. revert off; induction ss as [|s ss IH]; intros off; cbn; [done|]. by rewrite IH. Qed.

Lemma index_from_lookup off ss i s :
  ss !! i = Some s → index_from off ss !! i = Some (index_entry (off + len (stored_blocks (take i ss))) s).
Proof.
  revert off i; induction ss as [|s0 ss IH]; intros off [|i]; cbn [lookup list_lookup index_from]; try done.
  - intros [= <-]. change (len (stored_blocks (take 0 (s0 :: ss)))) with 0. by rewrite Z.add_0_r.
  - intros Hs. rewrite (IH _ _ Hs). cbn [take]. unfold stored_blocks at 2. cbn [map concat]. rewrite len_app, Z.add_assoc. done.
Qed.

Section blocks.
Context `{XXHash} `{Zstd}.

(** What a sealed block of records is, and that it opens to them. *)
Record block_facts (codec algo : Z) (rs : list LRecord) (s : Sealed) : Prop := {
  bf_typed : BlockPreamble_typed (sl_Preamble s);
  bf_valid : BlockPreamble_Validate (sl_Preamble s) = Ok ();
  bf_count : bp_RecordCount (sl_Preamble s) = len rs;
  bf_base : bp_BaseLSN (sl_Preamble s) = first_lsn rs;
  bf_min : bp_MinTimestampMS (sl_Preamble s) = first_ts rs;
  bf_max : bp_MaxTimestampMS (sl_Preamble s) = last_ts rs;
  bf_stored : bp_StoredSize (sl_Preamble s) = len (sl_Stored s);
  bf_small : len (sl_Stored s) ≤ MaxStoredBlockSize;
  bf_lsn : first_lsn rs + len rs - 1 ≤ MaxRecordLSN;
  bf_sorted : Sorted Z.le (map lr_TimestampMS rs);
  bf_decodes : numbered (first_lsn rs) rs → ∀ borrow, ∃ raw,
    open codec algo (sl_Preamble s) (sl_Stored s) borrow = Ok raw ∧
    DecodeRawBlock raw (sl_Preamble s) = Ok (map log_record rs) }.

Lemma first_lsn_typed rs : Forall LRecord_typed rs → is_u64 (first_lsn rs).
Proof. intros Ht. destruct Ht as [|r rs [Hr _] _]; [by vm_compute|done]. Qed.

Lemma raw_records_typed rs : Forall LRecord_typed rs → Forall (λ r, is_i64 (rr_TimestampMS r)) (map raw_record rs).
Proof. intros Ht. apply Forall_fmap. eapply Forall_impl; [exact Ht|]. by intros r [_ Hr]. Qed.

Lemma block_meta_ts base rs :
  m_MinTimestampMS (block_meta base (map raw_record rs)) = first_ts rs ∧
  m_MaxTimestampMS (block_meta base (map raw_record rs)) = last_ts rs.
Proof.
  unfold block_meta, first_ts, last_ts. cbn [m_MinTimestampMS m_MaxTimestampMS].
  change (map raw_record rs) with (raw_record <$> rs). rewrite fmap_last. destruct rs; [done|]. cbn [head fmap list_fmap].
  split; [done|]. by destruct (last _).
Qed.

Lemma seals_facts codec algo rs s : Forall LRecord_typed rs → seals codec algo rs s → block_facts codec algo rs s.
Proof.
  intros Ht (Hne & raw & HE & HS). pose proof (first_lsn_typed _ Ht) as Hb. pose proof (raw_records_typed _ Ht) as Hts.
  destruct (seal_decodes codec algo _ _ _ true true s Hb Hts HE HS) as (HM & _ & HD).
  destruct (seal_inv _ _ _ _ _ _ HM HS) as (HT & HV & HRc & HB & Hmin & HMx & HR & Hst & _ & _ & _ & _ & Hvm).
  destruct (block_meta_ts (first_lsn rs) rs) as [E1 E2]. rewrite E1 in Hmin. rewrite E2 in HMx.
  destruct (validateMeta_inv _ _ HM Hvm) as (_ & _ & Hlsn & _). cbn [block_meta m_BaseLSN m_RecordCount] in Hlsn, HRc, HB.
  assert (El : len (map raw_record rs) = len rs) by (unfold len; by rewrite length_map). rewrite El in *.
  apply EncodeRawBlock_spec in HE as HE'. destruct HE' as (_ & _ & Hsort & _). rewrite map_map in Hsort.
  constructor; try done.
  - unfold SealOwned, seal in HS. cbv zeta in HS. inv_ok. bool_to_prop. done.
  - intros HN borrow. exists raw. split; [|].
    + by destruct (seal_decodes codec algo _ _ _ true borrow s Hb Hts HE HS) as (_ & HO & _).
    + rewrite HD, number_log_records; [done|unfold_widths; lia|unfold MaxRecordLSN in *; lia|done].
Qed.
End blocks.

(** ** Reading a segment back, region by region *)
Section regions.
Context `{XXHash} `{Zstd}.

(** What a reader of the object relies on. *)
Record segment_view (o : SegParams) (chunks : list (list LRecord)) (ss : list Sealed) (t : Trailer) (bytes : list byte) : Prop := {
  sv_trailer_eq : ∃ hash h, t = with_TrailerHash (segment_trailer o (concat chunks) ss hash) h;
  sv_blocks : Forall2 (block_facts (so_Codec o) (so_HashAlgo o)) chunks ss;
  sv_numbered : numbered (first_lsn (concat chunks)) (concat chunks);
  sv_fits : is_u64 (t_TotalSize t);
  sv_len : len bytes = t_TotalSize t;
  sv_typed : Trailer_typed t;
  sv_valid : Trailer_Validate t (t_TotalSize t) = Ok ();
  sv_trailer : ParseTrailer (sub bytes (length bytes - 192) 192) (t_TotalSize t) = Ok t;
  sv_preamble : ∃ p, ParseFilePreamble (sub bytes 0 64) = Ok p ∧ ValidatePreambleTrailer p t = Ok ();
  sv_index : ∃ ip, ParseBlockIndex (sub bytes (Z.to_nat (t_BlockIndexOffset t)) (Z.to_nat (t_BlockIndexLength t))) (t_HashAlgo t) = Ok (ip, index_from 64 ss);
  sv_index_typed : Forall BlockIndexEntry_typed (index_from 64 ss);
  sv_index_valid : ValidateIndex (index_from 64 ss) t = Ok ();
  sv_hash : digest_Sum64 (t_HashAlgo t) (take (Z.to_nat (t_BlockIndexOffset t + t_BlockIndexLength t)) bytes) = t_SegmentHash t;
  sv_block : ∀ i s, ss !! i = Some s →
    sub bytes (Z.to_nat (64 + len (stored_blocks (take i ss)))) (Z.to_nat (64 + bp_StoredSize (sl_Preamble s))) = stored_block s }.

Lemma ValidateIndex_trailer es t t' :
  t_BaseLSN t = t_BaseLSN t' → t_MinTimestampMS t = t_MinTimestampMS t' → t_BlockCount t = t_BlockCount t' →
  t_LastLSN t = t_LastLSN t' → t_BlockIndexOffset t = t_BlockIndexOffset t' → t_MaxTimestampMS t = t_MaxTimestampMS t' →
  t_RecordCount t = t_RecordCount t' → ValidateIndex es t = ValidateIndex es t'.
Proof.
  intros H1 H2 H3 H4 H5 H6 H7. unfold ValidateIndex. destruct es as [|e es]; [done|]. rewrite H3, H4, H5, H6, H7.
  assert (HL : ∀ p n l, ValidateIndex_loop t p n l = ValidateIndex_loop t' p n l).
  { intros p n l. revert p n; induction l as [|e0 l IH]; intros p n; [done|]. cbn [ValidateIndex_loop].
    destruct (BlockIndexEntry_Validate e0) as [[]|]; [|done]. cbn [mbind result_bind]. destruct p as [p|]; [|by rewrite H1, H2, IH].
    destruct (nextLSN _ _); [|done]. cbn [mbind result_bind]. destruct (nextBlockOffset _ _); [|done]. cbn [mbind result_bind]. by rewrite IH. }
  by rewrite HL.
Qed.

Lemma Forall2_Forall_l {A B} (P : A → Prop) (R : A → B → Prop) (Q : A → B → Prop) l k :
  Forall P l → Forall2 R l k → (∀ a b, P a → R a b → Q a b) → Forall2 Q l k.
Proof. intros HP HR HQ. induction HR; [constructor|]. apply Forall_cons in HP as [??]. constructor; auto. Qed.

Lemma stored_blocks_take_le i ss s :
  ss !! i = Some s → len (stored_blocks (take i ss)) + len (stored_block s) ≤ len (stored_blocks ss).
Proof.
  intros Hs. rewrite <- (take_drop_middle ss i s Hs) at 2. rewrite stored_blocks_app, len_app.
  unfold stored_blocks at 3. cbn [map concat]. rewrite len_app. pose proof (len_nonneg (concat (map stored_block (drop (S i) ss)))). lia.
Qed.

Lemma index_from_typed chunks ss off codec algo :
  Forall2 (block_facts codec algo) chunks ss → 0 ≤ off → off + len (stored_blocks ss) ≤ MaxUint64 →
  Forall BlockIndexEntry_typed (index_from off ss).
Proof.
  intros HF Hoff. revert off Hoff; induction HF as [|c s chunks ss Hb HF IH]; intros off Hoff Hm; [constructor|].
  unfold stored_blocks in Hm. cbn [map concat] in Hm. fold (stored_blocks ss) in Hm. rewrite len_app in Hm.
  pose proof (len_nonneg (stored_block s)). pose proof (len_nonneg (stored_blocks ss)). constructor.
  - destruct (bf_typed _ _ _ _ Hb) as (? & ? & ? & ? & ? & ? & ? & ?). unfold BlockIndexEntry_typed, index_entry. cbn.
    split; [unfold_widths; lia|done].
  - cbn [index_from]. apply IH; lia.
Qed.
End regions.

Section view.
Context `{XXHash} `{Zstd}.

Lemma ts_typed f rs : (∀ r, LRecord_typed r → is_i64 (f r)) → Forall LRecord_typed rs →
  is_i64 (default 0 (f <$> head rs)) ∧ is_i64 (default 0 (f <$> last rs)).
Proof.
  intros Hf Ht. split.
  - destruct Ht as [|r rs Hr _]; [by vm_compute|]. by apply Hf.
  - destruct (last rs) as [r|] eqn:E; [|by vm_compute]. apply last_Some_elem_of in E. apply Hf. by apply (proj1 (Forall_forall _ _) Ht).
Qed.

Lemma last_lsn_typed rs : Forall LRecord_typed rs → is_u64 (last_lsn rs).
Proof.
  intros Ht. unfold last_lsn. destruct (last rs) as [r|] eqn:E; [|by vm_compute]. apply last_Some_elem_of in E.
  by destruct (proj1 (Forall_forall _ _) Ht r E).
Qed.

Lemma segment_trailer_typed o rs ss hash :
  SegParams_typed o → Forall LRecord_typed rs → len rs ≤ MaxUint32 → len ss ≤ MaxBlockCount → is_u64 hash →
  t_TotalSize (segment_trailer o rs ss hash) ≤ MaxUint64 → Trailer_typed (segment_trailer o rs ss hash).
Proof.
  intros (? & ? & ? & ? & ? & ?) Ht Hrs Hss Hh Hfit. rewrite MaxBlockCount_eq in Hss. cbn [t_TotalSize segment_trailer] in Hfit.
  pose proof (len_nonneg rs). pose proof (len_nonneg ss). pose proof (len_nonneg (stored_blocks ss)).
  destruct (ts_typed lr_TimestampMS rs ltac:(by intros r [_ ?]) Ht) as [Hmin Hmax].
  pose proof (first_lsn_typed rs Ht). pose proof (last_lsn_typed rs Ht).
  unfold Trailer_typed, segment_trailer, DefaultRecordFormat, RecordFormatV1.
  cbn [t_Flags t_Partition t_Codec t_HashAlgo t_RecordFormat t_BaseLSN t_LastLSN t_MinTimestampMS t_MaxTimestampMS t_RecordCount
       t_BlockCount t_BlockIndexOffset t_BlockIndexLength t_TotalSize t_CreatedUnixMS t_SegmentUUID t_WriterTag t_SegmentHash t_TrailerHash].
  repeat (split; [first [assumption | unfold_widths; lia]|]). unfold_widths; lia.
Qed.

Lemma digest_HashBytes algo b : HashAlgo_Validate algo = Ok () → HashBytes algo b = Ok (digest_Sum64 algo b).
Proof.
  unfold HashAlgo_Validate, HashBytes, digest_Sum64. destruct (algo =? HashCRC32C); [done|]. by destruct (algo =? HashXXH64).
Qed.

Lemma length_segment_body o rs ss : len (segment_body o rs ss) = 64 + len (stored_blocks ss).
Proof.
  unfold segment_body. rewrite len_app. f_equal. unfold len. assert (E : length (FilePreamble_bytes (segment_preamble o (first_lsn rs))) = 64%nat) by apply length_fill.
  by rewrite E.
Qed.

(** The regions of [body ++ ib ++ tb]. *)
Lemma regions_of (body ib tb : list byte) n :
  length tb = 192%nat → len body = n →
  let bytes := body ++ ib ++ tb in
  sub bytes (length bytes - 192) 192 = tb ∧ sub bytes (Z.to_nat n) (length ib) = ib ∧
  take (Z.to_nat n + length ib) bytes = body ++ ib ∧ len bytes = n + len ib + 192.
Proof.
  intros Htb Hb bytes. unfold bytes. assert (Hn : Z.to_nat n = length body) by (unfold len in Hb; lia). rewrite Hn.
  split; [|split; [|split]].
  - rewrite !length_app, Htb. replace (length body + (length ib + 192) - 192)%nat with (length (body ++ ib)) by (rewrite length_app; lia).
    rewrite app_assoc, sub_app_r by done. rewrite Nat.sub_diag. by apply sub_whole.
  - rewrite sub_app_r by done. rewrite Nat.sub_diag. rewrite sub_app_l by lia. by apply sub_whole.
  - rewrite app_assoc. rewrite <- length_app. apply take_app_length.
  - rewrite !len_app. unfold len at 3. rewrite Htb. lia.
Qed.

Lemma sub_body_block o rs ss i s rest :
  ss !! i = Some s →
  sub (segment_body o rs ss ++ rest) (Z.to_nat (64 + len (stored_blocks (take i ss)))) (length (stored_block s)) = stored_block s.
Proof.
  intros Hs. unfold segment_body. set (p := FilePreamble_bytes _). assert (Hp : length p = 64%nat) by apply length_fill.
  rewrite <- app_assoc. rewrite sub_app_r by (unfold len; lia). rewrite Hp.
  replace (Z.to_nat (64 + len (stored_blocks (take i ss))) - 64)%nat with (length (stored_blocks (take i ss))) by (unfold len; lia).
  rewrite <- (take_drop_middle ss i s Hs) at 1. rewrite stored_blocks_app, <- app_assoc. rewrite sub_app_r by done.
  rewrite Nat.sub_diag. unfold stored_blocks. cbn [map concat]. rewrite <- app_assoc, sub_app_l by lia. by apply sub_whole.
Qed.

Lemma segment_of_view o chunks ss t bytes : segment_of o chunks ss t bytes → segment_view o chunks ss t bytes.
Proof.
  intros [Hpar Htyp Hnum Hcnt Hfit Hpre Hseals (ib & ip & tb & HMI & HMT & Hbytes)]. set (rs := concat chunks) in *.
  assert (Hblocks : Forall2 (block_facts (so_Codec o) (so_HashAlgo o)) chunks ss).
  { eapply (Forall2_Forall_l (Forall LRecord_typed)); [by apply Forall_concat|exact Hseals|]. intros c s. by apply seals_facts. }
  pose proof Hfit as Hfit'. cbn [t_TotalSize segment_trailer] in Hfit'. pose proof (len_nonneg ss). pose proof (len_nonneg (stored_blocks ss)).
  assert (Hty : Forall BlockIndexEntry_typed (index_from 64 ss)) by (eapply index_from_typed; [exact Hblocks|lia|lia]).
  destruct (MarshalBlockIndex_parses _ _ _ _ Hty HMI) as (HPI & Hib & HVI).
  assert (Hli : len (index_from 64 ss) = len ss) by (unfold len; by rewrite length_index_from). rewrite Hli in Hib.
  assert (Hssm : len ss ≤ MaxBlockCount).
  { unfold MarshalBlockIndex in HMI. inv_ok. bool_to_prop. by rewrite <- Hli. }
  set (hash := digest_Sum64 _ _) in HMT. set (t0 := segment_trailer o rs ss hash) in *.
  assert (HV : Trailer_Validate t0 (t_TotalSize t0) = Ok ()).
  { unfold MarshalTrailer, Trailer_MarshalBinary in HMT. inv_ok. destruct x; inv_ok; done. }
  assert (HA : HashAlgo_Validate (so_HashAlgo o) = Ok ()).
  { pose proof HV as HV'. unfold Trailer_Validate in HV'. cbv zeta in HV'. inv_ok. done. }
  assert (Hh : is_u64 hash) by (eapply HashBytes_u64, digest_HashBytes, HA).
  assert (Ht0 : Trailer_typed t0) by (apply segment_trailer_typed; done).
  destruct (Trailer_roundtrip t0 Ht0 HV) as (buf & h & HMT' & HPT & HHt). rewrite HMT' in HMT. injection HMT as <- <-.
  assert (Htb : length buf = 192%nat).
  { unfold ParseTrailer in HPT. inv_ok. bool_to_prop. by apply Nat.eqb_eq. }
  destruct (regions_of (segment_body o rs ss) ib buf (64 + len (stored_blocks ss)) Htb (length_segment_body o rs ss)) as (Rt & Ri & Rh & Rl).
  rewrite <- Hbytes in *. assert (Hlib : length ib = Z.to_nat (64 + 64 * len ss)) by (unfold len in *; lia).
  assert (Hval : ValidateIndex (index_from 64 ss) (with_TrailerHash t0 h) = Ok ()) by (by rewrite <- HVI; apply ValidateIndex_trailer).
  constructor.
  - by exists hash, h.
  - done.
  - done.
  - change (t_TotalSize (with_TrailerHash t0 h)) with (64 + len (stored_blocks ss) + (64 + 64 * len ss) + 192). unfold_widths. lia.
  - rewrite Rl, Hib. done.
  - destruct Ht0 as (? & ? & ? & ? & ? & ? & ? & ? & ? & ? & ? & ? & ? & ? & ? & ? & ? & ? & _).
    repeat (split; [assumption|]). eapply HashBytes_u64. exact HHt.
  - exact HV.
  - by rewrite Rt.
  - exists (segment_preamble o (first_lsn rs)). assert (HP : ParseFilePreamble (sub bytes 0 64) = Ok (segment_preamble o (first_lsn rs))).
    { rewrite Hbytes. unfold segment_body. set (fb := FilePreamble_bytes _). assert (Hfb : length fb = 64%nat) by apply length_fill.
      rewrite <- app_assoc, sub_app_l, sub_whole by lia. apply ParseFilePreamble_bytes; [|done].
      destruct Hpar as (? & ? & ? & ? & ? & ?). pose proof (first_lsn_typed rs Htyp).
      unfold FilePreamble_typed. cbn. unfold DefaultRecordFormat, RecordFormatV1. repeat (split; [first [assumption|unfold_widths; lia]|]). done. }
    split; [exact HP|]. unfold ValidatePreambleTrailer. rewrite Hpre. cbn [mbind result_bind].
    change (Trailer_Validate (with_TrailerHash t0 h) (t_TotalSize (with_TrailerHash t0 h))) with (Trailer_Validate t0 (t_TotalSize t0)).
    rewrite HV. cbn. rewrite !Z.eqb_refl, !bool_decide_true by done. done.
  - exists ip. cbn [with_TrailerHash t_BlockIndexOffset t_BlockIndexLength t_HashAlgo t0 segment_trailer]. rewrite <- Hlib, Ri. exact HPI.
  - done.
  - done.
  - cbn [with_TrailerHash t_BlockIndexOffset t_BlockIndexLength t_HashAlgo t_SegmentHash t0 segment_trailer].
    replace (Z.to_nat (64 + len (stored_blocks ss) + (64 + 64 * len ss))) with (Z.to_nat (64 + len (stored_blocks ss)) + length ib)%nat by lia.
    by rewrite Rh.
  - intros i s Hs. destruct (Forall2_lookup_r _ _ _ _ _ Hblocks Hs) as (c & _ & Hb). rewrite (bf_stored _ _ _ _ Hb), <- len_stored_block.
    unfold len at 2. rewrite Nat2Z.id, Hbytes. by apply sub_body_block.
Qed.
End view.
