(* ===== verification/SegReader.v ===== *)
(** * Reading segments (internal/segreader)

    [Open] checks the trailer, the preamble and the block index of an object
    against the reference the catalog holds; [Read], [Scan]/[Next] and
    [FindLSNByTimestamp] fetch and verify blocks on demand.  The store and the
    contexts are the environment the methods call ([rop]): a context can be
    done at any check and a read can fail at any time.  The theorem: on the
    object of a segment every method returns what the segment's records say, or
    an error the environment gave. *)
From S2P Require Import Prelude Hash SegFormat RawBlock SegIndex SegBlock PMeta SegPack SegLayout.

(** ** store.go, whole.go *)
Inductive rop := CtxErr | ReadAt (uri : gostring) (off n : Z).
Definition rresp (o : rop) : Type := match o with CtxErr => option error | ReadAt _ _ _ => result (list byte) end.

(** The store a reader was opened on, or the object [OpenWhole] fetched. *)
Inductive SegmentStore := RemoteStore | wholeSegmentStore (uri : gostring) (body : list byte).

Section methods.
Context {S : Type}.
Abbreviation method := (sprog rresp S).

(** [if err := ctx.Err(); err != nil { return err }]. *)
Definition checkCtx : method () := err ← sp_call CtxErr; sp_check err.

Definition store_ReadAt (store : SegmentStore) (uri : gostring) (off n : Z) : method (list byte) :=
  match store with
  | RemoteStore => r ← sp_call (ReadAt uri off n); sp_lift r
  | wholeSegmentStore uri' body =>
      _ ← checkCtx;
      leave_if negb (bool_decide (uri = uri')) with [];
      leave_if (len body <? off) || (len body - off <? n) with [];
      mret (sub body (Z.to_nat off) (Z.to_nat n))
  end.

Definition readAtExact (store : SegmentStore) (uri : gostring) (off n : Z) : method (list byte) :=
  _ ← checkCtx;
  leave_if (0 <? n) && (MaxUint64 - n <? off) with [RErrStoreRead];
  r ← sp_try (store_ReadAt store uri off n);
  body ← sp_lift (wrap_err RErrStoreRead r);
  leave_if negb (len body =? n) with [RErrStoreRead];
  mret body.
End methods.

(** ** options.go *)
Record ROptions := mkROptions { ro_ValidateSegmentHash : bool; ro_MaxBlockBytes : Z; ro_MaxIndexBytes : Z }.
Definition DefaultMaxBlockBytes : Z := Z.of_nat BlockPreambleSize + MaxStoredBlockSize.
Definition DefaultMaxIndexBytes : Z := 67108864. (* 64 << 20 *)
Definition reader_DefaultOptions : ROptions := mkROptions false DefaultMaxBlockBytes DefaultMaxIndexBytes.

Definition reader_normalizeOptions (opts : ROptions) : result ROptions :=
  let maxBlock := if ro_MaxBlockBytes opts =? 0 then DefaultMaxBlockBytes else ro_MaxBlockBytes opts in
  fail_if maxBlock <? Z.of_nat BlockPreambleSize with [RErrInvalidOptions];
  let maxIndex := if ro_MaxIndexBytes opts =? 0 then DefaultMaxIndexBytes else ro_MaxIndexBytes opts in
  let minIndexBytes := Z.of_nat (IndexPreambleSize + BlockIndexEntrySize) in
  fail_if maxIndex <? minIndexBytes with [RErrInvalidOptions];
  Ok (mkROptions (ro_ValidateSegmentHash opts) maxBlock maxIndex).

(** ** record.go: copies of the headers and the value are equal to them. *)
Record RRecord := mkRRecord {
  rec_Partition : Z; rec_LSN : Z; rec_TimestampMS : Z; rec_Headers : list Header; rec_Value : list byte }.

(** ** reader.go *)
Record Reader := mkReader {
  rd_store : SegmentStore; rd_ref : SegmentRef; rd_opts : ROptions; rd_borrowBlocks : bool;
  rd_preamble : FilePreamble; rd_trailer : Trailer; rd_index : list BlockIndexEntry }.

Definition validateOpen (ref : SegmentRef) (opts : ROptions) : result ROptions :=
  normalized ← reader_normalizeOptions opts;
  _ ← wrap_err RErrInvalidSegment (SegmentRef_Validate ref);
  fail_if sr_SizeBytes ref <? Z.of_nat (FilePreambleSize + TrailerSize) with [RErrInvalidSegment];
  fail_if ro_MaxIndexBytes normalized <? sr_BlockIndexLength ref with [RErrInvalidSegment];
  Ok normalized.

Definition validateRefTrailer (ref : SegmentRef) (trailer : Trailer) : result () :=
  fail_if negb (sr_Partition ref =? t_Partition trailer) ||
          negb (bool_decide (sr_SegmentUUID ref = t_SegmentUUID trailer)) ||
          negb (bool_decide (sr_WriterTag ref = t_WriterTag trailer)) ||
          negb (sr_BaseLSN ref =? t_BaseLSN trailer) ||
          negb (sr_LastLSN ref =? t_LastLSN trailer) ||
          negb (sr_MinTimestampMS ref =? t_MinTimestampMS trailer) ||
          negb (sr_MaxTimestampMS ref =? t_MaxTimestampMS trailer) ||
          negb (sr_RecordCount ref =? t_RecordCount trailer) ||
          negb (sr_BlockCount ref =? t_BlockCount trailer) ||
          negb (sr_SizeBytes ref =? t_TotalSize trailer) ||
          negb (sr_BlockIndexOffset ref =? t_BlockIndexOffset trailer) ||
          negb (sr_BlockIndexLength ref =? t_BlockIndexLength trailer) ||
          negb (sr_Codec ref =? t_Codec trailer) ||
          negb (sr_HashAlgo ref =? t_HashAlgo trailer) ||
          negb (sr_SegmentHash ref =? t_SegmentHash trailer) ||
          negb (sr_TrailerHash ref =? t_TrailerHash trailer)
  with [RErrInvalidSegment];
  Ok ().

Definition blockLastLSN (entry : BlockIndexEntry) : Z := uint64 (uint64 (bx_BaseLSN entry + bx_RecordCount entry) - 1).

Section reader.
Context `{XXHash} `{Zstd} {S : Type}.
Abbreviation method := (sprog rresp S).

(** *** hash.go: the digest is the bytes it was given, and each round reads
    [n > 0] bytes, so [length / chunkBytes + 1] rounds are enough. *)
Definition segmentHashChunkBytes : Z := 8388608. (* 8 << 20 *)

Fixpoint hashChunks (fuel : nat) (store : SegmentStore) (uri : gostring) (length chunkBytes off : Z) (hashed : list byte)
    : method (list byte) :=
  if negb (off <? length) then mret hashed else
  match fuel with
  | O => sp_fail []
  | Datatypes.S fuel =>
      let n := Z.min chunkBytes (length - off) in
      body ← readAtExact store uri off n;
      hashChunks fuel store uri length chunkBytes (uint64 (off + n)) (hashed ++ body)
  end.

Definition validateSegmentHashChunks (store : SegmentStore) (uri : gostring) (length algo want chunkBytes : Z) : method () :=
  leave_if chunkBytes =? 0 with [RErrInvalidOptions];
  leave_if negb ((algo =? HashCRC32C) || (algo =? HashXXH64)) with [RErrCorruptData];
  hashed ← hashChunks (Z.to_nat (length / chunkBytes) + 1) store uri length chunkBytes 0 [];
  leave_if negb (digest_Sum64 algo hashed =? want) with [RErrCorruptData];
  mret ().

Definition validateSegmentHash (store : SegmentStore) (uri : gostring) (length algo want : Z) : method () :=
  validateSegmentHashChunks store uri length algo want segmentHashChunkBytes.

(** *** Opening *)
Definition reader_open (store : SegmentStore) (ref : SegmentRef) (normalized : ROptions) (borrowBlocks : bool) : method Reader :=
  let trailerOff := uint64 (sr_SizeBytes ref - Z.of_nat TrailerSize) in
  trailerBytes ← readAtExact store (sr_URI ref) trailerOff (Z.of_nat TrailerSize);
  trailer ← sp_lift (wrap_err RErrCorruptData (ParseTrailer trailerBytes (sr_SizeBytes ref)));
  _ ← sp_lift (validateRefTrailer ref trailer);
  preambleBytes ← readAtExact store (sr_URI ref) 0 (Z.of_nat FilePreambleSize);
  preamble ← sp_lift (wrap_err RErrCorruptData (ParseFilePreamble preambleBytes));
  _ ← sp_lift (wrap_err RErrCorruptData (ValidatePreambleTrailer preamble trailer));
  indexBytes ← readAtExact store (sr_URI ref) (t_BlockIndexOffset trailer) (t_BlockIndexLength trailer);
  pi ← sp_lift (wrap_err RErrCorruptData (ParseBlockIndex indexBytes (t_HashAlgo trailer)));
  let index := pi.2 in
  _ ← sp_lift (wrap_err RErrCorruptData (ValidateIndex index trailer));
  _ ← (if ro_ValidateSegmentHash normalized then
         let indexEnd := uint64 (t_BlockIndexOffset trailer + t_BlockIndexLength trailer) in
         validateSegmentHash store (sr_URI ref) indexEnd (t_HashAlgo trailer) (t_SegmentHash trailer)
       else mret ());
  mret {| rd_store := store; rd_ref := ref; rd_opts := normalized; rd_borrowBlocks := borrowBlocks;
          rd_preamble := preamble; rd_trailer := trailer; rd_index := index |}.

Definition Open_ (ref : SegmentRef) (opts : ROptions) : method Reader :=
  normalized ← sp_lift (validateOpen ref opts);
  reader_open RemoteStore ref normalized false.

Definition OpenWhole (ref : SegmentRef) (opts : ROptions) : method Reader :=
  normalized ← sp_lift (validateOpen ref opts);
  body ← readAtExact RemoteStore (sr_URI ref) 0 (sr_SizeBytes ref);
  reader_open (wholeSegmentStore (sr_URI ref) body) ref normalized true.

(** *** Blocks; [r.index[idx]] panics out of range. *)
Definition openBlockScanner (r : Reader) (idx : nat) : method RawBlockScanner :=
  match rd_index r !! idx with
  | None => sp_fail [GoPanic]
  | Some entry =>
      let length := Z.of_nat BlockPreambleSize + bx_StoredSize entry in
      leave_if ro_MaxBlockBytes (rd_opts r) <? length with [RErrInvalidSegment];
      blockBytes ← readAtExact (rd_store r) (sr_URI (rd_ref r)) (bx_BlockOffset entry) length;
      blockPreamble ← sp_lift (wrap_err RErrCorruptData (ParseBlockPreamble (take BlockPreambleSize blockBytes)));
      _ ← sp_lift (wrap_err RErrCorruptData (MatchBlockIndexEntry blockPreamble entry));
      let stored := drop BlockPreambleSize blockBytes in
      raw ← sp_lift (wrap_err RErrCorruptData
        (if rd_borrowBlocks r then OpenBorrowed (t_Codec (rd_trailer r)) (t_HashAlgo (rd_trailer r)) blockPreamble stored
         else Open (t_Codec (rd_trailer r)) (t_HashAlgo (rd_trailer r)) blockPreamble stored));
      sp_lift (wrap_err RErrCorruptData (NewRawBlockScanner raw blockPreamble))
  end.
End reader.
