(* ===== verification/MemoryCatalog.v ===== *)
(** * The in-process catalog (internal/catalog/memory.go)

    [MemoryCatalog] keeps one history per partition behind a mutex; writer
    sessions cache a head and append through a fence (writer epoch and writer
    ID).  Every method runs under the lock, so a concurrent execution is a
    sequence of method calls: [run] executes such a sequence over a world of one
    catalog and the sessions it has issued.  The theorems: the catalog invariant
    holds after any sequence of calls; an acknowledged append puts the segment
    in the history exactly once and a refused one changes nothing; a fenced-out
    session can never again change its partition; the reads agree with the
    specification of PMeta.v; retention drops whole segments below its boundary
    and nothing else. *)
From S2P Require Import Prelude Hash SegFormat Ranges PMeta.

(** ** State *)
Record memoryPartition := mkMemoryPartition {
  mp_state : PartitionHead; mp_writerID : list byte; mp_headVersion : Z; mp_segments : list SegmentRef }.

(** [mc_addr] is the catalog's identity as a pointer. *)
Record MemoryCatalog := mkMemoryCatalog {
  mc_addr : nat; mc_streamID : gostring;
  mc_partitions : gmap Z memoryPartition; mc_retention : gmap Z RetentionRequest }.

Record memoryPartitionSnapshot := mkMemoryPartitionSnapshot {
  ms_catalog : nat; ms_partition : Z; ms_version : Z; ms_head : PartitionHead }.

Record memoryWriterSession := mkMemoryWriterSession {
  ws_partition : Z; ws_writerID : list byte; ws_writerEpoch : Z; ws_headVersion : Z;
  ws_state : PartitionHead }.

Definition NewMemoryCatalog (addr : nat) : MemoryCatalog := mkMemoryCatalog addr [] ∅ ∅.

Definition set_partition (partition : Z) (data : memoryPartition) (c : MemoryCatalog) : MemoryCatalog :=
  mkMemoryCatalog (mc_addr c) (mc_streamID c) (<[partition := data]> (mc_partitions c)) (mc_retention c).
Definition set_retention (partition : Z) (r : RetentionRequest) (c : MemoryCatalog) : MemoryCatalog :=
  mkMemoryCatalog (mc_addr c) (mc_streamID c) (mc_partitions c) (<[partition := r]> (mc_retention c)).

(** ** Searches *)
Definition firstSegmentAtOrAfter (segments : list SegmentRef) (lsn : Z) : nat :=
  search (λ s, lsn <=? sr_LastLSN s) segments.
Definition firstSegmentAtOrAfterTimestamp (segments : list SegmentRef) (timestampMS : Z) : nat :=
  search (λ s, timestampMS <=? sr_MaxTimestampMS s) segments.

Definition idempotentRetry (data : memoryPartition) (expectedNextLSN : Z) (segment : SegmentRef)
    : option PartitionHead :=
  if negb (expectedNextLSN =? sr_BaseLSN segment) then None
  else match mp_segments data !! firstSegmentAtOrAfter (mp_segments data) (sr_BaseLSN segment) with
       | None => None
       | Some s => if negb (bool_decide (s = segment)) then None else Some (mp_state data)
       end.

Fixpoint ensureUniqueSegment (segments : list SegmentRef) (segment : SegmentRef) : result () :=
  match segments with
  | [] => Ok ()
  | existing :: segments =>
      fail_if bool_decide (sr_SegmentUUID existing = sr_SegmentUUID segment) with [ErrConflict];
      fail_if bool_decide (sr_URI existing = sr_URI segment) with [ErrConflict];
      ensureUniqueSegment segments segment
  end.

(** ** Catalog methods *)
Definition st_ctx {S} (ctx : option error) : st S () :=
  match ctx with Some e => st_fail e | None => mret () end.

(** [getOrCreateLocked]: the entry is created even when the caller then fails. *)
Definition getOrCreateLocked (partition : Z) : st MemoryCatalog memoryPartition :=
  c ← st_get;
  match mc_partitions c !! partition with
  | Some data => mret data
  | None =>
      let data := mkMemoryPartition (empty_head (mc_streamID c) partition) (zeros 16) 0 [] in
      _ ← st_put (set_partition partition data c);
      mret data
  end.

(** Writing through the partition pointer. *)
Definition store_partition (partition : Z) (data : memoryPartition) : st MemoryCatalog () :=
  c ← st_get; st_put (set_partition partition data c).

Definition InitializePartition (ctx : option error) (partition nextLSN : Z)
    : st MemoryCatalog (PartitionHead * bool) :=
  _ ← st_ctx ctx;
  throw_if nextLSN =? MaxUint64 with [ErrInvalidRequest];
  c ← st_get;
  match mc_partitions c !! partition with
  | Some data => mret (mp_state data, false)
  | None =>
      let state := mkPartitionHead (mc_streamID c) partition nextLSN nextLSN 0 0 0 0 0 zero_SegmentRef false in
      _ ← store_partition partition (mkMemoryPartition state (zeros 16) 1 []);
      mret (state, true)
  end.

Definition set_epoch (id : gostring) (epoch : Z) (h : PartitionHead) : PartitionHead :=
  mkPartitionHead id (ph_Partition h) (ph_NextLSN h) (ph_OldestLSN h) (ph_AppliedRetentionLSN h)
    (ph_AppliedRetentionVersion h) epoch (ph_SegmentCount h) (ph_ReachableSegmentCount h)
    (ph_LastSegment h) (ph_HasLastSegment h).

Definition acquireWriter (ctx : option error) (partition : Z) (writerID : list byte)
    : st MemoryCatalog (PartitionHead * Z * Z) :=
  _ ← st_ctx ctx;
  _ ← st_lift (ValidateWriterID writerID);
  data ← getOrCreateLocked partition;
  c ← st_get;
  let state := set_epoch (mc_streamID c) (uint64 (ph_WriterEpoch (mp_state data) + 1)) (mp_state data) in
  let version := uint64 (mp_headVersion data + 1) in
  _ ← store_partition partition (mkMemoryPartition state writerID version (mp_segments data));
  mret (state, ph_WriterEpoch state, version).

Definition OpenWriter (ctx : option error) (partition : Z) (writerID : list byte)
    : st MemoryCatalog memoryWriterSession :=
  '(state, epoch, headVersion) ← acquireWriter ctx partition writerID;
  mret (mkMemoryWriterSession partition writerID epoch headVersion state).

Definition LoadPartition (ctx : option error) (partition : Z) (c : MemoryCatalog) : result PartitionHead :=
  check_ctx ctx;
  match mc_partitions c !! partition with
  | None => Ok (empty_head (mc_streamID c) partition)
  | Some data => Ok (mp_state data)
  end.

(** The head and version a snapshot records. *)
Definition snapshot_now (partition : Z) (c : MemoryCatalog) : memoryPartitionSnapshot :=
  match mc_partitions c !! partition with
  | Some data => mkMemoryPartitionSnapshot (mc_addr c) partition (mp_headVersion data) (mp_state data)
  | None => mkMemoryPartitionSnapshot (mc_addr c) partition 0 (empty_head (mc_streamID c) partition)
  end.

Definition LoadPartitionSnapshot (ctx : option error) (partition : Z) (c : MemoryCatalog)
    : result memoryPartitionSnapshot :=
  check_ctx ctx; Ok (snapshot_now partition c).

(** [previous] is [None] when it is nil or a snapshot of another catalog type. *)
Definition RefreshPartitionSnapshot (ctx : option error) (partition : Z)
    (previous : option memoryPartitionSnapshot) (c : MemoryCatalog)
    : result (memoryPartitionSnapshot * bool) :=
  check_ctx ctx;
  match previous with
  | None => Err [ErrInvalidRequest]
  | Some prior =>
      fail_if negb (ms_catalog prior =? mc_addr c)%nat || negb (ms_partition prior =? partition)
      with [ErrInvalidRequest];
      let now := snapshot_now partition c in
      if ms_version now =? ms_version prior then Ok (prior, false) else Ok (now, true)
  end.

Definition RequestRetention (ctx : option error) (partition : Z) (request : RetentionRequest)
    : st MemoryCatalog RetentionRequest :=
  _ ← st_ctx ctx;
  _ ← st_lift (RetentionRequest_Validate request);
  c ← st_get;
  match mc_retention c !! partition with
  | Some current =>
      if (rq_PolicyVersion request =? rq_PolicyVersion current) && (rq_BeforeLSN request =? rq_BeforeLSN current)
      then mret current
      else
        throw_if rq_PolicyVersion request <=? rq_PolicyVersion current with [ErrRetentionRegression];
        throw_if rq_BeforeLSN request <? rq_BeforeLSN current with [ErrRetentionRegression];
        _ ← st_put (set_retention partition request c); mret request
  | None => _ ← st_put (set_retention partition request c); mret request
  end.

Definition LoadRetentionRequest (ctx : option error) (partition : Z) (c : MemoryCatalog)
    : result (option RetentionRequest) :=
  check_ctx ctx; Ok (mc_retention c !! partition).

Definition zero_RetentionRequest : RetentionRequest := mkRetentionRequest 0 0 0 0.

Definition set_retained (oldest applied version : Z) (reachable : Z) (h : PartitionHead) : PartitionHead :=
  mkPartitionHead (ph_StreamID h) (ph_Partition h) (ph_NextLSN h) oldest applied version
    (ph_WriterEpoch h) (ph_SegmentCount h) reachable (ph_LastSegment h) (ph_HasLastSegment h).

(** The segments and the oldest LSN after trimming to [target]. *)
Definition trim_segments (target : Z) (state : PartitionHead) (segments : list SegmentRef)
    : list SegmentRef * Z :=
  if (ph_OldestLSN state <? target) && (0 <? len segments) then
    let start := firstSegmentAtOrAfter segments target in
    match segments !! start with
    | None => ([], ph_NextLSN state)
    | Some s => (drop start segments, sr_BaseLSN s)
    end
  else (segments, ph_OldestLSN state).

Definition applyPendingRetention (ctx : option error) (partition : Z) (writerID : list byte) (writerEpoch : Z)
    : st MemoryCatalog (RetentionApplyResult * Z) :=
  _ ← st_ctx ctx;
  data ← getOrCreateLocked partition;
  c ← st_get;
  let state := mp_state data in
  throw_if negb (ph_WriterEpoch state =? writerEpoch) || negb (bool_decide (mp_writerID data = writerID))
  with [ErrStaleWriter];
  match mc_retention c !! partition with
  | None => mret (mkRetentionApplyResult state zero_RetentionRequest false, mp_headVersion data)
  | Some request =>
      if rq_PolicyVersion request <=? ph_AppliedRetentionVersion state
      then mret (mkRetentionApplyResult state request false, mp_headVersion data)
      else
        throw_if rq_BeforeLSN request <? ph_AppliedRetentionLSN state with [ErrRetentionRegression];
        let target := if ph_NextLSN state <? rq_BeforeLSN request then ph_NextLSN state else rq_BeforeLSN request in
        let '(segments, oldest) := trim_segments target state (mp_segments data) in
        let state := set_retained oldest target (rq_PolicyVersion request) (len segments) state in
        let version := uint64 (mp_headVersion data + 1) in
        _ ← store_partition partition (mkMemoryPartition state (mp_writerID data) version segments);
        mret (mkRetentionApplyResult state request true, version)
  end.

(** The head after publishing [segment]. *)
Definition appended_head (segment : SegmentRef) (h : PartitionHead) : PartitionHead :=
  mkPartitionHead (ph_StreamID h) (ph_Partition h) (SegmentRef_NextLSN segment)
    (if ph_HasLastSegment h then ph_OldestLSN h else sr_BaseLSN segment)
    (ph_AppliedRetentionLSN h) (ph_AppliedRetentionVersion h) (ph_WriterEpoch h)
    (uint64 (ph_SegmentCount h + 1)) (uint64 (ph_ReachableSegmentCount h + 1)) segment true.

Definition appendSegment (ctx : option error) (partition : Z) (writerID : list byte)
    (writerEpoch expectedNextLSN : Z) (segment : SegmentRef) (knownRetry : bool)
    : st MemoryCatalog (PartitionHead * Z) :=
  _ ← st_ctx ctx;
  c ← st_get;
  _ ← st_lift (ValidateAppendSegment (mc_streamID c) partition expectedNextLSN writerEpoch segment);
  data ← getOrCreateLocked partition;
  let state := mp_state data in
  throw_if negb (bool_decide (sr_WriterTag segment = writerID)) with [ErrInvalidRequest];
  match idempotentRetry data expectedNextLSN segment with
  | Some retry => mret (retry, mp_headVersion data)
  | None =>
      throw_if knownRetry && (sr_BaseLSN segment <? ph_OldestLSN state) with [ErrCommitIndeterminate];
      throw_if ph_WriterEpoch state =? 0 with [ErrStaleWriter];
      throw_if writerEpoch <? ph_WriterEpoch state with [ErrStaleWriter];
      throw_if ph_WriterEpoch state <? writerEpoch with [ErrStaleWriter];
      throw_if negb (bool_decide (writerID = mp_writerID data)) with [ErrStaleWriter];
      throw_if negb (expectedNextLSN =? ph_NextLSN state) with [ErrConflict];
      throw_if negb (sr_BaseLSN segment =? ph_NextLSN state) with [ErrConflict];
      throw_if match PartitionHead_Last state with
               | Some last => sr_MinTimestampMS segment <? sr_MaxTimestampMS last
               | None => false
               end with [ErrTimestampOrder];
      _ ← st_lift (ensureUniqueSegment (mp_segments data) segment);
      let state := appended_head segment state in
      let version := uint64 (mp_headVersion data + 1) in
      _ ← store_partition partition
            (mkMemoryPartition state (mp_writerID data) version (mp_segments data ++ [segment]));
      mret (state, version)
  end.

Definition FindSegment (ctx : option error) (partition lsn : Z) (c : MemoryCatalog) : result (option SegmentRef) :=
  check_ctx ctx;
  match mc_partitions c !! partition with
  | None => Ok None
  | Some data =>
      match mp_segments data !! firstSegmentAtOrAfter (mp_segments data) lsn with
      | None => Ok None
      | Some segment =>
          if (lsn <? sr_BaseLSN segment) || (sr_LastLSN segment <? lsn) then Ok None else Ok (Some segment)
      end
  end.

Definition LookupTimestamp (ctx : option error) (req : TimestampLookupRequest) (c : MemoryCatalog)
    : result TimestampLookupResult :=
  check_ctx ctx;
  match mc_partitions c !! tl_Partition req with
  | None => Ok (mkTimestampLookupResult (empty_head (mc_streamID c) (tl_Partition req)) zero_SegmentRef false)
  | Some data =>
      match mp_segments data !! firstSegmentAtOrAfterTimestamp (mp_segments data) (tl_TimestampMS req) with
      | None => Ok (mkTimestampLookupResult (mp_state data) zero_SegmentRef false)
      | Some segment => Ok (mkTimestampLookupResult (mp_state data) segment true)
      end
  end.

Definition empty_page : SegmentPage := mkSegmentPage [] 0 false.

Definition ListSegments (ctx : option error) (req : ListSegmentsRequest) (c : MemoryCatalog) : result SegmentPage :=
  check_ctx ctx;
  match mc_partitions c !! ls_Partition req with
  | None => Ok empty_page
  | Some data =>
      let segments := mp_segments data in
      let limit := Z.to_nat (normalizedLimit req) in
      let start := firstSegmentAtOrAfter segments (ls_FromLSN req) in
      if (start =? length segments)%nat then Ok empty_page
      else
        let end_ := if (length segments <? start + limit)%nat then length segments else (start + limit)%nat in
        let page := take (end_ - start) (drop start segments) in
        match segments !! end_ with
        | Some next => Ok (mkSegmentPage page (sr_BaseLSN next) true)
        | None => Ok (mkSegmentPage page 0 false)
        end
  end.

(** ** Writer sessions *)
Definition set_ws_state (state : PartitionHead) (version : Z) (s : memoryWriterSession) : memoryWriterSession :=
  mkMemoryWriterSession (ws_partition s) (ws_writerID s) (ws_writerEpoch s) version state.

(** The expected next LSN and whether the session retries its last commit. *)
Definition append_intent (s : memoryWriterSession) (segment : SegmentRef) : Z * bool :=
  match PartitionHead_Last (ws_state s) with
  | Some last =>
      if bool_decide (segment = last) then (sr_BaseLSN segment, true)
      else if sr_BaseLSN segment =? sr_BaseLSN last then (sr_BaseLSN segment, false)
      else (ph_NextLSN (ws_state s), false)
  | None => (ph_NextLSN (ws_state s), false)
  end.

Definition Session_AppendSegment (ctx : option error) (segment : SegmentRef)
    : st (MemoryCatalog * memoryWriterSession) PartitionHead := λ '(c, s),
  let '(expectedNextLSN, knownRetry) := append_intent s segment in
  match appendSegment ctx (ws_partition s) (ws_writerID s) (ws_writerEpoch s) expectedNextLSN segment knownRetry c with
  | (c, Err e) => ((c, s), Err e)
  | (c, Ok (state, headVersion)) =>
      let state := if knownRetry then ws_state s else state in
      ((c, set_ws_state state headVersion s), Ok state)
  end.

Definition Session_ApplyPendingRetention (ctx : option error)
    : st (MemoryCatalog * memoryWriterSession) RetentionApplyResult := λ '(c, s),
  match applyPendingRetention ctx (ws_partition s) (ws_writerID s) (ws_writerEpoch s) c with
  | (c, Err e) => ((c, s), Err e)
  | (c, Ok (result, headVersion)) => ((c, set_ws_state (ra_Head result) headVersion s), Ok result)
  end.

(** ** The view of a partition

    A partition that has no entry behaves like the empty one [getOrCreateLocked]
    creates, so catalogs are compared by what a partition looks like. *)
Definition fresh_partition (c : MemoryCatalog) (p : Z) : memoryPartition :=
  mkMemoryPartition (empty_head (mc_streamID c) p) (zeros 16) 0 [].
Definition part_of (c : MemoryCatalog) (p : Z) : memoryPartition :=
  default (fresh_partition c p) (mc_partitions c !! p).
Definition head_of (c : MemoryCatalog) (p : Z) : PartitionHead := mp_state (part_of c p).
Definition history (c : MemoryCatalog) (p : Z) : list SegmentRef := mp_segments (part_of c p).

#[export] Instance MemoryCatalog_equiv : Equiv MemoryCatalog := λ c c',
  mc_addr c = mc_addr c' ∧ mc_streamID c = mc_streamID c' ∧ mc_retention c = mc_retention c' ∧
  ∀ p, part_of c p = part_of c' p.
#[export] Instance MemoryCatalog_equivalence : Equivalence (≡@{MemoryCatalog}).
Proof.
  split.
  - done.
  - intros c c' (? & ? & ? & ?). repeat split; done.
  - intros c c' c'' (? & ? & ? & E) (? & ? & ? & E'). repeat split; try congruence.
Qed.
#[export] Instance part_of_proper : Proper ((≡) ==> eq ==> eq) part_of.
Proof. intros c c' (_ & _ & _ & E) p ? <-. apply E. Qed.
#[export] Instance history_proper : Proper ((≡) ==> eq ==> eq) history.
Proof. intros c c' E p ? <-. unfold history. by rewrite E. Qed.
#[export] Instance head_of_proper : Proper ((≡) ==> eq ==> eq) head_of.
Proof. intros c c' E p ? <-. unfold head_of. by rewrite E. Qed.

(** [c'] is [c] with partition [p] replaced. *)
Definition updated (p : Z) (d : memoryPartition) (c c' : MemoryCatalog) : Prop :=
  mc_addr c' = mc_addr c ∧ mc_streamID c' = mc_streamID c ∧ mc_retention c' = mc_retention c ∧
  part_of c' p = d ∧ ∀ q, q ≠ p → part_of c' q = part_of c q.

Ltac run_st := cbv [mbind st_bind mret st_ret st_get st_put st_fail st_lift st_ctx store_partition].
Ltac run_st_in H := cbv [mbind st_bind mret st_ret st_get st_put st_fail st_lift st_ctx store_partition] in H.

Lemma getOrCreateLocked_run p c :
  ∃ c', getOrCreateLocked p c = (c', Ok (part_of c p)) ∧ c' ≡ c.
Proof.
  unfold getOrCreateLocked, part_of. run_st.
  destruct (mc_partitions c !! p) as [d|] eqn:E; cbn [default]; eexists; (split; [reflexivity|]); [done|].
  repeat split. intros q. unfold part_of, set_partition, fresh_partition; cbn [mc_partitions mc_streamID].
  destruct (decide (q = p)) as [->|]; [by rewrite lookup_insert_eq, E | by rewrite lookup_insert_ne].
Qed.

Lemma updated_set p d c c' : c' ≡ c → updated p d c (set_partition p d c').
Proof.
  intros (Ha & Hs & Hr & E). unfold updated, set_partition, part_of in *. cbn.
  split_and!; [congruence..| |].
  - by rewrite lookup_insert_eq.
  - intros q Hq. rewrite lookup_insert_ne by congruence. rewrite <- E.
    unfold fresh_partition. cbn. done.
Qed.

(** The three ways an append can end: refused, recognised as already committed,
    or published. *)
Inductive append_outcome (p : Z) (wid : list byte) (epoch : Z) (seg : SegmentRef) (c c' : MemoryCatalog)
    : result (PartitionHead * Z) → Prop :=
  | append_refused e : c' ≡ c → append_outcome p wid epoch seg c c' (Err e)
  | append_retried :
      c' ≡ c → seg ∈ history c p →
      append_outcome p wid epoch seg c c' (Ok (head_of c p, mp_headVersion (part_of c p)))
  | append_published v :
      SegmentRef_Validate seg = Ok () → sr_StreamID seg = mc_streamID c → sr_Partition seg = p →
      sr_WriterEpoch seg = epoch → sr_WriterTag seg = wid →
      ph_WriterEpoch (head_of c p) = epoch → epoch ≠ 0 → mp_writerID (part_of c p) = wid →
      sr_BaseLSN seg = ph_NextLSN (head_of c p) →
      (∀ last, PartitionHead_Last (head_of c p) = Some last → sr_MaxTimestampMS last ≤ sr_MinTimestampMS seg) →
      ensureUniqueSegment (history c p) seg = Ok () →
      updated p (mkMemoryPartition (appended_head seg (head_of c p)) wid v (history c p ++ [seg])) c c' →
      append_outcome p wid epoch seg c c' (Ok (appended_head seg (head_of c p), v)).

Lemma appendSegment_outcome ctx p wid epoch expected seg known c c' r :
  appendSegment ctx p wid epoch expected seg known c = (c', r) → append_outcome p wid epoch seg c c' r.
Proof.
  unfold appendSegment. run_st. intros HA.
  destruct ctx as [e|]; [injection HA as <- <-; by constructor|].
  destruct (ValidateAppendSegment _ _ _ _ _) as [[]|e] eqn:EV; [|injection HA as <- <-; by constructor].
  destruct (getOrCreateLocked_run p c) as (c1 & Eg & Hc1). rewrite Eg in HA.
  unfold ValidateAppendSegment in EV. inv_ok. bool_to_prop.
  fold (head_of c p) in HA. fold (history c p) in HA.
  repeat match type of HA with
  | (match (if ?b then _ else _) with _ => _ end) = _ => destruct b eqn:?
  | (if ?b then _ else _) _ = _ => destruct b eqn:?
  | (if ?b then _ else _) = _ => destruct b eqn:?
  end; try (injection HA as <- <-; by constructor).
  destruct (idempotentRetry (part_of c p) expected seg) as [h|] eqn:ER.
  { injection HA as <- <-. unfold idempotentRetry in ER.
    repeat case_match; simplify_eq. bool_to_prop. subst.
    constructor; [done|]. by eapply list_elem_of_lookup_2. }
  repeat match type of HA with
  | (if ?b then _ else _) _ = _ => destruct b eqn:?; [injection HA as <- <-; by constructor|]
  end.
  destruct (ensureUniqueSegment (history c p) seg) as [[]|e] eqn:EU; [|injection HA as <- <-; by constructor].
  injection HA as <- <-. bool_to_prop.
  apply append_published; try congruence; try lia.
  - intros last El. rewrite El in *. bool_to_prop. lia.
  - replace wid with (mp_writerID (part_of c p)) by congruence. by apply updated_set.
Qed.

(** ** The catalog invariant *)
Definition oldest_of (next : Z) (segs : list SegmentRef) : Z :=
  match head segs with Some s => sr_BaseLSN s | None => next end.

Record part_ok (id : gostring) (p : Z) (d : memoryPartition) : Prop := {
  po_identity : ph_StreamID (mp_state d) = id ∧ ph_Partition (mp_state d) = p;
  po_chain : chain (mp_segments d);
  po_valid : Forall (λ s, SegmentRef_typed s ∧ SegmentRef_Validate s = Ok () ∧
                          sr_StreamID s = id ∧ sr_Partition s = p) (mp_segments d);
  po_uuid : NoDup (map sr_SegmentUUID (mp_segments d));
  po_uri : NoDup (map sr_URI (mp_segments d));
  po_next : is_u64 (ph_NextLSN (mp_state d));
  po_oldest : ph_OldestLSN (mp_state d) = oldest_of (ph_NextLSN (mp_state d)) (mp_segments d);
  po_oldest_next : 0 ≤ ph_OldestLSN (mp_state d) ≤ ph_NextLSN (mp_state d);
  po_has_last : ph_HasLastSegment (mp_state d) = true →
    sr_LastLSN (ph_LastSegment (mp_state d)) + 1 = ph_NextLSN (mp_state d) ∧ 0 < ph_SegmentCount (mp_state d);
  po_no_last : ph_HasLastSegment (mp_state d) = false →
    mp_segments d = [] ∧ ph_SegmentCount (mp_state d) = 0;
  po_last : ∀ s, last (mp_segments d) = Some s → ph_LastSegment (mp_state d) = s;
  po_reachable : ph_ReachableSegmentCount (mp_state d) = len (mp_segments d);
  po_count : len (mp_segments d) ≤ ph_SegmentCount (mp_state d) ≤ ph_NextLSN (mp_state d);
  po_retention : 0 ≤ ph_AppliedRetentionLSN (mp_state d) ≤ ph_NextLSN (mp_state d) }.

Definition cat_ok (c : MemoryCatalog) : Prop := ∀ p, part_ok (mc_streamID c) p (part_of c p).

Lemma cat_ok_equiv c c' : c' ≡ c → cat_ok c → cat_ok c'.
Proof. intros (_ & Hs & _ & E) Hc p. rewrite Hs, E. apply Hc. Qed.

Lemma cat_ok_updated p d c c' : cat_ok c → updated p d c c' → part_ok (mc_streamID c) p d → cat_ok c'.
Proof.
  intros Hc (_ & Hs & _ & Hp & Hq) Hd q. rewrite Hs.
  destruct (decide (q = p)) as [->|]; [by rewrite Hp | by rewrite Hq].
Qed.

Lemma part_ok_empty id p next wid v :
  is_u64 next →
  part_ok id p (mkMemoryPartition (mkPartitionHead id p next next 0 0 0 0 0 zero_SegmentRef false) wid v []).
Proof.
  intros [? ?]. constructor; cbn; auto using chain_nil, NoDup_nil_2; try done; try lia.
Qed.

Lemma ensureUniqueSegment_spec segs seg :
  ensureUniqueSegment segs seg = Ok () ↔
  (sr_SegmentUUID seg ∉ map sr_SegmentUUID segs) ∧ (sr_URI seg ∉ map sr_URI segs).
Proof.
  induction segs as [|s segs IH]; cbn [ensureUniqueSegment map].
  { split; [intros _; split; apply not_elem_of_nil | done]. }
  rewrite !not_elem_of_cons.
  destruct (decide (sr_SegmentUUID s = sr_SegmentUUID seg)) as [E|E];
    [rewrite bool_decide_true by done; split; [discriminate | intros [[? _] _]; congruence]
    |rewrite bool_decide_false by done].
  destruct (decide (sr_URI s = sr_URI seg)) as [E'|E'];
    [rewrite bool_decide_true by done; split; [discriminate | intros [_ [? _]]; congruence]
    |rewrite bool_decide_false by done].
  rewrite IH. split; [intros []; split; split; congruence | intros [[] []]; by split].
Qed.

Lemma oldest_of_le id p d : part_ok id p d →
  ∀ s, s ∈ mp_segments d → ph_OldestLSN (mp_state d) ≤ sr_BaseLSN s ∧ sr_LastLSN s < ph_NextLSN (mp_state d).
Proof.
  intros Hd s Hs. destruct Hd as [_ Hch _ _ _ _ Ho _ Hhl Hnl Hl _ _ _].
  assert (Hhas : ph_HasLastSegment (mp_state d) = true).
  { destruct (ph_HasLastSegment _); [done|]. destruct (Hnl eq_refl) as [E _]. rewrite E in Hs. by apply not_elem_of_nil in Hs. }
  destruct (Hhl Hhas) as [Hn _]. rewrite Ho. unfold oldest_of.
  apply list_elem_of_lookup_1 in Hs as [i Hi]. pose proof (lookup_lt_Some _ _ _ Hi).
  destruct (mp_segments d) as [|s0 segs] eqn:E; [done|]. cbn [head]. split.
  - destruct i as [|i]; [injection Hi as ->; lia|].
    destruct (chain_lt _ 0 (S i) s0 s Hch eq_refl Hi ltac:(lia)).
    pose proof (chain_range_ok _ s0 Hch ltac:(left)) as [? _]. cbn in *. lia.
  - rewrite (last_List_last s0 segs) in Hl. specialize (Hl _ eq_refl). rewrite Hl in Hn.
    destruct (decide (i = length segs)) as [->|].
    + pose proof (last_List_last s0 segs) as HL. rewrite last_lookup in HL. cbn [length Nat.pred] in HL.
      rewrite Hi in HL. injection HL as ->. lia.
    + pose proof (last_List_last s0 segs) as HL. rewrite last_lookup in HL. cbn [length Nat.pred] in *.
      destruct (chain_lt _ i (length segs) s _ Hch Hi HL ltac:(lia)).
      pose proof (chain_range_ok _ (List.last segs s0) Hch ltac:(by eapply list_elem_of_lookup_2)) as [? _].
      cbn in *. lia.
Qed.

(** Publishing a segment keeps the invariant. *)
Lemma part_ok_append id p d seg wid v :
  part_ok id p d → SegmentRef_typed seg → SegmentRef_Validate seg = Ok () →
  sr_StreamID seg = id → sr_Partition seg = p → sr_BaseLSN seg = ph_NextLSN (mp_state d) →
  (∀ last, PartitionHead_Last (mp_state d) = Some last → sr_MaxTimestampMS last ≤ sr_MinTimestampMS seg) →
  ensureUniqueSegment (mp_segments d) seg = Ok () →
  part_ok id p (mkMemoryPartition (appended_head seg (mp_state d)) wid v (mp_segments d ++ [seg])).
Proof.
  intros Hd Ht Hv Hid Hp Hb Hts [Hu Hr]%ensureUniqueSegment_spec.
  destruct (SegmentRef_Validate_inv seg Ht Hv) as (Hrok & Hmax & Hnext & _ & _).
  assert (Hrange := Hrok). destruct Hrange as [Hle _]. cbn in Hle.
  destruct Hd as [Hi Hch Hva Huu Huri Hn Ho Hon Hhl Hnl Hl Hre Hco Hret].
  pose proof (len_nonneg (mp_segments d)). unfold MaxRecordLSN in Hmax.
  constructor; cbn [mp_state mp_segments appended_head ph_StreamID ph_Partition ph_NextLSN ph_OldestLSN
    ph_AppliedRetentionLSN ph_SegmentCount ph_ReachableSegmentCount ph_LastSegment ph_HasLastSegment];
    rewrite ?Hnext, ?len_app; change (len [seg]) with 1; unfold_widths;
    rewrite ?Z.mod_small by lia; try done; try lia.
  - apply chain_snoc. split_and!; [done..|]. intros b Hlast.
    assert (Hhas : ph_HasLastSegment (mp_state d) = true).
    { destruct (ph_HasLastSegment _); [done|]. destruct (Hnl eq_refl) as [E _]. by rewrite E in Hlast. }
    destruct (Hhl Hhas) as [Hn' _]. rewrite (Hl b Hlast) in Hn'.
    split; cbn [lo hi tmin tmax SegmentRef_Ranged]; [lia|]. apply Hts. unfold PartitionHead_Last.
    by rewrite Hhas, (Hl b Hlast).
  - apply Forall_app. split; [done|]. by constructor.
  - rewrite map_app. apply NoDup_app. split_and!; [done| |apply NoDup_singleton].
    intros x Hx Hx'. apply list_elem_of_singleton in Hx' as ->. done.
  - rewrite map_app. apply NoDup_app. split_and!; [done| |apply NoDup_singleton].
    intros x Hx Hx'. apply list_elem_of_singleton in Hx' as ->. done.
  - unfold oldest_of in *. destruct (ph_HasLastSegment (mp_state d)) eqn:E.
    + rewrite Ho. destruct (mp_segments d); cbn; [lia|done].
    + destruct (Hnl eq_refl) as [-> _]. done.
  - destruct (ph_HasLastSegment (mp_state d)); lia.
  - intros s. rewrite last_snoc. by intros [= ->].
Qed.

(** ** Retention *)
Lemma trim_segments_spec id p d target :
  part_ok id p d → 0 ≤ target ≤ ph_NextLSN (mp_state d) →
  trim_segments target (mp_state d) (mp_segments d) =
    (from_lsn target (mp_segments d), oldest_of (ph_NextLSN (mp_state d)) (from_lsn target (mp_segments d))).
Proof.
  intros Hd Ht. unfold trim_segments. pose proof (oldest_of_le id p d Hd) as Hall.
  destruct Hd as [_ Hch _ _ _ _ Ho _ _ _ _ _ _ _].
  destruct (Z.ltb_spec (ph_OldestLSN (mp_state d)) target); cbn [andb].
  - destruct (Z.ltb_spec 0 (len (mp_segments d))) as [Hl|Hl].
    + cbv zeta. unfold firstSegmentAtOrAfter. change sr_LastLSN with (hi (A:=SegmentRef)).
      rewrite search_hi_lookup by done. unfold oldest_of.
      pose proof (search_from_lsn target (mp_segments d) Hch) as Hdrop.
      destruct (from_lsn target (mp_segments d)) as [|s rest] eqn:E; cbn [head]; [done|].
      f_equal. exact Hdrop.
    + destruct (mp_segments d); [by rewrite Ho|]. unfold len in Hl; cbn [length] in Hl. lia.
  - replace (from_lsn target (mp_segments d)) with (mp_segments d); [by rewrite Ho|].
    symmetry. apply List.forallb_filter_id, List.forallb_forall. intros s Hs%list_elem_of_In.
    destruct (Hall s Hs). pose proof (chain_range_ok _ s Hch Hs) as [? _]. apply Z.leb_le. cbn in *. lia.
Qed.

Lemma from_lsn_sublist target (segs : list SegmentRef) : chain segs → ∃ n, from_lsn target segs = drop n segs.
Proof. intros. eexists. symmetry. by apply search_from_lsn. Qed.

Lemma last_drop_lt {A} n (l : list A) : (n < length l)%nat → last (drop n l) = last l.
Proof.
  intros. rewrite !last_lookup, lookup_drop, length_drop. f_equal. lia.
Qed.

Lemma part_ok_retain id p d target version wid v :
  part_ok id p d → 0 ≤ target ≤ ph_NextLSN (mp_state d) →
  let segs := from_lsn target (mp_segments d) in
  part_ok id p (mkMemoryPartition
    (set_retained (oldest_of (ph_NextLSN (mp_state d)) segs) target version (len segs) (mp_state d)) wid v segs).
Proof.
  intros Hd Ht segs. destruct (from_lsn_sublist target (mp_segments d) (po_chain _ _ _ Hd)) as [n Hn].
  assert (Hsub : ∀ s, s ∈ segs → s ∈ mp_segments d).
  { intros s Hs. unfold segs in Hs. rewrite Hn in Hs. by eapply elem_of_sublist; [exact Hs | apply sublist_drop]. }
  assert (Hlen : len segs ≤ len (mp_segments d)).
  { unfold segs, len. rewrite Hn, length_drop. lia. }
  pose proof (oldest_of_le id p d Hd) as Hall. pose proof (chain_from_lsn target _ (po_chain _ _ _ Hd)) as Hc'.
  destruct Hd as [Hi Hch Hva Huu Huri Hnx Ho Hon Hhl Hnl Hl Hre Hco Hret].
  fold segs in Hc', Hn.
  constructor; cbn [mp_state mp_segments set_retained ph_StreamID ph_Partition ph_NextLSN ph_OldestLSN
    ph_AppliedRetentionLSN ph_SegmentCount ph_ReachableSegmentCount ph_LastSegment ph_HasLastSegment];
    try done; try lia.
  - rewrite Hn. by apply Forall_drop.
  - rewrite Hn. change (NoDup (sr_SegmentUUID <$> drop n (mp_segments d))). rewrite fmap_drop.
    by eapply sublist_NoDup; [|apply sublist_drop].
  - rewrite Hn. change (NoDup (sr_URI <$> drop n (mp_segments d))). rewrite fmap_drop.
    by eapply sublist_NoDup; [|apply sublist_drop].
  - unfold oldest_of. destruct segs as [|s segs'] eqn:E; cbn [head]; [unfold_widths; lia|].
    destruct (Hall s (Hsub s ltac:(left))). pose proof (chain_range_ok _ s Hc' ltac:(left)) as [? _]. cbn in *. lia.
  - intros E. destruct (Hnl E) as [E' ->]. split; [|done]. rewrite Hn, E'. apply drop_nil.
  - intros s Hs. apply Hl. rewrite <- Hs, Hn. destruct (decide (n < length (mp_segments d))%nat).
    + symmetry. by apply last_drop_lt.
    + rewrite Hn, drop_ge in Hs by lia. done.
Qed.

(** The boundary a request is clamped to. *)
Definition retention_target (request : RetentionRequest) (h : PartitionHead) : Z :=
  Z.min (rq_BeforeLSN request) (ph_NextLSN h).

(** The segments and the head a request leaves. *)
Definition retained (request : RetentionRequest) (c : MemoryCatalog) (p : Z) : list SegmentRef :=
  from_lsn (retention_target request (head_of c p)) (history c p).
Definition retained_head (request : RetentionRequest) (c : MemoryCatalog) (p : Z) : PartitionHead :=
  set_retained (oldest_of (ph_NextLSN (head_of c p)) (retained request c p))
    (retention_target request (head_of c p)) (rq_PolicyVersion request)
    (len (retained request c p)) (head_of c p).

(** The ways an attempt to apply retention can end. *)
Inductive retention_outcome (p : Z) (wid : list byte) (epoch : Z) (c c' : MemoryCatalog)
    : result (RetentionApplyResult * Z) → Prop :=
  | retention_refused e : c' ≡ c → retention_outcome p wid epoch c c' (Err e)
  | retention_idle req v :
      c' ≡ c → retention_outcome p wid epoch c c' (Ok (mkRetentionApplyResult (head_of c p) req false, v))
  | retention_applied req v :
      mc_retention c !! p = Some req →
      ph_WriterEpoch (head_of c p) = epoch → mp_writerID (part_of c p) = wid →
      ph_AppliedRetentionVersion (head_of c p) < rq_PolicyVersion req →
      ph_AppliedRetentionLSN (head_of c p) ≤ rq_BeforeLSN req →
      updated p (mkMemoryPartition (retained_head req c p) wid v (retained req c p)) c c' →
      retention_outcome p wid epoch c c' (Ok (mkRetentionApplyResult (retained_head req c p) req true, v)).

Lemma applyPendingRetention_outcome ctx p wid epoch c c' r :
  cat_ok c → applyPendingRetention ctx p wid epoch c = (c', r) → retention_outcome p wid epoch c c' r.
Proof.
  intros Hok. unfold applyPendingRetention. run_st. intros HA.
  destruct ctx as [e|]; [injection HA as <- <-; by constructor|].
  destruct (getOrCreateLocked_run p c) as (c1 & Eg & Hc1). rewrite Eg in HA.
  fold (head_of c p) in HA. fold (history c p) in HA.
  assert (Hret : mc_retention c1 = mc_retention c) by apply Hc1. rewrite Hret in HA.
  destruct (negb _ || _) eqn:Eg1 in HA; [injection HA as <- <-; by constructor|].
  destruct (mc_retention c !! p) as [req|] eqn:Er; [|injection HA as <- <-; by constructor].
  destruct (rq_PolicyVersion req <=? _) eqn:Ep in HA; [injection HA as <- <-; by constructor|].
  destruct (rq_BeforeLSN req <? ph_AppliedRetentionLSN _) eqn:Eb in HA; [injection HA as <- <-; by constructor|].
  bool_to_prop.
  replace (if ph_NextLSN (head_of c p) <? rq_BeforeLSN req then ph_NextLSN (head_of c p) else rq_BeforeLSN req)
    with (retention_target req (head_of c p)) in HA
    by (unfold retention_target; destruct (Z.ltb_spec (ph_NextLSN (head_of c p)) (rq_BeforeLSN req)); lia).
  pose proof (Hok p) as Hp. pose proof (po_next _ _ _ Hp) as [? ?]. pose proof (po_retention _ _ _ Hp).
  unfold history, head_of in HA. rewrite (trim_segments_spec _ _ _ _ Hp) in HA
    by (unfold retention_target, head_of in *; lia).
  injection HA as <- <-. apply retention_applied; try done.
  match goal with E : mp_writerID _ = wid |- _ => rewrite E end. by apply updated_set.
Qed.

(** ** Worlds and executions *)
Record world := mkWorld { w_cat : MemoryCatalog; w_sessions : list memoryWriterSession }.

Inductive op :=
  | OpInitialize (ctx : option error) (partition nextLSN : Z)
  | OpOpenWriter (ctx : option error) (partition : Z) (writerID : list byte)
  | OpAppend (sid : nat) (ctx : option error) (segment : SegmentRef)
  | OpApplyRetention (sid : nat) (ctx : option error)
  | OpRequestRetention (ctx : option error) (partition : Z) (request : RetentionRequest).

(** Go's typing of the arguments. *)
Definition op_typed (o : op) : Prop :=
  match o with
  | OpInitialize _ _ n => is_u64 n
  | OpAppend _ _ seg => SegmentRef_typed seg
  | OpRequestRetention _ _ r => is_u64 (rq_BeforeLSN r)
  | _ => True
  end.

(** A call through session [sid]; sessions that were never issued do nothing. *)
Definition with_session {A} (w : world) (sid : nat)
    (m : st (MemoryCatalog * memoryWriterSession) A) : world :=
  match w_sessions w !! sid with
  | None => w
  | Some s =>
      let '((c, s), _) := m (w_cat w, s) in
      mkWorld c (<[sid := s]> (w_sessions w))
  end.

Definition step (w : world) (o : op) : world :=
  match o with
  | OpInitialize ctx p n => mkWorld (InitializePartition ctx p n (w_cat w)).1 (w_sessions w)
  | OpOpenWriter ctx p wid =>
      match OpenWriter ctx p wid (w_cat w) with
      | (c, Ok s) => mkWorld c (w_sessions w ++ [s])
      | (c, Err _) => mkWorld c (w_sessions w)
      end
  | OpAppend sid ctx seg => with_session w sid (Session_AppendSegment ctx seg)
  | OpApplyRetention sid ctx => with_session w sid (Session_ApplyPendingRetention ctx)
  | OpRequestRetention ctx p r => mkWorld (RequestRetention ctx p r (w_cat w)).1 (w_sessions w)
  end.

Definition run (w : world) (ops : list op) : world := fold_left step ops w.
Definition init_world (addr : nat) : world := mkWorld (NewMemoryCatalog addr) [].

(** ** What each call does to the catalog *)
Lemma OpenWriter_outcome ctx p wid c c' r :
  OpenWriter ctx p wid c = (c', r) →
  (∃ e, r = Err e ∧ c' ≡ c) ∨
  (∃ v, let state := set_epoch (mc_streamID c) (uint64 (ph_WriterEpoch (head_of c p) + 1)) (head_of c p) in
     r = Ok (mkMemoryWriterSession p wid (ph_WriterEpoch state) v state) ∧
     wid ≠ zeros 16 ∧ updated p (mkMemoryPartition state wid v (history c p)) c c').
Proof.
  unfold OpenWriter, acquireWriter. run_st. intros HO.
  destruct ctx as [e|]; [injection HO as <- <-; left; eauto|].
  destruct (ValidateWriterID wid) as [[]|e] eqn:EV; [|injection HO as <- <-; left; eauto].
  unfold ValidateWriterID in EV. inv_ok. bool_to_prop.
  destruct (getOrCreateLocked_run p c) as (c1 & Eg & Hc1). rewrite Eg in HO.
  injection HO as <- <-. right. eexists. split; [|split; [done|]].
  - destruct Hc1 as (_ & -> & _). reflexivity.
  - assert (Hs : mc_streamID c1 = mc_streamID c) by apply Hc1. rewrite Hs. by apply updated_set.
Qed.

Lemma InitializePartition_outcome ctx p n c :
  is_u64 n →
  let c' := (InitializePartition ctx p n c).1 in
  c' ≡ c ∨ (mc_partitions c !! p = None ∧ ∃ v,
    updated p (mkMemoryPartition (mkPartitionHead (mc_streamID c) p n n 0 0 0 0 0 zero_SegmentRef false)
                 (zeros 16) v []) c c').
Proof.
  intros Hn. unfold InitializePartition. run_st. destruct ctx as [e|]; [by left|].
  destruct (n =? MaxUint64); [by left|].
  destruct (mc_partitions c !! p) as [d|] eqn:E; [by left|]. right. split; [done|].
  eexists. by apply updated_set.
Qed.

Lemma RequestRetention_partitions ctx p r c :
  let c' := (RequestRetention ctx p r c).1 in
  mc_streamID c' = mc_streamID c ∧ ∀ q, part_of c' q = part_of c q.
Proof.
  unfold RequestRetention. run_st. destruct ctx as [e|]; [done|].
  destruct (RetentionRequest_Validate r) as [[]|]; [|done].
  destruct (mc_retention c !! p) as [current|]; [|done]. by repeat case_match.
Qed.

Lemma part_ok_epoch id p d epoch wid v :
  part_ok id p d → part_ok id p (mkMemoryPartition (set_epoch id epoch (mp_state d)) wid v (mp_segments d)).
Proof. intros [[]]. by constructor. Qed.

(** [with_session] through its two callers. *)
Lemma step_append w sid ctx seg s c' r :
  w_sessions w !! sid = Some s →
  (let '(expected, known) := append_intent s seg in
   appendSegment ctx (ws_partition s) (ws_writerID s) (ws_writerEpoch s) expected seg known (w_cat w)) = (c', r) →
  w_cat (step w (OpAppend sid ctx seg)) = c' ∧
  ∃ s', w_sessions (step w (OpAppend sid ctx seg)) = <[sid := s']> (w_sessions w) ∧
    ws_partition s' = ws_partition s ∧ ws_writerEpoch s' = ws_writerEpoch s ∧ ws_writerID s' = ws_writerID s.
Proof.
  intros Hs. cbn [step]. unfold with_session, Session_AppendSegment. rewrite Hs.
  destruct (append_intent s seg) as [expected known]. intros ->.
  destruct r as [[h v]|e]; cbn; eauto 6.
Qed.

Lemma step_retention w sid ctx s c' r :
  w_sessions w !! sid = Some s →
  applyPendingRetention ctx (ws_partition s) (ws_writerID s) (ws_writerEpoch s) (w_cat w) = (c', r) →
  w_cat (step w (OpApplyRetention sid ctx)) = c' ∧
  ∃ s', w_sessions (step w (OpApplyRetention sid ctx)) = <[sid := s']> (w_sessions w) ∧
    ws_partition s' = ws_partition s ∧ ws_writerEpoch s' = ws_writerEpoch s ∧ ws_writerID s' = ws_writerID s.
Proof.
  intros Hs HA. cbn [step]. unfold with_session, Session_ApplyPendingRetention. rewrite Hs, HA.
  destruct r as [[h v]|e]; cbn; eauto 6.
Qed.

Lemma step_no_session w o sid :
  w_sessions w !! sid = None → (∃ ctx seg, o = OpAppend sid ctx seg) ∨ (∃ ctx, o = OpApplyRetention sid ctx) →
  step w o = w.
Proof. intros Hs [(ctx & seg & ->)|(ctx & ->)]; cbn [step]; unfold with_session; by rewrite Hs. Qed.

Lemma step_cat_ok w o : op_typed o → cat_ok (w_cat w) → cat_ok (w_cat (step w o)).
Proof.
  intros Ht Hok. destruct o as [ctx p n|ctx p wid|sid ctx seg|sid ctx|ctx p r].
  - cbn [step w_cat]. destruct (InitializePartition_outcome ctx p n (w_cat w) Ht) as [E|(_ & v & E)].
    + by eapply cat_ok_equiv.
    + eapply cat_ok_updated; [done|exact E|]. by apply part_ok_empty.
  - cbn [step]. destruct (OpenWriter ctx p wid (w_cat w)) as [c' r] eqn:E.
    destruct (OpenWriter_outcome _ _ _ _ _ _ E) as [(e & -> & Eq)|(v & -> & _ & Eu)]; cbn [w_cat].
    + by eapply cat_ok_equiv.
    + eapply cat_ok_updated; [done|exact Eu|]. by apply part_ok_epoch.
  - destruct (w_sessions w !! sid) as [s|] eqn:Es; [|by rewrite (step_no_session w _ sid) by eauto].
    destruct (let '(expected, known) := append_intent s seg in
       appendSegment ctx (ws_partition s) (ws_writerID s) (ws_writerEpoch s) expected seg known (w_cat w))
      as [c' r] eqn:E.
    destruct (step_append _ _ _ _ _ _ _ Es E) as [-> _].
    destruct (append_intent s seg) as [expected known].
    apply appendSegment_outcome in E. destruct E as [e Eq|Eq _|v HV HS HP _ _ _ _ _ HB HT HU Eu].
    + by eapply cat_ok_equiv.
    + by eapply cat_ok_equiv.
    + eapply cat_ok_updated; [done|exact Eu|]. by apply part_ok_append.
  - destruct (w_sessions w !! sid) as [s|] eqn:Es; [|by rewrite (step_no_session w _ sid) by eauto].
    destruct (applyPendingRetention ctx (ws_partition s) (ws_writerID s) (ws_writerEpoch s) (w_cat w)) as [c' r] eqn:E.
    destruct (step_retention _ _ _ _ _ _ Es E) as [-> _].
    apply applyPendingRetention_outcome in E; [|done].
    destruct E as [e Eq|req v Eq|req v HR HE HW HV HB Eu].
    + by eapply cat_ok_equiv.
    + by eapply cat_ok_equiv.
    + eapply cat_ok_updated; [done|exact Eu|]. apply part_ok_retain; [apply Hok|].
      pose proof (po_next _ _ _ (Hok (ws_partition s))) as [? _].
      pose proof (po_retention _ _ _ (Hok (ws_partition s))).
      unfold retention_target, head_of in *. lia.
  - cbn [step w_cat]. destruct (RequestRetention_partitions ctx p r (w_cat w)) as [Hs Hp].
    intros q. rewrite Hs, Hp. apply Hok.
Qed.

Lemma run_cat_ok w ops : Forall op_typed ops → cat_ok (w_cat w) → cat_ok (w_cat (run w ops)).
Proof.
  intros Ht. revert w; induction Ht as [|o ops Ho Ht IH]; intros w Hw; [done|].
  cbn. apply IH, step_cat_ok; done.
Qed.

Lemma init_cat_ok addr : cat_ok (NewMemoryCatalog addr).
Proof. intros p. unfold part_of. cbn. apply part_ok_empty. by unfold_widths. Qed.

(** C9. Catalog invariant.  After any sequence of calls, by any number of writer
    sessions and whatever errors they met, every partition of the catalog is
    well formed: its retained segments are valid, contiguous in LSN, ordered in
    time and have distinct UUIDs and URIs; the head's counters, oldest and next
    LSN and last segment describe exactly that history. *)
Theorem memory_catalog_invariant addr ops p :
  Forall op_typed ops →
  let c := w_cat (run (init_world addr) ops) in part_ok (mc_streamID c) p (part_of c p).
Proof. intros Ht. apply run_cat_ok; [done | apply init_cat_ok]. Qed.

(** ** Appending *)
Lemma history_unique c p i j seg :
  cat_ok c → history c p !! i = Some seg → history c p !! j = Some seg → i = j.
Proof.
  intros Hok Hi Hj. pose proof (po_uuid _ _ _ (Hok p)) as Hu.
  eapply (NoDup_lookup _ i j (sr_SegmentUUID seg) Hu);
    change (map sr_SegmentUUID) with (fmap sr_SegmentUUID : list SegmentRef → list (list byte));
    rewrite list_lookup_fmap; unfold history in *; [by rewrite Hi | by rewrite Hj].
Qed.

Lemma updated_part p d c c' : updated p d c c' → part_of c' p = d ∧ ∀ q, q ≠ p → part_of c' q = part_of c q.
Proof. by intros (_ & _ & _ & ? & ?). Qed.

Lemma idempotentRetry_found c p seg :
  cat_ok c → seg ∈ history c p → SegmentRef_typed seg →
  idempotentRetry (part_of c p) (sr_BaseLSN seg) seg = Some (head_of c p).
Proof.
  intros Hok [i Hi]%list_elem_of_lookup_1 Ht. unfold idempotentRetry. rewrite Z.eqb_refl. cbn [negb].
  pose proof (po_chain _ _ _ (Hok p)) as Hc. fold (history c p) in Hc. fold (history c p).
  unfold firstSegmentAtOrAfter. change sr_LastLSN with (hi (A:=SegmentRef)).
  rewrite search_hi_lookup, (from_lsn_suffix _ i seg Hc Hi), head_lookup, lookup_drop, Nat.add_0_r, Hi by done.
  rewrite bool_decide_true by done. done.
Qed.

Lemma session_append_run ctx seg c s c' s' r :
  Session_AppendSegment ctx seg (c, s) = ((c', s'), r) →
  ∃ r0, append_outcome (ws_partition s) (ws_writerID s) (ws_writerEpoch s) seg c c' r0 ∧
  match r0 with
  | Err e => r = Err e ∧ s' = s
  | Ok (h, v) =>
      let state := if (append_intent s seg).2 then ws_state s else h in
      r = Ok state ∧ s' = set_ws_state state v s
  end.
Proof.
  unfold Session_AppendSegment. destruct (append_intent s seg) as [expected known].
  destruct (appendSegment _ _ _ _ _ _ _ _) as [c1 [[h v]|e]] eqn:E; intros [= <- <- <-];
    apply appendSegment_outcome in E; (eexists; split; [exact E|]); done.
Qed.

Lemma append_intent_known s seg :
  (append_intent s seg).2 = true → PartitionHead_Last (ws_state s) = Some seg.
Proof. unfold append_intent. repeat case_match; cbn; intros; try done. bool_to_prop. by subst. Qed.

(** A committed last segment is recognised when it is appended again. *)
Lemma session_retry c s seg :
  cat_ok c → seg ∈ history c (ws_partition s) → SegmentRef_typed seg →
  PartitionHead_Last (ws_state s) = Some seg → sr_WriterTag seg = ws_writerID s →
  sr_WriterEpoch seg = ws_writerEpoch s → ws_headVersion s = mp_headVersion (part_of c (ws_partition s)) →
  ∃ c', Session_AppendSegment None seg (c, s) = ((c', s), Ok (ws_state s)) ∧ c' ≡ c.
Proof.
  intros Hok Hin Ht Hl Htag Hep Hv. unfold Session_AppendSegment, append_intent. rewrite Hl.
  rewrite bool_decide_true by done. unfold appendSegment. run_st.
  pose proof (po_valid _ _ _ (Hok (ws_partition s))) as Hva.
  rewrite Forall_forall in Hva. destruct (Hva _ Hin) as (_ & HV & Hid & Hp).
  unfold ValidateAppendSegment. rewrite Hid, Hp, Hep, !Z.eqb_refl, HV, bool_decide_true by done. cbn [negb wrap_err].
  destruct (getOrCreateLocked_run (ws_partition s) c) as (c1 & -> & Hc1).
  rewrite Htag, bool_decide_true by done. cbn [negb]. rewrite idempotentRetry_found by done.
  exists c1. split; [|done]. rewrite <- Hv. by destruct s.
Qed.

(** C10. Exactly-once append.  A session's [AppendSegment] never touches another
    partition.  When it fails it changes nothing.  When it succeeds the segment
    is in the history at exactly one position: it was either published at the
    end, or recognised as already committed; and repeating the call that
    published it succeeds again with the same head and no further effect. *)
Theorem append_exactly_once ctx seg c s c' s' r :
  cat_ok c → SegmentRef_typed seg →
  Session_AppendSegment ctx seg (c, s) = ((c', s'), r) →
  let p := ws_partition s in
  (∀ q, q ≠ p → part_of c' q = part_of c q) ∧
  match r with
  | Err _ => c' ≡ c ∧ s' = s
  | Ok h =>
      (∃ i, history c' p !! i = Some seg ∧ ∀ j, history c' p !! j = Some seg → j = i) ∧
      (history c' p = history c p ∨
       history c' p = history c p ++ [seg] ∧ PartitionHead_Last h = Some seg ∧
       ∃ c'', Session_AppendSegment None seg (c', s') = ((c'', s'), Ok h) ∧ c'' ≡ c')
  end.
Proof.
  intros Hok Ht HA p. destruct (session_append_run _ _ _ _ _ _ _ HA) as (r0 & HO & Hr). fold p in HO.
  destruct HO as [e Eq|Eq Hin|v HV HS HP HE HTag HE' H0 HW HB HT HU Eu].
  - destruct Hr as [-> ->]. split; [|done]. intros q _. by rewrite Eq.
  - destruct Hr as [-> ->]. split; [intros q _; by rewrite Eq|].
    assert (Hh : history c' p = history c p) by (by rewrite Eq). rewrite Hh. split; [|by left].
    apply list_elem_of_lookup_1 in Hin as [i Hi]. exists i. split; [done|]. intros j Hj.
    by eapply history_unique.
  - assert (Hok' : cat_ok c') by (eapply cat_ok_updated; [done|exact Eu|]; by apply part_ok_append).
    destruct (updated_part _ _ _ _ Eu) as [Hp' Hq]. destruct Hr as [-> ->]. split; [done|].
    assert (Hh : history c' p = history c p ++ [seg]) by (unfold history at 1; by rewrite Hp').
    assert (Hi : history c' p !! length (history c p) = Some seg) by (rewrite Hh; by apply list_lookup_middle).
    split; [exists (length (history c p)); split; [done|]; intros j Hj; by eapply history_unique|].
    right. split; [done|].
    assert (HL : PartitionHead_Last (if (append_intent s seg).2 then ws_state s else appended_head seg (head_of c p)) = Some seg).
    { destruct (append_intent s seg).2 eqn:Ei; [by apply append_intent_known | done]. }
    split; [done|]. eapply (session_retry c' (set_ws_state _ v s)); try done.
    + by eapply list_elem_of_lookup_2.
    + cbn. fold p. by rewrite Hp'.
Qed.

(** ** Fencing *)
Abbreviation epoch_of w p := (ph_WriterEpoch (head_of (w_cat w) p)).
Definition op_session (o : op) : option nat :=
  match o with OpAppend sid _ _ => Some sid | OpApplyRetention sid _ => Some sid | _ => None end.

(** A call of a session whose epoch is not the partition's is inert. *)
Lemma wrong_epoch_inert w o sid s :
  cat_ok (w_cat w) → op_session o = Some sid → w_sessions w !! sid = Some s →
  ws_writerEpoch s ≠ epoch_of w (ws_partition s) → w_cat (step w o) ≡ w_cat w.
Proof.
  intros Hok Ho Hs Hne. destruct o as [| |sid' ctx seg|sid' ctx|]; try discriminate; injection Ho as ->.
  - destruct (let '(expected, known) := append_intent s seg in
       appendSegment ctx (ws_partition s) (ws_writerID s) (ws_writerEpoch s) expected seg known (w_cat w))
      as [c' r] eqn:E.
    destruct (step_append _ _ _ _ _ _ _ Hs E) as [-> _]. destruct (append_intent s seg) as [expected known].
    apply appendSegment_outcome in E. by destruct E.
  - destruct (applyPendingRetention ctx (ws_partition s) (ws_writerID s) (ws_writerEpoch s) (w_cat w)) as [c' r] eqn:E.
    destruct (step_retention _ _ _ _ _ _ Hs E) as [-> _].
    apply applyPendingRetention_outcome in E; [|done]. by destruct E.
Qed.

(** One call moves a partition's epoch by at most one, upwards. *)
Lemma step_epoch w o p :
  cat_ok (w_cat w) → op_typed o → 0 ≤ epoch_of w p < MaxUint64 → epoch_of w p ≤ epoch_of (step w o) p ≤ epoch_of w p + 1.
Proof.
  intros Hok Ht Hb.
  assert (Hsame : ∀ c', c' ≡ w_cat w → ph_WriterEpoch (head_of (w_cat w) p) ≤ ph_WriterEpoch (head_of c' p) ≤ ph_WriterEpoch (head_of (w_cat w) p) + 1)
    by (intros c' E; rewrite E; lia).
  assert (Hupd : ∀ q d c', updated q d (w_cat w) c' → ph_WriterEpoch (head_of (w_cat w) q) ≤ ph_WriterEpoch (mp_state d) ≤ ph_WriterEpoch (head_of (w_cat w) q) + 1 ∨ p ≠ q →
    ph_WriterEpoch (head_of (w_cat w) p) ≤ ph_WriterEpoch (head_of c' p) ≤ ph_WriterEpoch (head_of (w_cat w) p) + 1).
  { intros q d c' [E1 E2]%updated_part He. unfold head_of in *.
    destruct (decide (p = q)) as [->|Hpq]; [rewrite E1; destruct He; [lia|done] | rewrite E2 by done; lia]. }
  destruct o as [ctx q n|ctx q wid|sid ctx seg|sid ctx|ctx q r].
  - cbn [step w_cat]. destruct (InitializePartition_outcome ctx q n (w_cat w) Ht) as [E|(En & v & E)]; [auto|].
    eapply Hupd; [exact E|]. left. unfold head_of, part_of. rewrite En. cbn. lia.
  - cbn [step]. destruct (OpenWriter ctx q wid (w_cat w)) as [c' r] eqn:E.
    destruct (OpenWriter_outcome _ _ _ _ _ _ E) as [(e & -> & Eq)|(v & -> & _ & Eu)]; cbn [w_cat]; [auto|].
    eapply Hupd; [exact Eu|]. destruct (decide (p = q)) as [->|]; [left|by right]. cbn.
    rewrite uint64_id by (unfold_widths; lia). lia.
  - destruct (w_sessions w !! sid) as [s|] eqn:Es; [|rewrite (step_no_session w _ sid) by eauto; lia].
    destruct (let '(expected, known) := append_intent s seg in
       appendSegment ctx (ws_partition s) (ws_writerID s) (ws_writerEpoch s) expected seg known (w_cat w))
      as [c' r] eqn:E.
    destruct (step_append _ _ _ _ _ _ _ Es E) as [-> _]. destruct (append_intent s seg) as [expected known].
    apply appendSegment_outcome in E. destruct E as [e Eq|Eq _|v HV HS HP _ _ _ _ _ HB HT HU Eu]; [auto..|].
    eapply Hupd; [exact Eu|]. left. cbn. lia.
  - destruct (w_sessions w !! sid) as [s|] eqn:Es; [|rewrite (step_no_session w _ sid) by eauto; lia].
    destruct (applyPendingRetention ctx (ws_partition s) (ws_writerID s) (ws_writerEpoch s) (w_cat w)) as [c' r] eqn:E.
    destruct (step_retention _ _ _ _ _ _ Es E) as [-> _].
    apply applyPendingRetention_outcome in E; [|done].
    destruct E as [e Eq|req v Eq|req v HR HE HW HV HB Eu]; [auto..|].
    eapply Hupd; [exact Eu|]. left. cbn. lia.
  - cbn [step w_cat]. destruct (RequestRetention_partitions ctx q r (w_cat w)) as [_ Hp].
    unfold head_of. rewrite Hp. lia.
Qed.

(** Sessions keep their identity. *)
Lemma step_sessions w o sid s :
  w_sessions w !! sid = Some s →
  ∃ s', w_sessions (step w o) !! sid = Some s' ∧
        ws_partition s' = ws_partition s ∧ ws_writerEpoch s' = ws_writerEpoch s.
Proof.
  intros Hs.
  assert (Hins : ∀ sid' s0 s', w_sessions w !! sid' = Some s0 → ws_partition s' = ws_partition s0 →
    ws_writerEpoch s' = ws_writerEpoch s0 → ∃ s'', <[sid' := s']> (w_sessions w) !! sid = Some s'' ∧
        ws_partition s'' = ws_partition s ∧ ws_writerEpoch s'' = ws_writerEpoch s).
  { intros sid' s0 s' H0 HP HE. destruct (decide (sid = sid')) as [<-|Hne].
    - rewrite list_lookup_insert_eq by (by eapply lookup_lt_Some). exists s'. split; [done|]. by simplify_eq.
    - rewrite list_lookup_insert_ne by done. eauto. }
  destruct o as [ctx q n|ctx q wid|sid' ctx seg|sid' ctx|ctx q r]; cbn [step].
  - eauto.
  - destruct (OpenWriter _ _ _ _) as [c [s1|e]]; cbn [w_sessions]; [|eauto].
    rewrite lookup_app_l by (by eapply lookup_lt_Some). eauto.
  - unfold with_session. destruct (w_sessions w !! sid') as [s0|] eqn:E0; [|eauto].
    destruct (Session_AppendSegment ctx seg (w_cat w, s0)) as [[c s1] r] eqn:E.
    destruct (session_append_run _ _ _ _ _ _ _ E) as (r0 & _ & Hr). cbn [w_sessions].
    eapply Hins; [exact E0|..]; destruct r0 as [[h v]|e]; destruct Hr as [_ ->]; done.
  - unfold with_session, Session_ApplyPendingRetention. destruct (w_sessions w !! sid') as [s0|] eqn:E0; [|eauto].
    destruct (applyPendingRetention _ _ _ _ _) as [c [[h v]|e]]; cbn [w_sessions]; by eapply Hins.
  - eauto.
Qed.

(** No session is ahead of its partition, as long as the epoch counter has not
    gone around. *)
Definition epochs_ok (w : world) (n : Z) : Prop :=
  (∀ p, 0 ≤ epoch_of w p ≤ n) ∧
  ∀ sid s, w_sessions w !! sid = Some s → ws_writerEpoch s ≤ epoch_of w (ws_partition s).

Lemma step_epochs_ok w o n :
  cat_ok (w_cat w) → op_typed o → n < MaxUint64 → epochs_ok w n → epochs_ok (step w o) (n + 1).
Proof.
  intros Hok Ht Hn [Hb Hs].
  assert (Hstep : ∀ p, epoch_of w p ≤ epoch_of (step w o) p ≤ epoch_of w p + 1)
    by (intros p; specialize (Hb p); apply step_epoch; [done..|lia]).
  split; [intros p; specialize (Hb p); specialize (Hstep p); lia|].
  intros sid s Hsid. destruct (w_sessions w !! sid) as [s0|] eqn:E0.
  - destruct (step_sessions w o sid s0 E0) as (s1 & E1 & HP & HE). rewrite E1 in Hsid. injection Hsid as <-.
    rewrite HP, HE. specialize (Hs sid s0 E0). specialize (Hstep (ws_partition s0)). lia.
  - destruct o as [ctx q m|ctx q wid|sid' ctx seg|sid' ctx|ctx q r]; cbn [step] in Hsid |- *;
      try (cbn in Hsid; congruence).
    + destruct (OpenWriter ctx q wid (w_cat w)) as [c' r] eqn:E.
      destruct (OpenWriter_outcome _ _ _ _ _ _ E) as [(e & -> & _)|(v & -> & _ & Eu)]; cbn in Hsid |- *; [congruence|].
      apply lookup_ge_None in E0. apply lookup_app_Some in Hsid as [Hsid|[_ Hsid]];
        [apply lookup_lt_Some in Hsid; lia|].
      apply list_lookup_singleton_Some in Hsid as [_ <-]. cbn. unfold head_of at 2.
      by rewrite (proj1 (updated_part _ _ _ _ Eu)).
    + unfold with_session in Hsid |- *. destruct (w_sessions w !! sid') as [s0|] eqn:E1; [|congruence].
      destruct (Session_AppendSegment ctx seg (w_cat w, s0)) as [[c s1] r] eqn:E. cbn in Hsid.
      apply lookup_lt_Some in Hsid. rewrite length_insert in Hsid. apply lookup_ge_None in E0. lia.
    + unfold with_session in Hsid |- *. destruct (w_sessions w !! sid') as [s0|] eqn:E1; [|congruence].
      destruct (Session_ApplyPendingRetention ctx (w_cat w, s0)) as [[c s1] r] eqn:E. cbn in Hsid.
      apply lookup_lt_Some in Hsid. rewrite length_insert in Hsid. apply lookup_ge_None in E0. lia.
Qed.

Lemma run_epochs_ok w ops n :
  cat_ok (w_cat w) → Forall op_typed ops → n + len ops ≤ MaxUint64 → epochs_ok w n →
  epochs_ok (run w ops) (n + len ops).
Proof.
  intros Hok Ht. revert w n Hok; induction Ht as [|o ops Ho Ht IH]; intros w n Hok Hn He.
  - unfold len; cbn. by rewrite Z.add_0_r.
  - change (run w (o :: ops)) with (run (step w o) ops).
    replace (len (o :: ops)) with (1 + len ops) in * by (unfold len; cbn [length]; lia).
    pose proof (len_nonneg ops). rewrite Z.add_assoc.
    apply IH; [by apply step_cat_ok | lia | apply step_epochs_ok; auto; lia].
Qed.

(** A session behind its partition's epoch stays behind. *)
Definition fenced (w : world) (sid : nat) : Prop :=
  ∃ s, w_sessions w !! sid = Some s ∧ ws_writerEpoch s < epoch_of w (ws_partition s).

Lemma run_fenced w ops sid n :
  cat_ok (w_cat w) → Forall op_typed ops → n + len ops ≤ MaxUint64 → epochs_ok w n → fenced w sid →
  fenced (run w ops) sid.
Proof.
  intros Hok Ht. revert w n Hok; induction Ht as [|o ops Ho Ht IH]; intros w n Hok Hn He Hf; [done|].
  change (run w (o :: ops)) with (run (step w o) ops).
  replace (len (o :: ops)) with (1 + len ops) in * by (unfold len; cbn [length]; lia).
  pose proof (len_nonneg ops). apply (IH _ (n + 1)); [by apply step_cat_ok | lia | apply step_epochs_ok; auto; lia|].
  destruct Hf as (s & Hs & Hlt). destruct (step_sessions w o sid s Hs) as (s' & Hs' & HP & HE).
  exists s'. split; [done|]. rewrite HP, HE. destruct He as [Hb _]. specialize (Hb (ws_partition s)).
  pose proof (step_epoch w o (ws_partition s) Hok Ho ltac:(lia)). lia.
Qed.

(** C11. Fencing.  Once another writer has been opened on a partition, every
    session opened there before is inert for good: whatever calls happen in
    between, its appends and retention applications leave the catalog as it is
    (an append may still be acknowledged as already committed).  The bound is
    the one the epoch counter imposes: fewer than 2^64 calls. *)
Theorem fenced_writer_is_inert addr before ctx p wid c s_new between sid s o :
  Forall op_typed before → Forall op_typed between →
  len before + 1 + len between ≤ MaxUint64 →
  let w := run (init_world addr) before in
  OpenWriter ctx p wid (w_cat w) = (c, Ok s_new) →
  w_sessions w !! sid = Some s → ws_partition s = p →
  let w' := run (step w (OpOpenWriter ctx p wid)) between in
  op_session o = Some sid → w_cat (step w' o) ≡ w_cat w'.
Proof.
  intros Hb1 Hb2 Hn w HO Hs Hp w' Hop. pose proof (len_nonneg before). pose proof (len_nonneg between).
  assert (Hok : cat_ok (w_cat w)) by (apply run_cat_ok; [done|apply init_cat_ok]).
  assert (He : epochs_ok w (len before)).
  { apply (run_epochs_ok (init_world addr) before 0); [apply init_cat_ok|done|lia|].
    split; [|done]. intros q. unfold head_of, part_of. cbn [w_cat init_world NewMemoryCatalog mc_partitions].
    rewrite lookup_empty. cbn. done. }
  assert (Hok1 : cat_ok (w_cat (step w (OpOpenWriter ctx p wid)))) by (by apply step_cat_ok).
  assert (Hf : fenced (step w (OpOpenWriter ctx p wid)) sid).
  { destruct (step_sessions w (OpOpenWriter ctx p wid) sid s Hs) as (s' & Hs' & HP & HE).
    exists s'. split; [done|]. rewrite HP, HE, Hp. destruct He as [Hb HS]. specialize (HS sid s Hs). rewrite Hp in HS.
    specialize (Hb p). cbn [step]. rewrite HO. cbn [w_cat].
    destruct (OpenWriter_outcome _ _ _ _ _ _ HO) as [(e & [=] & _)|(v & _ & _ & Eu)].
    unfold head_of at 1. rewrite (proj1 (updated_part _ _ _ _ Eu)). cbn. rewrite uint64_id by (unfold_widths; lia). lia. }
  apply (run_fenced _ between sid (len before + 1)) in Hf as (s' & Hs' & Hlt);
    [|done|done|lia|by apply step_epochs_ok; [done|done|lia|]].
  eapply wrong_epoch_inert; [by apply run_cat_ok|done|exact Hs'|].
  intros Heq. rewrite Heq in Hlt. exact (Z.lt_irrefl _ Hlt).
Qed.

(** ** Reads *)
Lemma reads_view c p :
  match mc_partitions c !! p with
  | Some d => d = part_of c p
  | None => history c p = [] ∧ head_of c p = empty_head (mc_streamID c) p
  end.
Proof. unfold history, head_of, part_of. by destruct (mc_partitions c !! p). Qed.

Lemma FindSegment_spec c p lsn : cat_ok c → FindSegment None p lsn c = Ok (at_lsn lsn (history c p)).
Proof.
  intros Hok. unfold FindSegment. pose proof (po_chain _ _ _ (Hok p)) as Hc. fold (history c p) in Hc.
  rewrite at_lsn_from by done. pose proof (reads_view c p) as Hv.
  destruct (mc_partitions c !! p) as [d|]; [subst d|by destruct Hv as [-> _]].
  fold (history c p). unfold firstSegmentAtOrAfter. change sr_LastLSN with (hi (A:=SegmentRef)).
  rewrite search_hi_lookup by done.
  destruct (head (from_lsn lsn (history c p))) as [s|] eqn:E; [|done].
  apply head_Some_elem_of in E. unfold from_lsn in E. apply list_elem_of_In, List.filter_In in E as [_ E].
  apply Z.leb_le in E. cbn [lo SegmentRef_Ranged]. rewrite Z.leb_antisym.
  rewrite (proj2 (Z.ltb_ge (hi s) lsn)) by lia. rewrite orb_false_r. by destruct (lsn <? sr_BaseLSN s).
Qed.

Lemma ListSegments_spec c p from limit :
  cat_ok c →
  let req := mkListSegmentsRequest p from limit in
  ListSegments None req c = Ok (spec_page (history c p) from (Z.to_nat (normalizedLimit req))).
Proof.
  intros Hok req. pose proof (po_chain _ _ _ (Hok p)) as Hc. fold (history c p) in Hc.
  unfold ListSegments, spec_page. cbn [ls_Partition ls_FromLSN req]. pose proof (reads_view c p) as Hv.
  destruct (mc_partitions c !! p) as [d|]; [subst d|by destruct Hv as [-> _]].
  fold (history c p). cbv zeta. set (limit' := Z.to_nat (normalizedLimit req)). set (l := history c p) in *.
  unfold firstSegmentAtOrAfter. change sr_LastLSN with (hi (A:=SegmentRef)).
  pose proof (search_from_lsn from l Hc) as Hd.
  destruct (search_spec _ _ (chain_switches_hi from l Hc)) as (Hle & _ & _).
  set (start := search _ l) in *. rewrite <- Hd.
  destruct (Nat.eqb_spec start (length l)) as [->|Hne].
  { rewrite drop_all, lookup_nil. done. }
  rewrite lookup_drop. destruct (Nat.ltb_spec (length l) (start + limit')) as [Hlt|Hge].
  - rewrite !(lookup_ge_None_2 l) by lia. rewrite firstn_all2 by (rewrite length_drop; lia). done.
  - replace (start + limit' - start)%nat with limit' by lia.
    destruct (l !! (start + limit')%nat) as [s|] eqn:E; [done|].
    apply lookup_ge_None in E. rewrite firstn_all2 by (rewrite length_drop; lia). done.
Qed.

Lemma LookupTimestamp_spec c p ts :
  cat_ok c →
  LookupTimestamp None (mkTimestampLookupRequest p ts) c =
  Ok match from_ts ts (history c p) with
     | Some s => mkTimestampLookupResult (head_of c p) s true
     | None => mkTimestampLookupResult (head_of c p) zero_SegmentRef false
     end.
Proof.
  intros Hok. unfold LookupTimestamp. cbn [tl_Partition tl_TimestampMS].
  pose proof (po_chain _ _ _ (Hok p)) as Hc. fold (history c p) in Hc. pose proof (reads_view c p) as Hv.
  destruct (mc_partitions c !! p) as [d|]; [subst d|by destruct Hv as [-> ->]].
  fold (history c p). fold (head_of c p). unfold firstSegmentAtOrAfterTimestamp.
  change sr_MaxTimestampMS with (tmax (A:=SegmentRef)). rewrite search_from_ts by done.
  by destruct (from_ts ts (history c p)).
Qed.

Lemma history_cover c p lsn :
  cat_ok c → ph_OldestLSN (head_of c p) ≤ lsn < ph_NextLSN (head_of c p) → is_Some (at_lsn lsn (history c p)).
Proof.
  intros Hok Hl. destruct (Hok p) as [_ Hch _ _ _ _ Ho _ Hhl Hnl Hlast _ _ _].
  fold (history c p) in *. fold (head_of c p) in *.
  destruct (history c p) as [|s0 segs] eqn:E.
  { unfold oldest_of in Ho. cbn in Ho. lia. }
  pose proof (last_List_last s0 segs) as HL. eapply (chain_cover _ s0 _ lsn Hch eq_refl HL).
  assert (Hhas : ph_HasLastSegment (head_of c p) = true).
  { destruct (ph_HasLastSegment _); [done|]. by destruct (Hnl eq_refl). }
  destruct (Hhl Hhas) as [Hn _]. rewrite (Hlast _ HL) in Hn. unfold oldest_of in Ho. cbn in *. lia.
Qed.

(** C12. Reads.  The binary searches of the memory catalog compute the
    specification: [FindSegment] returns the segment holding an LSN, and finds
    one for every LSN between the oldest and the next; [LookupTimestamp] returns
    the earliest segment reaching a timestamp, with the head it belongs to; and
    following [ListSegments] pages, of any size, yields every retained segment
    from the starting LSN exactly once and in order. *)
Theorem memory_reads_spec c p :
  cat_ok c →
  (∀ lsn, FindSegment None p lsn c = Ok (at_lsn lsn (history c p))) ∧
  (∀ lsn, ph_OldestLSN (head_of c p) ≤ lsn < ph_NextLSN (head_of c p) →
     ∃ s, FindSegment None p lsn c = Ok (Some s) ∧ s ∈ history c p ∧ sr_BaseLSN s ≤ lsn ≤ sr_LastLSN s) ∧
  (∀ ts, LookupTimestamp None (mkTimestampLookupRequest p ts) c =
     Ok match from_ts ts (history c p) with
        | Some s => mkTimestampLookupResult (head_of c p) s true
        | None => mkTimestampLookupResult (head_of c p) zero_SegmentRef false
        end) ∧
  (∀ from limit,
     let page f := match ListSegments None (mkListSegmentsRequest p f limit) c with
                   | Ok page => page | Err _ => empty_page end in
     read_pages (S (length (history c p))) page from = from_lsn from (history c p)).
Proof.
  intros Hok. pose proof (po_chain _ _ _ (Hok p)) as Hc. fold (history c p) in Hc.
  split; [intros; by apply FindSegment_spec|]. split; [|split; [intros; by apply LookupTimestamp_spec|]].
  - intros lsn Hl. destruct (history_cover c p lsn Hok Hl) as [s Hs]. exists s.
    rewrite FindSegment_spec, Hs by done. split; [done|]. by apply (at_lsn_Some _ _ _ Hc).
  - intros from limit page. set (lim := Z.to_nat (normalizedLimit (mkListSegmentsRequest p from limit))).
    rewrite <- (read_pages_spec (history c p) from lim (S (length (history c p)))); [|done| |].
    + apply read_pages_ext. intros f. unfold page. by rewrite ListSegments_spec.
    + unfold lim, normalizedLimit, DefaultSegmentPageLimit, MaxSegmentPageLimit; cbn. repeat case_match; bool_to_prop; lia.
    + unfold from_lsn. pose proof (List.filter_length_le (λ a, from <=? hi a) (history c p)). lia.
Qed.

(** ** Retention, as readers see it *)
Lemma at_lsn_from_lsn (l : list SegmentRef) t x : t ≤ x → at_lsn x (from_lsn t l) = at_lsn x l.
Proof.
  intros Ht. unfold at_lsn, from_lsn. induction l as [|a l IH]; [done|]. cbn [List.filter List.find].
  destruct (Z.leb_spec t (hi a)); cbn [List.find]; rewrite IH; [done|].
  by rewrite (proj2 (Z.leb_gt x (hi a))), andb_false_r by lia.
Qed.

Lemma retained_oldest c p req :
  cat_ok c → 0 ≤ retention_target req (head_of c p) ≤ ph_NextLSN (head_of c p) →
  let o := oldest_of (ph_NextLSN (head_of c p)) (retained req c p) in
  ph_OldestLSN (head_of c p) ≤ o ≤ Z.max (ph_OldestLSN (head_of c p)) (rq_BeforeLSN req).
Proof.
  intros Hok Ht o. pose proof (oldest_of_le _ _ _ (Hok p)) as Hall. pose proof (history_cover c p) as Hcov.
  destruct (Hok p) as [_ Hch _ _ _ _ Ho Hon _ _ _ _ _ _].
  fold (history c p) in *. fold (head_of c p) in *.
  set (t := retention_target req (head_of c p)) in *.
  assert (Htb : t ≤ rq_BeforeLSN req) by (unfold t, retention_target; lia).
  unfold o, oldest_of, retained. fold t. pose proof (at_lsn_from t (history c p) Hch) as Hat.
  destruct (Z.lt_ge_cases t (ph_OldestLSN (head_of c p))) as [Hlt|Hge].
  { assert (Hid : from_lsn t (history c p) = history c p).
    { apply List.forallb_filter_id, List.forallb_forall. intros s Hs%list_elem_of_In.
      destruct (Hall s Hs). pose proof (chain_range_ok _ s Hch Hs) as [? _]. apply Z.leb_le. cbn in *. lia. }
    rewrite Hid. unfold oldest_of in Ho. lia. }
  destruct (head (from_lsn t (history c p))) as [s|] eqn:E.
  - assert (Hin : s ∈ history c p).
    { apply head_Some_elem_of in E. unfold from_lsn in E. apply list_elem_of_In, List.filter_In in E as [E _].
      by apply list_elem_of_In. }
    destruct (Hall s Hin) as [Hs1 Hs2]. split; [lia|].
    destruct (Z.eq_dec t (ph_NextLSN (head_of c p))) as [Heq|Hneq].
    + pose proof (chain_range_ok _ s Hch Hin) as [? _]. cbn in *. lia.
    + destruct (Hcov t Hok ltac:(lia)) as [s' Hs']. rewrite Hs' in Hat.
      destruct (Z.leb_spec (lo s) t); [|done]. cbn in *. lia.
  - destruct (Z.eq_dec t (ph_NextLSN (head_of c p))) as [Heq|Hneq]; [lia|].
    destruct (Hcov t Hok ltac:(lia)) as [s' Hs']. congruence.
Qed.

(** C13. Retention.  Applying a pending request through a session touches only
    its partition and never its next LSN; on an error, or when there is nothing
    newer to apply, it changes nothing.  When it applies, exactly the segments
    ending below the requested boundary (clamped to the next LSN) disappear: no
    LSN at or above the boundary becomes unreadable, the oldest LSN does not
    move back and never passes the boundary, and applying again is a no-op. *)
Theorem retention_drops_below_boundary ctx c s c' s' r :
  cat_ok c → Session_ApplyPendingRetention ctx (c, s) = ((c', s'), r) →
  let p := ws_partition s in
  (∀ q, q ≠ p → part_of c' q = part_of c q) ∧ ph_NextLSN (head_of c' p) = ph_NextLSN (head_of c p) ∧
  match r with
  | Err _ => c' ≡ c ∧ s' = s
  | Ok res =>
      ra_Head res = head_of c' p ∧
      if ra_Applied res then
        let before := rq_BeforeLSN (ra_Request res) in
        mc_retention c !! p = Some (ra_Request res) ∧
        (∀ seg, seg ∈ history c' p ↔ seg ∈ history c p ∧ Z.min before (ph_NextLSN (head_of c p)) ≤ sr_LastLSN seg) ∧
        (∀ lsn, before ≤ lsn → FindSegment None p lsn c' = FindSegment None p lsn c) ∧
        ph_OldestLSN (head_of c p) ≤ ph_OldestLSN (head_of c' p) ≤ Z.max (ph_OldestLSN (head_of c p)) before ∧
        ∃ c'' s'' res', Session_ApplyPendingRetention None (c', s') = ((c'', s''), Ok res') ∧
          ra_Applied res' = false ∧ c'' ≡ c'
      else c' ≡ c
  end.
Proof.
  intros Hok HA p. unfold Session_ApplyPendingRetention in HA. fold p in HA.
  destruct (applyPendingRetention ctx p (ws_writerID s) (ws_writerEpoch s) c) as [c1 r1] eqn:E.
  apply applyPendingRetention_outcome in E as HO; [|done].
  destruct HO as [e Eq|req v Eq|req v HR HE HW HV HB Eu]; injection HA as <- <- <-.
  - split; [intros q _; by rewrite Eq|]. split; [by rewrite Eq | done].
  - split; [intros q _; by rewrite Eq|]. split; [by rewrite Eq|]. split; [cbn; by rewrite Eq | done].
  - assert (Ht : 0 ≤ retention_target req (head_of c p) ≤ ph_NextLSN (head_of c p)).
    { pose proof (po_next _ _ _ (Hok p)) as [? _]. pose proof (po_retention _ _ _ (Hok p)).
      unfold retention_target, head_of in *. lia. }
    assert (Hok' : cat_ok c1) by (eapply cat_ok_updated; [done|exact Eu|]; by apply part_ok_retain).
    pose proof (updated_part _ _ _ _ Eu) as [Hp Hq].
    assert (Hh : history c1 p = retained req c p) by (unfold history at 1; by rewrite Hp).
    assert (Hhd : head_of c1 p = retained_head req c p) by (unfold head_of at 1; by rewrite Hp).
    rewrite Hhd. split; [done|]. split; [done|]. cbn [ra_Head ra_Applied ra_Request]. split; [done|]. split; [done|].
    split; [|split; [|split]].
    + intros seg. rewrite Hh. unfold retained, from_lsn. rewrite !list_elem_of_In, List.filter_In, Z.leb_le. done.
    + intros lsn Hl. rewrite !FindSegment_spec, Hh by done. unfold retained. rewrite at_lsn_from_lsn; [done|].
      unfold retention_target. lia.
    + exact (retained_oldest c p req Hok Ht).
    + unfold Session_ApplyPendingRetention, applyPendingRetention. run_st.
      cbn [set_ws_state ws_partition ws_writerID ws_writerEpoch]. fold p.
      destruct (getOrCreateLocked_run p c1) as (c2 & -> & Hc2).
      fold (head_of c1 p). rewrite Hp, Hhd. cbn [mp_writerID].
      assert (HEp : ph_WriterEpoch (retained_head req c p) = ws_writerEpoch s) by done.
      rewrite HEp, Z.eqb_refl, bool_decide_true by done. cbn [negb orb].
      assert (HRet : mc_retention c2 !! p = Some req).
      { destruct Hc2 as (_ & _ & -> & _). by destruct Eu as (_ & _ & -> & _). }
      rewrite HRet. change (ph_AppliedRetentionVersion (retained_head req c p)) with (rq_PolicyVersion req).
      rewrite Z.leb_refl. eexists _, _, _. split; [reflexivity|]. done.
Qed.

(** ** Examples *)
Definition ex_wid (b : byte) : list byte := replicate 16 b.
Definition ex_seg (uri uuid : byte) (epoch base last : Z) (tag : list byte) : SegmentRef := {|
  sr_URI := [uri]; sr_StreamID := []; sr_Partition := 3; sr_WriterEpoch := epoch;
  sr_SegmentUUID := replicate 16 uuid; sr_WriterTag := tag; sr_BaseLSN := base; sr_LastLSN := last;
  sr_MinTimestampMS := base; sr_MaxTimestampMS := last; sr_RecordCount := last - base + 1;
  sr_BlockCount := 1; sr_SizeBytes := 500; sr_BlockIndexOffset := 200; sr_BlockIndexLength := 128;
  sr_Codec := CodecZstd; sr_HashAlgo := HashXXH64; sr_SegmentHash := 1; sr_TrailerHash := 2 |}.
Definition ex_seg1 := ex_seg x61 x11 1 0 9 (ex_wid x01).
Definition ex_seg2 := ex_seg x62 x12 1 10 19 (ex_wid x01).
Definition ex_request := mkRetentionRequest 1 1 15 0.
Definition ex_ops : list op :=
  [OpOpenWriter None 3 (ex_wid x01); OpAppend 0 None ex_seg1; OpAppend 0 None ex_seg2;
   OpRequestRetention None 3 ex_request].
Definition ex_world : world := run (init_world 0) ex_ops.

Lemma ex_seg_typed : SegmentRef_typed ex_seg1 ∧ SegmentRef_typed ex_seg2.
Proof. repeat split; try (vm_compute; discriminate). Qed.
Lemma ex_ops_typed : Forall op_typed ex_ops.
Proof.
  repeat constructor; try apply ex_seg_typed; vm_compute; discriminate.
Qed.
Lemma ex_world_ok : cat_ok (w_cat ex_world).
Proof. apply run_cat_ok; [apply ex_ops_typed | apply init_cat_ok]. Qed.

Lemma memory_catalog_invariant_witness :
  history (w_cat ex_world) 3 = [ex_seg1; ex_seg2] ∧ part_ok [] 3 (part_of (w_cat ex_world) 3).
Proof.
  split; [vm_compute; reflexivity|].
  exact (memory_catalog_invariant 0 ex_ops 3 ex_ops_typed).
Defined.

Lemma append_exactly_once_witness :
  let w := run (init_world 0) [OpOpenWriter None 3 (ex_wid x01)] in
  ∃ s c' s' h, w_sessions w !! 0%nat = Some s ∧
    Session_AppendSegment None ex_seg1 (w_cat w, s) = ((c', s'), Ok h) ∧ history c' 3 = [ex_seg1] ∧
    ∃ i, history c' 3 !! i = Some ex_seg1 ∧ ∀ j, history c' 3 !! j = Some ex_seg1 → j = i.
Proof.
  intros w. assert (Hok : cat_ok (w_cat w)) by (apply run_cat_ok; [repeat constructor | apply init_cat_ok]).
  destruct (w_sessions w !! 0%nat) as [s|] eqn:Es; [|vm_compute in Es; discriminate].
  vm_compute in Es. injection Es as <-.
  match goal with |- ∃ s0 _ _ _, Some ?s1 = Some s0 ∧ _ => set (s := s1) end.
  destruct (Session_AppendSegment None ex_seg1 (w_cat w, s)) as [[c' s'] r] eqn:E.
  destruct r as [h|e]; [|vm_compute in E; discriminate].
  assert (Hc : c' = (Session_AppendSegment None ex_seg1 (w_cat w, s)).1.1) by (by rewrite E).
  destruct (append_exactly_once None ex_seg1 (w_cat w) s c' s' (Ok h) Hok (proj1 ex_seg_typed) E)
    as (_ & Hone & _).
  exists s, c', s', h. split; [reflexivity|]. split; [exact E|]. split; [|exact Hone].
  rewrite Hc. vm_compute. reflexivity.
Defined.

Lemma fenced_writer_is_inert_witness :
  let w' := run (step ex_world (OpOpenWriter None 3 (ex_wid x02))) [] in
  w_cat (step w' (OpAppend 0 None (ex_seg x63 x13 1 20 20 (ex_wid x01)))) ≡ w_cat w'.
Proof.
  destruct (OpenWriter None 3 (ex_wid x02) (w_cat ex_world)) as [c [s_new|e]] eqn:E; [|vm_compute in E; discriminate].
  destruct (w_sessions ex_world !! 0%nat) as [s|] eqn:Es; [|vm_compute in Es; discriminate].
  apply (fenced_writer_is_inert 0 ex_ops None 3 (ex_wid x02) c s_new [] 0 s);
    [apply ex_ops_typed | constructor | vm_compute; discriminate | exact E | exact Es | | reflexivity].
  vm_compute in Es. injection Es as <-. reflexivity.
Defined.

Lemma memory_reads_spec_witness :
  FindSegment None 3 12 (w_cat ex_world) = Ok (Some ex_seg2) ∧
  read_pages 3 (λ f, match ListSegments None (mkListSegmentsRequest 3 f 1) (w_cat ex_world) with
                     | Ok page => page | Err _ => empty_page end) 0 = [ex_seg1; ex_seg2].
Proof.
  destruct (memory_reads_spec (w_cat ex_world) 3 ex_world_ok) as (Hf & _ & _ & Hl).
  split; [rewrite Hf; vm_compute; reflexivity|].
  specialize (Hl 0 1). cbv zeta in Hl.
  replace (S (length (history (w_cat ex_world) 3))) with 3%nat in Hl by (vm_compute; reflexivity).
  rewrite Hl. vm_compute. reflexivity.
Defined.

Lemma retention_drops_below_boundary_witness :
  ∃ s c' s' res, w_sessions ex_world !! 0%nat = Some s ∧
    Session_ApplyPendingRetention None (w_cat ex_world, s) = ((c', s'), Ok res) ∧
    ra_Applied res = true ∧ history c' 3 = [ex_seg2] ∧
    FindSegment None 3 15 c' = FindSegment None 3 15 (w_cat ex_world).
Proof.
  destruct (w_sessions ex_world !! 0%nat) as [s|] eqn:Es; [|vm_compute in Es; discriminate].
  vm_compute in Es. injection Es as <-.
  match goal with |- ∃ s0 _ _ _, Some ?s1 = Some s0 ∧ _ => set (s := s1) end.
  destruct (Session_ApplyPendingRetention None (w_cat ex_world, s)) as [[c' s'] r] eqn:E.
  destruct r as [res|e]; [|vm_compute in E; discriminate].
  assert (Hc : c' = (Session_ApplyPendingRetention None (w_cat ex_world, s)).1.1) by (by rewrite E).
  assert (Hr : Ok res = (Session_ApplyPendingRetention None (w_cat ex_world, s)).2) by (by rewrite E).
  vm_compute in Hr. injection Hr as Hr.
  destruct (retention_drops_below_boundary None (w_cat ex_world) s c' s' (Ok res) ex_world_ok E)
    as (_ & _ & _ & HA). rewrite Hr in HA. cbn in HA. destruct HA as (_ & _ & Hf & _).
  exists s, c', s', res. split; [reflexivity|]. split; [exact E|]. split; [by rewrite Hr|].
  split; [rewrite Hc; vm_compute; reflexivity|]. apply Hf. lia.
Defined.
