(* ===== verification/CatFormat.v ===== *)
(** * The blob catalog's objects (internal/catalog/blob/internal/catformat):
    types and validation

    Leaf entries (segments), index entries (references to sealed pages), leaf
    and index pages, and the partition head with its active leaves and open
    index sections; the [validate..] functions; and what a validated object
    guarantees: entries, pages and the roots of a head form chains. *)
From S2P Require Import Prelude Hash SegFormat Ranges.

(** ** constants.go *)
Definition Version : Z := 1.
Definition HeadHeaderSize : nat := 192.
Definition PageHeaderSize : nat := 128.
Definition SectionHeaderSize : nat := 16.
Definition TrailerSize : nat := 32.
Definition LeafEntrySize : nat := 128.
Definition IndexEntrySize : nat := 80.
Definition MaxLeafEntries : Z := 1024.
Definition MaxIndexEntries : Z := 1024.
Definition MaxIndexLevel : Z := 63.
Definition MaxOpenIndexLevel : Z := MaxIndexLevel + 1.
Definition SegmentLayoutV1 : Z := 1.
Definition FlagHasLastSegment : Z := 1.
Definition MaxRecordLSN : Z := MaxUint64 - 1.
Definition ReservedLSN : Z := MaxUint64.

Definition headMagic : list byte := String.list_byte_of_string "PLCH".
Definition leafMagic : list byte := String.list_byte_of_string "PLCL".
Definition indexMagic : list byte := String.list_byte_of_string "PLCX".
Definition sectionMagic : list byte := String.list_byte_of_string "PLCS".
Definition trailerMagic : list byte := String.list_byte_of_string "PLCT".

(** ** types.go *)
Record LeafEntry := mkLeafEntry {
  le_BaseLSN : Z; le_LastLSN : Z; le_MinTimestampMS : Z; le_MaxTimestampMS : Z; le_RecordCount : Z;
  le_BlockCount : Z; le_SizeBytes : Z; le_BlockIndexOffset : Z; le_BlockIndexLength : Z; le_Codec : Z;
  le_HashAlgo : Z; le_SegmentHash : Z; le_TrailerHash : Z; le_WriterEpoch : Z;
  le_SegmentUUID : list byte; le_WriterTag : list byte }.

Record IndexEntry := mkIndexEntry {
  ie_Level : Z; ie_EntryCount : Z; ie_SeqLo : Z; ie_SeqHi : Z; ie_MinTimestampMS : Z;
  ie_MaxTimestampMS : Z; ie_Generation : Z; ie_PageID : list byte; ie_SegmentCount : Z }.

Record PageHeader := mkPageHeader {
  pgh_Flags : Z; pgh_Partition : Z; pgh_Level : Z; pgh_HashAlgo : Z; pgh_EntryCount : Z;
  pgh_EntrySize : Z; pgh_SeqLo : Z; pgh_SeqHi : Z; pgh_MinTimestampMS : Z; pgh_MaxTimestampMS : Z;
  pgh_Generation : Z; pgh_WriterEpoch : Z; pgh_StreamKey : list byte; pgh_SegmentCount : Z }.

Record LeafPage := mkLeafPage { lp_Header : PageHeader; lp_Entries : list LeafEntry }.
Record IndexPage := mkIndexPage { ixp_Header : PageHeader; ixp_Entries : list IndexEntry }.

Record HeadHeader := mkHeadHeader {
  hh_Flags : Z; hh_Partition : Z; hh_HashAlgo : Z; hh_SegmentLayoutVersion : Z; hh_LeafLimit : Z;
  hh_IndexLimit : Z; hh_ActiveCount : Z; hh_LevelCount : Z; hh_NextLSN : Z; hh_OldestLSN : Z;
  hh_AppliedRetentionLSN : Z; hh_AppliedRetentionVersion : Z; hh_WriterEpoch : Z; hh_Generation : Z;
  hh_SegmentCount : Z; hh_ReachableSegmentCount : Z; hh_WriterID : list byte; hh_StreamKey : list byte;
  hh_DataRootKey : list byte }.

Record OpenIndexSection := mkOpenIndexSection { os_Level : Z; os_Entries : list IndexEntry }.

Record Head := mkHead {
  hd_Header : HeadHeader; hd_LastSegment : LeafEntry; hd_Active : list LeafEntry;
  hd_Sections : list OpenIndexSection }.

#[export] Instance LeafEntry_eq_dec : EqDecision LeafEntry.
Proof. solve_decision. Defined.
#[export] Instance IndexEntry_eq_dec : EqDecision IndexEntry.
Proof. solve_decision. Defined.

Definition zero_LeafEntry : LeafEntry := mkLeafEntry 0 0 0 0 0 0 0 0 0 0 0 0 0 0 (zeros 16) (zeros 16).

Definition HasLastSegment (h : Head) : bool :=
  negb (Z.land (hh_Flags (hd_Header h)) FlagHasLastSegment =? 0).

(** Go's typing of the fields. *)
Definition LeafEntry_typed (e : LeafEntry) : Prop :=
  is_u64 (le_BaseLSN e) ∧ is_u64 (le_LastLSN e) ∧ is_i64 (le_MinTimestampMS e) ∧
  is_i64 (le_MaxTimestampMS e) ∧ is_u32 (le_RecordCount e) ∧ is_u32 (le_BlockCount e) ∧
  is_u64 (le_SizeBytes e) ∧ is_u64 (le_BlockIndexOffset e) ∧ is_u32 (le_BlockIndexLength e) ∧
  is_u16 (le_Codec e) ∧ is_u16 (le_HashAlgo e) ∧ is_u64 (le_SegmentHash e) ∧ is_u64 (le_TrailerHash e) ∧
  is_u64 (le_WriterEpoch e) ∧ length (le_SegmentUUID e) = 16%nat ∧ length (le_WriterTag e) = 16%nat.

Definition IndexEntry_typed (e : IndexEntry) : Prop :=
  is_u8 (ie_Level e) ∧ is_u32 (ie_EntryCount e) ∧ is_u64 (ie_SeqLo e) ∧ is_u64 (ie_SeqHi e) ∧
  is_i64 (ie_MinTimestampMS e) ∧ is_i64 (ie_MaxTimestampMS e) ∧ is_u64 (ie_Generation e) ∧
  length (ie_PageID e) = 16%nat ∧ is_u64 (ie_SegmentCount e).

Definition PageHeader_typed (h : PageHeader) : Prop :=
  is_u32 (pgh_Flags h) ∧ is_u32 (pgh_Partition h) ∧ is_u8 (pgh_Level h) ∧ is_u16 (pgh_HashAlgo h) ∧
  is_u32 (pgh_EntryCount h) ∧ is_u32 (pgh_EntrySize h) ∧ is_u64 (pgh_SeqLo h) ∧ is_u64 (pgh_SeqHi h) ∧
  is_i64 (pgh_MinTimestampMS h) ∧ is_i64 (pgh_MaxTimestampMS h) ∧ is_u64 (pgh_Generation h) ∧
  is_u64 (pgh_WriterEpoch h) ∧ length (pgh_StreamKey h) = 32%nat ∧ is_u64 (pgh_SegmentCount h).

Definition HeadHeader_typed (h : HeadHeader) : Prop :=
  is_u32 (hh_Flags h) ∧ is_u32 (hh_Partition h) ∧ is_u16 (hh_HashAlgo h) ∧ is_u16 (hh_SegmentLayoutVersion h) ∧
  is_u32 (hh_LeafLimit h) ∧ is_u32 (hh_IndexLimit h) ∧ is_u32 (hh_ActiveCount h) ∧ is_u32 (hh_LevelCount h) ∧
  is_u64 (hh_NextLSN h) ∧ is_u64 (hh_OldestLSN h) ∧ is_u64 (hh_AppliedRetentionLSN h) ∧
  is_u64 (hh_AppliedRetentionVersion h) ∧ is_u64 (hh_WriterEpoch h) ∧ is_u64 (hh_Generation h) ∧
  is_u64 (hh_SegmentCount h) ∧ is_u64 (hh_ReachableSegmentCount h) ∧ length (hh_WriterID h) = 16%nat ∧
  length (hh_StreamKey h) = 32%nat ∧ length (hh_DataRootKey h) = 32%nat.

Definition OpenIndexSection_typed (s : OpenIndexSection) : Prop :=
  is_u8 (os_Level s) ∧ Forall IndexEntry_typed (os_Entries s).

Definition Head_typed (h : Head) : Prop :=
  HeadHeader_typed (hd_Header h) ∧ LeafEntry_typed (hd_LastSegment h) ∧
  Forall LeafEntry_typed (hd_Active h) ∧ Forall OpenIndexSection_typed (hd_Sections h).

#[export] Instance LeafEntry_Ranged : Ranged LeafEntry := {|
  lo := le_BaseLSN; hi := le_LastLSN; tmin := le_MinTimestampMS; tmax := le_MaxTimestampMS |}.
#[export] Instance IndexEntry_Ranged : Ranged IndexEntry := {|
  lo := ie_SeqLo; hi := ie_SeqHi; tmin := ie_MinTimestampMS; tmax := ie_MaxTimestampMS |}.

(** ** validate.go *)
Abbreviation invalid := [CatErrInvalidObject].
Definition isZero16 (v : list byte) : bool := bool_decide (v = zeros 16).
Definition isZero32 (v : list byte) : bool := bool_decide (v = zeros 32).

Definition validateLeafEntry (entry : LeafEntry) : result () :=
  fail_if (le_LastLSN entry <? le_BaseLSN entry) || (MaxRecordLSN <? le_LastLSN entry) with invalid;
  let span := uint64 (uint64 (le_LastLSN entry - le_BaseLSN entry) + 1) in
  fail_if (MaxUint32 <? span) || (le_RecordCount entry =? 0) || negb (le_RecordCount entry =? span) with invalid;
  fail_if le_MaxTimestampMS entry <? le_MinTimestampMS entry with invalid;
  fail_if le_BlockCount entry =? 0 with invalid;
  fail_if le_SizeBytes entry =? 0 with invalid;
  fail_if le_BlockIndexLength entry =? 0 with invalid;
  _ ← mask_err invalid (Codec_Validate (le_Codec entry));
  _ ← mask_err invalid (HashAlgo_Validate (le_HashAlgo entry));
  fail_if le_WriterEpoch entry =? 0 with invalid;
  fail_if isZero16 (le_SegmentUUID entry) with invalid;
  fail_if isZero16 (le_WriterTag entry) with invalid;
  Ok ().

Definition validateIndexEntry (entry : IndexEntry) : result () :=
  fail_if MaxIndexLevel <? ie_Level entry with invalid;
  fail_if (ie_SeqHi entry <? ie_SeqLo entry) || (MaxRecordLSN <? ie_SeqHi entry) with invalid;
  fail_if ie_MaxTimestampMS entry <? ie_MinTimestampMS entry with invalid;
  let limit := if ie_Level entry =? 0 then MaxLeafEntries else MaxIndexEntries in
  fail_if (ie_EntryCount entry =? 0) || (limit <? ie_EntryCount entry) with invalid;
  fail_if ie_Generation entry =? 0 with invalid;
  fail_if isZero16 (ie_PageID entry) with invalid;
  fail_if ie_SegmentCount entry <? ie_EntryCount entry with invalid;
  fail_if (ie_Level entry =? 0) && negb (ie_SegmentCount entry =? ie_EntryCount entry) with invalid;
  let span := uint64 (uint64 (ie_SeqHi entry - ie_SeqLo entry) + 1) in
  fail_if span <? ie_SegmentCount entry with invalid;
  Ok ().

Definition validateCommonPageHeader (header : PageHeader) : result () :=
  fail_if negb (pgh_Flags header =? 0) with invalid;
  _ ← mask_err invalid (HashAlgo_Validate (pgh_HashAlgo header));
  fail_if pgh_Generation header =? 0 with invalid;
  fail_if pgh_WriterEpoch header =? 0 with invalid;
  fail_if isZero32 (pgh_StreamKey header) with invalid;
  Ok ().

(** The loop of [validateLeafPage]; [previous] is absent for [i == 0]. *)
Fixpoint validateLeafPage_loop (previous : option LeafEntry) (entries : list LeafEntry) : result () :=
  match entries with
  | [] => Ok ()
  | entry :: entries =>
      _ ← mask_err invalid (validateLeafEntry entry);
      match previous with
      | None => validateLeafPage_loop (Some entry) entries
      | Some previous =>
          fail_if (le_LastLSN previous =? MaxRecordLSN) ||
                  negb (le_BaseLSN entry =? uint64 (le_LastLSN previous + 1)) with invalid;
          fail_if le_MinTimestampMS entry <? le_MaxTimestampMS previous with invalid;
          fail_if le_WriterEpoch entry <? le_WriterEpoch previous with invalid;
          validateLeafPage_loop (Some entry) entries
      end
  end.

Definition validateLeafPage (page : LeafPage) : result () :=
  let header := lp_Header page in
  let entries := lp_Entries page in
  _ ← validateCommonPageHeader header;
  fail_if negb (pgh_Level header =? 0) with invalid;
  fail_if negb (pgh_EntrySize header =? Z.of_nat LeafEntrySize) with invalid;
  fail_if (len entries =? 0) || (MaxLeafEntries <? len entries) with invalid;
  fail_if negb (pgh_EntryCount header =? uint32 (len entries)) with invalid;
  fail_if negb (pgh_SegmentCount header =? len entries) with invalid;
  _ ← validateLeafPage_loop None entries;
  match entries with
  | [] => Err invalid
  | first :: rest =>
      let last := List.last rest first in
      fail_if negb (pgh_SeqLo header =? le_BaseLSN first) || negb (pgh_SeqHi header =? le_LastLSN last) ||
              negb (pgh_MinTimestampMS header =? le_MinTimestampMS first) ||
              negb (pgh_MaxTimestampMS header =? le_MaxTimestampMS last) with invalid;
      fail_if pgh_WriterEpoch header <? le_WriterEpoch last with invalid;
      Ok ()
  end.

Fixpoint validateIndexPage_loop (header : PageHeader) (previous : option IndexEntry) (segmentCount : Z)
    (entries : list IndexEntry) : result Z :=
  match entries with
  | [] => Ok segmentCount
  | entry :: entries =>
      _ ← mask_err invalid (validateIndexEntry entry);
      fail_if negb (uint8 (ie_Level entry + 1) =? pgh_Level header) with invalid;
      fail_if pgh_Generation header <? ie_Generation entry with invalid;
      fail_if MaxUint64 - segmentCount <? ie_SegmentCount entry with invalid;
      let segmentCount := uint64 (segmentCount + ie_SegmentCount entry) in
      match previous with
      | None => validateIndexPage_loop header (Some entry) segmentCount entries
      | Some previous =>
          fail_if (ie_SeqHi previous =? MaxRecordLSN) ||
                  negb (ie_SeqLo entry =? uint64 (ie_SeqHi previous + 1)) with invalid;
          fail_if ie_MinTimestampMS entry <? ie_MaxTimestampMS previous with invalid;
          validateIndexPage_loop header (Some entry) segmentCount entries
      end
  end.

Definition validateIndexPage (page : IndexPage) : result () :=
  let header := ixp_Header page in
  let entries := ixp_Entries page in
  _ ← validateCommonPageHeader header;
  fail_if (pgh_Level header =? 0) || (MaxIndexLevel <? pgh_Level header) with invalid;
  fail_if negb (pgh_EntrySize header =? Z.of_nat IndexEntrySize) with invalid;
  fail_if (len entries =? 0) || (MaxIndexEntries <? len entries) with invalid;
  fail_if negb (pgh_EntryCount header =? uint32 (len entries)) with invalid;
  segmentCount ← validateIndexPage_loop header None 0 entries;
  fail_if negb (pgh_SegmentCount header =? segmentCount) with invalid;
  match entries with
  | [] => Err invalid
  | first :: rest =>
      let last := List.last rest first in
      fail_if negb (pgh_SeqLo header =? ie_SeqLo first) || negb (pgh_SeqHi header =? ie_SeqHi last) ||
              negb (pgh_MinTimestampMS header =? ie_MinTimestampMS first) ||
              negb (pgh_MaxTimestampMS header =? ie_MaxTimestampMS last) with invalid;
      Ok ()
  end.

(** The roots of a head in LSN order: the entries of the open sections from the
    highest level down, then the active leaves. *)
Record rootRange := mkRootRange {
  rt_seqLo : Z; rt_seqHi : Z; rt_minTS : Z; rt_maxTS : Z; rt_segments : Z; rt_leaf : option LeafEntry }.

#[export] Instance rootRange_Ranged : Ranged rootRange := {|
  lo := rt_seqLo; hi := rt_seqHi; tmin := rt_minTS; tmax := rt_maxTS |}.

Definition ref_root (entry : IndexEntry) : rootRange :=
  mkRootRange (ie_SeqLo entry) (ie_SeqHi entry) (ie_MinTimestampMS entry) (ie_MaxTimestampMS entry)
    (ie_SegmentCount entry) None.
Definition leaf_root (entry : LeafEntry) : rootRange :=
  mkRootRange (le_BaseLSN entry) (le_LastLSN entry) (le_MinTimestampMS entry) (le_MaxTimestampMS entry) 1
    (Some entry).
Definition head_roots (head : Head) : list rootRange :=
  map ref_root (concat (map os_Entries (rev (hd_Sections head)))) ++ map leaf_root (hd_Active head).

(** The first loop over the sections, which checks every reference. *)
Fixpoint validateSection_entries (header : HeadHeader) (level : Z) (entries : list IndexEntry) : result () :=
  match entries with
  | [] => Ok ()
  | entry :: entries =>
      _ ← mask_err invalid (validateIndexEntry entry);
      fail_if negb (uint8 (ie_Level entry + 1) =? level) with invalid;
      fail_if hh_Generation header <? ie_Generation entry with invalid;
      validateSection_entries header level entries
  end.
Fixpoint validateHead_sections (header : HeadHeader) (i : Z) (sections : list OpenIndexSection) : result () :=
  match sections with
  | [] => Ok ()
  | section :: sections =>
      fail_if negb (os_Level section =? uint8 (i + 1)) with invalid;
      fail_if hh_IndexLimit header <=? len (os_Entries section) with invalid;
      _ ← validateSection_entries header (os_Level section) (os_Entries section);
      validateHead_sections header (i + 1) sections
  end.

Fixpoint validateHead_active (header : HeadHeader) (previous : option LeafEntry) (active : list LeafEntry)
    : result () :=
  match active with
  | [] => Ok ()
  | entry :: active =>
      _ ← mask_err invalid (validateLeafEntry entry);
      fail_if hh_WriterEpoch header <? le_WriterEpoch entry with invalid;
      fail_if match previous with
              | Some previous => le_WriterEpoch entry <? le_WriterEpoch previous
              | None => false
              end with invalid;
      validateHead_active header (Some entry) active
  end.

(** The last loop, over the roots. *)
Fixpoint validateHead_roots (header : HeadHeader) (previous : option rootRange) (segmentCount : Z)
    (roots : list rootRange) : result Z :=
  match roots with
  | [] => Ok segmentCount
  | root :: roots =>
      fail_if MaxUint64 - segmentCount <? rt_segments root with invalid;
      let segmentCount := uint64 (segmentCount + rt_segments root) in
      match previous with
      | None =>
          fail_if negb (rt_seqLo root =? hh_OldestLSN header) with invalid;
          validateHead_roots header (Some root) segmentCount roots
      | Some previous =>
          fail_if (rt_seqHi previous =? MaxRecordLSN) ||
                  negb (rt_seqLo root =? uint64 (rt_seqHi previous + 1)) with invalid;
          fail_if rt_minTS root <? rt_maxTS previous with invalid;
          validateHead_roots header (Some root) segmentCount roots
      end
  end.

Definition validateHead (head : Head) : result () :=
  let header := hd_Header head in
  fail_if negb (Z.ldiff (hh_Flags header) FlagHasLastSegment =? 0) with invalid;
  _ ← mask_err invalid (HashAlgo_Validate (hh_HashAlgo header));
  fail_if negb (hh_SegmentLayoutVersion header =? SegmentLayoutV1) with [CatErrUnsupportedLayout];
  fail_if (hh_LeafLimit header =? 0) || (MaxLeafEntries <? hh_LeafLimit header) with invalid;
  fail_if (hh_IndexLimit header <? 2) || (MaxIndexEntries <? hh_IndexLimit header) with invalid;
  fail_if (hh_LeafLimit header <=? len (hd_Active head)) ||
          negb (hh_ActiveCount header =? uint32 (len (hd_Active head))) with invalid;
  fail_if (MaxOpenIndexLevel <? len (hd_Sections head)) ||
          negb (hh_LevelCount header =? uint32 (len (hd_Sections head))) with invalid;
  fail_if (ReservedLSN <? hh_NextLSN header) || (hh_NextLSN header <? hh_OldestLSN header) ||
          (hh_NextLSN header <? hh_AppliedRetentionLSN header) with invalid;
  fail_if (hh_AppliedRetentionVersion header =? 0) && negb (hh_AppliedRetentionLSN header =? 0) with invalid;
  fail_if negb (Bool.eqb (hh_WriterEpoch header =? 0) (isZero16 (hh_WriterID header))) with invalid;
  fail_if hh_SegmentCount header <? hh_ReachableSegmentCount header with invalid;
  fail_if isZero32 (hh_StreamKey header) with invalid;
  fail_if isZero32 (hh_DataRootKey header) with invalid;
  _ ← validateHead_sections header 0 (hd_Sections head);
  _ ← validateHead_active header None (hd_Active head);
  let roots := head_roots head in
  if negb (HasLastSegment head) then
    fail_if negb (bool_decide (hd_LastSegment head = zero_LeafEntry)) with invalid;
    fail_if negb (hh_OldestLSN header =? hh_NextLSN header) || negb (hh_SegmentCount header =? 0) ||
            negb (hh_ReachableSegmentCount header =? 0) || negb (len (hd_Active head) =? 0) ||
            negb (len roots =? 0) with invalid;
    Ok ()
  else
    let lastSegment := hd_LastSegment head in
    _ ← mask_err invalid (validateLeafEntry lastSegment);
    fail_if hh_WriterEpoch header <? le_WriterEpoch lastSegment with invalid;
    fail_if hh_SegmentCount header =? 0 with invalid;
    fail_if (le_LastLSN lastSegment =? MaxRecordLSN) ||
            negb (uint64 (le_LastLSN lastSegment + 1) =? hh_NextLSN header) with invalid;
    match roots with
    | [] =>
        fail_if negb (hh_OldestLSN header =? hh_NextLSN header) ||
                negb (hh_ReachableSegmentCount header =? 0) || negb (len (hd_Active head) =? 0) with invalid;
        Ok ()
    | first :: rest =>
        let lastRoot := List.last rest first in
        fail_if negb (rt_seqHi lastRoot =? le_LastLSN lastSegment) with invalid;
        fail_if match last (hd_Active head) with
                | Some leaf => negb (bool_decide (leaf = lastSegment))
                | None => false
                end with invalid;
        segmentCount ← validateHead_roots header None 0 roots;
        fail_if (rt_seqHi lastRoot =? MaxRecordLSN) ||
                negb (uint64 (rt_seqHi lastRoot + 1) =? hh_NextLSN header) with invalid;
        fail_if negb (segmentCount =? hh_ReachableSegmentCount header) with invalid;
        Ok ()
    end.

Definition validateHashAlgo (algo : Z) : result () := mask_err invalid (HashAlgo_Validate algo).

(** ** What validation guarantees *)
Definition leaf_valid (e : LeafEntry) : Prop := LeafEntry_typed e ∧ validateLeafEntry e = Ok ().
Definition ref_valid (e : IndexEntry) : Prop := IndexEntry_typed e ∧ validateIndexEntry e = Ok ().
Definition epoch_le (a b : LeafEntry) : Prop := le_WriterEpoch a ≤ le_WriterEpoch b.

Lemma mask_Ok {A} e (r : result A) a : mask_err e r = Ok a ↔ r = Ok a.
Proof. apply mask_err_Ok. Qed.

Lemma leaf_valid_inv e : leaf_valid e →
  range_ok e ∧ 0 ≤ le_BaseLSN e ∧ le_LastLSN e ≤ MaxRecordLSN ∧ 0 < le_WriterEpoch e.
Proof.
  intros [Ht HV]. unfold validateLeafEntry in HV. cbv zeta in HV. inv_ok. bool_to_prop.
  unfold LeafEntry_typed in Ht. unfold range_ok; cbn [lo hi tmin tmax LeafEntry_Ranged]. unfold_widths. lia.
Qed.

Lemma ref_valid_inv e : ref_valid e →
  range_ok e ∧ 0 ≤ ie_SeqLo e ∧ ie_SeqHi e ≤ MaxRecordLSN ∧ 0 ≤ ie_Level e ≤ MaxIndexLevel ∧
  0 < ie_EntryCount e ≤ 1024 ∧ 0 < ie_SegmentCount e ≤ ie_SeqHi e - ie_SeqLo e + 1 ∧ 0 < ie_Generation e.
Proof.
  intros [Ht HV]. unfold validateIndexEntry in HV. cbv zeta in HV. inv_ok. bool_to_prop.
  unfold IndexEntry_typed in Ht. unfold range_ok, MaxRecordLSN, MaxLeafEntries, MaxIndexEntries in *;
    cbn [lo hi tmin tmax IndexEntry_Ranged]. unfold_widths. typed_fields.
  rewrite (Z.mod_small (ie_SeqHi e - ie_SeqLo e)), Z.mod_small in * by lia.
  destruct (ie_Level e =? 0); lia.
Qed.

Lemma uint64_succ x : 0 ≤ x ≤ MaxRecordLSN → uint64 (x + 1) = x + 1.
Proof. intros. apply uint64_id. unfold_widths. unfold MaxRecordLSN in *. lia. Qed.

(** The guard [previous.hi == MaxRecordLSN || entry.lo != previous.hi+1]. *)
Lemma contiguous_guard ph el eh :
  0 ≤ ph ≤ MaxRecordLSN → el ≤ eh ≤ MaxRecordLSN →
  (ph =? MaxRecordLSN) || negb (el =? uint64 (ph + 1)) = false ↔ el = ph + 1.
Proof.
  intros Hp He. rewrite uint64_succ by done. rewrite orb_false_iff, Z.eqb_neq, negb_false_iff, Z.eqb_eq. lia.
Qed.

Lemma Sorted_cons_head {A} (R : A → A → Prop) a l :
  Sorted R (a :: l) ↔ Sorted R l ∧ (∀ b, head l = Some b → R a b).
Proof.
  split.
  - intros [Hs Hh]%Sorted_inv. split; [done|]. intros b Hb. destruct l; [done|]. injection Hb as ->. by apply HdRel_inv in Hh.
  - intros [Hs Hh]. constructor; [done|]. destruct l; constructor. by apply Hh.
Qed.

Definition leaves_ok (es : list LeafEntry) : Prop :=
  Forall leaf_valid es ∧ chain es ∧ Sorted epoch_le es.

Lemma leaves_ok_cons e es :
  leaves_ok (e :: es) ↔ leaf_valid e ∧ leaves_ok es ∧
    ∀ b, head es = Some b → adjacent e b ∧ epoch_le e b.
Proof.
  unfold leaves_ok. rewrite Forall_cons, chain_cons, Sorted_cons_head. split.
  - intros ([? ?] & (? & ? & ?) & ? & ?). split_and!; auto.
  - intros (He & (? & ? & ?) & Hb). pose proof (leaf_valid_inv e He) as (? & _).
    split_and!; auto; intros b Hb'; by apply Hb.
Qed.

Lemma validateLeafPage_loop_spec prev es :
  Forall LeafEntry_typed es → (∀ p, prev = Some p → leaf_valid p) →
  validateLeafPage_loop prev es = Ok () ↔
  leaves_ok es ∧ ∀ p b, prev = Some p → head es = Some b → adjacent p b ∧ epoch_le p b.
Proof.
  intros Ht. revert prev; induction Ht as [|e es He Ht IH]; intros prev Hp; cbn [validateLeafPage_loop].
  { split; [|done]. intros _. split; [|done]. unfold leaves_ok. split_and!; constructor; constructor. }
  specialize (IH (Some e)). split.
  - intros HV. inv_ok. destruct (validateLeafEntry e) as [[]|] eqn:Ev; [|discriminate]. assert (Hv : leaf_valid e) by done.
    assert (HL : validateLeafPage_loop (Some e) es = Ok ()).
    { destruct prev; [|done]. by inv_ok. }
    apply IH in HL as [HL HN]; [|by intros ? [= <-]]. rewrite leaves_ok_cons. split; [split_and!; auto|].
    intros p b -> [= <-]. cbn beta iota in HV. specialize (Hp p eq_refl).
    destruct (leaf_valid_inv p Hp) as ([? _] & ? & ? & _), (leaf_valid_inv e Hv) as ([? _] & ? & ? & _).
    inv_ok. cbn in *. apply (contiguous_guard (le_LastLSN p) (le_BaseLSN e) (le_LastLSN e)) in Hchk; [|lia..].
    bool_to_prop. unfold adjacent, epoch_le; cbn. lia.
  - rewrite leaves_ok_cons. intros ((Hv & Hl & Hn) & Hpb). rewrite (proj2 Hv). cbn [mask_err mbind result_bind].
    assert (HL : validateLeafPage_loop (Some e) es = Ok ()).
    { apply IH; [by intros ? [= <-]|]. split; [done|]. intros p b [= <-]. auto. }
    destruct prev as [p|]; [|done]. destruct (Hpb p e eq_refl eq_refl) as [[Ha Hts] Hep]. specialize (Hp p eq_refl).
    destruct (leaf_valid_inv p Hp) as ([? _] & ? & ? & _), (leaf_valid_inv e Hv) as ([? _] & ? & ? & _). cbn in *.
    rewrite (proj2 (contiguous_guard (le_LastLSN p) (le_BaseLSN e) (le_LastLSN e) ltac:(lia) ltac:(lia))) by done.
    rewrite !(proj2 (Z.ltb_ge _ _)) by (unfold epoch_le in *; lia). done.
Qed.

(** References of one page: valid, contiguous, of one level and not younger than
    the page. *)
Definition ref_at (level generation : Z) (e : IndexEntry) : Prop :=
  ref_valid e ∧ ie_Level e + 1 = level ∧ ie_Generation e ≤ generation.
Definition refs_segments (es : list IndexEntry) : Z := sumZ ie_SegmentCount es.

Lemma ref_at_guard e level :
  ref_valid e → negb (uint8 (ie_Level e + 1) =? level) = false ↔ ie_Level e + 1 = level.
Proof.
  intros (_ & _ & _ & Hl & _)%ref_valid_inv. unfold MaxIndexLevel in Hl.
  rewrite uint8_id by (unfold_widths; lia). by rewrite negb_false_iff, Z.eqb_eq.
Qed.

Lemma validateIndexPage_loop_spec h prev n es m :
  Forall IndexEntry_typed es → (∀ p, prev = Some p → ref_valid p) → 0 ≤ n ≤ MaxUint64 →
  validateIndexPage_loop h prev n es = Ok m ↔
  Forall (ref_at (pgh_Level h) (pgh_Generation h)) es ∧ chain es ∧
  (∀ p b, prev = Some p → head es = Some b → adjacent p b) ∧
  m = n + refs_segments es ∧ m ≤ MaxUint64.
Proof.
  intros Ht. revert prev n; induction Ht as [|e es He Ht IH]; intros prev n Hp Hn; cbn [validateIndexPage_loop].
  { unfold refs_segments; cbn [sumZ]. rewrite Z.add_0_r. split; [|by intros (_ & _ & _ & -> & _)].
    intros [= <-]. refine (conj _ (conj chain_nil (conj _ (conj eq_refl _)))); [constructor|discriminate|lia]. }
  change (refs_segments (e :: es)) with (ie_SegmentCount e + refs_segments es). rewrite Forall_cons, chain_cons.
  specialize (IH (Some e)). split.
  - intros HV. inv_ok. assert (Hv : ref_valid e) by (by split; [|destruct (validateIndexEntry e) as [[]|]]).
    apply ref_at_guard in Hchk; [|done]. bool_to_prop.
    destruct (ref_valid_inv e Hv) as (Hr & ? & ? & _ & _ & ? & _).
    rewrite uint64_id in HV by (unfold_widths; lia).
    assert (HL : validateIndexPage_loop h (Some e) (n + ie_SegmentCount e) es = Ok m).
    { destruct prev; [|done]. by inv_ok. }
    apply IH in HL as (HF & HC & HN & -> & Hm); [|by intros ? [= <-]|lia].
    split_and!; auto; [by split_and!| |lia].
    intros p b -> [= <-]. specialize (Hp p eq_refl). destruct (ref_valid_inv p Hp) as ([? _] & ? & ? & _).
    destruct Hr as [Hr _]. inv_ok. cbn in *.
    apply (contiguous_guard (ie_SeqHi p) (ie_SeqLo e) (ie_SeqHi e)) in Hchk2; [|lia..].
    bool_to_prop. unfold adjacent; cbn. lia.
  - intros (((Hv & Hlev & Hgen) & HF) & (Hr & HC & Hh) & Hpb & -> & Hm). rewrite (proj2 Hv). cbn [mask_err mbind result_bind].
    destruct (ref_valid_inv e Hv) as (_ & ? & ? & _ & _ & ? & _). destruct Hr as [Hr _]. cbn in Hr.
    assert (0 ≤ refs_segments es).
    { apply sumZ_nonneg. eapply Forall_impl; [exact HF|]. intros x (Hx & _).
      destruct (ref_valid_inv x Hx) as (_ & _ & _ & _ & _ & ? & _). lia. }
    rewrite (proj2 (ref_at_guard e _ Hv)) by done. rewrite !(proj2 (Z.ltb_ge _ _)) by lia.
    rewrite uint64_id by (unfold_widths; lia).
    assert (HL : validateIndexPage_loop h (Some e) (n + ie_SegmentCount e) es = Ok (n + (ie_SegmentCount e + refs_segments es))).
    { apply IH; [by intros ? [= <-]|lia|]. refine (conj HF (conj HC (conj _ (conj _ _)))); [|lia|lia].
      intros p b [= <-]. auto. }
    destruct prev as [p|]; [|done]. destruct (Hpb p e eq_refl eq_refl) as [Ha Hts]. specialize (Hp p eq_refl).
    destruct (ref_valid_inv p Hp) as ([? _] & ? & ? & _). cbn in *.
    rewrite (proj2 (contiguous_guard (ie_SeqHi p) (ie_SeqLo e) (ie_SeqHi e) ltac:(lia) ltac:(lia))) by done.
    rewrite !(proj2 (Z.ltb_ge _ _)) by lia. done.
Qed.

(** ** Pages *)
Record leaf_page_ok (page : LeafPage) : Prop := {
  lpk_common : validateCommonPageHeader (lp_Header page) = Ok ();
  lpk_level : pgh_Level (lp_Header page) = 0;
  lpk_size : pgh_EntrySize (lp_Header page) = 128;
  lpk_nonempty : lp_Entries page ≠ [];
  lpk_count : len (lp_Entries page) ≤ MaxLeafEntries;
  lpk_entry_count : pgh_EntryCount (lp_Header page) = len (lp_Entries page);
  lpk_segments : pgh_SegmentCount (lp_Header page) = len (lp_Entries page);
  lpk_leaves : leaves_ok (lp_Entries page);
  lpk_lo : lo <$> head (lp_Entries page) = Some (pgh_SeqLo (lp_Header page));
  lpk_hi : hi <$> last (lp_Entries page) = Some (pgh_SeqHi (lp_Header page));
  lpk_min : tmin <$> head (lp_Entries page) = Some (pgh_MinTimestampMS (lp_Header page));
  lpk_max : tmax <$> last (lp_Entries page) = Some (pgh_MaxTimestampMS (lp_Header page));
  lpk_epoch : ∀ e, last (lp_Entries page) = Some e → le_WriterEpoch e ≤ pgh_WriterEpoch (lp_Header page) }.

Lemma validateLeafPage_spec page :
  Forall LeafEntry_typed (lp_Entries page) → validateLeafPage page = Ok () ↔ leaf_page_ok page.
Proof.
  intros Ht. pose proof (validateLeafPage_loop_spec None (lp_Entries page) Ht ltac:(discriminate)) as HL.
  unfold validateLeafPage. cbv zeta. destruct page as [h es]; cbn [lp_Header lp_Entries] in *. split.
  - intros HV. inv_ok. destruct es as [|e es]; [discriminate|]. inv_ok. bool_to_prop.
    apply HL in Hbind0 as [HL' _]. unfold MaxLeafEntries in *.
    rewrite uint32_id in * by (unfold_widths; unfold len in *; lia).
    constructor; cbn [lp_Header lp_Entries]; rewrite ?(last_List_last e es); cbn [fmap option_fmap option_map head];
      try done; try (by f_equal).
    all: try (intros e' [= <-]; assumption). all: unfold MaxLeafEntries; try lia.
  - intros [HC HLv HS HN HCt HEc HSc HLe Hlo Hhi Hmin Hmax Hep]. cbn [lp_Header lp_Entries] in *.
    rewrite HC. cbn [mbind result_bind]. rewrite HLv, HS, HEc, HSc. destruct es as [|e es]; [done|].
    unfold MaxLeafEntries in *.
    rewrite uint32_id by (unfold_widths; unfold len in *; lia).
    rewrite (proj2 (Z.eqb_neq (len (e :: es)) 0)), (proj2 (Z.ltb_ge 1024 _)), ?Z.eqb_refl by (unfold len in *; cbn [length] in *; lia).
    cbn [orb negb].
    rewrite (proj2 HL) by done. cbn [mbind result_bind].
    rewrite (last_List_last e es) in *. cbn [fmap option_fmap option_map head] in *.
    injection Hlo as <-. injection Hhi as <-. injection Hmin as <-. injection Hmax as <-.
    cbn [lo hi tmin tmax LeafEntry_Ranged]. rewrite !Z.eqb_refl. cbn [orb negb].
    specialize (Hep _ eq_refl). by rewrite (proj2 (Z.ltb_ge _ _)) by done.
Qed.

Record index_page_ok (page : IndexPage) : Prop := {
  ipk_common : validateCommonPageHeader (ixp_Header page) = Ok ();
  ipk_level : 0 < pgh_Level (ixp_Header page) ≤ MaxIndexLevel;
  ipk_size : pgh_EntrySize (ixp_Header page) = 80;
  ipk_nonempty : ixp_Entries page ≠ [];
  ipk_count : len (ixp_Entries page) ≤ MaxIndexEntries;
  ipk_entry_count : pgh_EntryCount (ixp_Header page) = len (ixp_Entries page);
  ipk_refs : Forall (ref_at (pgh_Level (ixp_Header page)) (pgh_Generation (ixp_Header page))) (ixp_Entries page);
  ipk_chain : chain (ixp_Entries page);
  ipk_segments : pgh_SegmentCount (ixp_Header page) = refs_segments (ixp_Entries page);
  ipk_lo : lo <$> head (ixp_Entries page) = Some (pgh_SeqLo (ixp_Header page));
  ipk_hi : hi <$> last (ixp_Entries page) = Some (pgh_SeqHi (ixp_Header page));
  ipk_min : tmin <$> head (ixp_Entries page) = Some (pgh_MinTimestampMS (ixp_Header page));
  ipk_max : tmax <$> last (ixp_Entries page) = Some (pgh_MaxTimestampMS (ixp_Header page)) }.

Lemma validateIndexPage_spec page :
  Forall IndexEntry_typed (ixp_Entries page) → PageHeader_typed (ixp_Header page) →
  validateIndexPage page = Ok () ↔ index_page_ok page.
Proof.
  intros Ht Hh. pose proof (λ m, validateIndexPage_loop_spec (ixp_Header page) None 0 (ixp_Entries page) m Ht ltac:(discriminate) ltac:(lia)) as HL.
  assert (Hlv : 0 ≤ pgh_Level (ixp_Header page)) by (unfold PageHeader_typed in Hh; unfold_widths; lia).
  assert (Hsc : pgh_SegmentCount (ixp_Header page) ≤ MaxUint64) by (unfold PageHeader_typed in Hh; unfold_widths; lia).
  unfold validateIndexPage. cbv zeta. destruct page as [h es]; cbn [ixp_Header ixp_Entries] in *. split.
  - intros HV. inv_ok. destruct es as [|e es]; [discriminate|]. inv_ok. bool_to_prop.
    apply HL in Hbind0 as (HR & HC & _ & -> & _). unfold MaxIndexEntries in *.
    rewrite uint32_id in * by (unfold_widths; unfold len in *; lia).
    constructor; cbn [ixp_Header ixp_Entries]; rewrite ?(last_List_last e es); cbn [fmap option_fmap option_map head];
      try assumption; try discriminate; try (by f_equal).
    all: unfold MaxIndexEntries; lia.
  - intros [HC HLv HS HN HCt HEc HR HCh HSc Hlo Hhi Hmin Hmax]. cbn [ixp_Header ixp_Entries] in *.
    rewrite HC. cbn [mbind result_bind]. rewrite HS, HEc. destruct es as [|e es]; [done|].
    unfold MaxIndexEntries, MaxIndexLevel in *.
    rewrite uint32_id by (unfold_widths; unfold len in *; lia).
    rewrite (proj2 (Z.eqb_neq (pgh_Level h) 0)), (proj2 (Z.ltb_ge 63 _)) by lia.
    rewrite (proj2 (Z.eqb_neq (len (e :: es)) 0)), (proj2 (Z.ltb_ge 1024 _)), ?Z.eqb_refl by (unfold len in *; cbn [length] in *; lia).
    cbn [orb negb].
    rewrite (proj2 (HL (pgh_SegmentCount h))) by (split_and!; [assumption|assumption|discriminate|lia|lia]).
    cbn [mbind result_bind]. rewrite Z.eqb_refl. cbn [negb].
    rewrite (last_List_last e es) in *. cbn [fmap option_fmap option_map head] in *.
    injection Hlo as <-. injection Hhi as <-. injection Hmin as <-. injection Hmax as <-.
    cbn [lo hi tmin tmax IndexEntry_Ranged]. rewrite !Z.eqb_refl. done.
Qed.

(** ** Heads *)
Lemma validateSection_entries_spec h level es :
  Forall IndexEntry_typed es →
  validateSection_entries h level es = Ok () ↔ Forall (ref_at level (hh_Generation h)) es.
Proof.
  induction 1 as [|e es He Ht IH]; cbn [validateSection_entries]; [split; [constructor|done]|].
  rewrite Forall_cons, <- IH. split.
  - intros HV. inv_ok. assert (Hv : ref_valid e) by done. apply ref_at_guard in Hchk; [|done]. bool_to_prop.
    by split.
  - intros [(Hv & Hl & Hg) HR]. rewrite (proj2 Hv). cbn [mask_err mbind result_bind].
    rewrite (proj2 (ref_at_guard e _ Hv)) by done. by rewrite (proj2 (Z.ltb_ge _ _)) by lia.
Qed.

(** Section [j] holds references to pages of level [j]. *)
Definition section_ok (h : HeadHeader) (level : Z) (s : OpenIndexSection) : Prop :=
  os_Level s = level ∧ len (os_Entries s) < hh_IndexLimit h ∧ Forall (ref_at level (hh_Generation h)) (os_Entries s).

Fixpoint sections_ok (h : HeadHeader) (level : Z) (ss : list OpenIndexSection) : Prop :=
  match ss with
  | [] => True
  | s :: ss => section_ok h level s ∧ sections_ok h (level + 1) ss
  end.

Lemma validateHead_sections_spec h i ss :
  Forall OpenIndexSection_typed ss → 0 ≤ i → i + len ss ≤ 64 →
  validateHead_sections h i ss = Ok () ↔ sections_ok h (i + 1) ss.
Proof.
  intros Ht. revert i; induction Ht as [|s ss [Hs Hes] Ht IH]; intros i Hi Hl; cbn [validateHead_sections sections_ok]; [done|].
  replace (len (s :: ss)) with (1 + len ss) in Hl by (unfold len; cbn [length]; lia). pose proof (len_nonneg ss).
  rewrite uint8_id by (unfold_widths; lia). rewrite <- IH by lia. unfold section_ok. split.
  - intros HV. inv_ok. bool_to_prop. rewrite Hchk in *.
    apply validateSection_entries_spec in Hbind; [|done]. done.
  - intros [(Hlv & Hn & HR) HS]. rewrite Hlv, Z.eqb_refl. cbn [negb]. rewrite (proj2 (Z.leb_gt _ _)) by lia.
    rewrite (proj2 (validateSection_entries_spec h (i + 1) _ Hes)) by done. done.
Qed.

Definition active_ok (h : HeadHeader) (es : list LeafEntry) : Prop :=
  Forall (λ e, leaf_valid e ∧ le_WriterEpoch e ≤ hh_WriterEpoch h) es ∧ Sorted epoch_le es.

Lemma validateHead_active_spec h prev es :
  Forall LeafEntry_typed es →
  validateHead_active h prev es = Ok () ↔
  active_ok h es ∧ ∀ p b, prev = Some p → head es = Some b → epoch_le p b.
Proof.
  intros Ht. unfold active_ok. revert prev; induction Ht as [|e es He Ht IH]; intros prev; cbn [validateHead_active].
  { split; [|done]. intros _. split; [split; constructor|discriminate]. }
  rewrite Forall_cons, Sorted_cons_head. specialize (IH (Some e)). split.
  - intros HV. inv_ok. bool_to_prop. apply IH in HV as [[HF HS] HN].
    assert (leaf_valid e) by done. split; [split_and!; auto|].
    intros p b -> [= <-]. bool_to_prop. done.
  - intros [[[[Hv Hep] HF] [HS HN]] Hpb]. rewrite (proj2 Hv). cbn [mask_err mbind result_bind].
    rewrite (proj2 (Z.ltb_ge _ _)) by lia.
    replace (match prev with Some previous => le_WriterEpoch e <? le_WriterEpoch previous | None => false end) with false.
    + apply IH. split; [done|]. intros p b [= <-]. auto.
    + destruct prev as [p|]; [|done]. symmetry. apply Z.ltb_ge. by apply Hpb.
Qed.

Definition root_valid (r : rootRange) : Prop :=
  range_ok r ∧ 0 ≤ rt_seqLo r ∧ rt_seqHi r ≤ MaxRecordLSN ∧ 0 < rt_segments r.

Lemma validateHead_roots_spec h prev n rs m :
  Forall root_valid rs → (∀ p, prev = Some p → root_valid p) → 0 ≤ n ≤ MaxUint64 →
  validateHead_roots h prev n rs = Ok m ↔
  chain rs ∧
  (∀ b, head rs = Some b → match prev with
                           | Some p => adjacent p b
                           | None => rt_seqLo b = hh_OldestLSN h
                           end) ∧
  m = n + sumZ rt_segments rs ∧ m ≤ MaxUint64.
Proof.
  intros Hv. revert prev n; induction Hv as [|r rs Hr Hv IH]; intros prev n Hp Hn; cbn [validateHead_roots sumZ].
  { rewrite Z.add_0_r. split; [|by intros (_ & _ & -> & _)].
    intros [= <-]. refine (conj chain_nil (conj _ (conj eq_refl _))); [discriminate|lia]. }
  rewrite chain_cons. specialize (IH (Some r)). destruct Hr as (Hrg & Hlo & Hhi & Hsg).
  assert (Hrv : root_valid r) by done. destruct Hrg as [Hle Hts]. cbn in Hle.
  assert (Hps : ∀ p, Some r = Some p → root_valid p) by (by intros ? [= <-]). split.
  - intros HV. inv_ok. bool_to_prop. rewrite uint64_id in HV by (unfold_widths; lia).
    assert (HL : validateHead_roots h (Some r) (n + rt_segments r) rs = Ok m).
    { destruct prev; by inv_ok. }
    apply IH in HL as (HC & HN & -> & Hm); [|done|lia].
    refine (conj (conj _ (conj HC _)) (conj _ (conj _ _))); [done|auto| |lia|lia].
    intros b [= <-]. destruct prev as [p|]; inv_ok; [|by bool_to_prop].
    destruct (Hp p eq_refl) as ([? _] & ? & ? & _). cbn in *.
    apply (contiguous_guard (rt_seqHi p) (rt_seqLo r) (rt_seqHi r)) in Hchk0; [|lia..].
    bool_to_prop. unfold adjacent; cbn. lia.
  - intros ((_ & HC & Hh) & Hb & -> & Hm).
    assert (0 ≤ sumZ rt_segments rs).
    { apply sumZ_nonneg. eapply Forall_impl; [exact Hv|]. intros x (_ & _ & _ & ?). lia. }
    rewrite (proj2 (Z.ltb_ge _ _)) by lia. rewrite uint64_id by (unfold_widths; lia).
    assert (HL : validateHead_roots h (Some r) (n + rt_segments r) rs = Ok (n + (rt_segments r + sumZ rt_segments rs))).
    { apply IH; [done|lia|]. refine (conj HC (conj Hh (conj _ _))); lia. }
    specialize (Hb r eq_refl). destruct prev as [p|]; [|by rewrite Hb, Z.eqb_refl].
    destruct Hb as [Ha Hpt]. destruct (Hp p eq_refl) as ([? _] & ? & ? & _). cbn in *.
    rewrite (proj2 (contiguous_guard (rt_seqHi p) (rt_seqLo r) (rt_seqHi r) ltac:(lia) ltac:(lia))) by done.
    by rewrite (proj2 (Z.ltb_ge _ _)) by lia.
Qed.

(** The meaning of a valid head. *)
Record head_ok (h : Head) : Prop := {
  hk_flags : hh_Flags (hd_Header h) = 0 ∨ hh_Flags (hd_Header h) = 1;
  hk_algo : HashAlgo_Validate (hh_HashAlgo (hd_Header h)) = Ok ();
  hk_layout : hh_SegmentLayoutVersion (hd_Header h) = 1;
  hk_leaf_limit : 0 < hh_LeafLimit (hd_Header h) ≤ 1024;
  hk_index_limit : 2 ≤ hh_IndexLimit (hd_Header h) ≤ 1024;
  hk_active_len : len (hd_Active h) < hh_LeafLimit (hd_Header h);
  hk_active_count : hh_ActiveCount (hd_Header h) = len (hd_Active h);
  hk_sections_len : len (hd_Sections h) ≤ 64;
  hk_level_count : hh_LevelCount (hd_Header h) = len (hd_Sections h);
  hk_lsn : hh_OldestLSN (hd_Header h) ≤ hh_NextLSN (hd_Header h);
  hk_retention : hh_AppliedRetentionLSN (hd_Header h) ≤ hh_NextLSN (hd_Header h);
  hk_retention_version : hh_AppliedRetentionVersion (hd_Header h) = 0 → hh_AppliedRetentionLSN (hd_Header h) = 0;
  hk_writer : hh_WriterEpoch (hd_Header h) = 0 ↔ hh_WriterID (hd_Header h) = zeros 16;
  hk_counts : hh_ReachableSegmentCount (hd_Header h) ≤ hh_SegmentCount (hd_Header h);
  hk_stream : hh_StreamKey (hd_Header h) ≠ zeros 32;
  hk_root : hh_DataRootKey (hd_Header h) ≠ zeros 32;
  hk_sections : sections_ok (hd_Header h) 1 (hd_Sections h);
  hk_active : active_ok (hd_Header h) (hd_Active h);
  hk_chain : chain (head_roots h);
  hk_oldest : hh_OldestLSN (hd_Header h) =
              match head (head_roots h) with Some r => lo r | None => hh_NextLSN (hd_Header h) end;
  hk_end : ∀ r, last (head_roots h) = Some r → hi r + 1 = hh_NextLSN (hd_Header h);
  hk_reachable : sumZ rt_segments (head_roots h) = hh_ReachableSegmentCount (hd_Header h);
  hk_last : if HasLastSegment h then
              leaf_valid (hd_LastSegment h) ∧ le_WriterEpoch (hd_LastSegment h) ≤ hh_WriterEpoch (hd_Header h) ∧
              0 < hh_SegmentCount (hd_Header h) ∧ le_LastLSN (hd_LastSegment h) + 1 = hh_NextLSN (hd_Header h) ∧
              le_LastLSN (hd_LastSegment h) < MaxRecordLSN ∧
              ∀ l, last (hd_Active h) = Some l → l = hd_LastSegment h
            else hd_LastSegment h = zero_LeafEntry ∧ head_roots h = [] ∧ hh_SegmentCount (hd_Header h) = 0 }.

Lemma flags_guard f : 0 ≤ f → Z.ldiff f FlagHasLastSegment = 0 ↔ f = 0 ∨ f = 1.
Proof.
  intros Hf. unfold FlagHasLastSegment. change 1 with (Z.ones 1) at 1. rewrite Z.ldiff_ones_r by lia.
  rewrite Z.shiftl_mul_pow2, Z.shiftr_div_pow2 by lia. change (2 ^ 1) with 2.
  pose proof (Z.div_mod f 2 ltac:(lia)). pose proof (Z.mod_pos_bound f 2 ltac:(lia)). lia.
Qed.

Lemma ref_root_valid level gen e : ref_at level gen e → root_valid (ref_root e).
Proof. intros (Hv & _). destruct (ref_valid_inv e Hv) as (? & ? & ? & _ & _ & ? & _). split_and!; try done; cbn; lia. Qed.
Lemma leaf_root_valid e : leaf_valid e → root_valid (leaf_root e).
Proof. intros Hv. destruct (leaf_valid_inv e Hv) as ([? ?] & ? & ? & _). split_and!; try done; cbn; lia. Qed.

(** All references of a head. *)
Definition head_refs (h : Head) : list IndexEntry := concat (map os_Entries (rev (hd_Sections h))).

Lemma sections_refs h level ss e :
  sections_ok h level ss → e ∈ concat (map os_Entries (rev ss)) →
  ∃ level', level ≤ level' ∧ ref_at level' (hh_Generation h) e.
Proof.
  revert level; induction ss as [|s ss IH]; intros level Hs He; [by apply not_elem_of_nil in He|].
  destruct Hs as [(Hl & _ & HR) Hs]. cbn [rev] in He. rewrite map_app, concat_app, elem_of_app in He.
  destruct He as [He|He].
  - destruct (IH _ Hs He) as (l' & ? & ?). exists l'. split; [lia|done].
  - cbn in He. rewrite app_nil_r in He. exists level. split; [lia|]. by apply (proj1 (Forall_forall _ _) HR).
Qed.

Lemma roots_valid h :
  sections_ok (hd_Header h) 1 (hd_Sections h) → active_ok (hd_Header h) (hd_Active h) →
  Forall root_valid (head_roots h).
Proof.
  intros Hs [Ha _]. apply Forall_app. split; apply Forall_forall; intros r Hr; apply list_elem_of_fmap in Hr as (e & -> & He).
  - destruct (sections_refs _ _ _ _ Hs He) as (l & _ & Hl). by eapply ref_root_valid.
  - apply leaf_root_valid. by apply (proj1 (Forall_forall _ _) Ha).
Qed.

Lemma len_nil_iff {A} (l : list A) : len l = 0 ↔ l = [].
Proof. destruct l; unfold len; cbn [length]; [done|]. split; [lia|done]. Qed.

Lemma validateHead_sound h : Head_typed h → validateHead h = Ok () → head_ok h.
Proof.
  intros (HT & HTl & HTa & HTs) HV. unfold validateHead in HV. cbv zeta in HV. unfold HeadHeader_typed in HT. typed_fields.
  inv_ok. bool_to_prop. apply flags_guard in Hchk; [|unfold_widths; lia].
  unfold MaxLeafEntries, MaxIndexEntries, MaxOpenIndexLevel, MaxIndexLevel in *.
  pose proof (len_nonneg (hd_Active h)). pose proof (len_nonneg (hd_Sections h)).
  rewrite uint32_id in * by (unfold_widths; lia).
  apply validateHead_sections_spec in Hbind0; [|done|lia|lia].
  apply validateHead_active_spec in Hbind1 as [Hact _]; [|done].
  pose proof (roots_valid h Hbind0 Hact) as Hrv.
  assert (Hw : hh_WriterEpoch (hd_Header h) = 0 ↔ hh_WriterID (hd_Header h) = zeros 16).
  { match goal with E : Bool.eqb _ _ = true |- _ => apply eqb_prop in E; unfold isZero16 in E; revert E end.
    destruct (Z.eqb_spec (hh_WriterEpoch (hd_Header h)) 0), (decide (hh_WriterID (hd_Header h) = zeros 16));
      rewrite ?bool_decide_true, ?bool_decide_false by done; done. }
  assert (Hrver : hh_AppliedRetentionVersion (hd_Header h) = 0 → hh_AppliedRetentionLSN (hd_Header h) = 0).
  { intros E. rewrite E in *. cbn [Z.eqb andb] in *. bool_to_prop. done. }
  unfold isZero32 in *. bool_to_prop.
  destruct (negb (HasLastSegment h)) eqn:EH; apply (f_equal negb) in EH; rewrite negb_involutive in EH; cbn [negb] in EH.
  - inv_ok. bool_to_prop. assert (Hr0 : head_roots h = []) by (by apply len_nil_iff).
    constructor; rewrite ?Hr0, ?EH; cbn [head last sumZ]; auto using chain_nil; try lia; try done.
  - inv_ok. assert (Hlv : leaf_valid (hd_LastSegment h)) by done.
    destruct (leaf_valid_inv _ Hlv) as ([Hle _] & ? & Hmax & _). cbn in Hle. bool_to_prop.
    rewrite uint64_succ in * by lia.
    destruct (head_roots h) as [|r rs] eqn:ER.
    + inv_ok. bool_to_prop. assert (Ha0 : hd_Active h = []) by (by apply len_nil_iff).
      constructor; rewrite ?ER, ?EH; cbn [head last sumZ]; auto using chain_nil; try lia; try done.
      split_and!; try done; try (unfold_widths; lia). by rewrite Ha0.
    + inv_ok. bool_to_prop.
      match goal with E : validateHead_roots _ _ _ _ = Ok _ |- _ =>
        apply validateHead_roots_spec in E as (HC & HO & -> & _); [|done|discriminate|lia] end.
      specialize (HO r eq_refl). pose proof (last_List_last r rs) as HL.
      constructor; rewrite ?ER, ?EH; cbn [head]; auto; try lia; try done.
      * intros r'. rewrite HL. intros [= <-]. cbn. lia.
      * split_and!; try done; try (unfold_widths; lia).
        intros l Hl. rewrite Hl in *. by bool_to_prop.
Qed.

Lemma eqb_writer epoch wid :
  (epoch = 0 ↔ wid = zeros 16) → Bool.eqb (epoch =? 0) (isZero16 wid) = true.
Proof.
  intros Hw. unfold isZero16. destruct (Z.eqb_spec epoch 0) as [E|E], (decide (wid = zeros 16)) as [E'|E'].
  - by rewrite bool_decide_true.
  - by apply Hw in E.
  - by apply Hw in E'.
  - by rewrite bool_decide_false.
Qed.

Lemma validateHead_complete h : Head_typed h → head_ok h → validateHead h = Ok ().
Proof.
  intros (HT & HTl & HTa & HTs) Hk. unfold HeadHeader_typed in HT. typed_fields.
  pose proof (roots_valid h (hk_sections h Hk) (hk_active h Hk)) as Hrv. destruct Hk.
  pose proof (len_nonneg (hd_Active h)). pose proof (len_nonneg (hd_Sections h)).
  unfold validateHead. cbv zeta.
  rewrite (proj2 (flags_guard (hh_Flags (hd_Header h)) ltac:(unfold_widths; lia))), hk_algo0, hk_layout0 by done. cbn [negb Z.eqb mask_err mbind result_bind].
  change (1 =? SegmentLayoutV1) with true. cbn [negb].
  unfold MaxLeafEntries, MaxIndexEntries, MaxOpenIndexLevel, MaxIndexLevel, ReservedLSN.
  rewrite !uint32_id by (unfold_widths; lia). rewrite hk_active_count0, hk_level_count0, !Z.eqb_refl.
  rewrite (proj2 (Z.eqb_neq (hh_LeafLimit (hd_Header h)) 0)), (proj2 (Z.ltb_ge 1024 (hh_LeafLimit (hd_Header h)))) by lia.
  rewrite (proj2 (Z.ltb_ge (hh_IndexLimit (hd_Header h)) 2)), (proj2 (Z.ltb_ge 1024 (hh_IndexLimit (hd_Header h)))) by lia.
  rewrite (proj2 (Z.leb_gt (hh_LeafLimit (hd_Header h)) (len (hd_Active h)))) by lia.
  rewrite (proj2 (Z.ltb_ge (63 + 1) (len (hd_Sections h)))) by lia. cbn [orb negb].
  rewrite (proj2 (Z.ltb_ge MaxUint64 (hh_NextLSN (hd_Header h)))) by (unfold_widths; lia).
  rewrite !(proj2 (Z.ltb_ge (hh_NextLSN (hd_Header h)) _)) by lia. cbn [orb].
  replace ((hh_AppliedRetentionVersion (hd_Header h) =? 0) && negb (hh_AppliedRetentionLSN (hd_Header h) =? 0)) with false.
  2: { destruct (Z.eqb_spec (hh_AppliedRetentionVersion (hd_Header h)) 0) as [E|]; [|done]. by rewrite (hk_retention_version0 E). }
  rewrite (eqb_writer _ _ hk_writer0). cbn [negb]. rewrite (proj2 (Z.ltb_ge (hh_SegmentCount _) _)) by lia.
  unfold isZero32. rewrite !bool_decide_false by done.
  rewrite (proj2 (validateHead_sections_spec (hd_Header h) 0 _ HTs ltac:(lia) ltac:(lia))) by done. cbn [mbind result_bind].
  rewrite (proj2 (validateHead_active_spec (hd_Header h) None _ HTa)) by (split; [done|discriminate]). cbn [mbind result_bind].
  destruct (HasLastSegment h) eqn:EH; cbn [negb].
  - destruct hk_last0 as (Hlv & Hep & Hsc & Hnx & Hmx & Hla). rewrite (proj2 Hlv). cbn [mask_err mbind result_bind].
    destruct (leaf_valid_inv _ Hlv) as ([Hle _] & ? & ? & _). cbn in Hle.
    rewrite (proj2 (Z.ltb_ge _ _)), (proj2 (Z.eqb_neq (hh_SegmentCount (hd_Header h)) 0)) by lia.
    rewrite uint64_succ, Hnx, (proj2 (Z.eqb_neq (le_LastLSN (hd_LastSegment h)) MaxRecordLSN)), Z.eqb_refl by lia. cbn [orb negb].
    destruct (head_roots h) as [|r rs] eqn:ER; cbn [head] in hk_oldest0.
    + assert (hd_Active h = []) as ->.
      { unfold head_roots in ER. apply app_eq_nil in ER as [_ ER]. by destruct (hd_Active h). }
      rewrite hk_oldest0, <- hk_reachable0. cbn. by rewrite Z.eqb_refl.
    + pose proof (last_List_last r rs) as HL. specialize (hk_end0 _ HL). cbn in hk_end0.
      replace (rt_seqHi (List.last rs r)) with (le_LastLSN (hd_LastSegment h)) by lia.
      rewrite Z.eqb_refl. cbn [negb].
      replace (match last (hd_Active h) with Some leaf => negb (bool_decide (leaf = hd_LastSegment h)) | None => false end) with false.
      2: { destruct (last (hd_Active h)) as [l|]; [|done]. by rewrite bool_decide_true by auto. }
      rewrite (proj2 (validateHead_roots_spec (hd_Header h) None 0 _ (hh_ReachableSegmentCount (hd_Header h)) Hrv ltac:(discriminate) ltac:(lia))).
      2: { refine (conj hk_chain0 (conj _ (conj _ _))); [intros b [= <-]; by rewrite hk_oldest0 | lia | unfold_widths; lia]. }
      cbn [mbind result_bind]. rewrite uint64_succ, Hnx, !Z.eqb_refl, (proj2 (Z.eqb_neq _ MaxRecordLSN)) by lia. done.
  - destruct hk_last0 as (Hl & Hr & Hsc). rewrite Hr in *. cbn [head sumZ] in *.
    assert (hd_Active h = []) as ->.
    { unfold head_roots in Hr. apply app_eq_nil in Hr as [_ Hr]. by destruct (hd_Active h). }
    rewrite bool_decide_true, hk_oldest0, Hsc, <- hk_reachable0 by done. cbn. by rewrite Z.eqb_refl.
Qed.

Lemma validateHead_spec h : Head_typed h → validateHead h = Ok () ↔ head_ok h.
Proof. split; [by apply validateHead_sound | by apply validateHead_complete]. Qed.
