(* ===== verification/CatCodec.v ===== *)
(** * The blob catalog's codec (internal/catalog/blob/internal/catformat/codec.go)

    Byte layout of leaf entries, index entries, page headers, the head header,
    section headers and the hash trailer; [Marshal..] and [Parse..] of leaf
    pages, index pages and heads.  The theorem: parsing accepts exactly what
    marshalling writes, with the page ID that names the object, so a catalog
    object read back is the one that was written, and nothing else decodes. *)
From S2P Require Import Prelude Hash SegFormat Ranges CatFormat.

(** ** Entries and headers *)
Definition marshalLeafEntry (e : LeafEntry) : list byte :=
  fill LeafEntrySize [
    (0, be_put 8 (le_BaseLSN e));
    (8, be_put 8 (le_LastLSN e));
    (16, be_put 8 (uint64 (le_MinTimestampMS e)));
    (24, be_put 8 (uint64 (le_MaxTimestampMS e)));
    (32, be_put 4 (le_RecordCount e));
    (36, be_put 4 (le_BlockCount e));
    (40, be_put 8 (le_SizeBytes e));
    (48, be_put 8 (le_BlockIndexOffset e));
    (56, be_put 4 (le_BlockIndexLength e));
    (60, be_put 2 (le_Codec e));
    (62, be_put 2 (le_HashAlgo e));
    (64, be_put 8 (le_SegmentHash e));
    (72, be_put 8 (le_TrailerHash e));
    (80, be_put 8 (le_WriterEpoch e));
    (88, le_SegmentUUID e);
    (104, le_WriterTag e)]%nat.

Definition parseLeafEntry (src : list byte) : result LeafEntry :=
  fail_if negb (length src =? LeafEntrySize)%nat with invalid;
  fail_if negb (all_zero (sub src 120 8)) with invalid;
  Ok {| le_BaseLSN := be_get (sub src 0 8);
        le_LastLSN := be_get (sub src 8 8);
        le_MinTimestampMS := int64 (be_get (sub src 16 8));
        le_MaxTimestampMS := int64 (be_get (sub src 24 8));
        le_RecordCount := be_get (sub src 32 4);
        le_BlockCount := be_get (sub src 36 4);
        le_SizeBytes := be_get (sub src 40 8);
        le_BlockIndexOffset := be_get (sub src 48 8);
        le_BlockIndexLength := be_get (sub src 56 4);
        le_Codec := be_get (sub src 60 2);
        le_HashAlgo := be_get (sub src 62 2);
        le_SegmentHash := be_get (sub src 64 8);
        le_TrailerHash := be_get (sub src 72 8);
        le_WriterEpoch := be_get (sub src 80 8);
        le_SegmentUUID := sub src 88 16;
        le_WriterTag := sub src 104 16 |}.

Definition marshalIndexEntry (e : IndexEntry) : list byte :=
  fill IndexEntrySize [
    (0, be_put 1 (ie_Level e));
    (4, be_put 4 (ie_EntryCount e));
    (8, be_put 8 (ie_SeqLo e));
    (16, be_put 8 (ie_SeqHi e));
    (24, be_put 8 (uint64 (ie_MinTimestampMS e)));
    (32, be_put 8 (uint64 (ie_MaxTimestampMS e)));
    (40, be_put 8 (ie_Generation e));
    (48, ie_PageID e);
    (64, be_put 8 (ie_SegmentCount e))]%nat.

Definition parseIndexEntry (src : list byte) : result IndexEntry :=
  fail_if negb (length src =? IndexEntrySize)%nat with invalid;
  fail_if negb (all_zero (sub src 1 3)) || negb (all_zero (sub src 72 8)) with invalid;
  Ok {| ie_Level := be_get (sub src 0 1);
        ie_EntryCount := be_get (sub src 4 4);
        ie_SeqLo := be_get (sub src 8 8);
        ie_SeqHi := be_get (sub src 16 8);
        ie_MinTimestampMS := int64 (be_get (sub src 24 8));
        ie_MaxTimestampMS := int64 (be_get (sub src 32 8));
        ie_Generation := be_get (sub src 40 8);
        ie_PageID := sub src 48 16;
        ie_SegmentCount := be_get (sub src 64 8) |}.

Definition marshalPageHeader (magic : list byte) (h : PageHeader) : list byte :=
  fill PageHeaderSize [
    (0, magic);
    (4, be_put 2 Version);
    (6, be_put 2 (Z.of_nat PageHeaderSize));
    (8, be_put 4 (pgh_Flags h));
    (12, be_put 4 (pgh_Partition h));
    (16, be_put 1 (pgh_Level h));
    (18, be_put 2 (pgh_HashAlgo h));
    (20, be_put 4 (pgh_EntryCount h));
    (24, be_put 4 (pgh_EntrySize h));
    (32, be_put 8 (pgh_SeqLo h));
    (40, be_put 8 (pgh_SeqHi h));
    (48, be_put 8 (uint64 (pgh_MinTimestampMS h)));
    (56, be_put 8 (uint64 (pgh_MaxTimestampMS h)));
    (64, be_put 8 (pgh_Generation h));
    (72, be_put 8 (pgh_WriterEpoch h));
    (80, pgh_StreamKey h);
    (112, be_put 8 (pgh_SegmentCount h))]%nat.

Definition parsePageHeader (src : list byte) : result (PageHeader * list byte) :=
  fail_if negb (length src =? PageHeaderSize)%nat with invalid;
  let magic := sub src 0 4 in
  fail_if negb (bool_decide (magic = leafMagic)) && negb (bool_decide (magic = indexMagic)) with invalid;
  fail_if negb (be_get (sub src 4 2) =? Version) with [CatErrUnsupportedVersion];
  fail_if negb (be_get (sub src 6 2) =? Z.of_nat PageHeaderSize) with invalid;
  fail_if negb (all_zero (sub src 17 1)) || negb (all_zero (sub src 28 4)) || negb (all_zero (sub src 120 8))
  with invalid;
  let header := {|
    pgh_Flags := be_get (sub src 8 4);
    pgh_Partition := be_get (sub src 12 4);
    pgh_Level := be_get (sub src 16 1);
    pgh_HashAlgo := be_get (sub src 18 2);
    pgh_EntryCount := be_get (sub src 20 4);
    pgh_EntrySize := be_get (sub src 24 4);
    pgh_SeqLo := be_get (sub src 32 8);
    pgh_SeqHi := be_get (sub src 40 8);
    pgh_MinTimestampMS := int64 (be_get (sub src 48 8));
    pgh_MaxTimestampMS := int64 (be_get (sub src 56 8));
    pgh_Generation := be_get (sub src 64 8);
    pgh_WriterEpoch := be_get (sub src 72 8);
    pgh_StreamKey := sub src 80 32;
    pgh_SegmentCount := be_get (sub src 112 8) |} in
  _ ← validateCommonPageHeader header;
  Ok (header, magic).

Definition marshalHeadHeader (h : HeadHeader) : list byte :=
  fill HeadHeaderSize [
    (0, headMagic);
    (4, be_put 2 Version);
    (6, be_put 2 (Z.of_nat HeadHeaderSize));
    (8, be_put 4 (hh_Flags h));
    (12, be_put 4 (hh_Partition h));
    (16, be_put 2 (hh_HashAlgo h));
    (18, be_put 2 (hh_SegmentLayoutVersion h));
    (20, be_put 4 (hh_LeafLimit h));
    (24, be_put 4 (hh_IndexLimit h));
    (28, be_put 4 (hh_ActiveCount h));
    (32, be_put 4 (hh_LevelCount h));
    (40, be_put 8 (hh_NextLSN h));
    (48, be_put 8 (hh_OldestLSN h));
    (56, be_put 8 (hh_AppliedRetentionLSN h));
    (64, be_put 8 (hh_AppliedRetentionVersion h));
    (72, be_put 8 (hh_WriterEpoch h));
    (80, be_put 8 (hh_Generation h));
    (88, be_put 8 (hh_SegmentCount h));
    (96, hh_WriterID h);
    (112, hh_StreamKey h);
    (144, hh_DataRootKey h);
    (176, be_put 8 (hh_ReachableSegmentCount h))]%nat.

Definition parseHeadHeader (src : list byte) : result HeadHeader :=
  fail_if negb (length src =? HeadHeaderSize)%nat with invalid;
  fail_if negb (bool_decide (sub src 0 4 = headMagic)) with invalid;
  fail_if negb (be_get (sub src 4 2) =? Version) with [CatErrUnsupportedVersion];
  fail_if negb (be_get (sub src 6 2) =? Z.of_nat HeadHeaderSize) with invalid;
  fail_if negb (all_zero (sub src 36 4)) || negb (all_zero (sub src 184 8)) with invalid;
  let header := {|
    hh_Flags := be_get (sub src 8 4);
    hh_Partition := be_get (sub src 12 4);
    hh_HashAlgo := be_get (sub src 16 2);
    hh_SegmentLayoutVersion := be_get (sub src 18 2);
    hh_LeafLimit := be_get (sub src 20 4);
    hh_IndexLimit := be_get (sub src 24 4);
    hh_ActiveCount := be_get (sub src 28 4);
    hh_LevelCount := be_get (sub src 32 4);
    hh_NextLSN := be_get (sub src 40 8);
    hh_OldestLSN := be_get (sub src 48 8);
    hh_AppliedRetentionLSN := be_get (sub src 56 8);
    hh_AppliedRetentionVersion := be_get (sub src 64 8);
    hh_WriterEpoch := be_get (sub src 72 8);
    hh_Generation := be_get (sub src 80 8);
    hh_SegmentCount := be_get (sub src 88 8);
    hh_ReachableSegmentCount := be_get (sub src 176 8);
    hh_WriterID := sub src 96 16;
    hh_StreamKey := sub src 112 32;
    hh_DataRootKey := sub src 144 32 |} in
  _ ← validateHashAlgo (hh_HashAlgo header);
  fail_if negb (hh_SegmentLayoutVersion header =? SegmentLayoutV1) with [CatErrUnsupportedLayout];
  fail_if (hh_LeafLimit header =? 0) || (MaxLeafEntries <? hh_LeafLimit header) ||
          (hh_IndexLimit header <? 2) || (MaxIndexEntries <? hh_IndexLimit header) with invalid;
  Ok header.

Definition marshalSectionHeader (section : OpenIndexSection) : list byte :=
  fill SectionHeaderSize [
    (0, sectionMagic);
    (4, be_put 1 (os_Level section));
    (8, be_put 4 (uint32 (len (os_Entries section))))]%nat.

(** The level and the entry count of a section. *)
Definition parseSectionHeader (src : list byte) : result (Z * Z) :=
  fail_if negb (length src =? SectionHeaderSize)%nat with invalid;
  fail_if negb (bool_decide (sub src 0 4 = sectionMagic)) with invalid;
  fail_if negb (all_zero (sub src 5 3)) || negb (all_zero (sub src 12 4)) with invalid;
  Ok (be_get (sub src 4 1), be_get (sub src 8 4)).

(** ** Trailer and page ID *)
Definition trailer_bytes (bodyHash : Z) : list byte :=
  fill TrailerSize [
    (0, trailerMagic);
    (4, be_put 2 (Z.of_nat TrailerSize));
    (8, be_put 8 bodyHash)]%nat.

Definition pageID (body : list byte) : list byte := take 16 (SHA256.Sum256 body).

Section codec.
Context `{XXHash}.

Definition appendTrailer (body : list byte) (algo : Z) : result (list byte) :=
  _ ← validateHashAlgo algo;
  bodyHash ← HashBytes algo body;
  let trailer := trailer_bytes bodyHash in
  trailerHash ← HashBytes algo trailer;
  Ok (body ++ copy_at 16 (be_put 8 trailerHash) trailer).

Definition verifyTrailer (encoded : list byte) (algo : Z) : result () :=
  fail_if (length encoded <? TrailerSize)%nat with invalid;
  _ ← validateHashAlgo algo;
  let trailer := drop (length encoded - TrailerSize) encoded in
  fail_if negb (bool_decide (sub trailer 0 4 = trailerMagic)) with invalid;
  fail_if negb (be_get (sub trailer 4 2) =? Z.of_nat TrailerSize) with invalid;
  fail_if negb (all_zero (sub trailer 6 2)) || negb (all_zero (sub trailer 24 8)) with invalid;
  let wantTrailerHash := be_get (sub trailer 16 8) in
  let check := copy_at 16 (zeros 8) trailer in
  gotTrailerHash ← HashBytes algo check;
  fail_if negb (gotTrailerHash =? wantTrailerHash) with [CatErrIntegrityMismatch];
  let wantBodyHash := be_get (sub trailer 8 8) in
  gotBodyHash ← HashBytes algo (take (length encoded - TrailerSize) encoded);
  fail_if negb (gotBodyHash =? wantBodyHash) with [CatErrIntegrityMismatch];
  Ok ().

(** ** Pages

    The bodies are buffers of the exact size whose consecutive regions are
    filled by the functions above. *)
Definition leaf_body (page : LeafPage) : list byte :=
  marshalPageHeader leafMagic (lp_Header page) ++ concat (map marshalLeafEntry (lp_Entries page)).
Definition index_body (page : IndexPage) : list byte :=
  marshalPageHeader indexMagic (ixp_Header page) ++ concat (map marshalIndexEntry (ixp_Entries page)).

Definition MarshalLeafPage (page : LeafPage) : result (list byte * list byte) :=
  _ ← validateLeafPage page;
  let body := leaf_body page in
  encoded ← appendTrailer body (pgh_HashAlgo (lp_Header page));
  Ok (encoded, pageID body).

Definition MarshalIndexPage (page : IndexPage) : result (list byte * list byte) :=
  _ ← validateIndexPage page;
  let body := index_body page in
  encoded ← appendTrailer body (pgh_HashAlgo (ixp_Header page));
  Ok (encoded, pageID body).

Definition parsePage (encoded : list byte) (wantMagic : list byte) : result PageHeader :=
  fail_if (length encoded <? PageHeaderSize + TrailerSize)%nat with invalid;
  '(header, magic) ← parsePageHeader (sub encoded 0 PageHeaderSize);
  fail_if negb (bool_decide (magic = wantMagic)) with invalid;
  let '(wantEntrySize, wantMax) :=
    if bool_decide (wantMagic = indexMagic) then (Z.of_nat IndexEntrySize, MaxIndexEntries)
    else (Z.of_nat LeafEntrySize, MaxLeafEntries) in
  fail_if negb (pgh_EntrySize header =? wantEntrySize) with invalid;
  fail_if (pgh_EntryCount header =? 0) || (wantMax <? pgh_EntryCount header) with invalid;
  let wantSize := Z.of_nat PageHeaderSize + pgh_EntryCount header * wantEntrySize + Z.of_nat TrailerSize in
  fail_if negb (len encoded =? wantSize) with invalid;
  _ ← verifyTrailer encoded (pgh_HashAlgo header);
  Ok header.

(** [count] entries of [size] bytes from [offset]; a failed entry is reported as
    an invalid object. *)
Fixpoint parse_entries {A} (parse : list byte → result A) (size : nat) (buf : list byte) (offset : nat)
    (count : nat) : result (list A) :=
  match count with
  | O => Ok []
  | S count =>
      entry ← mask_err invalid (parse (sub buf offset size));
      entries ← parse_entries parse size buf (offset + size) count;
      Ok (entry :: entries)
  end.

Definition ParseLeafPage (encoded : list byte) : result (LeafPage * list byte) :=
  header ← parsePage encoded leafMagic;
  entries ← parse_entries parseLeafEntry LeafEntrySize encoded PageHeaderSize (Z.to_nat (pgh_EntryCount header));
  let out := {| lp_Header := header; lp_Entries := entries |} in
  _ ← validateLeafPage out;
  Ok (out, pageID (take (length encoded - TrailerSize) encoded)).

Definition ParseIndexPage (encoded : list byte) : result (IndexPage * list byte) :=
  header ← parsePage encoded indexMagic;
  entries ← parse_entries parseIndexEntry IndexEntrySize encoded PageHeaderSize (Z.to_nat (pgh_EntryCount header));
  let out := {| ixp_Header := header; ixp_Entries := entries |} in
  _ ← validateIndexPage out;
  Ok (out, pageID (take (length encoded - TrailerSize) encoded)).

(** ** Heads *)
Definition section_bytes (section : OpenIndexSection) : list byte :=
  marshalSectionHeader section ++ concat (map marshalIndexEntry (os_Entries section)).
Definition head_body (head : Head) : list byte :=
  marshalHeadHeader (hd_Header head) ++ marshalLeafEntry (hd_LastSegment head) ++
  concat (map marshalLeafEntry (hd_Active head)) ++ concat (map section_bytes (hd_Sections head)).

Definition MarshalHead (head : Head) : result (list byte) :=
  _ ← validateHead head;
  appendTrailer (head_body head) (hh_HashAlgo (hd_Header head)).

(** The loops of [ParseHead], which check the remaining size before each read. *)
Fixpoint parse_active (encoded : list byte) (bodyEnd offset : nat) (count : nat) : result (list LeafEntry * nat) :=
  match count with
  | O => Ok ([], offset)
  | S count =>
      fail_if Z.of_nat bodyEnd - Z.of_nat offset <? Z.of_nat LeafEntrySize with invalid;
      entry ← mask_err invalid (parseLeafEntry (sub encoded offset LeafEntrySize));
      '(entries, offset) ← parse_active encoded bodyEnd (offset + LeafEntrySize) count;
      Ok (entry :: entries, offset)
  end.

Fixpoint parse_sections (encoded : list byte) (indexLimit : Z) (bodyEnd offset : nat) (count : nat)
    : result (list OpenIndexSection * nat) :=
  match count with
  | O => Ok ([], offset)
  | S count =>
      fail_if Z.of_nat bodyEnd - Z.of_nat offset <? Z.of_nat SectionHeaderSize with invalid;
      '(level, n) ← mask_err invalid (parseSectionHeader (sub encoded offset SectionHeaderSize));
      let offset := (offset + SectionHeaderSize)%nat in
      fail_if (indexLimit <=? n) || (MaxIndexEntries <? n) with invalid;
      fail_if Z.of_nat bodyEnd - Z.of_nat offset <? n * Z.of_nat IndexEntrySize with invalid;
      entries ← parse_entries parseIndexEntry IndexEntrySize encoded offset (Z.to_nat n);
      let offset := (offset + Z.to_nat n * IndexEntrySize)%nat in
      '(sections, offset) ← parse_sections encoded indexLimit bodyEnd offset count;
      Ok ({| os_Level := level; os_Entries := entries |} :: sections, offset)
  end.

Definition ParseHead (encoded : list byte) : result Head :=
  fail_if (length encoded <? HeadHeaderSize + LeafEntrySize + TrailerSize)%nat with invalid;
  header ← parseHeadHeader (sub encoded 0 HeadHeaderSize);
  fail_if (hh_LeafLimit header <=? hh_ActiveCount header) || (MaxLeafEntries <? hh_ActiveCount header) with invalid;
  fail_if MaxOpenIndexLevel <? hh_LevelCount header with invalid;
  _ ← verifyTrailer encoded (hh_HashAlgo header);
  lastSegment ← mask_err invalid (parseLeafEntry (sub encoded HeadHeaderSize LeafEntrySize));
  let offset := (HeadHeaderSize + LeafEntrySize)%nat in
  let bodyEnd := (length encoded - TrailerSize)%nat in
  '(active, offset) ← parse_active encoded bodyEnd offset (Z.to_nat (hh_ActiveCount header));
  '(sections, offset) ← parse_sections encoded (hh_IndexLimit header) bodyEnd offset (Z.to_nat (hh_LevelCount header));
  fail_if negb (offset =? bodyEnd)%nat with invalid;
  let head := {| hd_Header := header; hd_LastSegment := lastSegment; hd_Active := active; hd_Sections := sections |} in
  _ ← validateHead head;
  Ok head.
End codec.

(** ** Fixed-size regions *)
Ltac typed_goal :=
  split_and!; first [apply int64_range | apply be_get_u8 | apply be_get_u16 | apply be_get_u32 | apply be_get_u64 | idtac];
  by apply length_sub; lia.

Lemma parseLeafEntry_bytes e : LeafEntry_typed e → parseLeafEntry (marshalLeafEntry e) = Ok e.
Proof.
  intros Ht. unfold LeafEntry_typed in Ht. unfold parseLeafEntry, marshalLeafEntry, LeafEntrySize.
  read_fields. guards. by destruct e.
Qed.
Lemma parseLeafEntry_canonical buf e : parseLeafEntry buf = Ok e → marshalLeafEntry e = buf ∧ LeafEntry_typed e.
Proof.
  unfold parseLeafEntry, marshalLeafEntry, LeafEntrySize. intros HP. inv_ok. bool_to_prop. apply Nat.eqb_eq in Hchk.
  split.
  - cbn [le_BaseLSN le_LastLSN le_MinTimestampMS le_MaxTimestampMS le_RecordCount le_BlockCount le_SizeBytes
         le_BlockIndexOffset le_BlockIndexLength le_Codec le_HashAlgo le_SegmentHash le_TrailerHash le_WriterEpoch
         le_SegmentUUID le_WriterTag].
    canonical [8;8;8;8;4;4;8;8;4;2;2;8;8;8;16;16;8]%nat.
  - unfold LeafEntry_typed; cbn. typed_goal.
Qed.

Lemma parseIndexEntry_bytes e : IndexEntry_typed e → parseIndexEntry (marshalIndexEntry e) = Ok e.
Proof.
  intros Ht. unfold IndexEntry_typed in Ht. unfold parseIndexEntry, marshalIndexEntry, IndexEntrySize.
  read_fields. guards. by destruct e.
Qed.
Lemma parseIndexEntry_canonical buf e : parseIndexEntry buf = Ok e → marshalIndexEntry e = buf ∧ IndexEntry_typed e.
Proof.
  unfold parseIndexEntry, marshalIndexEntry, IndexEntrySize. intros HP. inv_ok. bool_to_prop. apply Nat.eqb_eq in Hchk.
  split.
  - cbn [ie_Level ie_EntryCount ie_SeqLo ie_SeqHi ie_MinTimestampMS ie_MaxTimestampMS ie_Generation ie_PageID
         ie_SegmentCount].
    canonical [1;3;4;8;8;8;8;8;16;8;8]%nat.
  - unfold IndexEntry_typed; cbn. typed_goal.
Qed.

Lemma PageHeader_eta h :
  mkPageHeader (pgh_Flags h) (pgh_Partition h) (pgh_Level h) (pgh_HashAlgo h) (pgh_EntryCount h)
    (pgh_EntrySize h) (pgh_SeqLo h) (pgh_SeqHi h) (pgh_MinTimestampMS h) (pgh_MaxTimestampMS h)
    (pgh_Generation h) (pgh_WriterEpoch h) (pgh_StreamKey h) (pgh_SegmentCount h) = h.
Proof. by destruct h. Qed.

Definition page_magic (magic : list byte) : Prop := magic = leafMagic ∨ magic = indexMagic.

Lemma parsePageHeader_bytes magic h :
  page_magic magic → PageHeader_typed h → validateCommonPageHeader h = Ok () →
  parsePageHeader (marshalPageHeader magic h) = Ok (h, magic).
Proof.
  intros Hm Ht Hv. assert (Hlm : length magic = 4%nat) by (by destruct Hm as [-> | ->]).
  unfold PageHeader_typed in Ht. unfold parsePageHeader, marshalPageHeader, PageHeaderSize. cbv zeta.
  read_fields. rewrite PageHeader_eta, Hv.
  assert (Hmag : negb (bool_decide (magic = leafMagic)) && negb (bool_decide (magic = indexMagic)) = false).
  { destruct Hm as [-> | ->]; [by rewrite (bool_decide_true (leafMagic = leafMagic))|].
    rewrite (bool_decide_true (indexMagic = indexMagic)) by done. by rewrite andb_false_r. }
  rewrite Hmag. guards. done.
Qed.
Lemma parsePageHeader_canonical buf h magic :
  parsePageHeader buf = Ok (h, magic) →
  marshalPageHeader magic h = buf ∧ PageHeader_typed h ∧ page_magic magic ∧ validateCommonPageHeader h = Ok ().
Proof.
  unfold parsePageHeader, PageHeaderSize. cbv zeta. intros HP. inv_ok. bool_to_prop. apply Nat.eqb_eq in Hchk.
  split; [|split; [|split; [|done]]].
  - unfold marshalPageHeader, PageHeaderSize.
    cbn [pgh_Flags pgh_Partition pgh_Level pgh_HashAlgo pgh_EntryCount pgh_EntrySize pgh_SeqLo pgh_SeqHi
         pgh_MinTimestampMS pgh_MaxTimestampMS pgh_Generation pgh_WriterEpoch pgh_StreamKey pgh_SegmentCount].
    canonical [4;2;2;4;4;1;1;2;4;4;4;8;8;8;8;8;8;32;8;8]%nat.
  - unfold PageHeader_typed; cbn. typed_goal.
  - apply andb_false_iff in Hchk0 as [E|E]; bool_to_prop; [by left | by right].
Qed.

Lemma HeadHeader_eta h :
  mkHeadHeader (hh_Flags h) (hh_Partition h) (hh_HashAlgo h) (hh_SegmentLayoutVersion h) (hh_LeafLimit h)
    (hh_IndexLimit h) (hh_ActiveCount h) (hh_LevelCount h) (hh_NextLSN h) (hh_OldestLSN h)
    (hh_AppliedRetentionLSN h) (hh_AppliedRetentionVersion h) (hh_WriterEpoch h) (hh_Generation h)
    (hh_SegmentCount h) (hh_ReachableSegmentCount h) (hh_WriterID h) (hh_StreamKey h) (hh_DataRootKey h) = h.
Proof. by destruct h. Qed.

(** The checks [parseHeadHeader] makes, all of them part of [validateHead]. *)
Definition head_header_checks (h : HeadHeader) : Prop :=
  HashAlgo_Validate (hh_HashAlgo h) = Ok () ∧ hh_SegmentLayoutVersion h = 1 ∧
  0 < hh_LeafLimit h ≤ 1024 ∧ 2 ≤ hh_IndexLimit h ≤ 1024.

Lemma parseHeadHeader_bytes h :
  HeadHeader_typed h → head_header_checks h → parseHeadHeader (marshalHeadHeader h) = Ok h.
Proof.
  intros Ht (Ha & Hl & Hlf & Hix). unfold HeadHeader_typed in Ht.
  unfold parseHeadHeader, marshalHeadHeader, HeadHeaderSize. cbv zeta.
  read_fields. rewrite HeadHeader_eta. guards. cbn -[validateHashAlgo].
  unfold validateHashAlgo, MaxLeafEntries, MaxIndexEntries. rewrite Ha, Hl. cbn [mask_err mbind result_bind].
  rewrite (proj2 (Z.eqb_neq (hh_LeafLimit h) 0)), !(proj2 (Z.ltb_ge _ _)) by lia. done.
Qed.
Lemma parseHeadHeader_canonical buf h :
  parseHeadHeader buf = Ok h → marshalHeadHeader h = buf ∧ HeadHeader_typed h ∧ head_header_checks h.
Proof.
  unfold parseHeadHeader, HeadHeaderSize. cbv zeta. intros HP. inv_ok. bool_to_prop. apply Nat.eqb_eq in Hchk.
  split; [|split].
  - unfold marshalHeadHeader, HeadHeaderSize.
    cbn [hh_Flags hh_Partition hh_HashAlgo hh_SegmentLayoutVersion hh_LeafLimit hh_IndexLimit hh_ActiveCount
         hh_LevelCount hh_NextLSN hh_OldestLSN hh_AppliedRetentionLSN hh_AppliedRetentionVersion hh_WriterEpoch
         hh_Generation hh_SegmentCount hh_ReachableSegmentCount hh_WriterID hh_StreamKey hh_DataRootKey].
    canonical [4;2;2;4;4;2;2;4;4;4;4;4;8;8;8;8;8;8;8;16;32;32;8;8]%nat.
  - unfold HeadHeader_typed; cbn. typed_goal.
  - unfold validateHashAlgo in *. inv_ok. unfold head_header_checks, MaxLeafEntries, MaxIndexEntries, SegmentLayoutV1 in *.
    cbn [hh_Flags hh_Partition hh_HashAlgo hh_SegmentLayoutVersion hh_LeafLimit hh_IndexLimit] in *.
    assert (HLf : is_u32 (be_get (sub buf 20 4))) by (apply be_get_u32, length_sub; lia).
    split; [assumption|]. split; [assumption|]. unfold_widths. lia.
Qed.

Lemma parseSectionHeader_bytes s :
  is_u8 (os_Level s) → len (os_Entries s) ≤ 1024 →
  parseSectionHeader (marshalSectionHeader s) = Ok (os_Level s, len (os_Entries s)).
Proof.
  intros Ht Hl. pose proof (len_nonneg (os_Entries s)). unfold parseSectionHeader, marshalSectionHeader, SectionHeaderSize.
  rewrite uint32_id by (unfold_widths; lia).
  assert (is_u32 (len (os_Entries s))) by (unfold_widths; lia). read_fields. guards. done.
Qed.
Lemma parseSectionHeader_canonical buf level n entries :
  parseSectionHeader buf = Ok (level, n) → len entries = n →
  marshalSectionHeader {| os_Level := level; os_Entries := entries |} = buf ∧ is_u8 level ∧ is_u32 n.
Proof.
  unfold parseSectionHeader, SectionHeaderSize. intros HP. inv_ok. bool_to_prop. apply Nat.eqb_eq in Hchk. intros Hn.
  assert (Hu : is_u32 (be_get (sub buf 8 4))) by (apply be_get_u32, length_sub; lia).
  split; [|split; [apply be_get_u8, length_sub; lia|done]].
  unfold marshalSectionHeader, SectionHeaderSize. cbn [os_Level os_Entries]. rewrite Hn, uint32_id by done.
  canonical [4;1;3;4;4]%nat.
Qed.

Lemma length_marshalLeafEntry e : length (marshalLeafEntry e) = 128%nat.
Proof. apply length_fill. Qed.
Lemma length_marshalIndexEntry e : length (marshalIndexEntry e) = 80%nat.
Proof. apply length_fill. Qed.
Lemma length_concat_map {A} (f : A → list byte) n l :
  (∀ a, length (f a) = n) → length (concat (map f l)) = (length l * n)%nat.
Proof. intros Hf. induction l as [|a l IH]; [done|]. cbn [map concat length]. rewrite length_app, IH, Hf. lia. Qed.

(** ** Sequences of entries *)
Section entries.
Context {A} (parse : list byte → result A) (marshal : A → list byte) (size : nat) (typed : A → Prop).
Context (Hlen : ∀ a, length (marshal a) = size).
Context (Hbytes : ∀ a, typed a → parse (marshal a) = Ok a).
Context (Hcanon : ∀ buf a, parse buf = Ok a → marshal a = buf ∧ typed a).

Lemma parse_entries_bytes pre es post offset :
  length pre = offset → Forall typed es →
  parse_entries parse size (pre ++ concat (map marshal es) ++ post) offset (length es) = Ok es.
Proof.
  intros Hp Ht. revert pre offset Hp; induction Ht as [|e es He Ht IH]; intros pre offset Hp; [done|].
  cbn [parse_entries length map concat]. rewrite <- (app_assoc (marshal e)).
  rewrite sub_app_r, sub_app_l, sub_whole by (rewrite ?Hlen; lia). rewrite Hbytes by done. cbn [mask_err mbind result_bind].
  rewrite app_assoc, IH; [done|]. rewrite length_app, Hlen. lia.
Qed.

Lemma parse_entries_canonical buf offset n es :
  parse_entries parse size buf offset n = Ok es →
  (offset + n * size ≤ length buf)%nat →
  length es = n ∧ Forall typed es ∧ sub buf offset (n * size) = concat (map marshal es).
Proof.
  revert offset es; induction n as [|n IH]; intros offset es HP Hl; cbn [parse_entries] in HP.
  { inv_ok. split; [done|]. split; [constructor|done]. }
  inv_ok. apply Hcanon in Hbind as [Hm Ht]. destruct (IH _ _ Hbind0 ltac:(lia)) as (Hn & Hts & Hs).
  split; [cbn; lia|]. split; [by constructor|]. cbn [map concat Nat.mul]. rewrite sub_add, Hm. f_equal.
  by rewrite <- Hs.
Qed.
End entries.

(** ** The trailer *)
Lemma length_trailer h th : length (copy_at 16 (be_put 8 th) (trailer_bytes h)) = 32%nat.
Proof. rewrite length_copy_at. apply length_fill. Qed.

Lemma length_appendTrailer `{XXHash} body algo enc :
  appendTrailer body algo = Ok enc → length enc = (length body + 32)%nat ∧ take (length body) enc = body.
Proof.
  unfold appendTrailer. cbv zeta. intros HA. inv_ok. rewrite length_app, length_trailer.
  split; [done|]. by rewrite take_app_length.
Qed.

Lemma appendTrailer_total `{XXHash} body algo :
  HashAlgo_Validate algo = Ok () → ∃ enc, appendTrailer body algo = Ok enc.
Proof.
  intros Ha. unfold appendTrailer, validateHashAlgo. rewrite Ha. cbn [mask_err mbind result_bind].
  destruct (HashBytes_total algo body Ha) as (h & -> & _). cbn [mbind result_bind].
  destruct (HashBytes_total algo (trailer_bytes h) Ha) as (h' & -> & _). eexists; reflexivity.
Qed.

(** The trailer check accepts exactly the objects [appendTrailer] produces. *)
Lemma verifyTrailer_spec `{XXHash} enc algo :
  verifyTrailer enc algo = Ok () ↔
  (32 ≤ length enc)%nat ∧ appendTrailer (take (length enc - 32) enc) algo = Ok enc.
Proof.
  unfold verifyTrailer, TrailerSize. cbv zeta. split.
  - intros HV. inv_ok. bool_to_prop. apply Nat.ltb_ge in Hchk. split; [done|].
    set (tr := drop (length enc - 32) enc) in *. assert (Hl : length tr = 32%nat) by (unfold tr; rewrite length_drop; lia).
    unfold appendTrailer. rewrite Hbind. cbn [mbind result_bind]. rewrite Hbind1. cbn [mbind result_bind]. cbv zeta. subst.
    assert (Hb : trailer_bytes (be_get (sub tr 8 8)) = copy_at 16 (zeros 8) tr).
    { unfold trailer_bytes, TrailerSize. canonical [4;2;2;8;8;8]%nat. }
    rewrite Hb, Hbind0. cbn [mbind result_bind]. f_equal.
    transitivity (take (length enc - 32) enc ++ tr); [|apply take_drop]. apply (f_equal (app _)).
    apply (same_fields_eq [16;8;8]%nat); [by rewrite !length_copy_at, Hl | by rewrite Hl |].
    cbn [same_fields Nat.add]. subs. by rewrite sub_be_put by lia.
  - intros [Hl HA]. unfold appendTrailer in HA. cbv zeta in HA. inv_ok.
    set (body := take (length enc - 32) enc) in *.
    rewrite (proj2 (Nat.ltb_ge _ _)) by lia. rewrite Hbind. cbn [mbind result_bind].
    assert (Hbl : length body = (length enc - 32)%nat) by (unfold body; rewrite length_take; lia).
    assert (Hd : drop (length enc - 32) enc = copy_at 16 (be_put 8 x0) (trailer_bytes x)).
    { rewrite <- Hbl. transitivity (drop (length body) (body ++ copy_at 16 (be_put 8 x0) (trailer_bytes x)));
        [by rewrite HA | apply drop_app_length]. }
    rewrite Hd. pose proof (HashBytes_u64 _ _ _ Hbind0). pose proof (HashBytes_u64 _ _ _ Hbind1).
    assert (Hz : copy_at 16 (zeros 8) (copy_at 16 (be_put 8 x0) (trailer_bytes x)) = trailer_bytes x).
    { apply (copy_at_zero_back (trailer_bytes x) 16 (be_put 8 x0)); rewrite length_be_put.
      - unfold trailer_bytes. rewrite length_fill. unfold TrailerSize. lia.
      - unfold trailer_bytes, TrailerSize. get_shape sh. by read_fill sh. }
    rewrite Hz, Hbind1, Hbind0. cbn [mbind result_bind].
    unfold trailer_bytes, TrailerSize. rewrite fill_snoc. cbn [app]. read_fields. guards. done.
Qed.

(** ** Page round trips *)
Definition LeafPage_typed (p : LeafPage) : Prop := PageHeader_typed (lp_Header p) ∧ Forall LeafEntry_typed (lp_Entries p).
Definition IndexPage_typed (p : IndexPage) : Prop := PageHeader_typed (ixp_Header p) ∧ Forall IndexEntry_typed (ixp_Entries p).

Definition page_entry_size (magic : list byte) : nat := if bool_decide (magic = indexMagic) then 80%nat else 128%nat.

Lemma parsePage_spec `{XXHash} enc magic h :
  page_magic magic →
  parsePage enc magic = Ok h ↔
  PageHeader_typed h ∧ validateCommonPageHeader h = Ok () ∧
  pgh_EntrySize h = Z.of_nat (page_entry_size magic) ∧ 0 < pgh_EntryCount h ≤ 1024 ∧
  len enc = 160 + pgh_EntryCount h * Z.of_nat (page_entry_size magic) ∧
  sub enc 0 128 = marshalPageHeader magic h ∧ verifyTrailer enc (pgh_HashAlgo h) = Ok ().
Proof.
  intros Hm. unfold parsePage, PageHeaderSize, TrailerSize.
  assert (Hsz : (if bool_decide (magic = indexMagic) then (Z.of_nat IndexEntrySize, MaxIndexEntries)
     else (Z.of_nat LeafEntrySize, MaxLeafEntries)) = (Z.of_nat (page_entry_size magic), 1024))
    by (unfold page_entry_size; by destruct (bool_decide (magic = indexMagic))).
  rewrite Hsz. split.
  - intros HP. inv_ok. destruct x as [h' m']. inv_ok. bool_to_prop. subst m'.
    apply parsePageHeader_canonical in Hbind as (Hb & Ht & _ & Hv).
    assert (0 ≤ pgh_EntryCount h) by (unfold PageHeader_typed in Ht; unfold_widths; lia).
    split_and!; try done; lia.
  - intros (Ht & Hv & Hs & Hc & Hl & Hsub & HV).
    rewrite (proj2 (Nat.ltb_ge _ _)) by (unfold len in Hl; lia).
    rewrite Hsub, parsePageHeader_bytes by done. cbn [mbind result_bind]. rewrite bool_decide_true by done. cbn [negb].
    rewrite Hs, Z.eqb_refl, (proj2 (Z.eqb_neq (pgh_EntryCount h) 0)), (proj2 (Z.ltb_ge 1024 _)) by lia. cbn [negb orb].
    replace (len enc =? _) with true by (symmetry; apply Z.eqb_eq; lia). cbn [negb]. by rewrite HV.
Qed.

(** What [appendTrailer] returns splits back into body and trailer. *)
Lemma appendTrailer_parts `{XXHash} body algo enc :
  appendTrailer body algo = Ok enc →
  ∃ tr, enc = body ++ tr ∧ length tr = 32%nat ∧ verifyTrailer enc algo = Ok ().
Proof.
  intros HA. pose proof (length_appendTrailer _ _ _ HA) as [Hl Ht].
  exists (drop (length body) enc). rewrite length_drop.
  split; [rewrite <- (take_drop (length body) enc) at 1; by rewrite Ht|]. split; [lia|].
  apply verifyTrailer_spec. split; [lia|]. replace (length enc - 32)%nat with (length body) by lia. by rewrite Ht.
Qed.

(** Both page codecs are instances of one argument: a header followed by entries
    of one size. *)
Section page_codec.
Context `{XXHash} {A} (parse : list byte → result A) (marshal : A → list byte) (typed : A → Prop)
  (magic : list byte).
Let size := page_entry_size magic.
Context (Hmagic : page_magic magic) (Hlen : ∀ a, length (marshal a) = size).
Context (Hbytes : ∀ a, typed a → parse (marshal a) = Ok a).
Context (Hcanon : ∀ buf a, parse buf = Ok a → marshal a = buf ∧ typed a).
Let body (h : PageHeader) (es : list A) := marshalPageHeader magic h ++ concat (map marshal es).

Lemma length_page_body h es : length (body h es) = (128 + length es * size)%nat.
Proof. unfold body. rewrite length_app, (length_concat_map _ _ _ Hlen). unfold marshalPageHeader. by rewrite length_fill. Qed.

Lemma page_parse_bytes h es enc :
  PageHeader_typed h → Forall typed es → validateCommonPageHeader h = Ok () →
  pgh_EntrySize h = Z.of_nat size → pgh_EntryCount h = len es → 0 < len es ≤ 1024 →
  appendTrailer (body h es) (pgh_HashAlgo h) = Ok enc →
  parsePage enc magic = Ok h ∧ parse_entries parse size enc 128 (Z.to_nat (pgh_EntryCount h)) = Ok es ∧
  take (length enc - 32) enc = body h es.
Proof.
  intros Hh Ht Hc Hs Hn Hcnt HA. destruct (appendTrailer_parts _ _ _ HA) as (tr & -> & Htr & HV).
  pose proof (length_page_body h es) as Hb.
  assert (Hmh : length (marshalPageHeader magic h) = 128%nat) by apply length_fill.
  split; [|split].
  - apply parsePage_spec; [done|]. split_and!; try done; try lia.
    + fold size. unfold len in *. rewrite length_app, Hb, Htr. lia.
    + unfold body. rewrite <- app_assoc, sub_app_l, sub_whole by lia. done.
  - rewrite Hn. unfold len. rewrite Nat2Z.id. unfold body. rewrite <- app_assoc.
    by apply (parse_entries_bytes parse marshal size typed).
  - rewrite length_app, Htr, Nat.add_sub. apply take_app_length.
Qed.

Lemma page_parse_canonical h es enc :
  parsePage enc magic = Ok h → parse_entries parse size enc 128 (Z.to_nat (pgh_EntryCount h)) = Ok es →
  PageHeader_typed h ∧ Forall typed es ∧ pgh_EntryCount h = len es ∧
  take (length enc - 32) enc = body h es ∧ appendTrailer (body h es) (pgh_HashAlgo h) = Ok enc.
Proof.
  intros HP HE. apply parsePage_spec in HP as (Hh & _ & _ & Hc & Hl & Hsub & HV); [|done]. fold size in Hl.
  apply (parse_entries_canonical parse marshal size typed Hcanon) in HE as (Hn & Ht & Hs); [|unfold len in Hl; lia].
  assert (Hbody : take (length enc - 32) enc = body h es).
  { unfold body. rewrite <- Hsub, <- Hs, <- sub_add. unfold sub. rewrite drop_0. f_equal. unfold len in Hl. lia. }
  split_and!; try done; [unfold len; lia|].
  apply verifyTrailer_spec in HV as [_ HA]. by rewrite Hbody in HA.
Qed.
End page_codec.

Lemma ParseLeafPage_spec `{XXHash} enc page id :
  ParseLeafPage enc = Ok (page, id) ↔ LeafPage_typed page ∧ MarshalLeafPage page = Ok (enc, id).
Proof.
  assert (Hm : page_magic leafMagic) by by left.
  pose proof (page_parse_bytes parseLeafEntry marshalLeafEntry LeafEntry_typed leafMagic Hm length_marshalLeafEntry
    parseLeafEntry_bytes) as HB.
  pose proof (page_parse_canonical parseLeafEntry marshalLeafEntry LeafEntry_typed leafMagic Hm
    parseLeafEntry_canonical) as HC.
  change (page_entry_size leafMagic) with 128%nat in *.
  unfold ParseLeafPage, MarshalLeafPage, LeafPage_typed, leaf_body, TrailerSize, LeafEntrySize, PageHeaderSize in *.
  destruct page as [h es]; cbn [lp_Header lp_Entries] in *. split.
  - intros HP. inv_ok. simplify_eq. destruct (HC _ _ _ Hbind Hbind0) as (Hh & Ht & Hn & Hb & HA).
    split; [done|]. rewrite Hbind1. cbn [mbind result_bind]. rewrite HA. cbn [mbind result_bind]. by rewrite Hb.
  - intros [[Hh Ht] HM]. inv_ok. pose proof (proj1 (validateLeafPage_spec {| lp_Header := h; lp_Entries := es |} Ht) Hbind) as Hk. destruct Hk.
    cbn [lp_Header lp_Entries] in *.
    destruct (HB h es enc) as (HP & HE & Hb); try done.
    { split; [destruct es; [done|unfold len; cbn [length]; lia] | done]. }
    rewrite HP. cbn [mbind result_bind]. rewrite HE. cbn [mbind result_bind]. rewrite Hbind. cbn [mbind result_bind]. by rewrite Hb.
Qed.

Lemma ParseIndexPage_spec `{XXHash} enc page id :
  ParseIndexPage enc = Ok (page, id) ↔ IndexPage_typed page ∧ MarshalIndexPage page = Ok (enc, id).
Proof.
  assert (Hm : page_magic indexMagic) by by right.
  pose proof (page_parse_bytes parseIndexEntry marshalIndexEntry IndexEntry_typed indexMagic Hm length_marshalIndexEntry
    parseIndexEntry_bytes) as HB.
  pose proof (page_parse_canonical parseIndexEntry marshalIndexEntry IndexEntry_typed indexMagic Hm
    parseIndexEntry_canonical) as HC.
  change (page_entry_size indexMagic) with 80%nat in *.
  unfold ParseIndexPage, MarshalIndexPage, IndexPage_typed, index_body, TrailerSize, IndexEntrySize, PageHeaderSize in *.
  destruct page as [h es]; cbn [ixp_Header ixp_Entries] in *. split.
  - intros HP. inv_ok. simplify_eq. destruct (HC _ _ _ Hbind Hbind0) as (Hh & Ht & Hn & Hb & HA).
    split; [done|]. rewrite Hbind1. cbn [mbind result_bind]. rewrite HA. cbn [mbind result_bind]. by rewrite Hb.
  - intros [[Hh Ht] HM]. inv_ok. pose proof (proj1 (validateIndexPage_spec {| ixp_Header := h; ixp_Entries := es |} Ht Hh) Hbind) as Hk. destruct Hk.
    cbn [ixp_Header ixp_Entries] in *.
    destruct (HB h es enc) as (HP & HE & Hb); try done.
    { split; [destruct es; [done|unfold len; cbn [length]; lia] | done]. }
    rewrite HP. cbn [mbind result_bind]. rewrite HE. cbn [mbind result_bind]. rewrite Hbind. cbn [mbind result_bind]. by rewrite Hb.
Qed.

(** ** Head round trip *)
Lemma parse_active_spec enc bodyEnd offset n es offset' :
  (offset ≤ bodyEnd)%nat →
  parse_active enc bodyEnd offset n = Ok (es, offset') ↔
  parse_entries parseLeafEntry 128 enc offset n = Ok es ∧ offset' = (offset + n * 128)%nat ∧ (offset' ≤ bodyEnd)%nat.
Proof.
  unfold LeafEntrySize. revert offset es; induction n as [|n IH]; intros offset es Hb; cbn [parse_active parse_entries].
  { rewrite Nat.add_0_r. split; [intros [= <- <-]; by split_and! | by intros ([= <-] & -> & _)]. }
  unfold LeafEntrySize. split.
  - intros HP. inv_ok. bool_to_prop. destruct x0 as [es' o']. inv_ok. simplify_eq.
    apply IH in Hbind0 as (HE & Ho & Hl); [|lia]. rewrite Hbind. cbn [mask_err mbind result_bind].
    rewrite HE. split_and!; [done|lia|done].
  - intros (HE & Ho & Hl). rewrite (proj2 (Z.ltb_ge _ _)) by lia. inv_ok.
    rewrite Hbind. cbn [mask_err mbind result_bind].
    rewrite (proj2 (IH (offset + 128)%nat x0 ltac:(lia))); [done|]. split_and!; [done|lia|done].
Qed.

Lemma length_section_bytes s : length (section_bytes s) = (16 + length (os_Entries s) * 80)%nat.
Proof.
  unfold section_bytes. rewrite length_app, (length_concat_map _ _ _ length_marshalIndexEntry).
  unfold marshalSectionHeader. by rewrite length_fill.
Qed.

(** The limits [ParseHead] puts on a section. *)
Definition section_fits (limit : Z) (s : OpenIndexSection) : Prop :=
  len (os_Entries s) < limit ∧ len (os_Entries s) ≤ 1024.

Lemma parse_sections_bytes limit bodyEnd pre ss post offset :
  length pre = offset → Forall OpenIndexSection_typed ss → Forall (section_fits limit) ss →
  bodyEnd = (offset + length (concat (map section_bytes ss)))%nat →
  parse_sections (pre ++ concat (map section_bytes ss) ++ post) limit bodyEnd offset (length ss) = Ok (ss, bodyEnd).
Proof.
  intros Hp Ht. revert pre offset Hp; induction Ht as [|s ss [Hl He] Ht IH]; intros pre offset Hp Hf Hb.
  { cbn in Hb |- *. by rewrite Hb, Nat.add_0_r. }
  apply Forall_cons in Hf as [[Hn Hm] Hf]. cbn [map concat] in Hb. rewrite length_app, length_section_bytes in Hb.
  cbn [parse_sections length map concat]. unfold SectionHeaderSize, IndexEntrySize, MaxIndexEntries.
  rewrite (proj2 (Z.ltb_ge _ _)) by lia.
  assert (Hs : length (marshalSectionHeader s) = 16%nat) by apply length_fill.
  assert (Hsub : sub (pre ++ (section_bytes s ++ concat (map section_bytes ss)) ++ post) offset 16 = marshalSectionHeader s).
  { unfold section_bytes at 1. rewrite <- !app_assoc. rewrite sub_app_r, sub_app_l, sub_whole by lia. done. }
  rewrite Hsub, parseSectionHeader_bytes by done. cbn [mask_err mbind result_bind].
  rewrite (proj2 (Z.leb_gt limit _)), (proj2 (Z.ltb_ge 1024 _)) by lia. cbn [orb].
  rewrite (proj2 (Z.ltb_ge _ _)) by (unfold len; lia).
  assert (HE : parse_entries parseIndexEntry 80 (pre ++ (section_bytes s ++ concat (map section_bytes ss)) ++ post)
                 (offset + 16) (Z.to_nat (len (os_Entries s))) = Ok (os_Entries s)).
  { unfold len. rewrite Nat2Z.id. unfold section_bytes at 1. rewrite <- !app_assoc, (app_assoc pre).
    apply (parse_entries_bytes _ _ _ _ length_marshalIndexEntry parseIndexEntry_bytes); [|done].
    rewrite length_app. lia. }
  rewrite HE. cbn [mbind result_bind].
  rewrite <- (app_assoc (section_bytes s)), (app_assoc pre (section_bytes s)).
  rewrite IH; [by destruct s| |done|].
  - rewrite length_app, length_section_bytes. unfold len. lia.
  - unfold len. lia.
Qed.

Lemma parse_sections_canonical enc limit bodyEnd offset n ss offset' :
  parse_sections enc limit bodyEnd offset n = Ok (ss, offset') →
  (offset ≤ bodyEnd ≤ length enc)%nat →
  length ss = n ∧ Forall OpenIndexSection_typed ss ∧ (offset' ≤ bodyEnd)%nat ∧
  offset' = (offset + length (concat (map section_bytes ss)))%nat ∧
  sub enc offset (length (concat (map section_bytes ss))) = concat (map section_bytes ss).
Proof.
  revert offset ss; induction n as [|n IH]; intros offset ss HP Hb; cbn [parse_sections] in HP.
  { inv_ok. simplify_eq. cbn. split_and!; [done|constructor|lia|lia|done]. }
  unfold SectionHeaderSize, IndexEntrySize in HP. inv_ok. destruct x as [level k]. cbv zeta in HP. inv_ok.
  destruct x0 as [ss' o']. inv_ok. simplify_eq. bool_to_prop.
  assert (Hk : is_u32 k).
  { unfold parseSectionHeader, SectionHeaderSize in Hbind. inv_ok. simplify_eq. apply be_get_u32, length_sub.
    rewrite length_sub by lia. lia. }
  assert (0 ≤ k) by (unfold_widths; lia).
  apply (parse_entries_canonical parseIndexEntry marshalIndexEntry 80 IndexEntry_typed parseIndexEntry_canonical)
    in Hbind0 as (Hn & Ht & Hs); [|lia].
  apply (parseSectionHeader_canonical _ _ _ x) in Hbind as (Hm & Hl & _); [|unfold len; lia].
  apply IH in Hbind1 as (Hn' & Hts & Ho & Hoe & Hsub); [|lia].
  cbn [map concat]. rewrite length_app, length_section_bytes. cbn [os_Entries].
  rewrite Hn. split_and!; [cbn; lia | constructor; [by split|done] | done | lia |].
  change (section_bytes {| os_Level := level; os_Entries := x |}) with
    (marshalSectionHeader {| os_Level := level; os_Entries := x |} ++ concat (map marshalIndexEntry x)).
  rewrite !sub_add, Hs, Hm. by rewrite Nat.add_assoc, Hsub.
Qed.

Lemma sections_fit h level ss :
  hh_IndexLimit h ≤ 1024 → sections_ok h level ss → Forall (section_fits (hh_IndexLimit h)) ss.
Proof.
  intros Hl. revert level; induction ss as [|s ss IH]; intros level Hs; constructor.
  - destruct Hs as [(_ & Hn & _) _]. split; lia.
  - destruct Hs as [_ Hs]. by eapply IH.
Qed.

Lemma length_head_body head :
  length (head_body head) =
  (320 + length (hd_Active head) * 128 + length (concat (map section_bytes (hd_Sections head))))%nat.
Proof.
  unfold head_body. rewrite !length_app, (length_concat_map _ _ _ length_marshalLeafEntry), length_marshalLeafEntry.
  unfold marshalHeadHeader. rewrite length_fill. unfold HeadHeaderSize. lia.
Qed.

(** The three regions of an encoded head that [ParseHead] reads in turn. *)
Lemma head_body_regions head tr :
  Head_typed head →
  let enc := head_body head ++ tr in
  sub enc 0 192 = marshalHeadHeader (hd_Header head) ∧ sub enc 192 128 = marshalLeafEntry (hd_LastSegment head) ∧
  parse_entries parseLeafEntry 128 enc 320 (length (hd_Active head)) = Ok (hd_Active head).
Proof.
  intros (_ & _ & Hta & _). cbv zeta. unfold head_body. rewrite <- !app_assoc.
  assert (Hh : length (marshalHeadHeader (hd_Header head)) = 192%nat) by apply length_fill.
  pose proof (length_marshalLeafEntry (hd_LastSegment head)) as Hl. split; [|split].
  - by rewrite sub_app_l, sub_whole by lia.
  - by rewrite sub_app_r, sub_app_l, sub_whole by lia.
  - rewrite (app_assoc (marshalHeadHeader _)).
    apply (parse_entries_bytes _ _ _ _ length_marshalLeafEntry parseLeafEntry_bytes); [|done]. rewrite length_app. lia.
Qed.

Lemma parse_sections_head limit head tr :
  Forall OpenIndexSection_typed (hd_Sections head) → Forall (section_fits limit) (hd_Sections head) →
  parse_sections (head_body head ++ tr) limit (length (head_body head)) (320 + length (hd_Active head) * 128)
    (length (hd_Sections head)) = Ok (hd_Sections head, length (head_body head)).
Proof.
  intros Ht Hf. pose proof (length_head_body head) as Hb. unfold head_body at 1.
  rewrite !(app_assoc _ _ (concat (map section_bytes _))), <- (app_assoc _ (concat (map section_bytes _)) tr).
  apply parse_sections_bytes; [|done|done|lia].
  rewrite !length_app, (length_concat_map _ _ _ length_marshalLeafEntry), length_marshalLeafEntry.
  unfold marshalHeadHeader. rewrite length_fill. unfold HeadHeaderSize. lia.
Qed.

Lemma ParseHead_spec `{XXHash} enc head :
  ParseHead enc = Ok head ↔ Head_typed head ∧ MarshalHead head = Ok enc.
Proof.
  unfold ParseHead, MarshalHead, HeadHeaderSize, LeafEntrySize, TrailerSize, MaxLeafEntries, MaxOpenIndexLevel, MaxIndexLevel.
  cbv zeta. split.
  - intros HP. inv_ok. apply Nat.ltb_ge in Hchk. destruct x1 as [active o1]. inv_ok. destruct x1 as [ss o2]. inv_ok. bool_to_prop.
    match goal with E : (_ =? _)%nat = true |- _ => apply Nat.eqb_eq in E; subst o2 end.
    apply parseHeadHeader_canonical in Hbind as (Hbh & Hth & _).
    apply verifyTrailer_spec in Hbind0 as [_ HA].
    apply parseLeafEntry_canonical in Hbind1 as [Hbl Htl].
    apply parse_active_spec in Hbind2 as (HE & Ho1 & Hl1); [|lia].
    apply (parse_entries_canonical parseLeafEntry marshalLeafEntry 128 LeafEntry_typed parseLeafEntry_canonical)
      in HE as (Hn & Hta & Hsa); [|lia].
    apply parse_sections_canonical in Hbind3 as (Hns & Hts & _ & Ho2 & Hss); [|lia].
    split; [by split_and!|]. rewrite Hbind4. cbn [mbind result_bind hd_Header].
    replace (head_body _) with (take (length enc - 32) enc); [done|].
    unfold head_body; cbn [hd_Header hd_LastSegment hd_Active hd_Sections].
    rewrite Hbh, Hbl, <- Hsa, <- Hss. change (take (length enc - 32) enc) with (sub enc 0 (length enc - 32)).
    subst o1. rewrite <- Hn in *. set (sl := length (concat (map section_bytes ss))) in *.
    replace (length enc - 32)%nat with (192 + (128 + (length active * 128 + sl)))%nat by lia.
    by rewrite (sub_add _ 0), (sub_add _ 192), (sub_add _ (192 + 128)).
  - intros [HT HM]. inv_ok. pose proof (proj1 (validateHead_spec _ HT) Hbind) as Hk.
    destruct HT as (Hth & Htl & Hta & Hts). destruct (appendTrailer_parts _ _ _ HM) as (tr & -> & Htr & HV).
    pose proof (length_head_body head) as Hlb.
    destruct (head_body_regions head tr) as (Hr1 & Hr2 & Hr3); [by split_and!|].
    assert (Hbe : (length (head_body head ++ tr) - 32)%nat = length (head_body head)) by (rewrite length_app; lia).
    rewrite (proj2 (Nat.ltb_ge _ _)) by (rewrite length_app; lia).
    rewrite Hbe, Hr1, parseHeadHeader_bytes; [|done|destruct Hk; split; [done|split; done]]. cbn [mbind result_bind].
    rewrite HV, Hr2, parseLeafEntry_bytes by done. cbn [mask_err mbind result_bind].
    rewrite (hk_active_count _ Hk), (hk_level_count _ Hk). 
    assert (Hnl : ∀ T (l : list T), Z.to_nat (len l) = length l) by (intros; unfold len; lia). rewrite !Hnl.
    pose proof (hk_active_len _ Hk). pose proof (hk_leaf_limit _ Hk). pose proof (hk_sections_len _ Hk).
    pose proof (hk_index_limit _ Hk).
    rewrite (proj2 (Z.leb_gt (hh_LeafLimit _) _)) by lia.
    rewrite (proj2 (Z.ltb_ge 1024 _)), (proj2 (Z.ltb_ge (63 + 1) _)) by lia. cbn [orb].
    rewrite (proj2 (parse_active_spec _ (length (head_body head)) (192 + 128) _ (hd_Active head)
      (320 + length (hd_Active head) * 128) ltac:(lia)))
      by (split_and!; [done|lia|lia]).
    cbn [mbind result_bind].
    rewrite parse_sections_head; [|done|by eapply sections_fit, hk_sections; [lia|]]. cbn [mbind result_bind].
    rewrite Nat.eqb_refl. cbn [negb].
    replace (mkHead _ _ _ _) with head by (by destruct head). by rewrite Hbind.
Qed.

Lemma validateCommonPageHeader_algo h : validateCommonPageHeader h = Ok () → HashAlgo_Validate (pgh_HashAlgo h) = Ok ().
Proof. unfold validateCommonPageHeader, validateHashAlgo. intros HV. by inv_ok. Qed.

(** Marshalling succeeds exactly on the objects with the meaning of a page or a head. *)
Lemma Marshal_total `{XXHash} :
  (∀ page, LeafPage_typed page → (∃ enc id, MarshalLeafPage page = Ok (enc, id)) ↔ leaf_page_ok page) ∧
  (∀ page, IndexPage_typed page → (∃ enc id, MarshalIndexPage page = Ok (enc, id)) ↔ index_page_ok page) ∧
  (∀ head, Head_typed head → (∃ enc, MarshalHead head = Ok enc) ↔ head_ok head).
Proof.
  split; [|split].
  - intros page [Hh Ht]. rewrite <- validateLeafPage_spec by done. unfold MarshalLeafPage. split.
    + intros (enc & id & HM). by inv_ok.
    + intros HV. rewrite HV. apply validateLeafPage_spec in HV; [|done].
      pose proof (validateCommonPageHeader_algo _ (lpk_common _ HV)) as Ha.
      destruct (appendTrailer_total (leaf_body page) _ Ha) as [enc HA]. exists enc. eexists. cbn [mbind result_bind]. by rewrite HA.
  - intros page [Hh Ht]. rewrite <- validateIndexPage_spec by done. unfold MarshalIndexPage. split.
    + intros (enc & id & HM). by inv_ok.
    + intros HV. rewrite HV. apply validateIndexPage_spec in HV; [|done|done].
      pose proof (validateCommonPageHeader_algo _ (ipk_common _ HV)) as Ha.
      destruct (appendTrailer_total (index_body page) _ Ha) as [enc HA]. exists enc. eexists. cbn [mbind result_bind]. by rewrite HA.
  - intros head HT. rewrite <- validateHead_spec by done. unfold MarshalHead. split.
    + intros (enc & HM). by inv_ok.
    + intros HV. rewrite HV. apply validateHead_spec in HV; [|done].
      destruct (appendTrailer_total (head_body head) _ (hk_algo _ HV)) as [enc HA]. exists enc. cbn [mbind result_bind]. by rewrite HA.
Qed.

(** C16. The catalog objects: [ParseLeafPage], [ParseIndexPage] and [ParseHead]
    accept exactly the byte strings that [MarshalLeafPage], [MarshalIndexPage]
    and [MarshalHead] write, and return the object that was written (for pages
    also the ID that names it); marshalling succeeds exactly on well-formed
    objects, [leaf_page_ok], [index_page_ok] and [head_ok].  Whatever the hash
    function, one that returns 64-bit values is enough. *)
Theorem catalog_object_codecs `{XXHash} :
  (∀ enc page id, ParseLeafPage enc = Ok (page, id) ↔ LeafPage_typed page ∧ MarshalLeafPage page = Ok (enc, id)) ∧
  (∀ enc page id, ParseIndexPage enc = Ok (page, id) ↔ IndexPage_typed page ∧ MarshalIndexPage page = Ok (enc, id)) ∧
  (∀ enc head, ParseHead enc = Ok head ↔ Head_typed head ∧ MarshalHead head = Ok enc) ∧
  (∀ page, LeafPage_typed page → (∃ enc id, MarshalLeafPage page = Ok (enc, id)) ↔ leaf_page_ok page) ∧
  (∀ page, IndexPage_typed page → (∃ enc id, MarshalIndexPage page = Ok (enc, id)) ↔ index_page_ok page) ∧
  (∀ head, Head_typed head → (∃ enc, MarshalHead head = Ok enc) ↔ head_ok head).
Proof.
  destruct Marshal_total as (HL & HI & HH).
  split; [exact ParseLeafPage_spec|]. split; [exact ParseIndexPage_spec|]. split; [exact ParseHead_spec|].
  split; [exact HL|]. split; [exact HI|exact HH].
Qed.

(** A head of one active segment, under the example hash: it is written and read back. *)
Definition example_entry : LeafEntry := {|
  le_BaseLSN := 5; le_LastLSN := 6; le_MinTimestampMS := 10; le_MaxTimestampMS := 20; le_RecordCount := 2;
  le_BlockCount := 1; le_SizeBytes := 500; le_BlockIndexOffset := 200; le_BlockIndexLength := 80; le_Codec := 0;
  le_HashAlgo := 1; le_SegmentHash := 7; le_TrailerHash := 8; le_WriterEpoch := 1;
  le_SegmentUUID := be_put 16 3; le_WriterTag := be_put 16 4 |}.
Definition example_head : Head := {|
  hd_Header := {|
    hh_Flags := 1; hh_Partition := 3; hh_HashAlgo := 1; hh_SegmentLayoutVersion := 1; hh_LeafLimit := 4;
    hh_IndexLimit := 2; hh_ActiveCount := 1; hh_LevelCount := 0; hh_NextLSN := 7; hh_OldestLSN := 5;
    hh_AppliedRetentionLSN := 0; hh_AppliedRetentionVersion := 0; hh_WriterEpoch := 1; hh_Generation := 2;
    hh_SegmentCount := 1; hh_ReachableSegmentCount := 1; hh_WriterID := be_put 16 4;
    hh_StreamKey := be_put 32 9; hh_DataRootKey := be_put 32 10 |};
  hd_LastSegment := example_entry; hd_Active := [example_entry]; hd_Sections := [] |}.

Lemma example_head_typed : Head_typed example_head.
Proof.
  assert (He : LeafEntry_typed example_entry) by (unfold LeafEntry_typed; cbn; closed_typed).
  split; [|split; [exact He|split; [by repeat constructor|constructor]]]. unfold HeadHeader_typed; cbn; closed_typed.
Qed.

Lemma catalog_object_codecs_witness :
  ∃ enc, @MarshalHead xxhash_example example_head = Ok enc ∧ @ParseHead xxhash_example enc = Ok example_head.
Proof.
  pose proof (@catalog_object_codecs xxhash_example) as (_ & _ & HP & _).
  eexists. split; [vm_compute; reflexivity|].
  apply (proj2 (HP _ example_head)). split; [exact example_head_typed|]. vm_compute. reflexivity.
Defined.
