(* ===== verification/CatTree.v ===== *)
(** * The blob catalog's tree (internal/catalog/blob/internal/catengine):
    configuration, head transitions and sealed pages

    [Config] with the object paths and the translation between [SegmentRef] and
    leaf entries (config.go), and the pure head transitions [NewHead],
    [Takeover] and [Append] (tree.go): a head holds up to [LeafLimit] active
    leaves and, per level, up to [IndexLimit] references to sealed pages; when
    a list fills up it is sealed into an immutable page and a reference moves
    one level up. *)
From S2P Require Import Prelude Hash SegFormat Ranges PMeta KeyLayout CatFormat CatCodec.

(** errors.go: [var ErrCorruptCatalog = blobstore.ErrInvalidRequest]. *)
Definition ErrCorruptCatalog : sentinel := BlobErrInvalidRequest.

(** ** config.go *)
Record Config := mkConfig {
  cf_CatalogPrefix : gostring; cf_DataRoot : gostring; cf_StreamID : gostring; cf_Partition : Z;
  cf_LeafLimit : Z; cf_IndexLimit : Z; cf_HashAlgo : Z; cf_StreamKey : list byte; cf_DataRootKey : list byte }.

Definition defaultCatalogPrefix : gostring := str "catalog".
Definition defaultDataRoot : gostring := str "objlog".

Definition NewConfig (catalogPrefix dataRoot streamID : gostring) (partition leafLimit indexLimit hashAlgo : Z)
    : result Config :=
  let catalogPrefix := trim catalogPrefix in
  let catalogPrefix := if bool_decide (catalogPrefix = []) then defaultCatalogPrefix else catalogPrefix in
  streamID ← (if negb (bool_decide (streamID = [])) then CanonicalStreamID streamID else Ok streamID);
  fail_if (leafLimit =? 0) || (MaxLeafEntries <? leafLimit) with [];
  fail_if (indexLimit <? 2) || (MaxIndexEntries <? indexLimit) with [];
  _ ← HashAlgo_Validate hashAlgo;
  let dataRoot := trim dataRoot in
  let dataRoot := if bool_decide (dataRoot = []) then defaultDataRoot else dataRoot in
  Ok {| cf_CatalogPrefix := catalogPrefix; cf_DataRoot := dataRoot; cf_StreamID := streamID;
        cf_Partition := partition; cf_LeafLimit := leafLimit; cf_IndexLimit := indexLimit; cf_HashAlgo := hashAlgo;
        cf_StreamKey := SHA256.Sum256 streamID; cf_DataRootKey := SHA256.Sum256 dataRoot |}.

Definition partitionPrefix (c : Config) : gostring :=
  let parts := [cf_CatalogPrefix c; Bucket (cf_StreamID c) (cf_Partition c)] in
  let parts := if negb (bool_decide (cf_StreamID c = [])) then parts ++ [str "streams"; StreamKey (cf_StreamID c)]
               else parts in
  join_slash (parts ++ [str "p" ++ fmt_d 8 (cf_Partition c)]).

Definition HeadPath (c : Config) : gostring := partitionPrefix c ++ str "/head.plc".

Definition LeafPagePath (c : Config) (ref : IndexEntry) : gostring :=
  partitionPrefix c ++ str "/pages/l00/leaf-" ++ fmt_d 20 (ie_SeqHi ref) ++ str "-" ++ fmt_d 20 (ie_SeqLo ref) ++
  str "-" ++ fmt_d 20 (ie_Generation ref) ++ str "-" ++ hex (ie_PageID ref) ++ str ".plc".

Definition IndexPagePath (c : Config) (ref : IndexEntry) : gostring :=
  partitionPrefix c ++ str "/pages/l" ++ fmt_d 2 (ie_Level ref) ++ str "/index-l" ++ fmt_d 2 (ie_Level ref) ++
  str "-" ++ fmt_d 20 (ie_SeqHi ref) ++ str "-" ++ fmt_d 20 (ie_SeqLo ref) ++
  str "-" ++ fmt_d 20 (ie_Generation ref) ++ str "-" ++ hex (ie_PageID ref) ++ str ".plc".

Definition PagePath (c : Config) (ref : IndexEntry) : gostring :=
  if ie_Level ref =? 0 then LeafPagePath c ref else IndexPagePath c ref.

Definition SegmentURI (c : Config) (entry : LeafEntry) : gostring :=
  SegmentObjectKey (cf_DataRoot c) (cf_StreamID c) (cf_Partition c) (le_BaseLSN entry) (le_WriterEpoch entry)
    (le_SegmentUUID entry).

Definition validateConfigHead (c : Config) (head : Head) : result () :=
  let h := hd_Header head in
  fail_if negb (hh_Partition h =? cf_Partition c) || negb (bool_decide (hh_StreamKey h = cf_StreamKey c)) ||
          negb (bool_decide (hh_DataRootKey h = cf_DataRootKey c)) with [];
  fail_if negb (hh_LeafLimit h =? cf_LeafLimit c) || negb (hh_IndexLimit h =? cf_IndexLimit c) ||
          negb (hh_HashAlgo h =? cf_HashAlgo c) with [];
  fail_if negb (hh_SegmentLayoutVersion h =? SegmentLayoutV1) with [];
  Ok ().

Definition segmentRef (c : Config) (entry : LeafEntry) : SegmentRef := {|
  sr_URI := SegmentURI c entry;
  sr_StreamID := cf_StreamID c;
  sr_Partition := cf_Partition c;
  sr_WriterEpoch := le_WriterEpoch entry;
  sr_SegmentUUID := le_SegmentUUID entry;
  sr_WriterTag := le_WriterTag entry;
  sr_BaseLSN := le_BaseLSN entry;
  sr_LastLSN := le_LastLSN entry;
  sr_MinTimestampMS := le_MinTimestampMS entry;
  sr_MaxTimestampMS := le_MaxTimestampMS entry;
  sr_RecordCount := le_RecordCount entry;
  sr_BlockCount := le_BlockCount entry;
  sr_SizeBytes := le_SizeBytes entry;
  sr_BlockIndexOffset := le_BlockIndexOffset entry;
  sr_BlockIndexLength := le_BlockIndexLength entry;
  sr_Codec := le_Codec entry;
  sr_HashAlgo := le_HashAlgo entry;
  sr_SegmentHash := le_SegmentHash entry;
  sr_TrailerHash := le_TrailerHash entry |}.

Definition leafEntry (c : Config) (segment : SegmentRef) : result LeafEntry :=
  _ ← SegmentRef_Validate segment;
  fail_if negb (bool_decide (sr_StreamID segment = cf_StreamID c)) || negb (sr_Partition segment =? cf_Partition c)
  with [];
  fail_if bool_decide (sr_WriterTag segment = zeros 16) with [];
  let entry := {|
    le_BaseLSN := sr_BaseLSN segment;
    le_LastLSN := sr_LastLSN segment;
    le_MinTimestampMS := sr_MinTimestampMS segment;
    le_MaxTimestampMS := sr_MaxTimestampMS segment;
    le_RecordCount := sr_RecordCount segment;
    le_BlockCount := sr_BlockCount segment;
    le_SizeBytes := sr_SizeBytes segment;
    le_BlockIndexOffset := sr_BlockIndexOffset segment;
    le_BlockIndexLength := sr_BlockIndexLength segment;
    le_Codec := sr_Codec segment;
    le_HashAlgo := sr_HashAlgo segment;
    le_SegmentHash := sr_SegmentHash segment;
    le_TrailerHash := sr_TrailerHash segment;
    le_WriterEpoch := sr_WriterEpoch segment;
    le_SegmentUUID := sr_SegmentUUID segment;
    le_WriterTag := sr_WriterTag segment |} in
  fail_if negb (bool_decide (sr_URI segment = SegmentURI c entry)) with [];
  Ok entry.

(** [Config.PartitionHead], which shadows the type of the same name. *)
Definition Config_PartitionHead (c : Config) (head : Head) : result PartitionHead :=
  _ ← validateConfigHead c head;
  let h := hd_Header head in
  Ok {| ph_StreamID := cf_StreamID c; ph_Partition := cf_Partition c; ph_NextLSN := hh_NextLSN h;
        ph_OldestLSN := hh_OldestLSN h; ph_AppliedRetentionLSN := hh_AppliedRetentionLSN h;
        ph_AppliedRetentionVersion := hh_AppliedRetentionVersion h; ph_WriterEpoch := hh_WriterEpoch h;
        ph_SegmentCount := hh_SegmentCount h; ph_ReachableSegmentCount := hh_ReachableSegmentCount h;
        ph_LastSegment := if HasLastSegment head then segmentRef c (hd_LastSegment head) else zero_SegmentRef;
        ph_HasLastSegment := HasLastSegment head |}.

Section tree.
Context `{XXHash}.

Definition DecodeHead (c : Config) (body : list byte) : result Head :=
  head ← wrap_err ErrCorruptCatalog (ParseHead body);
  _ ← wrap_err ErrCorruptCatalog (validateConfigHead c head);
  Ok head.

(** ** tree.go *)
Record PageObject := mkPageObject {
  po_Key : gostring; po_Level : Z; po_Ref : IndexEntry; po_Body : list byte }.
Record Mutation := mkMutation { mu_Head : Head; mu_HeadBody : list byte; mu_Pages : list PageObject }.

Definition SamePageObject (left right : PageObject) : bool :=
  bool_decide (po_Key left = po_Key right) && (po_Level left =? po_Level right) &&
  bool_decide (po_Ref left = po_Ref right) && bool_decide (po_Body left = po_Body right).

Definition new_head (c : Config) (nextLSN : Z) : Head := {|
  hd_Header := {|
    hh_Flags := 0; hh_Partition := cf_Partition c; hh_HashAlgo := cf_HashAlgo c;
    hh_SegmentLayoutVersion := SegmentLayoutV1; hh_LeafLimit := cf_LeafLimit c; hh_IndexLimit := cf_IndexLimit c;
    hh_ActiveCount := 0; hh_LevelCount := 0; hh_NextLSN := nextLSN; hh_OldestLSN := nextLSN;
    hh_AppliedRetentionLSN := 0; hh_AppliedRetentionVersion := 0; hh_WriterEpoch := 0; hh_Generation := 0;
    hh_SegmentCount := 0; hh_ReachableSegmentCount := 0; hh_WriterID := zeros 16;
    hh_StreamKey := cf_StreamKey c; hh_DataRootKey := cf_DataRootKey c |};
  hd_LastSegment := zero_LeafEntry; hd_Active := []; hd_Sections := [] |}.

Definition NewHead (c : Config) (nextLSN : Z) : result (Head * list byte) :=
  fail_if nextLSN =? ReservedLSN with [ErrInvalidRequest];
  body ← MarshalHead (new_head c nextLSN);
  Ok (new_head c nextLSN, body).

(** Heads are values here, so [cloneHead] is the identity; a transition builds
    the new head from the old one. *)
Definition takeover_head (head : Head) (writerID : list byte) : Head :=
  let h := hd_Header head in
  {|
    hd_Header := {|
      hh_Flags := hh_Flags h; hh_Partition := hh_Partition h; hh_HashAlgo := hh_HashAlgo h;
      hh_SegmentLayoutVersion := hh_SegmentLayoutVersion h; hh_LeafLimit := hh_LeafLimit h;
      hh_IndexLimit := hh_IndexLimit h; hh_ActiveCount := hh_ActiveCount h; hh_LevelCount := hh_LevelCount h;
      hh_NextLSN := hh_NextLSN h; hh_OldestLSN := hh_OldestLSN h;
      hh_AppliedRetentionLSN := hh_AppliedRetentionLSN h; hh_AppliedRetentionVersion := hh_AppliedRetentionVersion h;
      hh_WriterEpoch := uint64 (hh_WriterEpoch h + 1); hh_Generation := uint64 (hh_Generation h + 1);
      hh_SegmentCount := hh_SegmentCount h; hh_ReachableSegmentCount := hh_ReachableSegmentCount h;
      hh_WriterID := writerID; hh_StreamKey := hh_StreamKey h; hh_DataRootKey := hh_DataRootKey h |};
    hd_LastSegment := hd_LastSegment head; hd_Active := hd_Active head; hd_Sections := hd_Sections head |}.

Definition Takeover (c : Config) (head : Head) (writerID : list byte) : result Mutation :=
  fail_if bool_decide (writerID = zeros 16) with [ErrInvalidRequest];
  _ ← validateConfigHead c head;
  fail_if hh_WriterEpoch (hd_Header head) =? MaxUint64 with [ErrFenceExhausted];
  fail_if hh_Generation (hd_Header head) =? MaxUint64 with [ErrGenerationExhausted];
  let next := takeover_head head writerID in
  body ← MarshalHead next;
  Ok {| mu_Head := next; mu_HeadBody := body; mu_Pages := [] |}.

(** Sealing: the page is marshalled, named by its content and referenced.  The
    source indexes [entries[0]], so the callers never pass an empty slice. *)
Definition sealLeaf (c : Config) (generation writerEpoch : Z) (entries : list LeafEntry)
    : result (IndexEntry * PageObject) :=
  match entries with
  | [] => Err []
  | first :: rest =>
      let last := List.last rest first in
      let page := {|
        lp_Header := {|
          pgh_Flags := 0; pgh_Partition := cf_Partition c; pgh_Level := 0; pgh_HashAlgo := cf_HashAlgo c;
          pgh_EntryCount := uint32 (len entries); pgh_EntrySize := Z.of_nat LeafEntrySize;
          pgh_SeqLo := le_BaseLSN first; pgh_SeqHi := le_LastLSN last;
          pgh_MinTimestampMS := le_MinTimestampMS first; pgh_MaxTimestampMS := le_MaxTimestampMS last;
          pgh_Generation := generation; pgh_WriterEpoch := writerEpoch; pgh_StreamKey := cf_StreamKey c;
          pgh_SegmentCount := uint64 (len entries) |};
        lp_Entries := entries |} in
      '(body, id) ← MarshalLeafPage page;
      let ref := {|
        ie_Level := 0; ie_EntryCount := uint32 (len entries); ie_SeqLo := le_BaseLSN first; ie_SeqHi := le_LastLSN last;
        ie_MinTimestampMS := le_MinTimestampMS first; ie_MaxTimestampMS := le_MaxTimestampMS last;
        ie_Generation := generation; ie_PageID := id; ie_SegmentCount := uint64 (len entries) |} in
      Ok (ref, {| po_Key := LeafPagePath c ref; po_Level := 0; po_Ref := ref; po_Body := body |})
  end.

(** The loop of [sealIndex] that adds up segment counts. *)
Fixpoint sum_segments (segmentCount : Z) (entries : list IndexEntry) : result Z :=
  match entries with
  | [] => Ok segmentCount
  | entry :: entries =>
      fail_if MaxUint64 - segmentCount <? ie_SegmentCount entry with [];
      sum_segments (uint64 (segmentCount + ie_SegmentCount entry)) entries
  end.

Definition sealIndex (c : Config) (generation writerEpoch level : Z) (entries : list IndexEntry)
    : result (IndexEntry * PageObject) :=
  match entries with
  | [] => Err []
  | first :: rest =>
      let last := List.last rest first in
      segmentCount ← sum_segments 0 entries;
      let page := {|
        ixp_Header := {|
          pgh_Flags := 0; pgh_Partition := cf_Partition c; pgh_Level := level; pgh_HashAlgo := cf_HashAlgo c;
          pgh_EntryCount := uint32 (len entries); pgh_EntrySize := Z.of_nat IndexEntrySize;
          pgh_SeqLo := ie_SeqLo first; pgh_SeqHi := ie_SeqHi last;
          pgh_MinTimestampMS := ie_MinTimestampMS first; pgh_MaxTimestampMS := ie_MaxTimestampMS last;
          pgh_Generation := generation; pgh_WriterEpoch := writerEpoch; pgh_StreamKey := cf_StreamKey c;
          pgh_SegmentCount := segmentCount |};
        ixp_Entries := entries |} in
      '(body, id) ← MarshalIndexPage page;
      let ref := {|
        ie_Level := level; ie_EntryCount := uint32 (len entries); ie_SeqLo := ie_SeqLo first; ie_SeqHi := ie_SeqHi last;
        ie_MinTimestampMS := ie_MinTimestampMS first; ie_MaxTimestampMS := ie_MaxTimestampMS last;
        ie_Generation := generation; ie_PageID := id; ie_SegmentCount := segmentCount |} in
      Ok (ref, {| po_Key := IndexPagePath c ref; po_Level := level; po_Ref := ref; po_Body := body |})
  end.

(** [for len(head.Sections) < int(level) { append an empty section }]. *)
Fixpoint grow_sections (missing : nat) (sections : list OpenIndexSection) : list OpenIndexSection :=
  match missing with
  | O => sections
  | S missing =>
      grow_sections missing (sections ++ [{| os_Level := uint8 (len sections + 1); os_Entries := [] |}])
  end.

#[local] Instance OpenIndexSection_inhabited : Inhabited OpenIndexSection := populate (mkOpenIndexSection 0 []).

(** [push] climbs one level per call and refuses levels above
    [MaxOpenIndexLevel], so 65 calls are always enough; the section list is the
    only part of the head it changes.  The page objects it has appended are
    there on the error path too.  The section index is in range after the
    growth. *)
Fixpoint push_fuel (fuel : nat) (c : Config) (generation writerEpoch : Z) (sections : list OpenIndexSection)
    (level : Z) (ref : IndexEntry) (pages : list PageObject) : list PageObject * result (list OpenIndexSection) :=
  match fuel with
  | O => (pages, Err [])
  | S fuel =>
      if (level =? 0) || (MaxOpenIndexLevel <? level) then (pages, Err [ErrIndexFull]) else
      let sections := grow_sections (Z.to_nat level - length sections) sections in
      let i := Z.to_nat (level - 1) in
      let section := sections !!! i in
      if (level =? MaxOpenIndexLevel) && (cf_IndexLimit c <=? len (os_Entries section) + 1)
      then (pages, Err [ErrIndexFull]) else
      let entries := os_Entries section ++ [ref] in
      let set entries := <[i := {| os_Level := os_Level section; os_Entries := entries |}]> sections in
      if uint32 (len entries) <? cf_IndexLimit c then (pages, Ok (set entries))
      else
        match sealIndex c generation writerEpoch level entries with
        | Err e => (pages, Err e)
        | Ok (parent, object) =>
            push_fuel fuel c generation writerEpoch (set []) (uint8 (level + 1)) parent (pages ++ [object])
        end
  end.

Definition push (c : Config) (generation writerEpoch : Z) (sections : list OpenIndexSection) (level : Z)
    (ref : IndexEntry) (pages : list PageObject) : list PageObject * result (list OpenIndexSection) :=
  push_fuel 65 c generation writerEpoch sections level ref pages.

(** The fields [Append] sets in the cloned head. *)
Definition append_head (head : Head) (entry : LeafEntry) (active : list LeafEntry)
    (sections : list OpenIndexSection) : Head :=
  let h := hd_Header head in
  {|
    hd_Header := {|
      hh_Flags := if HasLastSegment head then hh_Flags h else Z.lor (hh_Flags h) FlagHasLastSegment;
      hh_Partition := hh_Partition h; hh_HashAlgo := hh_HashAlgo h;
      hh_SegmentLayoutVersion := hh_SegmentLayoutVersion h; hh_LeafLimit := hh_LeafLimit h;
      hh_IndexLimit := hh_IndexLimit h; hh_ActiveCount := uint32 (len active); hh_LevelCount := uint32 (len sections);
      hh_NextLSN := uint64 (le_LastLSN entry + 1);
      hh_OldestLSN := if HasLastSegment head then hh_OldestLSN h else le_BaseLSN entry;
      hh_AppliedRetentionLSN := hh_AppliedRetentionLSN h; hh_AppliedRetentionVersion := hh_AppliedRetentionVersion h;
      hh_WriterEpoch := hh_WriterEpoch h; hh_Generation := uint64 (hh_Generation h + 1);
      hh_SegmentCount := uint64 (hh_SegmentCount h + 1);
      hh_ReachableSegmentCount := uint64 (hh_ReachableSegmentCount h + 1);
      hh_WriterID := hh_WriterID h; hh_StreamKey := hh_StreamKey h; hh_DataRootKey := hh_DataRootKey h |};
    hd_LastSegment := entry; hd_Active := active; hd_Sections := sections |}.

Definition Append (c : Config) (head : Head) (segment : SegmentRef) : result Mutation :=
  _ ← validateConfigHead c head;
  let h := hd_Header head in
  fail_if hh_Generation h =? MaxUint64 with [ErrGenerationExhausted];
  entry ← leafEntry c segment;
  fail_if (hh_WriterEpoch h =? 0) || negb (le_WriterEpoch entry =? hh_WriterEpoch h) with [ErrStaleWriter];
  fail_if negb (bool_decide (le_WriterTag entry = hh_WriterID h)) with [ErrInvalidRequest];
  fail_if negb (le_BaseLSN entry =? hh_NextLSN h) with [ErrConflict];
  fail_if HasLastSegment head && (le_MinTimestampMS entry <? le_MaxTimestampMS (hd_LastSegment head))
  with [ErrTimestampOrder];
  let generation := uint64 (hh_Generation h + 1) in
  let active := hd_Active head ++ [entry] in
  '(active, sections, pages) ←
    (if uint32 (len active) =? cf_LeafLimit c then
       '(ref, object) ← sealLeaf c generation (hh_WriterEpoch h) active;
       let '(pages, pushed) := push c generation (hh_WriterEpoch h) (hd_Sections head) 1 ref [object] in
       sections ← pushed;
       Ok ([], sections, pages)
     else Ok (active, hd_Sections head, []));
  let next := append_head head entry active sections in
  body ← MarshalHead next;
  Ok {| mu_Head := next; mu_HeadBody := body; mu_Pages := pages |}.
End tree.
