(* ===== verification/CatReader.v ===== *)
(** * Reading the blob catalog (catengine/reader.go)

    The readers walk from a head through index pages to leaf pages, fetched
    from a page source by the key their reference determines.  [page_content]
    and [head_content] give the abstract content of a catalog, the list of leaf
    entries in LSN order; the theorems show that [FindSegment],
    [LookupTimestamp] and [ListSegments] compute [at_lsn], [from_ts] and
    [spec_page] on that content, and that whatever bytes the page source
    returns, no reader returns a segment that does not hold the LSN asked for. *)
From S2P Require Import Prelude Hash SegFormat Ranges PMeta KeyLayout CatFormat CatCodec CatTree.

(** [PageSource.GetPage], under the caller's context. *)
Abbreviation PageSource := (gostring → result (list byte)).

Record PageTarget := mkPageTarget { pt_Key : gostring; pt_Level : Z; pt_SeqLo : Z; pt_SeqHi : Z }.
Record PagePathPage := mkPagePathPage { pp_Paths : list gostring; pp_NextSeqLo : Z; pp_HasMore : bool }.

(** [headRoot]: exactly one of the two pointers is set. *)
Inductive headRoot :=
  | RefRoot (ref : IndexEntry)
  | LeafRoot (leaf : LeafEntry).

Definition seqLo (r : headRoot) : Z := match r with RefRoot ref => ie_SeqLo ref | LeafRoot leaf => le_BaseLSN leaf end.
Definition seqHi (r : headRoot) : Z := match r with RefRoot ref => ie_SeqHi ref | LeafRoot leaf => le_LastLSN leaf end.
Definition maxTimestamp (r : headRoot) : Z :=
  match r with RefRoot ref => ie_MaxTimestampMS ref | LeafRoot leaf => le_MaxTimestampMS leaf end.

Definition headRoots (head : Head) : list headRoot :=
  map RefRoot (concat (map os_Entries (rev (hd_Sections head)))) ++ map LeafRoot (hd_Active head).

(** [MaxPageLevel]: the running maximum over all references. *)
Definition MaxPageLevel (head : Head) : Z :=
  fold_left (λ maximum ref, if maximum <? ie_Level ref then ie_Level ref else maximum)
    (concat (map os_Entries (hd_Sections head))) 0.

(** A loop [for i < len && !done { body }]. *)
Fixpoint for_until {A C} (done : C → bool) (body : A → C → result C) (l : list A) (c : C) : result C :=
  match l with
  | [] => Ok c
  | a :: l => if done c then Ok c else c ← body a c; for_until done body l c
  end.

Definition matchesPageRef (header : PageHeader) (ref : IndexEntry) (c : Config) : bool :=
  (pgh_Partition header =? cf_Partition c) && bool_decide (pgh_StreamKey header = cf_StreamKey c) &&
  (pgh_Level header =? ie_Level ref) && (pgh_EntryCount header =? ie_EntryCount ref) &&
  (pgh_SeqLo header =? ie_SeqLo ref) && (pgh_SeqHi header =? ie_SeqHi ref) &&
  (pgh_MinTimestampMS header =? ie_MinTimestampMS ref) && (pgh_MaxTimestampMS header =? ie_MaxTimestampMS ref) &&
  (pgh_Generation header =? ie_Generation ref) && (pgh_SegmentCount header =? ie_SegmentCount ref).

(** [pageCollector] and [pagePathCollector]: what a listing has gathered. *)
Record pageCollector := mkPageCollector { pc_segments : list SegmentRef; pc_nextLSN : Z; pc_hasMore : bool }.
Record pagePathCollector := mkPagePathCollector { qc_paths : list gostring; qc_nextSeqLo : Z; qc_hasMore : bool }.

Definition pageCollector_add (c : Config) (fromLSN limit : Z) (entry : LeafEntry) (col : pageCollector) : pageCollector :=
  if pc_hasMore col || (le_LastLSN entry <? fromLSN) then col
  else if len (pc_segments col) =? limit then
    {| pc_segments := pc_segments col; pc_nextLSN := le_BaseLSN entry; pc_hasMore := true |}
  else
    {| pc_segments := pc_segments col ++ [segmentRef c entry]; pc_nextLSN := pc_nextLSN col; pc_hasMore := pc_hasMore col |}.

Definition pagePathCollector_add (c : Config) (fromSeqLo limit : Z) (ref : IndexEntry) (col : pagePathCollector)
    : pagePathCollector :=
  if qc_hasMore col || (ie_SeqHi ref <? fromSeqLo) then col
  else if len (qc_paths col) =? limit then
    {| qc_paths := qc_paths col; qc_nextSeqLo := ie_SeqLo ref; qc_hasMore := true |}
  else
    {| qc_paths := qc_paths col ++ [PagePath c ref]; qc_nextSeqLo := qc_nextSeqLo col; qc_hasMore := qc_hasMore col |}.

(** The limit normalisation of the two listings. *)
Definition reader_limit (limit : Z) : Z :=
  if (limit <=? 0) || (MaxSegmentPageLimit <? limit) then DefaultSegmentPageLimit else limit.

(** A page is at most level 63 and its children are one level below, so 64
    nested calls reach a leaf. *)
Definition page_fuel : nat := 64.

Section reader.
Context `{XXHash} (c : Config) (pages : PageSource).

Definition loadLeaf (ref : IndexEntry) (maxWriterEpoch : Z) : result LeafPage :=
  body ← pages (LeafPagePath c ref);
  '(page, id) ← wrap_err ErrCorruptCatalog (ParseLeafPage body);
  fail_if negb (bool_decide (id = ie_PageID ref)) || (maxWriterEpoch <? pgh_WriterEpoch (lp_Header page)) ||
          negb (matchesPageRef (lp_Header page) ref c) with [ErrCorruptCatalog];
  Ok page.

Definition loadIndex (ref : IndexEntry) (maxWriterEpoch : Z) : result IndexPage :=
  body ← pages (IndexPagePath c ref);
  '(page, id) ← wrap_err ErrCorruptCatalog (ParseIndexPage body);
  fail_if negb (bool_decide (id = ie_PageID ref)) || (maxWriterEpoch <? pgh_WriterEpoch (ixp_Header page)) ||
          negb (matchesPageRef (ixp_Header page) ref c) with [ErrCorruptCatalog];
  Ok page.

(** [(SegmentRef, bool, error)]: the flag is an option. *)
Fixpoint findInPage (fuel : nat) (ref : IndexEntry) (lsn maxWriterEpoch : Z) : result (option SegmentRef) :=
  match fuel with
  | O => Err []
  | S fuel =>
      if ie_Level ref =? 0 then
        page ← loadLeaf ref maxWriterEpoch;
        match lp_Entries page !! search (λ e, lsn <=? le_LastLSN e) (lp_Entries page) with
        | None => Ok None
        | Some entry => if lsn <? le_BaseLSN entry then Ok None else Ok (Some (segmentRef c entry))
        end
      else
        page ← loadIndex ref maxWriterEpoch;
        match ixp_Entries page !! search (λ e, lsn <=? ie_SeqHi e) (ixp_Entries page) with
        | None => Ok None
        | Some child =>
            if lsn <? ie_SeqLo child then Ok None
            else findInPage fuel child lsn (pgh_WriterEpoch (ixp_Header page))
        end
  end.

Fixpoint findTimestampInPage (fuel : nat) (ref : IndexEntry) (timestampMS maxWriterEpoch : Z)
    : result (option SegmentRef) :=
  match fuel with
  | O => Err []
  | S fuel =>
      if ie_Level ref =? 0 then
        page ← loadLeaf ref maxWriterEpoch;
        match lp_Entries page !! search (λ e, timestampMS <=? le_MaxTimestampMS e) (lp_Entries page) with
        | None => Ok None
        | Some entry => Ok (Some (segmentRef c entry))
        end
      else
        page ← loadIndex ref maxWriterEpoch;
        match ixp_Entries page !! search (λ e, timestampMS <=? ie_MaxTimestampMS e) (ixp_Entries page) with
        | None => Ok None
        | Some child => findTimestampInPage fuel child timestampMS (pgh_WriterEpoch (ixp_Header page))
        end
  end.

Definition FindSegment (ctx : option error) (head : Head) (lsn : Z) : result (option SegmentRef) :=
  check_ctx ctx;
  _ ← validateConfigHead c head;
  if negb (HasLastSegment head) || (lsn <? hh_OldestLSN (hd_Header head)) || (hh_NextLSN (hd_Header head) <=? lsn)
  then Ok None
  else
    let roots := headRoots head in
    match roots !! search (λ r, lsn <=? seqHi r) roots with
    | None => Ok None
    | Some root =>
        if lsn <? seqLo root then Ok None
        else match root with
             | LeafRoot leaf => Ok (Some (segmentRef c leaf))
             | RefRoot ref => findInPage page_fuel ref lsn (hh_WriterEpoch (hd_Header head))
             end
    end.

Definition LookupTimestamp (ctx : option error) (head : Head) (timestampMS : Z) : result (option SegmentRef) :=
  check_ctx ctx;
  _ ← validateConfigHead c head;
  if negb (HasLastSegment head) || (hh_OldestLSN (hd_Header head) =? hh_NextLSN (hd_Header head)) ||
     (le_MaxTimestampMS (hd_LastSegment head) <? timestampMS)
  then Ok None
  else
    let roots := headRoots head in
    match roots !! search (λ r, timestampMS <=? maxTimestamp r) roots with
    | None => Ok None
    | Some (LeafRoot leaf) => Ok (Some (segmentRef c leaf))
    | Some (RefRoot ref) => findTimestampInPage page_fuel ref timestampMS (hh_WriterEpoch (hd_Header head))
    end.

Fixpoint collectPage (fuel : nat) (fromLSN limit : Z) (ref : IndexEntry) (maxWriterEpoch : Z) (col : pageCollector)
    : result pageCollector :=
  match fuel with
  | O => Err []
  | S fuel =>
      if pc_hasMore col || (ie_SeqHi ref <? fromLSN) then Ok col
      else if ie_Level ref =? 0 then
        page ← loadLeaf ref maxWriterEpoch;
        let start := search (λ e, fromLSN <=? le_LastLSN e) (lp_Entries page) in
        for_until pc_hasMore (λ e col, Ok (pageCollector_add c fromLSN limit e col)) (drop start (lp_Entries page)) col
      else
        page ← loadIndex ref maxWriterEpoch;
        let start := search (λ e, fromLSN <=? ie_SeqHi e) (ixp_Entries page) in
        for_until pc_hasMore (λ e col, collectPage fuel fromLSN limit e (pgh_WriterEpoch (ixp_Header page)) col)
          (drop start (ixp_Entries page)) col
  end.

Definition ListSegments (ctx : option error) (head : Head) (fromLSN limit : Z) : result SegmentPage :=
  check_ctx ctx;
  let limit := reader_limit limit in
  _ ← validateConfigHead c head;
  if negb (HasLastSegment head) || (hh_NextLSN (hd_Header head) <=? fromLSN)
  then Ok {| sp_Segments := []; sp_NextLSN := 0; sp_HasMore := false |}
  else
    col ← for_until pc_hasMore (λ root col,
            if seqHi root <? fromLSN then Ok col
            else match root with
                 | LeafRoot leaf => Ok (pageCollector_add c fromLSN limit leaf col)
                 | RefRoot ref => collectPage page_fuel fromLSN limit ref (hh_WriterEpoch (hd_Header head)) col
                 end)
          (headRoots head) {| pc_segments := []; pc_nextLSN := 0; pc_hasMore := false |};
    Ok {| sp_Segments := pc_segments col; sp_NextLSN := pc_nextLSN col; sp_HasMore := pc_hasMore col |}.

Fixpoint collectPagePath (fuel : nat) (fromSeqLo limit : Z) (ref : IndexEntry) (level maxWriterEpoch : Z)
    (col : pagePathCollector) : result pagePathCollector :=
  match fuel with
  | O => Err []
  | S fuel =>
      if qc_hasMore col || (ie_SeqHi ref <? fromSeqLo) || (ie_Level ref <? level) then Ok col
      else if ie_Level ref =? level then Ok (pagePathCollector_add c fromSeqLo limit ref col)
      else
        page ← loadIndex ref maxWriterEpoch;
        let start := search (λ e, fromSeqLo <=? ie_SeqHi e) (ixp_Entries page) in
        for_until qc_hasMore
          (λ e col, collectPagePath fuel fromSeqLo limit e level (pgh_WriterEpoch (ixp_Header page)) col)
          (drop start (ixp_Entries page)) col
  end.

Definition ListPagePaths (ctx : option error) (head : Head) (level fromSeqLo limit : Z) : result PagePathPage :=
  check_ctx ctx;
  fail_if MaxIndexLevel <? level with [];
  let limit := reader_limit limit in
  _ ← validateConfigHead c head;
  col ← for_until qc_hasMore (λ root col,
          match root with
          | LeafRoot _ => Ok col
          | RefRoot ref => collectPagePath page_fuel fromSeqLo limit ref level (hh_WriterEpoch (hd_Header head)) col
          end)
        (headRoots head) {| qc_paths := []; qc_nextSeqLo := 0; qc_hasMore := false |};
  Ok {| pp_Paths := qc_paths col; pp_NextSeqLo := qc_nextSeqLo col; pp_HasMore := qc_hasMore col |}.

(** [for child { reachable, err := ..; if err != nil || reachable { return } }]. *)
Fixpoint exists_until {A} (body : A → result bool) (l : list A) : result bool :=
  match l with
  | [] => Ok false
  | a :: l => reachable ← body a; if (reachable : bool) then Ok true else exists_until body l
  end.

Fixpoint pageReachable (fuel : nat) (ref : IndexEntry) (target : PageTarget) (maxWriterEpoch : Z) : result bool :=
  match fuel with
  | O => Err []
  | S fuel =>
      if bool_decide (PagePath c ref = pt_Key target) then Ok true
      else if (pt_SeqHi target <? ie_SeqLo ref) || (ie_SeqHi ref <? pt_SeqLo target) ||
              (ie_Level ref <=? pt_Level target) || (ie_Level ref =? 0) then Ok false
      else
        page ← loadIndex ref maxWriterEpoch;
        exists_until (λ child,
          if (pt_SeqHi target <? ie_SeqLo child) || (ie_SeqHi child <? pt_SeqLo target) then Ok false
          else pageReachable fuel child target (pgh_WriterEpoch (ixp_Header page))) (ixp_Entries page)
  end.

Definition IsPageReachable (ctx : option error) (head : Head) (target : PageTarget) : result bool :=
  check_ctx ctx;
  fail_if bool_decide (pt_Key target = []) || (MaxIndexLevel <? pt_Level target) || (pt_SeqHi target <? pt_SeqLo target)
  with [];
  _ ← validateConfigHead c head;
  exists_until (λ root,
    match root with
    | LeafRoot _ => Ok false
    | RefRoot ref => pageReachable page_fuel ref target (hh_WriterEpoch (hd_Header head))
    end) (headRoots head).

(** ** The content of a catalog

    [page_rep l ref epoch es]: the page [ref] names, of level [l], and the pages
    below it can be loaded and their leaf entries are [es]. *)
Fixpoint page_rep (level : nat) (ref : IndexEntry) (maxWriterEpoch : Z) (es : list LeafEntry) : Prop :=
  match level with
  | O => ∃ page, loadLeaf ref maxWriterEpoch = Ok page ∧ es = lp_Entries page
  | S level =>
      ∃ page ess, loadIndex ref maxWriterEpoch = Ok page ∧ es = concat ess ∧
        Forall2 (λ e, page_rep level e (pgh_WriterEpoch (ixp_Header page))) (ixp_Entries page) ess
  end.

Definition ref_rep (maxWriterEpoch : Z) (ref : IndexEntry) (es : list LeafEntry) : Prop :=
  page_rep (Z.to_nat (ie_Level ref)) ref maxWriterEpoch es.
Definition root_rep (maxWriterEpoch : Z) (root : headRoot) (es : list LeafEntry) : Prop :=
  match root with
  | RefRoot ref => ref_rep maxWriterEpoch ref es
  | LeafRoot leaf => es = [leaf]
  end.

(** A head and a page source represent the history [es]: the head is
    well-formed and belongs to the configuration, every page below it loads,
    and the last retained entry is the head's last segment. *)
Record catalog_rep (head : Head) (es : list LeafEntry) : Prop := {
  cr_typed : Head_typed head;
  cr_ok : head_ok head;
  cr_config : validateConfigHead c head = Ok ();
  cr_roots : ∃ ess, Forall2 (root_rep (hh_WriterEpoch (hd_Header head))) (headRoots head) ess ∧ es = concat ess;
  cr_last : ∀ e, last es = Some e → e = hd_LastSegment head }.
End reader.

#[export] Instance headRoot_Ranged : Ranged headRoot := {|
  lo := seqLo; hi := seqHi; tmax := maxTimestamp;
  tmin := λ r, match r with RefRoot ref => ie_MinTimestampMS ref | LeafRoot leaf => le_MinTimestampMS leaf end |}.

(** The range [validateHead] computes for a root. *)
Definition root_range (r : headRoot) : rootRange :=
  match r with RefRoot ref => ref_root ref | LeafRoot leaf => leaf_root leaf end.

(** ** Loading *)
Lemma matchesPageRef_inv h ref c :
  matchesPageRef h ref c = true →
  pgh_Partition h = cf_Partition c ∧ pgh_StreamKey h = cf_StreamKey c ∧ pgh_Level h = ie_Level ref ∧
  pgh_EntryCount h = ie_EntryCount ref ∧ pgh_SeqLo h = ie_SeqLo ref ∧ pgh_SeqHi h = ie_SeqHi ref ∧
  pgh_MinTimestampMS h = ie_MinTimestampMS ref ∧ pgh_MaxTimestampMS h = ie_MaxTimestampMS ref ∧
  pgh_Generation h = ie_Generation ref ∧ pgh_SegmentCount h = ie_SegmentCount ref.
Proof. unfold matchesPageRef. intros HM. bool_to_prop. by split_and!. Qed.

Section loading.
Context `{XXHash} (c : Config) (pages : PageSource).

Lemma loadLeaf_inv ref epoch page :
  loadLeaf c pages ref epoch = Ok page →
  LeafPage_typed page ∧ leaf_page_ok page ∧ matchesPageRef (lp_Header page) ref c = true ∧
  pgh_WriterEpoch (lp_Header page) ≤ epoch.
Proof.
  unfold loadLeaf. intros HL. inv_ok. destruct x0 as [p id]. inv_ok. bool_to_prop.
  apply ParseLeafPage_spec in Hbind0 as [Ht HM]. split; [done|]. split; [|done].
  destruct Marshal_total as (HT & _). apply HT; eauto.
Qed.

Lemma loadIndex_inv ref epoch page :
  loadIndex c pages ref epoch = Ok page →
  IndexPage_typed page ∧ index_page_ok page ∧ matchesPageRef (ixp_Header page) ref c = true ∧
  pgh_WriterEpoch (ixp_Header page) ≤ epoch.
Proof.
  unfold loadIndex. intros HL. inv_ok. destruct x0 as [p id]. inv_ok. bool_to_prop.
  apply ParseIndexPage_spec in Hbind0 as [Ht HM]. split; [done|]. split; [|done].
  destruct Marshal_total as (_ & HT & _). apply HT; eauto.
Qed.

Lemma loadLeaf_expands ref epoch page :
  loadLeaf c pages ref epoch = Ok page →
  expands ref (lp_Entries page) ∧ leaves_ok (lp_Entries page) ∧ len (lp_Entries page) = ie_SegmentCount ref ∧
  Forall (λ e, le_WriterEpoch e ≤ epoch) (lp_Entries page).
Proof.
  intros HL. destruct (loadLeaf_inv _ _ _ HL) as (Ht & Hk & HM & He).
  destruct (matchesPageRef_inv _ _ _ HM) as (_ & _ & _ & _ & Elo & Ehi & Emin & Emax & _ & Esc).
  pose proof (lpk_leaves _ Hk) as Hlv. pose proof (lpk_epoch _ Hk) as Hep.
  split; [|split; [done|split; [rewrite <- Esc, (lpk_segments _ Hk); done|]]].
  - unfold expands; cbn [lo hi tmin tmax IndexEntry_Ranged]. rewrite <- Elo, <- Ehi, <- Emin, <- Emax.
    split; [by destruct Hlv as (_ & ? & _)|]. destruct Hk; by split_and!.
  - destruct Hlv as (_ & _ & Hs). destruct (lp_Entries page) as [|e es]; [constructor|].
    specialize (Hep _ (last_List_last e es)).
    assert (HS : Sorted Z.le (map le_WriterEpoch (e :: es))).
    { clear -Hs. induction Hs as [|x l Hs IH Hh]; cbn [map]; constructor; [done|]. destruct Hh; constructor; done. }
    cbn [map] in HS. pose proof (Sorted_le_bounds _ _ HS) as HB.
    assert (EL : List.last (map le_WriterEpoch es) (le_WriterEpoch e) = le_WriterEpoch (List.last es e)).
    { clear. revert e; induction es as [|a es IH]; intros e; [done|]. cbn [map]. by rewrite !List_last_cons, IH. }
    apply Forall_forall. intros x Hx.
    assert (Hx' : le_WriterEpoch x ∈ le_WriterEpoch e :: map le_WriterEpoch es)
      by (change (le_WriterEpoch x ∈ map le_WriterEpoch (e :: es)); by apply list_elem_of_fmap_2).
    apply (proj1 (Forall_forall _ _) HB) in Hx'. lia.
Qed.

Lemma loadIndex_expands ref epoch page :
  loadIndex c pages ref epoch = Ok page →
  expands ref (ixp_Entries page) ∧ chain (ixp_Entries page) ∧
  Forall (ref_at (ie_Level ref) (ie_Generation ref)) (ixp_Entries page) ∧
  refs_segments (ixp_Entries page) = ie_SegmentCount ref ∧ 0 < ie_Level ref ≤ MaxIndexLevel.
Proof.
  intros HL. destruct (loadIndex_inv _ _ _ HL) as (Ht & Hk & HM & He).
  destruct (matchesPageRef_inv _ _ _ HM) as (_ & _ & Elv & _ & Elo & Ehi & Emin & Emax & Eg & Esc).
  rewrite <- Elv, <- Eg, <- Esc. split; [|destruct Hk; split; [done|split; [done|split; done]]].
  unfold expands; cbn [lo hi tmin tmax IndexEntry_Ranged]. rewrite <- Elo, <- Ehi, <- Emin, <- Emax.
  destruct Hk; split; [done|by split_and!].
Qed.
End loading.

(** ** What a represented page holds *)
Section representation.
Context `{XXHash} (c : Config) (pages : PageSource).

Lemma child_level ref gen e level :
  ref_at (ie_Level ref) gen e → ie_Level ref = Z.of_nat (S level) → ie_Level e = Z.of_nat level.
Proof. intros (_ & Hl & _) E. lia. Qed.

Lemma page_rep_expands level ref epoch es :
  page_rep c pages level ref epoch es → ie_Level ref = Z.of_nat level →
  expands ref es ∧ Forall leaf_valid es ∧ len es = ie_SegmentCount ref.
Proof.
  revert ref epoch es; induction level as [|level IH]; intros ref epoch es HR Hl.
  - destruct HR as (page & HL & ->). destruct (loadLeaf_expands _ _ _ _ _ HL) as (? & (? & _) & ? & _). done.
  - destruct HR as (page & ess & HL & -> & HF).
    destruct (loadIndex_expands _ _ _ _ _ HL) as (He & _ & Hrs & <- & _).
    assert (HF' : Forall2 (λ e es, expands e es ∧ Forall leaf_valid es ∧ len es = ie_SegmentCount e) (ixp_Entries page) ess).
    { eapply Forall2_strengthen; [exact Hrs|exact HF|]. intros e es Hr HR. apply (IH _ _ _ HR). by eapply child_level. }
    split; [|split].
    + apply (expands_trans ref (ixp_Entries page)); [done|]. eapply Forall2_impl; [exact HF'|]. by intros ? ? (? & _).
    + eapply Forall2_concat; [exact HF'|]. by intros ? ? (_ & ? & _).
    + clear -HF'. unfold refs_segments.
      induction HF' as [|e es l ess (_ & _ & Hv) HF IHF]; [done|]. cbn [concat sumZ]. rewrite <- Hv, <- IHF.
      unfold len. rewrite length_app. lia.
Qed.

Lemma children_expand level ref epoch page ess :
  loadIndex c pages ref epoch = Ok page → ie_Level ref = Z.of_nat (S level) →
  Forall2 (λ e, page_rep c pages level e (pgh_WriterEpoch (ixp_Header page))) (ixp_Entries page) ess →
  Forall2 expands (ixp_Entries page) ess.
Proof.
  intros HL Hl HF. destruct (loadIndex_expands _ _ _ _ _ HL) as (_ & _ & Hrs & _).
  eapply Forall2_strengthen; [exact Hrs|exact HF|]. intros e es Hr HR.
  apply (page_rep_expands _ _ _ _ HR). by eapply child_level.
Qed.

(** A larger fence admits the same pages. *)
Lemma page_rep_mono level ref epoch epoch' es :
  page_rep c pages level ref epoch es → epoch ≤ epoch' → page_rep c pages level ref epoch' es.
Proof.
  intros HR He.
  assert (Hload : ∀ h, (epoch <? h) = false → (epoch' <? h) = false) by (intros h Hh; apply Z.ltb_ge in Hh; apply Z.ltb_ge; lia).
  destruct level as [|level].
  - destruct HR as (page & HL & ->). exists page. split; [|done]. unfold loadLeaf in *. inv_ok. destruct x0 as [p id]. inv_ok.
    rewrite Hbind. cbn [mbind result_bind]. rewrite Hbind0. cbn [wrap_err mbind result_bind].
    apply orb_false_iff in Hchk as [[E1 E2]%orb_false_iff E3]. by rewrite E1, (Hload _ E2), E3.
  - destruct HR as (page & ess & HL & -> & HF). exists page, ess. split; [|done].
    unfold loadIndex in *. inv_ok. destruct x0 as [p id]. inv_ok.
    rewrite Hbind. cbn [mbind result_bind]. rewrite Hbind0. cbn [wrap_err mbind result_bind].
    apply orb_false_iff in Hchk as [[E1 E2]%orb_false_iff E3]. by rewrite E1, (Hload _ E2), E3.
Qed.

Lemma headRoots_ranges head : map root_range (headRoots head) = head_roots head.
Proof. unfold headRoots, head_roots. by rewrite map_app, !map_map. Qed.

Lemma headRoots_chain head : head_ok head → chain (headRoots head).
Proof.
  intros Hk. apply (chain_map root_range); [by intros []..|]. rewrite headRoots_ranges. by apply hk_chain.
Qed.

Lemma headRoots_ref head ref :
  head_ok head → RefRoot ref ∈ headRoots head → ref_valid ref.
Proof.
  intros Hk Hr. unfold headRoots in Hr. apply elem_of_app in Hr as [Hr|Hr]; apply list_elem_of_fmap in Hr as (e & E & He); [|done].
  injection E as ->. destruct (sections_refs _ _ _ _ (hk_sections _ Hk) He) as (l & _ & Hv & _). done.
Qed.
Lemma headRoots_leaf head leaf :
  head_ok head → LeafRoot leaf ∈ headRoots head → leaf_valid leaf ∧ le_WriterEpoch leaf ≤ hh_WriterEpoch (hd_Header head).
Proof.
  intros Hk Hr. unfold headRoots in Hr. apply elem_of_app in Hr as [Hr|Hr]; apply list_elem_of_fmap in Hr as (e & E & He); [done|].
  injection E as ->. destruct (hk_active _ Hk) as [Ha _]. by apply (proj1 (Forall_forall _ _) Ha).
Qed.

Lemma root_rep_expands head epoch root es :
  head_ok head → root ∈ headRoots head → root_rep c pages epoch root es →
  expands root es ∧ Forall leaf_valid es.
Proof.
  intros Hk Hin HR. destruct root as [ref|leaf]; cbn in HR.
  - pose proof (headRoots_ref _ _ Hk Hin) as Hv. destruct (ref_valid_inv _ Hv) as (_ & _ & _ & Hl & _).
    destruct (page_rep_expands _ _ _ _ HR ltac:(lia)) as (He & ? & _). split; [exact He|done].
  - subst es. destruct (headRoots_leaf _ _ Hk Hin) as [Hv _]. split; [|by constructor].
    destruct (leaf_valid_inv _ Hv) as (Hr & _). unfold expands. split; [|by split_and!].
    split; [repeat constructor|by constructor].
Qed.

Lemma roots_expand head ess :
  head_ok head → Forall2 (root_rep c pages (hh_WriterEpoch (hd_Header head))) (headRoots head) ess →
  Forall2 expands (headRoots head) ess ∧ Forall leaf_valid (concat ess).
Proof.
  intros Hk HF.
  assert (HF' : Forall2 (λ r es, expands r es ∧ Forall leaf_valid es) (headRoots head) ess).
  { eapply (Forall2_strengthen (.∈ headRoots head)); [by apply Forall_forall|exact HF|].
    intros r es Hr HR. by eapply root_rep_expands. }
  split; [eapply Forall2_impl; [exact HF'|]; by intros ? ? [? _]|].
  eapply Forall2_concat; [exact HF'|]. by intros ? ? [_ ?].
Qed.
End representation.

(** ** The reads compute the specification *)
Section reads.
Context `{XXHash} (c : Config) (pages : PageSource).

(** One step of a search by LSN: the element [sort.Search] finds, kept when it
    starts at or before the LSN, is the element holding it. *)
Lemma search_at_lsn {A B} `{Ranged A} x (l : list A) (k : A → result (option B)) :
  chain l →
  match l !! search (λ a, x <=? hi a) l with
  | None => Ok None
  | Some a => if x <? lo a then Ok None else k a
  end = match at_lsn x l with Some a => k a | None => Ok None end.
Proof.
  intros Hc. rewrite search_hi_lookup, at_lsn_from by done. destruct (head (from_lsn x l)) as [a|]; [|done].
  rewrite Z.ltb_antisym. by destruct (lo a <=? x).
Qed.

Lemma findInPage_spec level fuel ref epoch es lsn :
  page_rep c pages level ref epoch es → ie_Level ref = Z.of_nat level → (level < fuel)%nat →
  findInPage c pages fuel ref lsn epoch = Ok (segmentRef c <$> at_lsn lsn es).
Proof.
  revert fuel ref epoch es; induction level as [|level IH]; intros fuel ref epoch es HR Hl Hf;
    (destruct fuel as [|fuel]; [lia|]); cbn [findInPage]; rewrite Hl.
  - destruct HR as (page & HL & ->). cbn [Z.of_nat Z.eqb]. rewrite HL. cbn [mbind result_bind].
    destruct (loadLeaf_expands _ _ _ _ _ HL) as ((Hc & _) & _).
    etrans; [exact (search_at_lsn lsn (lp_Entries page) (λ e, Ok (Some (segmentRef c e))) Hc)|].
    by destruct (at_lsn lsn (lp_Entries page)).
  - destruct (Z.eqb_spec (Z.of_nat (S level)) 0); [lia|].
    pose proof HR as HR'. destruct HR as (page & ess & HL & -> & HF). rewrite HL. cbn [mbind result_bind].
    destruct (loadIndex_expands _ _ _ _ _ HL) as (_ & Hc & Hrs & _).
    etrans; [exact (search_at_lsn lsn (ixp_Entries page) _ Hc)|].
    pose proof (children_expand _ _ _ _ _ _ _ HL Hl HF) as HX.
    destruct (at_lsn lsn (ixp_Entries page)) as [e|] eqn:E; [|by rewrite (at_lsn_expand_None _ _ _ Hc HX E)].
    destruct (at_lsn_expand _ _ _ _ Hc HX E) as (i & l & Hi & Hli & -> & _).
    apply IH; [exact (Forall2_lookup_lr _ _ _ _ _ _ HF Hi Hli)| |lia].
    eapply child_level; [|exact Hl]. eapply Forall_lookup_1; [exact Hrs|exact Hi].
Qed.

Lemma findTimestampInPage_spec level fuel ref epoch es ts :
  page_rep c pages level ref epoch es → ie_Level ref = Z.of_nat level → (level < fuel)%nat →
  findTimestampInPage c pages fuel ref ts epoch = Ok (segmentRef c <$> from_ts ts es).
Proof.
  revert fuel ref epoch es; induction level as [|level IH]; intros fuel ref epoch es HR Hl Hf;
    (destruct fuel as [|fuel]; [lia|]); cbn [findTimestampInPage]; rewrite Hl.
  - destruct HR as (page & HL & ->). cbn [Z.of_nat Z.eqb]. rewrite HL. cbn [mbind result_bind].
    destruct (loadLeaf_expands _ _ _ _ _ HL) as ((Hc & _) & _).
    pose proof (search_from_ts ts _ Hc) as HS. cbn in HS. rewrite HS. by destruct (from_ts ts (lp_Entries page)).
  - destruct (Z.eqb_spec (Z.of_nat (S level)) 0); [lia|].
    destruct HR as (page & ess & HL & -> & HF). rewrite HL. cbn [mbind result_bind].
    destruct (loadIndex_expands _ _ _ _ _ HL) as (_ & Hc & Hrs & _).
    pose proof (search_from_ts ts _ Hc) as HS. cbn in HS. rewrite HS.
    pose proof (children_expand _ _ _ _ _ _ _ HL Hl HF) as HX.
    destruct (from_ts ts (ixp_Entries page)) as [e|] eqn:E; [|by rewrite (from_ts_expand_None _ _ _ HX E)].
    destruct (from_ts_expand _ _ _ _ HX E) as (i & l & Hi & Hli & -> & _).
    apply IH; [exact (Forall2_lookup_lr _ _ _ _ _ _ HF Hi Hli)| |lia].
    eapply child_level; [|exact Hl]. eapply Forall_lookup_1; [exact Hrs|exact Hi].
Qed.

(** *** Listing *)
Definition add_all (fromLSN limit : Z) (es : list LeafEntry) (col : pageCollector) : pageCollector :=
  fold_left (λ col e, pageCollector_add c fromLSN limit e col) es col.

Lemma add_done fromLSN limit e col : pc_hasMore col = true → pageCollector_add c fromLSN limit e col = col.
Proof. unfold pageCollector_add. by intros ->. Qed.
Lemma add_all_done fromLSN limit es col : pc_hasMore col = true → add_all fromLSN limit es col = col.
Proof. intros Hd. induction es as [|e es IH]; [done|]. cbn. by rewrite add_done. Qed.
Lemma add_all_app fromLSN limit es es' col :
  add_all fromLSN limit (es ++ es') col = add_all fromLSN limit es' (add_all fromLSN limit es col).
Proof. apply fold_left_app. Qed.
Lemma add_all_skip fromLSN limit es col :
  (∀ e, e ∈ es → le_LastLSN e < fromLSN) → add_all fromLSN limit es col = col.
Proof.
  induction es as [|e es IH]; intros Hs; [done|].
  assert (E : pageCollector_add c fromLSN limit e col = col).
  { unfold pageCollector_add. rewrite (proj2 (Z.ltb_lt _ _)) by (apply Hs; left). by rewrite orb_true_r. }
  cbn. rewrite E. apply IH. intros. apply Hs. by right.
Qed.

(** A loop over elements whose bodies add their expansions adds the whole
    expansion, whether or not it stops early. *)
Lemma for_until_add {A} fromLSN limit (body : A → pageCollector → result pageCollector) l ess col :
  Forall2 (λ a es, ∀ col, body a col = Ok (add_all fromLSN limit es col)) l ess →
  for_until pc_hasMore body l col = Ok (add_all fromLSN limit (concat ess) col).
Proof.
  intros HF. revert col; induction HF as [|a es l ess Ha HF IH]; intros col; [done|]. cbn [for_until concat].
  destruct (pc_hasMore col) eqn:E; [by rewrite add_all_done|]. rewrite Ha. cbn [mbind result_bind].
  by rewrite IH, add_all_app.
Qed.

(** Skipping what [sort.Search] skips loses nothing. *)
Lemma add_all_search {A} `{Ranged A} fromLSN limit (l : list A) ess col :
  chain l → Forall2 expands l ess →
  add_all fromLSN limit (concat (drop (search (λ a, fromLSN <=? hi a) l) ess)) col = add_all fromLSN limit (concat ess) col.
Proof.
  intros Hc HF. set (n := search _ l).
  rewrite <- (take_drop n ess) at 2. rewrite concat_app, add_all_app. f_equal. symmetry. apply add_all_skip.
  intros e He. destruct (Forall2_concat_elem (take n l) (take n ess) e ltac:(by apply Forall2_take) He) as (a & Ha & _ & Hb & _).
  destruct (search_spec _ l (chain_switches_hi fromLSN l Hc)) as (_ & Hf & _).
  apply (proj1 (Forall_forall _ _) Hf) in Ha. apply Z.leb_gt in Ha. cbn in Hb. lia.
Qed.

Lemma collectPage_spec level fuel fromLSN limit ref epoch es col :
  page_rep c pages level ref epoch es → ie_Level ref = Z.of_nat level → (level < fuel)%nat →
  collectPage c pages fuel fromLSN limit ref epoch col = Ok (add_all fromLSN limit es col).
Proof.
  revert fuel ref epoch es col; induction level as [|level IH]; intros fuel ref epoch es col HR Hl Hf;
    (destruct fuel as [|fuel]; [lia|]); cbn [collectPage];
    (destruct (pc_hasMore col) eqn:Ed; [by rewrite add_all_done|]; cbn [orb]);
    (destruct (Z.ltb_spec (ie_SeqHi ref) fromLSN) as [Hs|Hs];
      [rewrite add_all_skip; [done|]; intros e He; destruct (page_rep_expands _ _ _ _ _ _ HR Hl) as (HX & _);
       destruct (expands_bounds _ _ e HX He) as (_ & Hb & _); cbn in Hb; lia|]); rewrite Hl.
  - destruct HR as (page & HL & ->). cbn [Z.of_nat Z.eqb]. rewrite HL. cbn [mbind result_bind]. cbv zeta.
    destruct (loadLeaf_expands _ _ _ _ _ HL) as ((Hc & _) & (Hv & _) & _).
    assert (HF : Forall2 expands (lp_Entries page) (map (λ e, [e]) (lp_Entries page))).
    { clear -Hv. induction Hv as [|e es He Hv IH]; constructor; [|done].
      destruct (leaf_valid_inv _ He) as (Hr & _). split; [split; [repeat constructor|by constructor]|by split_and!]. }
    assert (HC : concat (map (λ e, [e]) (lp_Entries page)) = lp_Entries page)
      by (clear; induction (lp_Entries page); cbn; congruence).
    rewrite <- HC at 3. rewrite <- (add_all_search fromLSN limit (lp_Entries page) _ _ Hc HF).
    apply for_until_add. cbn [hi LeafEntry_Ranged]. apply Forall2_drop. clear. induction (lp_Entries page); constructor; done.
  - destruct (Z.eqb_spec (Z.of_nat (S level)) 0); [lia|].
    destruct HR as (page & ess & HL & -> & HF). rewrite HL. cbn [mbind result_bind]. cbv zeta.
    destruct (loadIndex_expands _ _ _ _ _ HL) as (_ & Hc & Hrs & _).
    pose proof (children_expand _ _ _ _ _ _ _ HL Hl HF) as HX.
    rewrite <- (add_all_search fromLSN limit (ixp_Entries page) _ _ Hc HX).
    apply for_until_add. cbn [hi IndexEntry_Ranged]. apply Forall2_drop.
    eapply Forall2_strengthen; [exact Hrs|exact HF|]. intros e es Hr HR col'. apply IH; [done| |lia]. by eapply child_level.
Qed.

(** Adding everything to an empty collector is the specification page. *)
Lemma add_all_spec fromLSN limit es col :
  pc_hasMore col = false → len (pc_segments col) ≤ limit →
  add_all fromLSN limit es col =
  let rest := from_lsn fromLSN es in
  let room := (Z.to_nat limit - length (pc_segments col))%nat in
  match rest !! room with
  | Some next => {| pc_segments := pc_segments col ++ map (segmentRef c) (take room rest);
                    pc_nextLSN := le_BaseLSN next; pc_hasMore := true |}
  | None => {| pc_segments := pc_segments col ++ map (segmentRef c) rest;
               pc_nextLSN := pc_nextLSN col; pc_hasMore := false |}
  end.
Proof.
  cbv zeta. revert col; induction es as [|e es IH]; intros col Hm Hl.
  { cbn. rewrite app_nil_r. destruct col; cbn in *. by subst. }
  change (add_all fromLSN limit (e :: es) col) with (add_all fromLSN limit es (pageCollector_add c fromLSN limit e col)).
  unfold from_lsn. cbn [List.filter].
  fold (from_lsn fromLSN es). unfold pageCollector_add. rewrite Hm. cbn [orb hi LeafEntry_Ranged].
  rewrite Z.ltb_antisym. destruct (fromLSN <=? le_LastLSN e) eqn:Ef; cbn [negb]; [|by apply IH].
  unfold len in *. destruct (Z.eqb_spec (Z.of_nat (length (pc_segments col))) limit) as [E|E].
  - rewrite add_all_done by done. replace (Z.to_nat limit - length (pc_segments col))%nat with 0%nat by lia.
    cbn. by rewrite app_nil_r.
  - rewrite IH; cbn [pc_segments pc_hasMore pc_nextLSN]; [|done|rewrite length_app; cbn; lia].
    rewrite length_app. cbn [length].
    replace (Z.to_nat limit - length (pc_segments col))%nat
      with (S (Z.to_nat limit - (length (pc_segments col) + 1)))%nat by lia.
    cbn [lookup list_lookup take map]. destruct (from_lsn fromLSN es !! _); by rewrite <- app_assoc.
Qed.

(** ** Entry points *)
Lemma headRoots_ends head :
  head_ok head →
  (∀ r, list.head (headRoots head) = Some r → lo r = hh_OldestLSN (hd_Header head)) ∧
  (∀ r, last (headRoots head) = Some r → hi r + 1 = hh_NextLSN (hd_Header head)) ∧
  (headRoots head = [] → hh_OldestLSN (hd_Header head) = hh_NextLSN (hd_Header head)) ∧
  (HasLastSegment head = false → headRoots head = []).
Proof.
  intros Hk. pose proof (hk_oldest _ Hk) as Ho. pose proof (hk_end _ Hk) as Hend. pose proof (hk_last _ Hk) as Hl.
  rewrite <- headRoots_ranges in Ho, Hend, Hl. split; [|split; [|split]].
  - intros r Hr. rewrite Ho. destruct (headRoots head); [done|]. cbn in Hr. simplify_eq. by destruct r.
  - intros r Hr. rewrite <- (Hend (root_range r)); [by destruct r|].
    change (last (root_range <$> headRoots head) = Some (root_range r)). by rewrite fmap_last, Hr.
  - intros E. by rewrite E in Ho.
  - intros E. rewrite E in Hl. destruct Hl as (_ & Hr & _). by destruct (headRoots head).
Qed.

Lemma catalog_rep_bounds head es :
  catalog_rep c pages head es →
  chain es ∧ Forall leaf_valid es ∧
  (∀ e, e ∈ es → hh_OldestLSN (hd_Header head) ≤ le_BaseLSN e ∧ le_LastLSN e < hh_NextLSN (hd_Header head)) ∧
  (HasLastSegment head = false → es = []) ∧
  (hh_OldestLSN (hd_Header head) = hh_NextLSN (hd_Header head) → es = []).
Proof.
  intros [_ Hk _ (ess & HF & ->) _]. destruct (roots_expand _ _ _ _ Hk HF) as [HX Hv].
  pose proof (headRoots_chain _ Hk) as Hc. pose proof (expands_chain _ _ Hc HX) as HC.
  destruct (headRoots_ends _ Hk) as (Hh & Hl & _ & Hn).
  assert (HB : ∀ e, e ∈ concat ess → hh_OldestLSN (hd_Header head) ≤ le_BaseLSN e ∧ le_LastLSN e < hh_NextLSN (hd_Header head)).
  { intros e He. destruct (Forall2_concat_elem _ _ e HX He) as (r & Hr & Hlo & Hhi & _). cbn [lo hi LeafEntry_Ranged] in *.
    apply list_elem_of_lookup_1 in Hr as [i Hi]. destruct (headRoots head) as [|r0 rs] eqn:E; [done|].
    destruct (chain_within r0 rs i r Hc Hi) as [H1 H2]. rewrite (Hh r0 eq_refl) in H1.
    specialize (Hl _ (last_List_last r0 rs)). lia. }
  split; [done|]. split; [done|]. split; [done|]. split.
  - intros E. rewrite (Hn E) in HX. by inversion HX.
  - intros E. destruct (concat ess) as [|e es] eqn:Ee; [done|]. destruct (HB e ltac:(left)).
    apply Forall_cons in Hv as [Hv _]. destruct (leaf_valid_inv _ Hv) as ([Hr _] & _). cbn in Hr. lia.
Qed.

Lemma ref_rep_level head ref :
  head_ok head → RefRoot ref ∈ headRoots head →
  ie_Level ref = Z.of_nat (Z.to_nat (ie_Level ref)) ∧ (Z.to_nat (ie_Level ref) < page_fuel)%nat.
Proof.
  intros Hk Hr. pose proof (headRoots_ref _ _ Hk Hr) as Hv. destruct (ref_valid_inv _ Hv) as (_ & _ & _ & Hl & _).
  unfold MaxIndexLevel, page_fuel in *. lia.
Qed.

Lemma FindSegment_rep head es lsn :
  catalog_rep c pages head es → FindSegment c pages None head lsn = Ok (segmentRef c <$> at_lsn lsn es).
Proof.
  intros HR. destruct (catalog_rep_bounds _ _ HR) as (HC & _ & HB & HN & _).
  destruct HR as [_ Hk Hcfg (ess & HF & ->) _]. unfold FindSegment. rewrite Hcfg. cbn [mbind result_bind].
  destruct (negb (HasLastSegment head)) eqn:Eh; cbn [orb].
  { apply negb_true_iff in Eh. by rewrite (HN Eh). }
  destruct (_ || _) eqn:Eb.
  { replace (at_lsn lsn (concat ess)) with (@None LeafEntry); [done|]. symmetry.
    destruct (at_lsn lsn (concat ess)) as [e|] eqn:E; [|done]. apply at_lsn_Some in E as [He Hx]; [|done].
    destruct (HB e He). cbn in Hx. apply orb_true_iff in Eb as [Eb|Eb]; bool_to_prop; lia. }
  destruct (roots_expand _ _ _ _ Hk HF) as [HX _]. pose proof (headRoots_chain _ Hk) as Hc. cbv zeta.
  etrans; [exact (search_at_lsn lsn (headRoots head) (λ root, match root with
             | LeafRoot leaf => Ok (Some (segmentRef c leaf))
             | RefRoot ref => findInPage c pages page_fuel ref lsn (hh_WriterEpoch (hd_Header head)) end) Hc)|].
  destruct (at_lsn lsn (headRoots head)) as [r|] eqn:E; [|by rewrite (at_lsn_expand_None _ _ _ Hc HX E)].
  destruct (at_lsn_expand _ _ _ _ Hc HX E) as (i & l & Hi & Hli & -> & Hs).
  pose proof (Forall2_lookup_lr _ _ _ _ _ _ HF Hi Hli) as Hrep. destruct r as [ref|leaf]; cbn in Hrep.
  - destruct (ref_rep_level head ref Hk) as [Hl Hf]; [by eapply list_elem_of_lookup_2|].
    by apply (findInPage_spec (Z.to_nat (ie_Level ref))).
  - subst l. destruct Hs as [e He]. rewrite He. apply List.find_some in He as [[->|[]] _]. done.
Qed.

Lemma LookupTimestamp_rep head es ts :
  catalog_rep c pages head es → LookupTimestamp c pages None head ts = Ok (segmentRef c <$> from_ts ts es).
Proof.
  intros HR. destruct (catalog_rep_bounds _ _ HR) as (HC & _ & HB & HN & HE).
  destruct HR as [_ Hk Hcfg (ess & HF & ->) Hlast]. unfold LookupTimestamp. rewrite Hcfg. cbn [mbind result_bind].
  destruct (negb (HasLastSegment head)) eqn:Eh; cbn [orb].
  { apply negb_true_iff in Eh. by rewrite (HN Eh). }
  destruct (Z.eqb_spec (hh_OldestLSN (hd_Header head)) (hh_NextLSN (hd_Header head))) as [E|_]; cbn [orb].
  { by rewrite (HE E). }
  destruct (Z.ltb_spec (le_MaxTimestampMS (hd_LastSegment head)) ts) as [Et|_].
  { replace (from_ts ts (concat ess)) with (@None LeafEntry); [done|]. symmetry. apply find_None_iff. intros e He.
    apply Z.leb_gt. destruct (concat ess) as [|e0 es] eqn:Ee; [by apply elem_of_nil in He|].
    pose proof (last_List_last e0 es) as Hz. rewrite <- (Hlast _ Hz) in Et.
    apply list_elem_of_lookup_1 in He as [i Hi]. pose proof (chain_tmax e0 es i e HC Hi). cbn in *. lia. }
  destruct (roots_expand _ _ _ _ Hk HF) as [HX _]. pose proof (headRoots_chain _ Hk) as Hc. cbv zeta.
  pose proof (search_from_ts ts _ Hc) as HS. cbn in HS. rewrite HS.
  destruct (from_ts ts (headRoots head)) as [r|] eqn:E; [|by rewrite (from_ts_expand_None _ _ _ HX E)].
  destruct (from_ts_expand _ _ _ _ HX E) as (i & l & Hi & Hli & -> & Hs).
  pose proof (Forall2_lookup_lr _ _ _ _ _ _ HF Hi Hli) as Hrep. destruct r as [ref|leaf]; cbn in Hrep.
  - destruct (ref_rep_level head ref Hk) as [Hl Hf]; [by eapply list_elem_of_lookup_2|].
    by apply (findTimestampInPage_spec (Z.to_nat (ie_Level ref))).
  - subst l. destruct Hs as [e He]. rewrite He. apply List.find_some in He as [[->|[]] _]. done.
Qed.

Lemma ListSegments_rep head es from limit :
  catalog_rep c pages head es →
  ListSegments c pages None head from limit =
  Ok (spec_page (map (segmentRef c) es) from (Z.to_nat (reader_limit limit))).
Proof.
  intros HR. destruct (catalog_rep_bounds _ _ HR) as (HC & _ & HB & HN & _).
  destruct HR as [_ Hk Hcfg (ess & HF & ->) _]. unfold ListSegments. rewrite Hcfg. cbv zeta. cbn [mbind result_bind].
  assert (Hnil : ∀ es, from_lsn from es = [] → spec_page (map (segmentRef c) es) from (Z.to_nat (reader_limit limit)) =
                   {| sp_Segments := []; sp_NextLSN := 0; sp_HasMore := false |}).
  { intros es E. unfold spec_page. by rewrite (from_lsn_map (segmentRef c)), E by done. }
  destruct (negb (HasLastSegment head)) eqn:Eh; cbn [orb].
  { apply negb_true_iff in Eh. by rewrite (HN Eh), Hnil. }
  destruct (Z.leb_spec (hh_NextLSN (hd_Header head)) from) as [Hf|Hf].
  { rewrite Hnil; [done|]. unfold from_lsn. clear -HB Hf. induction (concat ess) as [|e es IH]; [done|]. cbn.
    rewrite (proj2 (Z.leb_gt from (le_LastLSN e))) by (destruct (HB e ltac:(left)); lia). apply IH. intros. apply HB. by right. }
  destruct (roots_expand _ _ _ _ Hk HF) as [HX _].
  assert (HL : 0 < reader_limit limit).
  { unfold reader_limit, DefaultSegmentPageLimit. destruct ((limit <=? 0) || _) eqn:E; [lia|]. bool_to_prop. lia. }
  rewrite (for_until_add from (reader_limit limit) _ _ ess).
  - cbn [mbind result_bind]. rewrite add_all_spec by (try done; unfold len; cbn [pc_segments length]; lia). cbv zeta. cbn [pc_segments length app].
    unfold spec_page. rewrite (from_lsn_map (segmentRef c)) by done. cbv zeta. rewrite Nat.sub_0_r, list_lookup_fmap.
    destruct (from_lsn from (concat ess) !! _); cbn; [|done]. by rewrite <- firstn_map.
  - eapply (Forall2_strengthen (λ r, r ∈ headRoots head)).
    { by apply Forall_forall. } { exact (Forall2_conj _ _ _ _ HF HX). }
    intros r es Hr [Hrep He] col. destruct (Z.ltb_spec (seqHi r) from) as [Hs|_].
    + rewrite add_all_skip; [done|]. intros e Hin. destruct (expands_bounds _ _ e He Hin) as (_ & Hb & _). cbn in Hb. lia.
    + destruct r as [ref|leaf]; cbn in Hrep; [|by subst es].
      destruct (ref_rep_level head ref Hk Hr) as [Hl Hf']. by apply (collectPage_spec (Z.to_nat (ie_Level ref))).
Qed.

(** ** Safety against any page source *)

(** A returned segment is the translation of a valid leaf entry within the
    fence that satisfies [good]; an error comes from the page source or reports
    a corrupt catalog. *)
Definition safe_result (epoch : Z) (good : LeafEntry → Prop) (r : result (option SegmentRef)) : Prop :=
  match r with
  | Ok None => True
  | Ok (Some s) => ∃ e, s = segmentRef c e ∧ leaf_valid e ∧ le_WriterEpoch e ≤ epoch ∧ good e
  | Err err => (∃ key, pages key = Err err) ∨ ErrCorruptCatalog ∈ err
  end.

Lemma safe_result_mono epoch epoch' good r :
  epoch ≤ epoch' → safe_result epoch good r → safe_result epoch' good r.
Proof.
  intros He. destruct r as [[s|]|]; cbn; try done. intros (e & ? & ? & ? & ?). exists e. split_and!; try done. lia.
Qed.

Lemma loadLeaf_err ref epoch err :
  loadLeaf c pages ref epoch = Err err → (∃ key, pages key = Err err) ∨ ErrCorruptCatalog ∈ err.
Proof.
  unfold loadLeaf. destruct (pages _) as [body|e] eqn:E; cbn [mbind result_bind]; [|intros [= <-]; eauto].
  destruct (ParseLeafPage body) as [[page id]|e]; cbn [wrap_err mbind result_bind].
  - destruct (_ || _); [|done]. intros [= <-]. right. by left.
  - intros [= <-]. right. by left.
Qed.
Lemma loadIndex_err ref epoch err :
  loadIndex c pages ref epoch = Err err → (∃ key, pages key = Err err) ∨ ErrCorruptCatalog ∈ err.
Proof.
  unfold loadIndex. destruct (pages _) as [body|e] eqn:E; cbn [mbind result_bind]; [|intros [= <-]; eauto].
  destruct (ParseIndexPage body) as [[page id]|e]; cbn [wrap_err mbind result_bind].
  - destruct (_ || _); [|done]. intros [= <-]. right. by left.
  - intros [= <-]. right. by left.
Qed.

Lemma findInPage_safe fuel ref lsn epoch :
  ref_valid ref → (Z.to_nat (ie_Level ref) < fuel)%nat →
  safe_result epoch (λ e, le_BaseLSN e ≤ lsn ≤ le_LastLSN e) (findInPage c pages fuel ref lsn epoch).
Proof.
  revert ref epoch; induction fuel as [|fuel IH]; intros ref epoch Hv Hf; [lia|]. cbn [findInPage].
  destruct (ref_valid_inv _ Hv) as (_ & _ & _ & Hlv & _). destruct (Z.eqb_spec (ie_Level ref) 0) as [E|E].
  - destruct (loadLeaf c pages ref epoch) as [page|err] eqn:HL; cbn [mbind result_bind]; [|by eapply loadLeaf_err].
    destruct (loadLeaf_expands _ _ _ _ _ HL) as ((Hc & _) & (Hlvs & _) & _ & Hep).
    pose proof (search_at_lsn lsn (lp_Entries page) (λ e, Ok (Some (segmentRef c e))) Hc) as HS.
    cbn [lo hi LeafEntry_Ranged] in HS. rewrite HS.
    destruct (at_lsn lsn (lp_Entries page)) as [e|] eqn:Ee; cbn; [|done].
    apply at_lsn_Some in Ee as [He Hx]; [|done]. exists e. split; [done|].
    split; [by apply (proj1 (Forall_forall _ _) Hlvs)|]. split; [by apply (proj1 (Forall_forall _ _) Hep)|done].
  - destruct (loadIndex c pages ref epoch) as [page|err] eqn:HL; cbn [mbind result_bind]; [|by eapply loadIndex_err].
    destruct (loadIndex_expands _ _ _ _ _ HL) as (_ & Hc & Hrs & _).
    destruct (loadIndex_inv _ _ _ _ _ HL) as (_ & _ & _ & Hep).
    pose proof (search_at_lsn lsn (ixp_Entries page)
                  (λ e, findInPage c pages fuel e lsn (pgh_WriterEpoch (ixp_Header page))) Hc) as HS.
    cbn [lo hi IndexEntry_Ranged] in HS. rewrite HS.
    destruct (at_lsn lsn (ixp_Entries page)) as [e|] eqn:Ee; cbn; [|done].
    apply at_lsn_Some in Ee as [He _]; [|done]. apply (proj1 (Forall_forall _ _) Hrs) in He as (Hve & Hle & _).
    eapply safe_result_mono; [exact Hep|]. apply IH; [done|lia].
Qed.

Lemma findTimestampInPage_safe fuel ref ts epoch :
  ref_valid ref → (Z.to_nat (ie_Level ref) < fuel)%nat →
  safe_result epoch (λ e, ts ≤ le_MaxTimestampMS e) (findTimestampInPage c pages fuel ref ts epoch).
Proof.
  revert ref epoch; induction fuel as [|fuel IH]; intros ref epoch Hv Hf; [lia|]. cbn [findTimestampInPage].
  destruct (ref_valid_inv _ Hv) as (_ & _ & _ & Hlv & _). destruct (Z.eqb_spec (ie_Level ref) 0) as [E|E].
  - destruct (loadLeaf c pages ref epoch) as [page|err] eqn:HL; cbn [mbind result_bind]; [|by eapply loadLeaf_err].
    destruct (loadLeaf_expands _ _ _ _ _ HL) as ((Hc & _) & (Hlvs & _) & _ & Hep).
    pose proof (search_from_ts ts _ Hc) as HS. cbn in HS. rewrite HS.
    destruct (from_ts ts (lp_Entries page)) as [e|] eqn:Ee; cbn; [|done].
    apply List.find_some in Ee as [He%list_elem_of_In Hx%Z.leb_le]. exists e. split; [done|].
    split; [by apply (proj1 (Forall_forall _ _) Hlvs)|]. split; [by apply (proj1 (Forall_forall _ _) Hep)|done].
  - destruct (loadIndex c pages ref epoch) as [page|err] eqn:HL; cbn [mbind result_bind]; [|by eapply loadIndex_err].
    destruct (loadIndex_expands _ _ _ _ _ HL) as (_ & Hc & Hrs & _).
    destruct (loadIndex_inv _ _ _ _ _ HL) as (_ & _ & _ & Hep).
    pose proof (search_from_ts ts _ Hc) as HS. cbn in HS. rewrite HS.
    destruct (from_ts ts (ixp_Entries page)) as [e|] eqn:Ee; cbn; [|done].
    apply List.find_some in Ee as [He%list_elem_of_In _]. apply (proj1 (Forall_forall _ _) Hrs) in He as (Hve & Hle & _).
    eapply safe_result_mono; [exact Hep|]. apply IH; [done|lia].
Qed.
End reads.

(** C17. The blob catalog reads its own history: when a head and a page source
    represent the entries [es] (every page loads), [FindSegment] returns the
    entry holding the LSN, [LookupTimestamp] the first entry whose timestamps
    reach the one asked for, and [ListSegments] the page of the specification,
    for every LSN, timestamp and limit; no read fails. *)
Theorem catalog_reads_spec `{XXHash} c pages head es :
  catalog_rep c pages head es →
  (∀ lsn, FindSegment c pages None head lsn = Ok (at_lsn lsn (map (segmentRef c) es))) ∧
  (∀ ts, LookupTimestamp c pages None head ts = Ok (from_ts ts (map (segmentRef c) es))) ∧
  (∀ from limit, ListSegments c pages None head from limit =
                 Ok (spec_page (map (segmentRef c) es) from (Z.to_nat (reader_limit limit)))).
Proof.
  intros HR. split; [|split].
  - intros. rewrite (at_lsn_map (segmentRef c)) by done. by apply FindSegment_rep.
  - intros. rewrite (from_ts_map (segmentRef c)) by done. by apply LookupTimestamp_rep.
  - intros. by apply ListSegments_rep.
Qed.

(** C18. Whatever bytes the page source returns, a point read from a well-formed
    head is safe: a segment it returns is a valid entry written under an epoch
    not above the head's fence that holds the LSN (reaches the timestamp) asked
    for, and an error is one of the page source's or reports a corrupt catalog;
    the descent always ends. *)
Theorem catalog_point_reads_safe `{XXHash} c pages head :
  head_ok head → validateConfigHead c head = Ok () →
  (∀ lsn, safe_result c pages (hh_WriterEpoch (hd_Header head)) (λ e, le_BaseLSN e ≤ lsn ≤ le_LastLSN e)
            (FindSegment c pages None head lsn)) ∧
  (∀ ts, safe_result c pages (hh_WriterEpoch (hd_Header head)) (λ e, ts ≤ le_MaxTimestampMS e)
            (LookupTimestamp c pages None head ts)).
Proof.
  intros Hk Hcfg. pose proof (headRoots_chain _ Hk) as Hc. split.
  - intros lsn. unfold FindSegment. rewrite Hcfg. cbn [mbind result_bind]. destruct (_ || _ || _); [done|]. cbv zeta.
    pose proof (search_at_lsn lsn (headRoots head) (λ root, match root with
             | LeafRoot leaf => Ok (Some (segmentRef c leaf))
             | RefRoot ref => findInPage c pages page_fuel ref lsn (hh_WriterEpoch (hd_Header head)) end) Hc) as HS.
    cbn [lo hi headRoot_Ranged] in HS. rewrite HS.
    destruct (at_lsn lsn (headRoots head)) as [[ref|leaf]|] eqn:E; [| |done]; apply at_lsn_Some in E as [Hin Hx]; try done.
    + apply findInPage_safe; [by eapply headRoots_ref|]. by destruct (ref_rep_level head ref Hk Hin).
    + exists leaf. destruct (headRoots_leaf _ _ Hk Hin). done.
  - intros ts. unfold LookupTimestamp. rewrite Hcfg. cbn [mbind result_bind]. destruct (_ || _ || _); [done|]. cbv zeta.
    pose proof (search_from_ts ts _ Hc) as HS. cbn in HS. rewrite HS.
    destruct (from_ts ts (headRoots head)) as [[ref|leaf]|] eqn:E; [| |done];
      apply List.find_some in E as [Hin%list_elem_of_In Hx%Z.leb_le].
    + apply findTimestampInPage_safe; [by eapply headRoots_ref|]. by destruct (ref_rep_level head ref Hk Hin).
    + exists leaf. destruct (headRoots_leaf _ _ Hk Hin). done.
Qed.
