(* ===== verification/CatAppend.v ===== *)
(** * Growing the blob catalog (catengine/tree.go)

    [Append], [Takeover] and [NewHead] refine the abstract catalog: once the
    pages a mutation carries are stored, the new head represents the old
    history with the segment at its end (the same history after a takeover,
    the empty one for a new head).  Pages are never overwritten, because a
    page's key determines its reference and a mutation's pages have a
    generation of their own. *)
From S2P Require Import Prelude Hash SegFormat Ranges PMeta KeyLayout CatFormat CatCodec CatTree CatReader.

(** Storing page objects in a page source; keys not written keep their value. *)
Definition put_pages (objects : list PageObject) (pages : PageSource) : PageSource := λ key,
  match List.find (λ o, bool_decide (po_Key o = key)) objects with
  | Some o => Ok (po_Body o)
  | None => pages key
  end.

(** ** Page keys *)
Lemma page_tail_inj hi lo g id hi' lo' g' id' :
  is_u64 hi → is_u64 lo → is_u64 g → length id = 16%nat → is_u64 hi' → is_u64 lo' → is_u64 g' → length id' = 16%nat →
  fmt_d 20 hi ++ str "-" ++ fmt_d 20 lo ++ str "-" ++ fmt_d 20 g ++ str "-" ++ hex id ++ str ".plc" =
  fmt_d 20 hi' ++ str "-" ++ fmt_d 20 lo' ++ str "-" ++ fmt_d 20 g' ++ str "-" ++ hex id' ++ str ".plc" →
  hi = hi' ∧ lo = lo' ∧ g = g' ∧ id = id'.
Proof.
  intros ? ? ? Hid ? ? ? Hid' E.
  apply app_inj_1 in E as [E1 E]; [|by rewrite !length_fmt_d20]. apply app_inv_head in E.
  apply app_inj_1 in E as [E2 E]; [|by rewrite !length_fmt_d20]. apply app_inv_head in E.
  apply app_inj_1 in E as [E3 E]; [|by rewrite !length_fmt_d20]. apply app_inv_head in E. apply app_inv_tail in E.
  split; [by eapply fmt_d_inj|]. split; [by eapply fmt_d_inj|]. split; [by eapply fmt_d_inj|].
  apply hex_inj; [congruence|done].
Qed.

Lemma length_fmt_d2 z : 0 ≤ z ≤ 99 → length (fmt_d 2 z) = 2%nat.
Proof. intros Hz. apply length_pad, length_digits; [lia| |lia]. change (10 ^ Z.of_nat 2) with 100. lia. Qed.

Lemma PagePath_inj c r r' :
  IndexEntry_typed r → IndexEntry_typed r' → ie_Level r ≤ MaxIndexLevel → ie_Level r' ≤ MaxIndexLevel →
  PagePath c r = PagePath c r' →
  ie_Level r = ie_Level r' ∧ ie_SeqHi r = ie_SeqHi r' ∧ ie_SeqLo r = ie_SeqLo r' ∧
  ie_Generation r = ie_Generation r' ∧ ie_PageID r = ie_PageID r'.
Proof.
  intros (Hl & _ & Hlo & Hhi & _ & _ & Hg & Hid & _) (Hl' & _ & Hlo' & Hhi' & _ & _ & Hg' & Hid' & _) Hm Hm' E.
  unfold MaxIndexLevel in *. assert (0 ≤ ie_Level r ≤ 99 ∧ 0 ≤ ie_Level r' ≤ 99) as [Hr Hr'] by (unfold_widths; lia).
  unfold PagePath, LeafPagePath, IndexPagePath in E.
  destruct (Z.eqb_spec (ie_Level r) 0) as [E0|E0], (Z.eqb_spec (ie_Level r') 0) as [E0'|E0'];
    apply app_inv_head in E.
  - apply app_inv_head in E. apply page_tail_inj in E as (? & ? & ? & ?); [|done..]. split_and!; congruence.
  - exfalso. change (str "/pages/l00/leaf-") with (str "/pages/l" ++ fmt_d 2 0 ++ str "/leaf-") in E.
    rewrite <- !app_assoc in E. apply app_inv_head in E. apply app_inj_1 in E as [E _]; [|by rewrite !length_fmt_d2 by lia].
    apply fmt_d_inj in E; [lia|unfold_widths; lia|unfold_widths; lia].
  - exfalso. change (str "/pages/l00/leaf-") with (str "/pages/l" ++ fmt_d 2 0 ++ str "/leaf-") in E.
    rewrite <- !app_assoc in E. apply app_inv_head in E. apply app_inj_1 in E as [E _]; [|by rewrite !length_fmt_d2 by lia].
    apply fmt_d_inj in E; [lia|unfold_widths; lia|unfold_widths; lia].
  - apply app_inv_head in E. apply app_inj_1 in E as [El E]; [|by rewrite !length_fmt_d2 by lia].
    apply fmt_d_inj in El; [|unfold_widths; lia|unfold_widths; lia]. rewrite El in E.
    apply app_inv_head in E. apply app_inv_head in E. apply app_inv_head in E.
    apply page_tail_inj in E as (? & ? & ? & ?); [|done..]. by split_and!.
Qed.

(** C19. Page keys do not collide: two references with the same object key under
    one configuration agree on level, LSN range, generation and page ID. *)
Theorem page_path_injective c r r' :
  IndexEntry_typed r → IndexEntry_typed r' → ie_Level r ≤ MaxIndexLevel → ie_Level r' ≤ MaxIndexLevel →
  PagePath c r = PagePath c r' →
  ie_Level r = ie_Level r' ∧ ie_SeqHi r = ie_SeqHi r' ∧ ie_SeqLo r = ie_SeqLo r' ∧
  ie_Generation r = ie_Generation r' ∧ ie_PageID r = ie_PageID r'.
Proof. apply PagePath_inj. Qed.

Definition example_ref : IndexEntry := {|
  ie_Level := 2; ie_EntryCount := 3; ie_SeqLo := 5; ie_SeqHi := 90; ie_MinTimestampMS := 1; ie_MaxTimestampMS := 2;
  ie_Generation := 12; ie_PageID := be_put 16 77; ie_SegmentCount := 4 |}.
Definition example_config : Config := Eval vm_compute in
  match NewConfig (str "catalog") [] (str "orders") 3 1 2 1 with Ok c => c | Err _ => mkConfig [] [] [] 0 0 0 0 [] [] end.

Lemma page_path_injective_witness :
  let r' := mkIndexEntry 2 9 5 90 0 0 12 (be_put 16 77) 10 in
  PagePath example_config example_ref = PagePath example_config r' ∧ ie_Generation example_ref = ie_Generation r'.
Proof.
  intros r'. assert (E : PagePath example_config example_ref = PagePath example_config r') by (vm_compute; reflexivity).
  split; [exact E|].
  apply (page_path_injective example_config example_ref r');
    [unfold IndexEntry_typed; cbn; closed_typed|unfold IndexEntry_typed; cbn; closed_typed
    |vm_compute; discriminate|vm_compute; discriminate|exact E].
Defined.

Lemma ref_valid_intro ref :
  IndexEntry_typed ref → ie_Level ref ≤ MaxIndexLevel → range_ok ref → ie_SeqHi ref ≤ MaxRecordLSN →
  0 < ie_EntryCount ref ≤ 1024 → 0 < ie_Generation ref → ie_PageID ref ≠ zeros 16 →
  ie_EntryCount ref ≤ ie_SegmentCount ref ≤ ie_SeqHi ref - ie_SeqLo ref + 1 →
  (ie_Level ref = 0 → ie_SegmentCount ref = ie_EntryCount ref) → ref_valid ref.
Proof.
  intros Ht Hl [Hr Hts] Hhi Hc Hg Hid Hs H0. split; [done|]. cbn in Hr, Hts. unfold IndexEntry_typed in Ht. typed_fields.
  unfold validateIndexEntry, isZero16, MaxLeafEntries, MaxIndexEntries, MaxRecordLSN in *. cbv zeta.
  rewrite (proj2 (Z.ltb_ge MaxIndexLevel _)) by lia.
  rewrite (proj2 (Z.ltb_ge (ie_SeqHi ref) _)), (proj2 (Z.ltb_ge (MaxUint64 - 1) _)), (proj2 (Z.ltb_ge (ie_MaxTimestampMS ref) _)) by lia.
  cbn [orb]. rewrite (proj2 (Z.eqb_neq (ie_EntryCount ref) 0)), (proj2 (Z.eqb_neq (ie_Generation ref) 0)), bool_decide_false by (done || lia).
  replace ((if ie_Level ref =? 0 then 1024 else 1024) <? ie_EntryCount ref) with false
    by (symmetry; apply Z.ltb_ge; destruct (ie_Level ref =? 0); lia).
  cbn [orb]. rewrite (proj2 (Z.ltb_ge (ie_SegmentCount ref) _)) by lia.
  replace ((ie_Level ref =? 0) && negb (ie_SegmentCount ref =? ie_EntryCount ref)) with false.
  2: { symmetry. destruct (Z.eqb_spec (ie_Level ref) 0) as [E|]; [|done]. by rewrite (H0 E), Z.eqb_refl. }
  unfold_widths. rewrite (Z.mod_small (ie_SeqHi ref - ie_SeqLo ref)), Z.mod_small by lia.
  by rewrite (proj2 (Z.ltb_ge _ _)) by lia.
Qed.

(** ** Sealing *)
Record seal_ok (c : Config) (generation writerEpoch : Z) : Prop := {
  so_partition : is_u32 (cf_Partition c);
  so_algo_typed : is_u16 (cf_HashAlgo c);
  so_algo : HashAlgo_Validate (cf_HashAlgo c) = Ok ();
  so_stream : length (cf_StreamKey c) = 32%nat;
  so_stream_zero : cf_StreamKey c ≠ zeros 32;
  so_generation : 0 < generation ≤ MaxUint64;
  so_epoch : 0 < writerEpoch ≤ MaxUint64 }.

Section sealing.
Context `{XXHash} (c : Config) (generation writerEpoch : Z) (Hso : seal_ok c generation writerEpoch).

Lemma seal_common h :
  pgh_Flags h = 0 → pgh_HashAlgo h = cf_HashAlgo c → pgh_Generation h = generation →
  pgh_WriterEpoch h = writerEpoch → pgh_StreamKey h = cf_StreamKey c → validateCommonPageHeader h = Ok ().
Proof.
  intros E1 E2 E3 E4 E5. destruct Hso. unfold validateCommonPageHeader, isZero32. rewrite E1, E2, E3, E4, E5, so_algo0.
  cbn [Z.eqb negb mask_err mbind result_bind].
  rewrite (proj2 (Z.eqb_neq generation 0)), (proj2 (Z.eqb_neq writerEpoch 0)), bool_decide_false by (done || lia). done.
Qed.

(** What a successful seal gives: a reference one can follow as soon as the page
    is stored, valid unless its content hash starts with sixteen zero bytes. *)
Definition sealed (level : Z) (ref : IndexEntry) (object : PageObject) : Prop :=
  ie_Level ref = level ∧ ie_Generation ref = generation ∧ IndexEntry_typed ref ∧
  (ie_PageID ref ≠ zeros 16 → ref_valid ref) ∧
  po_Key object = PagePath c ref ∧ po_Level object = level ∧ po_Ref object = ref.

Lemma MarshalLeafPage_id page enc id : MarshalLeafPage page = Ok (enc, id) → length id = 16%nat.
Proof.
  unfold MarshalLeafPage. cbv zeta. intros HM. inv_ok. unfold pageID. rewrite length_take, SHA256.length_Sum256. lia.
Qed.
Lemma MarshalIndexPage_id page enc id : MarshalIndexPage page = Ok (enc, id) → length id = 16%nat.
Proof.
  unfold MarshalIndexPage. cbv zeta. intros HM. inv_ok. unfold pageID. rewrite length_take, SHA256.length_Sum256. lia.
Qed.

Lemma sealLeaf_spec es :
  leaves_ok es → es ≠ [] → len es ≤ 1024 → Forall (λ e, le_WriterEpoch e ≤ writerEpoch) es →
  ∃ ref object, sealLeaf c generation writerEpoch es = Ok (ref, object) ∧ sealed 0 ref object ∧
    expands ref es ∧ ie_SegmentCount ref = len es ∧
    ∀ pages epoch, pages (po_Key object) = Ok (po_Body object) → writerEpoch ≤ epoch → page_rep c pages 0 ref epoch es.
Proof.
  intros Hl Hne Hlen Hep. destruct es as [|e es]; [done|]. unfold sealLeaf. cbv zeta.
  set (l := List.last es e). pose proof (last_List_last e es) as Hlast. fold l in Hlast.
  destruct Hl as (Hv & Hc & Hs). pose proof (len_nonneg (e :: es)).
  assert (Hpos : 0 < len (e :: es)) by (unfold len; cbn [length]; lia).
  rewrite uint32_id, uint64_id by (unfold_widths; lia).
  match goal with |- context [MarshalLeafPage ?p] => set (page := p) end.
  assert (Hel : leaf_valid l) by (apply (proj1 (Forall_forall _ _) Hv); rewrite last_lookup in Hlast; by eapply list_elem_of_lookup_2).
  assert (Hee : leaf_valid e) by (by apply Forall_cons in Hv as [? _]).
  assert (Hell : le_WriterEpoch l ≤ writerEpoch).
  { apply (proj1 (Forall_forall _ _) Hep). rewrite last_lookup in Hlast. by eapply list_elem_of_lookup_2. }
  assert (Ht : LeafPage_typed page).
  { split; [|eapply Forall_impl; [exact Hv|]; by intros ? [? _]]. destruct Hee as [He _], Hel as [Hl _], Hso.
    unfold LeafEntry_typed in He, Hl. unfold PageHeader_typed, page; cbn. typed_fields.
    repeat match goal with |- ?P ∧ _ => split end; try assumption; try done; unfold_widths; lia. }
  assert (Hk : leaf_page_ok page).
  { constructor; cbn [page lp_Header lp_Entries pgh_Level pgh_EntrySize pgh_EntryCount pgh_SegmentCount pgh_SeqLo pgh_SeqHi
      pgh_MinTimestampMS pgh_MaxTimestampMS pgh_WriterEpoch]; try done; try (rewrite Hlast; done).
    - by apply seal_common.
    - intros e'. rewrite Hlast. by intros [= <-]. }
  destruct Marshal_total as (HM & _). destruct (proj2 (HM page Ht) Hk) as (enc & id & HE). rewrite HE. cbn [mbind result_bind].
  pose proof (MarshalLeafPage_id _ _ _ HE) as Hid.
  eexists _, _. split; [reflexivity|].
  match goal with |- sealed 0 ?r _ ∧ _ => set (ref := r) end.
  assert (HX : expands ref (e :: es)) by (split; [exact Hc|]; rewrite Hlast; done).
  assert (Hrt : IndexEntry_typed ref).
  { destruct Ht as [Ht _]. unfold PageHeader_typed, page in Ht. cbn in Ht. unfold IndexEntry_typed, ref; cbn.
    typed_fields. repeat match goal with |- ?P ∧ _ => split end; try assumption; try done. }
  split; [|split; [exact HX|split; [done|]]].
  - split; [done|]. split; [done|]. split; [done|]. split; [|done]. intros Hz. destruct Hso.
    apply ref_valid_intro; try done; try (cbn [ref ie_EntryCount ie_SegmentCount ie_Generation]; lia).
    + exact (expands_range_ok ref _ HX).
    + destruct (leaf_valid_inv _ Hel) as (_ & _ & ? & _). done.
    + cbn [ref ie_EntryCount ie_SegmentCount ie_SeqHi ie_SeqLo]. split; [lia|]. rewrite <- sumZ_const. apply (chain_sum (λ _ : LeafEntry, 1) e es Hc).
      eapply Forall_impl; [exact Hv|]. intros x Hx. destruct (leaf_valid_inv _ Hx) as ([? _] & _). cbn in *. lia.
  - intros pages epoch Hp He. exists page. split; [|done]. unfold loadLeaf. cbn [po_Key] in Hp. rewrite Hp.
    cbn [mbind result_bind po_Body]. rewrite (proj2 (ParseLeafPage_spec enc page id)) by done. cbn [wrap_err mbind result_bind].
    rewrite bool_decide_true, (proj2 (Z.ltb_ge _ _)) by (try done; cbn; lia).
    unfold matchesPageRef; cbn. by rewrite !Z.eqb_refl, bool_decide_true by done.
Qed.

Lemma sum_segments_spec acc es :
  Forall (λ e, 0 ≤ ie_SegmentCount e) es → 0 ≤ acc → acc + refs_segments es ≤ MaxUint64 →
  sum_segments acc es = Ok (acc + refs_segments es).
Proof.
  unfold refs_segments. intros HF. revert acc; induction HF as [|e es He HF IH]; intros acc Ha Hs; cbn [sum_segments sumZ] in *.
  { f_equal. lia. }
  pose proof (sumZ_nonneg ie_SegmentCount es HF). rewrite (proj2 (Z.ltb_ge _ _)) by lia.
  rewrite uint64_id by (unfold_widths; lia). rewrite IH by lia. f_equal. lia.
Qed.

Lemma sealIndex_spec level es :
  0 < level ≤ MaxIndexLevel → Forall (ref_at level generation) es → chain es → es ≠ [] → len es ≤ 1024 →
  ∃ ref object, sealIndex c generation writerEpoch level es = Ok (ref, object) ∧ sealed level ref object ∧
    expands ref es ∧ ie_SegmentCount ref = refs_segments es ∧
    ∀ pages epoch ess, pages (po_Key object) = Ok (po_Body object) → writerEpoch ≤ epoch →
      Forall2 (ref_rep c pages writerEpoch) es ess → ref_rep c pages epoch ref (concat ess).
Proof.
  intros Hlv Hrs Hc Hne Hlen. destruct es as [|e es]; [done|]. unfold sealIndex. cbv zeta.
  set (l := List.last es e). pose proof (last_List_last e es) as Hlast. fold l in Hlast.
  assert (Hpos : 0 < len (e :: es)) by (unfold len; cbn [length]; lia).
  assert (Hel : ref_at level generation l).
  { apply (proj1 (Forall_forall _ _) Hrs). rewrite last_lookup in Hlast. by eapply list_elem_of_lookup_2. }
  assert (Hee : ref_at level generation e) by (by apply Forall_cons in Hrs as [? _]).
  assert (Hcnt : Forall (λ r, 0 < ie_SegmentCount r ≤ hi r - lo r + 1) (e :: es)).
  { eapply Forall_impl; [exact Hrs|]. intros r (Hv & _). by destruct (ref_valid_inv _ Hv) as (_ & _ & _ & _ & _ & ? & _). }
  assert (Hsum : refs_segments (e :: es) ≤ ie_SeqHi l - ie_SeqLo e + 1).
  { apply (chain_sum ie_SegmentCount e es Hc). eapply Forall_impl; [exact Hcnt|]. cbn. lia. }
  assert (Hge : len (e :: es) ≤ refs_segments (e :: es)).
  { rewrite <- sumZ_const. unfold refs_segments. clear -Hcnt.
    induction Hcnt as [|r rs Hr Hcnt IH]; [done|]. cbn [sumZ]. lia. }
  destruct (ref_valid_inv _ (proj1 Hel)) as ([Hr1 _] & ? & Hmax & _). destruct (ref_valid_inv _ (proj1 Hee)) as ([Hr2 _] & Hmin & _).
  cbn in Hr1, Hr2. unfold MaxRecordLSN in Hmax.
  rewrite sum_segments_spec; [|eapply Forall_impl; [exact Hcnt|]; cbn; lia|lia|lia]. cbn [mbind result_bind]. rewrite Z.add_0_l.
  rewrite uint32_id by (unfold_widths; lia).
  match goal with |- context [MarshalIndexPage ?p] => set (page := p) end.
  assert (Ht : IndexPage_typed page).
  { split; [|eapply Forall_impl; [exact Hrs|]; by intros ? ([? _] & _)].
    destruct Hee as ([He _] & _), Hel as ([Hl _] & _), Hso. unfold MaxIndexLevel in *.
    unfold IndexEntry_typed in He, Hl. unfold PageHeader_typed, page; cbn -[refs_segments]. typed_fields.
    repeat match goal with |- ?P ∧ _ => split end; try assumption; try done; unfold_widths; lia. }
  assert (Hk : index_page_ok page).
  { constructor; cbn [page ixp_Header ixp_Entries pgh_Level pgh_EntrySize pgh_EntryCount pgh_SegmentCount pgh_SeqLo pgh_SeqHi
      pgh_MinTimestampMS pgh_MaxTimestampMS pgh_WriterEpoch]; try done; try (rewrite Hlast; done).
    by apply seal_common. }
  destruct Marshal_total as (_ & HM & _). destruct (proj2 (HM page Ht) Hk) as (enc & id & HE). rewrite HE. cbn [mbind result_bind].
  pose proof (MarshalIndexPage_id _ _ _ HE) as Hid.
  eexists _, _. split; [reflexivity|].
  match goal with |- sealed level ?r _ ∧ _ => set (ref := r) end.
  assert (HX : expands ref (e :: es)) by (split; [exact Hc|]; rewrite Hlast; done).
  assert (Hrt : IndexEntry_typed ref).
  { destruct Ht as [Ht _]. unfold PageHeader_typed, page in Ht. cbn -[refs_segments] in Ht.
    unfold IndexEntry_typed, ref; cbn -[refs_segments].
    typed_fields. repeat match goal with |- ?P ∧ _ => split end; try assumption; try done. }
  assert (Hpath : IndexPagePath c ref = PagePath c ref).
  { unfold PagePath. cbn [ie_Level ref]. by rewrite (proj2 (Z.eqb_neq level 0)) by lia. }
  split; [|split; [exact HX|split; [done|]]].
  - split; [done|]. split; [done|]. split; [done|]. split; [|by split]. intros Hz. destruct Hso.
    apply ref_valid_intro; try done; try (cbn [ref ie_Level ie_EntryCount ie_SegmentCount ie_SeqHi ie_SeqLo ie_Generation]; unfold MaxRecordLSN; lia).
    exact (expands_range_ok ref _ HX).
  - intros pages epoch ess Hp He HF. unfold ref_rep. cbn [ie_Level ref].
    replace (Z.to_nat level) with (S (Z.to_nat (level - 1))) by lia. exists page, ess. split; [|split; [done|]].
    + unfold loadIndex. cbn [po_Key] in Hp. rewrite Hp.
      cbn [mbind result_bind po_Body]. rewrite (proj2 (ParseIndexPage_spec enc page id)) by done. cbn [wrap_err mbind result_bind].
      rewrite bool_decide_true, (proj2 (Z.ltb_ge _ _)) by (try done; cbn; lia).
      unfold matchesPageRef; cbn -[refs_segments]. by rewrite !Z.eqb_refl, bool_decide_true by done.
    + cbn [page ixp_Header ixp_Entries pgh_WriterEpoch]. eapply Forall2_strengthen; [exact Hrs|exact HF|].
      intros r es' (_ & Hl & _) HR. unfold ref_rep in HR. by replace (Z.to_nat (level - 1)) with (Z.to_nat (ie_Level r)) by lia.
Qed.
End sealing.

(** ** Pushing a reference into the open sections *)
Definition refs_of (ss : list OpenIndexSection) : list IndexEntry := concat (map os_Entries (rev ss)).

Lemma refs_of_app a b : refs_of (a ++ b) = refs_of b ++ refs_of a.
Proof. unfold refs_of. by rewrite rev_app_distr, map_app, concat_app. Qed.
Lemma refs_of_cons s ss : refs_of (s :: ss) = refs_of ss ++ os_Entries s.
Proof. change (s :: ss) with ([s] ++ ss). rewrite refs_of_app. unfold refs_of at 2. cbn. by rewrite app_nil_r. Qed.
Lemma refs_of_empty ss : Forall (λ s, os_Entries s = []) ss → refs_of ss = [].
Proof. induction 1 as [|s ss Hs HF IH]; [done|]. by rewrite refs_of_cons, IH, Hs. Qed.

Lemma sections_ok_lookup h level ss :
  sections_ok h level ss ↔ ∀ i s, ss !! i = Some s → section_ok h (level + Z.of_nat i) s.
Proof.
  revert level; induction ss as [|s ss IH]; intros level; cbn [sections_ok]; [done|]. rewrite IH. split.
  - intros [Hs Hss] [|i] s' Hi; cbn in Hi; [injection Hi as <-; by rewrite Z.add_0_r|].
    replace (level + Z.of_nat (S i)) with (level + 1 + Z.of_nat i) by lia. by apply Hss.
  - intros Hss. split; [rewrite <- (Z.add_0_r level); by apply (Hss 0%nat)|].
    intros i s' Hi. replace (level + 1 + Z.of_nat i) with (level + Z.of_nat (S i)) by lia. by apply Hss.
Qed.

Lemma grow_sections_spec h n ss :
  (length ss + n ≤ 64)%nat → 0 < hh_IndexLimit h → sections_ok h 1 ss →
  ∃ k, grow_sections n ss = ss ++ k ∧ length k = n ∧ Forall (λ s, os_Entries s = []) k ∧ sections_ok h 1 (ss ++ k).
Proof.
  revert ss; induction n as [|n IH]; intros ss Hl Hi Hss; cbn [grow_sections].
  { exists []. rewrite app_nil_r. by split_and!. }
  set (s := {| os_Level := uint8 (len ss + 1); os_Entries := [] |}).
  destruct (IH (ss ++ [s])) as (k & -> & Hk & He & Hok).
  - rewrite length_app. cbn. lia.
  - done.
  - apply sections_ok_lookup. intros i s' Hs'. apply lookup_app_Some in Hs' as [Hs'|[Hge Hs']].
    + by apply (proj1 (sections_ok_lookup h 1 ss) Hss).
    + apply list_lookup_singleton_Some in Hs' as [Hi' <-]. unfold section_ok, s; cbn [os_Level os_Entries].
      unfold len at 1. rewrite uint8_id by (unfold_widths; lia). split; [lia|]. split; [done|constructor].
  - exists (s :: k). rewrite <- app_assoc in *. split; [done|]. split; [cbn; lia|]. split; [by constructor|done].
Qed.

Lemma chain_expands_ends (rs : list IndexEntry) r es :
  expands r es →
  lo <$> head (rs ++ [r]) = lo <$> head (rs ++ es) ∧ hi <$> last (rs ++ [r]) = hi <$> last (rs ++ es).
Proof.
  intros He. destruct (expands_nonempty r es He) as (e & k & ->). destruct He as (_ & Hlo & Hhi & _). cbn in Hlo.
  split; [destruct rs; cbn; [congruence|done]|]. rewrite !last_app. cbn [last]. rewrite (last_List_last e k) in *. by rewrite Hhi.
Qed.

(** A page reference whose ID is zero is refused: by [sealIndex] if it would
    have to be sealed, and otherwise by the validation of the head. *)
Lemma validateIndexPage_loop_ids hd prev n es m :
  validateIndexPage_loop hd prev n es = Ok m → Forall (λ e, ie_PageID e ≠ zeros 16) es.
Proof.
  revert prev n; induction es as [|e es IH]; intros prev n HV; [constructor|]. cbn [validateIndexPage_loop] in HV. inv_ok.
  constructor.
  - unfold validateIndexEntry in Hbind. cbv zeta in Hbind. inv_ok. unfold isZero16 in *. by bool_to_prop.
  - destruct prev as [p|]; [|by eapply IH]. inv_ok. by eapply IH.
Qed.

Lemma sealIndex_zero `{XXHash} c generation writerEpoch level es ref object :
  sealIndex c generation writerEpoch level es = Ok (ref, object) → Forall (λ e, ie_PageID e ≠ zeros 16) es.
Proof.
  unfold sealIndex. destruct es as [|e es]; [done|]. cbv zeta. intros HS. inv_ok. destruct x0 as [body id]. inv_ok.
  unfold MarshalIndexPage in Hbind0. inv_ok. unfold validateIndexPage in Hbind1. cbv zeta in Hbind1. inv_ok.
  by eapply validateIndexPage_loop_ids.
Qed.

Section push.
Context `{XXHash} (c : Config) (generation writerEpoch : Z) (Hso : seal_ok c generation writerEpoch).
Context (h : HeadHeader) (Hlim : hh_IndexLimit h = cf_IndexLimit c) (Hgen : hh_Generation h = generation).
Context (Hil : 2 ≤ cf_IndexLimit c ≤ 1024).

(** The pages a push creates, from [level] upwards. *)
Definition page_new (level : Z) (o : PageObject) : Prop :=
  level ≤ po_Level o ≤ MaxIndexLevel ∧ sealed c generation (po_Level o) (po_Ref o) o.

Record push_pre (level : Z) (ss : list OpenIndexSection) (ref : IndexEntry) : Prop := {
  pp_level : 1 ≤ level ≤ 64;
  pp_sections : sections_ok h 1 ss;
  pp_len : (length ss ≤ 64)%nat;
  pp_below : ∀ j s, (j < Z.to_nat (level - 1))%nat → ss !! j = Some s → os_Entries s = [];
  pp_chain : chain (refs_of ss ++ [ref]) }.

(** The new sections hold the old references and the pushed one, as a chain with
    the same ends and count and, once the pages are stored, the same content. *)
Record push_good (ss : list OpenIndexSection) (ref : IndexEntry) (new : list PageObject) (ss' : list OpenIndexSection)
    : Prop := {
  pg_sections : sections_ok h 1 ss';
  pg_len : (length ss' ≤ 64)%nat;
  pg_chain : chain (refs_of ss');
  pg_lo : lo <$> head (refs_of ss') = lo <$> head (refs_of ss ++ [ref]);
  pg_hi : hi <$> last (refs_of ss') = Some (hi ref);
  pg_segments : refs_segments (refs_of ss') = refs_segments (refs_of ss) + ie_SegmentCount ref;
  pg_rep : ∀ pages ess es,
    (∀ o, o ∈ new → pages (po_Key o) = Ok (po_Body o)) →
    Forall2 (ref_rep c pages writerEpoch) (refs_of ss) ess → ref_rep c pages writerEpoch ref es →
    ∃ ess', Forall2 (ref_rep c pages writerEpoch) (refs_of ss') ess' ∧ concat ess' = concat ess ++ es }.

(** Every section from [level] up to the last one is full. *)
Definition full_from (level : Z) (ss : list OpenIndexSection) : Prop :=
  ∀ j, level ≤ j ≤ 64 → ∃ s, ss !! Z.to_nat (j - 1) = Some s ∧ len (os_Entries s) + 1 = cf_IndexLimit c.

(** The section of [level], with those below and above it. *)
Lemma push_split level ss ref :
  push_pre level ss ref →
  ∃ lower s higher, grow_sections (Z.to_nat level - length ss) ss = lower ++ s :: higher ∧
    length lower = Z.to_nat (level - 1) ∧ refs_of ss = refs_of higher ++ os_Entries s ∧
    refs_of lower = [] ∧ sections_ok h 1 (lower ++ s :: higher) ∧ (length (lower ++ s :: higher) ≤ 64)%nat ∧
    os_Level s = level ∧ Forall (λ s, os_Entries s = []) lower ∧
    (∀ j s', (lower ++ s :: higher) !! j = Some s' → os_Entries s' ≠ [] → ss !! j = Some s').
Proof.
  intros [Hlv Hss Hl Hb Hc].
  destruct (grow_sections_spec h (Z.to_nat level - length ss) ss) as (k & -> & Hk & He & Hok); [lia|lia|done|].
  set (i := Z.to_nat (level - 1)). assert (Hi : (i < length (ss ++ k))%nat) by (rewrite length_app; lia).
  apply lookup_lt_is_Some in Hi as [s Hs].
  exists (take i (ss ++ k)), s, (drop (S i) (ss ++ k)). rewrite take_drop_middle by done.
  assert (Hlow : Forall (λ s, os_Entries s = []) (take i (ss ++ k))).
  { apply Forall_lookup. intros j s' Hj. apply lookup_take_Some in Hj as [Hj Hji].
    apply lookup_app_Some in Hj as [Hj|[_ Hj]]; [by eapply Hb|]. by eapply (Forall_lookup_1 _ _ _ _ He). }
  assert (HR : refs_of ss = refs_of (ss ++ k)) by (by rewrite refs_of_app, (refs_of_empty _ He)).
  split; [done|]. split; [rewrite length_take; rewrite length_app in *; apply lookup_lt_Some in Hs; rewrite length_app in Hs; lia|].
  split; [rewrite HR, <- (take_drop_middle _ _ _ Hs) at 1; by rewrite refs_of_app, refs_of_cons, (refs_of_empty _ Hlow), app_nil_r|].
  split; [by apply refs_of_empty|]. split; [done|]. split; [rewrite length_app; lia|].
  split; [|split; [done|]].
  - destruct (proj1 (sections_ok_lookup h 1 _) Hok i s Hs) as (E & _). rewrite E. lia.
  - intros j s' Hj Hne. apply lookup_app_Some in Hj as [Hj|[_ Hj]]; [done|]. by rewrite (Forall_lookup_1 _ _ _ _ He Hj) in Hne.
Qed.
Lemma section_replace lower s s' higher level :
  sections_ok h 1 (lower ++ s :: higher) → length lower = Z.to_nat (level - 1) → 1 ≤ level →
  section_ok h level s' → sections_ok h 1 (lower ++ s' :: higher).
Proof.
  intros Hok Hl Hlv Hs'. apply sections_ok_lookup. intros i x Hi. apply lookup_app_Some in Hi as [Hi|[Hge Hi]].
  - apply (proj1 (sections_ok_lookup h 1 _) Hok). by apply lookup_app_l_Some.
  - destruct (i - length lower)%nat as [|k] eqn:Ek; cbn in Hi.
    + injection Hi as <-. by replace (1 + Z.of_nat i) with level by lia.
    + apply (proj1 (sections_ok_lookup h 1 _) Hok). rewrite lookup_app_r, Ek by lia. done.
Qed.

Lemma push_zero fuel level ss ref pages0 :
  push_pre level ss ref → ie_PageID ref = zeros 16 → (0 < fuel)%nat →
  ∃ r, push_fuel fuel c generation writerEpoch ss level ref pages0 = (pages0, r) ∧
       ∀ ss', r = Ok ss' → ref ∈ refs_of ss'.
Proof.
  intros Hp Hz Hf. destruct fuel as [|fuel]; [lia|]. cbn [push_fuel]. destruct (pp_level _ _ _ Hp) as [H1 H64].
  rewrite (proj2 (Z.eqb_neq level 0)), (proj2 (Z.ltb_ge MaxOpenIndexLevel level)) by (unfold MaxOpenIndexLevel, MaxIndexLevel; lia).
  destruct (push_split _ _ _ Hp) as (lower & s & higher & -> & Hl & HR & Hlow & Hok & Hlen & Hs & _). cbn [orb]. cbv zeta.
  rewrite <- Hl, list_lookup_total_middle by done. destruct (_ && _); [by eexists|].
  rewrite insert_app_r_alt, Nat.sub_diag by lia. cbn [insert list_insert]. destruct (_ <? _).
  - eexists. split; [done|]. intros ss' [= <-]. rewrite refs_of_app, refs_of_cons. cbn [os_Entries].
    rewrite !elem_of_app. left. right. right. by left.
  - destruct (sealIndex _ _ _ _ _) as [[parent object]|e] eqn:E; [|by eexists].
    apply (sealIndex_zero c generation writerEpoch), Forall_app in E as [_ E]. by apply Forall_cons in E as [E _].
Qed.

(** A good push of the sealed parent is a good push of the reference. *)
Lemma push_good_seal level ss ss' higher entries ref parent object new ss2 :
  push_good ss' parent new ss2 → refs_of ss' = refs_of higher → refs_of ss = refs_of higher ++ entries →
  expands parent (entries ++ [ref]) → ie_SegmentCount parent = refs_segments (entries ++ [ref]) →
  sealed c generation level parent object →
  (∀ pages epoch ess, pages (po_Key object) = Ok (po_Body object) → writerEpoch ≤ epoch →
     Forall2 (ref_rep c pages writerEpoch) (entries ++ [ref]) ess → ref_rep c pages epoch parent (concat ess)) →
  push_good ss ref (object :: new) ss2.
Proof.
  intros [HS HL HC Hlo Hhi Hseg Hrep] HR' HR HX Hcnt _ Hpar. destruct (chain_expands_ends (refs_of higher) parent _ HX) as [E1 E2].
  constructor; try done.
  - rewrite Hlo, HR', E1, HR. by rewrite app_assoc.
  - destruct HX as (_ & _ & Hx & _). rewrite last_snoc in Hx. cbn in Hx. rewrite Hhi. cbn. congruence.
  - rewrite Hseg, HR', HR, Hcnt. unfold refs_segments. rewrite !sumZ_app. cbn [sumZ]. lia.
  - intros pages ess es Hst HF HRr. rewrite HR in HF. apply Forall2_app_inv_l in HF as (ess1 & ess2 & HF1 & HF2 & ->).
    destruct (Hrep pages ess1 (concat (ess2 ++ [es]))) as (ess' & HF' & E).
    + intros o Ho. apply Hst. by right.
    + by rewrite HR'.
    + apply Hpar; [apply Hst; by left|lia|]. by apply Forall2_app; [|constructor].
    + exists ess'. split; [done|]. rewrite E, !concat_app. cbn. by rewrite app_nil_r, app_assoc.
Qed.

Lemma push_spec fuel level ss ref pages0 :
  push_pre level ss ref → ref_at level generation ref → (Z.to_nat (65 - level) ≤ fuel)%nat →
  ∃ new r, push_fuel fuel c generation writerEpoch ss level ref pages0 = (pages0 ++ new, r) ∧
    Forall (page_new level) new ∧ NoDup (map po_Level new) ∧
    ((∃ ss', r = Ok ss' ∧ push_good ss ref new ss') ∨ (r = Err [ErrIndexFull] ∧ full_from level ss) ∨
     (∃ o, o ∈ new ∧ ie_PageID (po_Ref o) = zeros 16 ∧ ∀ ss', r = Ok ss' → po_Ref o ∈ refs_of ss')).
Proof.
  revert level ss ref pages0; induction fuel as [|fuel IH]; intros level ss ref pages0 Hp Hr Hf;
    destruct (pp_level _ _ _ Hp) as [H1 H64]; [lia|]. cbn [push_fuel].
  rewrite (proj2 (Z.eqb_neq level 0)), (proj2 (Z.ltb_ge MaxOpenIndexLevel level)) by (unfold MaxOpenIndexLevel, MaxIndexLevel; lia).
  pose proof (pp_chain _ _ _ Hp) as Hc.
  destruct (push_split _ _ _ Hp) as (lower & s & higher & -> & Hl & HR & Hlow & Hok & Hlen & Hs & Hle & Hold). cbn [orb]. cbv zeta beta.
  rewrite <- Hl, list_lookup_total_middle by done.
  assert (Hsec : section_ok h level s).
  { replace level with (1 + Z.of_nat (length lower)) by lia. apply (proj1 (sections_ok_lookup h 1 _) Hok). by apply list_lookup_middle. }
  destruct Hsec as (_ & Hn & Hrs). rewrite Hlim in Hn. rewrite Hgen in Hrs.
  assert (Hcnt : len (os_Entries s ++ [ref]) = len (os_Entries s) + 1) by (unfold len; rewrite length_app; cbn; lia).
  pose proof (len_nonneg (os_Entries s)).
  rewrite !insert_app_r_alt, !Nat.sub_diag by lia. cbn [insert list_insert].
  rewrite Hcnt, uint32_id by (unfold_widths; lia).
  destruct ((level =? MaxOpenIndexLevel) && (cf_IndexLimit c <=? len (os_Entries s) + 1)) eqn:Efull.
  { (* the terminal section is full *)
    apply andb_true_iff in Efull as [E1 E2]. bool_to_prop. unfold MaxOpenIndexLevel, MaxIndexLevel in E1.
    exists [], (Err [ErrIndexFull]). rewrite app_nil_r. split; [done|]. split; [constructor|]. split; [constructor|].
    right. left. split; [done|]. intros j Hj. replace j with level by lia. exists s. split; [|lia].
    rewrite <- Hl. apply Hold; [by apply list_lookup_middle|]. intros E. rewrite E in *. unfold len in *; cbn in *. lia. }
  destruct (Z.ltb_spec (len (os_Entries s) + 1) (cf_IndexLimit c)) as [Hlt|Hge].
  { (* room in the section *)
    exists [], (Ok (lower ++ {| os_Level := os_Level s; os_Entries := os_Entries s ++ [ref] |} :: higher)). rewrite app_nil_r.
    split; [done|]. split; [constructor|]. split; [constructor|]. left. eexists. split; [done|].
    assert (HR' : refs_of (lower ++ {| os_Level := os_Level s; os_Entries := os_Entries s ++ [ref] |} :: higher) = refs_of ss ++ [ref]).
    { rewrite refs_of_app, refs_of_cons, Hlow, app_nil_r, HR. cbn [os_Entries]. by rewrite app_assoc. }
    constructor; rewrite ?HR'; try done.
    - eapply section_replace; [exact Hok|done|done|]. split; [done|]. cbn [os_Entries]. rewrite Hcnt, Hlim, Hgen. split; [done|].
      apply Forall_app. split; [done|by constructor].
    - rewrite length_app in *. cbn in *. lia.
    - by rewrite last_snoc.
    - unfold refs_segments. rewrite sumZ_app. cbn [sumZ]. lia.
    - intros pages ess es _ HF HRr. exists (ess ++ [es]). split; [by apply Forall2_app; [|constructor]|].
      rewrite concat_app. cbn. by rewrite app_nil_r. }
  (* the section is full: it is sealed and the parent pushed one level up *)
  apply andb_false_iff in Efull. unfold MaxOpenIndexLevel, MaxIndexLevel in Efull.
  assert (Hlv : 0 < level ≤ MaxIndexLevel) by (unfold MaxIndexLevel; destruct Efull as [E|E]; bool_to_prop; lia).
  rewrite HR, <- app_assoc in Hc. pose proof Hc as Hc'. apply chain_app in Hc' as (_ & Hce & _).
  destruct (sealIndex_spec c generation writerEpoch Hso level (os_Entries s ++ [ref]))
    as (parent & object & -> & Hsl & HX & Hseg & Hrep); [done|apply Forall_app; by split; [|constructor]|done|by destruct (os_Entries s)|lia|].
  set (ss' := lower ++ {| os_Level := os_Level s; os_Entries := [] |} :: higher).
  assert (HR' : refs_of ss' = refs_of higher).
  { unfold ss'. rewrite refs_of_app, refs_of_cons, Hlow, app_nil_r. apply app_nil_r. }
  assert (Hp' : push_pre (level + 1) ss' parent).
  { unfold MaxIndexLevel in Hlv. constructor; [lia| | | |].
    - eapply section_replace; [exact Hok|done|done|]. split; [done|]. split; [rewrite Hlim; unfold len; cbn [os_Entries length]; lia|constructor].
    - unfold ss'. rewrite length_app in *. cbn in *. lia.
    - intros j x Hj Hx. unfold ss' in Hx. apply lookup_app_Some in Hx as [Hx|[Hg Hx]]; [by eapply (Forall_lookup_1 _ _ _ _ Hle)|].
      replace (j - length lower)%nat with 0%nat in Hx by lia. by injection Hx as <-.
    - rewrite HR'. eapply chain_collapse; [exact Hc|exact HX|exact (expands_range_ok parent _ HX)]. }
  rewrite uint8_id by (unfold_widths; unfold MaxIndexLevel in Hlv; lia).
  pose proof Hsl as (Hpl & Hpg & Hpt & Hpv & Hkey & Hol & Hor).
  assert (Hpn : page_new level object) by (rewrite <- Hor, <- Hol in Hsl; split; [lia|done]).
  destruct (decide (ie_PageID parent = zeros 16)) as [Hz|Hz].
  { destruct (push_zero fuel (level + 1) ss' parent (pages0 ++ [object]) Hp' Hz ltac:(lia)) as (r & -> & Hin).
    exists [object], r. split; [done|]. split; [by constructor|]. split; [cbn; apply NoDup_singleton|]. right. right.
    exists object. split; [by left|]. by rewrite Hor. }
  destruct (IH (level + 1) ss' parent (pages0 ++ [object]) Hp') as (new & r & -> & HN & HD & Hcase);
    [split; [by apply Hpv|lia]|lia|].
  exists (object :: new), r. rewrite <- app_assoc. split; [done|].
  split; [constructor; [done|]; eapply Forall_impl; [exact HN|]; intros o [? ?]; split; [lia|done]|].
  split.
  { cbn. constructor; [|done]. intros Hin. apply list_elem_of_fmap in Hin as (o & Ho & Hin).
    apply (proj1 (Forall_forall _ _) HN) in Hin as [? _]. lia. }
  destruct Hcase as [(ss2 & -> & HG)|[[-> HFull]|(o & Ho & Hoz & Hin)]].
  - left. exists ss2. split; [done|]. eapply push_good_seal; [exact HG|done..].
  - right. left. split; [done|]. intros j Hj. destruct (decide (j = level)) as [->|].
    + exists s. split; [|lia]. rewrite <- Hl. apply Hold; [by apply list_lookup_middle|]. intros E. rewrite E in *. unfold len in *; cbn in *. lia.
    + destruct (HFull j ltac:(lia)) as (x & Hx & Hxn). exists x. split; [|done].
      apply Hold; [|intros E; rewrite E in *; unfold len in *; cbn in *; lia].
      unfold ss' in Hx. rewrite lookup_app_r in * by lia.
      destruct (Z.to_nat (j - 1) - length lower)%nat as [|k] eqn:Ek; [lia|]. exact Hx.
  - right. right. exists o. split; [by right|done].
Qed.
End push.

(** ** Appending a segment *)
Lemma leafEntry_inv c seg entry :
  SegmentRef_typed seg → leafEntry c seg = Ok entry → leaf_valid entry ∧ segmentRef c entry = seg.
Proof.
  intros Ht HL. pose proof Ht as Ht'. unfold leafEntry in HL. inv_ok. bool_to_prop.
  destruct (SegmentRef_Validate_inv _ Ht Hbind) as ([Hr Hts] & Hm & _ & Hrc & Hep).
  unfold SegmentRef_Validate in Hbind. cbv zeta in Hbind. inv_ok. bool_to_prop.
  unfold SegmentRef_typed in Ht'. cbn [lo hi tmin tmax SegmentRef_Ranged] in *. typed_fields. split.
  - split; [by unfold LeafEntry_typed; cbn; repeat match goal with |- ?P ∧ _ => split end|].
    unfold validateLeafEntry, isZero16, SegFormat.MaxRecordLSN, MaxRecordLSN in *. cbv zeta.
    cbn [le_LastLSN le_BaseLSN le_RecordCount le_MaxTimestampMS le_MinTimestampMS le_BlockCount le_SizeBytes
         le_BlockIndexLength le_Codec le_HashAlgo le_WriterEpoch le_SegmentUUID le_WriterTag].
    rewrite (proj2 (Z.ltb_ge (sr_LastLSN seg) _)), (proj2 (Z.ltb_ge (MaxUint64 - 1) _)) by lia. cbn [orb].
    assert (is_u32 (sr_RecordCount seg)) as Hu by done. unfold_widths.
    rewrite (Z.mod_small (sr_LastLSN seg - sr_BaseLSN seg)), Z.mod_small by lia.
    rewrite (proj2 (Z.ltb_ge MaxUint32 _)), (proj2 (Z.eqb_neq (sr_RecordCount seg) 0)) by lia.
    rewrite (proj2 (Z.eqb_eq (sr_RecordCount seg) _)) by lia. cbn [orb negb].
    rewrite (proj2 (Z.ltb_ge (sr_MaxTimestampMS seg) _)) by lia.
    rewrite !(proj2 (Z.eqb_neq _ 0)) by done. rewrite Hbind, Hbind0. cbn [mask_err mbind result_bind].
    by rewrite !bool_decide_false by done.
  - destruct seg; unfold segmentRef; cbn in *; by subst.
Qed.

(** The conditions [Append] checks before it builds the new head. *)
Record append_checks (c : Config) (head : Head) (seg : SegmentRef) (entry : LeafEntry) : Prop := {
  ac_config : validateConfigHead c head = Ok ();
  ac_generation : hh_Generation (hd_Header head) ≠ MaxUint64;
  ac_entry : leafEntry c seg = Ok entry;
  ac_fenced : hh_WriterEpoch (hd_Header head) ≠ 0;
  ac_epoch : le_WriterEpoch entry = hh_WriterEpoch (hd_Header head);
  ac_tag : le_WriterTag entry = hh_WriterID (hd_Header head);
  ac_base : le_BaseLSN entry = hh_NextLSN (hd_Header head);
  ac_time : HasLastSegment head = true → le_MaxTimestampMS (hd_LastSegment head) ≤ le_MinTimestampMS entry }.

(** The lists [Append] puts in the new head: the entry joins the active leaves,
    which are sealed and pushed when there are [LeafLimit] of them. *)
Definition append_lists `{XXHash} (c : Config) (head : Head) (entry : LeafEntry)
    : list PageObject * result (list LeafEntry * list OpenIndexSection) :=
  let generation := uint64 (hh_Generation (hd_Header head) + 1) in
  let epoch := hh_WriterEpoch (hd_Header head) in
  let active := hd_Active head ++ [entry] in
  if uint32 (len active) =? cf_LeafLimit c then
    match sealLeaf c generation epoch active with
    | Err e => ([], Err e)
    | Ok (ref, object) =>
        let '(pages, pushed) := push c generation epoch (hd_Sections head) 1 ref [object] in
        (pages, sections ← pushed; Ok ([], sections))
    end
  else ([], Ok (active, hd_Sections head)).

(** [Append] is its checks, then its lists, then marshalling. *)
Lemma Append_checked `{XXHash} c head seg entry :
  append_checks c head seg entry →
  Append c head seg =
  '(active, sections) ← (append_lists c head entry).2;
  body ← MarshalHead (append_head head entry active sections);
  Ok {| mu_Head := append_head head entry active sections; mu_HeadBody := body;
        mu_Pages := (append_lists c head entry).1 |}.
Proof.
  intros [E1 E2 E3 E4 E5 E6 E7 E8]. unfold Append. rewrite E1. cbn [mbind result_bind].
  rewrite (proj2 (Z.eqb_neq _ _) E2), E3. cbn [mbind result_bind].
  rewrite (proj2 (Z.eqb_neq _ _) E4), E5, E6, E7, !Z.eqb_refl, bool_decide_true by done. cbn [negb orb].
  replace (HasLastSegment head && (le_MinTimestampMS entry <? le_MaxTimestampMS (hd_LastSegment head))) with false.
  2: { symmetry. destruct (HasLastSegment head); [|done]. apply Z.ltb_ge. auto. }
  unfold append_lists. cbv zeta. destruct (_ =? _); [|done].
  destruct (sealLeaf _ _ _ _) as [[ref object]|e]; [|done]. cbn [mbind result_bind].
  destruct (push _ _ _ _ _ _ _) as [pages [sections|e]]; done.
Qed.

Lemma Append_inv `{XXHash} c head seg m : Append c head seg = Ok m → ∃ entry, append_checks c head seg entry.
Proof.
  unfold Append. cbv zeta. intros HA. inv_ok. clear HA. exists x. bool_to_prop. constructor; try done.
  intros Hl. rewrite Hl in *. cbn [andb] in *. by bool_to_prop.
Qed.

Lemma validateConfigHead_inv c head :
  validateConfigHead c head = Ok () →
  hh_Partition (hd_Header head) = cf_Partition c ∧ hh_StreamKey (hd_Header head) = cf_StreamKey c ∧
  hh_DataRootKey (hd_Header head) = cf_DataRootKey c ∧ hh_LeafLimit (hd_Header head) = cf_LeafLimit c ∧
  hh_IndexLimit (hd_Header head) = cf_IndexLimit c ∧ hh_HashAlgo (hd_Header head) = cf_HashAlgo c ∧
  hh_SegmentLayoutVersion (hd_Header head) = 1.
Proof. unfold validateConfigHead. cbv zeta. intros HV. inv_ok. bool_to_prop. by split_and!. Qed.

Lemma ref_at_mono level g g' e : g ≤ g' → ref_at level g e → ref_at level g' e.
Proof. intros Hg (Hv & Hl & He). split; [done|]. split; [done|lia]. Qed.

Lemma sections_ok_mono h h' level ss :
  hh_IndexLimit h = hh_IndexLimit h' → hh_Generation h ≤ hh_Generation h' → sections_ok h level ss → sections_ok h' level ss.
Proof.
  intros El Hg. rewrite !sections_ok_lookup. intros Hs i s Hi. destruct (Hs i s Hi) as (H1 & H2 & H3).
  split; [done|]. split; [by rewrite <- El|]. eapply Forall_impl; [exact H3|]. intros e. by apply ref_at_mono.
Qed.

Lemma sections_typed h ss : sections_ok h 1 ss → (length ss ≤ 64)%nat → Forall OpenIndexSection_typed ss.
Proof.
  intros Hs Hl. apply Forall_lookup. intros i s Hi. pose proof (lookup_lt_Some _ _ _ Hi).
  destruct (proj1 (sections_ok_lookup h 1 ss) Hs i s Hi) as (E & _ & HR). split; [rewrite E; unfold_widths; lia|].
  eapply Forall_impl; [exact HR|]. by intros e ([? _] & _).
Qed.

Lemma Sorted_snoc {A} (R : A → A → Prop) l a :
  Sorted R l → (∀ b, last l = Some b → R b a) → Sorted R (l ++ [a]).
Proof.
  intros Hs. induction Hs as [|b l Hs IH Hh]; intros Hl; cbn [app]; [repeat constructor|].
  constructor.
  - apply IH. intros b' Hb'. apply Hl. by destruct l.
  - destruct l as [|d l]; cbn; constructor; [by apply Hl|]. by apply HdRel_inv in Hh.
Qed.

Lemma headRoots_split head : headRoots head = map RefRoot (refs_of (hd_Sections head)) ++ map LeafRoot (hd_Active head).
Proof. done. Qed.

Lemma head_segments head :
  sumZ rt_segments (head_roots head) = refs_segments (refs_of (hd_Sections head)) + len (hd_Active head).
Proof.
  unfold head_roots, refs_segments. fold (refs_of (hd_Sections head)). rewrite sumZ_app. f_equal.
  - induction (refs_of (hd_Sections head)) as [|e l IH]; [done|]. cbn. by rewrite IH.
  - rewrite <- sumZ_const. induction (hd_Active head) as [|e l IH]; [done|]. cbn [map sumZ]. rewrite IH. done.
Qed.

Lemma expands_leaf_roots ref es : expands ref es → expands (RefRoot ref) (map LeafRoot es).
Proof.
  intros (Hc & Hlo & Hhi & Hmin & Hmax). split; [by apply (chain_map LeafRoot)|].
  destruct es as [|e es]; [done|]. change (map LeafRoot (e :: es)) with (LeafRoot <$> (e :: es)).
  rewrite fmap_last. rewrite (last_List_last e es) in *. done.
Qed.

Lemma refs_rep_map `{XXHash} c pages epoch rs ess :
  Forall2 (root_rep c pages epoch) (map RefRoot rs) ess ↔ Forall2 (ref_rep c pages epoch) rs ess.
Proof.
  revert ess; induction rs as [|r rs IH]; intros ess; cbn [map]; (split; intros HF; inversion HF; subst; constructor); try done; by apply IH.
Qed.
Lemma leaves_rep_map `{XXHash} c pages epoch ls ess :
  Forall2 (root_rep c pages epoch) (map LeafRoot ls) ess → concat ess = ls.
Proof.
  revert ess; induction ls as [|e ls IH]; intros ess HF; cbn [map] in HF; inversion HF as [|? x ? k Hr HF']; subst; [done|].
  cbn in Hr. subst x. cbn. f_equal. by apply IH.
Qed.

Section append.
Context `{XXHash} (c : Config) (pages : PageSource) (head : Head) (es : list LeafEntry).
Context (seg : SegmentRef) (entry : LeafEntry) (HR : catalog_rep c pages head es).
Context (HC : append_checks c head seg entry) (Hseg : SegmentRef_typed seg).
Let hdr := hd_Header head.
Let generation := uint64 (hh_Generation hdr + 1).

Lemma entry_valid : leaf_valid entry.
Proof. by apply (leafEntry_inv c seg), (ac_entry _ _ _ _ HC). Qed.

Lemma next_generation : generation = hh_Generation hdr + 1 ∧ 0 < generation ≤ MaxUint64.
Proof.
  pose proof (cr_typed _ _ _ _ HR) as (Ht & _). pose proof (ac_generation _ _ _ _ HC). unfold HeadHeader_typed in Ht. typed_fields.
  unfold generation, hdr in *. rewrite uint64_id by (unfold_widths; lia). unfold_widths. lia.
Qed.

Lemma append_seal_ok : seal_ok c generation (hh_WriterEpoch hdr).
Proof.
  pose proof (cr_typed _ _ _ _ HR) as (Ht & _). unfold HeadHeader_typed in Ht. typed_fields. pose proof (cr_ok _ _ _ _ HR) as Hk.
  destruct (validateConfigHead_inv _ _ (cr_config _ _ _ _ HR)) as (E1 & E2 & E3 & E4 & E5 & E6 & _).
  pose proof (ac_fenced _ _ _ _ HC). destruct next_generation.
  constructor; rewrite <- ?E1, <- ?E2, <- ?E6; try done; try apply Hk. unfold hdr. unfold_widths. lia.
Qed.

Lemma last_root_time r : last (headRoots head) = Some r → tmax r ≤ le_MinTimestampMS entry.
Proof.
  intros Hr. destruct HR as [_ Hk _ (ess & HF & Ees) Hlast]. destruct (roots_expand _ _ _ _ Hk HF) as [HX _].
  destruct (expands_ends _ _ HX) as (_ & _ & _ & Emax). rewrite Hr in Emax. rewrite <- Ees in *.
  destruct (last es) as [e|] eqn:El; [|done]. cbn in Emax. injection Emax as Emax. cbn [tmax headRoot_Ranged]. rewrite <- Emax, (Hlast e eq_refl).
  apply (ac_time _ _ _ _ HC). destruct (HasLastSegment head) eqn:Eh; [done|].
  destruct (headRoots_ends _ Hk) as (_ & _ & _ & Hn). by rewrite (Hn Eh) in Hr.
Qed.

(** The entry extends the chain of roots. *)
Lemma append_roots_chain : chain (headRoots head ++ [LeafRoot entry]).
Proof.
  pose proof (cr_ok _ _ _ _ HR) as Hk. apply chain_snoc. split; [by apply headRoots_chain|].
  split; [by destruct (leaf_valid_inv _ entry_valid) as (? & _)|]. intros r Hr. pose proof (last_root_time r Hr).
  destruct (headRoots_ends _ Hk) as (_ & Hl & _). specialize (Hl r Hr). pose proof (ac_base _ _ _ _ HC).
  cbn in *. split; cbn; [lia|done].
Qed.

Lemma append_leaves : leaves_ok (hd_Active head ++ [entry]) ∧
  Forall (λ e, le_WriterEpoch e ≤ hh_WriterEpoch hdr) (hd_Active head ++ [entry]).
Proof.
  pose proof (cr_ok _ _ _ _ HR) as Hk. destruct (hk_active _ Hk) as [Ha Hs]. pose proof append_roots_chain as Hc.
  pose proof (ac_epoch _ _ _ _ HC) as He.
  assert (HE : Forall (λ e, le_WriterEpoch e ≤ hh_WriterEpoch hdr) (hd_Active head ++ [entry])).
  { apply Forall_app. split; [eapply Forall_impl; [exact Ha|]; by intros ? [_ ?]|]. constructor; [unfold hdr; lia|constructor]. }
  split; [|done]. split; [|split].
  - apply Forall_app. split; [eapply Forall_impl; [exact Ha|]; by intros ? [? _]|]. constructor; [apply entry_valid|constructor].
  - rewrite headRoots_split, <- app_assoc in Hc. apply chain_app in Hc as (_ & Hc & _).
    change [LeafRoot entry] with (map LeafRoot [entry]) in Hc. rewrite <- map_app in Hc. by apply (chain_map LeafRoot) in Hc.
  - apply Sorted_snoc; [done|]. intros b Hb. unfold epoch_le. rewrite He.
    apply Forall_app in HE as [HE _]. apply (proj1 (Forall_forall _ _) HE).
    rewrite last_lookup in Hb. by eapply list_elem_of_lookup_2.
Qed.

(** What the lists of the new head satisfy. *)
Record lists_good (new : list PageObject) (active : list LeafEntry) (ss : list OpenIndexSection) : Prop := {
  lg_sections : sections_ok (hd_Header (append_head head entry active ss)) 1 ss;
  lg_sections_len : (length ss ≤ 64)%nat;
  lg_active_len : len active < cf_LeafLimit c;
  lg_active : Forall leaf_valid active ∧ Forall (λ e, le_WriterEpoch e ≤ hh_WriterEpoch hdr) active ∧ Sorted epoch_le active;
  lg_last : ∀ l, last active = Some l → l = entry;
  lg_chain : chain (headRoots (append_head head entry active ss));
  lg_lo : lo <$> list.head (headRoots (append_head head entry active ss)) =
          lo <$> list.head (headRoots head ++ [LeafRoot entry]);
  lg_hi : hi <$> last (headRoots (append_head head entry active ss)) = Some (le_LastLSN entry);
  lg_segments : refs_segments (refs_of ss) + len active = hh_ReachableSegmentCount hdr + 1;
  lg_rep : ∀ pages',
    (∀ o, o ∈ new → pages' (po_Key o) = Ok (po_Body o)) →
    (∀ ref rs, RefRoot ref ∈ headRoots head → ref_rep c pages (hh_WriterEpoch hdr) ref rs →
               ref_rep c pages' (hh_WriterEpoch hdr) ref rs) →
    ∃ ess, Forall2 (root_rep c pages' (hh_WriterEpoch hdr)) (headRoots (append_head head entry active ss)) ess ∧
           concat ess = es ++ [entry] }.

Lemma append_header active ss :
  hh_IndexLimit hdr = hh_IndexLimit (hd_Header (append_head head entry active ss)) ∧
  hh_Generation (hd_Header (append_head head entry active ss)) = generation.
Proof. done. Qed.

Lemma old_sections active ss' : sections_ok (hd_Header (append_head head entry active ss')) 1 (hd_Sections head).
Proof.
  eapply sections_ok_mono; [|..|exact (hk_sections _ (cr_ok _ _ _ _ HR))]; [done|].
  destruct (append_header active ss') as [_ ->]. destruct next_generation. unfold hdr in *. lia.
Qed.

Lemma reachable_split : refs_segments (refs_of (hd_Sections head)) + len (hd_Active head) = hh_ReachableSegmentCount hdr.
Proof. rewrite <- head_segments. apply (hk_reachable _ (cr_ok _ _ _ _ HR)). Qed.

Lemma len_snoc {A} (l : list A) a : len (l ++ [a]) = len l + 1.
Proof. unfold len. rewrite length_app. cbn. lia. Qed.

(** The leaf limit is not reached: only the active leaves change. *)
Lemma lists_good_open :
  len (hd_Active head) + 1 < cf_LeafLimit c → lists_good [] (hd_Active head ++ [entry]) (hd_Sections head).
Proof.
  intros Hlt. destruct append_leaves as [(Hv & _ & Hs) He]. pose proof append_roots_chain as Hc.
  assert (E : headRoots (append_head head entry (hd_Active head ++ [entry]) (hd_Sections head)) = headRoots head ++ [LeafRoot entry]).
  { rewrite !headRoots_split. cbn [append_head hd_Active hd_Sections]. by rewrite map_app, app_assoc. }
  constructor; rewrite ?E; try done.
  - apply old_sections.
  - pose proof (hk_sections_len _ (cr_ok _ _ _ _ HR)). unfold len in *. lia.
  - by rewrite len_snoc.
  - intros l. rewrite last_snoc. by intros [= <-].
  - by rewrite last_snoc.
  - rewrite len_snoc. pose proof reachable_split. lia.
  - intros pages' _ Hold. destruct (cr_roots _ _ _ _ HR) as (ess & HF & Ees). exists (ess ++ [[entry]]). split.
    + apply Forall2_app; [|by constructor].
      eapply (Forall2_strengthen (.∈ headRoots head)); [by apply Forall_forall|exact HF|].
      intros [ref|leaf] rs Hin Hrep; [by apply Hold|done].
    + rewrite concat_app, <- Ees. done.
Qed.

(** The active leaves are sealed and the reference is pushed. *)
Lemma lists_good_seal ref object new ss :
  expands ref (hd_Active head ++ [entry]) → ie_SegmentCount ref = len (hd_Active head ++ [entry]) →
  (∀ pages epoch, pages (po_Key object) = Ok (po_Body object) → hh_WriterEpoch hdr ≤ epoch →
     page_rep c pages 0 ref epoch (hd_Active head ++ [entry])) →
  ie_Level ref = 0 → 0 < cf_LeafLimit c →
  push_good c (hh_WriterEpoch hdr) (hd_Header (append_head head entry [] [])) (hd_Sections head) ref new ss →
  lists_good (object :: new) [] ss.
Proof.
  intros HX Hcnt Hrep Hlv Hll [PS PL PC Plo Phi Pseg Prep].
  assert (E : headRoots (append_head head entry [] ss) = map RefRoot (refs_of ss)).
  { rewrite headRoots_split. cbn [append_head hd_Active hd_Sections map]. apply app_nil_r. }
  pose proof HX as (_ & Xlo & Xhi & _). rewrite last_snoc in Xhi. cbn in Xhi. injection Xhi as Xhi.
  assert (Hne : ∃ r rs, refs_of ss = r :: rs) by (destruct (refs_of ss) as [|r rs]; [done|eauto]).
  constructor; rewrite ?E; try done.
  - eapply sections_ok_mono; [| |exact PS]; done.
  - by apply (chain_map RefRoot).
  - destruct Hne as (r & rs & Er). rewrite Er in *. cbn [map list.head] in *. cbn in Plo |- *. rewrite Plo.
    rewrite headRoots_split. destruct (refs_of (hd_Sections head)) as [|r0 rs0]; cbn; [|done].
    destruct (hd_Active head); cbn in *; congruence.
  - change (map RefRoot (refs_of ss)) with (RefRoot <$> refs_of ss). rewrite fmap_last.
    destruct (last (refs_of ss)) as [r|]; [|done]. cbn in Phi |- *. rewrite Xhi. done.
  - rewrite Pseg, Hcnt, len_snoc. pose proof reachable_split. unfold len at 2. cbn [length]. lia.
  - intros pages' Hst Hold. destruct (cr_roots _ _ _ _ HR) as (ess & HF & Ees).
    rewrite headRoots_split in HF. apply Forall2_app_inv_l in HF as (ess1 & ess2 & HF1 & HF2 & ->).
    pose proof (leaves_rep_map _ _ _ _ _ HF2) as E2.
    destruct (Prep pages' ess1 (hd_Active head ++ [entry])) as (ess' & HF' & Ec).
    + intros o Ho. apply Hst. by right.
    + apply refs_rep_map in HF1. eapply (Forall2_strengthen (.∈ refs_of (hd_Sections head))); [by apply Forall_forall|exact HF1|].
      intros r rs Hin Hr. apply Hold; [|exact Hr]. rewrite headRoots_split. apply elem_of_app. left. by apply list_elem_of_fmap_2.
    + unfold ref_rep. rewrite Hlv. apply Hrep; [apply Hst; by left|lia].
    + exists ess'. split; [by apply refs_rep_map|]. rewrite Ec, Ees, concat_app, E2. by rewrite app_assoc.
Qed.

Lemma append_push_pre ref :
  expands ref (hd_Active head ++ [entry]) →
  push_pre (hd_Header (append_head head entry [] [])) 1 (hd_Sections head) ref.
Proof.
  intros HX. pose proof (hk_sections_len _ (cr_ok _ _ _ _ HR)) as Hl. constructor; [lia|apply old_sections|unfold len in Hl; lia|intros; lia|].
  pose proof append_roots_chain as Hc. rewrite headRoots_split, <- app_assoc in Hc.
  change [LeafRoot entry] with (map LeafRoot [entry]) in Hc. rewrite <- map_app in Hc.
  apply (chain_map RefRoot); [done..|]. rewrite map_app. eapply chain_collapse; [exact Hc|by apply expands_leaf_roots|].
  exact (expands_range_ok ref _ HX).
Qed.

Lemma append_lists_spec :
  ∃ new r, append_lists c head entry = (new, r) ∧ Forall (page_new c generation 0) new ∧ NoDup (map po_Level new) ∧
    ((∃ active ss, r = Ok (active, ss) ∧ lists_good new active ss) ∨
     (r = Err [ErrIndexFull] ∧ full_from c 1 (hd_Sections head)) ∨
     (∃ o, o ∈ new ∧ ie_PageID (po_Ref o) = zeros 16 ∧ ∀ active ss, r = Ok (active, ss) → po_Ref o ∈ refs_of ss)).
Proof.
  pose proof (cr_ok _ _ _ _ HR) as Hk. destruct (validateConfigHead_inv _ _ (cr_config _ _ _ _ HR)) as (_ & _ & _ & Ell & Eil & _).
  pose proof (hk_active_len _ Hk) as Hal. pose proof (hk_leaf_limit _ Hk) as Hll. pose proof (hk_index_limit _ Hk) as Hil.
  rewrite Ell in Hal, Hll. rewrite Eil in Hil. pose proof (len_nonneg (hd_Active head)).
  unfold append_lists. cbv zeta. fold hdr. fold generation. rewrite len_snoc, uint32_id by (unfold_widths; lia).
  destruct (Z.eqb_spec (len (hd_Active head) + 1) (cf_LeafLimit c)) as [E|E].
  2: { exists [], (Ok (hd_Active head ++ [entry], hd_Sections head)). split; [done|]. split; [constructor|]. split; [constructor|].
       left. do 2 eexists. split; [done|]. apply lists_good_open. lia. }
  destruct append_leaves as [Hlv Hep].
  destruct (sealLeaf_spec c generation (hh_WriterEpoch hdr) append_seal_ok (hd_Active head ++ [entry]) Hlv)
    as (ref & object & -> & Hsl & HX & Hcnt & Hrep); [by destruct (hd_Active head)|rewrite len_snoc; lia|done|].
  pose proof (append_push_pre ref HX) as Hpre. pose proof Hsl as (Hrl & Hrg & Hrt & Hrv & Hkey & Hol & Hor).
  assert (Hpn : page_new c generation 0 object) by (split; [rewrite Hol; unfold MaxIndexLevel; lia|by rewrite Hol, Hor]).
  destruct (append_header [] []) as [Eil' Egen]. unfold hdr in Eil'. rewrite Eil in Eil'.
  unfold push. destruct (decide (ie_PageID ref = zeros 16)) as [Hz|Hz].
  { destruct (push_zero c generation (hh_WriterEpoch hdr) _ (eq_sym Eil') Hil 65 1 _ ref [object] Hpre Hz ltac:(lia)) as (r & -> & Hin).
    eexists _, _. split; [done|]. split; [by constructor|]. split; [apply NoDup_singleton|]. right. right.
    exists object. split; [by left|]. rewrite Hor. split; [done|]. intros active ss Hok. inv_ok. by apply Hin. }
  destruct (push_spec c generation (hh_WriterEpoch hdr) append_seal_ok _ (eq_sym Eil') Egen Hil 65 1 _ ref [object] Hpre)
    as (new & r & -> & HN & HD & Hcase); [split; [by apply Hrv|rewrite Hrg; lia]|lia|].
  eexists _, _. split; [done|]. cbn [app].
  split; [constructor; [done|]; eapply Forall_impl; [exact HN|]; intros o [? ?]; split; [lia|done]|].
  split.
  { cbn. constructor; [|done]. intros Hin. apply list_elem_of_fmap in Hin as (o & Ho & Hin).
    apply (proj1 (Forall_forall _ _) HN) in Hin as [? _]. lia. }
  destruct Hcase as [(ss & -> & HG)|[[-> HFull]|(o & Ho & Hoz & Hin)]].
  - left. do 2 eexists. split; [done|]. apply (lists_good_seal ref object new ss); try done. lia.
  - right. left. by split.
  - right. right. exists o. split; [by right|]. split; [done|]. intros active ss Hok. inv_ok. by apply Hin.
Qed.

(** ** The new head *)
Lemma append_head_typed new active ss : lists_good new active ss → Head_typed (append_head head entry active ss).
Proof.
  intros HG. pose proof (cr_typed _ _ _ _ HR) as (Ht & _). unfold HeadHeader_typed in Ht. typed_fields.
  pose proof (hk_flags _ (cr_ok _ _ _ _ HR)) as Hfl. pose proof entry_valid as [He _]. pose proof He as He'. unfold LeafEntry_typed in He'.
  split; [|split; [done|split]].
  - unfold HeadHeader_typed, append_head; cbn. pose proof (uint64_range (le_LastLSN entry + 1)).
    pose proof (uint64_range (hh_Generation (hd_Header head) + 1)). pose proof (uint64_range (hh_SegmentCount (hd_Header head) + 1)).
    pose proof (uint64_range (hh_ReachableSegmentCount (hd_Header head) + 1)). pose proof (uint32_range (len active)). pose proof (uint32_range (len ss)).
    typed_fields. repeat match goal with |- ?P ∧ _ => split end; try assumption.
    + destruct (HasLastSegment head); [assumption|]. destruct Hfl as [-> | ->]; split; vm_compute; discriminate.
    + destruct (HasLastSegment head); assumption.
  - destruct (lg_active _ _ _ HG) as (Hv & _). eapply Forall_impl; [exact Hv|]. by intros ? [? _].
  - eapply sections_typed; [exact (lg_sections _ _ _ HG)|exact (lg_sections_len _ _ _ HG)].
Qed.

Lemma append_has_last active ss : HasLastSegment (append_head head entry active ss) = true.
Proof.
  unfold HasLastSegment, append_head; cbn. destruct (HasLastSegment head) eqn:E; [exact E|].
  destruct (hk_flags _ (cr_ok _ _ _ _ HR)) as [-> | ->]; done.
Qed.

(** Unless an LSN or a counter is exhausted, the new head is well-formed. *)
Lemma append_head_ok new active ss :
  lists_good new active ss → le_LastLSN entry < MaxRecordLSN → hh_SegmentCount hdr < MaxUint64 →
  head_ok (append_head head entry active ss).
Proof.
  intros HG Hlsn Hcnt. pose proof (cr_ok _ _ _ _ HR) as Hk. pose proof (cr_typed _ _ _ _ HR) as (Ht & _).
  unfold HeadHeader_typed in Ht. typed_fields. pose proof entry_valid as Hev.
  destruct (leaf_valid_inv _ Hev) as ([Hr _] & Hb & _). cbn in Hr. unfold MaxRecordLSN in *.
  pose proof (ac_base _ _ _ _ HC) as Hbase. pose proof (ac_epoch _ _ _ _ HC) as Hep. pose proof (hk_counts _ Hk) as Hc.
  destruct (validateConfigHead_inv _ _ (cr_config _ _ _ _ HR)) as (_ & _ & _ & Ell & _).
  pose proof (lg_active_len _ _ _ HG) as Hal. pose proof (hk_leaf_limit _ Hk). pose proof (lg_sections_len _ _ _ HG) as Hsl.
  pose proof (len_nonneg active). destruct (lg_active _ _ _ HG) as (Av & Ae & As).
  assert (El : uint64 (le_LastLSN entry + 1) = le_LastLSN entry + 1) by (apply uint64_id; unfold_widths; lia).
  assert (Ec : uint64 (hh_SegmentCount hdr + 1) = hh_SegmentCount hdr + 1) by (apply uint64_id; unfold hdr in *; unfold_widths; lia).
  assert (Er : uint64 (hh_ReachableSegmentCount hdr + 1) = hh_ReachableSegmentCount hdr + 1)
    by (apply uint64_id; unfold hdr in *; unfold_widths; lia).
  assert (Ea : uint32 (len active) = len active) by (apply uint32_id; unfold_widths; lia).
  assert (Es : uint32 (len ss) = len ss) by (apply uint32_id; unfold_widths; unfold len; lia).
  pose proof (headRoots_ends _ Hk) as (Hho & _ & Hhn & Hhe). pose proof (hk_oldest _ Hk) as Hold. pose proof (hk_lsn _ Hk).
  assert (HO : hh_OldestLSN (hd_Header (append_head head entry active ss)) =
               match list.head (headRoots head ++ [LeafRoot entry]) with Some r => lo r | None => 0 end).
  { cbn [append_head hd_Header hh_OldestLSN]. destruct (headRoots head) as [|r rs] eqn:ER; cbn [app list.head].
    - destruct (HasLastSegment head); [|done]. cbn. rewrite Hhn by done. done.
    - rewrite (Hho r eq_refl). destruct (HasLastSegment head) eqn:EH; [done|]. by specialize (Hhe eq_refl). }
  pose proof (lg_lo _ _ _ HG) as Glo. pose proof (lg_hi _ _ _ HG) as Ghi.
  pose proof (headRoots_ranges (append_head head entry active ss)) as HRng.
  constructor.
  all: try (apply Hk).
  all: try (rewrite <- HRng).
  - cbn. destruct (HasLastSegment head); [apply Hk|]. destruct (hk_flags _ Hk) as [-> | ->]; cbn; auto.
  - cbn. by rewrite Ell.
  - done.
  - cbn. unfold len. lia.
  - done.
  - rewrite HO. cbn [append_head hd_Header hh_NextLSN]. rewrite El.
    destruct (headRoots head) as [|r rs]; cbn [app list.head]; [cbn; lia|]. rewrite (Hho r eq_refl). unfold hdr in *. lia.
  - cbn. pose proof (hk_retention _ Hk). lia.
  - cbn. fold hdr. rewrite Er, Ec. unfold hdr. lia.
  - apply (lg_sections _ _ _ HG).
  - split; [|exact As]. apply Forall_forall. intros e He. cbn. fold hdr.
    split; [by apply (proj1 (Forall_forall _ _) Av)|by apply (proj1 (Forall_forall _ _) Ae)].
  - apply (chain_map root_range); [by intros []..|]. apply (lg_chain _ _ _ HG).
  - rewrite HO. destruct (headRoots (append_head head entry active ss)) as [|r rs]; cbn [map list.head] in *.
    + destruct (headRoots head); discriminate Glo.
    + destruct (headRoots head ++ [LeafRoot entry]) as [|r' rs']; [done|]. cbn in Glo |- *. injection Glo as Glo. destruct r; cbn in *; congruence.
  - intros r Hrl. change (map root_range ?l) with (root_range <$> l) in Hrl. rewrite fmap_last in Hrl.
    destruct (last (headRoots _)) as [r'|]; [|done]. cbn in Ghi, Hrl. injection Hrl as <-. injection Ghi as Ghi.
    cbn [append_head hd_Header hh_NextLSN]. rewrite El. destruct r'; cbn in *; lia.
  - rewrite HRng, head_segments. cbn [append_head hd_Header hd_Sections hd_Active hh_ReachableSegmentCount]. fold hdr. rewrite Er. apply (lg_segments _ _ _ HG).
  - rewrite append_has_last. cbn [append_head hd_LastSegment hd_Header hh_WriterEpoch hh_SegmentCount hh_NextLSN hd_Active]. fold hdr.
    split; [done|]. split; [unfold hdr; lia|]. split; [rewrite Ec; unfold hdr in *; unfold_widths; lia|]. split; [done|].
    split; [unfold MaxRecordLSN; lia|]. apply (lg_last _ _ _ HG).
Qed.
End append.

(** ** Storing pages *)
Lemma put_fresh objects pages key :
  (∀ o, o ∈ objects → po_Key o ≠ key) → put_pages objects pages key = pages key.
Proof.
  intros Hf. unfold put_pages. replace (List.find _ objects) with (@None PageObject); [done|]. symmetry.
  apply find_None_iff. intros o Ho. apply bool_decide_eq_false. by apply Hf.
Qed.

Lemma put_hit objects pages o :
  NoDup (map po_Key objects) → o ∈ objects → put_pages objects pages (po_Key o) = Ok (po_Body o).
Proof.
  intros HD Ho. unfold put_pages. destruct (List.find _ objects) as [o'|] eqn:E.
  - apply List.find_some in E as [Ho'%list_elem_of_In E]. bool_to_prop.
    replace o' with o; [done|]. apply list_elem_of_lookup_1 in Ho as [i Hi]. apply list_elem_of_lookup_1 in Ho' as [j Hj].
    assert (Hi' : (po_Key <$> objects) !! i = Some (po_Key o)) by (by rewrite list_lookup_fmap, Hi).
    assert (Hj' : (po_Key <$> objects) !! j = Some (po_Key o)) by (rewrite list_lookup_fmap, Hj; cbn; by rewrite E).
    pose proof (NoDup_lookup _ _ _ _ HD Hi' Hj') as ->. congruence.
  - pose proof (proj1 (find_None_iff _ _) E o Ho) as Hn. apply bool_decide_eq_false in Hn. congruence.
Qed.

(** Pages of a later generation leave the represented pages alone. *)
Definition later_pages (c : Config) (generation : Z) (objects : list PageObject) : Prop :=
  ∀ o, o ∈ objects → po_Key o = PagePath c (po_Ref o) ∧ IndexEntry_typed (po_Ref o) ∧
                     ie_Level (po_Ref o) ≤ MaxIndexLevel ∧ generation < ie_Generation (po_Ref o).

Lemma put_later c generation objects pages ref :
  later_pages c generation objects → ref_valid ref → ie_Generation ref ≤ generation →
  put_pages objects pages (PagePath c ref) = pages (PagePath c ref).
Proof.
  intros HL Hv Hg. apply put_fresh. intros o Ho. destruct (HL o Ho) as (-> & Ht & Hlv & Hgo). intros E.
  destruct (ref_valid_inv _ Hv) as (_ & _ & _ & Hl & _). destruct Hv as [Hrt _].
  destruct (PagePath_inj c (po_Ref o) ref Ht Hrt Hlv) as (_ & _ & _ & E' & _); [lia|done|lia].
Qed.

Lemma page_rep_put `{XXHash} c generation objects pages level ref epoch es :
  later_pages c generation objects → ref_valid ref → ie_Generation ref ≤ generation → ie_Level ref = Z.of_nat level →
  page_rep c pages level ref epoch es → page_rep c (put_pages objects pages) level ref epoch es.
Proof.
  intros HL. revert ref epoch es; induction level as [|level IH]; intros ref epoch es Hv Hg Hl HR;
    pose proof (put_later c generation objects pages ref HL Hv Hg) as HP; unfold PagePath in HP; rewrite Hl in HP.
  - change (Z.of_nat 0 =? 0) with true in HP. cbn iota in HP. destruct HR as (page & HLd & ->). exists page. split; [|done]. unfold loadLeaf in *. by rewrite HP.
  - rewrite (proj2 (Z.eqb_neq (Z.of_nat (S level)) 0)) in HP by lia. destruct HR as (page & ess & HLd & -> & HF). exists page, ess.
    destruct (loadIndex_expands _ _ _ _ _ HLd) as (_ & _ & Hrs & _).
    split; [unfold loadIndex in *; by rewrite HP|]. split; [done|].
    eapply Forall2_strengthen; [exact Hrs|exact HF|]. intros e es' (Hev & Hel & Heg) HRe. apply IH; [done|lia|lia|done].
Qed.

Lemma page_new_later c generation g objects :
  g < generation → Forall (page_new c generation 0) objects → later_pages c g objects.
Proof.
  intros Hg HF o Ho. apply (proj1 (Forall_forall _ _) HF) in Ho as [Hl (Elv & Egen & Ht & _ & Ek & _)].
  split; [done|]. split; [done|]. split; lia.
Qed.

Lemma page_new_keys c generation objects :
  Forall (page_new c generation 0) objects → NoDup (map po_Level objects) → NoDup (map po_Key objects).
Proof.
  induction objects as [|o objects IH]; intros HF HD; [constructor|]. apply Forall_cons in HF as [Ho HF]. inversion HD as [|? ? Hn HD']; subst.
  cbn. constructor; [|by apply IH]. intros Hin. apply list_elem_of_fmap in Hin as (o' & E & Hin). apply Hn.
  apply (proj1 (Forall_forall _ _) HF) in Hin as Ho'.
  destruct Ho as [Hl (E1 & _ & Ht & _ & E2 & _)], Ho' as [Hl' (E1' & _ & Ht' & _ & E2' & _)].
  apply list_elem_of_fmap. exists o'. split; [|done]. rewrite <- E1, <- E1'. rewrite E2, E2' in E.
  by destruct (PagePath_inj c (po_Ref o) (po_Ref o') Ht Ht') as (? & _); [lia|lia|done|].
Qed.

Lemma headRoots_generation head ref :
  head_ok head → RefRoot ref ∈ headRoots head → ie_Generation ref ≤ hh_Generation (hd_Header head).
Proof.
  intros Hk Hin. unfold headRoots in Hin.
  apply elem_of_app in Hin as [Hin|Hin]; apply list_elem_of_fmap in Hin as (e & E & He); [|done].
  injection E as ->. destruct (sections_refs _ _ _ _ (hk_sections _ Hk) He) as (l & _ & _ & _ & Hg). done.
Qed.

(** The old head keeps its content when later pages are stored. *)
Lemma catalog_rep_put `{XXHash} c objects pages head es :
  later_pages c (hh_Generation (hd_Header head)) objects →
  catalog_rep c pages head es → catalog_rep c (put_pages objects pages) head es.
Proof.
  intros HL [Ht Hk Hcfg (ess & HF & Ees) Hlast]. constructor; try done. exists ess. split; [|done].
  eapply (Forall2_strengthen (.∈ headRoots head)); [by apply Forall_forall|exact HF|]. intros [ref|leaf] rs Hin Hrep; [|done].
  pose proof (headRoots_ref _ _ Hk Hin) as Hv. destruct (ref_rep_level head ref Hk Hin) as [El _].
  eapply page_rep_put; [exact HL|done| |exact El|exact Hrep]. by apply headRoots_generation.
Qed.

Lemma validateHead_ids head : validateHead head = Ok () → ∀ ref, ref ∈ refs_of (hd_Sections head) → ie_PageID ref ≠ zeros 16.
Proof.
  intros HV. assert (HS : validateHead_sections (hd_Header head) 0 (hd_Sections head) = Ok ()).
  { unfold validateHead in HV. cbv zeta in HV. repeat match goal with
      | H : (if ?c then Err _ else _) = Ok _ |- _ => destruct c; [discriminate H|]
      | H : _ ≫= _ = Ok _ |- _ => apply bind_Ok in H; destruct H as ([] & ? & H); try assumption
      end. }
  clear HV. revert HS. generalize 0. unfold refs_of. induction (hd_Sections head) as [|s ss IH]; intros i HS ref Hin; [by apply elem_of_nil in Hin|].
  cbn [validateHead_sections] in HS. inv_ok. cbn [rev] in Hin. rewrite map_app, concat_app in Hin.
  apply elem_of_app in Hin as [Hin|Hin]; [by eapply IH|]. cbn in Hin. rewrite app_nil_r in Hin.
  clear -Hbind Hin. induction (os_Entries s) as [|e es IH]; [by apply elem_of_nil in Hin|].
  cbn [validateSection_entries] in Hbind. inv_ok. apply elem_of_cons in Hin as [->|Hin]; [|by apply IH].
  unfold validateIndexEntry in Hbind0. cbv zeta in Hbind0. inv_ok. unfold isZero16 in *. by bool_to_prop.
Qed.

(** ** The transitions refine the abstract catalog *)
Lemma append_rep `{XXHash} c pages head es seg m :
  catalog_rep c pages head es → SegmentRef_typed seg → Append c head seg = Ok m →
  ∃ entry, append_checks c head seg entry ∧ segmentRef c entry = seg ∧
    catalog_rep c (put_pages (mu_Pages m) pages) (mu_Head m) (es ++ [entry]) ∧
    later_pages c (hh_Generation (hd_Header head)) (mu_Pages m) ∧
    MarshalHead (mu_Head m) = Ok (mu_HeadBody m) ∧
    hh_Generation (hd_Header (mu_Head m)) = hh_Generation (hd_Header head) + 1 ∧
    hh_WriterEpoch (hd_Header (mu_Head m)) = hh_WriterEpoch (hd_Header head).
Proof.
  intros HR Ht HA. destruct (Append_inv _ _ _ _ HA) as [entry HC]. exists entry. rewrite (Append_checked _ _ _ _ HC) in HA.
  destruct (next_generation c pages head es seg entry HR HC) as [Eg Hg].
  destruct (append_lists_spec c pages head es seg entry HR HC Ht) as (new & r & EL & HN & HD & Hcase).
  rewrite EL in HA. cbn [fst snd] in HA. inv_ok. destruct x as [active ss]. inv_ok.
  assert (HL : later_pages c (hh_Generation (hd_Header head)) new) by (eapply page_new_later; [|exact HN]; lia).
  cbn [mu_Pages mu_Head mu_HeadBody]. split; [done|].
  split; [by apply (leafEntry_inv c seg entry Ht), (ac_entry _ _ _ _ HC)|]. split; [|split; [done|by split_and!]].
  destruct Hcase as [(active' & ss' & [= <- <-] & HG)|[[? _]|(o & Ho & Hz & Hin)]]; [|done|].
  - pose proof (append_head_typed c pages head es seg entry HR HC Ht _ _ _ HG) as HT.
    assert (Hok : head_ok (append_head head entry active ss)).
    { apply validateHead_sound; [done|]. unfold MarshalHead in Hbind0. by inv_ok. }
    constructor; [done|done|..].
    + pose proof (ac_config _ _ _ _ HC) as Hcfg. exact Hcfg.
    + destruct (lg_rep _ _ _ _ _ _ _ _ HG (put_pages new pages)) as (ess & HF & Ec).
      * intros o Ho. apply put_hit; [|done]. by eapply page_new_keys.
      * intros ref rs Hin Hrep.
        pose proof (headRoots_ref _ _ (cr_ok _ _ _ _ HR) Hin) as Hv. destruct (ref_rep_level head ref (cr_ok _ _ _ _ HR) Hin) as [El _].
        eapply page_rep_put; [exact HL|done| |exact El|exact Hrep]. apply headRoots_generation; [apply HR|done].
      * exists ess. by split.
    + intros e. rewrite last_snoc. by intros [= <-].
  - exfalso. unfold MarshalHead in Hbind0. inv_ok. apply (validateHead_ids _ Hbind (po_Ref o)); [|done]. by apply (Hin active ss).
Qed.

(** C20. Appending is appending.  If the catalog represents [es] and [Append]
    accepts a segment, then after the mutation's pages are stored the new head
    represents [es] with the segment's entry at the end, readers of the old head
    still see [es], the marshalled head is the one to publish, the generation
    grows by one and the writer epoch stays. *)
Theorem append_refines `{XXHash} c pages head es seg m :
  catalog_rep c pages head es → SegmentRef_typed seg → Append c head seg = Ok m →
  ∃ entry, segmentRef c entry = seg ∧
    catalog_rep c (put_pages (mu_Pages m) pages) (mu_Head m) (es ++ [entry]) ∧
    catalog_rep c (put_pages (mu_Pages m) pages) head es ∧
    MarshalHead (mu_Head m) = Ok (mu_HeadBody m) ∧
    hh_Generation (hd_Header (mu_Head m)) = hh_Generation (hd_Header head) + 1 ∧
    hh_WriterEpoch (hd_Header (mu_Head m)) = hh_WriterEpoch (hd_Header head).
Proof.
  intros HR Ht HA. destruct (append_rep _ _ _ _ _ _ HR Ht HA) as (entry & _ & Hse & Hrep & HL & HM & Hg & He).
  exists entry. split; [done|]. split; [done|]. split; [by apply catalog_rep_put|]. done.
Qed.


(** C22. The rejections of [Append], in the order of its checks: a foreign head, an
    exhausted generation, an invalid segment, a stale or missing fence, another
    writer's tag, a gap or overlap in LSNs, time running backwards. *)
Theorem append_rejects `{XXHash} c head seg :
  (∀ e, validateConfigHead c head = Err e → Append c head seg = Err e) ∧
  (validateConfigHead c head = Ok () →
   (hh_Generation (hd_Header head) = MaxUint64 → Append c head seg = Err [ErrGenerationExhausted]) ∧
   (hh_Generation (hd_Header head) ≠ MaxUint64 →
    (∀ e, leafEntry c seg = Err e → Append c head seg = Err e) ∧
    (∀ entry, leafEntry c seg = Ok entry →
       (hh_WriterEpoch (hd_Header head) = 0 ∨ le_WriterEpoch entry ≠ hh_WriterEpoch (hd_Header head) →
        Append c head seg = Err [ErrStaleWriter]) ∧
       (hh_WriterEpoch (hd_Header head) ≠ 0 → le_WriterEpoch entry = hh_WriterEpoch (hd_Header head) →
        (le_WriterTag entry ≠ hh_WriterID (hd_Header head) → Append c head seg = Err [ErrInvalidRequest]) ∧
        (le_WriterTag entry = hh_WriterID (hd_Header head) →
         (le_BaseLSN entry ≠ hh_NextLSN (hd_Header head) → Append c head seg = Err [ErrConflict]) ∧
         (le_BaseLSN entry = hh_NextLSN (hd_Header head) → HasLastSegment head = true →
          le_MinTimestampMS entry < le_MaxTimestampMS (hd_LastSegment head) →
          Append c head seg = Err [ErrTimestampOrder])))))).
Proof.
  unfold Append. split; [by intros e ->|]. intros ->. cbn [mbind result_bind]. cbv zeta.
  split; [by intros ->|]. intros Hg. rewrite (proj2 (Z.eqb_neq _ _) Hg). split; [by intros e ->|]. intros entry ->. cbn [mbind result_bind].
  split; [intros [->|He]; [done|]; by rewrite (proj2 (Z.eqb_neq _ _) He), orb_true_r|].
  intros Hf He. rewrite (proj2 (Z.eqb_neq _ _) Hf), He, Z.eqb_refl. cbn [orb negb].
  split; [intros Hw; by rewrite bool_decide_false|]. intros ->. rewrite bool_decide_true by done. cbn [negb].
  split; [intros Hb; by rewrite (proj2 (Z.eqb_neq _ _) Hb)|]. intros -> -> Hts. rewrite Z.eqb_refl. cbn [negb andb].
  by rewrite (proj2 (Z.ltb_lt _ _) Hts).
Qed.

(** ** Takeover and creation *)
Lemma leafEntry_fence c seg entry :
  leafEntry c seg = Ok entry → sr_WriterEpoch seg = le_WriterEpoch entry ∧ sr_WriterTag seg = le_WriterTag entry.
Proof. unfold leafEntry. intros HL. by inv_ok. Qed.

Section takeover.
Context `{XXHash} (c : Config) (pages : PageSource) (head : Head) (es : list LeafEntry) (writerID : list byte).
Context (HR : catalog_rep c pages head es) (Hid : length writerID = 16%nat) (Hnz : writerID ≠ zeros 16).
Context (He : hh_WriterEpoch (hd_Header head) ≠ MaxUint64) (Hg : hh_Generation (hd_Header head) ≠ MaxUint64).

Lemma takeover_numbers :
  uint64 (hh_WriterEpoch (hd_Header head) + 1) = hh_WriterEpoch (hd_Header head) + 1 ∧
  uint64 (hh_Generation (hd_Header head) + 1) = hh_Generation (hd_Header head) + 1 ∧
  0 ≤ hh_WriterEpoch (hd_Header head) ∧ is_u64 (hh_WriterEpoch (hd_Header head) + 1) ∧
  is_u64 (hh_Generation (hd_Header head) + 1).
Proof.
  clear Hid Hnz. destruct (cr_typed _ _ _ _ HR) as (Ht & _). unfold HeadHeader_typed in Ht. typed_fields.
  rewrite !uint64_id by (unfold_widths; lia). unfold_widths. lia.
Qed.

Lemma takeover_rep : catalog_rep c pages (takeover_head head writerID) es.
Proof.
  destruct takeover_numbers as (Ee & Eg & He0 & Hu1 & Hu2). destruct HR as [Ht Hk Hcfg (ess & HF & Ees) Hlast].
  constructor; [| |exact Hcfg| |exact Hlast].
  - destruct Ht as (Hh & Hr). split; [|exact Hr]. unfold HeadHeader_typed in *; cbn. rewrite Ee, Eg. typed_fields.
    repeat match goal with |- ?P ∧ _ => split end; assumption.
  - pose proof (hk_last _ Hk) as Hl. constructor; try (apply Hk).
    + cbn. rewrite Ee. split; [lia|done].
    + apply (sections_ok_mono (hd_Header head)); [done| |exact (hk_sections _ Hk)]. cbn. rewrite Eg. lia.
    + destruct (hk_active _ Hk) as [Ha Hs]. split; [|exact Hs]. eapply Forall_impl; [exact Ha|]. intros e [? ?].
      cbn. rewrite Ee. split; [done|lia].
    + change (HasLastSegment (takeover_head head writerID)) with (HasLastSegment head).
      change (head_roots (takeover_head head writerID)) with (head_roots head).
      cbn [takeover_head hd_LastSegment hd_Header hh_WriterEpoch hh_SegmentCount hh_NextLSN hd_Active]. rewrite Ee.
      destruct (HasLastSegment head); [|exact Hl]. destruct Hl as (H1 & H2 & H3). split; [exact H1|]. split; [lia|exact H3].
  - exists ess. split; [|done]. cbn [takeover_head hd_Header hh_WriterEpoch]. rewrite Ee.
    change (headRoots (takeover_head head writerID)) with (headRoots head). eapply Forall2_impl; [exact HF|].
    intros [ref|leaf] rs Hrep; [|done]. eapply page_rep_mono; [exact Hrep|lia].
Qed.
End takeover.

(** C23. Takeover fences.  On a represented catalog a takeover by a non-zero writer
    succeeds unless the epoch or the generation is exhausted; the history is
    untouched, no page is written, the epoch grows by one, and from then on
    [Append] accepts only segments of the new epoch and writer. *)
Theorem takeover_fences `{XXHash} c pages head es writerID :
  catalog_rep c pages head es → length writerID = 16%nat → writerID ≠ zeros 16 →
  hh_WriterEpoch (hd_Header head) ≠ MaxUint64 → hh_Generation (hd_Header head) ≠ MaxUint64 →
  ∃ m, Takeover c head writerID = Ok m ∧ mu_Pages m = [] ∧ catalog_rep c pages (mu_Head m) es ∧
    MarshalHead (mu_Head m) = Ok (mu_HeadBody m) ∧
    hh_WriterEpoch (hd_Header (mu_Head m)) = hh_WriterEpoch (hd_Header head) + 1 ∧
    ∀ seg m', Append c (mu_Head m) seg = Ok m' →
      sr_WriterEpoch seg = hh_WriterEpoch (hd_Header head) + 1 ∧ sr_WriterTag seg = writerID.
Proof.
  intros HR Hid Hnz He Hg. pose proof (takeover_rep c pages head es writerID HR Hid Hnz He Hg) as HR'.
  destruct (takeover_numbers c pages head es HR He Hg) as (Ee & _).
  destruct Marshal_total as (_ & _ & HM). destruct (proj2 (HM _ (cr_typed _ _ _ _ HR')) (cr_ok _ _ _ _ HR')) as [body HB].
  eexists. unfold Takeover. rewrite bool_decide_false, (cr_config _ _ _ _ HR) by done. cbn [mbind result_bind].
  rewrite (proj2 (Z.eqb_neq _ _) He), (proj2 (Z.eqb_neq _ _) Hg), HB. split; [reflexivity|]. cbn [mu_Pages mu_Head mu_HeadBody].
  split; [done|]. split; [done|]. split; [done|]. split; [exact Ee|]. intros seg m' HA.
  destruct (Append_inv _ _ _ _ HA) as [entry HC].
  pose proof (ac_entry _ _ _ _ HC) as Hent. pose proof (ac_epoch _ _ _ _ HC) as E1. pose proof (ac_tag _ _ _ _ HC) as E2.
  cbn [takeover_head hd_Header hh_WriterEpoch hh_WriterID] in E1, E2. rewrite Ee in E1.
  apply leafEntry_fence in Hent as [-> ->]. by split.
Qed.

(** A new head represents the empty history, for any page source. *)
Lemma new_head_rep `{XXHash} c pages nextLSN :
  is_u32 (cf_Partition c) → is_u16 (cf_HashAlgo c) → HashAlgo_Validate (cf_HashAlgo c) = Ok () →
  0 < cf_LeafLimit c ≤ 1024 → 2 ≤ cf_IndexLimit c ≤ 1024 → length (cf_StreamKey c) = 32%nat →
  length (cf_DataRootKey c) = 32%nat → cf_StreamKey c ≠ zeros 32 → cf_DataRootKey c ≠ zeros 32 → is_u64 nextLSN →
  catalog_rep c pages (new_head c nextLSN) [].
Proof.
  intros Hp Ha Hv Hl Hi Hs Hd Hsz Hdz Hn. constructor.
  - split; [|split; [|split; constructor]].
    + unfold HeadHeader_typed, new_head; cbn. repeat match goal with |- ?P ∧ _ => split end; try assumption; try done; unfold_widths; lia.
    + unfold LeafEntry_typed; cbn. closed_typed.
  - constructor; cbn; try done; try (unfold len; cbn; lia).
    unfold_widths. lia.
  - unfold validateConfigHead; cbn. rewrite !Z.eqb_refl, !bool_decide_true by done. done.
  - exists []. split; [constructor|done].
  - done.
Qed.

(** C24. A configuration and its first head: what [NewConfig] accepts gives, for
    every starting LSN but the reserved one, a head that represents the empty
    history, unless one of the two SHA-256 identity keys is all zero. *)
Theorem new_catalog `{XXHash} prefix root stream partition leafLimit indexLimit algo c nextLSN pages :
  NewConfig prefix root stream partition leafLimit indexLimit algo = Ok c →
  is_u32 partition → is_u32 leafLimit → is_u32 indexLimit → is_u16 algo → is_u64 nextLSN → nextLSN ≠ ReservedLSN →
  cf_StreamKey c ≠ zeros 32 → cf_DataRootKey c ≠ zeros 32 →
  ∃ head body, NewHead c nextLSN = Ok (head, body) ∧ MarshalHead head = Ok body ∧
    catalog_rep c pages head [] ∧ hh_NextLSN (hd_Header head) = nextLSN.
Proof.
  intros HN Hp Hl Hi Ha Hn Hr Hsz Hdz. unfold NewConfig in HN. cbv zeta in HN. inv_ok. bool_to_prop. unfold MaxLeafEntries, MaxIndexEntries in *.
  match goal with |- context [NewHead ?cfg _] => set (c := cfg) in * end.
  assert (HR : catalog_rep c pages (new_head c nextLSN) []).
  { apply new_head_rep; try done; try (cbn; unfold_widths; lia); cbn; by rewrite SHA256.length_Sum256. }
  destruct Marshal_total as (_ & _ & HM). destruct (proj2 (HM _ (cr_typed _ _ _ _ HR)) (cr_ok _ _ _ _ HR)) as [body HB].
  exists (new_head c nextLSN), body. unfold NewHead. rewrite (proj2 (Z.eqb_neq _ _) Hr), HB. done.
Qed.
