(* ===== verification/CatRetention.v ===== *)
(** * Retention in the blob catalog (catengine/retention.go)

    [ApplyRetention] moves the oldest retained LSN forward: whole references and
    leaves below the boundary are dropped from the head, and the one reference
    that straddles it is replaced by a freshly sealed page holding its retained
    end, level by level down to the leaf.  The theorems show that the new head
    represents exactly the entries that reach the boundary, that readers of the
    old head are undisturbed, and which requests are refused. *)
From S2P Require Import Prelude Hash SegFormat Ranges PMeta KeyLayout CatFormat CatCodec CatTree CatReader CatAppend.

Section retention.
Context `{XXHash}.

(** [reachableSegmentCount]: the running sum, which panics on overflow. *)
Fixpoint count_refs (count : Z) (refs : list IndexEntry) : result Z :=
  match refs with
  | [] => Ok count
  | ref :: refs =>
      fail_if MaxUint64 - count <? ie_SegmentCount ref with [GoPanic];
      count_refs (uint64 (count + ie_SegmentCount ref)) refs
  end.

Definition reachableSegmentCount (sections : list OpenIndexSection) (active : list LeafEntry) : result Z :=
  count ← count_refs 0 (concat (map os_Entries sections));
  fail_if MaxUint64 - count <? len active with [GoPanic];
  Ok (uint64 (count + len active)).

(** A page is at most level 63 and [loadIndex] accepts only children one level
    below, so [page_fuel] nested calls reach the leaf. *)
Fixpoint trimPageRef (fuel : nat) (c : Config) (pages : PageSource) (ref : IndexEntry)
    (effective generation writerEpoch : Z) : result (IndexEntry * list PageObject) :=
  match fuel with
  | O => Err []
  | S fuel =>
      if effective <=? ie_SeqLo ref then Ok (ref, []) else
      fail_if ie_SeqHi ref <? effective with [];
      if ie_Level ref =? 0 then
        page ← loadLeaf c pages ref writerEpoch;
        let start := search (λ e, effective <=? le_LastLSN e) (lp_Entries page) in
        fail_if match lp_Entries page !! start with
                | None => true
                | Some entry => negb (le_BaseLSN entry =? effective)
                end with [];
        '(trimmed, object) ← sealLeaf c generation writerEpoch (drop start (lp_Entries page));
        Ok (trimmed, [object])
      else
        page ← loadIndex c pages ref writerEpoch;
        match drop (search (λ e, effective <=? ie_SeqHi e) (ixp_Entries page)) (ixp_Entries page) with
        | [] => Err []
        | first :: rest =>
            '(first, objects) ← (if ie_SeqLo first <? effective
                                 then trimPageRef fuel c pages first effective generation writerEpoch
                                 else Ok (first, []));
            fail_if negb (ie_SeqLo first =? effective) with [];
            '(trimmed, object) ← sealIndex c generation writerEpoch (ie_Level ref) (first :: rest);
            Ok (trimmed, objects ++ [object])
        end
  end.

(** The first loop of [trimHead], over the open sections. *)
Fixpoint trim_sections (c : Config) (pages : PageSource) (effective generation writerEpoch : Z)
    (sections : list OpenIndexSection) : result (list OpenIndexSection * list PageObject) :=
  match sections with
  | [] => Ok ([], [])
  | section :: sections =>
      let entries := os_Entries section in
      '(entries, objects) ←
        match drop (search (λ e, effective <=? ie_SeqHi e) entries) entries with
        | [] => Ok ([], [])
        | first :: rest =>
            if ie_SeqLo first <? effective then
              '(trimmed, objects) ← trimPageRef page_fuel c pages first effective generation writerEpoch;
              Ok (trimmed :: rest, objects)
            else Ok (first :: rest, [])
        end;
      '(sections, more) ← trim_sections c pages effective generation writerEpoch sections;
      Ok ({| os_Level := os_Level section; os_Entries := entries |} :: sections, objects ++ more)
  end.

(** The second loop: [for] the last section is empty, drop it. *)
Fixpoint drop_empty (sections : list OpenIndexSection) : list OpenIndexSection :=
  match sections with
  | [] => []
  | section :: rest => if bool_decide (os_Entries section = []) then drop_empty rest else sections
  end.

(** [trimHead] changes the sections and the active leaves of the head, and
    refuses a result that does not start at the boundary. *)
Definition trimHead (c : Config) (pages : PageSource) (head : Head) (effective generation writerEpoch : Z)
    : result (list LeafEntry * list OpenIndexSection * list PageObject) :=
  '(sections, objects) ← trim_sections c pages effective generation writerEpoch (hd_Sections head);
  let sections := rev (drop_empty (rev sections)) in
  let active := drop (search (λ e, effective <=? le_LastLSN e) (hd_Active head)) (hd_Active head) in
  let trimmed := {| hd_Header := hd_Header head; hd_LastSegment := hd_LastSegment head;
                    hd_Active := active; hd_Sections := sections |} in
  fail_if match headRoots trimmed with
          | [] => true
          | root :: _ => negb (seqLo root =? effective)
          end with [];
  Ok (active, sections, objects).

(** The fields [ApplyRetention] sets in the cloned head. *)
Definition retention_head (head : Head) (target policyVersion oldest reachable : Z) (active : list LeafEntry)
    (sections : list OpenIndexSection) : Head :=
  let h := hd_Header head in
  {|
    hd_Header := {|
      hh_Flags := hh_Flags h; hh_Partition := hh_Partition h; hh_HashAlgo := hh_HashAlgo h;
      hh_SegmentLayoutVersion := hh_SegmentLayoutVersion h; hh_LeafLimit := hh_LeafLimit h;
      hh_IndexLimit := hh_IndexLimit h; hh_ActiveCount := uint32 (len active); hh_LevelCount := uint32 (len sections);
      hh_NextLSN := hh_NextLSN h; hh_OldestLSN := oldest;
      hh_AppliedRetentionLSN := target; hh_AppliedRetentionVersion := policyVersion;
      hh_WriterEpoch := hh_WriterEpoch h; hh_Generation := uint64 (hh_Generation h + 1);
      hh_SegmentCount := hh_SegmentCount h; hh_ReachableSegmentCount := reachable;
      hh_WriterID := hh_WriterID h; hh_StreamKey := hh_StreamKey h; hh_DataRootKey := hh_DataRootKey h |};
    hd_LastSegment := hd_LastSegment head; hd_Active := active; hd_Sections := sections |}.

(** The lists, the oldest LSN and the pages the three cases of the switch leave. *)
Definition retention_lists (ctx : option error) (c : Config) (pages : PageSource) (head : Head) (target : Z)
    : result (Z * list LeafEntry * list OpenIndexSection * list PageObject) :=
  let h := hd_Header head in
  if target <=? hh_OldestLSN h then Ok (hh_OldestLSN h, hd_Active head, hd_Sections head, [])
  else if hh_NextLSN h <=? target then Ok (hh_NextLSN h, [], [], [])
  else
    found ← FindSegment c pages ctx head target;
    match found with
    | None => Err []
    | Some segment =>
        let effective := sr_BaseLSN segment in
        if hh_OldestLSN h <? effective then
          '(active, sections, objects) ←
            trimHead c pages head effective (uint64 (hh_Generation h + 1)) (hh_WriterEpoch h);
          Ok (effective, active, sections, objects)
        else Ok (hh_OldestLSN h, hd_Active head, hd_Sections head, [])
    end.

(** A nil page source is [None]; [ctx] is the error of the context, if any. *)
Definition ApplyRetention (ctx : option error) (c : Config) (pages : option PageSource) (head : Head)
    (beforeLSN policyVersion : Z) : result Mutation :=
  check_ctx ctx;
  _ ← validateConfigHead c head;
  let h := hd_Header head in
  fail_if policyVersion =? 0 with [ErrInvalidRequest];
  if (policyVersion =? hh_AppliedRetentionVersion h) && (beforeLSN =? hh_AppliedRetentionLSN h) then
    body ← MarshalHead head;
    Ok {| mu_Head := head; mu_HeadBody := body; mu_Pages := [] |}
  else
  fail_if policyVersion <=? hh_AppliedRetentionVersion h with [ErrRetentionRegression];
  fail_if beforeLSN <? hh_AppliedRetentionLSN h with [ErrRetentionRegression];
  fail_if hh_Generation h =? MaxUint64 with [ErrGenerationExhausted];
  match pages with
  | None => Err []
  | Some pages =>
      let target := if hh_NextLSN h <? beforeLSN then hh_NextLSN h else beforeLSN in
      '(oldest, active, sections, objects) ← retention_lists ctx c pages head target;
      reachable ← reachableSegmentCount sections active;
      let next := retention_head head target policyVersion oldest reachable active sections in
      body ← MarshalHead next;
      Ok {| mu_Head := next; mu_HeadBody := body; mu_Pages := objects |}
  end.
End retention.

(** ** Trimming a page *)

(** A page sealed while trimming whose content ID is all zero: such a reference
    is refused by every validation. *)
Definition zero_page `{XXHash} (c : Config) (generation writerEpoch : Z) : Prop :=
  ∃ ref object, ie_PageID ref = zeros 16 ∧
    ((∃ es, sealLeaf c generation writerEpoch es = Ok (ref, object)) ∨
     (∃ level rs, sealIndex c generation writerEpoch level rs = Ok (ref, object))).

Section trim.
Context `{XXHash} (c : Config) (pages : PageSource) (g generation writerEpoch : Z).
Context (Hso : seal_ok c generation writerEpoch) (Hg : g < generation).

(** Pages of generations up to [g] can be read from [pages'] as from [pages]. *)
Definition keeps (pages' : PageSource) : Prop :=
  ∀ level ref epoch es, ref_valid ref → ie_Generation ref ≤ g → ie_Level ref = Z.of_nat level →
    page_rep c pages level ref epoch es → page_rep c pages' level ref epoch es.

Record trimmed (x : Z) (es : list LeafEntry) (ref ref' : IndexEntry) (new : list PageObject) : Prop := {
  tr_valid : ref_valid ref';
  tr_level : ie_Level ref' = ie_Level ref;
  tr_generation : ie_Generation ref' = generation;
  tr_expands : expands ref' (from_lsn x es);
  tr_count : ie_SegmentCount ref' = len (from_lsn x es);
  tr_new : Forall (λ o, page_new c generation 0 o ∧ po_Level o ≤ ie_Level ref) new;
  tr_levels : NoDup (map po_Level new);
  tr_rep : ∀ pages', keeps pages' → (∀ o, o ∈ new → pages' (po_Key o) = Ok (po_Body o)) →
             ref_rep c pages' writerEpoch ref' (from_lsn x es) }.

(** The outcome of trimming: a trimmed reference, or a zero page ID, which a
    result can only carry as the reference itself. *)
Definition trim_outcome (x : Z) (es : list LeafEntry) (ref : IndexEntry) (r : result (IndexEntry * list PageObject)) : Prop :=
  (∃ ref' new, r = Ok (ref', new) ∧ trimmed x es ref ref' new) ∨
  (zero_page c generation writerEpoch ∧ ∀ ref' new, r = Ok (ref', new) → ie_PageID ref' = zeros 16).

Lemma Sorted_drop {A} (R : A → A → Prop) n l : Sorted R l → Sorted R (drop n l).
Proof.
  revert l; induction n as [|n IH]; intros l Hs; [done|]. destruct l as [|a l]; [constructor|]. cbn [drop].
  apply IH. by apply Sorted_inv in Hs as [? _].
Qed.

Lemma leaves_ok_from x es : leaves_ok es → leaves_ok (from_lsn x es).
Proof.
  intros (Hv & Hc & Hs). rewrite <- (search_from_lsn x es Hc). split; [by apply Forall_drop|].
  split; [by apply chain_drop|by apply Sorted_drop].
Qed.

Lemma from_lsn_len {A} `{Ranged A} x (l : list A) : len (from_lsn x l) ≤ len l.
Proof. unfold from_lsn, len. pose proof (List.filter_length_le (λ a, x <=? hi a) l). lia. Qed.

Lemma trimPageRef_leaf fuel ref es x :
  page_rep c pages 0 ref writerEpoch es → ie_Level ref = 0 → lo ref < x ≤ hi ref → no_straddle x es →
  trim_outcome x es ref (trimPageRef (S fuel) c pages ref x generation writerEpoch).
Proof.
  intros (page & HL & ->) Hl Hx Hn. cbn [trimPageRef]. cbn [lo hi IndexEntry_Ranged] in Hx.
  rewrite (proj2 (Z.leb_gt x _)), (proj2 (Z.ltb_ge _ x)), Hl, HL by lia. cbn [Z.eqb mbind result_bind].
  destruct (loadLeaf_expands _ _ _ _ _ HL) as (HX & Hlv & _ & Hep).
  destruct (loadLeaf_inv _ _ _ _ _ HL) as (_ & Hk & _). pose proof (lpk_count _ Hk) as Hcnt. unfold MaxLeafEntries in Hcnt.
  pose proof Hlv as (_ & Hc & _).
  pose proof (from_lsn_starts x _ Hc Hn (expands_at_lsn ref _ x HX ltac:(cbn; lia))) as Hst.
  pose proof (search_hi_lookup x _ Hc) as E1. pose proof (search_from_lsn x _ Hc) as E2. cbn [hi LeafEntry_Ranged] in E1, E2.
  rewrite E1, E2. destruct (list.head (from_lsn x (lp_Entries page))) as [e|] eqn:Eh; [|done]. cbn in Hst. injection Hst as Hst.
  rewrite Hst, Z.eqb_refl. cbn [negb].
  destruct (sealLeaf_spec c generation writerEpoch Hso (from_lsn x (lp_Entries page)))
    as (ref' & object & HS & (Sl & Sg & St & Sv & Sk & So & Sr) & HX' & Hc' & Hrep).
  { by apply leaves_ok_from. } { by destruct (from_lsn x _). } { pose proof (from_lsn_len x (lp_Entries page)). lia. }
  { apply Forall_forall. intros a Ha. apply elem_of_from_lsn in Ha as [Ha _]. by apply (proj1 (Forall_forall _ _) Hep). }
  rewrite HS. cbn [mbind result_bind]. destruct (decide (ie_PageID ref' = zeros 16)) as [Hz|Hz].
  { right. split; [exists ref', object; split; [done|]; left; eauto|]. by intros ? ? [= <- _]. }
  left. exists ref', [object]. split; [done|]. constructor; try done.
  - auto.
  - by rewrite Hl.
  - constructor; [|constructor]. split; [|lia]. split; [rewrite So; unfold MaxIndexLevel; lia|by rewrite So, Sr].
  - apply NoDup_singleton.
  - intros pages' _ Hp. unfold ref_rep. rewrite Sl. apply Hrep; [apply Hp; by left|lia].
Qed.

(** [rep_at e] is what a child of a page loaded under [epoch] satisfies. *)
Definition rep_at (epoch : Z) (ref : IndexEntry) (es : list LeafEntry) : Prop :=
  ref_rep c pages epoch ref es ∧ expands ref es ∧ len es = ie_SegmentCount ref ∧ ref_valid ref ∧ ie_Generation ref ≤ g.

Lemma rep_at_intro epoch ref es :
  ref_rep c pages epoch ref es → ref_valid ref → ie_Generation ref ≤ g → epoch ≤ writerEpoch → rep_at writerEpoch ref es.
Proof.
  intros HR Hv Hgr He. destruct (ref_valid_inv _ Hv) as (_ & _ & _ & Hl & _).
  destruct (page_rep_expands _ _ _ _ _ _ HR ltac:(lia)) as (HX & _ & Hlen).
  split; [by eapply page_rep_mono|]. split; [exact HX|]. done.
Qed.

Lemma rep_keeps pages' rs ess :
  keeps pages' → Forall2 (rep_at writerEpoch) rs ess → Forall2 (ref_rep c pages' writerEpoch) rs ess.
Proof.
  intros Hk HF. eapply Forall2_impl; [exact HF|]. intros r es (HR & _ & _ & Hv & Hgr).
  destruct (ref_valid_inv _ Hv) as (_ & _ & _ & Hl & _). apply Hk; [done|done|lia|exact HR].
Qed.

Lemma rep_segments rs ess : Forall2 (rep_at writerEpoch) rs ess → refs_segments rs = len (concat ess).
Proof.
  unfold refs_segments. induction 1 as [|r es rs ess (_ & _ & Hv & _) HF IH]; [done|]. cbn [sumZ concat]. rewrite IH, <- Hv.
  unfold len. rewrite length_app. lia.
Qed.

(** The kept end of a list of references.  [first] is trimmed when it straddles
    [x]; the others are untouched. *)
Record kept (x : Z) (rs : list IndexEntry) (ess : list (list LeafEntry)) (rs' : list IndexEntry) (new : list PageObject)
    : Prop := {
  kp_refs : ∀ level, Forall (ref_at level g) rs → Forall (ref_at level generation) rs';
  kp_len : len rs' ≤ len rs;
  kp_new : Forall (λ o, page_new c generation 0 o ∧ ∃ r, r ∈ rs ∧ po_Level o ≤ ie_Level r) new;
  kp_levels : NoDup (map po_Level new);
  kp_none : new = [] ∨ ∃ r, r ∈ rs ∧ lo r < x ≤ hi r;
  kp_segments : refs_segments rs' = len (from_lsn x (concat ess));
  kp_expands : ∃ ess', Forall2 expands rs' ess' ∧ concat ess' = from_lsn x (concat ess);
  kp_rep : ∀ pages', keeps pages' → (∀ o, o ∈ new → pages' (po_Key o) = Ok (po_Body o)) →
             ∃ ess', Forall2 (ref_rep c pages' writerEpoch) rs' ess' ∧ concat ess' = from_lsn x (concat ess) }.

Lemma kept_nil x rs ess : from_lsn x (concat ess) = [] → kept x rs ess [] [].
Proof.
  intros E. constructor; rewrite ?E; [constructor|unfold len; cbn [length]; lia|constructor|constructor| | | |].
  - by left.
  - done.
  - by exists [].
  - intros. by exists [].
Qed.

Lemma rep_at_expands ref es : rep_at writerEpoch ref es → expands ref es.
Proof. by intros (_ & ? & _). Qed.

(** When the first kept reference is replaced by one standing for its kept end,
    the list is kept. *)
Lemma kept_cons x rs ess a rest l lrest a' new :
  from_lsn x rs = a :: rest → rep_at writerEpoch a l → Forall2 (rep_at writerEpoch) rest lrest →
  from_lsn x (concat ess) = from_lsn x l ++ concat lrest → x ≤ hi a →
  (trimmed x l a a' new ∧ lo a < x ∨ a' = a ∧ new = [] ∧ x ≤ lo a) → kept x rs ess (a' :: rest) new.
Proof.
  intros Ef Ha HF Ec Hx Hcase.
  assert (Hsub : ∀ r, r ∈ a :: rest → r ∈ rs) by (intros r Hr; rewrite <- Ef in Hr; by apply elem_of_from_lsn in Hr as [? _]).
  assert (Hlen : len (a' :: rest) ≤ len rs).
  { pose proof (from_lsn_len x rs) as Hl. rewrite Ef in Hl. unfold len in *. cbn [length] in *. lia. }
  assert (Hrest : ∀ level, Forall (ref_at level g) rs → Forall (ref_at level generation) rest).
  { intros level HR. apply Forall_forall. intros r Hr. eapply ref_at_mono; [|apply (proj1 (Forall_forall _ _) HR), Hsub; by right]. lia. }
  assert (HXr : Forall2 expands rest lrest) by (eapply Forall2_impl; [exact HF|]; apply rep_at_expands).
  pose proof (rep_at_expands _ _ Ha) as HXa. pose proof (rep_segments _ _ HF) as Hseg.
  destruct Hcase as [[[Tv Tl Tg TX Tc Tn Td Tr] Hlo]|(-> & -> & Hlo)].
  - constructor; try done.
    + intros level HR. constructor; [|by apply Hrest]. apply (proj1 (Forall_forall _ _)) with (x := a) in HR; [|apply Hsub; by left].
      destruct HR as (_ & HR & _). split; [done|]. split; [congruence|lia].
    + eapply Forall_impl; [exact Tn|]. intros o [? ?]. split; [done|]. exists a. split; [apply Hsub; by left|done].
    + right. exists a. split; [apply Hsub; by left|]. lia.
    + rewrite Ec. unfold refs_segments in *. cbn [sumZ]. rewrite Hseg, Tc. unfold len. rewrite length_app. lia.
    + exists (from_lsn x l :: lrest). split; [by constructor|]. by rewrite Ec.
    + intros pages' Hk Hp. exists (from_lsn x l :: lrest). split; [|by rewrite Ec]. constructor; [by apply Tr|by eapply rep_keeps].
  - assert (El : from_lsn x l = l).
    { apply from_lsn_all, Forall_forall. intros e He. destruct (expands_bounds a l e HXa He) as (? & _).
      destruct HXa as (Hcl & _). destruct (chain_range_ok l e Hcl He). lia. }
    rewrite El in Ec. constructor; [ |done|constructor|constructor|by left| | |].
    + intros level HR. constructor; [|by apply Hrest]. apply (proj1 (Forall_forall _ _)) with (x := a) in HR; [|apply Hsub; by left].
      eapply ref_at_mono; [|exact HR]. lia.
    + rewrite Ec. unfold refs_segments in *. cbn [sumZ]. destruct Ha as (_ & _ & <- & _). rewrite Hseg. unfold len. rewrite length_app. lia.
    + exists (l :: lrest). split; [by constructor|]. by rewrite Ec.
    + intros pages' Hk Hp. exists (l :: lrest). split; [|by rewrite Ec]. eapply rep_keeps; [done|]. by constructor.
Qed.

Lemma no_straddle_elem x (ls : list (list LeafEntry)) l : l ∈ ls → no_straddle x (concat ls) → no_straddle x l.
Proof.
  intros Hl Hn. apply Forall_forall. intros e He. apply (proj1 (Forall_forall _ _) Hn).
  apply list_elem_of_In, in_concat. exists l. split; by apply list_elem_of_In.
Qed.

Lemma kept_chain x rs ess rs' new : chain (concat ess) → kept x rs ess rs' new → chain rs'.
Proof.
  intros Hc Hk. destruct (kp_expands _ _ _ _ _ Hk) as (ess' & HX & E). apply (expands_chain_inv rs' ess' HX).
  rewrite E. by apply chain_from_lsn.
Qed.

Lemma kept_app x rs1 ess1 rs1' new1 rs2 ess2 rs2' new2 :
  chain (rs1 ++ rs2) → kept x rs1 ess1 rs1' new1 → kept x rs2 ess2 rs2' new2 →
  kept x (rs1 ++ rs2) (ess1 ++ ess2) (rs1' ++ rs2') (new2 ++ new1).
Proof.
  intros Hc [R1 L1 N1 D1 O1 S1 (e1 & X1 & E1) P1] [R2 L2 N2 D2 O2 S2 (e2 & X2 & E2) P2].
  assert (Hone : new1 = [] ∨ new2 = []).
  { destruct O1 as [->|(r1 & H1 & Hx1)]; [by left|]. destruct O2 as [->|(r2 & H2 & Hx2)]; [by right|].
    pose proof (chain_apart _ _ _ _ Hc H1 H2). lia. }
  constructor.
  - intros level HR. apply Forall_app in HR as [? ?]. apply Forall_app. auto.
  - unfold len in *. rewrite !length_app. lia.
  - apply Forall_app. split; [eapply Forall_impl; [exact N2|]|eapply Forall_impl; [exact N1|]];
      intros o [? (r & ? & ?)]; (split; [done|]); exists r; rewrite elem_of_app; auto.
  - destruct Hone as [->| ->]; by rewrite ?app_nil_r.
  - destruct O1 as [->|(r & ? & ?)]; [|right; exists r; rewrite elem_of_app; auto].
    destruct O2 as [->|(r & ? & ?)]; [by left|right; exists r; rewrite elem_of_app; auto].
  - unfold refs_segments in *. rewrite sumZ_app, S1, S2, concat_app, from_lsn_app. unfold len. rewrite length_app. lia.
  - exists (e1 ++ e2). split; [by apply Forall2_app|]. by rewrite !concat_app, from_lsn_app, E1, E2.
  - intros pages' Hk Hp. destruct (P1 pages' Hk) as (f1 & F1 & G1); [intros o Ho; apply Hp, elem_of_app; by right|].
    destruct (P2 pages' Hk) as (f2 & F2 & G2); [intros o Ho; apply Hp, elem_of_app; by left|].
    exists (f1 ++ f2). split; [by apply Forall2_app|]. by rewrite !concat_app, from_lsn_app, G1, G2.
Qed.

(** One list of references, with a trimmer for the element that straddles [x]. *)
Definition trim_refs (trim : IndexEntry → result (IndexEntry * list PageObject)) (x : Z) (rs : list IndexEntry)
    : result (list IndexEntry * list PageObject) :=
  match from_lsn x rs with
  | [] => Ok ([], [])
  | first :: rest =>
      '(first, objects) ← (if ie_SeqLo first <? x then trim first else Ok (first, []));
      Ok (first :: rest, objects)
  end.

Lemma trim_refs_spec trim x rs ess :
  chain rs → Forall2 (rep_at writerEpoch) rs ess → no_straddle x (concat ess) →
  (∀ r es, r ∈ rs → rep_at writerEpoch r es → lo r < x ≤ hi r → no_straddle x es → trim_outcome x es r (trim r)) →
  (∃ rs' new, trim_refs trim x rs = Ok (rs', new) ∧ kept x rs ess rs' new) ∨
  (zero_page c generation writerEpoch ∧
   ∀ rs' new, trim_refs trim x rs = Ok (rs', new) → Exists (λ r, ie_PageID r = zeros 16) rs').
Proof.
  intros Hc HF Hn Ht. unfold trim_refs. pose proof (from_lsn_expand _ x rs ess rep_at_expands Hc HF) as HE.
  destruct (from_lsn x rs) as [|a rest] eqn:Ef; [left; do 2 eexists; split; [done|by apply kept_nil]|].
  destruct HE as (l & lrest & Ha & HFr & Hl & Hx & Ec). destruct (Z.ltb_spec (ie_SeqLo a) x) as [Hlo|Hlo].
  - assert (Har : a ∈ rs) by (eapply elem_of_from_lsn; rewrite Ef; by left).
    destruct (Ht a l Har Ha ltac:(cbn in *; lia) (no_straddle_elem _ _ _ Hl Hn)) as [(a' & new & -> & HT)|[Hz Hz']].
    + left. do 2 eexists. split; [done|]. eapply kept_cons; [done..|]. left. by split.
    + right. split; [done|]. intros rs' new HO. inv_ok. destruct x0 as [a' new']. inv_ok. constructor. by eapply Hz'.
  - left. do 2 eexists. split; [done|]. eapply kept_cons; [done..|]. right. split; [done|]. split; [done|]. cbn; lia.
Qed.

Lemma trimPageRef_spec level fuel ref es x :
  page_rep c pages level ref writerEpoch es → ie_Level ref = Z.of_nat level → ref_valid ref → ie_Generation ref ≤ g →
  (level < fuel)%nat → lo ref < x ≤ hi ref → no_straddle x es →
  trim_outcome x es ref (trimPageRef fuel c pages ref x generation writerEpoch).
Proof.
  revert fuel ref es; induction level as [|level IH]; intros fuel ref es HR Hl Hv Hgr Hf Hx Hn;
    (destruct fuel as [|fuel]; [lia|]); [by apply trimPageRef_leaf|].
  destruct HR as (page & ess & HL & -> & HF). destruct (loadIndex_expands _ _ _ _ _ HL) as (HX & Hc & Hrs & _ & Hlv).
  destruct (loadIndex_inv _ _ _ _ _ HL) as (_ & Hk & _ & Hep). pose proof (ipk_count _ Hk) as Hcnt. unfold MaxIndexEntries in Hcnt.
  assert (HF' : Forall2 (rep_at writerEpoch) (ixp_Entries page) ess).
  { eapply Forall2_strengthen; [exact Hrs|exact HF|]. intros e es (Hev & Hel & Heg) He.
    apply (rep_at_intro (pgh_WriterEpoch (ixp_Header page))); [|done|lia|done].
    unfold ref_rep. by replace (Z.to_nat (ie_Level e)) with level by lia. }
  pose proof (trim_refs_spec (λ r, trimPageRef fuel c pages r x generation writerEpoch) x _ _ Hc HF' Hn) as HT.
  cbn [trimPageRef]. cbn [lo hi IndexEntry_Ranged] in Hx.
  rewrite (proj2 (Z.leb_gt x _)), (proj2 (Z.ltb_ge _ x)), (proj2 (Z.eqb_neq (ie_Level ref) 0)), HL by lia. cbn [mbind result_bind].
  pose proof (search_from_lsn x _ Hc) as E2. cbn [hi IndexEntry_Ranged] in E2. rewrite E2. clear E2.
  destruct HT as [(rs' & new & HT & Hkp)|[Hz Hz']].
  { intros r rs Hr (HRr & _ & _ & Hvr & Hgr') Hxr Hnr. apply (proj1 (Forall_forall _ _) Hrs) in Hr as (_ & Hlr & _).
    apply IH; [|lia|done|done|lia|done|done]. unfold ref_rep in HRr. by replace level with (Z.to_nat (ie_Level r)) by lia. }
  2: { right. split; [done|]. intros ref' new HO. exfalso. unfold trim_refs in Hz'. destruct (from_lsn x _) as [|a rest]; [done|].
       inv_ok. destruct x0 as [a' new']. inv_ok. destruct x0 as [ref'' object]. rewrite Hbind in Hz'.
       specialize (Hz' _ _ eq_refl). apply sealIndex_zero in Hbind0. clear -Hz' Hbind0.
       induction Hz' as [r l E|r l HE IHE]; apply Forall_cons in Hbind0 as [? ?]; auto. }
  assert (HX' : expands ref (concat ess)).
  { eapply (expands_trans ref (ixp_Entries page)); [done|]. eapply Forall2_impl; [exact HF'|]. apply rep_at_expands. }
  pose proof (kept_chain _ _ _ _ _ (proj1 HX') Hkp) as KC. destruct Hkp as [KR KL KN KD _ KS (ess' & KX & KE) KP].
  assert (Hst : ∃ a' rest', rs' = a' :: rest' ∧ ie_SeqLo a' = x).
  { pose proof (from_lsn_starts x (concat ess) (proj1 HX') Hn (expands_at_lsn ref _ x HX' ltac:(cbn; lia))) as Hs.
    rewrite <- KE in Hs. destruct (expands_ends _ _ KX) as (Elo & _). rewrite Elo in Hs.
    destruct rs' as [|a' rest']; [done|]. cbn in Hs. injection Hs as Hs. eauto. }
  destruct Hst as (a' & rest' & -> & Ha'). unfold trim_refs in HT. destruct (from_lsn x (ixp_Entries page)) as [|a rest] eqn:Ef; [done|].
  inv_ok. destruct x0 as [a'' new']. inv_ok. simplify_eq. rewrite Hbind. cbn [mbind result_bind]. rewrite Z.eqb_refl. cbn [negb].
  assert (Hrg : Forall (ref_at (ie_Level ref) g) (ixp_Entries page)).
  { eapply Forall_impl; [exact Hrs|]. intros e. apply ref_at_mono. lia. }
  destruct (sealIndex_spec c generation writerEpoch Hso (ie_Level ref) (a' :: rest'))
    as (ref' & object & HS & (Sl & Sg & St & Sv & Sk & So & Sr) & HXr & Hc' & Hrep); [lia|by apply KR|done|done|lia|].
  rewrite HS. cbn [mbind result_bind]. destruct (decide (ie_PageID ref' = zeros 16)) as [Hz|Hz].
  { right. split; [exists ref', object; split; [done|]; right; eauto|]. by intros ? ? [= <- _]. }
  assert (Hob : page_new c generation 0 object ∧ po_Level object = ie_Level ref).
  { split; [|done]. split; [lia|by rewrite So, Sr]. }
  assert (Hlow : Forall (λ o, page_new c generation 0 o ∧ po_Level o < ie_Level ref) new).
  { eapply Forall_impl; [exact KN|]. intros o [? (r & Hr & Ho)]. split; [done|].
    apply (proj1 (Forall_forall _ _) Hrs) in Hr as (_ & ? & _). lia. }
  left. exists ref', (new ++ [object]). split; [done|]. constructor; try done; [auto| | | | |].
  - rewrite <- KE. exact (expands_trans ref' _ _ HXr KX).
  - by rewrite Hc', KS.
  - apply Forall_app. split; [|constructor; [split; [apply Hob|lia]|constructor]].
    eapply Forall_impl; [exact Hlow|]. intros o [? ?]. split; [done|lia].
  - rewrite map_app. apply NoDup_app. split; [done|]. split; [|apply NoDup_singleton].
    intros l Hin Hin'. cbn in Hin'. apply list_elem_of_singleton in Hin'. apply list_elem_of_fmap in Hin as (o & -> & Hin).
    apply (proj1 (Forall_forall _ _) Hlow) in Hin as [_ ?]. lia.
  - intros pages' Hkp Hp. destruct (KP pages' Hkp) as (ess2 & HF2 & E2); [intros o Ho; apply Hp, elem_of_app; by left|].
    rewrite <- E2. apply Hrep; [apply Hp, elem_of_app; right; by left|lia|done].
Qed.

(** ** Trimming the head *)
Lemma rep_level r es : rep_at writerEpoch r es → ie_Level r = Z.of_nat (Z.to_nat (ie_Level r)) ∧ (Z.to_nat (ie_Level r) < page_fuel)%nat.
Proof.
  intros (_ & _ & _ & Hv & _). destruct (ref_valid_inv _ Hv) as (_ & _ & _ & Hl & _). unfold MaxIndexLevel, page_fuel in *. lia.
Qed.

Lemma trim_section_spec x rs ess :
  chain rs → Forall2 (rep_at writerEpoch) rs ess → no_straddle x (concat ess) →
  let r := trim_refs (λ r, trimPageRef page_fuel c pages r x generation writerEpoch) x rs in
  (∃ rs' new, r = Ok (rs', new) ∧ kept x rs ess rs' new) ∨
  (zero_page c generation writerEpoch ∧ ∀ rs' new, r = Ok (rs', new) → Exists (λ r, ie_PageID r = zeros 16) rs').
Proof.
  intros Hc HF Hn. apply trim_refs_spec; [done..|]. intros r es _ Hr Hx Hs. pose proof (rep_level r es Hr) as [Hl Hf].
  destruct Hr as (HR & _ & _ & Hv & Hgr). by apply (trimPageRef_spec (Z.to_nat (ie_Level r))).
Qed.

Lemma trim_sections_cons x s ss :
  chain (os_Entries s) →
  trim_sections c pages x generation writerEpoch (s :: ss) =
  '(entries, objects) ← trim_refs (λ r, trimPageRef page_fuel c pages r x generation writerEpoch) x (os_Entries s);
  '(sections, more) ← trim_sections c pages x generation writerEpoch ss;
  Ok ({| os_Level := os_Level s; os_Entries := entries |} :: sections, objects ++ more).
Proof.
  intros Hc. cbn [trim_sections]. pose proof (search_from_lsn x _ Hc) as E. cbn [hi IndexEntry_Ranged] in E. rewrite E.
  unfold trim_refs. destruct (from_lsn x (os_Entries s)) as [|a rest]; [done|]. destruct (_ <? _); [|done].
  destruct (trimPageRef _ _ _ _ _ _ _) as [[a' new]|e]; done.
Qed.

Lemma trim_sections_spec h h' x level ss ess :
  hh_Generation h = g → hh_Generation h' = generation → hh_IndexLimit h' = hh_IndexLimit h →
  sections_ok h level ss → chain (refs_of ss) → Forall2 (rep_at writerEpoch) (refs_of ss) ess → no_straddle x (concat ess) →
  (∃ ss' new, trim_sections c pages x generation writerEpoch ss = Ok (ss', new) ∧
     kept x (refs_of ss) ess (refs_of ss') new ∧ sections_ok h' level ss' ∧ length ss' = length ss) ∨
  (zero_page c generation writerEpoch ∧
   ∀ ss' new, trim_sections c pages x generation writerEpoch ss = Ok (ss', new) →
     Exists (λ r, ie_PageID r = zeros 16) (refs_of ss')).
Proof.
  intros Eg Eg' El. revert level ess; induction ss as [|s ss IH]; intros level ess Hok Hc HF Hn.
  { left. exists [], []. inversion HF; subst. split; [done|]. split; [by apply kept_nil|done]. }
  destruct Hok as [(Hl & Hlen & Hrs) Hok]. rewrite refs_of_cons in Hc, HF. pose proof Hc as Hcc. apply chain_app in Hcc as (Hc1 & Hc2 & _).
  apply Forall2_app_inv_l in HF as (ess1 & ess2 & HF1 & HF2 & ->). rewrite concat_app in Hn. apply no_straddle_app in Hn as [Hn1 Hn2].
  rewrite trim_sections_cons by done.
  destruct (trim_section_spec x (os_Entries s) ess2 Hc2 HF2 Hn2) as [(rs' & new2 & -> & K2)|[Hz Hz2]].
  2: { right. split; [done|]. intros ss' new HO. inv_ok. destruct x0 as [rs' new2]. inv_ok. destruct x0 as [ss'' new1]. inv_ok.
       rewrite refs_of_cons, Exists_app. right. by eapply Hz2. }
  cbn [mbind result_bind]. destruct (IH (level + 1) ess1 Hok Hc1 HF1 Hn1) as [(ss' & new1 & -> & K1 & Hok' & Hlen')|[Hz Hz1]].
  2: { right. split; [done|]. intros ss' new HO. inv_ok. destruct x0 as [ss'' new1]. inv_ok.
       rewrite refs_of_cons, Exists_app. left. by eapply Hz1. }
  left. cbn [mbind result_bind]. do 2 eexists. split; [done|]. rewrite !refs_of_cons. cbn [os_Entries].
  split; [by apply kept_app|]. split; [|cbn; congruence]. split; [|done]. split; [done|].
  rewrite Eg in Hrs. cbn [os_Entries]. rewrite El, Eg'. split; [pose proof (kp_len _ _ _ _ _ K2); lia|].
  by apply (kp_refs _ _ _ _ _ K2).
Qed.

Lemma drop_empty_spec ss :
  ∃ k, ss = k ++ drop_empty ss ∧ Forall (λ s, os_Entries s = []) k.
Proof.
  induction ss as [|s ss (k & E & Hk)]; [by exists []|]. cbn [drop_empty]. case_bool_decide as Hs.
  - exists (s :: k). split; [by rewrite <- app_comm_cons, <- E|by constructor].
  - by exists [].
Qed.

(** Dropping the trailing empty sections keeps the references. *)
Lemma drop_trailing ss :
  ∃ k, ss = rev (drop_empty (rev ss)) ++ k ∧ refs_of (rev (drop_empty (rev ss))) = refs_of ss.
Proof.
  destruct (drop_empty_spec (rev ss)) as (k & E & Hk). exists (rev k).
  assert (E' : ss = rev (drop_empty (rev ss)) ++ rev k) by (by rewrite <- rev_app_distr, <- E, rev_involutive).
  split; [done|]. rewrite E' at 2. rewrite refs_of_app, (refs_of_empty (rev k)); [done|].
  apply Forall_forall. intros s Hs. apply (proj1 (Forall_forall _ _) Hk). apply list_elem_of_In. rewrite in_rev. by apply list_elem_of_In.
Qed.
End trim.

(** ** The new head *)
Lemma from_lsn_base {A} `{Ranged A} (es : list A) e x :
  chain es → e ∈ es → lo e ≤ x ≤ hi e → from_lsn x es = from_lsn (lo e) es.
Proof.
  intros Hc He Hx. apply List.filter_ext_in. intros b Hb%list_elem_of_In.
  destruct (Z.leb_spec (lo e) (hi b)) as [Hl|Hl]; [|apply Z.leb_gt; lia]. apply Z.leb_le.
  apply list_elem_of_lookup_1 in He as [i Hi]. apply list_elem_of_lookup_1 in Hb as [j Hj].
  destruct (Nat.lt_trichotomy i j) as [Hij|[->|Hij]].
  - destruct (chain_lt es i j e b Hc Hi Hj Hij). destruct (chain_range_ok es b Hc ltac:(by eapply list_elem_of_lookup_2)). lia.
  - simplify_eq. lia.
  - destruct (chain_lt es j i b e Hc Hj Hi Hij). lia.
Qed.

Lemma refs_segments_concat ss : refs_segments (concat (map os_Entries ss)) = refs_segments (refs_of ss).
Proof.
  unfold refs_segments. induction ss as [|s ss IH]; [done|]. rewrite refs_of_cons. cbn [map concat]. rewrite !sumZ_app, IH. lia.
Qed.

Lemma count_refs_spec acc rs :
  Forall (λ r, 0 ≤ ie_SegmentCount r) rs → 0 ≤ acc → acc + refs_segments rs ≤ MaxUint64 →
  count_refs acc rs = Ok (acc + refs_segments rs).
Proof.
  unfold refs_segments. intros HF. revert acc; induction HF as [|e es He HF IH]; intros acc Ha Hs; cbn [count_refs sumZ] in *.
  { f_equal. lia. }
  pose proof (sumZ_nonneg ie_SegmentCount es HF). rewrite (proj2 (Z.ltb_ge _ _)) by lia.
  rewrite uint64_id by (unfold_widths; lia). rewrite IH by lia. f_equal. lia.
Qed.

Lemma reachableSegmentCount_spec ss active :
  Forall (λ r, 0 ≤ ie_SegmentCount r) (refs_of ss) → refs_segments (refs_of ss) + len active ≤ MaxUint64 →
  reachableSegmentCount ss active = Ok (refs_segments (refs_of ss) + len active).
Proof.
  intros HF Hs. unfold reachableSegmentCount. pose proof (len_nonneg active).
  pose proof (sumZ_nonneg ie_SegmentCount _ HF) as Hnn. fold (refs_segments (refs_of ss)) in Hnn.
  rewrite count_refs_spec; rewrite ?refs_segments_concat; [|..|lia|lia].
  - cbn [mbind result_bind]. rewrite Z.add_0_l, (proj2 (Z.ltb_ge _ _)) by lia. by rewrite uint64_id by (unfold_widths; lia).
  - apply Forall_forall. intros r Hr. apply (proj1 (Forall_forall _ _) HF). unfold refs_of.
    apply list_elem_of_In, in_concat in Hr as (l & Hl & Hr). apply list_elem_of_In, in_concat. exists l. split; [|done].
    apply in_map_iff in Hl as (s & <- & Hs'). apply in_map_iff. exists s. split; [done|]. by rewrite <- in_rev.
Qed.

Section apply.
Context `{XXHash} (c : Config) (pages : PageSource) (head : Head) (es : list LeafEntry).
Context (HR : catalog_rep c pages head es) (Hgen : hh_Generation (hd_Header head) ≠ MaxUint64).
Let hdr := hd_Header head.
Let g := hh_Generation hdr.
Let epoch := hh_WriterEpoch hdr.
Let generation := uint64 (g + 1).

Lemma retention_generation : generation = g + 1 ∧ 0 < generation ≤ MaxUint64.
Proof.
  pose proof (cr_typed _ _ _ _ HR) as (Ht & _). unfold HeadHeader_typed in Ht. typed_fields.
  unfold generation, g, hdr in *. rewrite uint64_id by (unfold_widths; lia). unfold_widths. lia.
Qed.

Lemma retention_seal_ok : epoch ≠ 0 → seal_ok c generation epoch.
Proof.
  intros He. pose proof (cr_typed _ _ _ _ HR) as (Ht & _). unfold HeadHeader_typed in Ht. typed_fields. pose proof (cr_ok _ _ _ _ HR) as Hk.
  destruct (validateConfigHead_inv _ _ (cr_config _ _ _ _ HR)) as (E1 & E2 & E3 & E4 & E5 & E6 & _).
  destruct retention_generation. constructor; rewrite <- ?E1, <- ?E2, <- ?E6; try done; try apply Hk. unfold epoch, hdr in *. unfold_widths. lia.
Qed.

(** The history, split into what is below the sections and the active leaves. *)
Lemma history_split :
  ∃ ess, Forall2 (rep_at c pages g epoch) (refs_of (hd_Sections head)) ess ∧ es = concat ess ++ hd_Active head ∧
    chain (refs_of (hd_Sections head)) ∧ chain (hd_Active head).
Proof.
  pose proof (cr_ok _ _ _ _ HR) as Hk. destruct (cr_roots _ _ _ _ HR) as (ess & HF & ->). pose proof (headRoots_chain _ Hk) as Hc.
  rewrite headRoots_split in HF, Hc. apply Forall2_app_inv_l in HF as (ess1 & ess2 & HF1 & HF2 & ->).
  apply chain_app in Hc as (Hc1 & Hc2 & _). apply (chain_map RefRoot) in Hc1; [|done..]. apply (chain_map LeafRoot) in Hc2; [|done..].
  exists ess1. rewrite concat_app, (leaves_rep_map _ _ _ _ _ HF2). split; [|by split_and!]. apply refs_rep_map in HF1.
  eapply (Forall2_strengthen (.∈ refs_of (hd_Sections head))); [by apply Forall_forall|exact HF1|]. intros r rs Hr Hrr.
  assert (Hin : RefRoot r ∈ headRoots head) by (rewrite headRoots_split; apply elem_of_app; left; by apply list_elem_of_fmap_2).
  eapply (rep_at_intro c pages g epoch epoch); [exact Hrr|by eapply headRoots_ref|by apply headRoots_generation|lia].
Qed.

(** What the new lists satisfy, when the history is cut at [x]. *)
Record retained (x oldest : Z) (active : list LeafEntry) (ss : list OpenIndexSection) (new : list PageObject) : Prop := {
  rd_kept : ∃ ess, es = concat ess ++ hd_Active head ∧
              kept c pages g generation epoch x (refs_of (hd_Sections head)) ess (refs_of ss) new;
  rd_sections : ∀ h', hh_Generation h' = generation → hh_IndexLimit h' = hh_IndexLimit hdr → sections_ok h' 1 ss;
  rd_len : (length ss ≤ 64)%nat;
  rd_active : active = from_lsn x (hd_Active head);
  rd_oldest : oldest = match list.head (from_lsn x es) with Some e => le_BaseLSN e | None => hh_NextLSN hdr end }.

Lemma history_oldest :
  hh_OldestLSN hdr = match list.head es with Some e => le_BaseLSN e | None => hh_NextLSN hdr end.
Proof.
  destruct HR as [_ Hk _ (ess & HF & E) _]. destruct (roots_expand _ _ _ _ Hk HF) as [HX _].
  destruct (expands_ends _ _ HX) as (Elo & _). rewrite <- E in Elo. destruct (headRoots_ends _ Hk) as (Hh & _ & Hn & _).
  destruct (list.head es) as [e|], (headRoots head) as [|r rs]; cbn in Elo; try done; [|by apply Hn].
  injection Elo as Elo. rewrite Elo. symmetry. by apply Hh.
Qed.

Lemma history_ends e : last es = Some e → le_LastLSN e + 1 = hh_NextLSN hdr.
Proof.
  intros He. destruct HR as [_ Hk _ (ess & HF & E) _]. destruct (roots_expand _ _ _ _ Hk HF) as [HX _].
  destruct (expands_ends _ _ HX) as (_ & Ehi & _). rewrite <- E, He in Ehi. destruct (headRoots_ends _ Hk) as (_ & Hl & _).
  destruct (last (headRoots head)) as [r|]; cbn in Ehi; [|done]. injection Ehi as Ehi. specialize (Hl r eq_refl). cbn in Hl. unfold hdr. lia.
Qed.

Lemma retained_same x : x ≤ hh_OldestLSN hdr → retained x (hh_OldestLSN hdr) (hd_Active head) (hd_Sections head) [].
Proof.
  intros Hx. destruct history_split as (ess & HF & E & Hc1 & Hc2). destruct (catalog_rep_bounds _ _ _ _ HR) as (Hc & Hv & HB & _).
  assert (Hall : Forall (λ e, x ≤ hi e) es).
  { apply Forall_forall. intros e He. destruct (HB e He). destruct (chain_range_ok es e Hc He). cbn in *. unfold hdr in Hx. lia. }
  pose proof Hall as Hall'. rewrite E in Hall'. apply Forall_app in Hall' as [Ha1 Ha2]. destruct retention_generation.
  constructor.
  - exists ess. split; [done|]. constructor; rewrite ?(from_lsn_all _ _ Ha1).
    + intros level HRr. eapply Forall_impl; [exact HRr|]. intros r. apply ref_at_mono. lia.
    + lia.
    + constructor.
    + constructor.
    + by left.
    + by eapply rep_segments.
    + exists ess. split; [|done]. eapply Forall2_impl; [exact HF|]. apply rep_at_expands.
    + intros pages' Hk _. exists ess. split; [|done]. by eapply rep_keeps.
  - intros h' E1 E2. eapply (sections_ok_mono hdr); [done| |exact (hk_sections _ (cr_ok _ _ _ _ HR))]. unfold g in *. lia.
  - pose proof (hk_sections_len _ (cr_ok _ _ _ _ HR)). unfold len in *. lia.
  - by rewrite from_lsn_all.
  - rewrite from_lsn_all by done. apply history_oldest.
Qed.

Lemma retained_none x : hh_NextLSN hdr ≤ x → retained x (hh_NextLSN hdr) [] [] [].
Proof.
  intros Hx. destruct history_split as (ess & HF & E & Hc1 & Hc2). destruct (catalog_rep_bounds _ _ _ _ HR) as (_ & _ & HB & _).
  assert (Hall : Forall (λ e, hi e < x) es).
  { apply Forall_forall. intros e He. destruct (HB e He). cbn. unfold hdr in Hx. lia. }
  pose proof Hall as Hall'. rewrite E in Hall'. apply Forall_app in Hall' as [Ha1 Ha2]. constructor.
  - exists ess. split; [done|]. by apply kept_nil, from_lsn_none.
  - done.
  - cbn. lia.
  - by rewrite from_lsn_none.
  - by rewrite from_lsn_none.
Qed.

(** The new roots stand for the kept history. *)
Lemma retained_roots x oldest active ss new head' :
  retained x oldest active ss new → hd_Active head' = active → hd_Sections head' = ss →
  ∃ ess, Forall2 expands (headRoots head') ess ∧ concat ess = from_lsn x es.
Proof.
  intros [(ess & E & HK) _ _ Ha _] E1 E2. destruct (kp_expands _ _ _ _ _ _ _ _ _ _ HK) as (ess' & HX & E').
  rewrite headRoots_split, E1, E2. exists (ess' ++ map (λ e, [e]) active). split.
  - apply Forall2_app.
    + clear -HX. induction HX as [|r l rs ls Hr HX IH]; cbn [map]; constructor; [exact Hr|done].
    + destruct (catalog_rep_bounds _ _ _ _ HR) as (Hc & _). rewrite E in Hc. apply chain_app in Hc as (_ & Hc & _).
      apply (chain_from_lsn x) in Hc. rewrite <- Ha in Hc. destruct Hc as [_ Hok]. clear -Hok.
      induction Hok as [|e l He Hok IH]; cbn [map]; constructor; [|done]. split; [|by split_and!].
      split; [repeat constructor|by constructor].
  - rewrite concat_app, E', E, from_lsn_app, Ha. f_equal. clear. induction (from_lsn x (hd_Active head)) as [|e l IH]; [done|].
    cbn. by rewrite IH.
Qed.

Lemma trimHead_spec x :
  no_straddle x es → is_Some (at_lsn x es) →
  (∃ active ss new, trimHead c pages head x generation epoch = Ok (active, ss, new) ∧ retained x x active ss new) ∨
  (zero_page c generation epoch ∧
   ∀ active ss new, trimHead c pages head x generation epoch = Ok (active, ss, new) →
     Exists (λ r, ie_PageID r = zeros 16) (refs_of ss)).
Proof.
  intros Hn Hat. pose proof (cr_ok _ _ _ _ HR) as Hk. destruct history_split as (ess & HF & E & Hc1 & Hc2).
  destruct (catalog_rep_bounds _ _ _ _ HR) as (Hc & Hv & HB & Hlast & _). destruct retention_generation as [Eg Hg].
  assert (He : epoch ≠ 0).
  { pose proof (hk_last _ Hk) as Hl. destruct (HasLastSegment head); [|rewrite Hlast in Hat by done; by destruct Hat].
    destruct Hl as (Hlv & Hle & _). destruct (leaf_valid_inv _ Hlv) as (_ & _ & _ & ?). unfold epoch, hdr. lia. }
  pose proof (retention_seal_ok He) as Hso. pose proof Hn as Hn'. rewrite E in Hn'. apply no_straddle_app in Hn' as [Hn1 _].
  set (h' := hd_Header (retention_head head 0 0 0 0 [] [])).
  unfold trimHead. pose proof (search_from_lsn x _ Hc2) as Es. cbn [hi LeafEntry_Ranged] in Es. rewrite Es. clear Es.
  destruct (trim_sections_spec c pages g generation epoch Hso ltac:(lia) hdr h' x 1 (hd_Sections head) ess)
    as [(ss' & new & -> & HK & Hok & Hlen)|[Hz Hz']]; [done|done|done|by apply hk_sections|done|done|done| |].
  2: { right. split; [done|]. intros active ss new HO. inv_ok. destruct x0 as [ss' new']. inv_ok.
       destruct (drop_trailing ss') as (k & _ & ->). by eapply Hz'. }
  left. cbn [mbind result_bind]. cbv zeta. destruct (drop_trailing ss') as (k & Ek & Er).
  set (ss := rev (drop_empty (rev ss'))) in *.
  assert (HD : retained x x (from_lsn x (hd_Active head)) ss new).
  { constructor.
    - exists ess. by rewrite Er.
    - intros h2 E1 E2. apply (sections_ok_mono h'); [done|rewrite E1; apply Z.le_refl|].
      rewrite sections_ok_lookup in Hok |- *. intros i s Hi. apply Hok. rewrite Ek. by apply lookup_app_l_Some.
    - pose proof (hk_sections_len _ Hk). apply (f_equal length) in Ek. rewrite length_app in Ek. unfold len in *. lia.
    - done.
    - pose proof (from_lsn_starts x es Hc Hn Hat) as Hs. destruct (list.head (from_lsn x es)); [|done]. cbn in Hs. by injection Hs. }
  match goal with |- context [headRoots ?h] => set (head' := h) end.
  destruct (retained_roots _ _ _ _ _ head' HD eq_refl eq_refl) as (ess2 & HX2 & E2).
  destruct (expands_ends _ _ HX2) as (Elo & _). rewrite E2, (from_lsn_starts x es Hc Hn Hat) in Elo.
  destruct (headRoots head') as [|r rs]; [done|]. cbn in Elo. injection Elo as Elo. rewrite (proj2 (Z.eqb_eq (seqLo r) x)) by congruence. do 3 eexists. by split.
Qed.

Lemma retention_lists_spec target :
  (∃ x oldest active ss new, retention_lists None c pages head target = Ok (oldest, active, ss, new) ∧
     from_lsn x es = from_lsn target es ∧ retained x oldest active ss new) ∨
  (zero_page c generation epoch ∧
   ∀ oldest active ss new, retention_lists None c pages head target = Ok (oldest, active, ss, new) →
     Exists (λ r, ie_PageID r = zeros 16) (refs_of ss)).
Proof.
  unfold retention_lists. cbv zeta. fold hdr. fold g. fold generation. fold epoch.
  destruct (Z.leb_spec target (hh_OldestLSN hdr)) as [H1|H1].
  { left. exists target. do 4 eexists. split; [done|]. split; [done|by apply retained_same]. }
  destruct (Z.leb_spec (hh_NextLSN hdr) target) as [H2|H2].
  { left. exists target. do 4 eexists. split; [done|]. split; [done|by apply retained_none]. }
  rewrite (FindSegment_rep _ _ _ _ _ HR). cbn [mbind result_bind].
  destruct (catalog_rep_bounds _ _ _ _ HR) as (Hc & _).
  assert (Hat : is_Some (at_lsn target es)).
  { pose proof history_oldest as Ho. pose proof history_ends as Hl. clear HR. destruct es as [|e0 es']; cbn in Ho; [unfold hdr in *; lia|].
    specialize (Hl _ (last_List_last e0 es')). eapply chain_cover; [done|done|apply last_List_last|]. cbn. lia. }
  destruct Hat as [e He]. rewrite He. cbn [fmap option_fmap option_map segmentRef sr_BaseLSN].
  apply at_lsn_Some in He as [He Hx]; [|done]. pose proof (from_lsn_base es e target Hc He Hx) as Ef. cbn [lo hi LeafEntry_Ranged] in Ef, Hx.
  destruct (Z.ltb_spec (hh_OldestLSN hdr) (le_BaseLSN e)) as [H3|H3].
  2: { left. exists (le_BaseLSN e). do 4 eexists. split; [done|]. split; [done|]. by apply retained_same. }
  destruct (chain_range_ok es e Hc He) as [Hle _]. cbn in Hle.
  destruct (trimHead_spec (le_BaseLSN e)) as [(active & ss & new & -> & HD)|[Hz Hz']].
  { by eapply no_straddle_base. } { exists e. apply at_lsn_Some; [done|]. cbn. split; [done|lia]. }
  - left. exists (le_BaseLSN e). do 4 eexists. split; [done|]. by split.
  - right. split; [done|]. intros oldest active ss new HO. inv_ok. destruct x as [[active' ss'] new']. inv_ok. by eapply Hz'.
Qed.

Lemma head_numbers : is_u64 (hh_NextLSN hdr) ∧ is_u64 (hh_ReachableSegmentCount hdr).
Proof. pose proof (cr_typed _ _ _ _ HR) as (Ht & _). unfold HeadHeader_typed in Ht. typed_fields. done. Qed.

Section result.
Context (x target version oldest : Z) (active : list LeafEntry) (ss : list OpenIndexSection) (new : list PageObject).
Context (HD : retained x oldest active ss new) (Ht0 : 0 ≤ target) (Ht1 : target ≤ hh_NextLSN hdr).
Context (Hv0 : 0 < version) (Hv1 : version ≤ MaxUint64).
Let reachable := len (from_lsn x es).
Let next := retention_head head target version oldest reachable active ss.

Lemma history_count : len es = hh_ReachableSegmentCount hdr.
Proof.
  unfold hdr. rewrite <- (hk_reachable _ (cr_ok _ _ _ _ HR)), head_segments. destruct history_split as (ess & HF & E & _).
  rewrite (rep_segments _ _ _ _ _ _ HF), E. unfold len. rewrite length_app. lia.
Qed.

Lemma retained_segments : refs_segments (refs_of ss) + len active = reachable.
Proof.
  destruct HD as [(ess & E & HK) _ _ Ha _]. unfold reachable. rewrite (kp_segments _ _ _ _ _ _ _ _ _ _ HK), E, from_lsn_app, Ha.
  unfold len. rewrite length_app. lia.
Qed.

Lemma retained_refs r : r ∈ refs_of ss → ref_valid r ∧ ie_Generation r ≤ generation.
Proof.
  intros Hr. destruct (sections_refs (hd_Header next) 1 ss r) as (l & _ & Hv & _ & Hg'); [|done|by split].
  by apply (rd_sections _ _ _ _ _ HD).
Qed.

Lemma retained_active : Forall leaf_valid active ∧ Forall (λ e, le_WriterEpoch e ≤ epoch) active ∧ Sorted epoch_le active.
Proof.
  destruct (hk_active _ (cr_ok _ _ _ _ HR)) as [Ha Hs]. destruct history_split as (_ & _ & _ & _ & Hc).
  rewrite (rd_active _ _ _ _ _ HD), <- (search_from_lsn x _ Hc). split; [|split; [|by apply Sorted_drop]].
  - apply Forall_drop. eapply Forall_impl; [exact Ha|]. by intros ? [? _].
  - apply Forall_drop. eapply Forall_impl; [exact Ha|]. by intros ? [_ ?].
Qed.

Lemma retained_head_oldest : 0 ≤ oldest ≤ hh_NextLSN hdr.
Proof.
  destruct head_numbers as [[? _] _].
  destruct (catalog_rep_bounds _ _ _ _ HR) as (Hc & Hv & HB & _). rewrite (rd_oldest _ _ _ _ _ HD).
  destruct (list.head (from_lsn x es)) as [e|] eqn:E; [|lia].
  assert (He : e ∈ from_lsn x es) by (destruct (from_lsn x es); [done|injection E as ->; by left]).
  apply elem_of_from_lsn in He as [He _].
  destruct (HB e He). apply (proj1 (Forall_forall _ _) Hv) in He. destruct (leaf_valid_inv _ He) as ([? _] & ? & _). cbn in *. unfold hdr. lia.
Qed.

Lemma retention_head_typed : Head_typed next.
Proof.
  pose proof (cr_typed _ _ _ _ HR) as (Ht & Htl & Hta & Hts). unfold HeadHeader_typed in Ht. typed_fields.
  destruct retained_head_oldest. destruct retained_active as (Hv & _). destruct head_numbers as [[_ ?] [_ ?]].
  assert (Hr : is_u64 reachable).
  { unfold is_u64, reachable. pose proof (from_lsn_len x es). rewrite history_count in *. pose proof (len_nonneg (from_lsn x es)). lia. }
  assert (Ho : is_u64 oldest) by (unfold is_u64; lia). assert (Ha : is_u64 target) by (unfold is_u64; lia).
  assert (Hvs : is_u64 version) by (unfold is_u64; lia).
  split; [|split; [done|split]].
  - unfold HeadHeader_typed, next, retention_head; cbn. pose proof (uint64_range (hh_Generation (hd_Header head) + 1)).
    pose proof (uint32_range (len active)). pose proof (uint32_range (len ss)).
    typed_fields. repeat match goal with |- ?P ∧ _ => split end; assumption.
  - eapply Forall_impl; [exact Hv|]. by intros ? [? _].
  - eapply sections_typed; [|exact (rd_len _ _ _ _ _ HD)]. by apply (rd_sections _ _ _ _ _ HD (hd_Header next)).
Qed.

Lemma retention_head_ok : head_ok next.
Proof.
  pose proof (cr_ok _ _ _ _ HR) as Hk. destruct (catalog_rep_bounds _ _ _ _ HR) as (Hc & _ & HB & Hnl & _).
  destruct (retained_roots _ _ _ _ _ next HD eq_refl eq_refl) as (ess & HX & E).
  pose proof (expands_chain_inv _ _ HX) as HCH. rewrite E in HCH. specialize (HCH (chain_from_lsn x es Hc)).
  destruct (expands_ends _ _ HX) as (Elo & Ehi & _). rewrite E in Elo, Ehi.
  pose proof (headRoots_ranges next) as HRng. pose proof (rd_len _ _ _ _ _ HD) as Hsl. destruct retained_active as (Av & Ae & As).
  pose proof (hk_leaf_limit _ Hk). pose proof (hk_active_len _ Hk) as Hal. pose proof (len_nonneg active).
  assert (Hal' : len active ≤ len (hd_Active head)) by (rewrite (rd_active _ _ _ _ _ HD); apply from_lsn_len).
  pose proof (hk_last _ Hk) as Hl.
  constructor.
  all: try (apply Hk).
  all: try (rewrite <- HRng).
  - cbn. fold hdr in Hal |- *. lia.
  - cbn. apply uint32_id. split; lia.
  - cbn. unfold len. lia.
  - cbn. apply uint32_id. unfold len. split; lia.
  - apply retained_head_oldest.
  - exact Ht1.
  - cbn. lia.
  - cbn. unfold reachable. pose proof (from_lsn_len x es). rewrite history_count in *. pose proof (hk_counts _ Hk). unfold hdr in *. lia.
  - by apply (rd_sections _ _ _ _ _ HD (hd_Header next)).
  - split; [|exact As]. apply Forall_forall. intros e He.
    split; [by apply (proj1 (Forall_forall _ _) Av)|by apply (proj1 (Forall_forall _ _) Ae)].
  - apply (chain_map root_range); [by intros []..|exact HCH].
  - cbn [next retention_head hd_Header hh_OldestLSN hh_NextLSN]. rewrite (rd_oldest _ _ _ _ _ HD).
    destruct (list.head (from_lsn x es)) as [e|], (headRoots next) as [|r rs]; cbn [map list.head]; try done.
    cbn in Elo. injection Elo as ->. by destruct r.
  - intros r Hrl. change (map root_range ?l) with (root_range <$> l) in Hrl. rewrite fmap_last in Hrl.
    destruct (last (headRoots next)) as [r'|]; [|done]. injection Hrl as <-.
    destruct (last (from_lsn x es)) as [e|] eqn:El; [|done]. cbn in Ehi. injection Ehi as Ehi.
    rewrite from_lsn_last in El by (try done; by destruct (from_lsn x es)). pose proof (history_ends _ El).
    cbn [next retention_head hd_Header hh_NextLSN]. fold hdr. destruct r'; cbn in *; lia.
  - rewrite HRng, head_segments. apply retained_segments.
  - change (HasLastSegment next) with (HasLastSegment head).
    cbn [next retention_head hd_LastSegment hd_Header hh_WriterEpoch hh_SegmentCount hh_NextLSN hd_Active]. destruct (HasLastSegment head).
    + destruct Hl as (? & ? & ? & ? & ? & H6). repeat match goal with |- ?P ∧ _ => split end; try done.
      intros l El. apply H6. destruct history_split as (_ & _ & _ & _ & Hc2). rewrite (rd_active _ _ _ _ _ HD) in El.
      rewrite from_lsn_last in El; [done|done|by destruct (from_lsn x (hd_Active head))].
    + destruct Hl as (? & _ & ?). split; [done|]. split; [|done]. rewrite Hnl in Elo by done.
      destruct (headRoots next) as [|r rs]; [done|discriminate Elo].
Qed.

Lemma retained_new : Forall (page_new c generation 0) new ∧ NoDup (map po_Level new).
Proof.
  destruct (rd_kept _ _ _ _ _ HD) as (ess & _ & HK). split; [|apply (kp_levels _ _ _ _ _ _ _ _ _ _ HK)].
  eapply Forall_impl; [exact (kp_new _ _ _ _ _ _ _ _ _ _ HK)|]. by intros o [? _].
Qed.

Lemma retention_head_rep : catalog_rep c (put_pages new pages) next (from_lsn x es).
Proof.
  destruct retained_new as [HN HDup]. destruct retention_generation as [Eg _]. destruct (catalog_rep_bounds _ _ _ _ HR) as (Hc & _).
  constructor; [exact retention_head_typed|exact retention_head_ok|exact (cr_config _ _ _ _ HR)| |].
  - destruct HD as [(ess & E & HK) _ _ Ha _].
    destruct (kp_rep _ _ _ _ _ _ _ _ _ _ HK (put_pages new pages)) as (ess' & HF & E').
    + intros level ref ep rs Hv Hgr Hl Hrep. eapply page_rep_put; [|done|exact Hgr|exact Hl|exact Hrep].
      eapply page_new_later; [|exact HN]. lia.
    + intros o Ho. apply put_hit; [|done]. by eapply page_new_keys.
    + exists (ess' ++ map (λ e, [e]) active). rewrite headRoots_split. split.
      * apply Forall2_app; [by apply refs_rep_map|]. cbn [next retention_head hd_Active]. clear.
        induction active as [|e l IH]; cbn [map]; constructor; done.
      * rewrite concat_app, E', E, from_lsn_app, Ha. f_equal. clear. induction (from_lsn x (hd_Active head)) as [|e l IH]; [done|].
        cbn. by rewrite <- IH.
  - intros e He. apply (cr_last _ _ _ _ HR). rewrite <- He. symmetry. apply from_lsn_last; [done|].
    intros E. by rewrite E in He.
Qed.

Lemma retention_reachable : reachableSegmentCount ss active = Ok reachable.
Proof.
  rewrite reachableSegmentCount_spec; rewrite ?retained_segments; [done| |].
  - apply Forall_forall. intros r Hr. destruct (retained_refs r Hr) as [Hv _]. destruct (ref_valid_inv _ Hv) as (_ & _ & _ & _ & _ & ? & _). lia.
  - unfold reachable. pose proof (from_lsn_len x es). rewrite history_count in *. destruct head_numbers as [_ [_ ?]]. lia.
Qed.
End result.
End apply.

(** ** [ApplyRetention] *)
Definition fresh_request (head : Head) (beforeLSN policyVersion : Z) : Prop :=
  hh_AppliedRetentionVersion (hd_Header head) < policyVersion ≤ MaxUint64 ∧
  hh_AppliedRetentionLSN (hd_Header head) ≤ beforeLSN ∧ hh_Generation (hd_Header head) ≠ MaxUint64.

(** What an applied request leaves in the head besides the history. *)
Record retention_applied (head head' : Head) (beforeLSN policyVersion : Z) : Prop := {
  ra_generation : hh_Generation (hd_Header head') = hh_Generation (hd_Header head) + 1;
  ra_version : hh_AppliedRetentionVersion (hd_Header head') = policyVersion;
  ra_lsn : hh_AppliedRetentionLSN (hd_Header head') = Z.min beforeLSN (hh_NextLSN (hd_Header head));
  ra_next : hh_NextLSN (hd_Header head') = hh_NextLSN (hd_Header head);
  ra_segments : hh_SegmentCount (hd_Header head') = hh_SegmentCount (hd_Header head);
  ra_epoch : hh_WriterEpoch (hd_Header head') = hh_WriterEpoch (hd_Header head);
  ra_writer : hh_WriterID (hd_Header head') = hh_WriterID (hd_Header head);
  ra_last : hd_LastSegment head' = hd_LastSegment head }.

Lemma from_lsn_clamp `{XXHash} c pages head es x :
  catalog_rep c pages head es → hh_NextLSN (hd_Header head) ≤ x → from_lsn (hh_NextLSN (hd_Header head)) es = from_lsn x es.
Proof.
  intros HR Hx. destruct (catalog_rep_bounds _ _ _ _ HR) as (_ & _ & HB & _).
  rewrite !from_lsn_none; [done|..]; apply Forall_forall; intros e He; destruct (HB e He); cbn; lia.
Qed.

Lemma ApplyRetention_fresh `{XXHash} c pages head beforeLSN policyVersion :
  validateConfigHead c head = Ok () → fresh_request head beforeLSN policyVersion → 0 ≤ hh_AppliedRetentionVersion (hd_Header head) →
  ApplyRetention None c (Some pages) head beforeLSN policyVersion =
  let target := Z.min beforeLSN (hh_NextLSN (hd_Header head)) in
  '(oldest, active, sections, objects) ← retention_lists None c pages head target;
  reachable ← reachableSegmentCount sections active;
  let next := retention_head head target policyVersion oldest reachable active sections in
  body ← MarshalHead next;
  Ok {| mu_Head := next; mu_HeadBody := body; mu_Pages := objects |}.
Proof.
  intros Hc ([Hv _] & Hl & Hg) H0. unfold ApplyRetention. rewrite Hc. cbn [mbind result_bind]. cbv zeta.
  rewrite (proj2 (Z.eqb_neq policyVersion 0)), (proj2 (Z.eqb_neq policyVersion (hh_AppliedRetentionVersion _))) by lia. cbn [andb].
  rewrite (proj2 (Z.leb_gt policyVersion _)), (proj2 (Z.ltb_ge beforeLSN _)), (proj2 (Z.eqb_neq _ _) Hg) by lia.
  replace (if hh_NextLSN (hd_Header head) <? beforeLSN then _ else _) with (Z.min beforeLSN (hh_NextLSN (hd_Header head)))
    by (destruct (Z.ltb_spec (hh_NextLSN (hd_Header head)) beforeLSN); lia). done.
Qed.

Lemma retention_rep `{XXHash} c pages head es beforeLSN policyVersion :
  catalog_rep c pages head es → is_u64 beforeLSN → fresh_request head beforeLSN policyVersion →
  (∃ m, ApplyRetention None c (Some pages) head beforeLSN policyVersion = Ok m ∧
     catalog_rep c (put_pages (mu_Pages m) pages) (mu_Head m) (from_lsn beforeLSN es) ∧
     later_pages c (hh_Generation (hd_Header head)) (mu_Pages m) ∧
     MarshalHead (mu_Head m) = Ok (mu_HeadBody m) ∧ retention_applied head (mu_Head m) beforeLSN policyVersion) ∨
  (zero_page c (hh_Generation (hd_Header head) + 1) (hh_WriterEpoch (hd_Header head)) ∧
   ∃ e, ApplyRetention None c (Some pages) head beforeLSN policyVersion = Err e).
Proof.
  intros HR [Hb0 _] Hfresh. pose proof Hfresh as ([Hv Hv'] & Hl & Hg). pose proof (cr_typed _ _ _ _ HR) as (Ht & _).
  unfold HeadHeader_typed in Ht. destruct Ht as (_ & _ & _ & _ & _ & _ & _ & _ & [HN0 HN1] & _ & _ & [H0 _] & _).
  rewrite (ApplyRetention_fresh _ _ _ _ _ (cr_config _ _ _ _ HR) Hfresh H0). cbv zeta.
  set (target := Z.min beforeLSN (hh_NextLSN (hd_Header head))).
  assert (Ef : from_lsn target es = from_lsn beforeLSN es).
  { unfold target. destruct (Z.min_spec beforeLSN (hh_NextLSN (hd_Header head))) as [[_ ->]|[? ->]]; [done|]. by eapply from_lsn_clamp. }
  destruct (retention_generation _ _ _ _ HR Hg) as [Eg _].
  destruct (retention_lists_spec c pages head es HR Hg target) as [(x & oldest & active & ss & new & -> & Ex & HD)|[Hz Hz']].
  - left. cbn [mbind result_bind].
    rewrite (retention_reachable c pages head es HR x target policyVersion oldest active ss new HD). cbn [mbind result_bind].
    pose proof (retention_head_rep c pages head es HR Hg x target policyVersion oldest active ss new HD
                  ltac:(unfold target; lia) ltac:(unfold target; lia) ltac:(lia) Hv') as HR'.
    destruct Marshal_total as (_ & _ & HM). destruct (proj2 (HM _ (cr_typed _ _ _ _ HR')) (cr_ok _ _ _ _ HR')) as [body HB].
    rewrite HB. eexists. split; [reflexivity|]. cbn [mu_Pages mu_Head mu_HeadBody]. rewrite <- Ef, <- Ex. split; [done|].
    split; [|split; [done|constructor; try done; exact Eg]].
    eapply page_new_later; [|by apply (retained_new c pages head es x oldest active ss new)]. lia.
  - right. rewrite Eg in Hz. split; [done|]. destruct (_ ≫= _) as [m|e] eqn:E; [exfalso|eauto]. inv_ok. destruct x as [[[oldest active] ss] new].
    inv_ok. specialize (Hz' _ _ _ _ Hbind). unfold MarshalHead in Hbind1. inv_ok.
    apply Exists_exists in Hz' as (r & Hr & Hid). exact (validateHead_ids _ Hbind2 r Hr Hid).
Qed.


