(* ===== verification/CatExample.v ===== *)
(** * A concrete blob catalog

    A catalog with one leaf per page and two references per index page, grown
    by a creation, a takeover and two appends, so that a leaf page is sealed by
    each append and an index page by the second.  It instantiates the hash
    parameter and shows that the hypotheses of the catalog theorems hold
    together on a state the program reaches. *)
From S2P Require Import Prelude Hash SegFormat Ranges PMeta KeyLayout CatFormat CatCodec CatTree CatReader CatAppend CatRetention.

#[local] Existing Instance xxhash_example.

Definition ex_writer : list byte := be_put 16 4.
Definition ex_entry (base last t0 t1 id : Z) : LeafEntry := {|
  le_BaseLSN := base; le_LastLSN := last; le_MinTimestampMS := t0; le_MaxTimestampMS := t1;
  le_RecordCount := last - base + 1; le_BlockCount := 1; le_SizeBytes := 500; le_BlockIndexOffset := 200;
  le_BlockIndexLength := 128; le_Codec := 0; le_HashAlgo := 1; le_SegmentHash := 7; le_TrailerHash := 8;
  le_WriterEpoch := 1; le_SegmentUUID := be_put 16 id; le_WriterTag := ex_writer |}.
Definition ex_e1 : LeafEntry := ex_entry 5 6 10 20 31.
Definition ex_e2 : LeafEntry := ex_entry 7 9 20 25 32.
Definition ex_s1 : SegmentRef := segmentRef example_config ex_e1.
Definition ex_s2 : SegmentRef := segmentRef example_config ex_e2.

Definition ex_head0 : Head := new_head example_config 5.
Definition ex_head1 : Head := takeover_head ex_head0 ex_writer.
Definition no_mutation : Mutation := {| mu_Head := ex_head0; mu_HeadBody := []; mu_Pages := [] |}.
Definition mutation_of (r : result Mutation) : Mutation := match r with Ok m => m | Err _ => no_mutation end.
Definition ex_m1 : Mutation := Eval vm_compute in mutation_of (Append example_config ex_head1 ex_s1).
Definition ex_m2 : Mutation := Eval vm_compute in mutation_of (Append example_config (mu_Head ex_m1) ex_s2).

Definition ex_pages0 : PageSource := λ _, Err [BlobErrObjectNotFound].
Definition ex_pages1 : PageSource := put_pages (mu_Pages ex_m1) ex_pages0.
Definition ex_pages2 : PageSource := put_pages (mu_Pages ex_m2) ex_pages1.

Lemma ex_append1 : Append example_config ex_head1 ex_s1 = Ok ex_m1.
Proof. vm_compute. reflexivity. Qed.
Lemma ex_append2 : Append example_config (mu_Head ex_m1) ex_s2 = Ok ex_m2.
Proof. vm_compute. reflexivity. Qed.
(** The first append seals one page, the second a leaf and an index page. *)
Example ex_page_counts : length (mu_Pages ex_m1) = 1%nat ∧ length (mu_Pages ex_m2) = 2%nat.
Proof. vm_compute. done. Qed.

Lemma ex_typed1 : SegmentRef_typed ex_s1.
Proof. unfold SegmentRef_typed; cbn -[be_put]; closed_typed. Qed.
Lemma ex_typed2 : SegmentRef_typed ex_s2.
Proof. unfold SegmentRef_typed; cbn -[be_put]; closed_typed. Qed.

Lemma ex_rep0 : catalog_rep example_config ex_pages0 ex_head0 [].
Proof.
  apply new_head_rep; try (vm_compute; congruence); try (split; vm_compute; congruence); vm_compute; reflexivity.
Qed.
Lemma ex_rep1 : catalog_rep example_config ex_pages0 ex_head1 [].
Proof. apply takeover_rep; [exact ex_rep0|reflexivity|vm_compute; discriminate|vm_compute; discriminate|vm_compute; discriminate]. Qed.
Lemma ex_rep2 : catalog_rep example_config ex_pages1 (mu_Head ex_m1) [ex_e1].
Proof.
  destruct (append_rep _ _ _ _ _ _ ex_rep1 ex_typed1 ex_append1) as (entry & HC & _ & HR & _).
  assert (E : leafEntry example_config ex_s1 = Ok ex_e1) by (vm_compute; reflexivity).
  pose proof (ac_entry _ _ _ _ HC) as E'. rewrite E in E'. injection E' as <-. exact HR.
Qed.
Lemma ex_rep3 : catalog_rep example_config ex_pages2 (mu_Head ex_m2) [ex_e1; ex_e2].
Proof.
  destruct (append_rep _ _ _ _ _ _ ex_rep2 ex_typed2 ex_append2) as (entry & HC & _ & HR & _).
  assert (E : leafEntry example_config ex_s2 = Ok ex_e2) by (vm_compute; reflexivity).
  pose proof (ac_entry _ _ _ _ HC) as E'. rewrite E in E'. injection E' as <-. exact HR.
Qed.

(** ** The theorems applied to it *)
Lemma catalog_reads_spec_witness :
  FindSegment example_config ex_pages2 None (mu_Head ex_m2) 8 = Ok (Some ex_s2) ∧
  LookupTimestamp example_config ex_pages2 None (mu_Head ex_m2) 15 = Ok (Some ex_s1).
Proof.
  destruct (catalog_reads_spec _ _ _ _ ex_rep3) as (HF & HT & _). split; [exact (HF 8)|exact (HT 15)].
Defined.

Lemma catalog_point_reads_safe_witness :
  safe_result example_config ex_pages0 (hh_WriterEpoch (hd_Header (mu_Head ex_m2))) (λ e, le_BaseLSN e ≤ 5 ≤ le_LastLSN e)
    (FindSegment example_config ex_pages0 None (mu_Head ex_m2) 5).
Proof.
  destruct (catalog_point_reads_safe example_config ex_pages0 (mu_Head ex_m2) (cr_ok _ _ _ _ ex_rep3) (cr_config _ _ _ _ ex_rep3))
    as [HF _]. exact (HF 5).
Defined.

Lemma append_refines_witness :
  ∃ entry, segmentRef example_config entry = ex_s2 ∧
    catalog_rep example_config (put_pages (mu_Pages ex_m2) ex_pages1) (mu_Head ex_m2) ([ex_e1] ++ [entry]).
Proof.
  destruct (append_refines _ _ _ _ _ _ ex_rep2 ex_typed2 ex_append2) as (entry & Hs & HR & _). exists entry. split; [exact Hs|exact HR].
Defined.

Lemma ex_checks2 : append_checks example_config (mu_Head ex_m1) ex_s2 ex_e2.
Proof.
  constructor; try (vm_compute; reflexivity); try (vm_compute; congruence).
Qed.

Lemma takeover_fences_witness :
  ∃ m, Takeover example_config (mu_Head ex_m2) (be_put 16 9) = Ok m ∧ catalog_rep example_config ex_pages2 (mu_Head m) [ex_e1; ex_e2].
Proof.
  destruct (takeover_fences _ _ _ _ (be_put 16 9) ex_rep3) as (m & HT & _ & HR & _);
    [reflexivity|vm_compute; discriminate|vm_compute; discriminate|vm_compute; discriminate|].
  exists m. split; [exact HT|exact HR].
Defined.

Lemma new_catalog_witness :
  ∃ head body, NewHead example_config 5 = Ok (head, body) ∧ catalog_rep example_config ex_pages0 head [].
Proof.
  destruct (new_catalog (str "catalog") [] (str "orders") 3 1 2 1 example_config 5 ex_pages0) as (head & body & HN & _ & HR & _);
    [vm_compute; reflexivity|closed_typed|closed_typed|closed_typed|closed_typed|closed_typed|vm_compute; discriminate
    |vm_compute; discriminate|vm_compute; discriminate|].
  exists head, body. split; [exact HN|exact HR].
Defined.

(** The witness of [append_accepts] takes the first branch. *)
Example ex_accepts : is_ok (Append example_config (mu_Head ex_m1) ex_s2) = true.
Proof. vm_compute. reflexivity. Qed.

(** Retention inside the second segment: the index page and the first leaf are
    replaced by an index page over the second leaf. *)
Definition ex_m3 : Mutation := Eval vm_compute in
  mutation_of (ApplyRetention None example_config (Some ex_pages2) (mu_Head ex_m2) 8 1).
Lemma ex_retention : ApplyRetention None example_config (Some ex_pages2) (mu_Head ex_m2) 8 1 = Ok ex_m3.
Proof. vm_compute. reflexivity. Qed.


