(* ===== verification/BlobStore.v ===== *)
(** * Object stores (internal/blobstore)

    The data types of store.go, the in-memory store of memory/memory.go
    operation by operation, and the contract the catalog relies on: a relation
    [blob_call] between a call, the objects before, the response and the objects
    after, transcribed from the documentation of the [Store] interface.  A call
    may fail without saying whether it took effect, and a failed write may still
    be delivered later ([blob_deliver]).  The in-memory store refines the
    contract. *)
From stdpp Require Import lexico sorting.
From S2P Require Import Prelude PMeta KeyLayout.

#[export] Program Instance byte_countable : Countable byte := inj_countable Byte.to_N Byte.of_N _.
Next Obligation. intros b. apply Byte.of_to_N. Qed.

(** ** store.go *)
Definition DefaultListLimit : Z := 1000.
Definition MaxListLimit : Z := 1000.
Definition JSONContentType : gostring := str "application/json".
Definition BinaryContentType : gostring := str "application/octet-stream".

(** [strings.HasSuffix] and [strings.HasPrefix]. *)
Definition HasSuffix (s suffix : gostring) : bool := bool_decide (suffix `suffix_of` s).
Definition HasPrefix (s prefix : gostring) : bool := bool_decide (prefix `prefix_of` s).

Definition ContentTypeForKey (key : gostring) : gostring :=
  if HasSuffix key (str ".plc") then BinaryContentType else JSONContentType.

Record Object := mkObject { o_Key : gostring; o_Body : list byte; o_Token : gostring; o_CreatedAt : Z }.
Record ObjectInfo := mkObjectInfo { oi_Key : gostring; oi_Token : gostring; oi_SizeBytes : Z; oi_CreatedAt : Z }.
Record ListOptions := mkListOptions { lo_Prefix : gostring; lo_AfterKey : gostring; lo_Limit : Z }.
Record ObjectPage := mkObjectPage { op_Objects : list ObjectInfo; op_NextAfterKey : gostring; op_HasMore : bool }.

Definition zero_Object : Object := mkObject [] [] [] 0.

Definition NormalizedLimit (o : ListOptions) : Z :=
  if lo_Limit o <=? 0 then DefaultListLimit
  else if MaxListLimit <? lo_Limit o then MaxListLimit
  else lo_Limit o.

(** ** memory/memory.go

    A method is a critical section of the store's mutex; [now] is the value of
    [time.Now] it may use, and [ctx] the error of its context. *)
Record object := mk_object { ob_body : list byte; ob_token : gostring; ob_createdAt : Z }.
Record MemStore := mkMemStore { ms_objects : gmap gostring object; ms_next : Z }.

Definition NewStore : MemStore := {| ms_objects := ∅; ms_next := 0 |}.

Definition cloneObject (key : gostring) (stored : object) : Object :=
  mkObject key (ob_body stored) (ob_token stored) (ob_createdAt stored).

Definition newObjectLocked (now : Z) (body : list byte) : st MemStore object := λ s,
  let next := uint64 (ms_next s + 1) in
  ({| ms_objects := ms_objects s; ms_next := next |}, Ok (mk_object body (fmt_d 20 next) now)).

Definition set_object (key : gostring) (stored : object) : st MemStore () := λ s,
  ({| ms_objects := <[key := stored]> (ms_objects s); ms_next := ms_next s |}, Ok ()).

Definition Store_Get (ctx : option error) (key : gostring) : st MemStore Object :=
  _ ← st_check ctx;
  throw_if bool_decide (key = []) with [BlobErrInvalidRequest];
  s ← st_get;
  match ms_objects s !! key with
  | None => st_fail [BlobErrObjectNotFound]
  | Some stored => mret (cloneObject key stored)
  end.

Definition Store_GetIfChanged (ctx : option error) (key token : gostring) : st MemStore (Object * bool) :=
  _ ← st_check ctx;
  throw_if bool_decide (key = []) with [BlobErrInvalidRequest];
  s ← st_get;
  match ms_objects s !! key with
  | None => st_fail [BlobErrObjectNotFound]
  | Some stored =>
      if negb (bool_decide (token = [])) && bool_decide (ob_token stored = token)
      then mret (mkObject key [] token (ob_createdAt stored), false)
      else mret (cloneObject key stored, true)
  end.

Definition Store_Put (ctx : option error) (now : Z) (key : gostring) (body : list byte) : st MemStore Object :=
  _ ← st_check ctx;
  throw_if bool_decide (key = []) with [BlobErrInvalidRequest];
  s ← st_get;
  match ms_objects s !! key with
  | Some current =>
      if negb (bool_decide (ob_body current = body)) then st_fail [BlobErrImmutableConflict]
      else mret (cloneObject key current)
  | None =>
      stored ← newObjectLocked now body;
      _ ← set_object key stored;
      mret (cloneObject key stored)
  end.

Definition Store_CompareAndSwap (ctx : option error) (now : Z) (key expectedToken : gostring) (body : list byte)
    : st MemStore (Object * bool) :=
  _ ← st_check ctx;
  throw_if bool_decide (key = []) with [BlobErrInvalidRequest];
  s ← st_get;
  match ms_objects s !! key with
  | None =>
      if negb (bool_decide (expectedToken = [])) then mret (zero_Object, false)
      else
        stored ← newObjectLocked now body;
        _ ← set_object key stored;
        mret (cloneObject key stored, true)
  | Some current =>
      if negb (bool_decide (ob_token current = expectedToken)) then mret (cloneObject key current, false)
      else
        stored ← newObjectLocked now body;
        let stored := mk_object (ob_body stored) (ob_token stored) (ob_createdAt current) in
        _ ← set_object key stored;
        mret (cloneObject key stored, true)
  end.

Definition Store_Delete (ctx : option error) (key : gostring) : st MemStore () :=
  _ ← st_check ctx;
  throw_if bool_decide (key = []) with [BlobErrInvalidRequest];
  s ← st_get;
  st_put {| ms_objects := delete key (ms_objects s); ms_next := ms_next s |}.

(** Go compares strings byte by byte. *)
Definition str_lt (a b : gostring) : Prop := lexico (byte_val <$> a) (byte_val <$> b).
Definition str_le (a b : gostring) : Prop := str_lt a b ∨ a = b.
#[export] Instance str_lt_dec a b : Decision (str_lt a b).
Proof. unfold str_lt. apply _. Defined.
#[export] Instance str_le_dec a b : Decision (str_le a b).
Proof. unfold str_le. apply _. Defined.

Definition info_le (a b : ObjectInfo) : Prop := str_le (oi_Key a) (oi_Key b).
#[export] Instance info_le_dec a b : Decision (info_le a b).
Proof. unfold info_le. apply _. Defined.

(** The loop of [List]: a key that does not match is skipped. *)
Definition list_info (opts : ListOptions) (kv : gostring * object) : list ObjectInfo :=
  let '(key, stored) := kv in
  if negb (HasPrefix key (lo_Prefix opts)) ||
     (negb (bool_decide (lo_AfterKey opts = [])) && bool_decide (str_le key (lo_AfterKey opts)))
  then []
  else [mkObjectInfo key (ob_token stored) (len (ob_body stored)) (ob_createdAt stored)].

(** Objects in key order; the order of the map iteration does not matter. *)
Definition matching (s : MemStore) (opts : ListOptions) : list ObjectInfo :=
  merge_sort info_le (concat (map (list_info opts) (map_to_list (ms_objects s)))).

Definition Store_List (ctx : option error) (opts : ListOptions) (s : MemStore) : result ObjectPage :=
  check_ctx ctx;
  let objects := matching s opts in
  let limit := NormalizedLimit opts in
  if limit <? len objects then
    let kept := take (Z.to_nat limit) objects in
    match last kept with
    | None => Err [GoPanic]
    | Some info => Ok {| op_Objects := kept; op_NextAfterKey := oi_Key info; op_HasMore := true |}
    end
  else Ok {| op_Objects := objects; op_NextAfterKey := []; op_HasMore := false |}.

(** ** The contract

    [b_obj] holds the current body and token of every key, [b_writes] all writes
    that ever took effect, in order, and [b_flight] the writes whose caller got
    an error: they may still be delivered. *)
Inductive request :=
  | PutRequest (key : gostring) (body : list byte)
  | CASRequest (key expectedToken : gostring) (body : list byte).
Record blobs := mkBlobs {
  b_obj : gmap gostring (list byte * gostring);
  b_writes : list (gostring * list byte * gostring);
  b_flight : list request }.

Inductive store_op :=
  | Get (key : gostring)
  | GetIfChanged (key token : gostring)
  | Put (key : gostring) (body : list byte)
  | CompareAndSwap (key expectedToken : gostring) (body : list byte).
Definition store_value (op : store_op) : Type :=
  match op with Get _ | Put _ _ => Object | GetIfChanged _ _ | CompareAndSwap _ _ _ => Object * bool end.
Abbreviation store_resp op := (result (store_value op)).

Definition write (key : gostring) (body : list byte) (token : gostring) (s : blobs) : blobs :=
  {| b_obj := <[key := (body, token)]> (b_obj s); b_writes := b_writes s ++ [(key, body, token)];
     b_flight := b_flight s |}.
Definition launch (r : request) (s : blobs) : blobs :=
  {| b_obj := b_obj s; b_writes := b_writes s; b_flight := r :: b_flight s |}.

(** A token is not empty and determines the body among all versions of a key: a
    counter, a generation number or a content hash all do. *)
Definition good_token (s : blobs) (key : gostring) (body : list byte) (token : gostring) : Prop :=
  token ≠ [] ∧ ∀ body', (key, body', token) ∈ b_writes s → body' = body.
(** An empty expected token stands for an absent object. *)
Definition token_matches (s : blobs) (key expectedToken : gostring) : Prop :=
  match b_obj s !! key with Some (_, token) => token = expectedToken | None => expectedToken = [] end.
Definition is_current (s : blobs) (key : gostring) (o : Object) : Prop :=
  o_Key o = key ∧ b_obj s !! key = Some (o_Body o, o_Token o).

Definition read_error (s : blobs) (key : gostring) (e : error) : Prop :=
  BlobErrObjectNotFound ∈ e → b_obj s !! key = None.

Definition blob_call (op : store_op) (s : blobs) : store_resp op → blobs → Prop :=
  match op with
  | Get key => λ r s', s' = s ∧
      match r with Ok o => is_current s key o | Err e => read_error s key e end
  | GetIfChanged key token => λ r s', s' = s ∧
      match r with
      | Ok (o, true) => is_current s key o
      | Ok (o, false) => token ≠ [] ∧ ∃ body, b_obj s !! key = Some (body, token)
      | Err e => read_error s key e
      end
  | Put key body => λ r s',
      match r with
      | Ok o => o_Key o = key ∧ o_Body o = body ∧
          (s' = s ∧ b_obj s !! key = Some (body, o_Token o) ∨
           b_obj s !! key = None ∧ good_token s key body (o_Token o) ∧ s' = write key body (o_Token o) s)
      | Err _ => s' = s ∨ s' = launch (PutRequest key body) s
      end
  | CompareAndSwap key expectedToken body => λ r s',
      match r with
      | Ok (o, true) => o_Key o = key ∧ o_Body o = body ∧ token_matches s key expectedToken ∧
          good_token s key body (o_Token o) ∧ s' = write key body (o_Token o) s
      | Ok (o, false) => s' = s ∧ ¬ token_matches s key expectedToken ∧
          match b_obj s !! key with Some (b, t) => o_Key o = key ∧ o_Body o = b ∧ o_Token o = t | None => o = zero_Object end
      | Err _ => s' = s ∨ s' = launch (CASRequest key expectedToken body) s
      end
  end.

(** The late delivery of a write whose caller got an error. *)
Inductive blob_deliver (s : blobs) : blobs → Prop :=
  | deliver_put key body token :
      PutRequest key body ∈ b_flight s → b_obj s !! key = None → good_token s key body token →
      blob_deliver s (write key body token s)
  | deliver_cas key expectedToken body token :
      CASRequest key expectedToken body ∈ b_flight s → token_matches s key expectedToken → good_token s key body token →
      blob_deliver s (write key body token s).

(** ** The in-memory store refines the contract *)
Definition mem_call (op : store_op) (ctx : option error) (now : Z) : st MemStore (store_value op) :=
  match op with
  | Get key => Store_Get ctx key
  | GetIfChanged key token => Store_GetIfChanged ctx key token
  | Put key body => Store_Put ctx now key body
  | CompareAndSwap key expectedToken body => Store_CompareAndSwap ctx now key expectedToken body
  end.

(** The objects of the map, and tokens that are numbers the counter has passed. *)
Record mem_abs (s : MemStore) (b : blobs) : Prop := {
  ma_objects : b_obj b = (λ o, (ob_body o, ob_token o)) <$> ms_objects s;
  ma_next : 0 ≤ ms_next s;
  ma_tokens : ∀ key body token, (key, body, token) ∈ b_writes b → ∃ n, 0 < n ≤ ms_next s ∧ token = fmt_d 20 n;
  ma_written : ∀ key body token, b_obj b !! key = Some (body, token) → (key, body, token) ∈ b_writes b }.

Lemma mem_lookup s b key : mem_abs s b → b_obj b !! key = (λ o, (ob_body o, ob_token o)) <$> ms_objects s !! key.
Proof. intros HA. by rewrite (ma_objects _ _ HA), lookup_fmap. Qed.

Lemma fmt_d_nonempty z : is_u64 z → fmt_d 20 z ≠ [].
Proof. intros Hz E. apply (f_equal length) in E. rewrite length_fmt_d20 in E by done. done. Qed.

Lemma mem_write s b key body now :
  mem_abs s b → ms_next s < MaxUint64 →
  let token := fmt_d 20 (ms_next s + 1) in
  good_token b key body token ∧
  mem_abs {| ms_objects := <[key := mk_object body token now]> (ms_objects s); ms_next := ms_next s + 1 |} (write key body token b).
Proof.
  intros [HO HN HT HW] Hn token.
  assert (Hu : is_u64 (ms_next s + 1)) by (unfold_widths; lia). split.
  - split; [by apply fmt_d_nonempty|]. intros body' Hin. destruct (HT _ _ _ Hin) as (n & Hr & E).
    apply fmt_d_inj in E; [lia|unfold_widths; lia|unfold_widths; lia].
  - constructor; cbn [write b_obj b_writes ms_objects ms_next].
    + by rewrite fmap_insert, HO.
    + lia.
    + intros key' body' token' Hin. apply elem_of_app in Hin as [Hin|Hin].
      * destruct (HT _ _ _ Hin) as (n & ? & ->). exists n. split; [lia|done].
      * apply list_elem_of_singleton in Hin. injection Hin as -> -> ->. exists (ms_next s + 1). split; [lia|done].
    + intros key' body' token' Hl. apply elem_of_app. destruct (decide (key' = key)) as [->|Hne].
      * rewrite lookup_insert_eq in Hl. injection Hl as <- <-. right. by apply list_elem_of_singleton.
      * rewrite lookup_insert_ne in Hl by done. left. by apply HW.
Qed.

Definition ctx_ok (ctx : option error) : Prop := ∀ e, ctx = Some e → e = [CtxCanceled] ∨ e = [CtxDeadlineExceeded].

Lemma ctx_not_found ctx e : ctx_ok ctx → ctx = Some e → BlobErrObjectNotFound ∉ e.
Proof. intros Hc E. destruct (Hc e E) as [-> | ->]; by intros ?%list_elem_of_singleton. Qed.

#[local] Opaque fmt_d.

(** Runs the state monad. *)
Ltac st_run :=
  cbv beta iota zeta delta [mbind st_bind mret st_ret st_get st_put st_fail st_check newObjectLocked set_object].

Lemma mem_call_get ctx now key s b :
  mem_abs s b → ctx_ok ctx →
  ∃ b', blob_call (Get key) b (mem_call (Get key) ctx now s).2 b' ∧ mem_abs (mem_call (Get key) ctx now s).1 b'.
Proof.
  intros HA Hc. exists b. cbn [mem_call]. unfold Store_Get. st_run. destruct ctx as [e|].
  { split; [|done]. split; [done|]. intros Hin. by apply (ctx_not_found _ _ Hc eq_refl) in Hin. }
  case_bool_decide as Hk; [cbn; split; [|done]; split; [done|]; by intros ?%list_elem_of_singleton|].
  destruct (ms_objects s !! key) as [o|] eqn:E; cbn; (split; [|done]); (split; [done|]).
  - split; [done|]. by rewrite (mem_lookup _ _ _ HA), E.
  - intros _. by rewrite (mem_lookup _ _ _ HA), E.
Qed.

Lemma mem_call_get_if_changed ctx now key token s b :
  mem_abs s b → ctx_ok ctx →
  ∃ b', blob_call (GetIfChanged key token) b (mem_call (GetIfChanged key token) ctx now s).2 b' ∧
        mem_abs (mem_call (GetIfChanged key token) ctx now s).1 b'.
Proof.
  intros HA Hc. exists b. cbn [mem_call]. unfold Store_GetIfChanged. st_run. destruct ctx as [e|].
  { split; [|done]. split; [done|]. intros Hin. by apply (ctx_not_found _ _ Hc eq_refl) in Hin. }
  case_bool_decide as Hk; [cbn; split; [|done]; split; [done|]; by intros ?%list_elem_of_singleton|].
  destruct (ms_objects s !! key) as [o|] eqn:E; cbn.
  - destruct (negb (bool_decide (token = [])) && bool_decide (ob_token o = token)) eqn:Et; cbn; (split; [|done]); (split; [done|]).
    + bool_to_prop. split; [done|]. exists (ob_body o). rewrite (mem_lookup _ _ _ HA), E. cbn. congruence.
    + split; [done|]. by rewrite (mem_lookup _ _ _ HA), E.
  - split; [|done]. split; [done|]. intros _. by rewrite (mem_lookup _ _ _ HA), E.
Qed.

Lemma mem_call_put ctx now key body s b :
  mem_abs s b → ms_next s < MaxUint64 →
  ∃ b', blob_call (Put key body) b (mem_call (Put key body) ctx now s).2 b' ∧ mem_abs (mem_call (Put key body) ctx now s).1 b'.
Proof.
  intros HA Hn. cbn [mem_call]. unfold Store_Put. st_run. destruct ctx as [e|]; [exists b; cbn; auto|].
  case_bool_decide as Hk; [exists b; cbn; auto|]. destruct (ms_objects s !! key) as [o|] eqn:E; cbn.
  - case_bool_decide as Hb; cbn; exists b; [|auto]. split; [|done]. split; [done|]. split; [done|]. left. split; [done|].
    rewrite (mem_lookup _ _ _ HA), E. cbn. congruence.
  - pose proof (ma_next _ _ HA). rewrite uint64_id by (unfold_widths; lia).
    destruct (mem_write s b key body now HA Hn) as [Ht HA']. eexists. split; [|exact HA'].
    split; [done|]. split; [done|]. right. split; [|done]. by rewrite (mem_lookup _ _ _ HA), E.
Qed.

Lemma mem_call_cas ctx now key expectedToken body s b :
  mem_abs s b → ms_next s < MaxUint64 →
  let op := CompareAndSwap key expectedToken body in
  ∃ b', blob_call op b (mem_call op ctx now s).2 b' ∧ mem_abs (mem_call op ctx now s).1 b'.
Proof.
  intros HA Hn op. cbn [op mem_call]. unfold Store_CompareAndSwap. st_run. destruct ctx as [e|]; [exists b; cbn; auto|].
  case_bool_decide as Hk; [exists b; cbn; auto|]. pose proof (ma_next _ _ HA). pose proof (mem_lookup _ _ key HA) as HL.
  destruct (ms_objects s !! key) as [o|] eqn:E; cbn; cbn in HL.
  - case_bool_decide as Hb; cbn.
    + rewrite uint64_id by (unfold_widths; lia).
      destruct (mem_write s b key body (ob_createdAt o) HA Hn) as [Ht HA']. eexists. split; [|exact HA'].
      split; [done|]. split; [done|]. split; [|done]. unfold token_matches. by rewrite HL.
    + exists b. split; [|done]. split; [done|]. unfold token_matches. rewrite HL. by split.
  - case_bool_decide as Hb; cbn.
    + rewrite uint64_id by (unfold_widths; lia). destruct (mem_write s b key body now HA Hn) as [Ht HA']. eexists. split; [|exact HA'].
      split; [done|]. split; [done|]. split; [|done]. unfold token_matches. by rewrite HL.
    + exists b. split; [|done]. split; [done|]. unfold token_matches. rewrite HL. by split.
Qed.

Lemma mem_call_refines op ctx now s b :
  mem_abs s b → ms_next s < MaxUint64 → ctx_ok ctx →
  ∃ b', blob_call op b (mem_call op ctx now s).2 b' ∧ mem_abs (mem_call op ctx now s).1 b'.
Proof.
  intros HA Hn Hc. destruct op.
  - by apply mem_call_get.
  - by apply mem_call_get_if_changed.
  - by apply mem_call_put.
  - by apply mem_call_cas.
Qed.

(** C27. The in-memory store implements the store contract: every call, on every
    branch, is a step the contract allows, up to 2^64 - 1 writes (the width of
    the counter the tokens are made from). *)
Theorem memory_store_refines op ctx now s b :
  mem_abs s b → ms_next s < MaxUint64 → ctx_ok ctx →
  ∃ b', blob_call op b (mem_call op ctx now s).2 b' ∧ mem_abs (mem_call op ctx now s).1 b'.
Proof. apply mem_call_refines. Qed.

Lemma mem_abs_new : mem_abs NewStore (mkBlobs ∅ [] []).
Proof. constructor; cbn; [by rewrite fmap_empty|lia|by intros ? ? ? ?%elem_of_nil|by intros ? ? ?; rewrite lookup_empty]. Qed.

Lemma memory_store_refines_witness :
  let op := CompareAndSwap (str "head") [] (str "v1") in
  ∃ b', blob_call op (mkBlobs ∅ [] []) (mem_call op None 7 NewStore).2 b' ∧
        mem_abs (mem_call op None 7 NewStore).1 b'.
Proof.
  intros op. apply (memory_store_refines op None 7 NewStore (mkBlobs ∅ [] []));
    [apply mem_abs_new|cbn; lia|by intros e [=]].
Defined.

(** ** Listing *)
#[export] Instance str_lt_order : StrictOrder str_lt.
Proof.
  unfold str_lt. split.
  - intros x Hx. by apply (irreflexivity lexico (byte_val <$> x)).
  - intros x y z Hx Hy. by trans (byte_val <$> y).
Qed.

Lemma byte_val_inj : Inj (=) (=) byte_val.
Proof. intros a b E. rewrite <- (mk_byte_val a), <- (mk_byte_val b). by rewrite E. Qed.

Lemma str_trichotomy a b : str_lt a b ∨ a = b ∨ str_lt b a.
Proof.
  pose proof byte_val_inj. unfold str_lt. destruct (trichotomy lexico (byte_val <$> a) (byte_val <$> b)) as [?|[E|?]]; auto.
  right. left. by apply (inj (fmap byte_val)) in E.
Qed.

#[export] Instance info_le_total : Total info_le.
Proof. intros a b. unfold info_le, str_le. destruct (str_trichotomy (oi_Key a) (oi_Key b)) as [?|[?|?]]; auto. Qed.
#[export] Instance info_le_trans : Transitive info_le.
Proof.
  intros a b d. unfold info_le, str_le. intros [H1|H1] [H2|H2]; rewrite ?H1, <- ?H2 in *; auto. left. by trans (oi_Key b).
Qed.

(** The keys a listing is about: those with the prefix after the marker. *)
Definition listed (opts : ListOptions) (key : gostring) : Prop :=
  lo_Prefix opts `prefix_of` key ∧ (lo_AfterKey opts = [] ∨ str_lt (lo_AfterKey opts) key).

Lemma list_info_spec opts key o info :
  info ∈ list_info opts (key, o) ↔
  listed opts key ∧ info = mkObjectInfo key (ob_token o) (len (ob_body o)) (ob_createdAt o).
Proof.
  unfold list_info, listed, HasPrefix, str_le.
  destruct (decide (lo_Prefix opts `prefix_of` key)) as [Hp|Hp]; [rewrite bool_decide_true by done|rewrite bool_decide_false by done; cbn].
  2: { rewrite elem_of_nil. split; [done|]. by intros [[? _] _]. }
  cbn [negb orb]. destruct (decide (lo_AfterKey opts = [])) as [Ha|Ha]; [rewrite (bool_decide_true _ Ha)|rewrite (bool_decide_false _ Ha)]; cbn [negb andb].
  { rewrite list_elem_of_singleton. split; [intros ->; auto|by intros [_ ->]]. }
  case_bool_decide as Hle; [rewrite elem_of_nil|rewrite list_elem_of_singleton].
  - split; [done|]. intros [[_ [?|Hlt]] _]; [done|]. destruct Hle as [Hle|Hle].
    + by apply (irreflexivity str_lt key); trans (lo_AfterKey opts).
    + rewrite Hle in Hlt. by apply (irreflexivity str_lt (lo_AfterKey opts)).
  - split; [|by intros [_ ->]]. intros ->. split; [|done]. split; [done|]. right.
    destruct (str_trichotomy key (lo_AfterKey opts)) as [?|[?|?]]; [exfalso; apply Hle; auto..|done].
Qed.

Lemma elem_of_matching s opts info :
  info ∈ matching s opts ↔
  ∃ key o, ms_objects s !! key = Some o ∧ listed opts key ∧
           info = mkObjectInfo key (ob_token o) (len (ob_body o)) (ob_createdAt o).
Proof.
  unfold matching. rewrite merge_sort_Permutation. rewrite list_elem_of_In, in_concat. split.
  - intros (l & Hl & Hi). apply in_map_iff in Hl as ([key o] & <- & Hin). apply list_elem_of_In, elem_of_map_to_list in Hin.
    apply list_elem_of_In, list_info_spec in Hi as [? ->]. eauto.
  - intros (key & o & Hl & Hk & ->). exists (list_info opts (key, o)). split.
    + apply in_map. by apply list_elem_of_In, elem_of_map_to_list.
    + apply list_elem_of_In, list_info_spec. done.
Qed.

Definition info_lt (a b : ObjectInfo) : Prop := str_lt (oi_Key a) (oi_Key b).

Lemma NoDup_keys_concat opts (l : list (gostring * object)) :
  NoDup l.*1 → NoDup (map oi_Key (concat (map (list_info opts) l))).
Proof.
  induction l as [|[key o] l IH]; intros HD; [constructor|]. cbn [map concat fmap list_fmap fst] in *. inversion HD as [|? ? Hn HD']; subst.
  rewrite map_app. apply NoDup_app. split; [|split; [|by apply IH]].
  - unfold list_info. destruct (_ || _); cbn; [constructor|apply NoDup_singleton].
  - intros k Hk Hk'. apply list_elem_of_fmap in Hk as (i & -> & Hi). apply list_info_spec in Hi as [_ ->]. cbn in Hk'.
    apply list_elem_of_fmap in Hk' as (i & E & Hi). apply list_elem_of_In, in_concat in Hi as (l' & Hl & Hi).
    apply in_map_iff in Hl as ([key' o'] & <- & Hin). apply list_elem_of_In, list_info_spec in Hi as [_ ->]. cbn in E. subst key'.
    apply Hn. apply list_elem_of_fmap. exists (key, o'). split; [done|]. by apply list_elem_of_In.
Qed.

Lemma matching_sorted s opts : StronglySorted info_lt (matching s opts).
Proof.
  assert (HD : NoDup (map oi_Key (matching s opts))).
  { unfold matching. change (NoDup (oi_Key <$> merge_sort info_le (concat (map (list_info opts) (map_to_list (ms_objects s)))))).
    rewrite merge_sort_Permutation. apply NoDup_keys_concat, NoDup_fst_map_to_list. }
  pose proof (StronglySorted_merge_sort info_le (concat (map (list_info opts) (map_to_list (ms_objects s))))) as HS.
  fold (matching s opts) in HS. induction HS as [|a l HS IH Hall]; [constructor|]. cbn [map] in HD. inversion HD as [|? ? Hn HD']; subst.
  constructor; [by apply IH|]. apply Forall_forall. intros b Hb. apply (proj1 (Forall_forall _ _) Hall) in Hb as Hle.
  destruct Hle as [Hlt|E]; [done|]. exfalso. apply Hn. apply list_elem_of_fmap. by exists b.
Qed.

Lemma sorted_unique (l k : list ObjectInfo) :
  StronglySorted info_lt l → StronglySorted info_lt k → (∀ i, i ∈ l ↔ i ∈ k) → l = k.
Proof.
  intros Hl. revert k; induction Hl as [|a l Hl IH Ha]; intros k Hk He.
  { destruct k as [|b k]; [done|]. exfalso. apply (elem_of_nil (A:=ObjectInfo) b), He. by left. }
  destruct Hk as [|b k Hk Hb]. { exfalso. apply (elem_of_nil (A:=ObjectInfo) a), He. by left. }
  assert (Hab : a = b).
  { pose proof (proj1 (He a) ltac:(left)) as H1. pose proof (proj2 (He b) ltac:(left)) as H2.
    apply elem_of_cons in H1 as [?|H1]; [done|]. apply elem_of_cons in H2 as [?|H2]; [done|].
    apply (proj1 (Forall_forall _ _) Ha) in H2. apply (proj1 (Forall_forall _ _) Hb) in H1.
    exfalso. apply (irreflexivity str_lt (oi_Key a)). by trans (oi_Key b). }
  subst b. f_equal. apply IH; [done|]. intros i. specialize (He i). rewrite !elem_of_cons in He.
  assert (Hno : ∀ m, Forall (info_lt a) m → a ∉ m).
  { intros m Hm Hin. apply (proj1 (Forall_forall _ _) Hm) in Hin. by apply (irreflexivity str_lt (oi_Key a)). }
  split; intros Hin.
  - destruct (proj1 He (or_intror Hin)) as [->|?]; [by apply Hno in Hin|done].
  - destruct (proj2 He (or_intror Hin)) as [->|?]; [by apply Hno in Hin|done].
Qed.

(** Listing again from the last key of a page continues after that page. *)
Lemma matching_continue s opts n info :
  ms_objects s !! [] = None → last (take n (matching s opts)) = Some info →
  matching s {| lo_Prefix := lo_Prefix opts; lo_AfterKey := oi_Key info; lo_Limit := lo_Limit opts |} = drop n (matching s opts).
Proof.
  intros He Hl. pose proof (matching_sorted s opts) as HS. rewrite <- (take_drop n (matching s opts)) in HS.
  apply StronglySorted_app in HS as (Hcross & Ht & Hd).
  assert (Hin : info ∈ take n (matching s opts)) by (rewrite last_lookup in Hl; by eapply list_elem_of_lookup_2).
  assert (Hupto : ∀ i, i ∈ take n (matching s opts) → str_le (oi_Key i) (oi_Key info)).
  { intros i Hi. clear Hcross Hd Hin. induction Ht as [|a m Ht IH Ha]; [by apply elem_of_nil in Hi|]. destruct m as [|b m].
    - injection Hl as ->. apply list_elem_of_singleton in Hi as ->. by right.
    - apply elem_of_cons in Hi as [->|Hi]; [left|by apply IH]. apply (proj1 (Forall_forall _ _) Ha).
      change (last (a :: b :: m)) with (last (b :: m)) in Hl. rewrite last_lookup in Hl. by eapply list_elem_of_lookup_2. }
  assert (Hinfo : info ∈ matching s opts) by (rewrite <- (take_drop n (matching s opts)); apply elem_of_app; by left).
  apply elem_of_matching in Hinfo as (k0 & o0 & Hk0 & Hl0 & Einfo). assert (Ek0 : oi_Key info = k0) by (by subst info).
  apply sorted_unique; [apply matching_sorted|done|]. intros i. rewrite elem_of_matching. unfold listed. cbn [lo_Prefix lo_AfterKey].
  rewrite Ek0 in *. clear Einfo. split.
  - intros (key & o & Hk & [Hp [->|Hlt]] & ->); [by rewrite He in Hk0|].
    assert (Hm : mkObjectInfo key (ob_token o) (len (ob_body o)) (ob_createdAt o) ∈ matching s opts).
    { apply elem_of_matching. exists key, o. split; [done|]. split; [|done]. split; [done|]. destruct Hl0 as [_ [?|?]]; [by left|right].
      by trans k0. }
    rewrite <- (take_drop n (matching s opts)) in Hm. apply elem_of_app in Hm as [Hm|Hm]; [|done]. exfalso.
    destruct (Hupto _ Hm) as [Hlt'|E]; cbn in *.
    + apply (irreflexivity str_lt k0). by trans key.
    + subst key. by apply (irreflexivity str_lt k0).
  - intros Hi. pose proof (Hcross info i Hin Hi) as Hlt. unfold info_lt in Hlt. rewrite Ek0 in Hlt.
    assert (Hm : i ∈ matching s opts) by (rewrite <- (take_drop n (matching s opts)); apply elem_of_app; by right).
    apply elem_of_matching in Hm as (key & o & Hk & [Hp _] & ->). exists key, o. split; [done|]. split; [|done]. split; [done|]. by right.
Qed.

(** C28. Listing is complete, ordered and resumable.  The in-memory store lists,
    in strictly increasing key order, exactly the objects with the prefix whose
    key is after the marker; a page holds the first [limit] of them; and listing
    again from a page's marker returns exactly the rest, so that following the
    markers enumerates every object once. *)
Theorem list_pagination s opts :
  ms_objects s !! [] = None →
  StronglySorted info_lt (matching s opts) ∧
  (∀ key, (∃ info, info ∈ matching s opts ∧ oi_Key info = key) ↔ is_Some (ms_objects s !! key) ∧ listed opts key) ∧
  ∃ page, Store_List None opts s = Ok page ∧
    op_Objects page = take (Z.to_nat (NormalizedLimit opts)) (matching s opts) ∧
    (if op_HasMore page then
       matching s {| lo_Prefix := lo_Prefix opts; lo_AfterKey := op_NextAfterKey page; lo_Limit := lo_Limit opts |} =
       drop (Z.to_nat (NormalizedLimit opts)) (matching s opts) ∧ op_Objects page ≠ []
     else op_Objects page = matching s opts).
Proof.
  intros He. split; [apply matching_sorted|]. split.
  { intros key. split.
    - intros (info & Hi & <-). apply elem_of_matching in Hi as (k & o & Hk & Hl & ->). cbn. split; [by exists o|done].
    - intros [[o Ho] Hl]. eexists. split; [apply elem_of_matching; exists key, o; by split_and!|done]. }
  unfold Store_List. set (n := NormalizedLimit opts). set (l := matching s opts).
  assert (Hn : 0 < n).
  { unfold n, NormalizedLimit, DefaultListLimit, MaxListLimit. destruct (Z.leb_spec (lo_Limit opts) 0); [lia|].
    destruct (Z.ltb_spec 1000 (lo_Limit opts)); lia. }
  destruct (Z.ltb_spec n (len l)) as [Hlt|Hge].
  - destruct (last (take (Z.to_nat n) l)) as [info|] eqn:El.
    + eexists. split; [done|]. cbn. split; [done|]. split; [by apply matching_continue|]. intros E. by rewrite E in El.
    + exfalso. apply last_None, (f_equal length) in El. rewrite length_take in El. unfold len in *. cbn in El. lia.
  - eexists. split; [done|]. cbn. split; [|done]. rewrite take_ge; [done|]. unfold len in *. lia.
Qed.

Lemma list_pagination_witness :
  let s := (Store_Put None 5 (str "p/a") (str "x") NewStore).1 in
  StronglySorted info_lt (matching s (mkListOptions (str "p/") [] 0)).
Proof.
  intros s. assert (E : ms_objects s !! [] = None) by (vm_compute; reflexivity).
  destruct (list_pagination s (mkListOptions (str "p/") [] 0) E) as (HS & _). exact HS.
Defined.
