(* ===== verification/CatEngine.v ===== *)
(** * The blob catalog's engine and writer sessions (catengine/engine.go)

    The engine publishes heads: a partition's head is one mutable object,
    replaced by compare-and-swap, and pages are immutable objects put before the
    head that refers to them.  Its methods are programs over the calls they make
    ([prog]): every store call, every look at the context and every wait is a
    call whose response the environment chooses, so that other writers can act
    and calls can fail between any two of them.  A session's methods run under
    the session's mutex, so one of them runs at a time and its state is passed
    along. *)
From S2P Require Import Prelude Hash SegFormat Ranges PMeta KeyLayout CatFormat CatCodec CatTree CatReader CatRetention BlobStore.

(** ** Programs *)
Inductive eop :=
  | StoreCall (op : store_op)
  | CtxErr
  | Wait (delay : Z)
  | ReadPages.
(** [CtxErr] is [ctx.Err()] and [Wait] the [select] of [waitBackoff].
    [ReadPages] stands for the [Get] calls one traversal makes through
    [backendPageSource]: its response gives the outcome for every page key. *)
Definition eresp (op : eop) : Type :=
  match op with
  | StoreCall op => store_resp op
  | CtxErr | Wait _ => option error
  | ReadPages => PageSource
  end.

(** A method [(A, error)] of the engine. *)
Definition io (A : Type) : Type := prog eresp (result A).
#[export] Instance io_ret : MRet io := fun A a => Return (Ok a).
#[export] Instance io_bind : MBind io := fun A B f m =>
  prog_bind m (λ r, match r with Ok a => f a | Err e => Return (Err e) end).
Definition io_lift {A} (r : result A) : io A := Return r.
Definition io_fail {A} (e : error) : io A := Return (Err e).
(** The result of a call, errors included. *)
Definition io_try {A} (m : io A) : io (result A) := prog_bind m (λ r, Return (Ok r)).
Definition store (op : store_op) : io (store_value op) := Call (StoreCall op) Return.
Definition ctx_err : io (option error) := Call CtxErr (λ e, Return (Ok e)).
Definition read_pages : io PageSource := Call ReadPages (λ p, Return (Ok p)).
Definition io_check_ctx : io () := e ← ctx_err; match e with Some e => io_fail e | None => mret () end.
Notation "'stop_if' c 'with' e ; k" :=
  (if (c : bool) then io_fail e else k)
  (at level 100, c at level 99, e at level 99, k at level 200, right associativity,
   format "'[v' 'stop_if'  c  'with'  e ; '/' k ']'") : go_scope.

(** ** Options *)
Record EngineOptions := mkEngineOptions {
  eo_CatalogPrefix : gostring; eo_DataRoot : gostring; eo_StreamID : gostring;
  eo_LeafLimit : Z; eo_IndexLimit : Z; eo_HashAlgo : Z;
  eo_CASAttempts : Z; eo_InitialBackoff : Z; eo_MaxBackoff : Z;
  eo_AcquireAttempts : Z; eo_AcquireInitialBackoff : Z; eo_AcquireMaxBackoff : Z;
  eo_CommitAttempts : Z; eo_CommitInitialBackoff : Z; eo_CommitMaxBackoff : Z }.

(** An engine is its options; the backend is what answers its calls. *)
Definition NewEngine (nilBackend : bool) (opts : EngineOptions) : result EngineOptions :=
  fail_if nilBackend with [ErrInvalidRequest];
  let leafLimit := if eo_LeafLimit opts =? 0 then DefaultSegmentPageLimit else eo_LeafLimit opts in
  let indexLimit := if eo_IndexLimit opts =? 0 then DefaultSegmentPageLimit else eo_IndexLimit opts in
  let hashAlgo := if negb (eo_HashAlgo opts =? HashCRC32C) && negb (eo_HashAlgo opts =? HashXXH64)
                  then HashXXH64 else eo_HashAlgo opts in
  streamID ← (if negb (bool_decide (eo_StreamID opts = []))
              then wrap_err ErrInvalidRequest (CanonicalStreamID (eo_StreamID opts))
              else Ok (eo_StreamID opts));
  let casAttempts := if eo_CASAttempts opts <=? 0 then 3 else eo_CASAttempts opts in
  fail_if (eo_InitialBackoff opts <? 0) || (eo_MaxBackoff opts <? 0) with [ErrInvalidRequest];
  fail_if (0 <? eo_MaxBackoff opts) && (eo_MaxBackoff opts <? eo_InitialBackoff opts) with [ErrInvalidRequest];
  let acquireAttempts := if eo_AcquireAttempts opts <=? 0 then casAttempts else eo_AcquireAttempts opts in
  let commitAttempts := if eo_CommitAttempts opts <=? 0 then casAttempts else eo_CommitAttempts opts in
  let acquireInitial := if eo_AcquireInitialBackoff opts =? 0 then eo_InitialBackoff opts else eo_AcquireInitialBackoff opts in
  let acquireMax := if eo_AcquireMaxBackoff opts =? 0 then eo_MaxBackoff opts else eo_AcquireMaxBackoff opts in
  let commitInitial := if eo_CommitInitialBackoff opts =? 0 then eo_InitialBackoff opts else eo_CommitInitialBackoff opts in
  let commitMax := if eo_CommitMaxBackoff opts =? 0 then eo_MaxBackoff opts else eo_CommitMaxBackoff opts in
  fail_if (acquireInitial <? 0) || (acquireMax <? 0) || (commitInitial <? 0) || (commitMax <? 0) with [ErrInvalidRequest];
  fail_if ((0 <? acquireMax) && (acquireMax <? acquireInitial)) || ((0 <? commitMax) && (commitMax <? commitInitial))
  with [ErrInvalidRequest];
  _ ← wrap_err ErrInvalidRequest
        (NewConfig (eo_CatalogPrefix opts) (eo_DataRoot opts) streamID 0 leafLimit indexLimit hashAlgo);
  Ok {| eo_CatalogPrefix := eo_CatalogPrefix opts; eo_DataRoot := eo_DataRoot opts; eo_StreamID := streamID;
        eo_LeafLimit := leafLimit; eo_IndexLimit := indexLimit; eo_HashAlgo := hashAlgo;
        eo_CASAttempts := casAttempts; eo_InitialBackoff := eo_InitialBackoff opts; eo_MaxBackoff := eo_MaxBackoff opts;
        eo_AcquireAttempts := acquireAttempts; eo_AcquireInitialBackoff := acquireInitial; eo_AcquireMaxBackoff := acquireMax;
        eo_CommitAttempts := commitAttempts; eo_CommitInitialBackoff := commitInitial; eo_CommitMaxBackoff := commitMax |}.

Definition Engine_config (e : EngineOptions) (partition : Z) : result Config :=
  NewConfig (eo_CatalogPrefix e) (eo_DataRoot e) (eo_StreamID e) partition (eo_LeafLimit e) (eo_IndexLimit e) (eo_HashAlgo e).

Definition growBackoff (current maximum : Z) : Z :=
  if (current <=? 0) || (maximum <=? 0) then current
  else if Z.quot maximum 2 <=? current then maximum
  else current * 2.

(** [waitBackoff]: no delay is a look at the context. *)
Definition waitBackoff (delay : Z) : io (option error) :=
  if delay <=? 0 then ctx_err else Call (Wait delay) (λ e, Return (Ok e)).

(** [errors.Join(lastErr, err)]. *)
Definition errors_Join (lastErr : option error) (err : error) : error :=
  match lastErr with Some e => e ++ err | None => err end.

(** ** Heads *)
Record HeadSnapshot := mkHeadSnapshot { hs_Decoded : Head; hs_State : PartitionHead; hs_Token : gostring }.

Section engine.
Context `{XXHash}.

Definition Engine_Initialize (e : EngineOptions) (partition nextLSN : Z) : io (PartitionHead * bool) :=
  _ ← io_check_ctx;
  config ← io_lift (Engine_config e partition);
  '(head, body) ← io_lift (NewHead config nextLSN);
  '(object, swapped) ← store (CompareAndSwap (HeadPath config) [] body);
  head ← (if (swapped : bool) then mret head else io_lift (DecodeHead config (o_Body object)));
  state ← io_lift (Config_PartitionHead config head);
  mret (state, swapped).

Definition Engine_Load (e : EngineOptions) (partition : Z) : io (Head * gostring) :=
  config ← io_lift (Engine_config e partition);
  r ← io_try (store (Get (HeadPath config)));
  match r with
  | Err err =>
      if errors_Is err BlobErrObjectNotFound then
        '(head, _) ← io_lift (NewHead config 0); mret (head, [])
      else io_fail err
  | Ok object => head ← io_lift (DecodeHead config (o_Body object)); mret (head, o_Token object)
  end.

Definition Engine_LoadPartition (e : EngineOptions) (partition : Z) : io PartitionHead :=
  '(head, _) ← Engine_Load e partition;
  config ← io_lift (Engine_config e partition);
  io_lift (Config_PartitionHead config head).

Definition Engine_LoadHeadSnapshot (e : EngineOptions) (partition : Z) : io HeadSnapshot :=
  '(head, token) ← Engine_Load e partition;
  config ← io_lift (Engine_config e partition);
  state ← io_lift (Config_PartitionHead config head);
  mret {| hs_Decoded := head; hs_State := state; hs_Token := token |}.

Definition Engine_RefreshHeadSnapshot (e : EngineOptions) (partition : Z) (previous : HeadSnapshot)
    : io (HeadSnapshot * bool) :=
  stop_if negb (ph_Partition (hs_State previous) =? partition) with [ErrInvalidRequest];
  config ← io_lift (Engine_config e partition);
  if bool_decide (hs_Token previous = []) then
    next ← Engine_LoadHeadSnapshot e partition;
    if bool_decide (hs_Token next = hs_Token previous) && bool_decide (hs_State next = hs_State previous)
    then mret (previous, false) else mret (next, true)
  else
    r ← io_try (store (GetIfChanged (HeadPath config) (hs_Token previous)));
    match r with
    | Err err =>
        if errors_Is err BlobErrObjectNotFound then
          '(head, _) ← io_lift (NewHead config 0);
          state ← io_lift (Config_PartitionHead config head);
          mret ({| hs_Decoded := head; hs_State := state; hs_Token := [] |}, true)
        else io_fail err
    | Ok (object, changed) =>
        if negb (changed : bool) then mret (previous, false)
        else
          head ← io_lift (DecodeHead config (o_Body object));
          state ← io_lift (Config_PartitionHead config head);
          mret ({| hs_Decoded := head; hs_State := state; hs_Token := o_Token object |}, true)
    end.

(** ** Writer sessions *)
Record retentionCommit := mkRetentionCommit {
  rc_request : RetentionRequest; rc_previous : Head; rc_mutation : Mutation; rc_resolved : bool }.
Record Session := mkSession {
  s_engine : EngineOptions; s_config : Config; s_writerEpoch : Z; s_writerID : list byte;
  s_head : Head; s_token : gostring; s_stale : bool;
  s_lastAppend : SegmentRef; s_lastAppendState : PartitionHead; s_hasLastAppend : bool;
  s_pending : option retentionCommit }.

Definition newSession (e : EngineOptions) (config : Config) (head : Head) (token : gostring) : Session := {|
  s_engine := e; s_config := config; s_writerEpoch := hh_WriterEpoch (hd_Header head);
  s_writerID := hh_WriterID (hd_Header head); s_head := head; s_token := token; s_stale := false;
  s_lastAppend := zero_SegmentRef; s_lastAppendState := empty_head [] 0; s_hasLastAppend := false; s_pending := None |}.

(** The end of an iteration of [OpenWriter]'s loop: the last one leaves the loop,
    the others wait. *)
Definition acquire_next (attempts : nat) (backoff : Z) (lastErr : option error) (attemptedEpoch : Z)
    (continue : io (Session + option error * Z)) : io (Session + option error * Z) :=
  match attempts with
  | O => mret (inr (lastErr, attemptedEpoch))
  | S _ =>
      waited ← waitBackoff backoff;
      match waited with
      | Some err => io_fail (ErrFenceIndeterminate :: errors_Join lastErr err)
      | None => continue
      end
  end.

(** The loop of [OpenWriter]: a session, or the last error and the epoch the last
    attempt proposed. *)
Fixpoint acquire_loop (attempts : nat) (e : EngineOptions) (config : Config) (writerID : list byte) (head : Head)
    (token : gostring) (backoff : Z) (lastErr : option error) (attemptedEpoch : Z)
    : io (Session + option error * Z) :=
  match attempts with
  | O => mret (inr (lastErr, attemptedEpoch))
  | S attempts =>
      mutation ← io_lift (Takeover config head writerID);
      let attemptedEpoch := hh_WriterEpoch (hd_Header (mu_Head mutation)) in
      r ← io_try (store (CompareAndSwap (HeadPath config) token (mu_HeadBody mutation)));
      let next head token lastErr :=
        acquire_next attempts backoff lastErr attemptedEpoch
          (acquire_loop attempts e config writerID head token (growBackoff backoff (eo_AcquireMaxBackoff e)) lastErr attemptedEpoch) in
      match r with
      | Ok (object, swapped) =>
          if (swapped : bool) || bool_decide (o_Body object = mu_HeadBody mutation)
          then mret (inl (newSession e config (mu_Head mutation) (o_Token object)))
          else
            observed ← io_lift (DecodeHead config (o_Body object));
            match attempts with
            | O => io_fail [ErrConflict]
            | S _ => next observed (o_Token object) None
            end
      | Err casErr => next head token (Some casErr)
      end
  end.

Definition Engine_OpenWriter (e : EngineOptions) (partition : Z) (writerID : list byte) : io Session :=
  _ ← io_check_ctx;
  config ← io_lift (Engine_config e partition);
  '(head, token) ← Engine_Load e partition;
  acquired ← acquire_loop (Z.to_nat (eo_AcquireAttempts e)) e config writerID head token (eo_AcquireInitialBackoff e) None 0;
  match acquired with
  | inl session => mret session
  | inr (lastErr, attemptedEpoch) =>
      r ← io_try (Engine_Load e partition);
      match r with
      | Err err => io_fail (ErrFenceIndeterminate :: errors_Join lastErr err)
      | Ok (observed, observedToken) =>
          if bool_decide (hh_WriterID (hd_Header observed) = writerID) &&
             (hh_WriterEpoch (hd_Header observed) =? attemptedEpoch)
          then mret (newSession e config observed observedToken)
          else match lastErr with Some err => io_fail err | None => io_fail [ErrConflict] end
      end
  end.

(** ** Reads *)
Definition Engine_reader (e : EngineOptions) (partition : Z) : io (Config * Head) :=
  config ← io_lift (Engine_config e partition);
  '(head, _) ← Engine_Load e partition;
  mret (config, head).

(** A reader method on a head, with the context and the pages it sees. *)
Definition with_reader {A} (f : PageSource → option error → result A) : io A :=
  ctx ← ctx_err; pages ← read_pages; io_lift (f pages ctx).

Definition Engine_FindSegment (e : EngineOptions) (partition lsn : Z) : io (option SegmentRef) :=
  '(config, head) ← Engine_reader e partition;
  with_reader (λ pages ctx, FindSegment config pages ctx head lsn).

Definition Engine_LookupTimestamp (e : EngineOptions) (partition timestampMS : Z) : io (option SegmentRef) :=
  '(config, head) ← Engine_reader e partition;
  with_reader (λ pages ctx, LookupTimestamp config pages ctx head timestampMS).

Definition Engine_LookupTimestampSnapshot (e : EngineOptions) (partition timestampMS : Z)
    : io (PartitionHead * option SegmentRef) :=
  '(config, head) ← Engine_reader e partition;
  state ← io_lift (Config_PartitionHead config head);
  found ← with_reader (λ pages ctx, LookupTimestamp config pages ctx head timestampMS);
  mret (state, found).

Definition Engine_ListSegments (e : EngineOptions) (partition fromLSN limit : Z) : io SegmentPage :=
  '(config, head) ← Engine_reader e partition;
  with_reader (λ pages ctx, ListSegments config pages ctx head fromLSN limit).

Definition Engine_MaintenanceSnapshot (e : EngineOptions) (partition : Z) : io (PartitionHead * Z * Z) :=
  '(config, head) ← Engine_reader e partition;
  state ← io_lift (Config_PartitionHead config head);
  mret (state, hh_Generation (hd_Header head), MaxPageLevel head).

(** The three listings that return the head they were made from. *)
Definition snapshot_of {A} (e : EngineOptions) (partition : Z) (f : Config → Head → PageSource → option error → result A)
    : io (PartitionHead * Z * Z * A) :=
  '(config, head) ← Engine_reader e partition;
  state ← io_lift (Config_PartitionHead config head);
  a ← with_reader (f config head);
  mret (state, hh_Generation (hd_Header head), MaxPageLevel head, a).

Definition Engine_ListSegmentsSnapshot (e : EngineOptions) (partition fromLSN limit : Z) : io (PartitionHead * Z * Z * SegmentPage) :=
  snapshot_of e partition (λ config head pages ctx, ListSegments config pages ctx head fromLSN limit).
Definition Engine_ListPagePathsSnapshot (e : EngineOptions) (partition level fromSeqLo limit : Z) : io (PartitionHead * Z * Z * PagePathPage) :=
  snapshot_of e partition (λ config head pages ctx, ListPagePaths config pages ctx head level fromSeqLo limit).
Definition Engine_IsPageReachableSnapshot (e : EngineOptions) (partition : Z) (target : PageTarget) : io (PartitionHead * Z * Z * bool) :=
  snapshot_of e partition (λ config head pages ctx, IsPageReachable config pages ctx head target).

End engine.

(** ** Session methods

    A method changes the session; the changes stay on the error path. *)
Abbreviation sess := (sprog eresp Session).
Abbreviation sess_get := (sp_get (resp := eresp) (S := Session)).
Abbreviation sess_modify := (sp_modify (resp := eresp) (S := Session)).
Abbreviation sess_fail := (sp_fail (resp := eresp) (S := Session)).
Abbreviation sess_lift := (sp_lift (resp := eresp) (S := Session)).
Abbreviation sess_try := (sp_try (resp := eresp) (S := Session)).
Definition sess_io {A} (m : io A) : sess A := λ s, prog_bind m (λ r, Return (s, r)).

Section sessions.
Context `{XXHash}.

Definition set_stale (stale : bool) (s : Session) : Session := {|
  s_engine := s_engine s; s_config := s_config s; s_writerEpoch := s_writerEpoch s; s_writerID := s_writerID s;
  s_head := s_head s; s_token := s_token s; s_stale := stale;
  s_lastAppend := s_lastAppend s; s_lastAppendState := s_lastAppendState s; s_hasLastAppend := s_hasLastAppend s;
  s_pending := s_pending s |}.
Definition set_head (head : Head) (token : gostring) (s : Session) : Session := {|
  s_engine := s_engine s; s_config := s_config s; s_writerEpoch := s_writerEpoch s; s_writerID := s_writerID s;
  s_head := head; s_token := token; s_stale := s_stale s;
  s_lastAppend := s_lastAppend s; s_lastAppendState := s_lastAppendState s; s_hasLastAppend := s_hasLastAppend s;
  s_pending := s_pending s |}.
Definition set_lastAppend (segment : SegmentRef) (state : PartitionHead) (s : Session) : Session := {|
  s_engine := s_engine s; s_config := s_config s; s_writerEpoch := s_writerEpoch s; s_writerID := s_writerID s;
  s_head := s_head s; s_token := s_token s; s_stale := s_stale s;
  s_lastAppend := segment; s_lastAppendState := state; s_hasLastAppend := true;
  s_pending := s_pending s |}.
Definition set_pending (pending : option retentionCommit) (s : Session) : Session := {|
  s_engine := s_engine s; s_config := s_config s; s_writerEpoch := s_writerEpoch s; s_writerID := s_writerID s;
  s_head := s_head s; s_token := s_token s; s_stale := s_stale s;
  s_lastAppend := s_lastAppend s; s_lastAppendState := s_lastAppendState s; s_hasLastAppend := s_hasLastAppend s;
  s_pending := pending |}.

Definition observeFence (head : Head) (s : Session) : Session :=
  if negb (hh_WriterEpoch (hd_Header head) =? s_writerEpoch s) ||
     negb (bool_decide (hh_WriterID (hd_Header head) = s_writerID s))
  then set_stale true s else s.

Definition sameHead (left right : Head) : bool :=
  match MarshalHead left, MarshalHead right with
  | Ok leftBody, Ok rightBody => bool_decide (leftBody = rightBody)
  | _, _ => false
  end.

Definition refreshLocked : sess () :=
  s ← sess_get;
  '(head, token) ← sess_io (Engine_Load (s_engine s) (cf_Partition (s_config s)));
  _ ← sess_modify (observeFence head);
  sess_modify (set_head head token).

Definition refreshActiveLocked : sess () :=
  s ← sess_get;
  leave_if s_stale s with [ErrStaleWriter];
  _ ← refreshLocked;
  s ← sess_get;
  leave_if s_stale s with [ErrStaleWriter];
  mret ().

Fixpoint putPages (pages : list PageObject) : io () :=
  match pages with
  | [] => mret ()
  | page :: pages => _ ← store (Put (po_Key page) (po_Body page)); putPages pages
  end.

(** The end of an iteration of [commitLocked]'s loop. *)
Definition commit_next (attempts : nat) (backoff : Z) (lastErr : option error) (continue : sess (PartitionHead + option error))
    : sess (PartitionHead + option error) :=
  match attempts with
  | O => mret (inr lastErr)
  | S _ =>
      waited ← sess_io (waitBackoff backoff);
      match waited with
      | Some err => sess_fail (ErrCommitIndeterminate :: errors_Join lastErr err)
      | None => continue
      end
  end.

(** The loop of [commitLocked]: the state to return, or the last error. *)
Fixpoint commit_loop (attempts : nat) (previous : Head) (mutation : Mutation) (applied : Head → io bool)
    (expectedToken : gostring) (backoff : Z) (lastErr : option error) : sess (PartitionHead + option error) :=
  match attempts with
  | O => mret (inr lastErr)
  | S attempts =>
      s ← sess_get;
      r ← sess_io (io_try (store (CompareAndSwap (HeadPath (s_config s)) expectedToken (mu_HeadBody mutation))));
      let next expectedToken lastErr :=
        commit_next attempts backoff lastErr
          (commit_loop attempts previous mutation applied expectedToken
             (growBackoff backoff (eo_CommitMaxBackoff (s_engine s))) lastErr) in
      match r with
      | Ok (object, swapped) =>
          if (swapped : bool) then
            _ ← sess_modify (set_head (mu_Head mutation) (o_Token object));
            state ← sess_lift (Config_PartitionHead (s_config s) (mu_Head mutation));
            mret (inl state)
          else
            observed ← sess_lift (DecodeHead (s_config s) (o_Body object));
            _ ← sess_modify (observeFence observed);
            ok ← sess_io (applied observed);
            if bool_decide (o_Body object = mu_HeadBody mutation) then
              _ ← sess_modify (set_head observed (o_Token object));
              state ← sess_lift (Config_PartitionHead (s_config s) observed);
              mret (inl state)
            else if (ok : bool) then
              _ ← sess_modify (set_head observed (o_Token object));
              state ← sess_lift (Config_PartitionHead (s_config s) (mu_Head mutation));
              mret (inl state)
            else
            s ← sess_get;
            leave_if s_stale s with [ErrStaleWriter];
            if sameHead previous observed then
              match attempts with
              | O => sess_fail [ErrConflict]
              | S _ => next (o_Token object) None
              end
            else sess_fail [ErrConflict]
      | Err casErr => next expectedToken (Some casErr)
      end
  end.

Definition commitLocked (previous : Head) (mutation : Mutation) (applied : Head → io bool) : sess PartitionHead :=
  s ← sess_get;
  committed ← commit_loop (Z.to_nat (eo_CommitAttempts (s_engine s))) previous mutation applied (s_token s)
                (eo_CommitInitialBackoff (s_engine s)) None;
  match committed with
  | inl state => mret state
  | inr lastErr =>
      r ← sess_io (io_try (Engine_Load (s_engine s) (cf_Partition (s_config s))));
      match r with
      | Err err => sess_fail (ErrCommitIndeterminate :: errors_Join lastErr err)
      | Ok (observed, token) =>
          _ ← sess_modify (observeFence observed);
          ok ← sess_io (applied observed);
          if (ok : bool) then
            _ ← sess_modify (set_head observed token);
            sess_lift (Config_PartitionHead (s_config s) (mu_Head mutation))
          else
          s ← sess_get;
          leave_if s_stale s with [ErrStaleWriter];
          match (if sameHead previous observed then lastErr else None) with
          | Some err => sess_fail err
          | None => sess_fail [ErrConflict]
          end
      end
  end.

(** The closure of [commitAppendLocked]. *)
Definition append_applied (config : Config) (segment : SegmentRef) (observed : Head) : io bool :=
  found ← with_reader (λ pages ctx, FindSegment config pages ctx observed (sr_BaseLSN segment));
  mret (bool_decide (found = Some segment)).

Definition commitAppendLocked (previous : Head) (mutation : Mutation) (segment : SegmentRef) : sess PartitionHead :=
  s ← sess_get; commitLocked previous mutation (append_applied (s_config s) segment).

Definition retentionApplied (observed : Head) (mutation : Mutation) : bool :=
  (hh_AppliedRetentionVersion (hd_Header (mu_Head mutation)) <=? hh_AppliedRetentionVersion (hd_Header observed)) &&
  (hh_OldestLSN (hd_Header (mu_Head mutation)) <=? hh_OldestLSN (hd_Header observed)).

Definition commitRetentionLocked (previous : Head) (mutation : Mutation) : sess PartitionHead :=
  commitLocked previous mutation (λ observed, mret (retentionApplied observed mutation)).

Definition resolved (pending : retentionCommit) : retentionCommit :=
  {| rc_request := rc_request pending; rc_previous := rc_previous pending; rc_mutation := rc_mutation pending; rc_resolved := true |}.

Definition resolveRetentionLocked : sess () :=
  s ← sess_get;
  match s_pending s with
  | None => mret ()
  | Some pending =>
      leave_if s_stale s with [ErrStaleWriter];
      ctx ← sess_io ctx_err;
      match ctx with
      | Some err => sess_fail (ErrCommitIndeterminate :: err)
      | None =>
          if rc_resolved pending then mret () else
          r ← sess_try refreshActiveLocked;
          match r with
          | Err err => if errors_Is err ErrStaleWriter then sess_fail err else sess_fail (ErrCommitIndeterminate :: err)
          | Ok _ =>
              s ← sess_get;
              if retentionApplied (s_head s) (rc_mutation pending) then sess_modify (set_pending (Some (resolved pending)))
              else
              leave_if negb (sameHead (rc_previous pending) (s_head s)) with [ErrConflict];
              r ← sess_try (commitRetentionLocked (rc_previous pending) (rc_mutation pending));
              match r with
              | Err err =>
                  if errors_Is err ErrStaleWriter || errors_Is err ErrConflict then sess_fail err
                  else sess_fail (ErrCommitIndeterminate :: err)
              | Ok _ =>
                  s ← sess_get;
                  leave_if s_stale s with [ErrStaleWriter];
                  sess_modify (set_pending (Some (resolved pending)))
              end
          end
      end
  end.

Definition Session_Head (s : Session) : PartitionHead :=
  match Config_PartitionHead (s_config s) (s_head s) with Ok state => state | Err _ => empty_head [] 0 end.

(** [acknowledgeRetentionLocked], called with a pending commit. *)
Definition acknowledgeRetentionLocked : sess RetentionApplyResult :=
  _ ← resolveRetentionLocked;
  s ← sess_get;
  state ← sess_lift (Config_PartitionHead (s_config s) (s_head s));
  match s_pending s with
  | None => sess_fail [GoPanic]
  | Some pending =>
      _ ← sess_modify (set_pending None);
      mret {| ra_Head := state; ra_Request := rc_request pending; ra_Applied := true |}
  end.

Definition applyRetentionLocked (request : RetentionRequest) : sess (PartitionHead * bool) :=
  s ← sess_get;
  let previous := s_head s in
  mutation ← sess_io (with_reader (λ pages ctx,
               ApplyRetention ctx (s_config s) (Some pages) previous (rq_BeforeLSN request) (rq_PolicyVersion request)));
  if hh_Generation (hd_Header (mu_Head mutation)) =? hh_Generation (hd_Header previous) then
    state ← sess_lift (Config_PartitionHead (s_config s) previous);
    let reconciled := match s_pending s with Some _ => true | None => false end in
    _ ← sess_modify (set_pending None);
    mret (state, reconciled)
  else
    _ ← sess_io (putPages (mu_Pages mutation));
    let priorRetention := s_pending s in
    _ ← sess_modify (set_pending (Some {| rc_request := request; rc_previous := previous; rc_mutation := mutation; rc_resolved := false |}));
    r ← sess_try (commitRetentionLocked previous mutation);
    match r with
    | Ok state => _ ← sess_modify (set_pending None); mret (state, true)
    | Err err =>
        _ ← (if negb (errors_Is err ErrCommitIndeterminate) then sess_modify (set_pending priorRetention) else mret ());
        sess_fail err
    end.

Definition Session_AppendSegment (segment : SegmentRef) : sess PartitionHead :=
  _ ← sess_io io_check_ctx;
  s ← sess_get;
  if s_stale s then
    if s_hasLastAppend s && bool_decide (s_lastAppend s = segment) then
      leave_if sr_BaseLSN segment <? hh_OldestLSN (hd_Header (s_head s)) with [ErrCommitIndeterminate];
      mret (s_lastAppendState s)
    else sess_fail [ErrStaleWriter]
  else
  _ ← resolveRetentionLocked;
  s ← sess_get;
  if HasLastSegment (s_head s) && bool_decide (segmentRef (s_config s) (hd_LastSegment (s_head s)) = segment) then
    acknowledged ← (if negb (s_hasLastAppend s) || negb (bool_decide (s_lastAppend s = segment))
                    then sess_lift (Config_PartitionHead (s_config s) (s_head s))
                    else mret (s_lastAppendState s));
    _ ← refreshLocked;
    s ← sess_get;
    leave_if sr_BaseLSN segment <? hh_OldestLSN (hd_Header (s_head s)) with [ErrCommitIndeterminate];
    observed ← sess_io (with_reader (λ pages ctx, FindSegment (s_config s) pages ctx (s_head s) (sr_BaseLSN segment)));
    leave_if negb (bool_decide (observed = Some segment)) with [ErrCommitIndeterminate];
    mret acknowledged
  else
    mutation ← sess_lift (Append (s_config s) (s_head s) segment);
    _ ← sess_io (putPages (mu_Pages mutation));
    state ← commitAppendLocked (s_head s) mutation segment;
    _ ← sess_modify (set_lastAppend segment state);
    mret state.

Definition Session_ApplyPendingRetention (request : RetentionRequest) (found : bool) : sess RetentionApplyResult :=
  _ ← sess_io io_check_ctx;
  s ← sess_get;
  match s_pending s with
  | Some _ => acknowledgeRetentionLocked
  | None =>
      _ ← refreshActiveLocked;
      s ← sess_get;
      if negb found || (rq_PolicyVersion request <=? hh_AppliedRetentionVersion (hd_Header (s_head s))) then
        state ← sess_lift (Config_PartitionHead (s_config s) (s_head s));
        mret {| ra_Head := state; ra_Request := request; ra_Applied := false |}
      else
        '(state, applied) ← applyRetentionLocked request;
        mret {| ra_Head := state; ra_Request := request; ra_Applied := applied |}
  end.

Definition Session_ReconcilePendingRetention : sess (option RetentionApplyResult) :=
  s ← sess_get;
  match s_pending s with
  | None => mret None
  | Some _ => result ← acknowledgeRetentionLocked; mret (Some result)
  end.

Definition Session_ApplyRetention (beforeLSN policyVersion : Z) : sess (PartitionHead * bool) :=
  _ ← sess_io io_check_ctx;
  s ← sess_get;
  if match s_pending s with
     | Some pending => (rq_BeforeLSN (rc_request pending) =? beforeLSN) && (rq_PolicyVersion (rc_request pending) =? policyVersion)
     | None => false
     end
  then
    result ← acknowledgeRetentionLocked;
    mret (ra_Head result, ra_Applied result)
  else
  _ ← resolveRetentionLocked;
  _ ← refreshActiveLocked;
  applyRetentionLocked {| rq_Version := RetentionRequestVersion; rq_PolicyVersion := policyVersion;
                          rq_BeforeLSN := beforeLSN; rq_CreatedUnixMS := 0 |}.
End sessions.
