(* ===== verification/CatLog.v ===== *)
(** * The history of a catalog

    What the heads of one partition may do over time, independently of how they
    are published: [transition] lists the steps (creation, takeover, append,
    retention), and [history] the sequences of heads they allow.  The lemmas show
    what such a sequence guarantees; the engine's programs are later shown to
    publish only such sequences. *)
From S2P Require Import Prelude Hash SegFormat Ranges PMeta KeyLayout CatFormat CatCodec CatTree CatReader CatAppend CatRetention.

(** A published version: a head and the entries it represents. *)
Abbreviation version := (Head * list LeafEntry)%type.

Section log.
Context `{XXHash} (c : Config).

Inductive transition : option version → version → Prop :=
  | tr_create nextLSN :
      transition None (new_head c nextLSN, [])
  | tr_open writerID :
      transition None (takeover_head (new_head c 0) writerID, [])
  | tr_takeover head es writerID :
      hh_WriterEpoch (hd_Header head) < MaxUint64 → hh_Generation (hd_Header head) < MaxUint64 →
      transition (Some (head, es)) (takeover_head head writerID, es)
  | tr_append head es segment entry m :
      SegmentRef_typed segment → append_checks c head segment entry → Append c head segment = Ok m →
      transition (Some (head, es)) (mu_Head m, es ++ [entry])
  | tr_retain head es head' beforeLSN policyVersion :
      fresh_request head beforeLSN policyVersion → retention_applied head head' beforeLSN policyVersion →
      transition (Some (head, es)) (head', from_lsn beforeLSN es).

Inductive history : list version → Prop :=
  | history_nil : history []
  | history_snoc log v : history log → transition (last log) v → history (log ++ [v]).

Definition epoch_of (v : version) : Z := hh_WriterEpoch (hd_Header v.1).
Definition generation_of (v : version) : Z := hh_Generation (hd_Header v.1).
Definition next_of (v : version) : Z := hh_NextLSN (hd_Header v.1).
Definition policy_of (v : version) : Z := hh_AppliedRetentionVersion (hd_Header v.1).

(** A version that represents its entries under some page source. *)
Definition represented (v : version) : Prop := ∃ pages, catalog_rep c pages v.1 v.2.

(** One step after a represented version. *)
Record follows (v v' : version) : Prop := {
  fl_generation : generation_of v' = generation_of v + 1;
  fl_epoch : epoch_of v ≤ epoch_of v';
  fl_next : next_of v ≤ next_of v';
  fl_policy : policy_of v ≤ policy_of v';
  fl_history : ∃ n k, (n ≤ length (v.2 ++ k))%nat ∧ v'.2 = drop n (v.2 ++ k) ∧
                 Forall (λ e, le_WriterEpoch e = epoch_of v ∧ next_of v ≤ le_BaseLSN e) k }.

Lemma append_head_fields head segment entry m :
  append_checks c head segment entry → Append c head segment = Ok m →
  hh_WriterEpoch (hd_Header (mu_Head m)) = hh_WriterEpoch (hd_Header head) ∧
  hh_NextLSN (hd_Header (mu_Head m)) = uint64 (le_LastLSN entry + 1) ∧
  hh_Generation (hd_Header (mu_Head m)) = uint64 (hh_Generation (hd_Header head) + 1) ∧
  hh_AppliedRetentionVersion (hd_Header (mu_Head m)) = hh_AppliedRetentionVersion (hd_Header head) ∧
  hh_WriterID (hd_Header (mu_Head m)) = hh_WriterID (hd_Header head).
Proof.
  intros HC HA. rewrite (Append_checked _ _ _ _ HC) in HA. inv_ok. destruct x as [active ss]. inv_ok. by split_and!.
Qed.

Lemma transition_follows v v' : represented v → transition (Some v) v' → follows v v'.
Proof.
  intros [pages HR] HT. inversion HT as [| |head es w He Hg|head es segment entry m Hty HC HA|head es head' before pv Hf Hra]; subst; cbn [fst snd] in *;
    pose proof (cr_typed _ _ _ _ HR) as (Ht & _); unfold HeadHeader_typed in Ht; typed_fields.
  - constructor; unfold generation_of, epoch_of, next_of, policy_of; cbn [fst snd takeover_head hd_Header hh_Generation hh_WriterEpoch hh_NextLSN hh_AppliedRetentionVersion];
      [rewrite uint64_id by (unfold_widths; lia); lia|rewrite uint64_id by (unfold_widths; lia); lia|lia|lia|].
    exists 0%nat, []. rewrite app_nil_r. split; [lia|]. by split.
  - destruct (append_head_fields _ _ _ _ HC HA) as (E1 & E2 & E3 & E4 & _). pose proof (ac_generation _ _ _ _ HC).
    destruct (leafEntry_inv c segment entry Hty (ac_entry _ _ _ _ HC)) as [Hv _]. destruct (leaf_valid_inv _ Hv) as ([Hr _] & Hlo & Hhi & _).
    pose proof (ac_base _ _ _ _ HC). cbn in Hr. unfold MaxRecordLSN in *.
    constructor; unfold generation_of, epoch_of, next_of, policy_of; cbn [fst snd]; rewrite ?E1, ?E2, ?E3, ?E4.
    + rewrite uint64_id by (unfold_widths; lia). lia.
    + lia.
    + rewrite uint64_id by (unfold_widths; lia). lia.
    + lia.
    + exists 0%nat, [entry]. split; [lia|]. split; [done|]. constructor; [|constructor]. split; [apply (ac_epoch _ _ _ _ HC)|lia].
  - destruct Hra as [R1 R2 _ R4 _ R6 _ _]. destruct Hf as ((Hp1 & _) & _).
    constructor; unfold generation_of, epoch_of, next_of, policy_of; cbn [fst snd]; rewrite ?R1, ?R2, ?R4, ?R6; try lia.
    destruct (catalog_rep_bounds _ _ _ _ HR) as (Hc & _). destruct (from_lsn_split before es Hc) as (k & E & _).
    exists (length k), []. rewrite app_nil_r. split; [rewrite E, length_app; lia|]. split; [|constructor]. rewrite E at 2. by rewrite drop_app_length.
Qed.

Lemma history_prefix log log' : history (log ++ log') → history log.
Proof.
  induction log' as [|v log' IH] using rev_ind; [by rewrite app_nil_r|]. rewrite app_assoc. intros Hh. apply IH.
  inversion Hh as [|l x Hl Hx E]; [by destruct (log ++ log')|]. by apply app_inj_tail in E as [<- _].
Qed.

Lemma history_step log i v v' : history log → log !! i = Some v → log !! S i = Some v' → transition (Some v) v'.
Proof.
  intros Hh Hi Hi'. rewrite <- (take_drop (S (S i)) log) in Hh. apply history_prefix in Hh.
  rewrite (take_S_r _ _ _ Hi') in Hh. inversion Hh as [|l x Hl Hx E]; [by destruct (take (S i) log)|].
  apply app_inj_tail in E as [-> ->]. rewrite (take_S_r _ _ _ Hi), last_snoc in Hx. done.
Qed.

(** Steps compose: between two versions of a history. *)
Record precedes (v v' : version) : Prop := {
  pr_epoch : epoch_of v ≤ epoch_of v';
  pr_next : next_of v ≤ next_of v';
  pr_policy : policy_of v ≤ policy_of v';
  pr_history : ∃ n k, (n ≤ length (v.2 ++ k))%nat ∧ v'.2 = drop n (v.2 ++ k) ∧
                 Forall (λ e, epoch_of v ≤ le_WriterEpoch e ∧ next_of v ≤ le_BaseLSN e) k }.

Lemma precedes_refl v : precedes v v.
Proof. constructor; [lia..|]. exists 0%nat, []. rewrite app_nil_r. split; [lia|]. by split. Qed.

Lemma precedes_step v v1 v2 : precedes v v1 → follows v1 v2 → precedes v v2.
Proof.
  intros [E1 N1 P1 (n1 & k1 & L1 & H1 & F1)] [_ E2 N2 P2 (n2 & k2 & L2 & H2 & F2)]. constructor; [lia..|].
  exists (n1 + n2)%nat, (k1 ++ k2). rewrite H1 in H2, L2.
  assert (Ed : drop n1 (v.2 ++ k1) ++ k2 = drop n1 (v.2 ++ (k1 ++ k2))) by (rewrite (app_assoc v.2 k1 k2), (drop_app_le (v.2 ++ k1)) by done; done).
  rewrite Ed in *. split; [rewrite length_drop in L2; rewrite !length_app in *; lia|]. split; [by rewrite H2, drop_drop|].
  apply Forall_app. split; [done|]. eapply Forall_impl; [exact F2|]. intros e [? ?]. cbn in *. lia.
Qed.

Lemma history_precedes log i j v v' :
  history log → Forall represented log → log !! i = Some v → log !! j = Some v' → (i ≤ j)%nat →
  precedes v v' ∧ generation_of v' = generation_of v + Z.of_nat (j - i).
Proof.
  intros Hh HF Hi Hj Hij. remember (j - i)%nat as d eqn:Ed. replace j with (i + d)%nat in Hj by lia. clear Ed Hij j.
  revert v' Hj; induction d as [|d IH]; intros v' Hj.
  - rewrite Nat.add_0_r in Hj. simplify_eq. split; [apply precedes_refl|lia].
  - assert (Hlt : (i + d < length log)%nat) by (apply lookup_lt_Some in Hj; lia). apply lookup_lt_is_Some in Hlt as [v1 H1].
    destruct (IH v1 H1) as [IHp IHg]. replace (i + S d)%nat with (S (i + d)) in Hj by lia.
    pose proof (history_step log (i + d) v1 v' Hh H1 Hj) as HT.
    pose proof (transition_follows v1 v' (Forall_lookup_1 _ _ _ _ HF H1) HT) as Hfl.
    split; [by eapply precedes_step|]. rewrite (fl_generation _ _ Hfl), IHg. lia.
Qed.

(** Versions of one epoch have one writer. *)
Lemma transition_writer v v' :
  represented v → transition (Some v) v' → epoch_of v' = epoch_of v → hh_WriterID (hd_Header v'.1) = hh_WriterID (hd_Header v.1).
Proof.
  intros [pages HR] HT. inversion HT as [| |head es w He Hg|head es segment entry m Hty HC HA|head es head' before pv Hf Hra]; subst; cbn [fst snd] in *.
  - pose proof (cr_typed _ _ _ _ HR) as (Ht & _). unfold HeadHeader_typed in Ht. typed_fields.
    unfold epoch_of; cbn. rewrite uint64_id by (unfold_widths; lia). lia.
  - by destruct (append_head_fields _ _ _ _ HC HA) as (_ & _ & _ & _ & ->).
  - intros _. apply Hra.
Qed.

Lemma history_writer log i j v v' :
  history log → Forall represented log → log !! i = Some v → log !! j = Some v' → (i ≤ j)%nat → epoch_of v = epoch_of v' →
  hh_WriterID (hd_Header v.1) = hh_WriterID (hd_Header v'.1).
Proof.
  intros Hh HF Hi Hj Hij. remember (j - i)%nat as d eqn:Ed. replace j with (i + d)%nat in Hj by lia. clear Ed Hij j.
  revert v' Hj; induction d as [|d IH]; intros v' Hj Ee.
  - rewrite Nat.add_0_r in Hj. by simplify_eq.
  - assert (Hlt : (i + d < length log)%nat) by (apply lookup_lt_Some in Hj; lia). apply lookup_lt_is_Some in Hlt as [v1 H1].
    pose proof (Forall_lookup_1 _ _ _ _ HF H1) as Hv1.
    destruct (history_precedes log i (i + d) v v1 Hh HF Hi H1 ltac:(lia)) as [[Hp _ _ _] _].
    replace (i + S d)%nat with (S (i + d)) in Hj by lia. pose proof (history_step log (i + d) v1 v' Hh H1 Hj) as HT.
    pose proof (fl_epoch _ _ (transition_follows v1 v' Hv1 HT)) as Hf.
    rewrite (transition_writer v1 v' Hv1 HT) by lia. apply IH; [done|lia].
Qed.

(** ** Entries over time *)
Lemma catalog_rep_empty pages head : catalog_rep c pages head [] → hh_OldestLSN (hd_Header head) = hh_NextLSN (hd_Header head).
Proof.
  intros [_ Hk _ (ess & HF & E) _]. destruct (headRoots_ends _ Hk) as (_ & _ & Hn & _). apply Hn.
  destruct (roots_expand _ _ _ _ Hk HF) as [HX _]. destruct HX as [|r es rs ess Hr _]; [done|].
  destruct (expands_nonempty _ _ Hr) as (b & k & ->). done.
Qed.
Lemma catalog_rep_oldest pages head e es : catalog_rep c pages head (e :: es) → hh_OldestLSN (hd_Header head) = le_BaseLSN e.
Proof.
  intros [_ Hk _ (ess & HF & E) _]. destruct (headRoots_ends _ Hk) as (Ho & _ & _ & _).
  destruct (roots_expand _ _ _ _ Hk HF) as [HX _]. destruct HX as [|r l rs ess Hr _]; [done|].
  rewrite <- (Ho r eq_refl). destruct Hr as (_ & Hlo & _). destruct l as [|b k]; [done|]. cbn in E, Hlo. simplify_eq. done.
Qed.

(** An entry stays until the oldest position has passed it. *)
Lemma precedes_keeps v v' e :
  represented v → represented v' → precedes v v' → e ∈ v.2 → e ∈ v'.2 ∨ le_LastLSN e < hh_OldestLSN (hd_Header v'.1).
Proof.
  intros [pages HR] [pages' HR'] [_ Hnext _ (n & k & Hn & Ev & HF)] He.
  destruct (catalog_rep_bounds _ _ _ _ HR) as (Hc & Hval & HB & _). destruct (HB e He) as [_ Hlt]. fold (next_of v) in Hlt.
  apply list_elem_of_lookup_1 in He as [p Hp]. destruct (decide (n ≤ p)%nat) as [Hnp|Hnp].
  { left. rewrite Ev. apply (list_elem_of_lookup_2 _ (p - n)). rewrite lookup_drop, lookup_app_l by (apply lookup_lt_Some in Hp; lia).
    by replace (n + (p - n))%nat with p by lia. }
  right. destruct v'.2 as [|e' es'] eqn:E'.
  { rewrite (catalog_rep_empty _ _ HR'). unfold next_of in *. lia. }
  rewrite (catalog_rep_oldest _ _ _ _ HR').
  assert (Hl : (v.2 ++ k) !! n = Some e') by (rewrite <- (Nat.add_0_r n), <- lookup_drop, <- Ev; done).
  apply lookup_app_Some in Hl as [Hl|[_ Hl]].
  - rewrite <- (take_drop n v.2) in Hc.
    assert (Hin : e ∈ take n v.2) by (apply (list_elem_of_lookup_2 _ p); by rewrite lookup_take_lt by lia).
    assert (Hin' : e' ∈ drop n v.2) by (apply (list_elem_of_lookup_2 _ 0); by rewrite lookup_drop, Nat.add_0_r).
    pose proof (chain_apart _ _ _ _ Hc Hin Hin') as Ha. cbn in Ha. lia.
  - pose proof (Forall_lookup_1 _ _ _ _ HF Hl) as [_ ?]. lia.
Qed.
End log.

