(* ===== verification/CatMono.v ===== *)
(** * Traversals with missing pages

    A traversal that succeeds although some pages could not be read gives the
    result it would give with all of them: readers and retention only look at
    what they load.  [res_le] orders results by definedness, and every traversal
    of the catalog is monotone in its page source. *)
From S2P Require Import Prelude Hash SegFormat Ranges PMeta KeyLayout CatFormat CatCodec CatTree CatReader CatAppend CatRetention.

Definition res_le {A} (r r' : result A) : Prop := ∀ a, r = Ok a → r' = Ok a.

#[export] Instance res_le_preorder {A} : PreOrder (@res_le A).
Proof. split; [by intros r a|]. intros r1 r2 r3 H1 H2 a Ha. auto. Qed.

Lemma res_le_bind {A B} (r r' : result A) (f f' : A → result B) :
  res_le r r' → (∀ a, res_le (f a) (f' a)) → res_le (r ≫= f) (r' ≫= f').
Proof. intros Hr Hf b Hb. destruct r as [a|]; [|done]. rewrite (Hr a eq_refl). cbn in *. by apply Hf. Qed.

Create HintDb mono.
#[export] Hint Resolve res_le_bind : mono.
#[export] Hint Extern 1 (res_le ?r ?r) => reflexivity : mono.

(** Splits binds, conditionals and matches on values both sides share. *)
Ltac mono_step :=
  match goal with
  | |- res_le ?r ?r => reflexivity
  | |- res_le (_ ≫= _) (_ ≫= _) => apply res_le_bind; [|intros ?]
  | |- res_le (if ?b then _ else _) _ => destruct b eqn:?
  | |- res_le (match ?x with _ => _ end) _ => destruct x eqn:?
  end.
Ltac mono := cbv zeta; repeat (mono_step; cbv beta zeta iota); auto with mono.

Definition page_key (c : Config) (key : gostring) : Prop :=
  ∃ ref, key = LeafPagePath c ref ∨ key = IndexPagePath c ref.
(** [pages'] has the pages of [pages]. *)
Definition pages_le (c : Config) (pages pages' : PageSource) : Prop :=
  ∀ key, page_key c key → res_le (pages key) (pages' key).

Section mono.
Context `{XXHash} (c : Config) (pages pages' : PageSource) (Hle : pages_le c pages pages').

Lemma loadLeaf_mono ref epoch : res_le (loadLeaf c pages ref epoch) (loadLeaf c pages' ref epoch).
Proof. unfold loadLeaf. apply res_le_bind; [apply Hle; exists ref; auto|]. reflexivity. Qed.
Lemma loadIndex_mono ref epoch : res_le (loadIndex c pages ref epoch) (loadIndex c pages' ref epoch).
Proof. unfold loadIndex. apply res_le_bind; [apply Hle; exists ref; auto|]. reflexivity. Qed.
Hint Resolve loadLeaf_mono loadIndex_mono : mono.

Lemma findInPage_mono fuel ref lsn epoch : res_le (findInPage c pages fuel ref lsn epoch) (findInPage c pages' fuel ref lsn epoch).
Proof. revert ref epoch; induction fuel as [|fuel IH]; intros ref epoch; cbn [findInPage]; mono. Qed.
Lemma findTimestampInPage_mono fuel ref ts epoch :
  res_le (findTimestampInPage c pages fuel ref ts epoch) (findTimestampInPage c pages' fuel ref ts epoch).
Proof. revert ref epoch; induction fuel as [|fuel IH]; intros ref epoch; cbn [findTimestampInPage]; mono. Qed.
Hint Resolve findInPage_mono findTimestampInPage_mono : mono.

Lemma FindSegment_mono ctx head lsn : res_le (FindSegment c pages ctx head lsn) (FindSegment c pages' ctx head lsn).
Proof. unfold FindSegment. mono. Qed.
Lemma LookupTimestamp_mono ctx head ts : res_le (LookupTimestamp c pages ctx head ts) (LookupTimestamp c pages' ctx head ts).
Proof. unfold LookupTimestamp. mono. Qed.

Lemma for_until_mono {A C} done (f f' : A → C → result C) l col :
  (∀ a col, res_le (f a col) (f' a col)) → res_le (for_until done f l col) (for_until done f' l col).
Proof. intros Hf. revert col; induction l as [|a l IH]; intros col; cbn [for_until]; mono. Qed.

Lemma collectPage_mono fuel from limit ref epoch col :
  res_le (collectPage c pages fuel from limit ref epoch col) (collectPage c pages' fuel from limit ref epoch col).
Proof.
  revert ref epoch col; induction fuel as [|fuel IH]; intros ref epoch col; cbn [collectPage]; mono; by apply for_until_mono; intros; mono.
Qed.
Hint Resolve collectPage_mono : mono.

Lemma ListSegments_mono ctx head from limit :
  res_le (ListSegments c pages ctx head from limit) (ListSegments c pages' ctx head from limit).
Proof. unfold ListSegments. mono. apply for_until_mono. intros root col. mono. Qed.

Lemma trimPageRef_mono fuel ref x generation epoch :
  res_le (trimPageRef fuel c pages ref x generation epoch) (trimPageRef fuel c pages' ref x generation epoch).
Proof. revert ref; induction fuel as [|fuel IH]; intros ref; cbn [trimPageRef]; mono. Qed.
Hint Resolve trimPageRef_mono : mono.

Lemma trim_sections_mono x generation epoch ss :
  res_le (trim_sections c pages x generation epoch ss) (trim_sections c pages' x generation epoch ss).
Proof. induction ss as [|s ss IH]; cbn [trim_sections]; mono. Qed.
Hint Resolve trim_sections_mono FindSegment_mono : mono.

Lemma ApplyRetention_mono ctx head beforeLSN policyVersion :
  res_le (ApplyRetention ctx c (Some pages) head beforeLSN policyVersion)
         (ApplyRetention ctx c (Some pages') head beforeLSN policyVersion).
Proof. unfold ApplyRetention, retention_lists, trimHead. mono. Qed.

Lemma page_rep_pages level ref epoch es : page_rep c pages level ref epoch es → page_rep c pages' level ref epoch es.
Proof.
  revert ref epoch es; induction level as [|level IH]; intros ref epoch es.
  - intros (page & HL & ->). exists page. split; [by apply loadLeaf_mono|done].
  - intros (page & ess & HL & -> & HF). exists page, ess. split; [by apply loadIndex_mono|]. split; [done|].
    eapply Forall2_impl; [exact HF|]. auto.
Qed.

Lemma catalog_rep_pages head es : catalog_rep c pages head es → catalog_rep c pages' head es.
Proof.
  intros [Ht Hk Hcfg (ess & HF & Ees) Hlast]. constructor; try done. exists ess. split; [|done].
  eapply Forall2_impl; [exact HF|]. intros [ref|leaf] rs; [apply page_rep_pages|done].
Qed.
End mono.

(** Neither is the head's key a page key, nor are page keys of different kinds. *)
Lemma head_not_page c : ¬ page_key c (HeadPath c).
Proof.
  intros (ref & [E|E]); unfold HeadPath, LeafPagePath, IndexPagePath in E; apply app_inv_head in E; discriminate E.
Qed.

Lemma PagePath_key c ref : page_key c (PagePath c ref).
Proof. exists ref. unfold PagePath. destruct (ie_Level ref =? 0); auto. Qed.
