(* ===== verification/CatSafe.v ===== *)
(** * Published heads

    The invariant of a partition's objects under concurrent writers, and the
    rely-guarantee logic the engine's programs are verified in.  A world is the
    state of the store together with the versions published so far; [evolves] is
    what any step, of any writer, may do to it; [safe] says that a program keeps
    the world evolving whatever the others do between its calls. *)
From S2P Require Import Prelude Hash SegFormat Ranges PMeta KeyLayout CatFormat CatCodec CatTree CatReader CatAppend CatRetention.
From S2P Require Import BlobStore CatEngine CatLog CatMono.

Abbreviation world := (blobs * list version)%type.

Section worlds.
Context `{XXHash} (c : Config).
Implicit Types (s : blobs) (log : list version) (v : version).

Definition page_source (s : blobs) : PageSource := λ key,
  match b_obj s !! key with Some (body, _) => Ok body | None => Err [BlobErrObjectNotFound] end.

(** The bodies and tokens the head object has had, in order. *)
Definition head_writes (s : blobs) : list (list byte * gostring) :=
  omap (λ w, let '(key, body, token) := w in
             if bool_decide (key = HeadPath c) then Some (body, token) else None) (b_writes s).

(** The head object has gone through the versions of [log]: each write was the
    marshalled head of a version, the current object is the last one, the
    versions form a history, and all of them can still be read. *)
Record published (s : blobs) (log : list version) : Prop := {
  pb_bodies : Forall2 (λ w v, MarshalHead v.1 = Ok w.1) (head_writes s) log;
  pb_current : b_obj s !! HeadPath c = last (head_writes s);
  pb_history : history c log;
  pb_rep : Forall (λ v, catalog_rep c (page_source s) v.1 v.2) log }.

Record base (s : blobs) (log : list version) : Prop := {
  bs_published : published s log;
  bs_tokens : ∀ b1 b2 t, (b1, t) ∈ head_writes s → (b2, t) ∈ head_writes s → b1 = b2;
  bs_nonempty : ∀ b t, (b, t) ∈ head_writes s → t ≠ [] }.

Record later (s : blobs) (log : list version) (s' : blobs) (log' : list version) : Prop := {
  lt_base : base s' log';
  lt_log : log `prefix_of` log';
  lt_writes : head_writes s `prefix_of` head_writes s';
  lt_pages : pages_le c (page_source s) (page_source s') }.

(** Swapping in [head] is a legal step whenever the token still matches. *)
Definition pending_ok (s : blobs) (log : list version) (token : gostring) (head : Head) : Prop :=
  ∀ s' log', later s log s' log' → token_matches s' (HeadPath c) token →
    ∃ es, transition c (last log') (head, es) ∧ catalog_rep c (page_source s') head es.

Definition flight_ok (s : blobs) (log : list version) (r : request) : Prop :=
  match r with
  | PutRequest key _ => key ≠ HeadPath c
  | CASRequest key token body =>
      key = HeadPath c ∧ (∃ head, MarshalHead head = Ok body ∧ pending_ok s log token head) ∨ key ≠ HeadPath c ∧ ¬ page_key c key
  end.

Definition inv (w : world) : Prop := base w.1 w.2 ∧ Forall (flight_ok w.1 w.2) (b_flight w.1).
Definition evolves (w w' : world) : Prop := inv w' ∧ later w.1 w.2 w'.1 w'.2.

Lemma pages_le_refl P : pages_le c P P.
Proof. by intros key _ a. Qed.

Lemma later_refl s log : base s log → later s log s log.
Proof. intros HB. constructor; [done|done|done|apply pages_le_refl]. Qed.
Lemma later_trans s1 l1 s2 l2 s3 l3 : later s1 l1 s2 l2 → later s2 l2 s3 l3 → later s1 l1 s3 l3.
Proof.
  intros [B1 L1 W1 P1] [B2 L2 W2 P2]. constructor; [done|by trans l2|by trans (head_writes s2)|].
  intros key Hk a Ha. apply P2, P1; done.
Qed.
Lemma pending_mono s l s' l' token head : later s l s' l' → pending_ok s l token head → pending_ok s' l' token head.
Proof. intros HL HP s2 l2 HL2. apply HP. by eapply later_trans. Qed.
Lemma flight_mono s l s' l' r : later s l s' l' → flight_ok s l r → flight_ok s' l' r.
Proof.
  intros HL. destruct r as [|key token body]; cbn; [done|]. intros [[Hk (h & HM & HP)]|HN]; [left|by right].
  split; [done|]. exists h. split; [done|]. by eapply pending_mono.
Qed.

Lemma evolves_refl w : inv w → evolves w w.
Proof. intros HI. split; [done|]. apply later_refl, HI. Qed.
Lemma evolves_trans w1 w2 w3 : evolves w1 w2 → evolves w2 w3 → evolves w1 w3.
Proof. intros [_ HL1] [HI HL2]. split; [done|]. by eapply later_trans. Qed.
Lemma evolves_inv w w' : evolves w w' → inv w'.
Proof. by intros [? _]. Qed.

(** ** Steps of the store *)
Lemma head_writes_app s key body token :
  head_writes (write key body token s) =
  head_writes s ++ (if bool_decide (key = HeadPath c) then [(body, token)] else []).
Proof. unfold head_writes, write; cbn [b_writes]. rewrite omap_app. cbn. by destruct (bool_decide _). Qed.

Lemma elem_of_head_writes s body token : (body, token) ∈ head_writes s ↔ (HeadPath c, body, token) ∈ b_writes s.
Proof.
  unfold head_writes. rewrite list_elem_of_omap. split.
  - intros ([[key b] t] & Hin & E). case_bool_decide; [|done]. by simplify_eq.
  - intros Hin. exists (HeadPath c, body, token). split; [done|]. by rewrite bool_decide_true.
Qed.

Lemma base_pages s log s' : 
  base s log → head_writes s' = head_writes s → b_obj s' !! HeadPath c = b_obj s !! HeadPath c →
  pages_le c (page_source s) (page_source s') → base s' log.
Proof.
  intros [[HB HC HH HR] HT HN] Ew Eo HP. constructor; [constructor| |]; rewrite ?Ew, ?Eo; try done.
  eapply Forall_impl; [exact HR|]. intros v. by apply catalog_rep_pages.
Qed.

(** A step that does not write the head. *)
Lemma evolves_other s log s' :
  inv (s, log) → head_writes s' = head_writes s → b_obj s' !! HeadPath c = b_obj s !! HeadPath c →
  pages_le c (page_source s) (page_source s') → Forall (flight_ok s log) (b_flight s') → evolves (s, log) (s', log).
Proof.
  intros [HB HF] Ew Eo HP HF'. cbn in *.
  assert (HL : later s log s' log) by (constructor; [by eapply base_pages|done|by rewrite Ew|done]).
  split; [split; [apply HL|]|done]. cbn. eapply Forall_impl; [exact HF'|]. intros r. by apply flight_mono.
Qed.

Lemma page_source_insert s key body token :
  b_obj s !! key = None ∨ ¬ page_key c key → pages_le c (page_source s) (page_source (write key body token s)).
Proof.
  intros Hk key' Hk' b. unfold page_source, write; cbn [b_obj]. destruct (decide (key' = key)) as [->|Hne].
  - destruct Hk as [->|Hk]; [done|]. by apply Hk in Hk'.
  - by rewrite lookup_insert_ne.
Qed.

Lemma evolves_write_other s log key body token :
  inv (s, log) → key ≠ HeadPath c → b_obj s !! key = None ∨ ¬ page_key c key → evolves (s, log) (write key body token s, log).
Proof.
  intros HI Hne Hk. apply evolves_other; [done| | |by apply page_source_insert|apply HI].
  - by rewrite head_writes_app, bool_decide_false, app_nil_r.
  - unfold write; cbn. by rewrite lookup_insert_ne.
Qed.

Lemma evolves_launch s log r : inv (s, log) → flight_ok s log r → evolves (s, log) (launch r s, log).
Proof. intros HI Hr. apply evolves_other; [done|done|done|by intros key _ b|]. constructor; [done|apply HI]. Qed.

Lemma last_log_nil s log : published s log → b_obj s !! HeadPath c = None → log = [].
Proof.
  intros [HB HC _ _] HN. rewrite HN in HC. symmetry in HC. apply last_None in HC. rewrite HC in HB. by inversion HB.
Qed.

Lemma evolves_write_head s log token head body token' :
  inv (s, log) → token_matches s (HeadPath c) token → MarshalHead head = Ok body → pending_ok s log token head →
  good_token s (HeadPath c) body token' →
  ∃ es, evolves (s, log) (write (HeadPath c) body token' s, log ++ [(head, es)]).
Proof.
  intros [HB HF] HM HMv HP [Ht Hg]. cbn in HB, HF. destruct (HP s log (later_refl _ _ HB) HM) as (es & HTr & HRv). exists es.
  set (v := (head, es)).
  assert (Hpg : pages_le c (page_source s) (page_source (write (HeadPath c) body token' s))).
  { apply page_source_insert. right. apply head_not_page. }
  assert (Ew : head_writes (write (HeadPath c) body token' s) = head_writes s ++ [(body, token')]).
  { by rewrite head_writes_app, bool_decide_true. }
  assert (HB' : base (write (HeadPath c) body token' s) (log ++ [v])).
  { destruct HB as [[PB PC PH PR] HT HN]. constructor; [constructor| |]; rewrite ?Ew.
    - apply Forall2_app; [done|]. by constructor.
    - unfold write; cbn. by rewrite lookup_insert_eq, last_snoc.
    - by constructor.
    - apply Forall_app. split; [|constructor; [|constructor]].
      + eapply Forall_impl; [exact PR|]. intros v'. by apply catalog_rep_pages.
      + by eapply catalog_rep_pages.
    - assert (Hnew : ∀ b, (b, token') ∈ head_writes s → b = body) by (intros b Hb; by apply Hg, elem_of_head_writes).
      intros b1 b2 t. rewrite !elem_of_app, !list_elem_of_singleton.
      intros [H1|H1] [H2|H2]; simplify_eq; eauto. symmetry. auto.
    - intros b t. rewrite elem_of_app, list_elem_of_singleton. intros [Hin|[= -> ->]]; [by eapply HN|done]. }
  assert (HL : later s log (write (HeadPath c) body token' s) (log ++ [v])).
  { constructor; [done|by eexists|rewrite Ew; by eexists|done]. }
  split; [split; [done|]|done]. cbn. eapply Forall_impl; [exact HF|]. intros r. by apply flight_mono.
Qed.

(** Late deliveries keep the world evolving. *)
Lemma evolves_deliver s log s' : inv (s, log) → blob_deliver s s' → ∃ log', evolves (s, log) (s', log').
Proof.
  intros HI HD. pose proof HI as [_ HF]. cbn in HF. destruct HD as [key body token Hin Hn _|key exp body token Hin HM Hg].
  - exists log. apply evolves_write_other; [done| |by left]. by apply (proj1 (Forall_forall _ _) HF) in Hin.
  - apply (proj1 (Forall_forall _ _) HF) in Hin. destruct Hin as [[-> (h & HMh & HP)]|[Hne Hk]].
    + destruct (evolves_write_head _ _ _ _ _ _ HI HM HMh HP Hg) as (es & HE). eauto.
    + exists log. apply evolves_write_other; [done|done|by right].
Qed.
End worlds.

(** ** Programs in an evolving world *)
Definition eop_step (op : eop) (s : blobs) : eresp op → blobs → Prop :=
  match op with
  | StoreCall op => blob_call op s
  | CtxErr | Wait _ => λ _ s', s' = s
  | ReadPages => λ pages s', s' = s ∧ ∀ key, res_le (pages key) (page_source s key)
  end.

Section logic.
Context `{XXHash} (c : Config).
Implicit Types (w : world).

(** [safe p Q w]: run from [w], with other writers active between its calls, [p]
    keeps the world evolving and what it returns satisfies [Q]. *)
Fixpoint safe {A} (p : prog eresp A) (Q : world → A → Prop) (w : world) : Prop :=
  match p with
  | Return a => Q w a
  | Call op k => ∀ w1, evolves c w w1 → ∀ r s2, eop_step op w1.1 r s2 →
      ∃ log2, evolves c w1 (s2, log2) ∧ safe (k r) Q (s2, log2)
  end.

Lemma safe_conseq {A} (p : prog eresp A) (Q Q' : world → A → Prop) w :
  safe p Q w → (∀ w a, Q w a → Q' w a) → safe p Q' w.
Proof.
  intros Hp HQ. revert w Hp; induction p as [a|op k IH]; intros w Hp; cbn in *; [by apply HQ|].
  intros w1 Hw r s2 Hr. destruct (Hp w1 Hw r s2 Hr) as (log2 & He & Hs). exists log2. split; [done|]. by apply IH.
Qed.

Lemma safe_bind {A B} (p : prog eresp A) (f : A → prog eresp B) Q w :
  safe p (λ w a, safe (f a) Q w) w → safe (prog_bind p f) Q w.
Proof.
  revert w; induction p as [a|op k IH]; intros w Hp; cbn in *; [done|].
  intros w1 Hw r s2 Hr. destruct (Hp w1 Hw r s2 Hr) as (log2 & He & Hs). exists log2. split; [done|]. by apply IH.
Qed.

(** A program stays safe while others run, if its postcondition does. *)
Lemma safe_evolves {A} (p : prog eresp A) Q w w' :
  (∀ w w' a, evolves c w w' → Q w a → Q w' a) → evolves c w w' → safe p Q w → safe p Q w'.
Proof.
  intros HQ He. destruct p as [a|op k]; cbn; [by apply HQ|]. intros Hp w1 Hw. apply Hp. by eapply evolves_trans.
Qed.

(** The postconditions of methods: the world evolved, and what the result says. *)
Definition post {A} (w : world) (Q : world → A → Prop) : world → result A → Prop := λ w' r,
  evolves c w w' ∧ match r with Ok a => Q w' a | Err _ => True end.

Lemma safe_io_bind {A B} (m : io A) (f : A → io B) w (Q : world → A → Prop) (R : world → B → Prop) :
  safe m (post w Q) w → (∀ w' a, evolves c w w' → Q w' a → safe (f a) (post w' R) w') → safe (m ≫= f) (post w R) w.
Proof.
  intros Hm Hf. apply safe_bind. eapply safe_conseq; [exact Hm|]. intros w' [a|e] [He Ha]; cbn; [|by split].
  eapply safe_conseq; [by apply Hf|]. intros w2 r [He2 Hr]. split; [by eapply evolves_trans|done].
Qed.

Lemma safe_try {A} (m : io A) w (Q : world → A → Prop) :
  safe m (post w Q) w → safe (io_try m) (post w (λ w' r, match r with Ok a => Q w' a | Err _ => True end)) w.
Proof. intros Hm. apply safe_bind. eapply safe_conseq; [exact Hm|]. intros w' r [He Hr]. by split. Qed.

Lemma safe_lift {A} (r : result A) w (Q : world → A → Prop) :
  inv c w → (∀ a, r = Ok a → Q w a) → safe (io_lift r) (post w Q) w.
Proof. intros HI HQ. split; [by apply evolves_refl|]. destruct r; [by apply HQ|done]. Qed.
Lemma safe_ret {A} (a : A) w (Q : world → A → Prop) : inv c w → Q w a → safe (mret (M := io) a) (post w Q) w.
Proof. intros HI HQ. by apply safe_lift; [|intros ? [= <-]]. Qed.
Lemma safe_fail {A} (e : error) w (Q : world → A → Prop) : inv c w → safe (io_fail e) (post w Q) w.
Proof. intros HI. by apply safe_lift. Qed.

Lemma safe_ctx w (Q : world → option error → Prop) :
  inv c w → (∀ w' e, evolves c w w' → Q w' e) → safe ctx_err (post w Q) w.
Proof.
  intros HI HQ w1 Hw r s2 Hr. cbn in Hr. subst s2. exists w1.2. destruct w1 as [s1 l1]. cbn.
  split; [by apply evolves_refl, (evolves_inv _ _ _ Hw)|]. split; [done|by apply HQ].
Qed.
Lemma safe_wait delay w (Q : world → option error → Prop) :
  inv c w → (∀ w' e, evolves c w w' → Q w' e) → safe (waitBackoff delay) (post w Q) w.
Proof.
  intros HI HQ. unfold waitBackoff. destruct (_ <=? _); [by apply safe_ctx|]. intros w1 Hw r s2 Hr. cbn in Hr. subst s2.
  exists w1.2. destruct w1 as [s1 l1]. cbn. split; [by apply evolves_refl, (evolves_inv _ _ _ Hw)|]. split; [done|by apply HQ].
Qed.
Lemma safe_check_ctx w : inv c w → safe io_check_ctx (post w (λ _ _, True)) w.
Proof.
  intros HI. eapply safe_io_bind; [by apply (safe_ctx _ (λ _ _, True))|]. intros w' [e|] He _.
  - apply safe_fail. by eapply evolves_inv.
  - apply safe_ret; [by eapply evolves_inv|done].
Qed.

(** What a traversal read is what is stored. *)
Lemma safe_reader {A} (f : PageSource → option error → result A) w (Q : world → A → Prop) :
  inv c w →
  (∀ w' pages a, evolves c w w' → pages_le c pages (page_source w'.1) → f pages None = Ok a → Q w' a) →
  (∀ pages e, f pages (Some e) = Err e) →
  safe (with_reader f) (post w Q) w.
Proof.
  intros HI HQ Hctx. unfold with_reader. eapply safe_io_bind; [by apply (safe_ctx _ (λ _ _, True))|]. intros w' ctx Hw' _.
  intros w1 Hw r s2 [-> Hr]. exists w1.2. destruct w1 as [s1 l1]. cbn in *.
  assert (HI1 : inv c (s1, l1)) by (by eapply evolves_inv).
  split; [by apply evolves_refl|]. split; [done|]. destruct (f r ctx) as [a|] eqn:Ef; [|done].
  destruct ctx as [e|]; [by rewrite Hctx in Ef|]. apply (HQ (s1, l1) r); [by eapply evolves_trans| |done]. intros key _. apply Hr.
Qed.

(** ** Observed heads *)

(** [head] was published with [token]. *)
Definition seen (w : world) (head : Head) (token : gostring) : Prop :=
  ∃ i es body, w.2 !! i = Some (head, es) ∧ head_writes c w.1 !! i = Some (body, token).
(** [Load]'s answer: a published head, or the head of an absent object. *)
Definition known (w : world) (head : Head) (token : gostring) : Prop :=
  seen w head token ∨ head = new_head c 0 ∧ token = [].

Lemma seen_evolves w w' head token : evolves c w w' → seen w head token → seen w' head token.
Proof.
  intros [_ [_ HL HW _]] (i & es & body & H1 & H2). exists i, es, body.
  split; [by eapply prefix_lookup_Some|by eapply prefix_lookup_Some].
Qed.
Lemma known_evolves w w' head token : evolves c w w' → known w head token → known w' head token.
Proof. intros He [Hs|Hn]; [left; by eapply seen_evolves|by right]. Qed.

Lemma seen_rep w head token :
  inv c w → seen w head token →
  ∃ es body, (head, es) ∈ w.2 ∧ catalog_rep c (page_source w.1) head es ∧ MarshalHead head = Ok body.
Proof.
  intros [[[HB _ _ HR] _ _] _] (i & es & body & H1 & H2). exists es, body.
  pose proof (Forall_lookup_1 _ _ _ _ HR H1) as Hr. pose proof (Forall2_lookup_lr _ _ _ _ _ _ HB H2 H1) as HM.
  split; [by eapply list_elem_of_lookup_2|]. by split.
Qed.

Lemma MarshalHead_inj h h' body : Head_typed h → Head_typed h' → MarshalHead h = Ok body → MarshalHead h' = Ok body → h = h'.
Proof.
  intros Ht Ht' HM HM'. pose proof (proj2 (ParseHead_spec body h) (conj Ht HM)) as E1.
  pose proof (proj2 (ParseHead_spec body h') (conj Ht' HM')) as E2. congruence.
Qed.

(** Decoding the current object gives its version. *)
Lemma decode_seen w body token head :
  inv c w → b_obj w.1 !! HeadPath c = Some (body, token) → DecodeHead c body = Ok head → seen w head token.
Proof.
  intros [[[HB HC _ HR] _ _] _] Ho HD. rewrite Ho in HC. symmetry in HC. rewrite last_lookup in HC.
  set (i := Nat.pred (length (head_writes c w.1))) in *. destruct (Forall2_lookup_l _ _ _ _ _ HB HC) as ([h es] & Hi & HM). cbn in HM.
  pose proof (Forall_lookup_1 _ _ _ _ HR Hi) as Hr. cbn in Hr. unfold DecodeHead in HD. inv_ok.
  assert (h = head) as ->; [|by exists i, es, body].
  pose proof (proj2 (ParseHead_spec body h) (conj (cr_typed _ _ _ _ Hr) HM)). congruence.
Qed.
End logic.

(** ** Configurations *)
Record config_ok (c : Config) : Prop := {
  co_partition : is_u32 (cf_Partition c);
  co_algo : is_u16 (cf_HashAlgo c);
  co_algo_valid : HashAlgo_Validate (cf_HashAlgo c) = Ok ();
  co_leaf : 0 < cf_LeafLimit c ≤ 1024;
  co_index : 2 ≤ cf_IndexLimit c ≤ 1024;
  co_stream : length (cf_StreamKey c) = 32%nat;
  co_root : length (cf_DataRootKey c) = 32%nat }.

Lemma NewConfig_ok prefix root stream partition leafLimit indexLimit algo c :
  NewConfig prefix root stream partition leafLimit indexLimit algo = Ok c →
  is_u32 partition → is_u32 leafLimit → is_u32 indexLimit → is_u16 algo → config_ok c ∧ cf_Partition c = partition.
Proof.
  intros HN Hp Hl Hi Ha. unfold NewConfig in HN. cbv zeta in HN. inv_ok. bool_to_prop. unfold MaxLeafEntries, MaxIndexEntries in *.
  split; [|done]. constructor; try done; try (cbn; unfold_widths; lia); cbn; by rewrite SHA256.length_Sum256.
Qed.

Section pending.
Context `{XXHash} (c : Config) (Hok : config_ok c).
Implicit Types (w : world).

Lemma new_head_typed n : is_u64 n → Head_typed (new_head c n).
Proof.
  intros Hn. destruct Hok as [Hp Ha _ Hl Hi Hs Hd]. split; [|split; [|split; constructor]].
  - unfold HeadHeader_typed, new_head; cbn. repeat match goal with |- ?P ∧ _ => split end; try assumption; try done; unfold_widths; lia.
  - unfold LeafEntry_typed; cbn. closed_typed.
Qed.

(** A head without pages that marshals represents the empty history. *)
Lemma new_head_marshalled pages n body : is_u64 n → MarshalHead (new_head c n) = Ok body → catalog_rep c pages (new_head c n) [].
Proof.
  intros Hn HM. pose proof (new_head_typed n Hn) as Ht.
  assert (Hk : head_ok (new_head c n)) by (apply validateHead_sound; [done|]; unfold MarshalHead in HM; by inv_ok).
  constructor; [done|done| |exists []; split; [constructor|done]|done].
  unfold validateConfigHead; cbn. by rewrite !Z.eqb_refl, !bool_decide_true by done.
Qed.

Lemma new_head_facts n :
  hh_WriterEpoch (hd_Header (new_head c n)) = 0 ∧ HasLastSegment (new_head c n) = false ∧
  hh_AppliedRetentionVersion (hd_Header (new_head c n)) = 0.
Proof. done. Qed.

(** Where the token of a known head still matches, the head is current. *)
Lemma known_matches w head token s' log' :
  inv c w → known c w head token → later c w.1 w.2 s' log' → token_matches s' (HeadPath c) token →
  head = new_head c 0 ∧ token = [] ∧ log' = [] ∨
  (seen c w head token ∧ ∃ es, last log' = Some (head, es) ∧ catalog_rep c (page_source s') head es).
Proof.
  intros HI Hk HL HM. pose proof (lt_base _ _ _ _ _ HL) as [HP HT HN]. unfold token_matches in HM.
  destruct (b_obj s' !! HeadPath c) as [[b t]|] eqn:Eo.
  - subst t. pose proof (pb_current _ _ _ HP) as HC. rewrite Eo in HC. symmetry in HC.
    assert (Hin : (b, token) ∈ head_writes c s') by (rewrite last_lookup in HC; by eapply list_elem_of_lookup_2).
    destruct Hk as [Hs|[_ ->]]; [|by apply HN in Hin]. right. split; [done|].
    destruct Hs as (i & es & body & H1 & H2).
    pose proof (prefix_lookup_Some _ _ _ _ H1 (lt_log _ _ _ _ _ HL)) as H1'.
    pose proof (prefix_lookup_Some _ _ _ _ H2 (lt_writes _ _ _ _ _ HL)) as H2'.
    assert (b = body) as -> by (eapply HT; [exact Hin|]; by eapply list_elem_of_lookup_2).
    pose proof (pb_bodies _ _ _ HP) as HB. pose proof (pb_rep _ _ _ HP) as HR.
    rewrite last_lookup in HC. destruct (Forall2_lookup_l _ _ _ _ _ HB HC) as ([h es'] & Hi' & HMh). cbn in HMh.
    pose proof (Forall2_lookup_lr _ _ _ _ _ _ HB H2' H1') as HMb. cbn in HMb.
    pose proof (Forall_lookup_1 _ _ _ _ HR Hi') as Hr'. pose proof (Forall_lookup_1 _ _ _ _ HR H1') as Hr. cbn in Hr, Hr'.
    assert (h = head) as -> by (eapply MarshalHead_inj; [apply Hr'|apply Hr|done|done]).
    exists es'. split; [|done]. rewrite last_lookup. by rewrite <- (Forall2_length _ _ _ HB).
  - subst token. destruct Hk as [(i & es & body & _ & H2)|[-> _]].
    + pose proof (prefix_lookup_Some _ _ _ _ H2 (lt_writes _ _ _ _ _ HL)) as H2'. exfalso.
      eapply (HN body []); [by eapply list_elem_of_lookup_2|done].
    + left. split; [done|]. split; [done|]. by eapply last_log_nil.
Qed.

Lemma create_pending w n body :
  is_u64 n → NewHead c n = Ok (new_head c n, body) → pending_ok c w.1 w.2 [] (new_head c n).
Proof.
  intros Hn HN s' log' HL HM. unfold NewHead in HN. inv_ok. exists [].
  assert (Hnil : log' = []).
  { unfold token_matches in HM. pose proof (lt_base _ _ _ _ _ HL) as [HP _ HNe]. destruct (b_obj s' !! HeadPath c) as [[b t]|] eqn:Eo.
    - subst t. pose proof (pb_current _ _ _ HP) as HC. rewrite Eo in HC. symmetry in HC. rewrite last_lookup in HC.
      exfalso. eapply (HNe b []); [by eapply list_elem_of_lookup_2|done].
    - by eapply last_log_nil. }
  subst log'. split; [constructor|]. by eapply new_head_marshalled.
Qed.

Lemma takeover_pending w head token writerID m :
  inv c w → known c w head token → length writerID = 16%nat → Takeover c head writerID = Ok m →
  pending_ok c w.1 w.2 token (mu_Head m).
Proof.
  intros HI Hk Hid HT s' log' HL HM. unfold Takeover in HT. inv_ok. bool_to_prop. cbn [mu_Head].
  exists (match last log' with Some v => v.2 | None => [] end).
  destruct (known_matches _ _ _ _ _ HI Hk HL HM) as [(-> & -> & ->)|(Hs & es & El & HR)]; cbn [fst snd].
  - split; [constructor|].
    assert (Htt : Head_typed (takeover_head (new_head c 0) writerID)).
    { destruct (new_head_typed 0 ltac:(unfold_widths; lia)) as (Ht & Hr). split; [|exact Hr]. unfold HeadHeader_typed in *; cbn in *. typed_fields.
      repeat match goal with |- ?P ∧ _ => split end; try assumption; unfold_widths; lia. }
    assert (Hkk : head_ok (takeover_head (new_head c 0) writerID)).
    { apply validateHead_sound; [done|]. match goal with H : MarshalHead _ = Ok _ |- _ => unfold MarshalHead in H end. by inv_ok. }
    constructor; [done|done| |exists []; split; [constructor|done]|done].
    unfold validateConfigHead; cbn. by rewrite !Z.eqb_refl, !bool_decide_true by done.
  - rewrite El. cbn [fst snd].
    pose proof (cr_typed _ _ _ _ HR) as (Ht & _). unfold HeadHeader_typed in Ht. typed_fields.
    split; [constructor; unfold_widths; lia|]. by apply takeover_rep.
Qed.

(** The pages of a mutation are stored. *)
Definition pages_stored (w : world) (objects : list PageObject) : Prop :=
  ∀ o, o ∈ objects → page_key c (po_Key o) ∧ page_source w.1 (po_Key o) = Ok (po_Body o).

Lemma pages_stored_evolves w w' objects : evolves c w w' → pages_stored w objects → pages_stored w' objects.
Proof. intros [_ HL] HS o Ho. destruct (HS o Ho) as [Hk Hb]. split; [done|]. by apply (lt_pages _ _ _ _ _ HL). Qed.

Lemma put_pages_stored s objects :
  (∀ o, o ∈ objects → page_source s (po_Key o) = Ok (po_Body o)) → pages_le c (put_pages objects (page_source s)) (page_source s).
Proof.
  intros HS key _ body. unfold put_pages. destruct (List.find _ objects) as [o|] eqn:E; [|done].
  apply List.find_some in E as [Ho E]. bool_to_prop. subst key. intros [= <-]. apply HS. by apply list_elem_of_In.
Qed.

(** A mutation that may replace [previous] wherever it is current. *)
Definition good_mutation (w : world) (previous : Head) (m : Mutation) : Prop :=
  ∀ w' token, evolves c w w' → seen c w' previous token → pending_ok c w'.1 w'.2 token (mu_Head m).

Lemma good_mutation_evolves w w' previous m : evolves c w w' → good_mutation w previous m → good_mutation w' previous m.
Proof. intros He HG w2 token He2. apply HG. by eapply evolves_trans. Qed.

Lemma append_good w head segment m :
  inv c w → SegmentRef_typed segment → Append c head segment = Ok m → pages_stored w (mu_Pages m) → good_mutation w head m.
Proof.
  intros HI Hty HA HS w' token He Hs s' log' HL HM.
  destruct (known_matches w' head token s' log' (evolves_inv _ _ _ He) (or_introl Hs) HL HM) as [(-> & _ & _)|(_ & es & El & HR)].
  { destruct (Append_inv _ _ _ _ HA) as [entry HC]. by pose proof (ac_fenced _ _ _ _ HC). }
  destruct (append_rep _ _ _ _ _ _ HR Hty HA) as (entry & HC & _ & HR' & _ & HMb & _).
  exists (es ++ [entry]). rewrite El. split; [by econstructor|].
  eapply catalog_rep_pages; [|exact HR']. apply put_pages_stored. intros o Ho.
  destruct (HS o Ho) as [Hk Hb]. apply (lt_pages _ _ _ _ _ HL); [done|]. destruct He as [_ HL0]. by apply (lt_pages _ _ _ _ _ HL0).
Qed.

Lemma ApplyRetention_inv pages head beforeLSN policyVersion m :
  ApplyRetention None c (Some pages) head beforeLSN policyVersion = Ok m →
  mu_Head m = head ∧ policyVersion = hh_AppliedRetentionVersion (hd_Header head) ∨ hh_AppliedRetentionVersion (hd_Header head) < policyVersion ∧
    hh_AppliedRetentionLSN (hd_Header head) ≤ beforeLSN ∧ hh_Generation (hd_Header head) ≠ MaxUint64.
Proof.
  unfold ApplyRetention. cbv zeta. intros HA. inv_ok. destruct (_ && _) eqn:E; [inv_ok; left; bool_to_prop; done|]. right. inv_ok. bool_to_prop. done.
Qed.

Lemma retention_good w pages head beforeLSN policyVersion m :
  inv c w → is_u64 beforeLSN → is_u64 policyVersion → pages_le c pages (page_source w.1) →
  ApplyRetention None c (Some pages) head beforeLSN policyVersion = Ok m →
  hh_Generation (hd_Header (mu_Head m)) ≠ hh_Generation (hd_Header head) → pages_stored w (mu_Pages m) →
  0 < hh_WriterEpoch (hd_Header head) → good_mutation w head m.
Proof.
  intros HI Hb Hv HP HA Hg HS Hep w' token He Hs s' log' HL HM.
  destruct (known_matches w' head token s' log' (evolves_inv _ _ _ He) (or_introl Hs) HL HM) as [(-> & _ & _)|(_ & es & El & HR)]; [done|].
  destruct (ApplyRetention_inv _ _ _ _ _ HA) as [[E _]|(Hf1 & Hf2 & Hf3)]; [by rewrite E in Hg|].
  assert (HP' : pages_le c pages (page_source s')).
  { intros key Hk a Ha. apply (lt_pages _ _ _ _ _ HL); [done|]. destruct He as [_ HL0]. apply (lt_pages _ _ _ _ _ HL0); [done|]. by apply HP. }
  pose proof (ApplyRetention_mono c _ _ HP' None head beforeLSN policyVersion m HA) as HA'.
  assert (Hf : fresh_request head beforeLSN policyVersion) by (split; [unfold_widths; lia|done]).
  destruct (retention_rep _ _ _ _ _ _ HR Hb Hf) as [(m' & HA2 & HR' & _ & HMb & Hra)|[_ [e He']]]; [|by rewrite HA' in He'].
  rewrite HA' in HA2. injection HA2 as <-. exists (from_lsn beforeLSN es). rewrite El. split; [by econstructor|].
  eapply catalog_rep_pages; [|exact HR']. apply put_pages_stored. intros o Ho.
  destruct (HS o Ho) as [Hk Hbb]. apply (lt_pages _ _ _ _ _ HL); [done|]. destruct He as [_ HL0]. by apply (lt_pages _ _ _ _ _ HL0).
Qed.
End pending.
