(* ===== verification/CatEngineSafe.v ===== *)
(** * The engine's programs keep the catalog's history

    Every method of the engine and of its sessions, run while other writers act
    and calls fail, publishes only legal steps, and what it returns is backed by
    the published history: an acknowledged append is in it, an acquired session
    holds a published fence, an applied retention is recorded, and a read answers
    from one published version. *)
From S2P Require Import Prelude Hash SegFormat Ranges PMeta KeyLayout CatFormat CatCodec CatTree CatReader CatAppend CatRetention.
From S2P Require Import BlobStore CatEngine CatLog CatMono CatSafe.

Section engine_safe.
Context `{XXHash} (c : Config) (Hok : config_ok c).
Implicit Types (w : world) (s : Session).

#[local] Hint Resolve evolves_refl evolves_inv : core.

(** ** Store calls on the head and on pages *)
Lemma safe_get_head w :
  inv c w →
  safe c (io_try (store (Get (HeadPath c)))) (post c w (λ w' r,
    match r with
    | Ok o => b_obj w'.1 !! HeadPath c = Some (o_Body o, o_Token o)
    | Err e => BlobErrObjectNotFound ∈ e → b_obj w'.1 !! HeadPath c = None
    end)) w.
Proof.
  intros HI w1 Hw r s2 [-> Hr]. exists w1.2. destruct w1 as [s1 l1]. split; [by eapply evolves_refl, evolves_inv|].
  split; [done|]. destruct r as [o|]; [by destruct Hr|done].
Qed.

Lemma safe_cas w token head body :
  inv c w → MarshalHead head = Ok body → pending_ok c w.1 w.2 token head →
  safe c (store (CompareAndSwap (HeadPath c) token body))
    (post c w (λ w' r, if (r.2 : bool) then seen c w' head (o_Token r.1)
                       else o_Body r.1 = [] ∨ b_obj w'.1 !! HeadPath c = Some (o_Body r.1, o_Token r.1))) w.
Proof.
  intros HI HM HP [s1 l1] Hw r s2 Hr. pose proof (evolves_inv _ _ _ Hw) as HI1.
  assert (HP1 : pending_ok c s1 l1 token head) by (eapply pending_mono; [apply Hw|done]).
  cbn in Hr. destruct r as [[o [|]]|e].
  - destruct Hr as (_ & Hb & Ht & Hg & ->).
    destruct (evolves_write_head c _ _ _ _ _ _ HI1 Ht HM HP1 Hg) as (es & HE). exists (l1 ++ [(head, es)]).
    split; [done|]. split; [by eapply evolves_trans|]. exists (length l1), es, body. cbn [fst snd]. split; [by apply list_lookup_middle|].
    rewrite head_writes_app, bool_decide_true by done. destruct HI1 as [[[HB _ _ _] _ _] _]. cbn in HB.
    rewrite <- (Forall2_length _ _ _ HB). by apply list_lookup_middle.
  - destruct Hr as (-> & _ & Ho). exists l1. split; [by apply evolves_refl|]. split; [done|]. cbn.
    destruct (b_obj s1 !! HeadPath c) as [[b t]|]; [right; by destruct Ho as (_ & -> & ->)|left; by rewrite Ho].
  - exists l1. assert (HE : evolves c (s1, l1) (s2, l1)).
    { destruct Hr as [->| ->]; [by apply evolves_refl|]. apply evolves_launch; [done|]. left. eauto. }
    split; [done|]. split; [by eapply evolves_trans|done].
Qed.

Lemma safe_put w key body :
  inv c w → page_key c key →
  safe c (store (Put key body)) (post c w (λ w' _, page_source w'.1 key = Ok body)) w.
Proof.
  intros HI Hk [s1 l1] Hw r s2 Hr. pose proof (evolves_inv _ _ _ Hw) as HI1. exists l1. cbn in Hr.
  assert (Hne : key ≠ HeadPath c) by (intros ->; by apply head_not_page in Hk).
  destruct r as [o|e].
  - destruct Hr as (_ & _ & [[-> Ho]|(Hn & _ & ->)]).
    + split; [by apply evolves_refl|]. split; [done|]. unfold page_source; cbn. by rewrite Ho.
    + assert (HE : evolves c (s1, l1) (write key body (o_Token o) s1, l1)) by (by apply evolves_write_other; [| |left]).
      split; [done|]. split; [by eapply evolves_trans|]. unfold page_source; cbn. by rewrite lookup_insert_eq.
  - assert (HE : evolves c (s1, l1) (s2, l1)).
    { destruct Hr as [->| ->]; [by apply evolves_refl|]. by apply evolves_launch. }
    split; [done|]. split; [by eapply evolves_trans|done].
Qed.

Lemma safe_putPages w objects :
  inv c w → Forall (λ o, page_key c (po_Key o)) objects →
  safe c (putPages objects) (post c w (λ w' _, pages_stored c w' objects)) w.
Proof.
  intros HI HF. revert w HI; induction HF as [|o objects Ho HF IH]; intros w HI; cbn [putPages].
  { apply safe_ret; [done|]. by intros o ?%elem_of_nil. }
  eapply safe_io_bind; [by apply safe_put|]. intros w' ob Hw Hst. cbn in Hst.
  eapply safe_conseq; [apply IH; by eapply evolves_inv|]. intros w2 [u|] [He Hs]; [|done]. split; [done|].
  intros o' Ho'. apply elem_of_cons in Ho' as [->|Ho']; [|by apply Hs]. split; [done|].
  destruct He as [_ HL]. by apply (lt_pages _ _ _ _ _ HL).
Qed.

(** ** Loading *)

(** [loaded n]: a head that was current after the first [n] versions or later. *)
Definition loaded (n : nat) (w : world) (head : Head) (token : gostring) : Prop :=
  (∃ i es body, w.2 !! i = Some (head, es) ∧ head_writes c w.1 !! i = Some (body, token) ∧ (n ≤ S i)%nat) ∨
  (head = new_head c 0 ∧ token = [] ∧ n = 0%nat).

Lemma known_loaded w head token : known c w head token → loaded 0 w head token.
Proof. intros [(i & es & body & H1 & H2)|[-> ->]]; [left; exists i, es, body|by right]. split; [done|]. split; [done|lia]. Qed.
Lemma loaded_known n w head token : loaded n w head token → known c w head token.
Proof. intros [(i & es & body & H1 & H2 & _)|(-> & -> & _)]; [left; by exists i, es, body|by right]. Qed.
Lemma loaded_evolves n w w' head token : evolves c w w' → loaded n w head token → loaded n w' head token.
Proof.
  intros [_ [_ HL HW _]] [(i & es & body & H1 & H2 & H3)|Hr]; [left|by right]. exists i, es, body.
  split; [by eapply prefix_lookup_Some|]. split; [by eapply prefix_lookup_Some|done].
Qed.

Lemma decode_loaded w body token head :
  inv c w → b_obj w.1 !! HeadPath c = Some (body, token) → DecodeHead c body = Ok head → loaded (length w.2) w head token.
Proof.
  intros [[[HB HC _ HR] _ _] _] Ho HD. rewrite Ho in HC. symmetry in HC. rewrite last_lookup in HC.
  set (i := Nat.pred (length (head_writes c w.1))) in *. destruct (Forall2_lookup_l _ _ _ _ _ HB HC) as ([h es] & Hi & HM). cbn in HM.
  pose proof (Forall_lookup_1 _ _ _ _ HR Hi) as Hr. cbn in Hr. unfold DecodeHead in HD. inv_ok.
  pose proof (proj2 (ParseHead_spec body h) (conj (cr_typed _ _ _ _ Hr) HM)) as E. assert (h = head) as -> by congruence.
  left. exists i, es, body. split; [done|]. split; [done|]. unfold i. rewrite (Forall2_length _ _ _ HB). lia.
Qed.

Lemma loaded_le n n' w head token : (n ≤ n')%nat → loaded n' w head token → loaded n w head token.
Proof.
  intros Hn [(i & es & body & H1 & H2 & H3)|(-> & -> & ->)]; [left; exists i, es, body|right].
  - split; [done|]. split; [done|lia].
  - split; [done|]. split; [done|lia].
Qed.
Lemma evolves_length w w' : evolves c w w' → (length w.2 ≤ length w'.2)%nat.
Proof. intros [_ HL]. by apply prefix_length, (lt_log _ _ _ _ _ HL). Qed.

Lemma safe_load_fresh e w :
  Engine_config e (cf_Partition c) = Ok c → inv c w →
  safe c (Engine_Load e (cf_Partition c)) (post c w (λ w' r, loaded (length w.2) w' r.1 r.2)) w.
Proof.
  intros Hc HI. unfold Engine_Load. rewrite Hc. apply safe_bind. cbn [safe io_lift].
  eapply safe_io_bind; [by apply safe_get_head|]. intros w' [o|err] Hw Ho; pose proof (evolves_length _ _ Hw).
  - eapply safe_io_bind; [apply (safe_lift _ _ _ (λ w' h, loaded (length w.2) w' h (o_Token o))); [by eauto|]|].
    + intros h Hh. eapply loaded_le; [done|]. by eapply decode_loaded; [eauto| |exact Hh].
    + intros w2 h Hw2 Hh. apply safe_ret; [eauto|done].
  - destruct (errors_Is _ _) eqn:E; [|apply safe_fail; eauto]. unfold errors_Is in E. bool_to_prop. specialize (Ho E).
    eapply safe_io_bind; [apply (safe_lift _ _ _ (λ w' r, r.1 = new_head c 0)); [eauto|]|].
    + intros [h b] Hh. unfold NewHead in Hh. by inv_ok.
    + intros w2 [h b] Hw2 Hh. cbn in Hh. subst h. apply safe_ret; [eauto|]. right. split; [done|]. split; [done|].
      apply evolves_inv in Hw as [[Hpb _ _] _]. pose proof (last_log_nil _ _ _ Hpb Ho) as E'. rewrite E' in *. cbn in *. lia.
Qed.

Lemma safe_load e w :
  Engine_config e (cf_Partition c) = Ok c → inv c w →
  safe c (Engine_Load e (cf_Partition c)) (post c w (λ w' r, known c w' r.1 r.2)) w.
Proof.
  intros Hc HI. eapply safe_conseq; [by apply safe_load_fresh|]. intros w' [r|e'] [He Hr]; [|done]. split; [done|]. by eapply loaded_known.
Qed.

Lemma known_decode w o head :
  inv c w → o_Body o = [] ∨ b_obj w.1 !! HeadPath c = Some (o_Body o, o_Token o) → DecodeHead c (o_Body o) = Ok head →
  seen c w head (o_Token o).
Proof.
  intros HI [E|Ho] HD; [|by eapply decode_seen]. exfalso. rewrite E in HD. unfold DecodeHead in HD. inv_ok.
  discriminate Hbind.
Qed.

(** ** What results say, and that it stays true *)

(** The segment is in a published version. *)
Definition committed (w : world) (segment : SegmentRef) : Prop := ∃ v, v ∈ w.2 ∧ segment ∈ map (segmentRef c) v.2.
(** A published version has applied a retention policy of at least this version. *)
Definition policy_applied (w : world) (policyVersion : Z) : Prop := ∃ v, v ∈ w.2 ∧ policyVersion ≤ policy_of v.
(** The entries are those of a version that was current after the first [n]
    versions or later, or none was published then. *)
Definition version_entries (n : nat) (w : world) (es : list LeafEntry) : Prop :=
  n = 0%nat ∧ es = [] ∨ ∃ i v, w.2 !! i = Some v ∧ (n ≤ S i)%nat ∧ es = v.2.

Lemma log_elem w w' v : evolves c w w' → v ∈ w.2 → v ∈ w'.2.
Proof. intros [_ HL] Hv. destruct (lt_log _ _ _ _ _ HL) as [k ->]. apply elem_of_app. by left. Qed.
Lemma committed_evolves w w' segment : evolves c w w' → committed w segment → committed w' segment.
Proof. intros He (v & Hv & Hs). exists v. split; [by eapply log_elem|done]. Qed.
Lemma policy_evolves w w' n : evolves c w w' → policy_applied w n → policy_applied w' n.
Proof. intros He (v & Hv & Hs). exists v. split; [by eapply log_elem|done]. Qed.
Lemma entries_evolves n w w' es : evolves c w w' → version_entries n w es → version_entries n w' es.
Proof.
  intros [_ HL] [?|(i & v & Hi & Hn & Hs)]; [by left|]. right. exists i, v. split; [|done].
  eapply prefix_lookup_Some; [done|apply HL].
Qed.

(** A loaded head represents the entries of a version. *)
Lemma loaded_rep n w head token :
  inv c w → loaded n w head token →
  ∃ es, version_entries n w es ∧
    (catalog_rep c (page_source w.1) head es ∨ head = new_head c 0 ∧ es = []).
Proof.
  intros HI [(i & es & body & H1 & H2 & H3)|(-> & -> & ->)].
  - exists es. split; [right; by exists i, (head, es)|left]. destruct HI as [[[_ _ _ HR] _ _] _]. by apply (Forall_lookup_1 _ _ _ _ HR H1).
  - exists []. split; [by left|by right].
Qed.

Lemma segment_elem lsn es seg :
  chain es → at_lsn lsn (map (segmentRef c) es) = Some seg → seg ∈ map (segmentRef c) es.
Proof. intros Hc Hs. apply at_lsn_Some in Hs as [? _]; [done|]. by apply (chain_map (segmentRef c)). Qed.

(** Point and range reads on a loaded head answer from its version. *)
Lemma read_find n w head token pages lsn r :
  inv c w → loaded n w head token → pages_le c pages (page_source w.1) → FindSegment c pages None head lsn = Ok r →
  ∃ es, version_entries n w es ∧ r = at_lsn lsn (map (segmentRef c) es).
Proof.
  intros HI Hk HP HF. destruct (loaded_rep n w head token HI Hk) as (es & Hes & Hcase). exists es. split; [done|].
  destruct Hcase as [HR|[-> ->]].
  - rewrite (at_lsn_map (segmentRef c)) by done. pose proof (FindSegment_rep _ _ _ _ lsn HR) as E.
    apply (FindSegment_mono c _ _ HP) in HF. congruence.
  - unfold FindSegment in HF. change (HasLastSegment (new_head c 0)) with false in HF. cbn [negb orb] in HF. by inv_ok.
Qed.
Lemma read_timestamp n w head token pages ts r :
  inv c w → loaded n w head token → pages_le c pages (page_source w.1) → LookupTimestamp c pages None head ts = Ok r →
  ∃ es, version_entries n w es ∧ r = from_ts ts (map (segmentRef c) es).
Proof.
  intros HI Hk HP HF. destruct (loaded_rep n w head token HI Hk) as (es & Hes & Hcase). exists es. split; [done|].
  destruct Hcase as [HR|[-> ->]].
  - rewrite (from_ts_map (segmentRef c)) by done. pose proof (LookupTimestamp_rep _ _ _ _ ts HR) as E.
    apply (LookupTimestamp_mono c _ _ HP) in HF. congruence.
  - unfold LookupTimestamp in HF. change (HasLastSegment (new_head c 0)) with false in HF. cbn [negb orb] in HF. by inv_ok.
Qed.
Lemma read_list n w head token pages from limit r :
  inv c w → loaded n w head token → pages_le c pages (page_source w.1) → ListSegments c pages None head from limit = Ok r →
  ∃ es, version_entries n w es ∧ r = spec_page (map (segmentRef c) es) from (Z.to_nat (reader_limit limit)).
Proof.
  intros HI Hk HP HF. destruct (loaded_rep n w head token HI Hk) as (es & Hes & Hcase). exists es. split; [done|].
  destruct Hcase as [HR|[-> ->]].
  - pose proof (ListSegments_rep _ _ _ _ from limit HR) as E. apply (ListSegments_mono c _ _ HP) in HF. congruence.
  - unfold ListSegments in HF. change (HasLastSegment (new_head c 0)) with false in HF. cbn [negb orb] in HF. by inv_ok.
Qed.

Lemma safe_engine_reader e w :
  Engine_config e (cf_Partition c) = Ok c → inv c w →
  safe c (Engine_reader e (cf_Partition c)) (post c w (λ w' r, r.1 = c ∧ ∃ token, loaded (length w.2) w' r.2 token)) w.
Proof.
  intros Hc HI. unfold Engine_reader. rewrite Hc. apply safe_bind. cbn [safe io_lift].
  eapply safe_io_bind; [by apply safe_load_fresh|]. intros w' [h t] Hw Hk. apply safe_ret; [eauto|]. split; [done|by exists t].
Qed.

(** [Engine.FindSegment], [LookupTimestamp] and [ListSegments]. *)
Lemma safe_Engine_FindSegment e w lsn :
  Engine_config e (cf_Partition c) = Ok c → inv c w →
  safe c (Engine_FindSegment e (cf_Partition c) lsn)
    (post c w (λ w' r, ∃ es, version_entries (length w.2) w' es ∧ r = at_lsn lsn (map (segmentRef c) es))) w.
Proof.
  intros Hc HI. eapply safe_io_bind; [by apply safe_engine_reader|]. intros w' [c' h] Hw [E [t Hk]]. cbn in E, Hk. subst c'.
  apply safe_reader; [eauto| |done]. intros w2 pages r Hw2 HP HF. eapply read_find; [eauto|by eapply loaded_evolves|done|done].
Qed.
Lemma safe_Engine_LookupTimestamp e w ts :
  Engine_config e (cf_Partition c) = Ok c → inv c w →
  safe c (Engine_LookupTimestamp e (cf_Partition c) ts)
    (post c w (λ w' r, ∃ es, version_entries (length w.2) w' es ∧ r = from_ts ts (map (segmentRef c) es))) w.
Proof.
  intros Hc HI. eapply safe_io_bind; [by apply safe_engine_reader|]. intros w' [c' h] Hw [E [t Hk]]. cbn in E, Hk. subst c'.
  apply safe_reader; [eauto| |done]. intros w2 pages r Hw2 HP HF. eapply read_timestamp; [eauto|by eapply loaded_evolves|done|done].
Qed.
Lemma safe_Engine_ListSegments e w from limit :
  Engine_config e (cf_Partition c) = Ok c → inv c w →
  safe c (Engine_ListSegments e (cf_Partition c) from limit)
    (post c w (λ w' r, ∃ es, version_entries (length w.2) w' es ∧ r = spec_page (map (segmentRef c) es) from (Z.to_nat (reader_limit limit)))) w.
Proof.
  intros Hc HI. eapply safe_io_bind; [by apply safe_engine_reader|]. intros w' [c' h] Hw [E [t Hk]]. cbn in E, Hk. subst c'.
  apply safe_reader; [eauto| |done]. intros w2 pages r Hw2 HP HF. eapply read_list; [eauto|by eapply loaded_evolves|done|done].
Qed.

(** ** Creating and acquiring *)
Lemma safe_Engine_Initialize e w n :
  Engine_config e (cf_Partition c) = Ok c → is_u64 n → inv c w →
  safe c (Engine_Initialize e (cf_Partition c) n) (post c w (λ w' r, ∃ v, v ∈ w'.2)) w.
Proof.
  intros Hc Hn HI. unfold Engine_Initialize. eapply safe_io_bind; [by apply safe_check_ctx|]. intros w1 u Hw1 _.
  rewrite Hc. apply safe_bind. cbn [safe io_lift].
  eapply safe_io_bind; [apply (safe_lift _ _ _ (λ _ r, r.1 = new_head c n ∧ NewHead c n = Ok r)); [eauto|]|].
  { intros [h b] Hh. split; [|done]. unfold NewHead in Hh. by inv_ok. }
  intros w2 [h b] Hw2 [E HN]. cbn in E. subst h.
  assert (HM : MarshalHead (new_head c n) = Ok b) by (unfold NewHead in HN; by inv_ok).
  eapply safe_io_bind; [apply (safe_cas _ _ (new_head c n)); [eauto|done|by eapply (create_pending c Hok w2)]|].
  intros w3 [o sw] Hw3 Hs. cbn in Hs.
  eapply (safe_io_bind _ _ _ _ (λ w' _, ∃ v, v ∈ w'.2)).
  { destruct sw.
    - apply safe_ret; [eauto|]. destruct Hs as (i & es & body & Hi & _). exists (new_head c n, es). by eapply list_elem_of_lookup_2.
    - apply safe_lift; [eauto|]. intros h HD. destruct (known_decode w3 o h (evolves_inv _ _ _ Hw3) Hs HD) as (i & es & body & Hi & _).
      exists (h, es). by eapply list_elem_of_lookup_2. }
  intros w4 h Hw4 Hv. eapply (safe_io_bind _ _ _ _ (λ w' _, ∃ v, v ∈ w'.2)); [by apply safe_lift; eauto|].
  intros w5 st Hw5 Hv5. by apply safe_ret; eauto.
Qed.

Lemma known_typed w head token : inv c w → known c w head token → Head_typed head.
Proof.
  intros HI [Hs|[-> _]].
  - destruct (seen_rep c w head token HI Hs) as (es & body & _ & HR & _). apply HR.
  - apply new_head_typed; [done|unfold_widths; lia].
Qed.

Lemma Takeover_inv w head token writerID m :
  inv c w → known c w head token → length writerID = 16%nat → Takeover c head writerID = Ok m →
  Head_typed (mu_Head m) ∧ MarshalHead (mu_Head m) = Ok (mu_HeadBody m) ∧ DecodeHead c (mu_HeadBody m) = Ok (mu_Head m) ∧
  0 < hh_WriterEpoch (hd_Header (mu_Head m)) ∧ hh_WriterID (hd_Header (mu_Head m)) = writerID.
Proof.
  intros HI Hk Hid HT. pose proof (known_typed _ _ _ HI Hk) as (Ht & Hr). unfold Takeover in HT. inv_ok. bool_to_prop. cbn [mu_Head mu_HeadBody].
  unfold HeadHeader_typed in Ht. assert (He : 0 ≤ hh_WriterEpoch (hd_Header head) ≤ MaxUint64) by (typed_fields; done).
  assert (Ee : uint64 (hh_WriterEpoch (hd_Header head) + 1) = hh_WriterEpoch (hd_Header head) + 1) by (apply uint64_id; unfold_widths; lia).
  assert (Htt : Head_typed (takeover_head head writerID)).
  { split; [|exact Hr]. unfold HeadHeader_typed; cbn. pose proof (uint64_range (hh_Generation (hd_Header head) + 1)).
    pose proof (uint64_range (hh_WriterEpoch (hd_Header head) + 1)). typed_fields.
    repeat match goal with |- ?P ∧ _ => split end; assumption. }
  match goal with H : MarshalHead _ = Ok _ |- _ => rename H into HMar end.
  split; [done|]. split; [done|]. split; [|split; [cbn; lia|done]].
  unfold DecodeHead. rewrite (proj2 (ParseHead_spec _ _) (conj Htt HMar)). cbn [wrap_err mbind result_bind].
  match goal with H : validateConfigHead c head = Ok _ |- _ => change (validateConfigHead c (takeover_head head writerID)) with (validateConfigHead c head); rewrite H end.
  done.
Qed.

(** What a session knows. *)
Definition commit_ok (w : world) (p : retentionCommit) : Prop :=
  good_mutation c w (rc_previous p) (rc_mutation p) ∧ Head_typed (rc_previous p) ∧ Head_typed (mu_Head (rc_mutation p)) ∧
  MarshalHead (mu_Head (rc_mutation p)) = Ok (mu_HeadBody (rc_mutation p)) ∧
  hh_AppliedRetentionVersion (hd_Header (mu_Head (rc_mutation p))) = rq_PolicyVersion (rc_request p) ∧
  0 < rq_PolicyVersion (rc_request p) ∧
  (rc_resolved p = true → policy_applied w (rq_PolicyVersion (rc_request p))).

Record session_ok (w : world) (s : Session) : Prop := {
  se_config : s_config s = c;
  se_engine : Engine_config (s_engine s) (cf_Partition c) = Ok c;
  se_known : known c w (s_head s) (s_token s);
  se_epoch : 0 < s_writerEpoch s;
  se_last : s_hasLastAppend s = true → committed w (s_lastAppend s);
  se_pending : ∀ p, s_pending s = Some p → commit_ok w p }.

Lemma commit_ok_evolves w w' p : evolves c w w' → commit_ok w p → commit_ok w' p.
Proof.
  intros He (H1 & H2 & H3 & H4 & H5 & H6 & H7). split; [by eapply good_mutation_evolves|].
  do 5 (split; [done|]). intros Hr. eapply policy_evolves; [done|auto].
Qed.
Lemma session_ok_evolves w w' s : evolves c w w' → session_ok w s → session_ok w' s.
Proof.
  intros He [H1 H2 H3 H4 H5 H6]. constructor; try done.
  - by eapply known_evolves.
  - intros Hl. eapply committed_evolves; [done|auto].
  - intros p Hp. eapply commit_ok_evolves; [done|auto].
Qed.

(** The session holds a published fence of the writer. *)
Definition acquired (writerID : list byte) (w : world) (s : Session) : Prop :=
  session_ok w s ∧ s_writerID s = writerID ∧
  ∃ v, v ∈ w.2 ∧ epoch_of v = s_writerEpoch s ∧ hh_WriterID (hd_Header v.1) = writerID.

Lemma acquired_evolves writerID w w' s : evolves c w w' → acquired writerID w s → acquired writerID w' s.
Proof.
  intros He (H1 & H2 & v & Hv & Hr). split; [by eapply session_ok_evolves|]. split; [done|]. exists v. split; [by eapply log_elem|done].
Qed.

Lemma new_acquired w e head token writerID :
  Engine_config e (cf_Partition c) = Ok c → seen c w head token → 0 < hh_WriterEpoch (hd_Header head) →
  hh_WriterID (hd_Header head) = writerID → acquired writerID w (newSession e c head token).
Proof.
  intros Hc Hs He Hid. split; [|split; [done|]].
  - constructor; try done. by left.
  - destruct Hs as (i & es & body & Hi & _). exists (head, es). split; [by eapply list_elem_of_lookup_2|done].
Qed.

Lemma safe_acquire_loop attempts e writerID w head token backoff lastErr epoch :
  Engine_config e (cf_Partition c) = Ok c → length writerID = 16%nat → inv c w → known c w head token →
  (attempts = 0%nat → 0 < epoch) →
  safe c (acquire_loop attempts e c writerID head token backoff lastErr epoch)
    (post c w (λ w' r, match r with inl s => acquired writerID w' s | inr (_, ep) => 0 < ep end)) w.
Proof.
  intros Hc Hid. revert w head token backoff lastErr epoch. induction attempts as [|n IH]; intros w head token backoff lastErr epoch HI Hk Hep;
    cbn [acquire_loop]; [apply safe_ret; [done|auto]|].
  eapply safe_io_bind; [apply (safe_lift _ _ _ (λ _ m, Takeover c head writerID = Ok m)); [done|auto]|].
  intros w1 m Hw1 HT. pose proof (evolves_inv _ _ _ Hw1) as HI1. assert (Hk1 : known c w1 head token) by (by eapply known_evolves).
  destruct (Takeover_inv _ _ _ _ _ HI1 Hk1 Hid HT) as (Htt & HM & HD & Hpos & HW).
  eapply safe_io_bind; [apply safe_try, (safe_cas _ _ (mu_Head m)); [done|done|by eapply takeover_pending]|].
  intros w2 r Hw2 Hr. pose proof (evolves_inv _ _ _ Hw2) as HI2. cbv zeta.
  assert (Hnext : ∀ w' h t le, inv c w' → known c w' h t →
    safe c (acquire_next n backoff le (hh_WriterEpoch (hd_Header (mu_Head m)))
              (acquire_loop n e c writerID h t (growBackoff backoff (eo_AcquireMaxBackoff e)) le (hh_WriterEpoch (hd_Header (mu_Head m)))))
      (post c w' (λ w' r, match r with inl s => acquired writerID w' s | inr (_, ep) => 0 < ep end)) w').
  { intros w' h t le HI' Hk'. destruct n as [|n']; [by apply safe_ret|].
    eapply safe_io_bind; [by apply (safe_wait _ _ _ (λ _ _, True))|]. intros w3 [err|] Hw3 _; [apply safe_fail; eauto|].
    apply IH; [eauto|by eapply known_evolves|done]. }
  destruct r as [[o sw]|err]; [|apply Hnext; [done|by eapply known_evolves]]. cbn [fst snd] in Hr.
  destruct (sw || bool_decide (o_Body o = mu_HeadBody m)) eqn:Esw.
  - apply safe_ret; [done|]. apply new_acquired; [done| |done|done]. destruct sw; [done|]. cbn [orb] in Esw. bool_to_prop.
    rewrite <- Esw in HD. by eapply known_decode.
  - apply orb_false_iff in Esw as [-> _].
    eapply safe_io_bind; [apply (safe_lift _ _ _ (λ w' h, known c w' h (o_Token o))); [done|]|].
    + intros h Hh. left. by eapply known_decode.
    + intros w3 h Hw3 Hk3. pose proof (evolves_inv _ _ _ Hw3) as HI3. specialize (Hnext w3 h (o_Token o) None HI3 Hk3).
      destruct n; [by apply safe_fail|exact Hnext].
Qed.

Lemma safe_Engine_OpenWriter e writerID w :
  Engine_config e (cf_Partition c) = Ok c → length writerID = 16%nat → 0 < eo_AcquireAttempts e → inv c w →
  safe c (Engine_OpenWriter e (cf_Partition c) writerID) (post c w (acquired writerID)) w.
Proof.
  intros Hc Hid Hat HI. unfold Engine_OpenWriter. eapply safe_io_bind; [by apply safe_check_ctx|]. intros w1 u Hw1 _.
  rewrite Hc. apply safe_bind. cbn [safe io_lift].
  eapply safe_io_bind; [by apply safe_load; eauto|]. intros w2 [h t] Hw2 Hk. cbn in Hk.
  eapply safe_io_bind; [apply safe_acquire_loop; [done|done|eauto|done|lia]|]. intros w3 [s|[le ep]] Hw3 Hr; [by apply safe_ret; eauto|].
  eapply safe_io_bind; [apply safe_try, safe_load; eauto|]. intros w4 [[ob ot]|err] Hw4 Hk4; [|apply safe_fail; eauto]. cbn in Hk4.
  destruct (_ && _) eqn:E; [|destruct le; apply safe_fail; eauto]. bool_to_prop. apply safe_ret; [eauto|]. apply new_acquired; [done| |lia|done].
  destruct Hk4 as [Hs|[-> _]]; [done|]. cbn in *. lia.
Qed.

(** ** Session methods *)
Definition spost {A} (w : world) (Q : world → Session → A → Prop) : world → Session * result A → Prop := λ w' sr,
  evolves c w w' ∧ session_ok w' sr.1 ∧ match sr.2 with Ok a => Q w' sr.1 a | Err _ => True end.

Lemma safe_sbind {A B} (m : sess A) (f : A → sess B) w s Q R :
  safe c (m s) (spost w Q) w →
  (∀ w' s' a, evolves c w w' → inv c w' → session_ok w' s' → Q w' s' a → safe c (f a s') (spost w' R) w') →
  safe c ((m ≫= f) s) (spost w R) w.
Proof.
  intros Hm Hf. apply safe_bind. eapply safe_conseq; [exact Hm|]. intros w' [s' [a|e]] (He & Hs & Ha); cbn in *; [|done].
  eapply safe_conseq; [apply Hf; eauto|]. intros w2 sr (He2 & Hs2 & Hr). split; [by eapply evolves_trans|done].
Qed.

Lemma safe_sget {B} (f : Session → sess B) w s R :
  safe c (f s s) R w → safe c ((sess_get ≫= f) s) R w.
Proof. done. Qed.
Lemma safe_smodify {B} g (f : () → sess B) w s R :
  safe c (f () (g s)) R w → safe c ((sess_modify g ≫= f) s) R w.
Proof. done. Qed.
Lemma safe_sret {A} (a : A) w s Q : inv c w → session_ok w s → Q w s a → safe c (mret (M := sess) a s) (spost w Q) w.
Proof. intros HI Hs HQ. split; [by apply evolves_refl|]. done. Qed.
Lemma safe_sfail {A} e w s (Q : world → Session → A → Prop) : inv c w → session_ok w s → safe c (sess_fail e s) (spost w Q) w.
Proof. intros HI Hs. split; [by apply evolves_refl|]. done. Qed.
Lemma safe_slift {A} (r : result A) w s Q :
  inv c w → session_ok w s → (∀ a, r = Ok a → Q w s a) → safe c (sess_lift r s) (spost w Q) w.
Proof. intros HI Hs HQ. split; [by apply evolves_refl|]. cbn. split; [done|]. destruct r; [by apply HQ|done]. Qed.
Lemma safe_sio {A} (m : io A) w s (Q : world → A → Prop) :
  session_ok w s → safe c m (post c w Q) w → safe c (sess_io m s) (spost w (λ w' s' a, s' = s ∧ Q w' a)) w.
Proof.
  intros Hs Hm. apply safe_bind. eapply safe_conseq; [exact Hm|]. intros w' r [He Hr]. cbn.
  split; [done|]. split; [by eapply session_ok_evolves|]. by destruct r.
Qed.
Lemma safe_stry {A} (m : sess A) w s (Q : world → Session → A → Prop) :
  safe c (m s) (spost w Q) w →
  safe c (sess_try m s) (spost w (λ w' s' r, match r with Ok a => Q w' s' a | Err _ => True end)) w.
Proof. intros Hm. apply safe_bind. eapply safe_conseq; [exact Hm|]. by intros w' [s' r]. Qed.

Lemma observeFence_ok w s head : session_ok w s → session_ok w (observeFence head s).
Proof. intros [H1 H2 H3 H4 H5 H6]. unfold observeFence. destruct (_ || _); by constructor. Qed.
Lemma set_head_ok w s head token : session_ok w s → known c w head token → session_ok w (set_head head token s).
Proof. intros [H1 H2 H3 H4 H5 H6] Hk. by constructor. Qed.
Lemma set_pending_ok w s p : session_ok w s → (∀ q, p = Some q → commit_ok w q) → session_ok w (set_pending p s).
Proof. intros [H1 H2 H3 H4 H5 H6] Hp. by constructor. Qed.

(** A refreshed session that is not stale saw its own fence, so the head is real. *)
Lemma safe_refresh w s :
  inv c w → session_ok w s →
  safe c (refreshLocked s) (spost w (λ w' s' _, s_pending s' = s_pending s ∧
    (s_stale s' = false → hh_WriterEpoch (hd_Header (s_head s')) = s_writerEpoch s'))) w.
Proof.
  intros HI Hs. unfold refreshLocked. apply safe_sget. rewrite (se_config _ _ Hs).
  eapply safe_sbind; [apply safe_sio; [done|]; apply safe_load; [apply Hs|done]|].
  intros w' s' [h t] Hw HI' Hs' [-> Hk]. cbn in Hk. apply safe_smodify. split; [by apply evolves_refl|]. cbn [fst snd].
  split; [apply set_head_ok; [by apply observeFence_ok|done]|]. unfold observeFence.
  destruct (negb _ || _) eqn:E; cbn; [done|]. split; [done|]. intros _. apply orb_false_iff in E as [E _]. bool_to_prop. done.
Qed.

Lemma known_seen w head token : known c w head token → 0 < hh_WriterEpoch (hd_Header head) → seen c w head token.
Proof. intros [Hs|[-> _]]; [done|]. cbn. lia. Qed.

Lemma safe_refresh_active w s :
  inv c w → session_ok w s →
  safe c (refreshActiveLocked s) (spost w (λ w' s' _, s_pending s' = s_pending s ∧ seen c w' (s_head s') (s_token s') ∧
    0 < hh_WriterEpoch (hd_Header (s_head s')))) w.
Proof.
  intros HI Hs. unfold refreshActiveLocked. apply safe_sget. destruct (s_stale s); [by apply safe_sfail|].
  eapply safe_sbind; [by apply safe_refresh|]. intros w' s' u Hw HI' Hs' [Hp Hst]. apply safe_sget.
  destruct (s_stale s'); [by apply safe_sfail|]. specialize (Hst eq_refl). pose proof (se_epoch _ _ Hs').
  apply safe_sret; [done|done|]. split; [done|]. split; [|lia]. apply known_seen; [apply Hs'|lia].
Qed.

(** ** Commits *)
Section commit.
Context (previous : Head) (m : Mutation) (applied : Head → io bool) (P : world → Prop).
Context (HPev : ∀ w w', evolves c w w' → P w → P w').
Context (HPm : ∀ w token, inv c w → seen c w (mu_Head m) token → P w).
Context (Happ : ∀ w observed token, inv c w → known c w observed token →
           safe c (applied observed) (post c w (λ w' ok, ok = true → P w')) w).
Context (Htp : Head_typed previous) (Htm : Head_typed (mu_Head m)) (HM : MarshalHead (mu_Head m) = Ok (mu_HeadBody m)).

Lemma sameHead_eq w observed token : inv c w → known c w observed token → sameHead previous observed = true → observed = previous.
Proof.
  intros HI Hk HS. unfold sameHead in HS. destruct (MarshalHead previous) as [b1|] eqn:E1; [|done].
  destruct (MarshalHead observed) as [b2|] eqn:E2; [|done]. bool_to_prop. subst b2.
  eapply MarshalHead_inj; [by eapply known_typed|done|done|done].
Qed.

Lemma safe_commit_loop attempts token backoff lastErr w s :
  inv c w → session_ok w s → good_mutation c w previous m → seen c w previous token →
  safe c (commit_loop attempts previous m applied token backoff lastErr s)
    (spost w (λ w' s' r, s_pending s' = s_pending s ∧ match r with inl _ => P w' | inr _ => True end)) w.
Proof.
  revert token backoff lastErr w s. induction attempts as [|n IH]; intros token backoff lastErr w s HI Hs HG Hseen; cbn [commit_loop].
  { by apply safe_sret. }
  apply safe_sget. rewrite (se_config _ _ Hs).
  eapply safe_sbind; [apply safe_sio; [done|]; apply safe_try, (safe_cas _ _ (mu_Head m)); [done|done|apply HG; [by apply evolves_refl|done]]|].
  intros w1 s1 r Hw1 HI1 Hs1 [-> Hr]. cbv zeta.
  assert (Hnext : ∀ w' s' t le, evolves c w1 w' → inv c w' → session_ok w' s' → s_pending s' = s_pending s → seen c w' previous t →
    safe c (commit_next n backoff le (commit_loop n previous m applied t (growBackoff backoff (eo_CommitMaxBackoff (s_engine s))) le) s')
      (spost w' (λ w' s' r, s_pending s' = s_pending s ∧ match r with inl _ => P w' | inr _ => True end)) w').
  { intros w' s' t le Hw' HI' Hs' Hp Ht. unfold commit_next. destruct n as [|n']; [by apply safe_sret|].
    eapply safe_sbind; [apply safe_sio; [done|]; by apply (safe_wait _ _ _ (λ _ _, True))|].
    intros w3 s3 [err|] Hw3 HI3 Hs3 [-> _]; [by apply safe_sfail|]. rewrite <- Hp.
    apply IH; [done|done| |by eapply seen_evolves]. eapply good_mutation_evolves; [|exact HG]. eapply evolves_trans; [exact Hw1|].
    by eapply evolves_trans. }
  assert (Hseen1 : seen c w1 previous token) by (by eapply seen_evolves).
  destruct r as [[o sw]|err]; [|apply Hnext; eauto]. cbn [fst snd] in Hr. destruct sw.
  { apply safe_smodify. eapply (safe_sbind _ _ _ _ (λ w' s' _, s_pending s' = s_pending s ∧ P w')).
    - apply safe_slift; [done|apply set_head_ok; [done|by left]|]. intros st _. split; [done|by eapply HPm].
    - intros w2 s2 st Hw2 HI2 Hs2 [Hp HP]. by apply safe_sret. }
  eapply (safe_sbind _ _ _ _ (λ w' s' h, s' = s ∧ seen c w' h (o_Token o) ∧ (o_Body o = mu_HeadBody m → P w'))).
  { apply safe_slift; [done|done|]. intros h Hh. split; [done|]. pose proof (known_decode w1 o h HI1 Hr Hh) as Hsh. split; [done|].
    intros Eb. eapply HPm; [done|]. replace (mu_Head m) with h; [exact Hsh|]. unfold DecodeHead in Hh. inv_ok.
    apply ParseHead_spec in Hbind as [Ht HMh]. eapply MarshalHead_inj; [done|done|exact HMh|]. by rewrite Eb. }
  intros w2 s2 h Hw2 HI2 Hs2 (-> & Hsh & HPb). apply safe_smodify.
  eapply safe_sbind; [apply safe_sio; [by apply observeFence_ok|]; eapply Happ; [done|by left]|].
  intros w3 s3 ok Hw3 HI3 Hs3 [-> Hok3]. assert (Hsh3 : seen c w3 h (o_Token o)) by (by eapply seen_evolves).
  assert (Hpo : s_pending (observeFence h s) = s_pending s) by (unfold observeFence; by destruct (_ || _)).
  assert (Hland : ∀ (x : result PartitionHead), P w3 →
    safe c ((_ ← sess_modify (set_head h (o_Token o)); st ← sess_lift x; mret (M := sess) (inl st : PartitionHead + option error)) (observeFence h s))
      (spost w3 (λ w' s' r, s_pending s' = s_pending s ∧ match r with inl _ => P w' | inr _ => True end)) w3).
  { intros x HP. apply safe_smodify. eapply (safe_sbind _ _ _ _ (λ w' s' _, s_pending s' = s_pending s ∧ P w')).
    - apply safe_slift; [done|apply set_head_ok; [done|by left]|]. intros st _. by split.
    - intros w4 s4 st Hw4 HI4 Hs4 [Hp HP4]. by apply safe_sret. }
  case_bool_decide as Eb; [apply Hland; by eapply HPev, HPb|]. destruct ok; [apply Hland; auto|]. apply safe_sget.
  destruct (s_stale _); [by apply safe_sfail|]. destruct (sameHead previous h) eqn:Esame; [|by apply safe_sfail].
  assert (h = previous) as -> by (eapply sameHead_eq; [exact HI3|by left|done]).
  destruct n as [|n']; [by apply safe_sfail|]. apply Hnext; try done. by eapply evolves_trans.
Qed.

Lemma safe_commitLocked w s :
  inv c w → session_ok w s → good_mutation c w previous m → seen c w previous (s_token s) →
  safe c (commitLocked previous m applied s) (spost w (λ w' s' _, s_pending s' = s_pending s ∧ P w')) w.
Proof.
  intros HI Hs HG Hseen. unfold commitLocked. apply safe_sget.
  eapply safe_sbind; [by apply safe_commit_loop|]. intros w1 s1 r Hw1 HI1 Hs1 [Hp1 Hr].
  destruct r as [st|le]; [by apply safe_sret|]. rewrite (se_config _ _ Hs).
  eapply safe_sbind; [apply safe_sio; [done|]; apply safe_try, safe_load; [apply Hs|done]|].
  intros w2 s2 [[ob t]|err] Hw2 HI2 Hs2 [-> Hk]; [|by apply safe_sfail]. cbn in Hk. apply safe_smodify.
  eapply safe_sbind; [apply safe_sio; [by apply observeFence_ok|]; by eapply Happ|].
  intros w3 s3 ok Hw3 HI3 Hs3 [-> Hok3].
  assert (Hpo : s_pending (observeFence ob s1) = s_pending s) by (rewrite <- Hp1; unfold observeFence; by destruct (_ || _)).
  destruct ok.
  - apply safe_smodify. apply safe_slift; [done|apply set_head_ok; [done|by eapply known_evolves]|]. intros st _. split; [done|auto].
  - apply safe_sget. destruct (s_stale _); [by apply safe_sfail|]. destruct (sameHead previous ob); [destruct le|]; by apply safe_sfail.
Qed.
End commit.
End engine_safe.
