(* ===== verification/CatSession.v ===== *)
(** * The methods of a writer session

    Appending, applying retention and reconciling, for sessions whose knowledge
    is backed by the published history ([session_ok]): whatever other writers do
    meanwhile, an append that is acknowledged is in a published version, and a
    retention reported as applied is recorded in one. *)
From S2P Require Import Prelude Hash SegFormat Ranges PMeta KeyLayout CatFormat CatCodec CatTree CatReader CatAppend CatRetention.
From S2P Require Import BlobStore CatEngine CatLog CatMono CatSafe CatEngineSafe.

Section session.
Context `{XXHash} (c : Config) (Hok : config_ok c).
Implicit Types (w : world) (s : Session).

#[local] Hint Resolve evolves_refl evolves_inv : core.

(** ** Landing *)
(** A published head with entries shows the last one. *)
Lemma seen_last w head token pages es entry :
  inv c w → seen c w head token → catalog_rep c pages head (es ++ [entry]) → committed c w (segmentRef c entry).
Proof.
  intros HI Hs HR. destruct (seen_rep c w head token HI Hs) as (es' & body & Hin & HR' & _).
  exists (head, es'). split; [done|]. cbn. destruct (last es') as [e|] eqn:El.
  - rewrite (cr_last _ _ _ _ HR entry), <- (cr_last _ _ _ _ HR' e El) by (by rewrite last_snoc).
    apply list_elem_of_fmap_2. rewrite last_lookup in El. by eapply list_elem_of_lookup_2.
  - apply last_None in El as ->. apply catalog_rep_empty in HR'. apply catalog_rep_bounds in HR as (_ & _ & _ & _ & HE).
    apply HE in HR'. by destruct es.
Qed.

Lemma later_page_keys g objects : later_pages c g objects → Forall (λ o, page_key c (po_Key o)) objects.
Proof. intros HL. apply Forall_forall. intros o Ho. destruct (HL o Ho) as [-> _]. apply PagePath_key. Qed.

(** The previous head and segment of an append, and what it lands. *)
Lemma append_lands w head token segment m :
  inv c w → known c w head token → SegmentRef_typed segment → Append c head segment = Ok m →
  seen c w head token ∧ Head_typed head ∧ Head_typed (mu_Head m) ∧ MarshalHead (mu_Head m) = Ok (mu_HeadBody m) ∧
  Forall (λ o, page_key c (po_Key o)) (mu_Pages m) ∧
  ∀ w' token', inv c w' → seen c w' (mu_Head m) token' → committed c w' segment.
Proof.
  intros HI Hk Hty HA. pose proof (known_typed c Hok w head token HI Hk) as Ht.
  destruct (Append_inv _ _ _ _ HA) as [entry0 HC0]. pose proof (ac_fenced _ _ _ _ HC0).
  assert (Hs : seen c w head token).
  { apply known_seen; [done|]. destruct Ht as [Hh _]. unfold HeadHeader_typed in Hh. typed_fields. unfold_widths. lia. }
  destruct (seen_rep c w head token HI Hs) as (es & body & _ & HR & _).
  destruct (append_rep _ _ _ _ _ _ HR Hty HA) as (entry & _ & Hse & HR' & HL & HM & _).
  split; [done|]. split; [done|]. split; [apply HR'|]. split; [done|]. split; [by eapply later_page_keys|].
  intros w' token' HI' Hs'. rewrite <- Hse. by eapply seen_last.
Qed.

(** ** Appending *)
Lemma safe_find_segment w head token segment :
  inv c w → known c w head token →
  safe c (with_reader (λ pages ctx, FindSegment c pages ctx head (sr_BaseLSN segment)))
    (post c w (λ w' r, r = Some segment → committed c w' segment)) w.
Proof.
  intros HI Hk. apply safe_reader; [done| |done]. intros w' pages r Hw HP HF ->.
  destruct (read_find c 0 w' head token pages _ _ (evolves_inv _ _ _ Hw) (known_loaded _ _ _ _ (known_evolves _ _ _ _ _ Hw Hk)) HP HF) as (es & Hes & E).
  destruct Hes as [[_ ->]|(i & v & Hi & _ & ->)]; [done|]. apply list_elem_of_lookup_2 in Hi as Hv. exists v. split; [done|]. symmetry in E.
  destruct (proj1 (evolves_inv _ _ _ Hw)) as [[_ _ _ HRs] _ _]. pose proof (proj1 (Forall_forall _ _) HRs v Hv) as HR.
  destruct (catalog_rep_bounds _ _ _ _ HR) as (Hc & _). by eapply segment_elem.
Qed.

Lemma safe_append_applied segment w observed token :
  inv c w → known c w observed token →
  safe c (append_applied c segment observed) (post c w (λ w' ok, ok = true → committed c w' segment)) w.
Proof.
  intros HI Hk. unfold append_applied.
  eapply safe_io_bind; [by eapply safe_find_segment|].
  intros w' r Hw Hr. apply safe_ret; [eauto|]. intros E. bool_to_prop. auto.
Qed.

Lemma safe_commitAppendLocked w s previous m segment :
  inv c w → session_ok c w s → s_head s = previous → SegmentRef_typed segment → Append c previous segment = Ok m →
  pages_stored c w (mu_Pages m) →
  safe c (commitAppendLocked previous m segment s)
    (spost c w (λ w' s' _, s_pending s' = s_pending s ∧ committed c w' segment)) w.
Proof.
  intros HI Hs <- Hty HA HP. unfold commitAppendLocked. apply safe_sget. rewrite (se_config _ _ _ Hs).
  destruct (append_lands w _ _ segment m HI (se_known _ _ _ Hs) Hty HA) as (Hseen & Ht & Htm & HM & _ & Hland).
  apply safe_commitLocked; try done.
  - intros w1 w2. apply committed_evolves.
  - intros w1 ob t. apply safe_append_applied.
  - by eapply append_good.
Qed.

(** ** Retention *)
Lemma retention_applied_seen w observed token m :
  inv c w → known c w observed token → 0 < hh_AppliedRetentionVersion (hd_Header (mu_Head m)) → retentionApplied observed m = true →
  policy_applied w (hh_AppliedRetentionVersion (hd_Header (mu_Head m))).
Proof.
  intros HI Hk Hpos E. unfold retentionApplied in E. bool_to_prop.
  destruct Hk as [(i & es & body & Hi & _)|[-> _]]; [|cbn in *; lia].
  exists (observed, es). split; [by eapply list_elem_of_lookup_2|]. done.
Qed.

Lemma safe_commitRetentionLocked w s previous m :
  inv c w → session_ok c w s → good_mutation c w previous m → seen c w previous (s_token s) → Head_typed previous → Head_typed (mu_Head m) →
  MarshalHead (mu_Head m) = Ok (mu_HeadBody m) → 0 < hh_AppliedRetentionVersion (hd_Header (mu_Head m)) →
  safe c (commitRetentionLocked previous m s)
    (spost c w (λ w' s' _, s_pending s' = s_pending s ∧ policy_applied w' (hh_AppliedRetentionVersion (hd_Header (mu_Head m))))) w.
Proof.
  intros HI Hs HG Hseen Ht Htm HM Hpos. unfold commitRetentionLocked. apply safe_commitLocked; try done.
  - intros w1 w2. apply policy_evolves.
  - intros w1 t HI1 (i & es & body & Hi & _). exists (mu_Head m, es). split; [by eapply list_elem_of_lookup_2|]. unfold policy_of; cbn; lia.
  - intros w1 ob t HI1 Hk. apply safe_ret; [done|]. by eapply retention_applied_seen.
Qed.

(** [resolved_from s s']: the pending commit of [s], if any, is resolved in [s']. *)
Definition resolved_from (s s' : Session) : Prop :=
  match s_pending s with
  | None => s_pending s' = None
  | Some p => ∃ p', s_pending s' = Some p' ∧ rc_request p' = rc_request p ∧ rc_resolved p' = true
  end.

Lemma resolved_ok w p :
  commit_ok c w p → policy_applied w (hh_AppliedRetentionVersion (hd_Header (mu_Head (rc_mutation p)))) → commit_ok c w (resolved p).
Proof. intros (H1 & H2 & H3 & H4 & H5 & H6 & H7) Hp. do 6 (split; [done|]). intros _. by rewrite H5 in Hp. Qed.

Lemma safe_resolve w s : inv c w → session_ok c w s → safe c (resolveRetentionLocked s) (spost c w (λ _ s' _, resolved_from s s')) w.
Proof.
  intros HI Hs. unfold resolveRetentionLocked. apply safe_sget. destruct (s_pending s) as [p|] eqn:Ep.
  2: { apply safe_sret; [done|done|]. unfold resolved_from. by rewrite Ep. }
  destruct (s_stale s); [by apply safe_sfail|].
  assert (Hres : ∀ w' s', inv c w' → session_ok c w' s' → s_pending s' = Some p →
            policy_applied w' (hh_AppliedRetentionVersion (hd_Header (mu_Head (rc_mutation p)))) →
            safe c (sess_modify (set_pending (Some (resolved p))) s') (spost c w' (λ _ s' _, resolved_from s s')) w').
  { intros w' s' HI' Hs' Hp' HP. split; [by apply evolves_refl|]. cbn [fst snd]. split.
    - apply set_pending_ok; [done|]. intros q [= <-]. apply resolved_ok; [by apply (se_pending _ _ _ Hs')|done].
    - unfold resolved_from. rewrite Ep. by exists (resolved p). }
  eapply safe_sbind; [apply safe_sio; [done|]; by apply (safe_ctx _ _ (λ _ _, True))|].
  intros w1 s1 ctx Hw1 HI1 Hs1 [-> _]. destruct ctx; [by apply safe_sfail|]. destruct (rc_resolved p) eqn:Er.
  { apply safe_sret; [done|done|]. unfold resolved_from. rewrite Ep. by exists p. }
  eapply safe_sbind; [by apply safe_stry, safe_refresh_active|].
  intros w2 s2 [u|err] Hw2 HI2 Hs2 Hr; [|by destruct (errors_Is _ _); apply safe_sfail].
  destruct Hr as (Hp2 & Hseen & _). rewrite Ep in Hp2. apply safe_sget.
  destruct (se_pending _ _ _ Hs2 p Hp2) as (HG & Ht & Htm & HM & Hv & Hpos & _).
  destruct (retentionApplied _ _) eqn:Ea.
  { apply Hres; [done|done|done|]. eapply retention_applied_seen; [done|apply Hs2|lia|done]. }
  destruct (sameHead _ _) eqn:Esame; [|by apply safe_sfail]. cbn [negb].
  assert (Eprev : s_head s2 = rc_previous p) by (eapply sameHead_eq; [done|done|exact HI2|by left|done]).
  rewrite Eprev in Hseen.
  eapply safe_sbind; [apply safe_stry, safe_commitRetentionLocked; try done; lia|].
  intros w3 s3 [st|err] Hw3 HI3 Hs3 Hr; [|by destruct (_ || _); apply safe_sfail]. destruct Hr as [Hp3 HP]. apply safe_sget.
  destruct (s_stale s3); [by apply safe_sfail|]. apply Hres; [done|done|congruence|done].
Qed.

Definition retention_result (w : world) (r : RetentionApplyResult) : Prop :=
  ra_Applied r = true → policy_applied w (rq_PolicyVersion (ra_Request r)).

Lemma safe_acknowledge w s :
  inv c w → session_ok c w s →
  safe c (acknowledgeRetentionLocked s)
    (spost c w (λ w' _ r, retention_result w' r ∧ (∀ p, s_pending s = Some p → ra_Request r = rc_request p))) w.
Proof.
  intros HI Hs. unfold acknowledgeRetentionLocked. eapply safe_sbind; [by apply safe_resolve|].
  intros w1 s1 u Hw1 HI1 Hs1 Hr. apply safe_sget.
  eapply (safe_sbind _ _ _ _ _ (λ w' s' _, s' = s1)); [by apply safe_slift|]. intros w2 s2 st Hw2 HI2 Hs2 ->.
  destruct (s_pending s1) as [p|] eqn:Ep; [|by apply safe_sfail]. apply safe_smodify.
  destruct (se_pending _ _ _ Hs2 p Ep) as (_ & _ & _ & _ & _ & _ & HP).
  apply safe_sret; [done|by apply set_pending_ok|]. unfold resolved_from in Hr. destruct (s_pending s) as [q|]; [|congruence].
  destruct Hr as (p' & E & Eq & Er). rewrite Ep in E. injection E as <-. split; [intros _; by apply HP|]. by intros ? [= <-].
Qed.

(** What a retention mutation is, of a published head. *)
Lemma retention_lands w head token pages beforeLSN policyVersion m :
  inv c w → seen c w head token → pages_le c pages (page_source w.1) → is_u64 beforeLSN → is_u64 policyVersion →
  ApplyRetention None c (Some pages) head beforeLSN policyVersion = Ok m →
  (hh_Generation (hd_Header (mu_Head m)) = hh_Generation (hd_Header head) ∧ policy_applied w policyVersion) ∨
  (hh_Generation (hd_Header (mu_Head m)) ≠ hh_Generation (hd_Header head) ∧ Head_typed (mu_Head m) ∧
   MarshalHead (mu_Head m) = Ok (mu_HeadBody m) ∧ Forall (λ o, page_key c (po_Key o)) (mu_Pages m) ∧
   hh_AppliedRetentionVersion (hd_Header (mu_Head m)) = policyVersion ∧ 0 < policyVersion).
Proof.
  intros HI Hs HP Hb Hv HA. destruct (seen_rep c w head token HI Hs) as (es & body & Hin & HR & _).
  destruct (ApplyRetention_inv _ _ _ _ _ _ HA) as [[-> E]|(Hf1 & Hf2 & Hf3)].
  { left. split; [done|]. exists (head, es). split; [done|]. unfold policy_of; cbn. lia. }
  right. pose proof (ApplyRetention_mono c _ _ HP None head beforeLSN policyVersion m HA) as HA'.
  assert (Hf : fresh_request head beforeLSN policyVersion) by (split; [unfold_widths; lia|done]).
  destruct (retention_rep _ _ _ _ _ _ HR Hb Hf) as [(m' & HA2 & HR' & HL & HM & Hra)|[_ [e He']]]; [|by rewrite HA' in He'].
  rewrite HA' in HA2. injection HA2 as <-. split; [rewrite (ra_generation _ _ _ _ Hra); lia|]. split; [apply HR'|]. split; [done|].
  split; [by eapply later_page_keys|]. split; [apply Hra|].
  pose proof (cr_typed _ _ _ _ HR) as [Hh _]. unfold HeadHeader_typed in Hh. typed_fields. unfold_widths. lia.
Qed.

Lemma safe_retention_mutation w head token beforeLSN policyVersion :
  inv c w → seen c w head token → is_u64 beforeLSN → is_u64 policyVersion →
  safe c (with_reader (λ pages ctx, ApplyRetention ctx c (Some pages) head beforeLSN policyVersion))
    (post c w (λ w' m, ∃ pages, pages_le c pages (page_source w'.1) ∧
                         ApplyRetention None c (Some pages) head beforeLSN policyVersion = Ok m)) w.
Proof. intros HI Hs Hb Hv. apply safe_reader; [done| |done]. eauto. Qed.

Lemma safe_applyRetentionLocked w s request :
  inv c w → session_ok c w s → seen c w (s_head s) (s_token s) → 0 < hh_WriterEpoch (hd_Header (s_head s)) →
  is_u64 (rq_BeforeLSN request) → is_u64 (rq_PolicyVersion request) →
  safe c (applyRetentionLocked request s) (spost c w (λ w' _ r, r.2 = true → policy_applied w' (rq_PolicyVersion request))) w.
Proof.
  intros HI Hs Hseen Hep Hb Hv. unfold applyRetentionLocked. apply safe_sget. rewrite (se_config _ _ _ Hs). cbv zeta.
  eapply safe_sbind; [apply safe_sio; [done|]; by eapply safe_retention_mutation|].
  intros w1 s1 m Hw1 HI1 Hs1 [-> (pages & HP & HA)]. assert (Hseen1 : seen c w1 (s_head s) (s_token s)) by (by eapply seen_evolves).
  destruct (retention_lands w1 _ _ pages _ _ m HI1 Hseen1 HP Hb Hv HA) as [[Eg Hp]|(Eg & Htm & HM & Hkeys & Eav & Hpos)].
  - rewrite Eg, Z.eqb_refl.
    eapply (safe_sbind _ _ _ _ _ (λ w' _ _, policy_applied w' (rq_PolicyVersion request))); [by apply safe_slift|].
    intros w2 s2 st Hw2 HI2 Hs2 Hp2. apply safe_smodify. apply safe_sret; [done|by apply set_pending_ok|done].
  - rewrite (proj2 (Z.eqb_neq _ _) Eg). eapply safe_sbind; [apply safe_sio; [done|]; by apply safe_putPages|].
    intros w2 s2 u Hw2 HI2 Hs2 [-> Hst]. apply safe_smodify. set (p := {| rc_request := request |}).
    assert (HG : good_mutation c w2 (s_head s) m).
    { eapply (retention_good c w2 pages); [done|exact Hb|exact Hv| |exact HA|done|done|done].
      intros key Hk a Ha. destruct Hw2 as [_ HL]. apply (lt_pages _ _ _ _ _ HL); [done|by apply HP]. }
    assert (Hth : Head_typed (s_head s)) by (eapply known_typed; [done|exact HI2|apply Hs2]).
    assert (Hs2' : session_ok c w2 (set_pending (Some p) s)).
    { apply set_pending_ok; [done|]. intros q [= <-]. unfold commit_ok; cbn. do 4 (split; [done|]). by split. }
    eapply safe_sbind; [apply safe_stry, safe_commitRetentionLocked; try done; [by eapply seen_evolves|lia]|].
    intros w3 s3 r Hw3 HI3 Hs3 Hr. destruct r as [st|err].
    + apply safe_smodify. apply safe_sret; [done|by apply set_pending_ok|]. intros _. rewrite <- Eav. apply Hr.
    + eapply (safe_sbind _ _ _ _ _ (λ _ _ _, True)).
      * destruct (negb _); [|by apply safe_sret]. split; [by apply evolves_refl|]. split; [|done]. apply set_pending_ok; [done|]. intros q Hq.
        eapply commit_ok_evolves; [exact Hw3|]. by apply (se_pending _ _ _ Hs2).
      * intros w4 s4 u4 Hw4 HI4 Hs4 _. by apply safe_sfail.
Qed.

(** ** The session's methods *)
Lemma set_lastAppend_ok w s segment state : session_ok c w s → committed c w segment → session_ok c w (set_lastAppend segment state s).
Proof. intros [H1 H2 H3 H4 H5 H6] Hc. by constructor. Qed.

Lemma safe_Session_AppendSegment w s segment :
  inv c w → session_ok c w s → SegmentRef_typed segment →
  safe c (Session_AppendSegment segment s) (spost c w (λ w' _ _, committed c w' segment)) w.
Proof.
  intros HI Hs Hty. unfold Session_AppendSegment. eapply safe_sbind; [apply safe_sio; [done|]; by apply safe_check_ctx|].
  intros w1 s1 u Hw1 HI1 Hs1 [-> _]. apply safe_sget. destruct (s_stale s).
  { destruct (_ && _) eqn:E; [|by apply safe_sfail]. bool_to_prop. destruct (_ <? _); [by apply safe_sfail|].
    apply safe_sret; [done|done|]. subst segment. by apply (se_last _ _ _ Hs1). }
  eapply safe_sbind; [by apply safe_resolve|]. intros w2 s2 u2 Hw2 HI2 Hs2 _. apply safe_sget. rewrite (se_config _ _ _ Hs2).
  destruct (_ && _).
  - eapply (safe_sbind _ _ _ _ _ (λ _ _ _, True)); [destruct (_ || _); [by apply safe_slift|by apply safe_sret]|].
    intros w3 s3 ack Hw3 HI3 Hs3 _. eapply safe_sbind; [by apply safe_refresh|]. intros w4 s4 u4 Hw4 HI4 Hs4 _. apply safe_sget.
    destruct (_ <? _); [by apply safe_sfail|]. rewrite (se_config _ _ _ Hs4).
    eapply safe_sbind; [apply safe_sio; [done|]; eapply safe_find_segment; [done|apply Hs4]|].
    intros w5 s5 ob Hw5 HI5 Hs5 [-> Hob]. destruct (negb _) eqn:E; [by apply safe_sfail|]. bool_to_prop. apply safe_sret; auto.
  - eapply (safe_sbind _ _ _ _ _ (λ _ s' m, s' = s2 ∧ Append c (s_head s2) segment = Ok m)); [by apply safe_slift|].
    intros w3 s3 m Hw3 HI3 Hs3 [-> HA].
    destruct (append_lands w3 _ _ segment m HI3 (se_known _ _ _ Hs3) Hty HA) as (_ & _ & _ & _ & Hkeys & _).
    eapply safe_sbind; [apply safe_sio; [done|]; by apply safe_putPages|]. intros w4 s4 u4 Hw4 HI4 Hs4 [-> Hst].
    eapply safe_sbind; [by apply safe_commitAppendLocked|]. intros w5 s5 st Hw5 HI5 Hs5 [_ Hc]. apply safe_smodify.
    apply safe_sret; [done|by apply set_lastAppend_ok|done].
Qed.

Lemma safe_Session_ApplyPendingRetention w s request found :
  inv c w → session_ok c w s → is_u64 (rq_BeforeLSN request) → is_u64 (rq_PolicyVersion request) →
  safe c (Session_ApplyPendingRetention request found s) (spost c w (λ w' _ r, retention_result w' r)) w.
Proof.
  intros HI Hs Hb Hv. unfold Session_ApplyPendingRetention. eapply safe_sbind; [apply safe_sio; [done|]; by apply safe_check_ctx|].
  intros w1 s1 u Hw1 HI1 Hs1 [-> _]. apply safe_sget. destruct (s_pending s) as [p|].
  { eapply safe_conseq; [by apply safe_acknowledge|]. intros w' [s' [r|e]] (He & Hs' & Hr); [|done]. by destruct Hr. }
  eapply safe_sbind; [by apply safe_refresh_active|]. intros w2 s2 u2 Hw2 HI2 Hs2 (_ & Hseen & Hep). apply safe_sget. destruct (_ || _).
  - eapply (safe_sbind _ _ _ _ _ (λ _ _ _, True)); [by apply safe_slift|]. intros w3 s3 st Hw3 HI3 Hs3 _. by apply safe_sret.
  - eapply safe_sbind; [by apply safe_applyRetentionLocked|]. intros w3 s3 [st ap] Hw3 HI3 Hs3 Hr. by apply safe_sret.
Qed.

Lemma safe_Session_ReconcilePendingRetention w s :
  inv c w → session_ok c w s →
  safe c (Session_ReconcilePendingRetention s)
    (spost c w (λ w' _ r, match r with Some r => retention_result w' r | None => True end)) w.
Proof.
  intros HI Hs. unfold Session_ReconcilePendingRetention. apply safe_sget. destruct (s_pending s) as [p|]; [|by apply safe_sret].
  eapply safe_sbind; [by apply safe_acknowledge|]. intros w1 s1 r Hw1 HI1 Hs1 [Hr _]. by apply safe_sret.
Qed.

Lemma safe_Session_ApplyRetention w s beforeLSN policyVersion :
  inv c w → session_ok c w s → is_u64 beforeLSN → is_u64 policyVersion →
  safe c (Session_ApplyRetention beforeLSN policyVersion s)
    (spost c w (λ w' _ r, r.2 = true → policy_applied w' policyVersion)) w.
Proof.
  intros HI Hs Hb Hv. unfold Session_ApplyRetention. eapply safe_sbind; [apply safe_sio; [done|]; by apply safe_check_ctx|].
  intros w1 s1 u Hw1 HI1 Hs1 [-> _]. apply safe_sget.
  match goal with |- context [if ?b then _ else _] => destruct b eqn:E end.
  { eapply safe_sbind; [by apply safe_acknowledge|]. intros w2 s2 r Hw2 HI2 Hs2 [Hr Hreq]. apply safe_sret; [done|done|].
    destruct (s_pending s) as [p|]; [|done]. bool_to_prop. specialize (Hreq p eq_refl). cbn. intros Ha.
    specialize (Hr Ha). rewrite Hreq in Hr. congruence. }
  eapply safe_sbind; [by apply safe_resolve|]. intros w2 s2 u2 Hw2 HI2 Hs2 _.
  eapply safe_sbind; [by apply safe_refresh_active|]. intros w3 s3 u3 Hw3 HI3 Hs3 (_ & Hseen & Hep). by apply safe_applyRetentionLocked.
Qed.
End session.
