(* ===== verification/CatSystem.v ===== *)
(** * Engines, sessions and a store, running together

    A system is one partition's store, the writer sessions that are idle, and
    the methods that are running, each of them a program stopped before its next
    call.  Any number of engines may start methods at any time, on any session
    that no other method holds; calls are answered one at a time, in any order,
    by the store's contract, writes whose callers got an error may be delivered
    later, and other keys of the store may be written.  The theorems are about
    every state such a system reaches. *)
From S2P Require Import Prelude Hash SegFormat Ranges PMeta KeyLayout CatFormat CatCodec CatTree CatReader CatAppend CatRetention.
From S2P Require Import BlobStore CatEngine CatLog CatMono CatSafe CatEngineSafe CatSession.

(** ** Methods and their outcomes *)
Inductive method :=
  | Initialize (nextLSN : Z)
  | OpenWriter (writerID : list byte)
  | Find (lsn : Z)
  | Lookup (timestampMS : Z)
  | ListFrom (fromLSN limit : Z).
Inductive session_method :=
  | AppendSegment (segment : SegmentRef)
  | ApplyPending (request : RetentionRequest) (found : bool)
  | Reconcile
  | Retain (beforeLSN policyVersion : Z).

Inductive outcome :=
  | Initialized (r : result (PartitionHead * bool))
  | Opened (writerID : list byte) (r : result Session)
  | Found (lsn : Z) (r : result (option SegmentRef))
  | LookedUp (timestampMS : Z) (r : result (option SegmentRef))
  | Listed (fromLSN limit : Z) (r : result SegmentPage)
  | Appended (segment : SegmentRef) (s : Session) (r : result PartitionHead)
  | AppliedPending (s : Session) (r : result RetentionApplyResult)
  | Reconciled (s : Session) (r : result (option RetentionApplyResult))
  | Retained (policyVersion : Z) (s : Session) (r : result (PartitionHead * bool)).

(** The session a finished method leaves idle. *)
Definition outcome_session (o : outcome) : list Session :=
  match o with
  | Opened _ (Ok s) | Appended _ s _ | AppliedPending s _ | Reconciled s _ | Retained _ s _ => [s]
  | _ => []
  end.

Section system.
Context `{XXHash} (c : Config).

Definition run_method (e : EngineOptions) (m : method) : prog eresp outcome :=
  let partition := cf_Partition c in
  match m with
  | Initialize nextLSN => prog_bind (Engine_Initialize e partition nextLSN) (λ r, Return (Initialized r))
  | OpenWriter writerID => prog_bind (Engine_OpenWriter e partition writerID) (λ r, Return (Opened writerID r))
  | Find lsn => prog_bind (Engine_FindSegment e partition lsn) (λ r, Return (Found lsn r))
  | Lookup timestampMS => prog_bind (Engine_LookupTimestamp e partition timestampMS) (λ r, Return (LookedUp timestampMS r))
  | ListFrom fromLSN limit => prog_bind (Engine_ListSegments e partition fromLSN limit) (λ r, Return (Listed fromLSN limit r))
  end.
Definition run_session (m : session_method) (s : Session) : prog eresp outcome :=
  match m with
  | AppendSegment segment => prog_bind (Session_AppendSegment segment s) (λ r, Return (Appended segment r.1 r.2))
  | ApplyPending request found => prog_bind (Session_ApplyPendingRetention request found s) (λ r, Return (AppliedPending r.1 r.2))
  | Reconcile => prog_bind (Session_ReconcilePendingRetention s) (λ r, Return (Reconciled r.1 r.2))
  | Retain beforeLSN policyVersion =>
      prog_bind (Session_ApplyRetention beforeLSN policyVersion s) (λ r, Return (Retained policyVersion r.1 r.2))
  end.

(** Arguments of the widths the methods' types have. *)
Definition method_typed (m : method) : Prop :=
  match m with
  | Initialize nextLSN => is_u64 nextLSN
  | OpenWriter writerID => length writerID = 16%nat
  | _ => True
  end.
Definition session_method_typed (m : session_method) : Prop :=
  match m with
  | AppendSegment segment => SegmentRef_typed segment
  | ApplyPending request _ => is_u64 (rq_BeforeLSN request) ∧ is_u64 (rq_PolicyVersion request)
  | Reconcile => True
  | Retain beforeLSN policyVersion => is_u64 beforeLSN ∧ is_u64 policyVersion
  end.

(** An engine configured for this partition. *)
Definition engine_for (e : EngineOptions) : Prop :=
  (∃ nilBackend opts, NewEngine nilBackend opts = Ok e) ∧ Engine_config e (cf_Partition c) = Ok c.

(** ** Steps *)

(** A running method, and how many heads were published when it started. *)
Record thread := mkThread { th_start : nat; th_prog : prog eresp outcome }.
(** A finished one, and how many were published when it finished. *)
Record event := mkEvent { ev_start : nat; ev_finish : nat; ev_outcome : outcome }.
Record system := mkSystem {
  sy_store : blobs; sy_idle : list Session; sy_threads : list thread; sy_events : list event }.

Definition heads (s : blobs) : nat := length (head_writes c s).
Definition initial : system := {|
  sy_store := {| b_obj := ∅; b_writes := []; b_flight := [] |}; sy_idle := []; sy_threads := []; sy_events := [] |}.

Inductive step : system → system → Prop :=
  | step_method s idle ts evs e m :
      engine_for e → method_typed m →
      step (mkSystem s idle ts evs) (mkSystem s idle (mkThread (heads s) (run_method e m) :: ts) evs)
  | step_session s idle1 session idle2 ts evs m :
      session_method_typed m →
      step (mkSystem s (idle1 ++ session :: idle2) ts evs)
           (mkSystem s (idle1 ++ idle2) (mkThread (heads s) (run_session m session) :: ts) evs)
  | step_call s s' idle ts1 n op k ts2 evs r :
      eop_step op s r s' →
      step (mkSystem s idle (ts1 ++ mkThread n (Call op k) :: ts2) evs)
           (mkSystem s' idle (ts1 ++ mkThread n (k r) :: ts2) evs)
  | step_return s idle ts1 n o ts2 evs :
      step (mkSystem s idle (ts1 ++ mkThread n (Return o) :: ts2) evs)
           (mkSystem s (outcome_session o ++ idle) (ts1 ++ ts2) (mkEvent n (heads s) o :: evs))
  | step_deliver s s' idle ts evs :
      blob_deliver s s' → step (mkSystem s idle ts evs) (mkSystem s' idle ts evs)
  | step_foreign s idle ts evs key body token :
      key ≠ HeadPath c → ¬ page_key c key →
      step (mkSystem s idle ts evs) (mkSystem (write key body token s) idle ts evs).

Definition reachable : system → Prop := rtc step initial.

(** ** What an outcome says of the versions published *)

(** The entries of a version that was current at some time since the first
    [start] versions were published. *)
Definition read_version (start : nat) (log : list version) (es : list LeafEntry) : Prop :=
  start = 0%nat ∧ es = [] ∨ ∃ i v, log !! i = Some v ∧ (start ≤ S i)%nat ∧ es = v.2.

Definition applied_in (log : list version) (policyVersion : Z) : Prop := ∃ v, v ∈ log ∧ policyVersion ≤ policy_of v.

Definition outcome_ok (start : nat) (log : list version) (o : outcome) : Prop :=
  match o with
  | Initialized (Ok _) => ∃ v, v ∈ log
  | Opened writerID (Ok s) => ∃ v, v ∈ log ∧ 0 < epoch_of v ∧ epoch_of v = s_writerEpoch s ∧ hh_WriterID (hd_Header v.1) = writerID
  | Found lsn (Ok r) => ∃ es, read_version start log es ∧ r = at_lsn lsn (map (segmentRef c) es)
  | LookedUp timestampMS (Ok r) => ∃ es, read_version start log es ∧ r = from_ts timestampMS (map (segmentRef c) es)
  | Listed fromLSN limit (Ok r) =>
      ∃ es, read_version start log es ∧ r = spec_page (map (segmentRef c) es) fromLSN (Z.to_nat (reader_limit limit))
  | Appended segment _ (Ok _) => ∃ v, v ∈ log ∧ segment ∈ map (segmentRef c) v.2
  | AppliedPending _ (Ok r) | Reconciled _ (Ok (Some r)) => ra_Applied r = true → applied_in log (rq_PolicyVersion (ra_Request r))
  | Retained policyVersion _ (Ok (_, applied)) => applied = true → applied_in log policyVersion
  | _ => True
  end.

(** An event holds of the versions published when its method finished. *)
Definition event_ok (log : list version) (ev : event) : Prop :=
  (ev_finish ev ≤ length log)%nat ∧ outcome_ok (ev_start ev) (take (ev_finish ev) log) (ev_outcome ev).

(** ** The invariant *)
Context (Hok : config_ok c).

Definition thread_post (start : nat) (w : world) (o : outcome) : Prop :=
  (start ≤ length w.2)%nat ∧ outcome_ok start w.2 o ∧ Forall (session_ok c w) (outcome_session o).

Record system_ok (sys : system) (log : list version) : Prop := {
  so_inv : inv c (sy_store sys, log);
  so_idle : Forall (session_ok c (sy_store sys, log)) (sy_idle sys);
  so_threads : Forall (λ t, safe c (th_prog t) (thread_post (th_start t)) (sy_store sys, log)) (sy_threads sys);
  so_events : Forall (event_ok log) (sy_events sys) }.

Lemma read_version_prefix start log log' es : log `prefix_of` log' → read_version start log es → read_version start log' es.
Proof. intros HP [?|(i & v & Hi & Hr)]; [by left|right]. exists i, v. split; [by eapply prefix_lookup_Some|done]. Qed.

Lemma outcome_ok_prefix start log log' o : log `prefix_of` log' → outcome_ok start log o → outcome_ok start log' o.
Proof.
  intros HP. assert (HE : ∀ v, v ∈ log → v ∈ log') by (destruct HP as [k ->]; intros v Hv; apply elem_of_app; by left).
  assert (HA : ∀ n, applied_in log n → applied_in log' n) by (intros n (v & Hv & Hr); exists v; auto).
  destruct o as [[]|? []|? []|? []|? ? []|? ? []|? []|? [[]|]|? ? [[]|]]; cbn; try done;
    try (intros (es & Hes & ->); exists es; split; [by eapply read_version_prefix|done]);
    try (intros (v & Hv); exists v; intuition auto); auto.
Qed.

Lemma thread_post_evolves start w w' o : evolves c w w' → thread_post start w o → thread_post start w' o.
Proof.
  intros He (Hs & Ho & HF). pose proof (evolves_length _ _ _ He). split; [lia|]. split.
  - eapply outcome_ok_prefix; [|done]. destruct He as [_ HL]. apply HL.
  - eapply Forall_impl; [exact HF|]. intros s. by apply session_ok_evolves.
Qed.

Lemma event_ok_evolves w w' ev : evolves c w w' → event_ok w.2 ev → event_ok w'.2 ev.
Proof.
  intros He [Hf Ho]. pose proof (evolves_length _ _ _ He). split; [lia|].
  destruct He as [_ [_ [k ->] _ _]]. by rewrite take_app_le.
Qed.

(** ** Every method keeps the invariant *)
Lemma NewEngine_attempts nilBackend opts e : NewEngine nilBackend opts = Ok e → 0 < eo_AcquireAttempts e ∧ 0 < eo_CommitAttempts e.
Proof.
  unfold NewEngine. cbv zeta. intros HN. inv_ok. cbn.
  destruct (Z.leb_spec (eo_CASAttempts opts) 0), (Z.leb_spec (eo_AcquireAttempts opts) 0), (Z.leb_spec (eo_CommitAttempts opts) 0); lia.
Qed.

(** A method's postcondition gives its thread's. *)
Lemma safe_thread {A} (p : prog eresp A) (f : A → outcome) (Q : world → A → Prop) w :
  safe c p Q w → (∀ w' a, Q w' a → thread_post (length w.2) w' (f a)) →
  safe c (prog_bind p (λ r, Return (f r))) (thread_post (length w.2)) w.
Proof. intros Hp HQ. apply safe_bind. eapply safe_conseq; [exact Hp|]. exact HQ. Qed.

Lemma run_method_ok w e m : inv c w → engine_for e → method_typed m → safe c (run_method e m) (thread_post (length w.2)) w.
Proof.
  intros HI [(nilBackend & opts & HN) Hc] Hty. apply NewEngine_attempts in HN as [Hat _].
  assert (Hpost : ∀ A (Q : world → A → Prop) (f : result A → outcome) w' r,
    (∀ a, Q w' a → outcome_ok (length w.2) w'.2 (f (Ok a)) ∧ Forall (session_ok c w') (outcome_session (f (Ok a)))) →
    (∀ err, outcome_ok (length w.2) w'.2 (f (Err err)) ∧ outcome_session (f (Err err)) = []) →
    post c w Q w' r → thread_post (length w.2) w' (f r)).
  { intros A Q f w' r HO HE [He Hr]. split; [by eapply evolves_length|]. destruct r as [a|err]; [by apply HO|].
    destruct (HE err) as [Ho ->]. by split; [|constructor]. }
  destruct m as [n|id|lsn|ts|from limit]; cbn [method_typed run_method] in *.
  - eapply safe_thread; [by apply safe_Engine_Initialize|]. intros w' r. by apply Hpost.
  - eapply safe_thread; [by apply safe_Engine_OpenWriter|]. intros w' r. apply Hpost; [|done].
    intros s (Hs & Hid & v & Hv & He & Hw). split; [|by apply Forall_singleton]. exists v. split; [done|]. rewrite He. by destruct Hs.
  - eapply safe_thread; [by apply safe_Engine_FindSegment|]. intros w' r. by apply Hpost.
  - eapply safe_thread; [by apply safe_Engine_LookupTimestamp|]. intros w' r. by apply Hpost.
  - eapply safe_thread; [by apply safe_Engine_ListSegments|]. intros w' r. by apply Hpost.
Qed.

Lemma run_session_ok w m s : inv c w → session_ok c w s → session_method_typed m → safe c (run_session m s) (thread_post (length w.2)) w.
Proof.
  intros HI Hs Hty.
  assert (Hpost : ∀ A (Q : world → Session → A → Prop) (f : Session → result A → outcome) w' r,
    (∀ s' a, Q w' s' a → outcome_ok (length w.2) w'.2 (f s' (Ok a))) →
    (∀ s' err, outcome_ok (length w.2) w'.2 (f s' (Err err))) → (∀ s' x, outcome_session (f s' x) = [s']) →
    spost c w Q w' r → thread_post (length w.2) w' (f r.1 r.2)).
  { intros A Q f w' [s' r] HO HE Hf (He & Hs' & Hr). split; [by eapply evolves_length|]. cbn in *. rewrite Hf.
    split; [|by apply Forall_singleton]. destruct r; auto. }
  destruct m as [segment|request found| |b v]; cbn [session_method_typed run_session] in *.
  - eapply safe_thread; [by apply safe_Session_AppendSegment|]. intros w' r. by apply Hpost.
  - eapply safe_thread; [by apply safe_Session_ApplyPendingRetention; destruct Hty|]. intros w' r. by apply Hpost.
  - eapply safe_thread; [by apply safe_Session_ReconcilePendingRetention|]. intros w' r. apply Hpost; [|done|done]. by intros s' [a|].
  - eapply safe_thread; [by apply safe_Session_ApplyRetention; destruct Hty|]. intros w' r. apply Hpost; [|done|done]. by intros s' [a ap].
Qed.

(** The other parts of the system when the world evolves. *)
Lemma idle_evolves w w' ss : evolves c w w' → Forall (session_ok c w) ss → Forall (session_ok c w') ss.
Proof. intros He HF. eapply Forall_impl; [exact HF|]. intros s. by apply session_ok_evolves. Qed.
Lemma threads_evolve w w' ts :
  evolves c w w' → Forall (λ t, safe c (th_prog t) (thread_post (th_start t)) w) ts →
  Forall (λ t, safe c (th_prog t) (thread_post (th_start t)) w') ts.
Proof.
  intros He HF. eapply Forall_impl; [exact HF|]. intros t. apply safe_evolves; [|done].
  intros w1 w2 o. apply thread_post_evolves.
Qed.
Lemma events_evolve w w' evs : evolves c w w' → Forall (event_ok w.2) evs → Forall (event_ok w'.2) evs.
Proof. intros He HF. eapply Forall_impl; [exact HF|]. intros ev. by apply event_ok_evolves. Qed.

Lemma heads_log s log : inv c (s, log) → heads s = length log.
Proof. intros [[[HB _ _ _] _ _] _]. apply (Forall2_length _ _ _ HB). Qed.

Lemma store_step_ok s s' log log' idle ts evs :
  evolves c (s, log) (s', log') → system_ok (mkSystem s idle ts evs) log → system_ok (mkSystem s' idle ts evs) log'.
Proof.
  intros He [HI Hi Ht Hev]. cbn in *. constructor; cbn.
  - by eapply evolves_inv.
  - by eapply idle_evolves.
  - by eapply threads_evolve.
  - by apply (events_evolve _ _ _ He).
Qed.

Lemma step_ok sys sys' log : step sys sys' → system_ok sys log → ∃ log', system_ok sys' log' ∧ log `prefix_of` log'.
Proof.
  intros HS Hsys. destruct HS as [s idle ts evs e m He Hm|s i1 session i2 ts evs m Hm|s s' idle ts1 n op k ts2 evs r Hr|s idle ts1 n o ts2 evs
    |s s' idle ts evs HD|s idle ts evs key body token Hne Hk].
  - destruct Hsys as [HI Hi Ht Hev]. cbn in *. exists log. split; [|done]. constructor; cbn; try done. constructor; [|done].
    cbn. rewrite (heads_log _ _ HI). by apply (run_method_ok (s, log)).
  - destruct Hsys as [HI Hi Ht Hev]. cbn in *. apply Forall_app in Hi as [Hi1 Hi2]. apply Forall_cons in Hi2 as [Hs Hi2].
    exists log. split; [|done]. constructor; cbn; try done; [by apply Forall_app|]. constructor; [|done].
    cbn. rewrite (heads_log _ _ HI). by apply (run_session_ok (s, log)).
  - destruct Hsys as [HI Hi Ht Hev]. cbn in *. apply Forall_app in Ht as [Ht1 Ht2]. apply Forall_cons in Ht2 as [Hp Ht2]. cbn in Hp.
    destruct (Hp (s, log) (evolves_refl _ _ HI) r s' Hr) as (log' & He & Hk). exists log'. split; [|destruct He as [_ HL]; apply HL].
    constructor; cbn; [by eapply evolves_inv|by eapply idle_evolves| |by apply (events_evolve _ _ _ He)].
    apply Forall_app. split; [by eapply threads_evolve|]. constructor; [done|by eapply threads_evolve].
  - destruct Hsys as [HI Hi Ht Hev]. cbn in *. apply Forall_app in Ht as [Ht1 Ht2]. apply Forall_cons in Ht2 as [(Hst & Ho & HF) Ht2].
    exists log. split; [|done]. constructor; cbn; [done|by apply Forall_app|by apply Forall_app|]. constructor; [|done].
    split; cbn; rewrite (heads_log _ _ HI); [done|]. by rewrite firstn_all.
  - destruct (evolves_deliver c s log s' (so_inv _ _ Hsys) HD) as (log' & He). exists log'.
    split; [by eapply store_step_ok|]. destruct He as [_ HL]. apply HL.
  - pose proof (evolves_write_other c s log key body token (so_inv _ _ Hsys) Hne (or_intror Hk)) as He. exists log.
    split; [by eapply store_step_ok|done].
Qed.

Lemma initial_ok : system_ok initial [].
Proof.
  constructor; cbn; try constructor; cbn; [|constructor]. constructor.
  - constructor; cbn; [constructor|done|constructor|constructor].
  - intros ? ? ? Hx. by apply elem_of_nil in Hx.
  - intros ? ? Hx. by apply elem_of_nil in Hx.
Qed.

Lemma reachable_ok sys : reachable sys → ∃ log, system_ok sys log.
Proof.
  apply (rtc_ind_r (λ sys, ∃ log, system_ok sys log)); [exists []; apply initial_ok|].
  intros sys1 sys2 _ HS [log Hlog]. destruct (step_ok _ _ _ HS Hlog) as (log' & Hlog' & _). eauto.
Qed.
End system.

(** ** What the system guarantees *)
Section guarantees.
Context `{XXHash} (c : Config) (Hok : config_ok c) (sys : system) (Hreach : reachable c sys).

Lemma reachable_published :
  ∃ log, published c (sy_store sys) log ∧ history c log ∧ Forall (represented c) log ∧ Forall (event_ok c log) (sy_events sys).
Proof.
  destruct (reachable_ok c Hok sys Hreach) as [log [HI _ _ Hev]]. destruct HI as [[Hpb _ _] _]. exists log. split; [done|].
  split; [apply Hpb|]. split; [|done]. eapply Forall_impl; [apply (pb_rep _ _ _ Hpb)|]. intros v Hv. by exists (page_source (sy_store sys)).
Qed.

(** The versions of a history keep an acknowledged segment. *)
Lemma appended_kept log start finish segment s state j v :
  history c log → Forall (represented c) log → event_ok c log (mkEvent start finish (Appended segment s (Ok state))) →
  log !! j = Some v → (finish ≤ S j)%nat →
  segment ∈ map (segmentRef c) v.2 ∨ sr_LastLSN segment < hh_OldestLSN (hd_Header v.1).
Proof.
  intros Hh HF [Hf (v0 & Hv0 & Hseg)] Hj Hle. cbn in *. apply list_elem_of_lookup_1 in Hv0 as [i Hi].
  apply lookup_take_Some in Hi as [Hi Hlt].
  apply list_elem_of_fmap in Hseg as (e & -> & He).
  destruct (history_precedes c log i j v0 v Hh HF Hi Hj ltac:(lia)) as [Hp _].
  destruct (precedes_keeps c v0 v e (Forall_lookup_1 _ _ _ _ HF Hi) (Forall_lookup_1 _ _ _ _ HF Hj) Hp He) as [Hin|Hlast]; [left|right].
  - by apply list_elem_of_fmap_2.
  - done.
Qed.

(** Segments of one version are equal or apart. *)
Lemma version_disjoint v s1 s2 :
  represented c v → s1 ∈ map (segmentRef c) v.2 → s2 ∈ map (segmentRef c) v.2 →
  s1 = s2 ∨ sr_LastLSN s1 < sr_BaseLSN s2 ∨ sr_LastLSN s2 < sr_BaseLSN s1.
Proof.
  intros [pages HR] H1 H2. destruct (catalog_rep_bounds _ _ _ _ HR) as (Hc0 & _).
  assert (Hc : chain (map (segmentRef c) v.2)) by (by apply (chain_map (segmentRef c))).
  apply list_elem_of_lookup_1 in H1 as [i Hi]. apply list_elem_of_lookup_1 in H2 as [j Hj].
  destruct (lt_eq_lt_dec i j) as [[Hlt|Heq]|Hlt].
  - right. left. by destruct (chain_lt _ _ _ _ _ Hc Hi Hj Hlt).
  - left. subst. congruence.
  - right. right. by destruct (chain_lt _ _ _ _ _ Hc Hj Hi Hlt).
Qed.
End guarantees.

(** C30. Publication is safe.  In every state reached by any number of engines
    and sessions whose calls interleave, fail, or land after their callers gave
    up, the writes of the head object are the marshalled heads of a legal
    history, each of whose versions can still be read from the stored pages; and
    every finished method told the truth about the versions published by the
    time it finished (acknowledged appends and retentions are in one of them,
    sessions hold a published fence, reads answer from one version that was
    current during the call). *)
Theorem publication_safe `{XXHash} c sys :
  config_ok c → reachable c sys →
  ∃ log, published c (sy_store sys) log ∧ Forall (event_ok c log) (sy_events sys).
Proof.
  intros Hok HR. destruct (reachable_published c Hok sys HR) as (log & Hpb & _ & _ & Hev). by exists log.
Qed.

(** C31. Acknowledged appends are durable: while the object's current head is the
    last version of the history, an acknowledged segment is in it, unless
    retention has moved the oldest position past the segment. *)
Theorem append_durable `{XXHash} c sys start finish segment s state :
  config_ok c → reachable c sys → mkEvent start finish (Appended segment s (Ok state)) ∈ sy_events sys →
  ∃ log head es, published c (sy_store sys) log ∧ last log = Some (head, es) ∧
    (segment ∈ map (segmentRef c) es ∨ sr_LastLSN segment < hh_OldestLSN (hd_Header head)).
Proof.
  intros Hok HR Hev. destruct (reachable_published c Hok sys HR) as (log & Hpb & Hh & HF & HE).
  apply (proj1 (Forall_forall _ _) HE) in Hev. pose proof Hev as [Hf (v0 & Hv0 & _)]. cbn in *.
  destruct (last log) as [[head es]|] eqn:El; [|apply last_None in El as ->; rewrite take_nil in Hv0; by apply elem_of_nil in Hv0].
  exists log, head, es. split; [done|]. split; [done|]. rewrite last_lookup in El. 
  assert (log ≠ []) by (by intros ->). assert (length log ≠ 0%nat) by (by destruct log).
  apply (appended_kept c log start finish segment s state (Nat.pred (length log)) (head, es) Hh HF Hev El). lia.
Qed.

(** C32. A read sees the appends acknowledged before it started: a lookup of one
    of the segment's positions finds the segment, unless a published version has
    retained past it. *)
Theorem read_after_append `{XXHash} c sys start finish segment s state start' finish' lsn found :
  config_ok c → reachable c sys →
  mkEvent start finish (Appended segment s (Ok state)) ∈ sy_events sys →
  mkEvent start' finish' (Found lsn (Ok found)) ∈ sy_events sys →
  (finish ≤ start')%nat → sr_BaseLSN segment ≤ lsn ≤ sr_LastLSN segment →
  found = Some segment ∨
  ∃ log v, published c (sy_store sys) log ∧ v ∈ log ∧ sr_LastLSN segment < hh_OldestLSN (hd_Header v.1).
Proof.
  intros Hok HR Ha Hf Hle Hlsn. destruct (reachable_published c Hok sys HR) as (log & Hpb & Hh & HF & HE).
  apply (proj1 (Forall_forall _ _) HE) in Ha, Hf. destruct Hf as [Hfin (es & Hes & ->)]. cbn in *.
  destruct Hes as [[-> ->]|(i & v & Hi & Hs & ->)].
  { assert (finish = 0%nat) as -> by lia. destruct Ha as [_ (v0 & Hv0 & _)]. cbn in Hv0. by apply elem_of_nil in Hv0. }
  apply lookup_take_Some in Hi as [Hi _].
  destruct (appended_kept c log start finish segment s state i v Hh HF Ha Hi ltac:(lia)) as [Hin|Hlast].
  - left. destruct (Forall_lookup_1 _ _ _ _ HF Hi) as [pages Hrep]. destruct (catalog_rep_bounds _ _ _ _ Hrep) as (Hc0 & _).
    assert (Hc : chain (map (segmentRef c) v.2)) by (by apply (chain_map (segmentRef c))). by apply at_lsn_Some.
  - right. exists log, v. split; [done|]. split; [by eapply list_elem_of_lookup_2|done].
Qed.

(** C33. Acknowledged segments never overlap: two segments acknowledged to any
    writers at any time are equal or have disjoint LSN ranges. *)
Theorem appends_disjoint `{XXHash} c sys st1 fi1 seg1 s1 r1 st2 fi2 seg2 s2 r2 :
  config_ok c → reachable c sys →
  mkEvent st1 fi1 (Appended seg1 s1 (Ok r1)) ∈ sy_events sys → mkEvent st2 fi2 (Appended seg2 s2 (Ok r2)) ∈ sy_events sys →
  seg1 = seg2 ∨ sr_LastLSN seg1 < sr_BaseLSN seg2 ∨ sr_LastLSN seg2 < sr_BaseLSN seg1.
Proof.
  intros Hok HR H1 H2. destruct (reachable_published c Hok sys HR) as (log & Hpb & Hh & HF & HE).
  apply (proj1 (Forall_forall _ _) HE) in H1, H2. destruct H1 as [_ (v1 & Hv1 & Hs1)], H2 as [_ (v2 & Hv2 & Hs2)]. cbn in *.
  apply list_elem_of_lookup_1 in Hv1 as [i Hi], Hv2 as [j Hj]. apply lookup_take_Some in Hi as [Hi _], Hj as [Hj _].
  assert (Hcase : ∀ i j v1 v2 a b, log !! i = Some v1 → log !! j = Some v2 → (i ≤ j)%nat → a ∈ map (segmentRef c) v1.2 →
            b ∈ map (segmentRef c) v2.2 → a = b ∨ sr_LastLSN a < sr_BaseLSN b ∨ sr_LastLSN b < sr_BaseLSN a).
  { clear i j Hi Hj v1 v2 Hs1 Hs2. intros i j v1 v2 a b Hi Hj Hij Ha Hb. pose proof (Forall_lookup_1 _ _ _ _ HF Hi) as R1. pose proof (Forall_lookup_1 _ _ _ _ HF Hj) as R2.
    apply list_elem_of_fmap in Ha as (e & -> & He). destruct (history_precedes c log i j v1 v2 Hh HF Hi Hj Hij) as [Hp _].
    destruct (precedes_keeps c v1 v2 e R1 R2 Hp He) as [Hin|Hlast]; [apply (version_disjoint c v2); [done|by apply list_elem_of_fmap_2|done]|].
    right. left. apply list_elem_of_fmap in Hb as (e' & -> & He'). destruct R2 as [pages Hrep].
    destruct (catalog_rep_bounds _ _ _ _ Hrep) as (_ & _ & HB & _). destruct (HB e' He'). cbn. lia. }
  destruct (Nat.le_ge_cases i j) as [Hij|Hij]; [by apply (Hcase i j v1 v2)|].
  destruct (Hcase j i v2 v1 seg2 seg1 Hj Hi Hij Hs2 Hs1) as [->|[?|?]]; auto.
Qed.

