(* ===== verification/CatRun.v ===== *)
(** * The engine on the in-memory store

    Methods run to their end against the in-memory store, with a context that
    stays live and no other caller in between.  Such a run is one of the
    system's runs ([mem_run_steps]).  Opening a writer then succeeds, an append
    that the tree accepts commits at its first attempt, and a read answers; a
    concrete run of the three gives the states the system's theorems are applied
    to. *)
From S2P Require Import Prelude Hash SegFormat Ranges PMeta KeyLayout CatFormat CatCodec CatTree CatReader CatAppend CatRetention.
From S2P Require Import CatExample BlobStore CatEngine CatLog CatMono CatSafe CatEngineSafe CatSession CatSystem.

(** The store's answer to a call, at time [now]. *)
Definition mem_pages (m : MemStore) : PageSource := λ key,
  match (Store_Get None key m).2 with Ok o => Ok (o_Body o) | Err e => Err e end.
Definition mem_answer (op : eop) (now : Z) (m : MemStore) : MemStore * eresp op :=
  match op with
  | StoreCall op => mem_call op None now m
  | CtxErr | Wait _ => (m, None)
  | ReadPages => (m, mem_pages m)
  end.

(** A run stops when the store's token counter is exhausted. *)
Fixpoint mem_run {A} (p : prog eresp A) (now : Z) (m : MemStore) : option (MemStore * A) :=
  match p with
  | Return a => Some (m, a)
  | Call op k =>
      if ms_next m <? MaxUint64
      then let '(m', r) := mem_answer op now m in mem_run (k r) now m'
      else None
  end.

Lemma mem_run_bind {A B} (p : prog eresp A) (f : A → prog eresp B) now m :
  mem_run (prog_bind p f) now m = '(m', a) ← mem_run p now m; mem_run (f a) now m'.
Proof.
  revert m; induction p as [a|op k IH]; intros m; cbn; [done|]. destruct (_ <? _); [|done].
  destruct (mem_answer op now m) as [m' r]. apply IH.
Qed.

Lemma mem_pages_le m b key : mem_abs m b → res_le (mem_pages m key) (page_source b key).
Proof.
  intros HA body. unfold mem_pages, page_source, Store_Get. rewrite (mem_lookup _ _ _ HA).
  cbv beta iota zeta delta [mbind st_bind mret st_ret st_get st_fail st_check]. case_bool_decide; [done|].
  by destruct (ms_objects m !! key) as [o|]; cbn.
Qed.

Lemma mem_answer_step op now m b :
  mem_abs m b → ms_next m < MaxUint64 →
  ∃ b', eop_step op b (mem_answer op now m).2 b' ∧ mem_abs (mem_answer op now m).1 b'.
Proof.
  intros HA Hn. destruct op as [op| | |]; cbn [mem_answer eop_step fst snd].
  - apply mem_call_refines; [done|done|by intros e [=]].
  - by exists b.
  - by exists b.
  - exists b. split; [|done]. split; [done|]. intros key. by apply mem_pages_le.
Qed.

Section runs.
Context `{XXHash} (c : Config).

(** A run is a sequence of steps of the system. *)
Lemma mem_run_steps p now m m' o b idle n evs :
  mem_abs m b → mem_run p now m = Some (m', o) →
  ∃ b', mem_abs m' b' ∧
    rtc (step c) (mkSystem b idle [mkThread n p] evs) (mkSystem b' (outcome_session o ++ idle) [] (mkEvent n (heads c b') o :: evs)).
Proof.
  revert m b; induction p as [a|op k IH]; intros m b HA HR; cbn in HR.
  - injection HR as <- <-. exists b. split; [done|]. apply rtc_once. apply (step_return c b idle [] n a [] evs).
  - destruct (Z.ltb_spec (ms_next m) MaxUint64) as [Hn|]; [|done]. destruct (mem_answer_step op now m b HA Hn) as (b1 & Hs & HA1).
    destruct (mem_answer op now m) as [m1 r]. cbn [fst snd] in *. destruct (IH r m1 b1 HA1 HR) as (b' & HA' & Hsteps). exists b'.
    split; [done|]. eapply rtc_l; [|exact Hsteps]. by apply (step_call c b b1 idle [] n op k [] evs).
Qed.

(** Methods run one after the other. *)
Lemma reach_method e m now ms ms' o b idle evs :
  engine_for c e → reachable c (mkSystem b idle [] evs) → mem_abs ms b →
  mem_run (run_method c e m) now ms = Some (ms', o) → method_typed m →
  ∃ b', mem_abs ms' b' ∧ reachable c (mkSystem b' (outcome_session o ++ idle) [] (mkEvent (heads c b) (heads c b') o :: evs)).
Proof.
  intros He HR HA HM Ht. destruct (mem_run_steps _ _ _ _ _ b idle (heads c b) evs HA HM) as (b' & HA' & Hs). exists b'. split; [done|].
  unfold reachable. etrans; [exact HR|]. eapply rtc_l; [|exact Hs]. by apply (step_method c b idle [] evs e m).
Qed.
Lemma reach_session m session now ms ms' o b idle evs :
  reachable c (mkSystem b (session :: idle) [] evs) → mem_abs ms b →
  mem_run (run_session m session) now ms = Some (ms', o) → session_method_typed m →
  ∃ b', mem_abs ms' b' ∧ reachable c (mkSystem b' (outcome_session o ++ idle) [] (mkEvent (heads c b) (heads c b') o :: evs)).
Proof.
  intros HR HA HM Ht. destruct (mem_run_steps _ _ _ _ _ b idle (heads c b) evs HA HM) as (b' & HA' & Hs). exists b'. split; [done|].
  unfold reachable. etrans; [exact HR|]. eapply rtc_l; [|exact Hs]. by apply (step_session c b [] session idle [] evs m).
Qed.
End runs.


(** ** Methods that run through *)
Section progress.
Context `{XXHash} (c : Config).

Definition runs {A} (p : prog eresp A) (now : Z) (m m' : MemStore) (a : A) : Prop := mem_run p now m = Some (m', a).

Lemma runs_io {A B} (p : io A) (f : A → io B) now m m1 m2 a r :
  runs p now m m1 (Ok a) → runs (f a) now m1 m2 r → runs (p ≫= f) now m m2 r.
Proof. unfold runs. intros Hp Hf. unfold mbind, io_bind. by rewrite mem_run_bind, Hp. Qed.
Lemma runs_try {A} (p : io A) now m m' r : runs p now m m' r → runs (io_try p) now m m' (Ok r).
Proof. unfold runs, io_try. intros Hp. by rewrite mem_run_bind, Hp. Qed.
Lemma runs_sess {A B} (p : sess A) (f : A → sess B) s s1 now m m1 m2 a r :
  runs (p s) now m m1 (s1, Ok a) → runs (f a s1) now m1 m2 r → runs ((p ≫= f) s) now m m2 r.
Proof. unfold runs. intros Hp Hf. unfold mbind, sprog_bind. by rewrite mem_run_bind, Hp. Qed.
Lemma runs_sess_io {A} (p : io A) s now m m' r : runs p now m m' r → runs (sess_io p s) now m m' (s, r).
Proof. unfold runs, sess_io. intros Hp. by rewrite mem_run_bind, Hp. Qed.

Lemma runs_call {A} op (k : eresp op → prog eresp A) now m m' a :
  ms_next m < MaxUint64 → runs (k (mem_answer op now m).2) now (mem_answer op now m).1 m' a → runs (Call op k) now m m' a.
Proof.
  intros Hn HR. unfold runs. cbn [mem_run]. rewrite (proj2 (Z.ltb_lt _ _) Hn). by destruct (mem_answer op now m).
Qed.
Lemma runs_ctx now m : ms_next m < MaxUint64 → runs io_check_ctx now m m (Ok ()).
Proof. intros Hn. by apply runs_call. Qed.
Lemma runs_reader {A} (f : PageSource → option error → result A) now m :
  ms_next m < MaxUint64 → runs (with_reader f) now m m (f (mem_pages m) None).
Proof. intros Hn. apply runs_call; [done|]. by apply runs_call. Qed.

(** The head object holds this head. *)
Definition holds_head (m : MemStore) (head : Head) (token : gostring) : Prop :=
  ∃ o, ms_objects m !! HeadPath c = Some o ∧ MarshalHead head = Ok (ob_body o) ∧ ob_token o = token.

Lemma HeadPath_nonempty : HeadPath c ≠ [].
Proof. unfold HeadPath. intros E. by apply app_nil in E as [_ E]. Qed.
Lemma page_key_nonempty key : page_key c key → key ≠ [].
Proof. intros (ref & [->| ->]) E; unfold LeafPagePath, IndexPagePath in E; by apply app_nil in E as [_ E]. Qed.

Ltac mem_step := cbv beta iota zeta delta [mbind st_bind mret st_ret st_get st_put st_fail st_check newObjectLocked set_object].

(** A swap that expects the current token. *)
Lemma runs_swap now m token body :
  ms_next m < MaxUint64 → 0 ≤ ms_next m →
  match ms_objects m !! HeadPath c with Some o => ob_token o = token | None => token = [] end →
  ∃ m' o, runs (store (CompareAndSwap (HeadPath c) token body)) now m m' (Ok (o, true)) ∧ ms_next m' = ms_next m + 1 ∧
    (∃ ob, ms_objects m' = <[HeadPath c := ob]> (ms_objects m) ∧ ob_body ob = body ∧ ob_token ob = o_Token o).
Proof.
  intros Hn H0 Ht. unfold runs, store. cbn [mem_run mem_answer mem_call]. rewrite (proj2 (Z.ltb_lt _ _) Hn). unfold Store_CompareAndSwap.
  mem_step. rewrite bool_decide_false by apply HeadPath_nonempty.
  destruct (ms_objects m !! HeadPath c) as [o|]; rewrite (bool_decide_true _ Ht); cbn [negb];
    (eexists _, _; split; [reflexivity|]; cbn [ms_next ms_objects]; split; [apply uint64_id; unfold_widths; lia|]; eexists; split; [reflexivity|]; done).
Qed.

(** A page that is new, or there already. *)
Lemma runs_put now m key body :
  ms_next m < MaxUint64 → 0 ≤ ms_next m → key ≠ [] → (∀ o, ms_objects m !! key = Some o → ob_body o = body) →
  ∃ m' r, runs (store (Put key body)) now m m' (Ok r) ∧ ms_next m ≤ ms_next m' ≤ ms_next m + 1 ∧
    (∃ ob, ms_objects m' = <[key := ob]> (ms_objects m) ∧ ob_body ob = body).
Proof.
  intros Hn H0 Hk Hb. unfold runs, store. cbn [mem_run mem_answer mem_call]. rewrite (proj2 (Z.ltb_lt _ _) Hn). unfold Store_Put.
  mem_step. rewrite bool_decide_false by done. destruct (ms_objects m !! key) as [o|] eqn:E.
  - rewrite bool_decide_true by (by apply Hb). eexists _, _. split; [reflexivity|]. split; [lia|]. exists o.
    split; [symmetry; by apply insert_id|by apply Hb].
  - eexists _, _. split; [reflexivity|]. cbn [ms_next ms_objects]. rewrite uint64_id by (unfold_widths; lia). split; [lia|]. eexists. by split.
Qed.

(** Where keys and next tokens are after storing pages. *)
Record stored (m m' : MemStore) (objects : list PageObject) : Prop := {
  sd_next : ms_next m ≤ ms_next m' ≤ ms_next m + len objects;
  sd_in : ∀ o, o ∈ objects → ∃ ob, ms_objects m' !! po_Key o = Some ob ∧ ob_body ob = po_Body o;
  sd_out : ∀ key, key ∉ map po_Key objects → ms_objects m' !! key = ms_objects m !! key }.

Lemma stored_refl m : stored m m [].
Proof. constructor; [unfold len; cbn; lia|by intros o ?%elem_of_nil|done]. Qed.

Lemma runs_putPages now m objects :
  0 ≤ ms_next m → ms_next m + len objects < MaxUint64 → NoDup (map po_Key objects) →
  (∀ o, o ∈ objects → po_Key o ≠ [] ∧ ∀ ob, ms_objects m !! po_Key o = Some ob → ob_body ob = po_Body o) →
  ∃ m', runs (putPages objects) now m m' (Ok ()) ∧ stored m m' objects.
Proof.
  revert m; induction objects as [|o objects IH]; intros m H0 Hn HD Hf.
  { exists m. split; [done|apply stored_refl]. }
  assert (El : len (o :: objects) = len objects + 1) by (unfold len; cbn [length]; lia). rewrite El in Hn. pose proof (len_nonneg objects). cbn in HD. apply NoDup_cons in HD as [Hnin HD].
  destruct (Hf o ltac:(by left)) as [Hk Hb].
  destruct (runs_put now m (po_Key o) (po_Body o) ltac:(lia) H0 Hk Hb) as (m1 & r & R1 & N1 & ob & E1 & B1).
  destruct (IH m1) as (m' & R' & [N' I' O']); [lia|lia|done| |].
  { intros o' Ho'. destruct (Hf o' ltac:(by right)) as [Hk' Hb']. split; [done|]. intros ob'. rewrite E1, lookup_insert_ne; [apply Hb'|].
    intros Eq. apply Hnin. rewrite Eq. by apply list_elem_of_fmap_2. }
  exists m'. split; [by eapply runs_io|]. constructor; [rewrite El; lia| |].
  - intros o' [->|Ho']%elem_of_cons; [|by apply I']. exists ob. split; [|done]. rewrite (O' _ Hnin), E1. by rewrite lookup_insert_eq.
  - intros key Hkey. cbn in Hkey. apply not_elem_of_cons in Hkey as [Hne Hkey]. rewrite (O' _ Hkey), E1. by rewrite lookup_insert_ne.
Qed.

Lemma decode_marshalled pages head es body : catalog_rep c pages head es → MarshalHead head = Ok body → DecodeHead c body = Ok head.
Proof.
  intros HR HM. unfold DecodeHead. rewrite (proj2 (ParseHead_spec body head) (conj (cr_typed _ _ _ _ HR) HM)). cbn [wrap_err mbind result_bind].
  by rewrite (cr_config _ _ _ _ HR).
Qed.

(** [Load] of the current head. *)
Lemma runs_load e now m pages head token es :
  Engine_config e (cf_Partition c) = Ok c → ms_next m < MaxUint64 → catalog_rep c pages head es → holds_head m head token →
  runs (Engine_Load e (cf_Partition c)) now m m (Ok (head, token)).
Proof.
  intros Hc Hn HR (o & Ho & HM & Ht). unfold Engine_Load. rewrite Hc.
  eapply (runs_io _ _ _ _ m m); [done|].
  eapply (runs_io _ _ _ _ m m (Ok (cloneObject (HeadPath c) o))).
  { apply runs_try. apply runs_call; [done|]. unfold runs. cbn [mem_answer mem_call]. unfold Store_Get. mem_step.
    rewrite bool_decide_false by apply HeadPath_nonempty. by rewrite Ho. }
  cbv beta iota. cbn [cloneObject o_Body o_Token]. rewrite (decode_marshalled _ _ _ _ HR HM), Ht. done.
Qed.

Lemma runs_find e now m head token es lsn :
  Engine_config e (cf_Partition c) = Ok c → ms_next m < MaxUint64 → catalog_rep c (mem_pages m) head es → holds_head m head token →
  runs (Engine_FindSegment e (cf_Partition c) lsn) now m m (Ok (segmentRef c <$> at_lsn lsn es)).
Proof.
  intros Hc Hn HR Hh. unfold Engine_FindSegment, Engine_reader. rewrite Hc.
  eapply (runs_io _ _ _ _ m m (c, head)).
  { eapply (runs_io _ _ _ _ m m); [done|]. eapply (runs_io _ _ _ _ m m); [by eapply runs_load|]. done. }
  cbv beta iota. pose proof (runs_reader (λ pages ctx, FindSegment c pages ctx head lsn) now m Hn) as HF. cbv beta in HF.
  by rewrite (FindSegment_rep _ _ _ _ lsn HR) in HF.
Qed.

(** A commit whose first swap lands. *)
Lemma runs_commitLocked now m s previous mu applied state :
  ms_next m < MaxUint64 → 0 ≤ ms_next m → s_config s = c → 0 < eo_CommitAttempts (s_engine s) →
  match ms_objects m !! HeadPath c with Some o => ob_token o = s_token s | None => s_token s = [] end →
  Config_PartitionHead c (mu_Head mu) = Ok state →
  ∃ m' token, runs (commitLocked previous mu applied s) now m m' (set_head (mu_Head mu) token s, Ok state) ∧
    ms_next m' = ms_next m + 1 ∧
    ∃ ob, ms_objects m' = <[HeadPath c := ob]> (ms_objects m) ∧ ob_body ob = mu_HeadBody mu ∧ ob_token ob = token.
Proof.
  intros Hn H0 Hc Hat Ht Hst. destruct (runs_swap now m (s_token s) (mu_HeadBody mu) Hn H0 Ht) as (m' & o & R & N' & ob & Eo & Eb & Et).
  exists m', (o_Token o). split; [|split; [done|by exists ob]]. unfold commitLocked.
  eapply (runs_sess _ _ _ s _ m m); [done|]. cbv beta. destruct (Z.to_nat (eo_CommitAttempts (s_engine s))) as [|n] eqn:En; [lia|].
  eapply (runs_sess _ _ _ (set_head (mu_Head mu) (o_Token o) s) _ m m' _ (inl state)); [|done]. cbn [commit_loop].
  eapply (runs_sess _ _ _ s _ m m); [done|]. cbv beta zeta. rewrite Hc.
  eapply (runs_sess _ _ _ s _ m m'); [by apply runs_sess_io, runs_try|]. cbv beta iota.
  eapply (runs_sess _ _ _ (set_head (mu_Head mu) (o_Token o) s) _ m' m'); [done|]. cbv beta.
  eapply (runs_sess _ _ _ (set_head (mu_Head mu) (o_Token o) s) _ m' m' _ state); [|done]. by rewrite Hst.
Qed.

(** A segment that the tree appends is not the last one. *)
Lemma append_not_last pages head es segment mu :
  catalog_rep c pages head es → SegmentRef_typed segment → Append c head segment = Ok mu →
  HasLastSegment head && bool_decide (segmentRef c (hd_LastSegment head) = segment) = false.
Proof.
  intros HR Hty HA. destruct (HasLastSegment head) eqn:Eh; [|done]. cbn [andb]. apply bool_decide_false. intros E.
  destruct (Append_inv _ _ _ _ HA) as [entry HC]. pose proof (ac_base _ _ _ _ HC) as Hb.
  destruct (leafEntry_inv c segment entry Hty (ac_entry _ _ _ _ HC)) as (_ & Hs).
  pose proof (hk_last _ (cr_ok _ _ _ _ HR)) as Hl. rewrite Eh in Hl. destruct Hl as (Hv & _ & _ & Hlast & _).
  destruct (leaf_valid_inv _ Hv) as ([Hr _] & _). cbn in Hr.
  assert (Eb : le_BaseLSN entry = le_BaseLSN (hd_LastSegment head)) by (rewrite <- Hs in E; by apply (f_equal sr_BaseLSN) in E). lia.
Qed.

Lemma append_pages_new pages head es segment mu :
  catalog_rep c pages head es → SegmentRef_typed segment → Append c head segment = Ok mu →
  NoDup (map po_Key (mu_Pages mu)) ∧ ∀ o, o ∈ mu_Pages mu → po_Key o = PagePath c (po_Ref o) ∧ IndexEntry_typed (po_Ref o) ∧
    ie_Level (po_Ref o) ≤ MaxIndexLevel ∧ ie_Generation (po_Ref o) = hh_Generation (hd_Header head) + 1.
Proof.
  intros HR Hty HA. destruct (Append_inv _ _ _ _ HA) as [entry HC]. rewrite (Append_checked _ _ _ _ HC) in HA.
  destruct (next_generation c pages head es segment entry HR HC) as [Eg _].
  destruct (append_lists_spec c pages head es segment entry HR HC Hty) as (new & r & EL & HN & HD & _).
  rewrite EL in HA. cbn [fst snd] in HA. inv_ok. destruct x as [active ss]. inv_ok. split; [by eapply page_new_keys|].
  intros o Ho. apply (proj1 (Forall_forall _ _) HN) in Ho as [Hl (Elv & Egen & Ht & _ & Ek & _)].
  split; [done|]. split; [done|]. split; lia.
Qed.

(** No page of a generation after [g] is stored. *)
Definition pages_upto (m : MemStore) (g : Z) : Prop :=
  ∀ ref, IndexEntry_typed ref → ie_Level ref ≤ MaxIndexLevel → g < ie_Generation ref → ms_objects m !! PagePath c ref = None.

(** A session that holds the current head, with nothing pending. *)
Record ready (m : MemStore) (s : Session) (es : list LeafEntry) : Prop := {
  rd_rep : catalog_rep c (mem_pages m) (s_head s) es;
  rd_head : holds_head m (s_head s) (s_token s);
  rd_pages : pages_upto m (hh_Generation (hd_Header (s_head s)));
  rd_config : s_config s = c;
  rd_stale : s_stale s = false;
  rd_pending : s_pending s = None;
  rd_attempts : 0 < eo_CommitAttempts (s_engine s);
  rd_next : 0 ≤ ms_next m }.

(** Pages read after storing objects. *)
Lemma stored_pages m m1 m2 objects ob :
  stored m m1 objects → ms_objects m2 = <[HeadPath c := ob]> (ms_objects m1) →
  Forall (λ o, page_key c (po_Key o)) objects → pages_le c (put_pages objects (mem_pages m)) (mem_pages m2).
Proof.
  intros [_ HI HO] E HK key Hk body. pose proof (page_key_nonempty key Hk) as Hne.
  assert (Hh : key ≠ HeadPath c) by (intros ->; by apply head_not_page in Hk).
  assert (Hget : ∀ m' : MemStore, mem_pages m' key = match ms_objects m' !! key with Some o => Ok (ob_body o) | None => Err [BlobErrObjectNotFound] end).
  { intros m'. unfold mem_pages, Store_Get. mem_step. rewrite bool_decide_false by done. by destruct (ms_objects m' !! key). }
  rewrite Hget, E, lookup_insert_ne by done. unfold put_pages. destruct (List.find _ objects) as [o|] eqn:Ef.
  - apply List.find_some in Ef as [Ho Eo]. bool_to_prop. subst key. apply list_elem_of_In in Ho.
    destruct (HI o Ho) as (ob' & -> & <-). done.
  - rewrite Hget, HO; [done|]. intros Hin. apply list_elem_of_fmap in Hin as (o & -> & Ho).
    pose proof (proj1 (find_None_iff _ _) Ef o Ho) as Hb. by apply bool_decide_eq_false in Hb.
Qed.

(** The calls of an append. *)
Lemma runs_append_calls now m m1 m2 s es segment mu token state :
  catalog_rep c (mem_pages m) (s_head s) es → s_config s = c → s_stale s = false → s_pending s = None → ms_next m < MaxUint64 →
  SegmentRef_typed segment → Append c (s_head s) segment = Ok mu →
  runs (putPages (mu_Pages mu)) now m m1 (Ok ()) →
  runs (commitLocked (s_head s) mu (append_applied c segment) s) now m1 m2 (set_head (mu_Head mu) token s, Ok state) →
  runs (Session_AppendSegment segment s) now m m2 (set_lastAppend segment state (set_head (mu_Head mu) token s), Ok state).
Proof.
  intros HR Hc Hst Hpn Hn Hty HA R1 R2. unfold Session_AppendSegment.
  eapply (runs_sess _ _ _ s _ m m); [by apply runs_sess_io, runs_ctx|].
  eapply (runs_sess _ _ _ s _ m m); [done|]. cbv beta. rewrite Hst.
  eapply (runs_sess _ _ _ s _ m m _ ()).
  { unfold resolveRetentionLocked. eapply (runs_sess _ _ _ s _ m m); [done|]. cbv beta. by rewrite Hpn. }
  eapply (runs_sess _ _ _ s _ m m); [done|]. cbv beta. rewrite Hc, (append_not_last _ _ _ _ _ HR Hty HA).
  eapply (runs_sess _ _ _ s _ m m _ mu); [by rewrite HA|].
  eapply (runs_sess _ _ _ s _ m m1 _ ()); [by apply runs_sess_io|].
  eapply (runs_sess _ _ _ (set_head (mu_Head mu) token s) _ m1 m2 _ state); [|done].
  unfold commitAppendLocked. eapply (runs_sess _ _ _ s _ m1 m1); [done|]. cbv beta. by rewrite Hc.
Qed.

Lemma pages_upto_stored m m1 m2 objects ob g :
  pages_upto m g → stored m m1 objects → ms_objects m2 = <[HeadPath c := ob]> (ms_objects m1) →
  (∀ o, o ∈ objects → po_Key o = PagePath c (po_Ref o) ∧ IndexEntry_typed (po_Ref o) ∧
     ie_Level (po_Ref o) ≤ MaxIndexLevel ∧ ie_Generation (po_Ref o) = g + 1) → pages_upto m2 (g + 1).
Proof.
  intros HP HS E HO ref Ht Hl Hg. rewrite E, lookup_insert_ne.
  2: { intros Eq. apply (head_not_page c). rewrite Eq. apply PagePath_key. }
  rewrite (sd_out _ _ _ HS); [apply HP; [done|done|lia]|]. intros Hin. apply list_elem_of_fmap in Hin as (o & Eq & Ho).
  destruct (HO o Ho) as (Ek & Ht' & Hl' & Hg'). rewrite Ek in Eq. apply PagePath_inj in Eq as (_ & _ & _ & Egen & _); try done. lia.
Qed.

Lemma runs_append now m s es segment mu :
  ready m s es → SegmentRef_typed segment → Append c (s_head s) segment = Ok mu → ms_next m + len (mu_Pages mu) < MaxUint64 →
  ∃ m' s' state entry, runs (Session_AppendSegment segment s) now m m' (s', Ok state) ∧
    Config_PartitionHead c (mu_Head mu) = Ok state ∧ s_head s' = mu_Head mu ∧ segmentRef c entry = segment ∧ ready m' s' (es ++ [entry]) ∧
    ms_next m' ≤ ms_next m + len (mu_Pages mu) + 1.
Proof.
  intros [HR (o & Ho & HMo & Ht) Hup Hc Hst Hpn Hat H0] Hty HA Hn. pose proof (len_nonneg (mu_Pages mu)).
  destruct (append_rep _ _ _ _ _ _ HR Hty HA) as (entry & _ & Hse & HR' & HL & HM & Hgen & _).
  destruct (append_pages_new _ _ _ _ _ HR Hty HA) as [HD Hnew]. pose proof (later_page_keys c _ _ HL) as Hkeys.
  destruct (runs_putPages now m (mu_Pages mu) H0 Hn HD) as (m1 & R1 & S1).
  { intros ob Hob. split; [apply page_key_nonempty; by apply (proj1 (Forall_forall _ _) Hkeys)|]. intros ob' Hob'.
    destruct (Hnew ob Hob) as (Ek & Ht' & Hl' & Hg'). rewrite Ek, Hup in Hob'; [done|done|done|lia]. }
  pose proof (sd_next _ _ _ S1) as Hn1.
  assert (Hh1 : ms_objects m1 !! HeadPath c = Some o).
  { rewrite (sd_out _ _ _ S1); [done|]. intros Hin. apply list_elem_of_fmap in Hin as (ob & E & Hob).
    apply (proj1 (Forall_forall _ _) Hkeys) in Hob. rewrite <- E in Hob. by apply head_not_page in Hob. }
  assert (Hcfg : ∃ state, Config_PartitionHead c (mu_Head mu) = Ok state).
  { unfold Config_PartitionHead. rewrite (cr_config _ _ _ _ HR'). by eexists. }
  destruct Hcfg as [state Hstate].
  destruct (runs_commitLocked now m1 s (s_head s) mu (append_applied c segment) state) as (m2 & token & R2 & N2 & ob & Eo & Eb & Et);
    [lia|lia|done|done|by rewrite Hh1|done|].
  exists m2, (set_lastAppend segment state (set_head (mu_Head mu) token s)), state, entry.
  split; [|split; [done|]; split; [done|]; split; [done|]; split; [|lia]].
  - eapply runs_append_calls; [exact HR|done|done|done|lia|done|done|exact R1|exact R2].
  - constructor; try done; cbn.
    + eapply catalog_rep_pages; [|exact HR']. by eapply stored_pages.
    + exists ob. rewrite Eo, lookup_insert_eq, Eb. by split.
    + rewrite Hgen. by eapply pages_upto_stored.
    + lia.
Qed.

Lemma swapped_head m m' head body ob token :
  MarshalHead head = Ok body → ms_objects m' = <[HeadPath c := ob]> (ms_objects m) → ob_body ob = body → ob_token ob = token →
  holds_head m' head token.
Proof. intros HM E Eb Et. exists ob. rewrite E, lookup_insert_eq, Eb. by split. Qed.

Lemma swapped_rep m m' ob head es :
  ms_objects m' = <[HeadPath c := ob]> (ms_objects m) → catalog_rep c (mem_pages m) head es → catalog_rep c (mem_pages m') head es.
Proof.
  intros E. apply catalog_rep_pages. apply (stored_pages m m m' [] ob); [apply stored_refl|done|constructor].
Qed.

Lemma runs_initialize e now m n head body state :
  Engine_config e (cf_Partition c) = Ok c → NewHead c n = Ok (head, body) → ms_objects m !! HeadPath c = None →
  Config_PartitionHead c head = Ok state → 0 ≤ ms_next m → ms_next m < MaxUint64 →
  ∃ m' token ob, runs (Engine_Initialize e (cf_Partition c) n) now m m' (Ok (state, true)) ∧ holds_head m' head token ∧
    ms_next m' = ms_next m + 1 ∧ ms_objects m' = <[HeadPath c := ob]> (ms_objects m).
Proof.
  intros Hc HN Hno Hst H0 Hn. destruct (runs_swap now m [] body Hn H0) as (m' & o & R & N' & ob & Eo & Eb & Et); [by rewrite Hno|].
  exists m', (o_Token o), ob. split.
  - unfold Engine_Initialize. rewrite Hc. eapply (runs_io _ _ _ m m); [by apply runs_ctx|]. eapply (runs_io _ _ _ m m); [done|].
    eapply (runs_io _ _ _ m m); [by rewrite HN|]. cbv beta iota. eapply (runs_io _ _ _ m m'); [exact R|]. cbv beta iota.
    eapply (runs_io _ _ _ m' m'); [done|]. cbv beta. by rewrite Hst.
  - split; [|by split]. eapply swapped_head; [|done|done|done]. unfold NewHead in HN. by inv_ok.
Qed.

Lemma runs_open e now m head token es writerID mu :
  Engine_config e (cf_Partition c) = Ok c → 0 < eo_AcquireAttempts e → 0 < eo_CommitAttempts e →
  catalog_rep c (mem_pages m) head es → holds_head m head token → pages_upto m (hh_Generation (hd_Header head)) →
  length writerID = 16%nat → Takeover c head writerID = Ok mu → 0 ≤ ms_next m → ms_next m < MaxUint64 →
  ∃ m' token', runs (Engine_OpenWriter e (cf_Partition c) writerID) now m m' (Ok (newSession e c (mu_Head mu) token')) ∧
    ready m' (newSession e c (mu_Head mu) token') es ∧ ms_next m' = ms_next m + 1.
Proof.
  intros Hc Hat Hca HR Hh Hup Hid HT H0 Hn. pose proof Hh as (o & Ho & HMo & Hto).
  destruct (runs_swap now m token (mu_HeadBody mu) Hn H0) as (m' & ob & R & N' & ob' & Eo & Eb & Et); [by rewrite Ho|].
  pose proof HT as HT'. unfold Takeover in HT'. inv_ok. bool_to_prop. cbn [mu_Head mu_HeadBody] in *.
  exists m', (o_Token ob). split; [|split; [|done]].
  - unfold Engine_OpenWriter. rewrite Hc. eapply (runs_io _ _ _ m m); [by apply runs_ctx|]. eapply (runs_io _ _ _ m m); [done|].
    eapply (runs_io _ _ _ m m); [by eapply runs_load|]. cbv beta iota.
    destruct (Z.to_nat (eo_AcquireAttempts e)) as [|n] eqn:En; [lia|]. cbn [acquire_loop].
    eapply (runs_io _ _ _ m m' _ (inl (newSession e c (takeover_head head writerID) (o_Token ob)))); [|done].
    eapply (runs_io _ _ _ m m); [by rewrite HT|]. cbv beta zeta. eapply (runs_io _ _ _ m m'); [by apply runs_try|]. done.
  - constructor; try done; cbn [newSession s_head s_token].
    + eapply swapped_rep; [done|]. by apply takeover_rep.
    + by eapply swapped_head.
    + destruct (takeover_numbers c _ _ _ HR) as (_ & Eg & _); [done|done|]. cbn. rewrite Eg.
      apply (pages_upto_stored m m m' [] ob'); [done|by apply stored_refl|done|by intros o' ?%elem_of_nil].
    + lia.
Qed.
End progress.

(** C35. Appends make progress.  On the in-memory store, with a live context and
    no other writer in between, a session that holds the current head commits
    every segment the tree accepts: the call returns the new head's state, the
    head object holds the new head, the catalog it represents, read back from
    the store, has the segment added at its end, and the session is ready for
    the next segment. *)
Theorem append_progress `{XXHash} c now m s es segment mu :
  ready c m s es → SegmentRef_typed segment → Append c (s_head s) segment = Ok mu → ms_next m + len (mu_Pages mu) < MaxUint64 →
  ∃ m' s' state entry, mem_run (Session_AppendSegment segment s) now m = Some (m', (s', Ok state)) ∧
    Config_PartitionHead c (mu_Head mu) = Ok state ∧ s_head s' = mu_Head mu ∧ segmentRef c entry = segment ∧
    ready c m' s' (es ++ [entry]).
Proof.
  intros Hr Ht HA Hn. destruct (runs_append c now m s es segment mu Hr Ht HA Hn) as (m' & s' & state & entry & H1 & H2 & H3 & H4 & H5 & _).
  by exists m', s', state, entry.
Qed.

(** ** A concrete run: create, open, append, read *)
#[local] Existing Instance xxhash_example.

Definition ex_options : EngineOptions := {|
  eo_CatalogPrefix := str "catalog"; eo_DataRoot := []; eo_StreamID := str "orders"; eo_LeafLimit := 1; eo_IndexLimit := 2;
  eo_HashAlgo := 1; eo_CASAttempts := 0; eo_InitialBackoff := 0; eo_MaxBackoff := 0; eo_AcquireAttempts := 0;
  eo_AcquireInitialBackoff := 0; eo_AcquireMaxBackoff := 0; eo_CommitAttempts := 0; eo_CommitInitialBackoff := 0; eo_CommitMaxBackoff := 0 |}.
Definition ex_engine : EngineOptions := Eval vm_compute in
  match NewEngine false ex_options with Ok e => e | Err _ => ex_options end.

Lemma example_config_ok : config_ok example_config.
Proof. constructor; try (vm_compute; congruence); try (split; vm_compute; congruence); vm_compute; reflexivity. Qed.
Lemma ex_engine_for : engine_for example_config ex_engine.
Proof. split; [exists false, ex_options; vm_compute; reflexivity|vm_compute; reflexivity]. Qed.

Lemma ex_attempts : 0 < eo_AcquireAttempts ex_engine ∧ 0 < eo_CommitAttempts ex_engine.
Proof. split; reflexivity. Qed.

Lemma ex_marshals pages head es : catalog_rep example_config pages head es → ∃ body, MarshalHead head = Ok body.
Proof. intros HR. destruct Marshal_total as (_ & _ & HM). apply (HM _ (cr_typed _ _ _ _ HR)), (cr_ok _ _ _ _ HR). Qed.
Lemma ex_created : ∃ body, NewHead example_config 5 = Ok (ex_head0, body).
Proof. destruct (ex_marshals _ _ _ ex_rep0) as [body HM]. exists body. unfold NewHead. cbn [Z.eqb]. fold ex_head0. by rewrite HM. Qed.
Lemma ex_taken : ∃ mu, Takeover example_config ex_head0 ex_writer = Ok mu ∧ mu_Head mu = ex_head1.
Proof.
  destruct (ex_marshals _ _ _ ex_rep1) as [body HM]. eexists. unfold Takeover.
  rewrite bool_decide_false by (vm_compute; discriminate). rewrite (cr_config _ _ _ _ ex_rep0). cbn [mbind result_bind].
  change (takeover_head ex_head0 ex_writer) with ex_head1. rewrite HM. split; reflexivity.
Qed.

Lemma rep_empty pages pages' head : catalog_rep example_config pages head [] → head_roots head = [] → catalog_rep example_config pages' head [].
Proof.
  intros [H1 H2 H3 (ess & HF & E) H5] Hr. constructor; try done. exists []. split; [|done].
  rewrite <- headRoots_ranges in Hr. destruct (headRoots head); [constructor|done].
Qed.

(** The state after creation and takeover. *)
Lemma ex_opened :
  ∃ m1 m2 session state, runs (Engine_Initialize ex_engine (cf_Partition example_config) 5) 0 NewStore m1 (Ok (state, true)) ∧
    runs (Engine_OpenWriter ex_engine (cf_Partition example_config) ex_writer) 0 m1 m2 (Ok session) ∧
    ready example_config m2 session [] ∧ s_head session = ex_head1 ∧ ms_next m2 = 2.
Proof.
  destruct ex_engine_for as [_ Hc]. destruct ex_created as [body HN]. destruct ex_taken as (mu & HT & Hmu).
  assert (Hst : ∃ state, Config_PartitionHead example_config ex_head0 = Ok state).
  { unfold Config_PartitionHead. rewrite (cr_config _ _ _ _ ex_rep0). by eexists. }
  destruct Hst as [state Hst].
  destruct (runs_initialize example_config ex_engine 0 NewStore 5 ex_head0 body state Hc HN) as (m1 & token & ob & R1 & Hh & N1 & E1);
    [done|done|done|done|].
  destruct (runs_open example_config ex_engine 0 m1 ex_head0 token [] ex_writer mu Hc) as (m2 & token2 & R2 & Hr & N2);
    [apply ex_attempts|apply ex_attempts|by apply (rep_empty ex_pages0); [exact ex_rep0|]|done| |reflexivity|done|by rewrite N1|by rewrite N1|].
  { intros ref Ht Hl Hg. rewrite E1, lookup_insert_ne; [apply lookup_empty|].
    intros Eq. apply (head_not_page example_config). rewrite Eq. apply PagePath_key. }
  exists m1, m2, (newSession ex_engine example_config (mu_Head mu) token2), state.
  split; [done|]. split; [done|]. split; [done|]. split; [done|]. rewrite N2, N1. done.
Qed.

Lemma append_progress_witness :
  ∃ m s m' s' state entry, mem_run (Session_AppendSegment ex_s1 s) 0 m = Some (m', (s', Ok state)) ∧
    segmentRef example_config entry = ex_s1 ∧ ready example_config m' s' [entry].
Proof.
  destruct ex_opened as (m1 & m2 & session & state0 & _ & _ & Hr & Hh & Hn). exists m2, session.
  destruct (append_progress example_config 0 m2 session [] ex_s1 ex_m1 Hr ex_typed1) as (m' & s' & state & entry & H1 & _ & _ & H4 & H5).
  - rewrite Hh. exact ex_append1.
  - rewrite Hn. reflexivity.
  - exists m', s', state, entry. split; [exact H1|]. split; [exact H4|exact H5].
Defined.

Lemma runs_outcome {A} (p : prog eresp A) (f : A → outcome) now m m' a :
  runs p now m m' a → mem_run (prog_bind p (λ r, Return (f r))) now m = Some (m', f a).
Proof. unfold runs. intros Hp. by rewrite mem_run_bind, Hp. Qed.

(** Create, open, append, look the segment up, append again. *)
Lemma ex_reachable :
  ∃ sys n1 n2 n3 n4 n5 s1 s2 s3 st1 st2, reachable example_config sys ∧
    mkEvent n1 n2 (Opened ex_writer (Ok s1)) ∈ sy_events sys ∧
    mkEvent n2 n3 (Appended ex_s1 s2 (Ok st1)) ∈ sy_events sys ∧
    mkEvent n3 n4 (Found 5 (Ok (Some ex_s1))) ∈ sy_events sys ∧
    mkEvent n4 n5 (Appended ex_s2 s3 (Ok st2)) ∈ sy_events sys.
Proof.
  pose proof ex_engine_for as He. pose proof He as [_ Hc]. pose proof mem_abs_new as A0.
  assert (R0 : reachable example_config (mkSystem (mkBlobs ∅ [] []) [] [] [])) by apply rtc_refl.
  destruct ex_opened as (m1 & m2 & session & state & I1 & I2 & Hr2 & Hh2 & Hn2).
  destruct (reach_method _ ex_engine (Initialize 5) 0 _ _ _ _ _ _ He R0 A0 (runs_outcome _ Initialized _ _ _ _ I1)) as (b1 & A1 & R1);
    [split; vm_compute; congruence|]. cbn [app outcome_session] in R1.
  destruct (reach_method _ ex_engine (OpenWriter ex_writer) 0 _ _ _ _ _ _ He R1 A1 (runs_outcome _ (Opened ex_writer) _ _ _ _ I2)) as (b2 & A2 & R2);
    [reflexivity|]. cbn [app outcome_session] in R2.
  destruct (runs_append example_config 0 m2 session [] ex_s1 ex_m1 Hr2 ex_typed1) as (m3 & s3 & st3 & entry & I3 & _ & Hh3 & Hse & Hr3 & Hn3);
    [by rewrite Hh2; apply ex_append1|by rewrite Hn2|]. rewrite Hn2 in Hn3.
  destruct (reach_session _ (AppendSegment ex_s1) session 0 _ _ _ _ _ _ R2 A2
              (runs_outcome _ (λ r, Appended ex_s1 r.1 r.2) _ _ _ _ I3) ex_typed1) as (b3 & A3 & R3). cbn [app outcome_session fst snd] in R3.
  assert (Hl3 : ms_next m3 ≤ 4) by (eapply Z.le_trans; [exact Hn3|vm_compute; discriminate]).
  pose proof (runs_find example_config ex_engine 0 m3 (s_head s3) (s_token s3) [entry] 5 Hc ltac:(unfold_widths; lia) (rd_rep _ _ _ _ Hr3) (rd_head _ _ _ _ Hr3)) as I4.
  rewrite <- (at_lsn_map (segmentRef example_config)) in I4 by done. cbn [map] in I4. rewrite Hse in I4.
  change (at_lsn 5 [ex_s1]) with (Some ex_s1) in I4.
  destruct (reach_method _ ex_engine (Find 5) 0 _ _ _ _ _ _ He R3 A3 (runs_outcome _ (Found 5) _ _ _ _ I4)) as (b4 & A4 & R4);
    [done|]. cbn [app outcome_session] in R4.
  destruct (runs_append example_config 0 m3 s3 _ ex_s2 ex_m2 Hr3 ex_typed2) as (m5 & s5 & st5 & entry5 & I5 & _ & _ & _ & _ & _);
    [by rewrite Hh3; apply ex_append2|eapply Z.le_lt_trans; [apply Z.add_le_mono_r, Hl3|vm_compute; reflexivity]|].
  destruct (reach_session _ (AppendSegment ex_s2) s3 0 _ _ _ _ _ _ R4 A4
              (runs_outcome _ (λ r, Appended ex_s2 r.1 r.2) _ _ _ _ I5) ex_typed2) as (b5 & A5 & R5). cbn [app outcome_session fst snd] in R5.
  eexists. do 10 eexists. split; [exact R5|]. cbn [sy_events].
  split; [|split; [|split]]; [apply (list_elem_of_lookup_2 _ 3)|apply (list_elem_of_lookup_2 _ 2)
    |apply (list_elem_of_lookup_2 _ 1)|apply (list_elem_of_lookup_2 _ 0)]; reflexivity.
Qed.

(** ** The system's theorems on that run *)
Lemma publication_safe_witness :
  ∃ sys log, published example_config (sy_store sys) log ∧ Forall (event_ok example_config log) (sy_events sys) ∧ sy_events sys ≠ [].
Proof.
  destruct ex_reachable as (sys & n1 & n2 & n3 & n4 & n5 & s1 & s2 & s3 & st1 & st2 & HR & E1 & _).
  destruct (publication_safe _ _ example_config_ok HR) as (log & Hpb & Hev).
  exists sys, log. split; [exact Hpb|]. split; [exact Hev|]. intros E. rewrite E in E1. by apply elem_of_nil in E1.
Defined.

Lemma append_durable_witness :
  ∃ sys log head es, published example_config (sy_store sys) log ∧ last log = Some (head, es) ∧
    (ex_s1 ∈ map (segmentRef example_config) es ∨ sr_LastLSN ex_s1 < hh_OldestLSN (hd_Header head)).
Proof.
  destruct ex_reachable as (sys & n1 & n2 & n3 & n4 & n5 & s1 & s2 & s3 & st1 & st2 & HR & _ & E2 & _). exists sys.
  exact (append_durable _ _ _ _ _ _ _ example_config_ok HR E2).
Defined.

Lemma read_after_append_witness :
  ∃ sys, Some ex_s1 = Some ex_s1 ∨
  ∃ log v, published example_config (sy_store sys) log ∧ v ∈ log ∧ sr_LastLSN ex_s1 < hh_OldestLSN (hd_Header v.1).
Proof.
  destruct ex_reachable as (sys & n1 & n2 & n3 & n4 & n5 & s1 & s2 & s3 & st1 & st2 & HR & _ & E2 & E3 & _). exists sys.
  apply (read_after_append _ _ _ _ ex_s1 _ _ _ _ 5 (Some ex_s1) example_config_ok HR E2 E3); [reflexivity|].
  split; vm_compute; discriminate.
Defined.

Lemma appends_disjoint_witness :
  ex_s1 = ex_s2 ∨ sr_LastLSN ex_s1 < sr_BaseLSN ex_s2 ∨ sr_LastLSN ex_s2 < sr_BaseLSN ex_s1.
Proof.
  destruct ex_reachable as (sys & n1 & n2 & n3 & n4 & n5 & s1 & s2 & s3 & st1 & st2 & HR & _ & E2 & _ & E4).
  exact (appends_disjoint _ _ _ _ _ _ _ _ _ _ _ _ example_config_ok HR E2 E4).
Defined.


